(* ===== verification/_CoqProject ===== *)
-Q . S2P
Prelude.v
Monad.v
TimeUtils.v
TcpError.v
Sockets.v
TcpIO.v
Gzip.v
Encoding.v
FixHeader.v
Message.v
Protocol.v
SocketBreaker.v
UnixSocket.v
Log.v
Poll.v
PollProps.v
MessageQueue.v
Alarm.v
TcpDefine.v
Connector.v
ConnectorProps.v
ComplexConnect.v
ComplexProps.v
ComplexTurns.v
ComplexEnds.v
DnsQuery.v
DnsProps.v
TcpClient.v
Connecting.v
ConnectDemo.v
EndsDemo.v
Logic.v
System.v
NetCore.v
Demo.v
ClientProps.v
ClientDemo.v
Jni.v
JniProps.v
JniSystem.v
JniDemo.v
Locks.v
LocksProps.v
Joining.v
