(* ===== verification/Prelude.v ===== *)
(** * go-socket-client: verification development

    The repository is a C++ client library for a push service: one connection over
    TCP or TLS, on which requests with callbacks, messages without reply and
    messages of the server travel, with heartbeats, timeouts and reconnection.  This
    development models the library in Rocq and proves what its parts promise.  The
    sources are named by their paths under src/.

    ** The program

    The application calls the static functions of NetCore (net_core.cpp), which
    delegate to one TcpClient (tcp_client.cpp).  The client runs its connection on a
    thread: it finds the addresses of the host (connect/dns_query.cpp), opens several
    connections at once and keeps the first (connect/complex_connect.cpp, with
    tcp_connector.cpp and ssl_connector.cpp), logs in, and then loops around select,
    writing queued messages and reading packets.  The packets are in packet/: a
    fixed header, seven classes of messages, strings that may be compressed, read
    and written through socket/tcp_socket.cpp and ssl_socket.cpp.  A thread that is
    blocked in select is woken by a pipe (socket/socket_breaker.cpp) which every
    SocketSelect (socket/socket_select.cpp over epoll, kqueue or poll) watches.
    Timers (common/alarm.cpp) post callbacks to a queue that a thread drains
    (common/message_queue.cpp); object_pool.hpp keeps the timers of requests.

    ** The files

    - Prelude: bytes, machine integers, [outcome] (return, exception, undefined
      behaviour, fuel exhausted), assignment to record fields, shared lemmas and
      automation.  Monad: state-passing code [ST] and its weakest preconditions,
      [wp] (partial) and [twp] (total correctness).
    - Wire: TcpError (tcp_error.cpp), Sockets (tcp_socket.cpp, ssl_socket.cpp), TcpIO
      (tcp_io.cpp), Gzip and Encoding (encoding.cpp), FixHeader (fix_header.cpp),
      Message (message.cpp, message_base.cpp, message_manager.cpp), Protocol (the
      properties of the wire format).
    - Waiting: SocketBreaker (socket_breaker.cpp), UnixSocket (unix_socket.cpp), Poll
      (socket_poll.cpp, socket_epoll.cpp, socket_kqueue.cpp, socket_select.cpp),
      PollProps (their properties), TimeUtils (time_utils.c).
    - Timers: MessageQueue (message_queue.cpp), Alarm (alarm.cpp, object_pool.hpp).
    - Connecting: TcpDefine (tcp_define.h), Connector (tcp_connector.cpp,
      ssl_connector.cpp) and ConnectorProps, ComplexConnect (complex_connect.cpp) with
      ComplexProps, ComplexTurns and ComplexEnds, DnsQuery (dns_query.cpp) with
      DnsProps, Connecting (the services of the client made of these).
    - Client: TcpClient (tcp_client.cpp), Logic (a program logic for it), System (its
      threads), NetCore (net_core.cpp), ClientProps (single operations).
    - Android: Jni (jni/) with JniProps, JniSystem (the listeners of requests, through
      System).
    - Threads: Locks (the mutexes that each operation takes, on each of its branches) with
      LocksProps, Joining (the life of the std::thread of __Run, line by line).
    - Log (log/).
    - Demo, ClientDemo, ConnectDemo, EndsDemo, JniDemo: concrete systems at which the
      properties are applied; the witnesses of the other files are at their ends.

    A class of the source is a Module with a record [t] that has its fields by their
    names, and one definition for each method, by its name.  What is not part of the
    repository is a class of operations over a type [K], the state of everything
    outside: Kernel, PipeKernel, SockOpts, ConnectKernel, PollKernel, EpollKernel,
    KqueueKernel, Clock, OpenSSL, Zlib, Resolver, JNI (jni.h).  What the code relies on
    is a second class of laws where a theorem needs it: KernelStream, PipeLaws,
    EpollLaws (what epoll_wait reports of an open pipe that is registered, when there
    is room for every descriptor), FcntlLaws, ZlibSpec, Ledger, Ticking and PollTicks (a
    clock that goes on), JvmLaws.  BaseDelete is a choice of the compiler: whether the
    deletion of an object through a pointer to its base, whose destructor is not
    virtual, is undefined, as the standard has it.  The components promise each other
    interfaces: ISocket and SocketControl, SocketStream, TimerQueue, SocketPollBase
    with PollInterest, PollReturns and PollKept, Services.

    ** What is proved

    - Wire: messages survive the round trip, packets are well formed and within their
      limits, integers and compressed strings are restored, decoding is independent
      of how the network splits the stream and, for five types of packets, defined on
      any bytes; for the others ten bytes are enough to make it undefined.
    - Waiting: a breaker is a flag; the three pollers watch what was asked for reading
      and writing, and poll and epoll for errors; Poll takes the signal of the breaker,
      also one that is raised while it waits; a signal that comes between the return of
      epoll_wait and the reset is lost.
    - Timers: the linked list with its pointers refines a sorted list; an alarm has
      exactly one pending callback while it is started, which runs once and not after
      Cancel, unless the alarm is cancelled and started again just between the test of
      the queue's thread and the callback: then the old callback passes for the new one
      ([Alarm.cancelled_alarm_fires]).
    - Connecting: connectors follow their state machine, never follow a null
      pointer, and give up at their deadline, which only the states Connecting and
      SSLConnecting have; ConnectImpatient closes every socket it does not return, if
      no connection fails as it is started, keeps to its limit at every turn, and comes
      back, if handshakes wait for the server; GetHostByName returns an address of a
      known source whatever the threads of the resolver do without a race, and
      __RunConnect therefore has three.
    - Client, in every interleaving: a callback is called at most once, messages are
      written in order, statuses follow their sequence, ids keep their range.  Single
      operations: Send, __WaitDisconnect, the kick-out by the server.
    - Android: send of Java is Send of the client; an answer reaches its listener once,
      whose global reference is valid then, in every interleaving, and deleted after it;
      threads are detached as they were found.
    - Threads: if no listener on the thread of __Run joins that thread, a schedule of the
      client's locks and joins is stuck only when all threads have ended, and all can
      always end; _mutex comes first, as the comment in Send demands, and callbacks run with
      no mutex held; there is one thread of __Run at most, while callers of
      __WaitDisconnect come one by one.  This is what System takes for granted.
    - Log: the extraction of a function's name ends within its buffers.

    Several theorems state behaviour that is not what the code is for: a decoder that
    is undefined on ten bytes, a partial write that loses data, callbacks that are
    not told of a loss, a Disconnect that is not sent, a descriptor that leaks, a
    signal that is lost, stale addresses, an interval between connections that is
    not kept, a handshake that never ends, a closure that detaches a thread of Java, a
    thread that waits for its own end, two callers that delete one thread.

    ** Bounds and fuel

    Integers are [Z] with their wrap-around written out; an [int] that overflows is
    [Undefined].  Recursion that is not structural has fuel: the loops of the
    encoders and of zlib, ReadFull and the queue are given enough, which their
    theorems show by returning.  ExtractFunctionName uses one more than the length
    of the name.  The fuel of the loop of ConnectImpatient is a parameter: [max_turns]
    of ComplexEnds is enough on a clock that every poll moves on, six steps for each
    address and before each a turn for every nanosecond of the longest timeout ([opening_ends] of
    Connecting has the client's constants); the theorem
    on sockets holds for any.  It is for timeouts of less than twelve days, so that the
    [int] differences of times are exact.

    ** Abstractions

    - A step of System is one operation, which the code runs under a mutex or on one
      thread between two points at which others can observe it.  The thread of the
      timer queue takes three steps for a message, here and in Alarm: the test whether
      it is cancelled, the closure under the lock of its alarm, and the inner callback.
      Other races that the code leaves open (see the findings) are not interleaved more
      finely, but for __WaitDisconnect in Joining.  SetHttpDns, which only reaches DnsQuery, is a step of
      the outside ([step_SetHttpDns]); SetOnConnStatusChange is called before the client
      is first connected.
    - Locks has the acquisitions and releases of each operation and leaves out what is
      computed between them: the branches are chosen by arguments, so that it has every
      run of the code and more.  On the thread of __Run no listener joins it
      ([Disconnect_in_listener] is what happens otherwise).  Waiting in select, in
      getaddrinfo, in sleep or on the condition variable holds no mutex, and
      std::call_once guards constructors that take none.
    - The detached threads of DnsQuery, also those of earlier queries for other hosts, are
      a part of its state, and go on step by step (reading the host, getaddrinfo, each
      address that is pushed, the signal) before the query, while it waits, and before it
      copies the cache: [others] is any such run ([DnsQuery.queries]).  A copy while
      a thread writes is undefined; runs in which two threads write at once are left
      out, and getaddrinfo is taken to have read the name when it is called, so that it
      does not see the next query overwrite it.  Queries of two clients at once are not
      modelled.
    - A TLS socket that is deleted through TcpSocket (complex_connect.cpp, tcp_connector.cpp)
      is undefined unless [base_delete]; the client's own [delete _socket] at the end of
      __Run is taken for freed memory.
    - The login reads the decoded message as it was, although its owner is gone.
    - close(2) of an epoll or kqueue descriptor is an operation of its own, so that
      the laws about sockets need not mention it.
    - The calls of the log in the other components are left out.  printf knows the
      conversions that the code uses.
    - A TLS connection is seen through the results of OpenSSL; that ConnectImpatient
      comes back needs that SSL_connect does not succeed in its first call.
    - The Java virtual machine is seen by one thread at a time: its references, strings
      and pending exception.  A number that Java passes for an enumerator and that is
      none is undefined.  JniSystem follows the listeners of requests, not those of
      the setters, which live as long as the process.

    ** Not modelled

    - openssl/: headers of a library; examples/, main.cpp, unit_test.cpp: programs that
      use the library; log/android/android_alarm.h: constants.
    - The branches for Windows.  Everything else of the library's own code is modelled. *)
From Stdlib Require Import ZArith Lia.
From Stdlib Require Strings.Byte Strings.String.
From stdpp Require Export base option list list_numbers numbers gmap strings.

#[global] Open Scope Z_scope.
#[export] Set Warnings "-clear-no-such-hyp".

(** ** Bytes

    A [uint8_t] or a [char] of the source is a [byte]; its numeric value, read
    as an unsigned number, is [byte_val]. *)

Abbreviation byte := Byte.byte.
Abbreviation bytes := (list Byte.byte).

Definition byte_val (b : byte) : Z := Z.of_N (Byte.to_N b).

(** Conversion of an integer to [uint8_t]: the low eight bits. *)
Definition byte_of (z : Z) : byte :=
  match Byte.of_N (Z.to_N (z mod 256)) with
  | Some b => b
  | None => Byte.x00
  end.

(** A [std::string] literal of the source. *)
Definition str (s : string) : bytes := String.list_byte_of_string s.

#[export] Instance byte_eq_dec : EqDecision byte := Byte.byte_eq_dec.
#[export] Instance byte_inhabited : Inhabited byte := populate Byte.x00.

(** ** Machine integers

    An integer of a fixed width is a [Z] with the wrap-around of its type
    written out at each operation that can leave the range. *)

Definition u8 (z : Z) : Z := z mod 2 ^ 8.
Definition u16 (z : Z) : Z := z mod 2 ^ 16.
Definition u32 (z : Z) : Z := z mod 2 ^ 32.
Definition u64 (z : Z) : Z := z mod 2 ^ 64.

(** Conversion to [int8_t], [int32_t] and [int64_t] (two's complement). *)
Definition i8 (z : Z) : Z := (z + 2 ^ 7) mod 2 ^ 8 - 2 ^ 7.
Definition i32 (z : Z) : Z := (z + 2 ^ 31) mod 2 ^ 32 - 2 ^ 31.
Definition i64 (z : Z) : Z := (z + 2 ^ 63) mod 2 ^ 64 - 2 ^ 63.

(** [size()] and [length()] of a C++ container. *)
Definition size {A} (l : list A) : Z := Z.of_nat (length l).

(** ** Outcomes of fallible code

    A C++ function that can throw returns, or throws an exception [e], or
    reaches a construct whose behaviour the language leaves undefined, or (a
    loop of the model only) exhausts the fuel it was given. *)

Inductive outcome (E A : Type) : Type :=
| Ret (a : A)
| Throw (e : E)
| Undefined
| OutOfFuel.
Arguments Ret {E A} a.
Arguments Throw {E A} e.
Arguments Undefined {E A}.
Arguments OutOfFuel {E A}.

Definition outcome_bind {E A B} (k : A → outcome E B) (m : outcome E A) : outcome E B :=
  match m with
  | Ret a => k a
  | Throw e => Throw e
  | Undefined => Undefined
  | OutOfFuel => OutOfFuel
  end.

(** Code that throws nothing. *)
Abbreviation checked := (outcome Empty_set).

#[export] Instance outcome_mret {E} : MRet (outcome E) := λ A a, Ret a.
#[export] Instance outcome_mbind {E} : MBind (outcome E) := λ A B k m, outcome_bind k m.

(** The result of an operation on [int]: an overflow is undefined. *)
Definition int_range (z : Z) : checked Z :=
  if (- 2 ^ 31 <=? z) && (z <? 2 ^ 31) then Ret z else Undefined.

(** ** Notations *)

Declare Scope c_scope.
Delimit Scope c_scope with C.
#[global] Open Scope c_scope.

(** Arithmetic of [uint32_t], and the comparison of two [uint32_t]. *)
Notation "x -u32 y" := (u32 (x - y)) (at level 50, left associativity) : c_scope.
Notation "x +u32 y" := (u32 (x + y)) (at level 50, left associativity) : c_scope.
(** The bit operators of C. *)
Notation "x .& y" := (Z.land x y) (at level 40, left associativity) : c_scope.
Notation "x .| y" := (Z.lor x y) (at level 49, left associativity) : c_scope.
Notation "x .<< n" := (Z.shiftl x n) (at level 38, left associativity) : c_scope.
Notation "x .>> n" := (Z.shiftr x n) (at level 38, left associativity) : c_scope.

(** ** Assignment to a field of a record

    [s <| field := v |>] is the record [s] with [field] changed.  A record takes
    part by an instance of [Rebuild] that applies its constructor to its own
    fields; the setter is that function with one projection replaced. *)
Class Rebuild (R : Type) := rebuild : R → R.
Class Setter {R T : Type} (field : R → T) := assign : (T → T) → R → R.
Arguments assign {R T} field {_} _ _.

Ltac derive_setter :=
  match goal with
  | |- @Setter ?R _ ?field =>
      let e := eval hnf in (@rebuild R _) in
      let g := eval pattern field in e in
      match g with
      | ?h _ =>
          let r := eval cbv beta in (λ f (s : R), h (λ s', f (field s')) s) in exact r
      end
  end.
#[export] Hint Extern 0 (Setter _) => derive_setter : typeclass_instances.

Notation "s <| field := v |>" := (assign field (λ _, v) s)
  (at level 1, left associativity) : c_scope.

(** ** Lemmas on bytes *)

Lemma byte_val_range b : 0 ≤ byte_val b < 256.
Proof.
  unfold byte_val. pose proof (Byte.to_N_bounded b). lia.
Qed.

Lemma byte_val_of z : byte_val (byte_of z) = z mod 256.
Proof.
  unfold byte_of, byte_val.
  pose proof (Z.mod_pos_bound z 256 eq_refl) as Hz.
  destruct (Byte.of_N _) as [b|] eqn:E.
  - apply Byte.to_of_N in E. rewrite E. lia.
  - apply Byte.of_N_None_iff in E. lia.
Qed.

Lemma byte_val_inj a b : byte_val a = byte_val b → a = b.
Proof.
  unfold byte_val. intros H%N2Z.inj.
  assert (Some a = Some b) as [=]; [|done].
  by rewrite <-(Byte.of_to_N a), <-(Byte.of_to_N b), H.
Qed.

Lemma byte_of_val b : byte_of (byte_val b) = b.
Proof.
  apply byte_val_inj. rewrite byte_val_of, Z.mod_small; [done|].
  apply byte_val_range.
Qed.

(** ** Lemmas on integers *)

Lemma u8_range z : 0 ≤ u8 z < 2 ^ 8.
Proof. apply Z.mod_pos_bound. lia. Qed.
Lemma u16_range z : 0 ≤ u16 z < 2 ^ 16.
Proof. apply Z.mod_pos_bound. lia. Qed.
Lemma u32_range z : 0 ≤ u32 z < 2 ^ 32.
Proof. apply Z.mod_pos_bound. lia. Qed.

Lemma u64_range z : 0 ≤ u64 z < 2 ^ 64.
Proof. apply Z.mod_pos_bound. lia. Qed.

Lemma u8_small z : 0 ≤ z < 2 ^ 8 → u8 z = z.
Proof. apply Z.mod_small. Qed.
Lemma u16_small z : 0 ≤ z < 2 ^ 16 → u16 z = z.
Proof. apply Z.mod_small. Qed.
Lemma u32_small z : 0 ≤ z < 2 ^ 32 → u32 z = z.
Proof. apply Z.mod_small. Qed.
Lemma i32_range z : - 2 ^ 31 ≤ i32 z < 2 ^ 31.
Proof. unfold i32. pose proof (Z.mod_pos_bound (z + 2 ^ 31) (2 ^ 32)). lia. Qed.
Lemma i32_small z : - 2 ^ 31 ≤ z < 2 ^ 31 → i32 z = z.
Proof. intros. unfold i32. rewrite Z.mod_small; lia. Qed.

Lemma u64_small z : 0 ≤ z < 2 ^ 64 → u64 z = z.
Proof. apply Z.mod_small. Qed.
Lemma i64_small z : - 2 ^ 63 ≤ z < 2 ^ 63 → i64 z = z.
Proof. intros. unfold i64. rewrite Z.mod_small; lia. Qed.

Lemma u32_i32 z : u32 (i32 z) = u32 z.
Proof.
  unfold u32, i32.
  rewrite Zminus_mod, Z.mod_mod, <-Zminus_mod by lia.
  f_equal. lia.
Qed.

Lemma land_ones_mod z n : 0 ≤ n → Z.land z (2 ^ n - 1) = z mod 2 ^ n.
Proof. intros. rewrite <-Z.land_ones by done. by rewrite Z.ones_equiv, Z.sub_1_r. Qed.

(** Two numbers with no common bit: [lor] is the sum. *)
Lemma lor_shiftl_add a b n :
  0 ≤ n → 0 ≤ a < 2 ^ n → 0 ≤ b → Z.lor a (Z.shiftl b n) = a + b * 2 ^ n.
Proof.
  intros Hn Ha Hb. rewrite <-Z.shiftl_mul_pow2 by done.
  rewrite <-Z.lxor_lor; [symmetry; apply Z.add_nocarry_lxor|];
    (apply Z.bits_inj'; intros i Hi; rewrite Z.bits_0, Z.land_spec;
     destruct (decide (i < n)) as [Hlt|Hge];
     [rewrite Z.shiftl_spec_low by lia; apply andb_false_r
     |rewrite <-(Z.mod_small a (2 ^ n)), Z.mod_pow2_bits_high by lia; done]).
Qed.

(** ** Lemmas on lists *)

Lemma size_app {A} (l k : list A) : size (l ++ k) = size l + size k.
Proof. unfold size. rewrite length_app. lia. Qed.
Lemma size_nonneg {A} (l : list A) : 0 ≤ size l.
Proof. unfold size. lia. Qed.
Lemma size_nil {A} : size ([] : list A) = 0.
Proof. done. Qed.
Lemma size_cons {A} (a : A) l : size (a :: l) = 1 + size l.
Proof. unfold size. simpl length. lia. Qed.
Lemma size_take {A} (l : list A) n :
  0 ≤ n ≤ size l → size (take (Z.to_nat n) l) = n.
Proof. unfold size. rewrite length_take. lia. Qed.

Lemma insert_middle {A} (l1 l2 : list A) x y : <[length l1 := y]> (l1 ++ x :: l2) = l1 ++ y :: l2.
Proof. rewrite insert_app_r_alt by lia. by rewrite Nat.sub_diag. Qed.

Lemma take_size_app {A} (l k : list A) : take (Z.to_nat (size l)) (l ++ k) = l.
Proof. unfold size. rewrite Nat2Z.id. apply take_app_length. Qed.
Lemma drop_size_app {A} (l k : list A) : drop (Z.to_nat (size l)) (l ++ k) = k.
Proof. unfold size. rewrite Nat2Z.id. apply drop_app_length. Qed.

(** ** Automation *)

Create HintDb wrap discriminated.
Create Rewrite HintDb size.
#[export] Hint Rewrite @size_app @size_nil @size_cons : size.
#[export] Hint Resolve byte_val_range u8_range u16_range u32_range u64_range size_nonneg : wrap.

(** Normalises the sizes of concatenations. *)
Ltac norm_size := autorewrite with size in *.

(** Splits the boolean tests of the code into comparisons of integers. *)
Ltac case_test :=
  match goal with
  | |- context [?a <? ?b] => destruct (Z.ltb_spec a b)
  | |- context [?a <=? ?b] => destruct (Z.leb_spec a b)
  | |- context [?a =? ?b] => destruct (Z.eqb_spec a b)
  | H : context [?a <? ?b] |- _ => destruct (Z.ltb_spec a b)
  | H : context [?a <=? ?b] |- _ => destruct (Z.leb_spec a b)
  | H : context [?a =? ?b] |- _ => destruct (Z.eqb_spec a b)
  end.
