(* ===== verification/Monad.v ===== *)
(** * Monad: stateful code, and a program logic for it

    Code that changes the state of an object and the world outside is a function
    [St → checked (A * St)].  [wpx] is its weakest precondition, with a rule for each
    combinator; the components add rules for their own operations. *)
From S2P Require Import Prelude.

Definition ST (St A : Type) : Type := St → checked (A * St).

#[export] Instance ST_mret {St} : MRet (ST St) := λ A a s, Ret (a, s).
#[export] Instance ST_mbind {St} : MBind (ST St) := λ A B k m s, '(a, s) ← m s; k a s.

Section combinators.
Context {St : Type}.

Definition gets {A} (f : St → A) : ST St A := λ s, Ret (f s, s).
Definition modify (f : St → St) : ST St unit := λ s, Ret ((), f s).
Definition undefined {A} : ST St A := λ s, Undefined.
Definition out_of_fuel {A} : ST St A := λ s, OutOfFuel.

(** A computation without effect, and one on the state that cannot fail. *)
Definition checking {A} (m : checked A) : ST St A := λ s, a ← m; Ret (a, s).
Definition lift {A} (f : St → A * St) : ST St A := λ s, Ret (f s).

(** A computation on a part of the state. *)
Definition zoom {T A} (get : St → T) (put : T → St → St) (m : ST T A) : ST St A := λ s,
  '(a, t) ← m (get s); Ret (a, put t s).

End combinators.

Section logic.
Context {St : Type}.

(** [wpx U m Φ s]: a run of [m] from [s] that returns satisfies [Φ], and one that
    does not return satisfies [U]: partial correctness, [wp], has [True] for it and
    total correctness, [twp], has [False]. *)
Definition wpx (U : Prop) {A} (m : ST St A) (Φ : A → St → Prop) (s : St) : Prop :=
  match m s with Ret (a, s') => Φ a s' | _ => U end.
Abbreviation wp := (wpx True).
Abbreviation twp := (wpx False).

Section rules.
Context {U : Prop}.

Lemma wp_mret {A} (a : A) Φ s : Φ a s → wpx U (mret a) Φ s.
Proof. done. Qed.
Lemma wp_bind {A B} (m : ST St A) (k : A → ST St B) Φ s :
  wpx U m (λ a, wpx U (k a) Φ) s → wpx U (m ≫= k) Φ s.
Proof.
  unfold wpx, mbind, ST_mbind, mbind, outcome_mbind, outcome_bind.
  by destruct (m s) as [[a s1]| | |].
Qed.
Lemma wp_gets {A} (f : St → A) Φ s : Φ (f s) s → wpx U (gets f) Φ s.
Proof. done. Qed.
Lemma wp_modify f Φ s : Φ () (f s) → wpx U (modify f) Φ s.
Proof. done. Qed.
Lemma wp_lift {A} (f : St → A * St) (Φ : A → St → Prop) s :
  Φ (fst (f s)) (snd (f s)) → wpx U (lift f) Φ s.
Proof. unfold wpx, lift. by destruct (f s). Qed.
Lemma wp_mono {A} (m : ST St A) (Φ Ψ : A → St → Prop) s :
  wpx U m Φ s → (∀ a s', Φ a s' → Ψ a s') → wpx U m Ψ s.
Proof. unfold wpx. destruct (m s) as [[a s']| | |]; auto. Qed.

End rules.

Lemma wp_undefined {A} Φ s : wp (undefined (A:=A)) Φ s.
Proof. done. Qed.
Lemma wp_out_of_fuel {A} Φ s : wp (out_of_fuel (A:=A)) Φ s.
Proof. done. Qed.
Lemma wp_checking {A} (m : checked A) Φ s : (∀ a, m = Ret a → Φ a s) → wp (checking m) Φ s.
Proof. unfold wpx, checking. destruct m; try done. intros HΦ. by apply HΦ. Qed.
Lemma twp_checking {A} (m : checked A) a Φ s : m = Ret a → Φ a s → twp (checking m) Φ s.
Proof. unfold wpx, checking. by intros ->. Qed.

Lemma wpx_weaken {A} (m : ST St A) Φ s : twp m Φ s → wp m Φ s.
Proof. unfold wpx. by destruct (m s) as [[a s']| | |]. Qed.
Lemma wp_elim {A} (m : ST St A) Φ s a s' : m s = Ret (a, s') → wp m Φ s → Φ a s'.
Proof. unfold wpx. by intros ->. Qed.
Lemma twp_elim {A} (m : ST St A) Φ s : twp m Φ s → ∃ a s', m s = Ret (a, s') ∧ Φ a s'.
Proof. unfold wpx. destruct (m s) as [[a s']| | |]; try done. eauto. Qed.

Lemma twp_Ret {A} (m : ST St A) (a : A) (P : St → Prop) s :
  twp m (λ b s', b = a ∧ P s') s → ∃ s', m s = Ret (a, s') ∧ P s'.
Proof. intros (b & s' & E & -> & HP)%twp_elim. by exists s'. Qed.

End logic.

Abbreviation wp := (wpx True).
Abbreviation twp := (wpx False).

Lemma wp_zoom {U : Prop} {St T A} get put (m : ST T A) (Φ : A → St → Prop) s :
  wpx U m (λ a t, Φ a (put t s)) (get s) → wpx U (zoom get put m) Φ s.
Proof.
  unfold wpx, zoom. destruct (m (get s)) as [[a t]| | |]; simpl; auto.
Qed.

(** Whatever the part does. *)
Lemma wp_zoom_any {St T A} get put (m : ST T A) (Φ : A → St → Prop) s :
  (∀ a t, Φ a (put t s)) → wp (zoom get put m) Φ s.
Proof. intros HΦ. apply wp_zoom. unfold wpx. destruct (m _) as [[a t]| | |]; auto. Qed.
