(* ===== verification/TimeUtils.v ===== *)
(** * TimeUtils: clocks (src/common/time_utils.c)

    The file has one [gettickcount] per platform; the system calls they use are the
    class [Clock].  The client uses the one for Linux. *)
From S2P Require Import Prelude.

Inductive clockid : Set := CLOCK_MONOTONIC | CLOCK_MONOTONIC_RAW | CLOCK_BOOTTIME.

(** A [timespec], in seconds and nanoseconds; [timeval] has microseconds. *)
Record timespec : Set := mkTimespec { tv_sec : Z; tv_nsec : Z }.

Class Clock (K : Type) := {
  clock_gettime : clockid → K → option timespec * K;     (* None: not 0 *)
  gettimeofday : K → Z * Z * K;                          (* tv_sec, tv_usec *)
  sleep_for : Z → K → K;                                 (* std::this_thread::sleep_for *)
  system_clock : K → Z;                                  (* std::chrono::system_clock *)
}.

(** The expression [(uint64_t)ts.tv_sec*1000 + (uint64_t)ts.tv_nsec/1000000]. *)
Definition timespec_ms (ts : timespec) : Z :=
  u64 (u64 (u64 (tv_sec ts) * 1000) + u64 (tv_nsec ts) / 1000000).

Section linux.
Context {K : Type} `{!Clock K}.

Definition gettickcount (k : K) : Z * K :=
  match clock_gettime CLOCK_MONOTONIC k with
  | (Some ts, k) => (u64 (u64 (u64 (tv_sec ts) * 1000) + u64 (Z.quot (tv_nsec ts) 1000000)), k)
  | (None, k) => (0, k)
  end.

Definition clock_app_monotonic (k : K) : Z * K := gettickcount k.

(** The result is an [int64_t]. *)
Definition gettickspan (_old_tick : Z) (k : K) : Z * K :=
  let '(cur_tick, k) := gettickcount k in
  if cur_tick <? _old_tick then (0, k)
  else (i64 (u64 (cur_tick - _old_tick)), k).

Definition timeMs (k : K) : Z * K :=
  let '(sec, usec, k) := gettimeofday k in
  (u64 (u64 (u64 sec * 1000) + u64 usec / 1000), k).

End linux.

(** ** Android *)
Module Android.

Definition EACCES : Z := 13.

Class AlarmDevice (K : Type) := {
  open_alarm : K → Z * Z * K;                            (* fd and errno *)
  close_alarm : Z → K → K;
  ioctl_get_time : Z → K → option timespec * K;          (* None: not 0 *)
}.

(** The static variables. *)
Record t : Set := mk { s_fd : Z; errcode : Z }.

Section android.
Context {K : Type} `{!Clock K, !AlarmDevice K}.

(** The exchange compares a local copy of [s_fd], which is -1 there. *)
Definition open_device (s : t) (k : K) : t * K :=
  if (s_fd s =? -1) && negb (errcode s =? EACCES) then
    let '(fd, errno, k) := open_alarm k in
    let errcode := if fd =? -1 then errno else errcode s in
    let x := s_fd s in
    let exchanged := x =? -1 in
    let x := if exchanged then fd else x in
    let k := if negb exchanged && (0 <=? fd) then close_alarm fd k else k in
    (mk x errcode, k)
  else (s, k).

(** [indeterminate] is what is in [ts] when both calls fail. *)
Definition gettickcount (indeterminate : timespec) (s : t) (k : K) : Z * t * K :=
  let '(s, k) := open_device s k in
  let '(result, k) := ioctl_get_time (s_fd s) k in
  match result with
  | Some ts => (timespec_ms ts, s, k)
  | None =>
      let '(result, k) := clock_gettime CLOCK_BOOTTIME k in
      (timespec_ms (default indeterminate result), s, k)
  end.

Definition clock_app_monotonic (indeterminate : timespec) (k : K) : Z * K :=
  let '(result, k) := clock_gettime CLOCK_MONOTONIC_RAW k in
  (timespec_ms (default indeterminate result), k).

End android.
End Android.

(** ** Apple *)
Module Apple.

Class MachTime (K : Type) := {
  mach_timebase_info : K → Z * Z * K;                    (* numer, denom *)
  mach_absolute_time : K → Z * K;
}.

Record t : Set := mk { numer : Z; denom : Z }.           (* uint32_t *)

(** [denom * 1000000] is a product of 32 bits; the division by 0 is undefined. *)
Definition gettickcount {K} `{!MachTime K} (s : t) (k : K) : checked (Z * t * K) :=
  let '(s, k) := if denom s =? 0
                 then let '(n, d, k) := mach_timebase_info k in (mk n d, k)
                 else (s, k) in
  let '(mach_time, k) := mach_absolute_time k in
  let divisor := u32 (denom s * 1000000) in
  if divisor =? 0 then Undefined
  else mret (u64 (mach_time * numer s) / divisor, s, k).

Definition clock_app_monotonic {K} `{!MachTime K} (s : t) (k : K) : checked (Z * t * K) :=
  gettickcount s k.

End Apple.

(** ** The ticks of a clock

    A sane reading: after the epoch of the clock, and before the milliseconds
    overflow in 292 million years. *)
Definition sane (ts : timespec) : Prop :=
  0 ≤ tv_sec ts < 2 ^ 53 ∧ 0 ≤ tv_nsec ts < 1000000000.

Definition nanoseconds (ts : timespec) : Z := tv_sec ts * 1000000000 + tv_nsec ts.

Lemma ms_nanoseconds ts :
  sane ts → tv_sec ts * 1000 + tv_nsec ts / 1000000 = nanoseconds ts / 1000000.
Proof.
  intros [Hs Hn]. unfold nanoseconds.
  replace (tv_sec ts * 1000000000) with (tv_sec ts * 1000 * 1000000) by lia.
  by rewrite Z.div_add_l.
Qed.

Lemma nsec_ms ts : sane ts → 0 ≤ tv_nsec ts / 1000000 < 1000.
Proof.
  intros [_ Hn]. split; [apply Z.div_pos; lia|]. apply Z.div_lt_upper_bound; lia.
Qed.

Lemma timespec_ms_sane ts : sane ts → timespec_ms ts = nanoseconds ts / 1000000.
Proof.
  intros Hs. pose proof (nsec_ms ts Hs). pose proof (proj1 Hs). pose proof (proj2 Hs).
  unfold timespec_ms. rewrite <-ms_nanoseconds by done.
  rewrite (u64_small (tv_sec ts)), (u64_small (tv_nsec ts)) by lia.
  rewrite (u64_small (tv_sec ts * 1000)) by lia. apply u64_small. lia.
Qed.

Section ticks.
Context {K : Type} `{!Clock K}.

(** The tick count is the whole number of milliseconds of the monotonic clock. *)
Lemma gettickcount_ms k ts k' :
  clock_gettime CLOCK_MONOTONIC k = (Some ts, k') → sane ts →
  gettickcount k = (nanoseconds ts / 1000000, k').
Proof.
  intros E Hs. pose proof (nsec_ms ts Hs). pose proof (proj1 Hs). pose proof (proj2 Hs).
  unfold gettickcount. rewrite E, <-ms_nanoseconds by done.
  rewrite Z.quot_div_nonneg, (u64_small (tv_sec ts)), (u64_small (tv_sec ts * 1000)),
    (u64_small (tv_nsec ts / 1000000)), u64_small by lia.
  done.
Qed.

Lemma gettickcount_range k : 0 ≤ fst (gettickcount k) < 2 ^ 64.
Proof.
  unfold gettickcount. destruct (clock_gettime _ _) as [[ts|] k']; simpl; [apply u64_range|lia].
Qed.

End ticks.

(** The exchange on Android always succeeds: no descriptor is closed, and the
    device is opened again as long as opening it fails with another error than
    EACCES. *)
Lemma Android_open_device {K} `{!Clock K, !Android.AlarmDevice K} s (k : K) :
  Android.s_fd s = -1 → Android.errcode s ≠ Android.EACCES →
  let '(fd, errno, k') := Android.open_alarm k in
  Android.open_device s k =
    (Android.mk fd (if fd =? -1 then errno else Android.errcode s), k').
Proof.
  intros Hfd Herr%Z.eqb_neq. destruct (Android.open_alarm k) as [[fd errno] k'] eqn:E.
  unfold Android.open_device. by rewrite Hfd, Herr, E.
Qed.
