(* ===== verification/TcpError.v ===== *)
(** * TcpError: the exceptions of the client (src/packet/tcp_error.hpp, .cpp)

    [TcpExcType] is the enumeration [TcpException::TcpExcType] and
    [TcpException] the class; [What] is the text of an exception. *)
From stdpp Require Import pretty.
From S2P Require Import Prelude.

Inductive TcpExcType : Set :=
| TcpExcBadMsgType
| TcpExcBadLenEncoding
| TcpExcBadReturnCode
| TcpExcDataExceedsPacket
| TcpExcMsgTooLong
| TcpExcInvalidFlag
| TcpExcInvalidProName
| TcpExcInvalidProVersion
| TcpExcInvalidSocket
| TcpExcSocketClose
| TcpExcSocketError
| TcpExcUngzipError
| TcpExcGzipError.

Record TcpException : Set := mkTcpException {
  _excType : TcpExcType;
  _errorNo : Z;
}.

(** The constructor, whose second argument defaults to 0. *)
Definition TcpExc (t : TcpExcType) : TcpException := mkTcpException t 0.

Definition GetExcType (e : TcpException) : TcpExcType := _excType e.
Definition GetErrno (e : TcpException) : Z := _errorNo e.

#[export] Instance TcpExcType_eq_dec : EqDecision TcpExcType.
Proof. solve_decision. Defined.
#[export] Instance TcpException_eq_dec : EqDecision TcpException.
Proof. solve_decision. Defined.

Definition What (e : TcpException) : string :=
  match _excType e with
  | TcpExcBadMsgType => "message type error"
  | TcpExcBadLenEncoding => "bad length encoding"
  | TcpExcBadReturnCode => "bad return code"
  | TcpExcDataExceedsPacket => "data exceeds packet size limit"
  | TcpExcMsgTooLong => "message too long"
  | TcpExcInvalidFlag => "flag invalid"
  | TcpExcInvalidProName => "protocal name invalid"
  | TcpExcInvalidProVersion => "protocal version invalid"
  | TcpExcInvalidSocket => "invalid socket"
  | TcpExcSocketClose => "socket close"
  | TcpExcSocketError => String.append "socket error:" (pretty (_errorNo e))
  | TcpExcGzipError => "gzip error:"
  | TcpExcUngzipError => "ungzip error:"
  end%string.

(** What a function of the client yields. *)
Abbreviation result := (outcome TcpException).

Definition throw {A} (t : TcpExcType) : result A := Throw (TcpExc t).

(** No exception has the text "unknown", the initial value of the switch. *)
Lemma What_known e : What e ≠ "unknown"%string.
Proof. by destruct e as [[] n]. Qed.
