(* ===== verification/Sockets.v ===== *)
(** * Sockets: plain and TLS sockets (src/socket/tcp_socket.cpp, ssl_socket.cpp)

    The operating system ([recv], [send], [close]) and OpenSSL are not part of
    the repository: they are the operations of the classes [Kernel] and
    [OpenSSL], over a state [K] that stands for everything outside the client.
    What the client relies on is stated in [KernelStream].  The virtual methods
    of [TcpSocket] are the class [ISocket], with one instance per C++ class, and
    [SocketStream] is the contract that the readers of a socket use. *)
From S2P Require Import Prelude TcpError.

(** [INVALID_SOCKET] of src/packet/unix_socket.hpp. *)
Definition INVALID_SOCKET : Z := -1.

(** The result of recv(2): the bytes stored in the buffer (none: the peer has
    closed the connection), or -1 with [errno]. *)
Inductive recv_result : Set :=
| Received (bs : bytes)
| RecvError (errno : Z).

(** The result of send(2): how many bytes were taken, or -1 with [errno]. *)
Inductive send_result : Set :=
| Sent (n : Z)
| SendError (errno : Z).

Class Kernel (K : Type) := {
  recv : Z → Z → K → recv_result * K;
  send : Z → bytes → K → send_result * K;
  close : Z → K → K;
}.

(** A result of SSL_read or SSL_write: positive with the data, or the return
    value, 0 or negative. *)
Inductive ssl_result : Set :=
| SslBytes (bs : bytes)
| SslFail (ret : Z).

Class OpenSSL (K : Type) := {
  SSL_CTX_new : K → option Z * K;
  SSL_new : option Z → K → option Z * K;
  SSL_set_fd : Z → Z → K → K;
  SSL_connect : Z → K → Z * K;
  SSL_get_error : option Z → Z → K → Z;
  SSL_free : Z → K → K;
  SSL_read : option Z → Z → K → ssl_result * K;
  SSL_write : option Z → bytes → K → ssl_result * K;
}.

Definition SSL_ERROR_NONE : Z := 0.
Definition SSL_ERROR_WANT_READ : Z := 2.
Definition SSL_ERROR_WANT_WRITE : Z := 3.

(** ** class TcpSocket *)
Module TcpSocket.

Record t : Set := mk { _socket : Z }.

Section ops.
Context {K : Type} `{!Kernel K}.

Definition IsInvalid (s : t) : bool := _socket s =? INVALID_SOCKET.
Definition GetSocket (s : t) : Z := _socket s.

(** A plain socket needs no further handshake. *)
Definition Connect (s : t) : Z := 1.
Definition GetConnectError (s : t) : Z := 0.

Definition Close (s : t) (k : K) : t * K :=
  if _socket s =? INVALID_SOCKET then (s, k)
  else (mk INVALID_SOCKET, close (_socket s) k).

Definition Read (s : t) (len : Z) (k : K) : result bytes * K :=
  match recv (_socket s) len k with
  | (Received bs, k') =>
      if size bs =? 0 then (throw TcpExcSocketClose, k') else (Ret bs, k')
  | (RecvError errno, k') => (Throw (mkTcpException TcpExcSocketError errno), k')
  end.

Definition Write (s : t) (buf : bytes) (k : K) : result unit * K :=
  match send (_socket s) buf k with
  | (Sent _, k') => (Ret (), k')
  | (SendError errno, k') => (Throw (mkTcpException TcpExcSocketError errno), k')
  end.

End ops.
End TcpSocket.

(** ** class SSLSocket *)
Module SSLSocket.

Record t : Set := mk { _socket : Z; _ssl : option Z; _connectError : Z }.

(** The constructor. *)
Definition new (socket : Z) : t := mk socket None 0.

Section ops.
Context {K : Type} `{!Kernel K, !OpenSSL K}.

Definition IsInvalid (s : t) : bool := _socket s =? INVALID_SOCKET.
Definition GetSocket (s : t) : Z := _socket s.

(** [_ctx] is the static variable of the file, created on first use. *)
Definition GetSSLContext (_ctx : option Z) (k : K) : option Z * K :=
  match _ctx with
  | None => SSL_CTX_new k
  | Some c => (Some c, k)
  end.

(** Returns the result, the socket and the static context afterwards. *)
Definition Connect (s : t) (_ctx : option Z) (k : K) : Z * t * option Z * K :=
  let '(ctx, k) := GetSSLContext _ctx k in
  match SSL_new ctx k with
  | (None, k) => (-1, mk (_socket s) None (_connectError s), ctx, k)
  | (Some ssl, k) =>
      let k := SSL_set_fd ssl (_socket s) k in
      let '(status, k) := SSL_connect ssl k in
      if status =? 1
      then (SSL_ERROR_NONE, mk (_socket s) (Some ssl) (_connectError s), ctx, k)
      else let err := SSL_get_error (Some ssl) status k in
           (err, mk (_socket s) (Some ssl) err, ctx, k)
  end.

Definition GetConnectError (s : t) : Z := _connectError s.

Definition Close (s : t) (k : K) : t * K :=
  if _socket s =? INVALID_SOCKET then (s, k)
  else
    let k := match _ssl s with Some ssl => SSL_free ssl k | None => k end in
    (mk INVALID_SOCKET (_ssl s) (_connectError s), close (_socket s) k).

Definition Read (s : t) (len : Z) (k : K) : result bytes * K :=
  match SSL_read (_ssl s) (i32 len) k with
  | (SslBytes bs, k') => (Ret bs, k')
  | (SslFail ret, k') =>
      if ret =? 0 then (throw TcpExcSocketClose, k')
      else (Throw (mkTcpException TcpExcSocketError
                     (SSL_get_error (_ssl s) ret k')), k')
  end.

Definition Write (s : t) (buf : bytes) (k : K) : result unit * K :=
  match SSL_write (_ssl s) buf k with
  | (SslBytes _, k') => (Ret (), k')
  | (SslFail ret, k') =>
      (Throw (mkTcpException TcpExcSocketError (SSL_get_error (_ssl s) ret k')), k')
  end.

End ops.
End SSLSocket.

(** ** The virtual methods that the packet layer calls *)
Class ISocket (S K : Type) := {
  sock_Read : S → Z → K → result bytes * K;
  sock_Write : S → bytes → K → result unit * K;
}.

#[export] Instance TcpSocket_ISocket {K} `{!Kernel K} : ISocket TcpSocket.t K :=
  {| sock_Read := TcpSocket.Read; sock_Write := TcpSocket.Write |}.
#[export] Instance SSLSocket_ISocket {K} `{!Kernel K, !OpenSSL K} :
    ISocket SSLSocket.t K :=
  {| sock_Read := SSLSocket.Read; sock_Write := SSLSocket.Write |}.

(** The methods of the socket that the client calls, besides Read and Write. *)
Class SocketControl (S K : Type) := {
  sock_IsInvalid : S → bool;
  sock_GetSocket : S → Z;
  sock_Close : S → K → S * K;
}.
#[export] Instance TcpSocket_control {K} `{!Kernel K} : SocketControl TcpSocket.t K :=
  {| sock_IsInvalid := TcpSocket.IsInvalid; sock_GetSocket := TcpSocket.GetSocket;
     sock_Close := TcpSocket.Close |}.
#[export] Instance SSLSocket_control {K} `{!Kernel K, !OpenSSL K} :
    SocketControl SSLSocket.t K :=
  {| sock_IsInvalid := SSLSocket.IsInvalid; sock_GetSocket := SSLSocket.GetSocket;
     sock_Close := SSLSocket.Close |}.

(** ** Contracts

    [SocketStream]: reading a socket delivers, in order and without loss, the
    bytes the peer has sent ([pending]), at least one and at most [len] at a
    time, and reports the end of the stream once they are exhausted. *)
Class SocketStream (S K : Type) `{!ISocket S K} := {
  pending : S → K → bytes;
  read_some s len k :
    0 < len → pending s k ≠ [] →
    ∃ bs k', sock_Read s len k = (Ret bs, k') ∧ 1 ≤ size bs ≤ len ∧
             pending s k = bs ++ pending s k';
  read_end s len k :
    0 < len → pending s k = [] →
    ∃ k', sock_Read s len k = (throw TcpExcSocketClose, k') ∧ pending s k' = [];
}.

(** The same contract for recv(2) on a connected stream socket whose receive
    timeout does not expire. *)
Class KernelStream (K : Type) `{!Kernel K} := {
  rx : Z → K → bytes;
  recv_some fd len k :
    0 < len → rx fd k ≠ [] →
    ∃ bs k', recv fd len k = (Received bs, k') ∧ 1 ≤ size bs ≤ len ∧
             rx fd k = bs ++ rx fd k';
  recv_end fd len k :
    0 < len → rx fd k = [] →
    ∃ k', recv fd len k = (Received [], k') ∧ rx fd k' = [];
  tx : Z → K → bytes;
  send_prefix fd buf k n k' :
    send fd buf k = (Sent n, k') →
    0 ≤ n ≤ size buf ∧ tx fd k' = tx fd k ++ take (Z.to_nat n) buf;
}.

(** [TcpSocket] keeps the contract of the packet layer. *)
#[export] Program Instance TcpSocket_stream {K} `{!Kernel K, !KernelStream K} :
    SocketStream TcpSocket.t K :=
  {| pending s k := rx (TcpSocket._socket s) k |}.
Next Obligation.
  intros K ?? s len k Hlen Hp.
  destruct (recv_some (TcpSocket._socket s) len k Hlen Hp) as (bs & k' & E & Hb & Hrx).
  exists bs, k'. simpl. unfold TcpSocket.Read. rewrite E.
  case_test; [lia|done].
Qed.
Next Obligation.
  intros K ?? s len k Hlen Hp.
  destruct (recv_end (TcpSocket._socket s) len k Hlen Hp) as (k' & E & Hrx).
  exists k'. simpl. unfold TcpSocket.Read. by rewrite E.
Qed.

(** ** A concrete kernel

    One connection whose incoming bytes arrive in the given segments and whose
    outgoing calls are accepted up to [room] bytes each. *)
Module SegmentedKernel.

Record t : Set := mk { segments : list bytes; outgoing : bytes; room : Z }.

(** Empty segments carry no data. *)
Fixpoint skip_empty (l : list bytes) : list bytes :=
  match l with
  | [] :: r => skip_empty r
  | _ => l
  end.

Definition seg_recv (fd len : Z) (k : t) : recv_result * t :=
  match skip_empty (segments k) with
  | [] => (Received [], mk [] (outgoing k) (room k))
  | s :: r =>
      let n := Z.to_nat len in
      (Received (take n s), mk (drop n s :: r) (outgoing k) (room k))
  end.

Definition seg_send (fd : Z) (buf : bytes) (k : t) : send_result * t :=
  let n := Z.max 0 (Z.min (room k) (size buf)) in
  (Sent n, mk (segments k) (outgoing k ++ take (Z.to_nat n) buf) (room k)).

#[export] Instance kernel : Kernel t :=
  {| recv := seg_recv; send := seg_send; close fd k := k |}.

Lemma concat_skip_empty l : concat (skip_empty l) = concat l.
Proof. by induction l as [|[|b s] r IH]. Qed.

Lemma skip_empty_head l s r : skip_empty l = s :: r → s ≠ [].
Proof. induction l as [|[|b s'] r' IH]; simpl; [done|done|]. intros [= <- <-]. done. Qed.

#[export] Program Instance stream : KernelStream t :=
  {| rx fd k := concat (segments k); tx fd k := outgoing k |}.
Next Obligation.
  intros fd len k Hlen Hrx. simpl in *. unfold seg_recv.
  rewrite <-concat_skip_empty in *.
  destruct (skip_empty (segments k)) as [|s r] eqn:E; [done|].
  apply skip_empty_head in E.
  eexists _, _; split; [done|]; simpl. split.
  - unfold size. rewrite length_take. destruct s; simpl; [done|]. lia.
  - by rewrite app_assoc, take_drop.
Qed.
Next Obligation.
  intros fd len k Hlen Hrx. simpl in *. unfold seg_recv.
  rewrite <-concat_skip_empty in Hrx.
  destruct (skip_empty (segments k)) as [|s r] eqn:E; [by eexists|].
  apply skip_empty_head in E. by destruct s.
Qed.
Next Obligation.
  intros fd buf k n k' [= <- <-]. split; [|done].
  pose proof (size_nonneg buf). lia.
Qed.

End SegmentedKernel.
