(* ===== verification/TcpIO.v ===== *)
(** * TcpIO: readers and writers of the packet layer (src/packet/tcp_io.hpp, .cpp)

    The decoders of the client are written against the abstract class [IReader],
    whose only method fills a buffer.  A decoder is therefore a program of type
    [reading A]: it ends with an outcome or asks for [len] bytes.  [run] executes
    it with a given reader; [TcpReader] reads from a socket, [stream_reader] from
    a flat list of bytes, and [run_tcp_stream] relates the two for every decoder
    and every way the network fragments the stream. *)
From S2P Require Import Prelude TcpError Sockets.

(** ** Reading programs *)

Inductive reading (A : Type) : Type :=
| Fin (o : result A)
| Fill (len : Z) (k : bytes → reading A).
Arguments Fin {A} o.
Arguments Fill {A} len k.

Fixpoint reading_bind {A B} (f : A → reading B) (p : reading A) : reading B :=
  match p with
  | Fin (Ret a) => f a
  | Fin (Throw e) => Fin (Throw e)
  | Fin Undefined => Fin Undefined
  | Fin OutOfFuel => Fin OutOfFuel
  | Fill len k => Fill len (λ buf, reading_bind f (k buf))
  end.

#[export] Instance reading_mret : MRet reading := λ A a, Fin (Ret a).
#[export] Instance reading_mbind : MBind reading := λ A B f p, reading_bind f p.

(** [reader->ReadFull(buf, len)], giving the contents of [buf] afterwards. *)
Definition ReadFull (len : Z) : reading bytes := Fill len (λ buf, Fin (Ret buf)).

(** [throw TcpException(t)] *)
Definition rthrow {A} (t : TcpExcType) : reading A := Fin (throw t).

(** The method ReadFull of a class that implements IReader, over the state [K]. *)
Definition IReader (K : Type) : Type := Z → K → result bytes * K.

Section run.
Context {K : Type} (reader : IReader K).

Fixpoint run {A} (p : reading A) (s : K) : result A * K :=
  match p with
  | Fin o => (o, s)
  | Fill len k =>
      match reader len s with
      | (Ret buf, s') => run (k buf) s'
      | (Throw e, s') => (Throw e, s')
      | (Undefined, s') => (Undefined, s')
      | (OutOfFuel, s') => (OutOfFuel, s')
      end
  end.

End run.

(** ** class TcpReader *)
Module TcpReader.
Section ops.
Context {S K : Type} `{!ISocket S K}.

Record t := mk { _socket : option S }.

(** The loop of ReadFull: [recvLen] of [len] bytes are in the buffer, which
    holds [acc] so far.  [recvLen] is an int, but is not cut down here: Read gives at
    most the bytes that it is asked for, so that [recvLen] is at most [len], and the
    decoders ask for 1, 2 or [strLen] bytes, an [int32_t]. *)
Fixpoint read_loop (fuel : nat) (sock : S) (len recvLen : Z) (acc : bytes) (k : K)
    : result bytes * K :=
  if recvLen <? len then
    match fuel with
    | O => (OutOfFuel, k)
    | Datatypes.S fuel =>
        match sock_Read sock (len - recvLen) k with
        | (Ret bs, k') => read_loop fuel sock len (recvLen + size bs) (acc ++ bs) k'
        | (Throw e, k') => (Throw e, k')
        | (Undefined, k') => (Undefined, k')
        | (OutOfFuel, k') => (OutOfFuel, k')
        end
    end
  else (Ret acc, k).

(** Every call of Read delivers at least one byte, so [len] calls are enough. *)
Definition ReadFull (r : t) : IReader K := λ len k,
  match _socket r with
  | None => (throw TcpExcInvalidSocket, k)
  | Some sock => read_loop (Z.to_nat len) sock len 0 [] k
  end.

End ops.
Arguments t S : clear implicits.
End TcpReader.

(** ** class TcpWriter *)
Module TcpWriter.
Section ops.
Context {S K : Type} `{!ISocket S K}.

Record t := mk { _socket : option S }.

Definition Write (w : t) (buf : bytes) (k : K) : result unit * K :=
  match _socket w with
  | None => (throw TcpExcInvalidSocket, k)
  | Some sock => sock_Write sock buf k
  end.

End ops.
Arguments t S : clear implicits.
End TcpWriter.

(** ** The reference reader: a flat stream of bytes that ends *)
Definition stream_reader : IReader bytes := λ len s,
  if len <=? size s
  then (Ret (take (Z.to_nat len) s), drop (Z.to_nat len) s)
  else (throw TcpExcSocketClose, []).

(** What a program can end with when every buffer is filled: [reading_wp Q p]
    holds if each of these outcomes satisfies [Q] and no negative number of bytes
    is asked for. *)
Fixpoint reading_wp {A} (Q : result A → Prop) (p : reading A) : Prop :=
  match p with
  | Fin o => Q o
  | Fill len k => 0 ≤ len ∧ ∀ buf, size buf = len → reading_wp Q (k buf)
  end.

(** A reader that fills the buffer or throws. *)
Definition fills {K} (rd : IReader K) : Prop :=
  ∀ len s, match rd len s with
           | (Ret buf, _) => 0 ≤ len → size buf = len
           | (Throw _, _) => True
           | _ => False
           end.

(** ** Lemmas *)

Lemma reading_wp_impl {A} (P Q : result A → Prop) p :
  reading_wp P p → (∀ o, P o → Q o) → reading_wp Q p.
Proof.
  intros HP HPQ. induction p as [o|len k IH]; simpl in *; [auto|].
  destruct HP as [? HP]. split; [done|]. auto.
Qed.

Lemma reading_wp_bind {A B} (Q : result B → Prop) (p : reading A) (f : A → reading B) :
  reading_wp (λ o, match o with
                   | Ret a => reading_wp Q (f a)
                   | Throw e => Q (Throw e)
                   | Undefined => Q Undefined
                   | OutOfFuel => Q OutOfFuel
                   end) p →
  reading_wp Q (p ≫= f).
Proof.
  induction p as [o|len k IH]; simpl; [by destruct o|].
  intros [? Hk]. split; [done|]. intros buf Hbuf. by apply IH, Hk.
Qed.

(** The outcomes of a run are those of [reading_wp], or an exception. *)
Lemma reading_wp_run {K} (rd : IReader K) {A} (Q : result A → Prop) p s :
  fills rd → (∀ e, Q (Throw e)) → reading_wp Q p → Q (fst (run rd p s)).
Proof.
  intros Hrd HQ. revert s. induction p as [o|len k IH]; intros s; simpl; [done|].
  intros [Hlen Hk]. pose proof (Hrd len s) as Hf.
  destruct (rd len s) as [[] s']; simpl; auto; done.
Qed.

Lemma stream_reader_fills : fills stream_reader.
Proof.
  intros len s. unfold stream_reader. case_test; [|done].
  intros. by apply size_take.
Qed.

Lemma run_bind {K} (rd : IReader K) {A B} (p : reading A) (f : A → reading B) s :
  run rd (p ≫= f) s =
  match run rd p s with
  | (Ret a, s') => run rd (f a) s'
  | (Throw e, s') => (Throw e, s')
  | (Undefined, s') => (Undefined, s')
  | (OutOfFuel, s') => (OutOfFuel, s')
  end.
Proof.
  revert s. induction p as [o|len k IH]; intros s; [by destruct o|]. simpl.
  by destruct (rd len s) as [[] s'].
Qed.

Lemma run_Ret {K} (rd : IReader K) {A} (a : A) s : run rd (mret a) s = (Ret a, s).
Proof. done. Qed.
Lemma run_throw {K} (rd : IReader K) {A} t s : run rd (@rthrow A t) s = (throw t, s).
Proof. done. Qed.

Lemma stream_reader_app len l rest :
  size l = len → stream_reader len (l ++ rest) = (Ret l, rest).
Proof.
  intros <-. unfold stream_reader. norm_size.
  pose proof (size_nonneg rest). case_test; [|lia].
  by rewrite take_size_app, drop_size_app.
Qed.

Lemma run_ReadFull_app len l rest :
  size l = len → run stream_reader (ReadFull len) (l ++ rest) = (Ret l, rest).
Proof. intros H. simpl. by rewrite stream_reader_app. Qed.

Lemma run_ReadFull_cons b rest :
  run stream_reader (ReadFull 1) (b :: rest) = (Ret [b], rest).
Proof. by apply (run_ReadFull_app 1 [b]). Qed.

Create Rewrite HintDb reading.
#[export] Hint Rewrite @run_bind @run_Ret @run_throw @run_ReadFull_cons : reading.

(** One step of the execution of a decoder. *)
Ltac step_reading := autorewrite with reading; cbn beta iota.

Section tcp_stream.
Context {S K : Type} `{!ISocket S K, !SocketStream S K}.

Lemma read_loop_stream (sock : S) len : ∀ fuel acc k,
  (Z.to_nat len ≤ length acc + fuel)%nat →
  size acc ≤ Z.max 0 len →
  ∃ o k',
    TcpReader.read_loop fuel sock len (size acc) acc k = (o, k') ∧
    match o with
    | Ret buf =>
        len - size acc ≤ size (pending sock k) ∧
        buf = acc ++ take (Z.to_nat (len - size acc)) (pending sock k) ∧
        pending sock k' = drop (Z.to_nat (len - size acc)) (pending sock k)
    | Throw e =>
        size (pending sock k) < len - size acc ∧
        e = TcpExc TcpExcSocketClose ∧ pending sock k' = []
    | _ => False
    end.
Proof.
  induction fuel as [|fuel IH]; intros acc k Hf Hacc; simpl;
    destruct (Z.ltb_spec (size acc) len) as [Hlt|Hge].
  - unfold size in *; lia.
  - eexists _, _; split; [done|]; simpl.
    rewrite (Z2Nat.nonpos (len - size acc)) by lia.
    rewrite take_0, drop_0, app_nil_r.
    pose proof (size_nonneg (pending sock k)); repeat split; lia.
  - destruct (decide (pending sock k = [])) as [Hp|Hp].
    + destruct (read_end sock (len - size acc) k) as (k' & -> & Hk'); [lia|done|].
      eexists _, _; split; [done|]; simpl. rewrite Hp. split; [|done]. norm_size; lia.
    + destruct (read_some sock (len - size acc) k) as (bs & k' & -> & Hb & Hpk);
        [lia|done|].
      rewrite <-size_app.
      destruct (IH (acc ++ bs) k') as (o & k'' & -> & Ho).
      * rewrite length_app; unfold size in *; lia.
      * norm_size; lia.
      * exists o, k''; split; [done|]. rewrite Hpk.
        replace (Z.to_nat (len - size acc))
          with (length bs + Z.to_nat (len - size (acc ++ bs)))%nat
          by (norm_size; unfold size in *; lia).
        rewrite take_app_add, drop_app_add, app_assoc. norm_size.
        destruct o; try done.
        -- split; [lia|]. split; [|tauto]. replace (size acc + size bs) with (size bs + size acc) in * by lia.
           destruct Ho as (_ & -> & _). done.
        -- split; [lia|]. tauto.
  - eexists _, _; split; [done|]; simpl.
    rewrite (Z2Nat.nonpos (len - size acc)) by lia.
    rewrite take_0, drop_0, app_nil_r.
    pose proof (size_nonneg (pending sock k)); repeat split; lia.
Qed.

(** ReadFull of a connected TcpReader is the reference reader. *)
Lemma ReadFull_stream sock len (k : K) :
  let r := TcpReader.mk (Some sock) in
  ∃ k', TcpReader.ReadFull r len k =
          (fst (stream_reader len (pending sock k)), k') ∧
        pending sock k' = snd (stream_reader len (pending sock k)).
Proof.
  simpl. unfold TcpReader.ReadFull, stream_reader; simpl.
  destruct (read_loop_stream sock len (Z.to_nat len) [] k) as (o & k' & E & Ho);
    [simpl; lia|norm_size; lia|].
  rewrite size_nil, Z.sub_0_r in *. exists k'. rewrite E.
  destruct o; try done; case_test; simpl; try lia.
  - by destruct Ho as (_ & -> & ->).
  - by destruct Ho as (_ & -> & ->).
Qed.

End tcp_stream.

(** C26: a decoder that runs over a connected socket returns, throws and consumes
    exactly what it would on the flat stream of pending bytes, however the
    network splits that stream into reads; in particular its reads end. *)
Theorem run_tcp_stream {S K} `{!ISocket S K, !SocketStream S K} {A}
    (p : reading A) (sock : S) (k : K) :
  let '(o, rest) := run stream_reader p (pending sock k) in
  ∃ k', run (TcpReader.ReadFull (TcpReader.mk (Some sock))) p k = (o, k') ∧
        pending sock k' = rest.
Proof.
  revert k. induction p as [o|len f IH]; intros k; simpl; [eauto|].
  destruct (ReadFull_stream sock len k) as (k' & -> & Hk').
  destruct (stream_reader len (pending sock k)) as [[] s']; simpl in *; eauto.
  specialize (IH a k'). by rewrite Hk' in IH.
Qed.

(** A write on a plain socket of which the kernel takes only [n] bytes returns
    as if the whole buffer had been sent: the peer's stream has the prefix, the
    rest of the packet is lost and no error is reported. *)
Theorem Write_short {K} `{!Kernel K, !KernelStream K} sock buf n (k k' : K) :
  send (TcpSocket._socket sock) buf k = (Sent n, k') → n < size buf →
  TcpWriter.Write (TcpWriter.mk (Some sock)) buf k = (Ret (), k') ∧
  tx (TcpSocket._socket sock) k' =
    tx (TcpSocket._socket sock) k ++ take (Z.to_nat n) buf ∧
  tx (TcpSocket._socket sock) k' ≠ tx (TcpSocket._socket sock) k ++ buf.
Proof.
  intros Hs Hn. destruct (send_prefix _ _ _ _ _ Hs) as [[Hn0 _] Htx].
  split; [unfold TcpWriter.Write, sock_Write; cbn [TcpWriter._socket TcpSocket_ISocket];
    unfold TcpSocket.Write; by rewrite Hs|]. split; [done|].
  rewrite Htx. intros E%app_inv_head%(f_equal size). rewrite size_take in E; lia.
Qed.

(** ** Witnesses *)

#[local] Existing Instance SegmentedKernel.kernel.
#[local] Existing Instance SegmentedKernel.stream.

(** Six bytes that arrive in three reads. *)
Lemma run_tcp_stream_witness :
  let k := SegmentedKernel.mk [str "ab"; []; str "c"; str "defg"] [] 0 in
  ∃ k', run (TcpReader.ReadFull (TcpReader.mk (Some (TcpSocket.mk 3)))) (ReadFull 6) k
        = (Ret (str "abcdef"), k') ∧ pending (TcpSocket.mk 3) k' = str "g".
Proof.
  exact (run_tcp_stream (ReadFull 6) (TcpSocket.mk 3)
           (SegmentedKernel.mk [str "ab"; []; str "c"; str "defg"] [] 0)).
Defined.

Lemma Write_short_witness :
  let k := SegmentedKernel.mk [] (str "x") 3 in
  fst (TcpWriter.Write (TcpWriter.mk (Some (TcpSocket.mk 3))) (str "packet") k) = Ret ().
Proof.
  intros k. destruct (Write_short (TcpSocket.mk 3) (str "packet") 3 k
    (SegmentedKernel.mk [] (str "xpac") 3)) as [-> _]; done.
Defined.
