(* ===== verification/Gzip.v ===== *)
(** * Gzip: the compression loops (src/packet/encoding.cpp, the functions
    __gzipCompress and __gzipUncompress)

    zlib is not part of the repository: its functions are the class [Zlib], what
    the client relies on is [ZlibSpec], and [Stored] is a concrete codec with
    those laws.  The two loops of the client, which move the output through a
    buffer of fixed size, are modelled in full. *)
From S2P Require Import Prelude TcpError.

Definition Z_OK : Z := 0.
Definition Z_STREAM_END : Z := 1.
Definition Z_DATA_ERROR : Z := -3.
Definition Z_BUF_ERROR : Z := -5.

(** zlib.  A deflate state holds the input that remains and everything pending;
    [deflate s n] is a call with [Z_FINISH] and [avail_out = n], and gives the
    bytes stored at [next_out].  [inflate s n] gives the status as well.
    [deflateBound] is zlib's bound on the compressed size, [inflateBound] a bound
    on the calls of inflate that can return [Z_OK] on an input. *)
Class Zlib := {
  dstate : Type;
  deflateInit2 : bytes → option dstate;
  deflate : dstate → Z → bytes * dstate;
  deflateBound : Z → nat;
  istate : Type;
  inflateInit2 : bytes → option istate;
  inflate : istate → Z → Z * bytes * istate;
  inflateEnd : istate → Z;
  inflateBound : bytes → nat;
}.

(** Documented behaviour of zlib.  [compressed] is what remains to be written by
    deflate, [plain] what remains to be produced from a valid stream. *)
Class ZlibSpec `{!Zlib} := {
  compressed : dstate → bytes;
  plain : istate → option bytes;
  calls_left : istate → nat;
  deflate_out s n :
    0 < n → deflate s n = (take (Z.to_nat n) (compressed s), snd (deflate s n)) ∧
            compressed (snd (deflate s n)) = drop (Z.to_nat n) (compressed s);
  deflate_bound src s :
    deflateInit2 src = Some s → 0 < size (compressed s) ≤ Z.of_nat (deflateBound (size src));
  inflate_out s n st out s' :
    0 < n → inflate s n = (st, out, s') →
    size out ≤ n ∧ (st = Z_OK → (calls_left s' < calls_left s)%nat);
  inflate_bound src s : inflateInit2 src = Some s → (calls_left s ≤ inflateBound src)%nat;
  inflate_plain s n p :
    0 < n → plain s = Some p →
    ∃ st out s' p', inflate s n = (st, out, s') ∧ p = out ++ p' ∧
      (st = Z_OK ∧ plain s' = Some p' ∨
       st = Z_STREAM_END ∧ p' = [] ∧ inflateEnd s' = Z_OK);
  inflate_deflate src s :
    deflateInit2 src = Some s →
    ∃ s', inflateInit2 (compressed s) = Some s' ∧ plain s' = Some src;
}.

(** ** The loops *)
Section loops.
Context `{!Zlib}.

Definition ChunkSize : Z := 16384.

(** [while (stream.avail_out == 0)], for a buffer of [chunk] bytes: [total_out] is
    maintained by zlib; the buffer holds what this call stored, then zeros. *)
Fixpoint deflate_loop (chunk : Z) (fuel : nat) (s : dstate) (avail_out total_out : Z)
    (output : bytes) : result bytes :=
  if avail_out =? 0 then
    match fuel with
    | O => OutOfFuel
    | S fuel =>
        let avail_out := chunk in
        let '(out, s) := deflate s avail_out in
        let avail_out := avail_out - size out in
        let total_out := total_out + size out in
        let outBuff := out ++ replicate (Z.to_nat avail_out) Byte.x00 in
        let n := total_out - size output in
        if (n <? 0) || (chunk <? n) then Undefined
        else deflate_loop chunk fuel s avail_out total_out (output ++ take (Z.to_nat n) outBuff)
    end
  else Ret output.

(** Returns whether the compression succeeded and the output vector. *)
Definition gzipCompress (src : bytes) (srcLen : Z) (output : bytes) : result (bool * bytes) :=
  match deflateInit2 (take (Z.to_nat (u32 srcLen)) src) with
  | Some s =>
      output ← deflate_loop ChunkSize (S (deflateBound (size src))) s 0 0 output;
      mret (true, output)
  | None => mret (false, output)
  end.

(** [while (status == Z_OK)]: [outLen] is [sizeof(outBuff)]. *)
Fixpoint inflate_loop (fuel : nat) (s : istate) (outLen status : Z) (output : bytes)
    : result (Z * istate * bytes) :=
  if status =? Z_OK then
    match fuel with
    | O => OutOfFuel
    | S fuel =>
        let '(status, out, s) := inflate s outLen in
        inflate_loop fuel s outLen status (output ++ out)
    end
  else Ret (status, s, output).

Definition gzipUncompress (src : bytes) (srcLen : Z) (output : bytes) : result (bool * bytes) :=
  let input := take (Z.to_nat (u32 srcLen)) src in
  match inflateInit2 input with
  | Some s =>
      '(status, s, output) ← inflate_loop (S (inflateBound input)) s (srcLen * 2) Z_OK output;
      mret (if inflateEnd s =? Z_OK then (status =? Z_STREAM_END, output) else (false, output))
  | None => mret (false, output)
  end.

End loops.

(** ** A concrete codec

    Every byte is preceded by the byte 1, and the stream ends with the byte 0. *)
Module Stored.

Fixpoint enc (src : bytes) : bytes :=
  match src with
  | [] => [Byte.x00]
  | b :: r => Byte.x01 :: b :: enc r
  end.

Definition dec (s : bytes) (n : Z) : Z * bytes * bytes :=
  match s with
  | [] => (Z_BUF_ERROR, [], s)
  | c :: r =>
      if decide (c = Byte.x00) then (Z_STREAM_END, [], r)
      else
        match r with
        | b :: r => if 0 <? n then (Z_OK, [b], r) else (Z_BUF_ERROR, [], s)
        | [] => (Z_DATA_ERROR, [], s)
        end
  end.

(** The whole text of a stream. *)
Fixpoint dec_all (s : bytes) : option bytes :=
  match s with
  | [] => None
  | c :: r =>
      if decide (c = Byte.x00) then Some []
      else match r with b :: r => cons b <$> dec_all r | [] => None end
  end.

#[export] Instance zlib : Zlib := {|
  dstate := bytes;
  deflateInit2 src := Some (enc src);
  deflate s n := (take (Z.to_nat n) s, drop (Z.to_nat n) s);
  deflateBound n := Z.to_nat (2 * n + 1);
  istate := bytes;
  inflateInit2 src := Some src;
  inflate := dec;
  inflateEnd s := Z_OK;
  inflateBound := length;
|}.

Lemma size_enc src : size (enc src) = 2 * size src + 1.
Proof. induction src as [|b r IH]; [done|]. simpl. norm_size. lia. Qed.

#[export] Program Instance spec : ZlibSpec := {|
  compressed s := s;
  calls_left := length;
  plain := dec_all;
|}.
Next Obligation. done. Qed.
Next Obligation.
  intros src s [= <-]. rewrite size_enc. simpl. pose proof (size_nonneg src). lia.
Qed.
Next Obligation.
  intros s n st out s' Hn. simpl. unfold dec.
  destruct s as [|c r]; [|case_decide; [|destruct r as [|b r]; [|case_test; [|lia]]]];
    intros [= <- <- <-]; unfold size; simpl; split; try done; lia.
Qed.
Next Obligation. by intros src s [= <-]. Qed.
Next Obligation.
  intros s n p Hn Hp. simpl in *. destruct s as [|c r]; [done|]. simpl in *.
  destruct (decide (c = Byte.x00)).
  - injection Hp as <-. eexists _, _, _, []. split; [done|]. split; [done|]. by right.
  - destruct r as [|b r]; [done|].
    apply fmap_Some in Hp as (p' & Hp' & ->).
    eexists _, _, _, p'. case_test; [|lia].
    split; [done|]. split; [done|]. by left.
Qed.
Next Obligation.
  intros src s [= <-]. eexists; split; [done|].
  induction src as [|b r IH]; [done|]. simpl in *. by rewrite IH.
Qed.

End Stored.

(** ** Lemmas *)
Section facts.
Context `{!Zlib, !ZlibSpec}.

Lemma deflate_loop_fuel_left C fuel s avail total output :
  avail ≠ 0 → deflate_loop C fuel s avail total output = Ret output.
Proof. intros Ha. destruct fuel; simpl; by destruct (Z.eqb_spec avail 0). Qed.

(** Whatever the size of the buffer, the loop collects the whole stream. *)
Lemma deflate_loop_all C : 0 < C → ∀ fuel s output,
  size (compressed s) < Z.of_nat fuel →
  deflate_loop C fuel s 0 (size output) output = Ret (output ++ compressed s).
Proof.
  intros HC. induction fuel as [|fuel IH]; intros s output Hf.
  { pose proof (size_nonneg (compressed s)). lia. }
  simpl. destruct (deflate_out s C HC) as [E Hc]. rewrite E.
  set (s' := snd (deflate s C)) in *. clearbody s'.
  assert (Hout : 0 ≤ size (take (Z.to_nat C) (compressed s)) ≤ C).
  { unfold size. rewrite length_take. lia. }
  replace (size output + size (take (Z.to_nat C) (compressed s)) - size output)
    with (size (take (Z.to_nat C) (compressed s))) by lia.
  destruct (Z.ltb_spec (size (take (Z.to_nat C) (compressed s))) 0); [lia|].
  destruct (Z.ltb_spec C (size (take (Z.to_nat C) (compressed s)))); [lia|]. cbn [orb].
  rewrite take_size_app, <-size_app.
  destruct (decide (size (take (Z.to_nat C) (compressed s)) = C)) as [Hfull|Hpart].
  - rewrite Hfull, Z.sub_diag, IH, Hc, <-app_assoc, take_drop; [done|].
    rewrite Hc. unfold size in *. rewrite length_drop, length_take in *. lia.
  - rewrite deflate_loop_fuel_left by lia. f_equal. f_equal.
    apply take_ge. unfold size in *. rewrite length_take in *. lia.
Qed.

Lemma inflate_loop_total : ∀ fuel s outLen status output,
  0 < outLen → (status = Z_OK → calls_left s < fuel)%nat →
  ∃ r, inflate_loop fuel s outLen status output = Ret r.
Proof.
  induction fuel as [|fuel IH]; intros s outLen status output Hn Hf; simpl;
    (destruct (Z.eqb_spec status Z_OK) as [->|]; [|by eexists]).
  - specialize (Hf eq_refl). lia.
  - destruct (inflate s outLen) as [[st out] s'] eqn:E.
    destruct (inflate_out _ _ _ _ _ Hn E) as [_ Hc].
    apply IH; [done|]. intros ->. specialize (Hc eq_refl). specialize (Hf eq_refl). lia.
Qed.

Lemma inflate_loop_plain : ∀ fuel s outLen output p,
  0 < outLen → plain s = Some p → (calls_left s < fuel)%nat →
  ∃ s', inflate_loop fuel s outLen Z_OK output = Ret (Z_STREAM_END, s', output ++ p) ∧
        inflateEnd s' = Z_OK.
Proof.
  induction fuel as [|fuel IH]; intros s outLen output p Hn Hp Hf; [lia|]. simpl.
  destruct (inflate_plain s outLen p) as (st & out & s' & p' & E & -> & Hst); [done..|].
  rewrite E. destruct (inflate_out _ _ _ _ _ Hn E) as [_ Hc].
  destruct Hst as [[-> Hp']|(-> & -> & He)].
  - rewrite app_assoc. apply IH; [done..|]. specialize (Hc eq_refl). lia.
  - exists s'. rewrite app_nil_r. by destruct fuel.
Qed.

(** What a compressed string looks like on the wire. *)
Definition gzipped (src z : bytes) : Prop :=
  ∃ s, deflateInit2 src = Some s ∧ z = compressed s.

Lemma gzipCompress_spec src z :
  gzipped src z → size src < 2 ^ 31 →
  gzipCompress src (i32 (size src)) [] = Ret (true, z) ∧ 0 < size z.
Proof.
  intros (s & Hs & ->) Hsz. pose proof (deflate_bound _ _ Hs) as Hb.
  split; [|lia]. unfold gzipCompress. rewrite u32_i32, u32_small.
  2:{ pose proof (size_nonneg src). lia. }
  rewrite take_ge by (unfold size; lia). rewrite Hs.
  rewrite <-(size_nil (A:=byte)), deflate_loop_all by (done || lia). done.
Qed.

Lemma gzipUncompress_spec src z :
  gzipped src z → size z < 2 ^ 31 →
  gzipUncompress z (size z) [] = Ret (true, src).
Proof.
  intros (s & Hs & ->) Hsz. pose proof (deflate_bound _ _ Hs) as Hb.
  unfold gzipUncompress. rewrite u32_small by lia.
  rewrite take_ge by (unfold size; lia).
  destruct (inflate_deflate _ _ Hs) as (i & Hi & Hp). rewrite Hi.
  destruct (inflate_loop_plain (S (inflateBound (compressed s))) i
              (size (compressed s) * 2) [] src) as (s' & E & He);
    [lia|done|by apply Nat.lt_succ_r, inflate_bound|].
  rewrite E. simpl. by rewrite He.
Qed.

Lemma gzipUncompress_total src n output :
  0 < n → ∃ r, gzipUncompress src n output = Ret r.
Proof.
  intros Hn. unfold gzipUncompress. destruct (inflateInit2 _) as [s|] eqn:E; [|by eexists].
  edestruct (inflate_loop_total (S (inflateBound (take (Z.to_nat (u32 n)) src)))
               s (n * 2) Z_OK output) as [[[st s'] out] ->].
  - lia.
  - intros _. by apply Nat.lt_succ_r, inflate_bound.
  - eexists. done.
Qed.

End facts.
