(* ===== verification/Encoding.v ===== *)
(** * Encoding: the primitive codecs (src/packet/encoding.cpp)

    A setter takes the vector it appends to and gives the vector afterwards.  A
    getter is a reading program; the reference parameter [packetRemaining], a
    [uint32_t], is passed in and returned with the value. *)
From S2P Require Import Prelude TcpError TcpIO Gzip.

Section encoding.
Context `{!Zlib}.

(** ** Lengths: groups of seven bits, the high bit marks a continuation *)

(** The loop of decodeLength, entered with [i], [v] and [shift]; [n] is the
    number of iterations left.  [v] never exceeds 28 bits. *)
Fixpoint decodeLength_loop (n : nat) (i v shift : Z) : reading (Z * Z) :=
  match n with
  | O => mret (u32 (-1), -1)
  | S n =>
      buf ← ReadFull 1;
      let b := byte_val (hd Byte.x00 buf) in
      let v := v .| ((b .& 127) .<< shift) in
      if (b .& 128) =? 0 then mret (u32 v, i + 1)
      else decodeLength_loop n (i + 1) v (shift + 7)
  end.

(** The length as [uint32_t], and how many bytes it took; (2^32 - 1, -1) after
    four bytes that all announce a continuation. *)
Definition decodeLength : reading (Z * Z) := decodeLength_loop 4 0 0 0.

(** [while (length > 0)]. *)
Fixpoint encodeLength_loop (fuel : nat) (length : Z) (buf : bytes) : bytes :=
  match fuel with
  | O => buf
  | S fuel =>
      if 0 <? length then
        let digit := length .& 127 in
        let length := length .>> 7 in
        let digit := if 0 <? length then digit .| 128 else digit in
        encodeLength_loop fuel length (buf ++ [byte_of digit])
      else buf
  end.

(** A [uint32_t] has at most five groups of seven bits. *)
Definition encodeLength (length : Z) (buf : bytes) : bytes :=
  let buf := if length =? 0 then buf ++ [Byte.x00] else buf in
  encodeLength_loop 5 length buf.

(** ** Integers *)

Definition getUint8 (packetRemaining : Z) : reading (Z * Z) :=
  if packetRemaining <? 1 then rthrow TcpExcDataExceedsPacket
  else
    buf ← ReadFull 1;
    mret (byte_val (hd Byte.x00 buf), packetRemaining -u32 1).

Definition setUint8 (val : Z) (buf : bytes) : bytes := buf ++ [byte_of val].

Definition getUint16 (packetRemaining : Z) : reading (Z * Z) :=
  if packetRemaining <? 2 then rthrow TcpExcDataExceedsPacket
  else
    buf ← ReadFull 2;
    let packetRemaining := packetRemaining -u32 2 in
    mret (u16 (byte_val (nth 0 buf Byte.x00) .<< 8) .| byte_val (nth 1 buf Byte.x00),
          packetRemaining).

Definition setUint16 (val : Z) (buf : bytes) : bytes :=
  buf ++ [byte_of ((val .& 65280) .>> 8)] ++ [byte_of (val .& 255)].

(** ** Strings and data *)

(** What getString, getGzipString, getData and getGzipData begin with: the
    length as [int32_t], the check against what remains of the packet, and the
    bytes in the array [char buf[len]].  An array of negative size is undefined
    behaviour, as is a read of [size_t(len)] bytes into it. *)
Definition getBlock (packetRemaining : Z) : reading (bytes * Z) :=
  '(len, lenLen) ← decodeLength;
  let strLen := i32 len in
  let packetRemaining := packetRemaining -u32 lenLen in
  if packetRemaining <? u32 strLen then rthrow TcpExcDataExceedsPacket
  else if strLen <? 0 then Fin Undefined
  else
    buf ← ReadFull strLen;
    mret (buf, packetRemaining -u32 strLen).

Definition getString (packetRemaining : Z) : reading (bytes * Z) :=
  getBlock packetRemaining.

Definition setString (val : bytes) (buf : bytes) : bytes :=
  let length := i32 (size val) in
  encodeLength (u32 length) buf ++ val.

(** The decompression of a block of [gzipLen] bytes. *)
Definition gunzipBlock (buf : bytes) : result bytes :=
  if 0 <? size buf then
    '(ok, output) ← gzipUncompress buf (size buf) [];
    if (ok : bool) then mret output else throw TcpExcUngzipError
  else mret [].

Definition getGzipString (packetRemaining : Z) : reading (bytes * Z) :=
  '(buf, packetRemaining) ← getBlock packetRemaining;
  result ← Fin (gunzipBlock buf);
  mret (result, packetRemaining).

Definition setGzipString (val : bytes) (buf : bytes) : result bytes :=
  '(ok, output) ← gzipCompress val (i32 (size val)) [];
  if (ok : bool) then mret (encodeLength (u32 (size output)) buf ++ output)
  else throw TcpExcGzipError.

Definition getData (packetRemaining : Z) : reading (bytes * Z) :=
  getBlock packetRemaining.

Definition setData (data : bytes) (buf : bytes) : bytes :=
  let length := i32 (size data) in
  encodeLength (u32 length) buf ++ data.

Definition getGzipData (packetRemaining : Z) : reading (bytes * Z) :=
  '(buf, packetRemaining) ← getBlock packetRemaining;
  output ← Fin (gunzipBlock buf);
  mret (output, packetRemaining).

(** Empty data leave the vector as it is. *)
Definition setGzipData (data : bytes) (buf : bytes) : result bytes :=
  if size data =? 0 then mret buf
  else
    '(ok, output) ← gzipCompress data (i32 (size data)) [];
    if (ok : bool) then mret (encodeLength (u32 (size output)) buf ++ output)
    else throw TcpExcGzipError.

End encoding.

(** ** Lemmas on lengths *)

Lemma land_127 z : z .& 127 = z mod 128.
Proof. exact (land_ones_mod z 7 ltac:(lia)). Qed.

Lemma land_128_small d : 0 ≤ d < 128 → d .& 128 = 0.
Proof.
  intros Hd. apply Z.bits_inj'; intros i Hi.
  rewrite Z.land_spec, Z.bits_0. change 128 with (2 ^ 7).
  rewrite Z.pow2_bits_eqb by lia. destruct (Z.eqb_spec 7 i) as [<-|]; [|apply andb_false_r].
  rewrite <-(Z.mod_small d (2 ^ 7)), Z.mod_pow2_bits_high by lia. done.
Qed.

(** A digit with its continuation mark: what the decoder finds in the byte. *)
Lemma digit_continued d :
  0 ≤ d < 128 → byte_val (byte_of (d .| 128)) .& 127 = d ∧
                (byte_val (byte_of (d .| 128)) .& 128 =? 0) = false.
Proof.
  intros Hd. change 128 with (1 .<< 7) at 1 2.
  rewrite lor_shiftl_add, byte_val_of, Z.mod_small by (simpl; lia).
  split.
  - rewrite land_127. change (1 * 2 ^ 7) with (1 * 128).
    rewrite Z_mod_plus_full. by apply Z.mod_small.
  - rewrite <-(lor_shiftl_add d 1 7), Z.land_lor_distr_l, land_128_small by lia. done.
Qed.

Lemma digit_last d :
  0 ≤ d < 128 → byte_val (byte_of d) .& 127 = d ∧ (byte_val (byte_of d) .& 128 =? 0) = true.
Proof.
  intros Hd. rewrite byte_val_of, Z.mod_small by lia. split.
  - rewrite land_127. by apply Z.mod_small.
  - by rewrite land_128_small.
Qed.

Lemma encodeLength_loop_app fuel : ∀ n buf,
  encodeLength_loop fuel n buf = buf ++ encodeLength_loop fuel n [].
Proof.
  induction fuel as [|fuel IH]; intros n buf; simpl; [by rewrite app_nil_r|].
  destruct (0 <? n); [|by rewrite app_nil_r].
  rewrite IH, (IH _ [_]). by rewrite app_assoc.
Qed.

Lemma encodeLength_app n buf : encodeLength n buf = buf ++ encodeLength n [].
Proof.
  unfold encodeLength. destruct (n =? 0); rewrite encodeLength_loop_app; [|done].
  by rewrite (encodeLength_loop_app _ _ ([] ++ _)), <-!app_assoc.
Qed.

Lemma encodeLength_loop_size fuel : ∀ n,
  0 ≤ n < 2 ^ (7 * Z.of_nat fuel) →
  Z.of_nat (length (encodeLength_loop fuel n [])) ≤ Z.of_nat fuel ∧
  (0 < n → 1 ≤ Z.of_nat (length (encodeLength_loop fuel n []))).
Proof.
  induction fuel as [|fuel IH]; intros n Hn; simpl; [lia|].
  destruct (Z.ltb_spec 0 n); [|simpl; lia].
  rewrite encodeLength_loop_app, length_app. simpl length.
  rewrite Z.shiftr_div_pow2 by lia.
  destruct (IH (n / 2 ^ 7)).
  - split; [apply Z.div_pos; lia|]. apply Z.div_lt_upper_bound; [lia|].
    rewrite <-Z.pow_add_r by lia. replace (7 + 7 * Z.of_nat fuel) with (7 * Z.of_nat (S fuel)) by lia.
    lia.
  - lia.
Qed.

(** Enough fuel: more iterations change nothing. *)
Lemma encodeLength_loop_fuel fuel : ∀ n more,
  0 ≤ n < 2 ^ (7 * Z.of_nat fuel) →
  encodeLength_loop (fuel + more) n [] = encodeLength_loop fuel n [].
Proof.
  induction fuel as [|fuel IH]; intros n more Hn; simpl.
  - replace n with 0 by lia. by destruct more.
  - destruct (Z.ltb_spec 0 n); [|done].
    rewrite encodeLength_loop_app, (encodeLength_loop_app fuel). f_equal.
    apply IH. rewrite Z.shiftr_div_pow2 by lia. split; [apply Z.div_pos; lia|].
    apply Z.div_lt_upper_bound; [lia|].
    rewrite <-Z.pow_add_r by lia. replace (7 + 7 * Z.of_nat fuel) with (7 * Z.of_nat (S fuel)) by lia.
    lia.
Qed.

Lemma size_encodeLength n :
  0 ≤ n < 2 ^ 28 → 1 ≤ size (encodeLength n []) ≤ 4.
Proof.
  intros Hn. unfold encodeLength, size. destruct (Z.eqb_spec n 0) as [->|]; [done|].
  change 5%nat with (4 + 1)%nat. rewrite encodeLength_loop_fuel by (simpl; lia).
  destruct (encodeLength_loop_size 4 n); [simpl; lia|]. lia.
Qed.

Lemma size_encodeLength_any n :
  0 ≤ n < 2 ^ 35 → 1 ≤ size (encodeLength n []) ≤ 5.
Proof.
  intros Hn. unfold encodeLength, size. destruct (Z.eqb_spec n 0) as [->|]; [done|].
  destruct (encodeLength_loop_size 5 n); [simpl; lia|]. lia.
Qed.

(** Reading back the digits of [n] adds [n] times the weight of the position. *)
Lemma decode_digits : ∀ m n i v sh rest,
  0 < n < 2 ^ (7 * Z.of_nat m) → 0 ≤ sh → sh + 7 * Z.of_nat m ≤ 28 → 0 ≤ v < 2 ^ sh →
  run stream_reader (decodeLength_loop m i v sh) (encodeLength_loop m n [] ++ rest) =
  (Ret (v + n * 2 ^ sh, i + size (encodeLength_loop m n [])), rest).
Proof.
  induction m as [|m IH]; intros n i v sh rest Hn Hsh Hbound Hv; [simpl in *; lia|].
  cbn [decodeLength_loop encodeLength_loop].
  destruct (Z.ltb_spec 0 n) as [_|]; [|lia]. cbn zeta.
  rewrite encodeLength_loop_app, <-app_assoc, run_bind. cbn [app].
  rewrite run_ReadFull_cons. cbn [hd].
  rewrite land_127, Z.shiftr_div_pow2 by lia. change (2 ^ 7) with 128.
  pose proof (Z.mod_pos_bound n 128 eq_refl) as Hd.
  pose proof (Z.div_mod n 128) as Hdm.
  assert (Hv' : 0 ≤ v + n mod 128 * 2 ^ sh < 2 ^ (sh + 7)).
  { rewrite Z.pow_add_r by lia. nia. }
  assert (Hp : 2 ^ (sh + 7) ≤ 2 ^ 28) by (apply Z.pow_le_mono_r; lia).
  destruct (Z.ltb_spec 0 (n / 128)) as [Hq|Hq].
  - destruct (digit_continued (n mod 128) Hd) as [-> ->].
    rewrite lor_shiftl_add by lia. rewrite IH; try lia.
    + rewrite Z.pow_add_r by lia. cbn [app]. rewrite size_cons.
      f_equal. f_equal. f_equal; nia.
    + split; [done|]. apply Z.div_lt_upper_bound; [lia|]. change 128 with (2 ^ 7).
      rewrite <-Z.pow_add_r by lia.
      replace (7 + 7 * Z.of_nat m) with (7 * Z.of_nat (S m)) by lia. lia.
  - assert (n / 128 = 0) as Hz by (pose proof (Z.div_pos n 128); lia).
    destruct (digit_last (n mod 128) Hd) as [-> ->].
    rewrite lor_shiftl_add, Hz by lia.
    assert (encodeLength_loop m 0 [] = []) as -> by by destruct m.
    rewrite run_Ret, u32_small by lia. cbn [app].
    do 3 f_equal. nia.
Qed.

Lemma run_decodeLength n rest :
  0 ≤ n < 2 ^ 28 →
  run stream_reader decodeLength (encodeLength n [] ++ rest) =
  (Ret (n, size (encodeLength n [])), rest).
Proof.
  intros Hn. unfold decodeLength, encodeLength.
  destruct (Z.eqb_spec n 0) as [->|].
  { cbn [decodeLength_loop]. rewrite run_bind. cbn [encodeLength_loop Z.ltb Z.compare app].
    by rewrite run_ReadFull_cons. }
  change 5%nat with (4 + 1)%nat. rewrite encodeLength_loop_fuel by (simpl; lia).
  etrans; [apply (decode_digits 4 n 0 0 0 rest); lia|].
  by rewrite Z.mul_1_r.
Qed.

(** The decoder asks for one byte at a time and gives a length of at most 28 bits,
    or the mark of a malformed one. *)
Lemma decodeLength_loop_wp n : ∀ i v sh,
  0 ≤ i → i + Z.of_nat n ≤ 4 → sh = 7 * i → 0 ≤ v < 2 ^ sh →
  reading_wp (λ o, ∃ len ll, o = Ret (len, ll) ∧
                (len = u32 (-1) ∧ ll = -1 ∨ 0 ≤ len < 2 ^ 28 ∧ 1 ≤ ll ≤ 4))
             (decodeLength_loop n i v sh).
Proof.
  induction n as [|n IH]; intros i v sh Hi Hn Hsh Hv; [by eexists _, _; split; [|left]|].
  cbn [decodeLength_loop]. apply reading_wp_bind. split; [done|].
  intros buf _. cbn [reading_wp]. set (b := byte_val _).
  assert (Hd : 0 ≤ b .& 127 < 128) by (rewrite land_127; by apply Z.mod_pos_bound).
  assert (Hv' : 0 ≤ v .| ((b .& 127) .<< sh) < 2 ^ (sh + 7)).
  { rewrite lor_shiftl_add, Z.pow_add_r by lia. nia. }
  destruct (_ =? 0).
  - assert (Hp : 2 ^ (sh + 7) ≤ 2 ^ 28) by (apply Z.pow_le_mono_r; lia).
    eexists _, _; split; [done|]. rewrite u32_small by lia. right; lia.
  - apply IH; lia.
Qed.

Lemma decodeLength_wp :
  reading_wp (λ o, match o with
                   | Ret (len, ll) =>
                       len = u32 (-1) ∧ ll = -1 ∨ 0 ≤ len < 2 ^ 28 ∧ 1 ≤ ll ≤ 4
                   | _ => False
                   end) decodeLength.
Proof.
  eapply reading_wp_impl; [apply decodeLength_loop_wp; lia|].
  by intros o (len & ll & -> & H).
Qed.

(** ** Lemmas on the other primitives

    [block z] is [z] preceded by its length. *)

Definition block (z : bytes) : bytes := encodeLength (size z) [] ++ z.

Lemma size_block z : size z < 2 ^ 28 → size z + 1 ≤ size (block z) ≤ size z + 4.
Proof.
  intros Hz. unfold block. norm_size. pose proof (size_nonneg z).
  pose proof (size_encodeLength (size z)). lia.
Qed.

Lemma setString_app val buf : size val < 2 ^ 28 → setString val buf = buf ++ block val.
Proof.
  intros Hv. unfold setString, block. pose proof (size_nonneg val).
  rewrite u32_i32, u32_small, encodeLength_app by lia. by rewrite <-app_assoc.
Qed.

Lemma setUint16_val v :
  0 ≤ v < 2 ^ 16 →
  setUint16 v [] = [byte_of (v / 256); byte_of (v mod 256)].
Proof.
  intros Hv. unfold setUint16. cbn [app].
  change 255 with (2 ^ 8 - 1). rewrite land_ones_mod by lia. change (2 ^ 8) with 256.
  do 2 f_equal. change 65280 with ((2 ^ 8 - 1) .<< 8).
  rewrite Z.shiftr_land, Z.shiftr_shiftl_l, Z.sub_diag, Z.shiftl_0_r by lia.
  rewrite land_ones_mod, Z.shiftr_div_pow2 by lia. apply Z.mod_small.
  split; [apply Z.div_pos; lia|]. apply Z.div_lt_upper_bound; lia.
Qed.

Section primitives.
Context `{!Zlib, !ZlibSpec}.

Lemma run_getUint8 r b rest :
  1 ≤ r < 2 ^ 32 →
  run stream_reader (getUint8 r) (b :: rest) = (Ret (byte_val b, r - 1), rest).
Proof.
  intros Hr. unfold getUint8. destruct (Z.ltb_spec r 1); [lia|].
  rewrite run_bind, run_ReadFull_cons, run_Ret, u32_small by lia. done.
Qed.

Lemma run_getUint16 r v rest :
  2 ≤ r < 2 ^ 32 → 0 ≤ v < 2 ^ 16 →
  run stream_reader (getUint16 r) (setUint16 v [] ++ rest) = (Ret (v, r - 2), rest).
Proof.
  intros Hr Hv. unfold getUint16. destruct (Z.ltb_spec r 2); [lia|].
  rewrite setUint16_val by done.
  rewrite run_bind, run_ReadFull_app by done.
  cbn [nth]. rewrite run_Ret, u32_small, !byte_val_of, Z.mod_mod by lia.
  assert (0 ≤ v / 256 < 256).
  { split; [apply Z.div_pos|apply Z.div_lt_upper_bound]; lia. }
  rewrite (Z.mod_small (v / 256)), Z.shiftl_mul_pow2 by lia.
  pose proof (Z.div_mod v 256). pose proof (Z.mod_pos_bound v 256).
  rewrite u16_small by lia. rewrite Z.lor_comm, <-Z.shiftl_mul_pow2, lor_shiftl_add by lia.
  do 3 f_equal. lia.
Qed.

Lemma run_getBlock r z rest :
  size z < 2 ^ 28 → size (block z) ≤ r < 2 ^ 32 →
  run stream_reader (getBlock r) (block z ++ rest) = (Ret (z, r - size (block z)), rest).
Proof.
  intros Hz Hr. unfold getBlock, block in *. norm_size. pose proof (size_nonneg z).
  rewrite <-app_assoc, run_bind, run_decodeLength by lia. cbn beta iota zeta.
  pose proof (size_encodeLength (size z)).
  rewrite i32_small, !u32_small by lia.
  destruct (Z.ltb_spec (r - size (encodeLength (size z) [])) (size z)); [lia|].
  destruct (Z.ltb_spec (size z) 0); [lia|].
  rewrite run_bind, run_ReadFull_app by done. rewrite run_Ret.
  do 3 f_equal. lia.
Qed.

Lemma run_getString r z rest :
  size z < 2 ^ 28 → size (block z) ≤ r < 2 ^ 32 →
  run stream_reader (getString r) (block z ++ rest) = (Ret (z, r - size (block z)), rest).
Proof. apply run_getBlock. Qed.

Lemma gunzipBlock_gzipped val z :
  gzipped val z → size val < 2 ^ 31 → size z < 2 ^ 28 → gunzipBlock z = Ret val.
Proof.
  intros Hg Hv Hz. unfold gunzipBlock.
  destruct (gzipCompress_spec val z Hg Hv) as [_ Hpos].
  destruct (Z.ltb_spec 0 (size z)); [|lia].
  rewrite (gzipUncompress_spec val z) by (done || lia). done.
Qed.

Lemma run_getGzipString r val z rest :
  gzipped val z → size val < 2 ^ 31 → size z < 2 ^ 28 → size (block z) ≤ r < 2 ^ 32 →
  run stream_reader (getGzipString r) (block z ++ rest) =
  (Ret (val, r - size (block z)), rest).
Proof.
  intros Hg Hv Hz Hr. unfold getGzipString. rewrite run_bind, run_getBlock by done.
  by rewrite run_bind, (gunzipBlock_gzipped val).
Qed.

Lemma setGzipString_spec val z buf :
  gzipped val z → size val < 2 ^ 31 → size z < 2 ^ 32 →
  setGzipString val buf = Ret (buf ++ block z).
Proof.
  intros Hg Hv Hz. unfold setGzipString.
  destruct (gzipCompress_spec val z Hg Hv) as [-> Hpos]. cbn [outcome_bind mbind outcome_mbind].
  unfold mret, outcome_mret. f_equal. unfold block.
  rewrite u32_small, encodeLength_app by lia. by rewrite <-app_assoc.
Qed.

Lemma setGzipData_spec val z buf :
  gzipped val z → 0 < size val < 2 ^ 31 → size z < 2 ^ 32 →
  setGzipData val buf = Ret (buf ++ block z).
Proof.
  intros Hg Hv Hz. unfold setGzipData. destruct (Z.eqb_spec (size val) 0); [lia|].
  apply setGzipString_spec; [done|lia|done].
Qed.

(** A block whose length is malformed: the reading is refused for every value of
    what remains but one. *)
Lemma getBlock_wp r :
  0 ≤ r < 2 ^ 32 → r ≠ 2 ^ 32 - 2 →
  reading_wp (λ o, match o with
                   | Ret (buf, r') => size buf < 2 ^ 28 ∧ 0 ≤ r' < 2 ^ 32
                   | Throw _ => True
                   | _ => False
                   end) (getBlock r).
Proof.
  intros Hr Hne. unfold getBlock. apply reading_wp_bind.
  eapply reading_wp_impl; [apply decodeLength_wp|].
  intros [[len lenLen]|e| |]; [|done..].
  intros [[-> ->]|[Hlen Hll]].
  - change (i32 (u32 (-1))) with (-1). change (u32 (-1)) with (2 ^ 32 - 1).
    destruct (Z.ltb_spec (r -u32 -1) (2 ^ 32 - 1)) as [|Hge]; [done|].
    exfalso. revert Hge. destruct (decide (r = 2 ^ 32 - 1)) as [->|]; [by vm_compute|].
    rewrite u32_small; lia.
  - rewrite i32_small, (u32_small len) by lia.
    destruct (_ <? len); [done|]. destruct (Z.ltb_spec len 0); [lia|].
    split; [lia|]. intros buf Hbuf. simpl. rewrite Hbuf.
    split; [lia|apply u32_range].
Qed.

End primitives.
