(* ===== verification/FixHeader.v ===== *)
(** * FixHeader: the fixed header of a packet (src/packet/fix_header.hpp, .cpp) *)
From S2P Require Import Prelude TcpError TcpIO Gzip Encoding.

(** The enumeration.  Its range is 0 to 15, so the four bits of a header may give
    a value that is none of the enumerators: [kMsgUnnamed]. *)
Inductive MessageType : Set :=
| kMsgFirst | kMsgConnect | kMsgConnAck | kMsgPingReq | kMsgPingResp
| kMsgDisconnect | kMsgSendReq | kMsgSendResp | kMsgLast
| kMsgUnnamed (v : Z).

Definition MessageType_val (t : MessageType) : Z :=
  match t with
  | kMsgFirst => 0 | kMsgConnect => 1 | kMsgConnAck => 2 | kMsgPingReq => 3
  | kMsgPingResp => 4 | kMsgDisconnect => 5 | kMsgSendReq => 6
  | kMsgSendResp => 7 | kMsgLast => 8
  | kMsgUnnamed v => v
  end.

(** The cast [MessageType(v)]. *)
Definition MessageType_of (v : Z) : MessageType :=
  match v with
  | 0 => kMsgFirst | 1 => kMsgConnect | 2 => kMsgConnAck | 3 => kMsgPingReq
  | 4 => kMsgPingResp | 5 => kMsgDisconnect | 6 => kMsgSendReq
  | 7 => kMsgSendResp | 8 => kMsgLast
  | _ => kMsgUnnamed v
  end.

#[export] Instance MessageType_eq_dec : EqDecision MessageType.
Proof. solve_decision. Defined.

Module FixHeader.

Record t : Set := mk {
  _msgType : MessageType;
  _remainLen : Z;            (* uint32_t *)
  _flags : Z;                (* uint8_t *)
}.

(** Setters. *)
Definition SetMsgType (h : t) (ty : MessageType) : t := mk ty (_remainLen h) (_flags h).
Definition SetRemainLen (h : t) (n : Z) : t := mk (_msgType h) n (_flags h).
Definition SetFlags (h : t) (f : Z) : t := mk (_msgType h) (_remainLen h) f.

(** [_msgType <= kMsgFirst || _msgType >= kMsgLast] *)
Definition bad_type (ty : MessageType) : bool :=
  (MessageType_val ty <=? MessageType_val kMsgFirst)
  || (MessageType_val kMsgLast <=? MessageType_val ty).

Definition Encode (h : t) (buf : bytes) : result bytes :=
  if bad_type (_msgType h) then throw TcpExcBadMsgType
  else
    let val := u8 ((MessageType_val (_msgType h) .<< 4) .| (_flags h .& 15)) in
    let buf := setUint8 val buf in
    mret (encodeLength (_remainLen h) buf).

(** A new header is decoded: every field is assigned. *)
Definition Decode : reading t :=
  buf ← ReadFull 1;
  let b := byte_val (hd Byte.x00 buf) in
  let ty := MessageType_of ((b .& 240) .>> 4) in
  if bad_type ty then rthrow TcpExcBadMsgType
  else
    let flags := b .& 15 in
    if negb (flags .>> 3 =? 0) || negb (flags .& 1 =? 0) then rthrow TcpExcInvalidFlag
    else
      '(remainLen, len) ← decodeLength;
      mret (mk ty (u32 (i32 remainLen)) flags).

End FixHeader.
