(* ===== verification/Message.v ===== *)
(** * Message: the packets of the protocol (src/packet/message_base.hpp, .cpp,
    message.hpp, .cpp, message_manager.hpp, .cpp)

    Each class that derives from [MessageBase] is a Module with its record, its
    [Encode] and its [Decode]; [MessageBase] is the sum of the classes, on which
    the virtual methods dispatch.  [Encode] gives the bytes of its only call of
    [writer->Write] together with the object afterwards, since it assigns fields
    of the header. *)
From S2P Require Import Prelude TcpError TcpIO Gzip Encoding FixHeader.

Definition kProtocolName : bytes := str "GOSOC".
Definition kProtocolVersion : Z := 1.
Definition kEnableGzip : bool := true.

(** MessageBase::kMaxPayloadSize *)
Definition kMaxPayloadSize : Z := (1 .<< (4 * 7)) - 1.

(** MessageBase::WriteHeader: the header with its new length, and the buffer. *)
Definition WriteHeader (_header : FixHeader.t) (headerBuf : bytes)
    (mutableHeader : option bytes) (payloadLen dataLen : Z) : result (FixHeader.t * bytes) :=
  let mutableHeaderLen := match mutableHeader with Some m => size m | None => 0 end in
  let totalPayloadLen := mutableHeaderLen + payloadLen + dataLen in
  if kMaxPayloadSize <? totalPayloadLen then throw TcpExcMsgTooLong
  else
    let _header := FixHeader.SetRemainLen _header (u32 (i32 totalPayloadLen)) in
    headerBuf ← FixHeader.Encode _header headerBuf;
    mret (_header, headerBuf ++ match mutableHeader with Some m => m | None => [] end).

(** The header of a new message: its type is set by the constructor, [_flags] is
    0 and [_remainLen] is indeterminate until WriteHeader or SetHeader sets it. *)
Definition newHeader (ty : MessageType) (indeterminate : Z) : FixHeader.t :=
  FixHeader.mk ty indeterminate 0.

(** [if (remainLen != 0) throw TcpException(TcpExcMsgTooLong)] *)
Definition expectEnd (remainLen : Z) : reading unit :=
  if negb (remainLen =? 0) then rthrow TcpExcMsgTooLong else mret ().

Section payload.
Context `{!Zlib}.

(** [setGzipString] or [setString], as [kEnableGzip] says; and the getters. *)
Definition setPayload (payload : bytes) (buf : bytes) : result bytes :=
  if kEnableGzip then setGzipString payload buf else mret (setString payload buf).
Definition getPayload (remainLen : Z) : reading (bytes * Z) :=
  if kEnableGzip then getGzipString remainLen else getString remainLen.

End payload.

Module Connect.

Record t : Set := mk {
  _header : FixHeader.t;
  _protocolName : bytes;
  _protocolVersion : Z;
  _keepAlive : Z;
  _payload : bytes;
  _enableGzip : bool;
}.

Section codec.
Context `{!Zlib}.

Definition Encode (m : t) : result (bytes * t) :=
  let buf := setString (_protocolName m) [] in
  let buf := setUint8 (_protocolVersion m) buf in
  let flags := u8 (Z.b2z (_enableGzip m) .<< 7) in
  let buf := setUint8 flags buf in
  let buf := setUint16 (_keepAlive m) buf in
  payloadBuf ← setPayload (_payload m) [];
  '(h, finalBuf) ← WriteHeader (_header m) [] (Some buf) (i32 (size payloadBuf)) 0;
  let finalBuf := finalBuf ++ payloadBuf in
  mret (finalBuf, mk h (_protocolName m) (_protocolVersion m) (_keepAlive m)
                     (_payload m) (_enableGzip m)).

Definition Decode (h : FixHeader.t) : reading t :=
  let remainLen := FixHeader._remainLen h in
  '(_protocolName, remainLen) ← getString remainLen;
  if bool_decide (_protocolName ≠ kProtocolName) then rthrow TcpExcInvalidProName else
  '(_protocolVersion, remainLen) ← getUint8 remainLen;
  if kProtocolVersion <? _protocolVersion then rthrow TcpExcInvalidProVersion else
  '(flags, remainLen) ← getUint8 remainLen;
  let _enableGzip := 0 <? (flags .& 128) in
  if negb (flags =? 0) && negb (flags =? 128) then rthrow TcpExcInvalidFlag else
  '(_keepAlive, remainLen) ← getUint16 remainLen;
  '(_payload, remainLen) ← getPayload remainLen;
  expectEnd remainLen;;
  mret (mk h _protocolName _protocolVersion _keepAlive _payload _enableGzip).

End codec.
End Connect.

Module ConnAck.

(** The enumeration ReturnCode. *)
Inductive ReturnCode : Set :=
| RetCodeAccepted | RetCodeServerUnavailable | RetCodeBadLoginInfo
| RetCodeNotAuthorized | RetCodeAlreadyConnected | RetCodeConcurrentLogin
| RetCodeBadToken | RetCodeInvalid.

Definition ReturnCode_val (c : ReturnCode) : Z :=
  match c with
  | RetCodeAccepted => 0 | RetCodeServerUnavailable => 1 | RetCodeBadLoginInfo => 2
  | RetCodeNotAuthorized => 3 | RetCodeAlreadyConnected => 4
  | RetCodeConcurrentLogin => 5 | RetCodeBadToken => 6 | RetCodeInvalid => 7
  end.

(** The cast [ReturnCode(v)], used for [v < RetCodeInvalid]. *)
Definition ReturnCode_of (v : Z) : ReturnCode :=
  match v with
  | 0 => RetCodeAccepted | 1 => RetCodeServerUnavailable | 2 => RetCodeBadLoginInfo
  | 3 => RetCodeNotAuthorized | 4 => RetCodeAlreadyConnected
  | 5 => RetCodeConcurrentLogin | 6 => RetCodeBadToken | _ => RetCodeInvalid
  end.

Record t : Set := mk { _header : FixHeader.t; _returnCode : ReturnCode }.

(** The constructor sets the type kMsgConnect. *)
Definition new (indeterminate : Z) (c : ReturnCode) : t :=
  mk (newHeader kMsgConnect indeterminate) c.

Definition Encode (m : t) : result (bytes * t) :=
  let buf := setUint8 0 [] in
  let buf := setUint8 (u8 (ReturnCode_val (_returnCode m))) buf in
  '(h, finalBuf) ← WriteHeader (_header m) [] (Some buf) 0 0;
  mret (finalBuf, mk h (_returnCode m)).

Definition Decode (h : FixHeader.t) : reading t :=
  let remainLen := FixHeader._remainLen h in
  '(flags, remainLen) ← getUint8 remainLen;
  if negb (flags =? 0) then rthrow TcpExcInvalidFlag else
  '(retCode, remainLen) ← getUint8 remainLen;
  if (ReturnCode_val RetCodeInvalid <=? retCode) || (retCode <? 0)
  then rthrow TcpExcBadReturnCode else
  let _returnCode := ReturnCode_of retCode in
  expectEnd remainLen;;
  mret (mk h _returnCode).

End ConnAck.

Module PingReq.

Record t : Set := mk { _header : FixHeader.t }.

Definition new (indeterminate : Z) : t := mk (newHeader kMsgPingReq indeterminate).

Definition Encode (m : t) : result (bytes * t) :=
  '(h, finalBuf) ← WriteHeader (_header m) [] None 0 0;
  mret (finalBuf, mk h).

Definition Decode (h : FixHeader.t) : reading t :=
  expectEnd (FixHeader._remainLen h);;
  mret (mk h).

End PingReq.

Module PingResp.

Record t : Set := mk { _header : FixHeader.t }.

Definition new (indeterminate : Z) : t := mk (newHeader kMsgPingResp indeterminate).

Definition Encode (m : t) : result (bytes * t) :=
  '(h, finalBuf) ← WriteHeader (_header m) [] None 0 0;
  mret (finalBuf, mk h).

Definition Decode (h : FixHeader.t) : reading t :=
  expectEnd (FixHeader._remainLen h);;
  mret (mk h).

End PingResp.

Module Disconnect.

(** The enumeration DisconnectType; any other byte the server sends keeps its
    value. *)
Inductive DisconnectType : Set := DiscTypeNone | DiscTypeKickout | DiscTypeOther (v : Z).

Definition DisconnectType_val (d : DisconnectType) : Z :=
  match d with DiscTypeNone => 0 | DiscTypeKickout => 1 | DiscTypeOther v => v end.
Definition DisconnectType_of (v : Z) : DisconnectType :=
  match v with 0 => DiscTypeNone | 1 => DiscTypeKickout | _ => DiscTypeOther v end.

Record t : Set := mk { _header : FixHeader.t; _type : DisconnectType }.

Definition new (indeterminate : Z) : t :=
  mk (newHeader kMsgDisconnect indeterminate) DiscTypeNone.

Definition Encode (m : t) : result (bytes * t) :=
  let buf := setUint8 (u8 (DisconnectType_val (_type m))) [] in
  '(h, finalBuf) ← WriteHeader (_header m) [] (Some buf) 0 0;
  mret (finalBuf, mk h (_type m)).

Definition Decode (h : FixHeader.t) : reading t :=
  let remainLen := FixHeader._remainLen h in
  '(v, remainLen) ← getUint8 remainLen;
  let _type := DisconnectType_of v in
  expectEnd remainLen;;
  mret (mk h _type).

End Disconnect.

Module SendReq.

(** The enumeration ReplyLevel; the two bits of a header can also give 3. *)
Inductive ReplyLevel : Set :=
| RLevelNoReply | RLevelReplyLater | RLevelReplyNow | RLevelUnnamed.

Definition ReplyLevel_val (r : ReplyLevel) : Z :=
  match r with
  | RLevelNoReply => 0 | RLevelReplyLater => 1 | RLevelReplyNow => 2 | RLevelUnnamed => 3
  end.
Definition ReplyLevel_of (v : Z) : ReplyLevel :=
  match v with
  | 0 => RLevelNoReply | 1 => RLevelReplyLater | 2 => RLevelReplyNow | _ => RLevelUnnamed
  end.

Record t : Set := mk {
  _header : FixHeader.t;
  _replyLevel : ReplyLevel;
  _hasData : bool;
  _messageId : Z;            (* uint16_t *)
  _type : bytes;
  _payload : bytes;
  _data : bytes;
}.

(** A new request: RLevelReplyLater and no data; its other fields are set by the
    client before it is used. *)
Definition new (indeterminate messageId : Z) (type payload : bytes) : t :=
  mk (newHeader kMsgSendReq indeterminate) RLevelReplyLater false messageId type payload [].

Definition SetReplyLevel (m : t) (r : ReplyLevel) : t :=
  mk (_header m) r (_hasData m) (_messageId m) (_type m) (_payload m) (_data m).

Definition with_data (m : t) (data : bytes) : t :=
  mk (_header m) (_replyLevel m) true (_messageId m) (_type m) (_payload m) data.

(** [vector(data, data+size)] of a buffer that holds [data]: what is not a range
    within the buffer is undefined.  (The vector of libstdc++ throws length_error for a
    negative size, and reads behind the buffer for one that is too large.) *)
Definition SetData (m : t) (data : bytes) (size : Z) : checked t :=
  if (0 <=? size) && (size <=? Prelude.size data)
  then Ret (with_data m (take (Z.to_nat size) data))
  else Undefined.

Section codec.
Context `{!Zlib}.

Definition Encode (m : t) : result (bytes * t) :=
  let flags := u8 ((ReplyLevel_val (_replyLevel m) .<< 1) .| (Z.b2z (_hasData m) .<< 3)) in
  let _header := FixHeader.SetFlags (_header m) flags in
  let buf := setUint16 (_messageId m) [] in
  let buf := setString (_type m) buf in
  payloadBuf ← setPayload (_payload m) [];
  dataBuf ← (if _hasData m then
               if kEnableGzip then setGzipData (_data m) [] else mret (setData (_data m) [])
             else mret []);
  '(h, finalBuf) ← WriteHeader _header [] (Some buf) (i32 (size payloadBuf)) (i32 (size dataBuf));
  let finalBuf := finalBuf ++ payloadBuf in
  let finalBuf := finalBuf ++ dataBuf in
  mret (finalBuf, mk h (_replyLevel m) (_hasData m) (_messageId m) (_type m)
                     (_payload m) (_data m)).

Definition Decode (h : FixHeader.t) : reading t :=
  let _replyLevel := ReplyLevel_of ((FixHeader._flags h .& 6) .>> 1) in
  let _hasData := negb ((FixHeader._flags h .& 8) .>> 3 =? 0) in
  let remainLen := FixHeader._remainLen h in
  '(_messageId, remainLen) ← getUint16 remainLen;
  '(_type, remainLen) ← getString remainLen;
  '(_payload, remainLen) ← getPayload remainLen;
  '(_data, remainLen) ← (if _hasData then
                           if kEnableGzip then getGzipData remainLen else getData remainLen
                         else mret ([], remainLen));
  expectEnd remainLen;;
  mret (mk h _replyLevel _hasData _messageId _type _payload _data).

End codec.
End SendReq.

Module SendResp.

Record t : Set := mk { _header : FixHeader.t; _messageId : Z; _payload : bytes }.

Definition new (indeterminate messageId : Z) (payload : bytes) : t :=
  mk (newHeader kMsgSendResp indeterminate) messageId payload.

Section codec.
Context `{!Zlib}.

(** The complete packet is built in [finalBuf], but [payloadBuf] is what the
    code hands to the writer. *)
Definition Encode (m : t) : result (bytes * t) :=
  let buf := setUint16 (_messageId m) [] in
  payloadBuf ← setPayload (_payload m) [];
  '(h, finalBuf) ← WriteHeader (_header m) [] (Some buf) (i32 (size payloadBuf)) 0;
  let finalBuf := finalBuf ++ payloadBuf in
  mret (payloadBuf, mk h (_messageId m) (_payload m)).

Definition Decode (h : FixHeader.t) : reading t :=
  let remainLen := FixHeader._remainLen h in
  '(_messageId, remainLen) ← getUint16 remainLen;
  '(_payload, remainLen) ← getPayload remainLen;
  expectEnd remainLen;;
  mret (mk h _messageId _payload).

End codec.
End SendResp.

(** ** The class hierarchy *)

Inductive MessageBase : Set :=
| MConnect (m : Connect.t)
| MConnAck (m : ConnAck.t)
| MPingReq (m : PingReq.t)
| MPingResp (m : PingResp.t)
| MDisconnect (m : Disconnect.t)
| MSendReq (m : SendReq.t)
| MSendResp (m : SendResp.t).

Definition GetHeader (m : MessageBase) : FixHeader.t :=
  match m with
  | MConnect m => Connect._header m
  | MConnAck m => ConnAck._header m
  | MPingReq m => PingReq._header m
  | MPingResp m => PingResp._header m
  | MDisconnect m => Disconnect._header m
  | MSendReq m => SendReq._header m
  | MSendResp m => SendResp._header m
  end.

Definition GetMsgType (m : MessageBase) : MessageType := FixHeader._msgType (GetHeader m).

Definition fmap_result {A B} (f : A → B) (r : result (bytes * A)) : result (bytes * B) :=
  '(buf, a) ← r; mret (buf, f a).

Section manager.
Context `{!Zlib}.

(** The virtual method Encode. *)
Definition Encode (m : MessageBase) : result (bytes * MessageBase) :=
  match m with
  | MConnect m => fmap_result MConnect (Connect.Encode m)
  | MConnAck m => fmap_result MConnAck (ConnAck.Encode m)
  | MPingReq m => fmap_result MPingReq (PingReq.Encode m)
  | MPingResp m => fmap_result MPingResp (PingResp.Encode m)
  | MDisconnect m => fmap_result MDisconnect (Disconnect.Encode m)
  | MSendReq m => fmap_result MSendReq (SendReq.Encode m)
  | MSendResp m => fmap_result MSendResp (SendResp.Encode m)
  end.

(** ** class MessageManager *)

(** The switch on the type and the call of Decode.  A type without a case leaves
    the pointer NULL, which the next statement dereferences. *)
Definition DecodeBody (header : FixHeader.t) : reading MessageBase :=
  match FixHeader._msgType header with
  | kMsgConnect => m ← Connect.Decode header; mret (MConnect m)
  | kMsgConnAck => m ← ConnAck.Decode header; mret (MConnAck m)
  | kMsgDisconnect => m ← Disconnect.Decode header; mret (MDisconnect m)
  | kMsgPingReq => m ← PingReq.Decode header; mret (MPingReq m)
  | kMsgPingResp => m ← PingResp.Decode header; mret (MPingResp m)
  | kMsgSendReq => m ← SendReq.Decode header; mret (MSendReq m)
  | kMsgSendResp => m ← SendResp.Decode header; mret (MSendResp m)
  | _ => Fin Undefined
  end.

Definition DecodeMessage : reading MessageBase :=
  header ← FixHeader.Decode;
  DecodeBody header.

(** EncodeMessage over a writer with the method [Write]. *)
Definition EncodeMessage {K} (Write : bytes → K → result unit * K)
    (message : MessageBase) (k : K) : result MessageBase * K :=
  match Encode message with
  | Ret (buf, m) =>
      match Write buf k with
      | (Ret _, k) => (Ret m, k)
      | (Throw e, k) => (Throw e, k)
      | (Undefined, k) => (Undefined, k)
      | (OutOfFuel, k) => (OutOfFuel, k)
      end
  | Throw e => (Throw e, k)
  | Undefined => (Undefined, k)
  | OutOfFuel => (OutOfFuel, k)
  end.

End manager.
