(* ===== verification/Protocol.v ===== *)
(** * Protocol: the wire format and its properties

    [packet] is the layout of a packet as a peer sees it: the type and the flags
    in one byte, the length of what follows, the body.  The lemmas say that the
    encoders of Message.v produce such packets and that the decoders read them;
    the theorems are the round trip, the limits that the encoders keep, and what
    decoding can do with bytes that no encoder produced. *)
From S2P Require Import Prelude TcpError Sockets TcpIO Gzip Encoding FixHeader Message.

Definition packet (ty : MessageType) (flags : Z) (body : bytes) : bytes :=
  byte_of (MessageType_val ty * 16 + flags) :: encodeLength (size body) [] ++ body.

Definition opt_bytes (m : option bytes) : bytes :=
  match m with Some b => b | None => [] end.

(** Sizes that the [int] casts of the encoders represent. *)
Definition payload_fits `{!Zlib, !ZlibSpec} (payload : bytes) : Prop :=
  size payload < 2 ^ 31 ∧ ∀ z, gzipped payload z → size z < 2 ^ 30.

(** The messages that the client's own decoder is meant to read back: the header
    has the type of the class, and the fields are in the range of their types.
    The protocol name and version are those of the client. *)
Definition readable `{!Zlib, !ZlibSpec} (m : MessageBase) : Prop :=
  match m with
  | MConnect m =>
      FixHeader._msgType (Connect._header m) = kMsgConnect ∧
      FixHeader._flags (Connect._header m) = 0 ∧
      Connect._protocolName m = kProtocolName ∧
      0 ≤ Connect._protocolVersion m ≤ kProtocolVersion ∧
      0 ≤ Connect._keepAlive m < 2 ^ 16 ∧ payload_fits (Connect._payload m)
  | MConnAck m =>
      FixHeader._msgType (ConnAck._header m) = kMsgConnAck ∧
      FixHeader._flags (ConnAck._header m) = 0 ∧
      ConnAck._returnCode m ≠ ConnAck.RetCodeInvalid
  | MPingReq m =>
      FixHeader._msgType (PingReq._header m) = kMsgPingReq ∧
      FixHeader._flags (PingReq._header m) = 0
  | MPingResp m =>
      FixHeader._msgType (PingResp._header m) = kMsgPingResp ∧
      FixHeader._flags (PingResp._header m) = 0
  | MDisconnect m =>
      FixHeader._msgType (Disconnect._header m) = kMsgDisconnect ∧
      FixHeader._flags (Disconnect._header m) = 0 ∧
      match Disconnect._type m with
      | Disconnect.DiscTypeOther v => 1 < v < 256
      | _ => True
      end
  | MSendReq m =>
      FixHeader._msgType (SendReq._header m) = kMsgSendReq ∧
      SendReq._hasData m = false ∧ SendReq._data m = [] ∧
      0 ≤ SendReq._messageId m < 2 ^ 16 ∧ payload_fits (SendReq._payload m)
  | MSendResp _ => False
  end.

(** ** Lemmas on headers *)

Lemma good_type_range ty :
  FixHeader.bad_type ty = false → 1 ≤ MessageType_val ty ≤ 7.
Proof. unfold FixHeader.bad_type. simpl. repeat case_test; simpl; try done; lia. Qed.

Lemma header_byte ty flags :
  FixHeader.bad_type ty = false → 0 ≤ flags →
  u8 ((MessageType_val ty .<< 4) .| (flags .& 15)) = MessageType_val ty * 16 + flags mod 16.
Proof.
  intros Hty%good_type_range Hf. change 15 with (2 ^ 4 - 1).
  rewrite land_ones_mod, Z.lor_comm by lia. change (2 ^ 4) with 16.
  pose proof (Z.mod_pos_bound flags 16).
  rewrite lor_shiftl_add by lia. change (2 ^ 4) with 16. rewrite u8_small; lia.
Qed.

Lemma WriteHeader_inv h buf m pl dl h' buf' :
  0 ≤ pl → 0 ≤ dl → 0 ≤ FixHeader._flags h →
  WriteHeader h buf m pl dl = Ret (h', buf') →
  let n := size (opt_bytes m) + pl + dl in
  n ≤ kMaxPayloadSize ∧ FixHeader.bad_type (FixHeader._msgType h) = false ∧
  h' = FixHeader.SetRemainLen h n ∧
  ∀ tail, size tail = pl + dl →
    buf' ++ tail = buf ++ packet (FixHeader._msgType h) (FixHeader._flags h mod 16)
                            (opt_bytes m ++ tail).
Proof.
  intros Hpl Hdl Hf E. unfold WriteHeader in E.
  assert (match m with Some m => size m | None => 0 end = size (opt_bytes m)) as Hm
    by (destruct m; done).
  rewrite Hm in E. cbv zeta in E.
  destruct (Z.ltb_spec kMaxPayloadSize (size (opt_bytes m) + pl + dl)) as [|Hn]; [done|].
  pose proof (size_nonneg (opt_bytes m)).
  rewrite u32_i32, u32_small in E by (change kMaxPayloadSize with (2 ^ 28 - 1) in Hn; lia).
  unfold FixHeader.Encode in E. cbn [FixHeader.SetRemainLen FixHeader._msgType] in E.
  destruct (FixHeader.bad_type _) eqn:Hty; [done|].
  injection E as <- <-. split_and!; try done. intros tail Htail.
  unfold setUint8, packet. simpl. rewrite encodeLength_app, header_byte by done.
  rewrite <-!app_assoc. norm_size. rewrite Htail, Z.add_assoc. by destruct m.
Qed.

(** A packet that is too long for the format is refused. *)
Lemma WriteHeader_too_long h buf m pl dl :
  kMaxPayloadSize < size (opt_bytes m) + pl + dl →
  WriteHeader h buf m pl dl = throw TcpExcMsgTooLong.
Proof.
  intros Hn. unfold WriteHeader.
  replace (match m with Some m => size m | None => 0 end) with (size (opt_bytes m))
    by (destruct m; done).
  destruct (Z.ltb_spec kMaxPayloadSize (size (opt_bytes m) + pl + dl)); [done|lia].
Qed.

Lemma flags_ok : ∀ f, 0 ≤ f < 16 →
  negb (f .>> 3 =? 0) || negb (f .& 1 =? 0) = negb (bool_decide (f ∈ [0; 2; 4; 6])).
Proof.
  intros f Hf. assert (f ∈ seqZ 0 16) as Hin by (apply elem_of_seqZ; lia).
  clear Hf. revert f Hin. apply Forall_forall. repeat constructor.
Qed.

(** The type and the flags that the decoder takes from the first byte. *)
Lemma header_byte_fields ty f :
  FixHeader.bad_type ty = false → 0 ≤ f < 16 →
  let b := byte_val (byte_of (MessageType_val ty * 16 + f)) in
  (b .& 240) .>> 4 = MessageType_val ty ∧ b .& 15 = f.
Proof.
  intros Hty Hf. pose proof (good_type_range ty Hty) as Ht. cbv zeta.
  rewrite byte_val_of, (Z.mod_small (_ + f)) by lia. split.
  - change 240 with (15 .<< 4). rewrite Z.shiftr_land, Z.shiftr_shiftl_l, Z.sub_diag,
      Z.shiftl_0_r, Z.shiftr_div_pow2 by lia. change 15 with (2 ^ 4 - 1).
    rewrite land_ones_mod, Z.div_add_l by lia. change (2 ^ 4) with 16.
    rewrite (Z.div_small f), Z.mod_small by lia. lia.
  - change 15 with (2 ^ 4 - 1). rewrite land_ones_mod by lia. change (2 ^ 4) with 16.
    rewrite Z.add_comm, Z_mod_plus_full. by apply Z.mod_small.
Qed.

Lemma even_flags_range f : f ∈ [0; 2; 4; 6] → 0 ≤ f < 16.
Proof.
  intros Hf. repeat (apply elem_of_cons in Hf as [->|Hf]; [lia|]). by apply elem_of_nil in Hf.
Qed.

Lemma run_decodeLength_malformed a b c d rest :
  Forall (λ b, (byte_val b .& 128 =? 0) = false) [a; b; c; d] →
  run stream_reader decodeLength (a :: b :: c :: d :: rest) = (Ret (2 ^ 32 - 1, -1), rest).
Proof.
  intros Hb. unfold decodeLength. cbn [decodeLength_loop].
  repeat (apply Forall_cons in Hb as [Hx Hb]; rewrite run_bind, run_ReadFull_cons;
          cbv zeta; cbn [hd]; rewrite Hx; clear Hx).
  done.
Qed.

Lemma run_header ty n f rest :
  FixHeader.bad_type ty = false → ty = MessageType_of (MessageType_val ty) →
  0 ≤ n < 2 ^ 28 → 0 ≤ f < 16 →
  run stream_reader FixHeader.Decode
    (byte_of (MessageType_val ty * 16 + f) :: encodeLength n [] ++ rest) =
  if bool_decide (f ∈ [0; 2; 4; 6]) then (Ret (FixHeader.mk ty n f), rest)
  else (throw TcpExcInvalidFlag, encodeLength n [] ++ rest).
Proof.
  intros Hty Hof Hn Hf. pose proof (good_type_range ty Hty) as Ht.
  unfold FixHeader.Decode. rewrite run_bind, run_ReadFull_cons. cbn [hd]. cbv zeta.
  destruct (header_byte_fields ty f Hty Hf) as [-> ->].
  rewrite <-Hof, Hty, flags_ok by done.
  destruct (bool_decide _); [|done]. cbn [negb].
  rewrite run_bind, run_decodeLength by done. rewrite run_Ret, i32_small, u32_small by lia.
  done.
Qed.

(** ** Lemmas on payloads *)
Section payloads.
Context `{!Zlib, !ZlibSpec}.

Lemma setPayload_inv p buf r :
  payload_fits p → setPayload p buf = Ret r →
  ∃ z, gzipped p z ∧ size z < 2 ^ 30 ∧ r = buf ++ block z.
Proof.
  intros [Hp Hz] E. unfold setPayload in E. cbn [kEnableGzip] in E.
  unfold setGzipString, gzipCompress in E.
  pose proof (size_nonneg p). rewrite u32_i32, u32_small, take_ge in E by (unfold size in *; lia).
  destruct (deflateInit2 p) as [s|] eqn:Es; [|done].
  assert (Hg : gzipped p (compressed s)) by by exists s.
  exists (compressed s). split_and!; [done|by apply Hz|].
  pose proof (deflate_bound _ _ Es) as Hb.
  rewrite <-(size_nil (A:=byte)), deflate_loop_all in E by (done || lia).
  injection E as <-. cbn [app]. unfold block.
  rewrite u32_small, encodeLength_app by (specialize (Hz _ Hg); lia). by rewrite <-app_assoc.
Qed.

Lemma run_getPayload r val z rest :
  gzipped val z → size val < 2 ^ 31 → size z < 2 ^ 28 → size (block z) ≤ r < 2 ^ 32 →
  run stream_reader (getPayload r) (block z ++ rest) = (Ret (val, r - size (block z)), rest).
Proof. apply run_getGzipString. Qed.

Lemma setUint16_app v buf : setUint16 v buf = buf ++ setUint16 v [].
Proof. done. Qed.

Lemma size_setUint16 v : size (setUint16 v []) = 2.
Proof. done. Qed.

Lemma size_block_bounds z : size z < 2 ^ 30 → size z + 1 ≤ size (block z) ≤ size z + 5.
Proof.
  intros Hz. unfold block. norm_size. pose proof (size_nonneg z).
  pose proof (size_encodeLength_any (size z)). lia.
Qed.

Lemma size_block_fits z : size z < 2 ^ 30 → i32 (size (block z)) = size (block z).
Proof.
  intros Hz. pose proof (size_block_bounds z Hz). pose proof (size_nonneg z).
  apply i32_small. lia.
Qed.

Lemma run_expectEnd K (rd : IReader K) s : run rd (expectEnd 0) s = (Ret (), s).
Proof. done. Qed.

End payloads.

(** ** Round trips, class by class *)
Section roundtrips.
Context `{!Zlib, !ZlibSpec}.

(** The decoder of a packet runs the header's decoder first. *)
Lemma run_packet ty f body rest :
  FixHeader.bad_type ty = false → ty = MessageType_of (MessageType_val ty) →
  size body ≤ kMaxPayloadSize → f ∈ [0; 2; 4; 6] →
  run stream_reader FixHeader.Decode (packet ty f body ++ rest) =
  (Ret (FixHeader.mk ty (size body) f), body ++ rest).
Proof.
  intros Hty Hof Hb Hf. unfold packet. rewrite <-app_comm_cons, <-app_assoc.
  change kMaxPayloadSize with (2 ^ 28 - 1) in Hb. pose proof (size_nonneg body).
  assert (0 ≤ f < 16) by (repeat (apply elem_of_cons in Hf as [->|Hf]; [lia|]);
                          by apply elem_of_nil in Hf).
  rewrite run_header by (done || lia). by rewrite bool_decide_eq_true_2.
Qed.

Lemma Connect_roundtrip m buf m' rest :
  readable (MConnect m) → Connect.Encode m = Ret (buf, m') →
  run stream_reader DecodeMessage (buf ++ rest) = (Ret (MConnect m'), rest).
Proof.
  intros (Hty & Hfl & Hname & Hver & Hka & Hfits) E. unfold Connect.Encode in E.
  destruct (setPayload _ _) as [pb| | |] eqn:Ep; try done.
  apply setPayload_inv in Ep as (z & Hg & Hz & ->); [|done].
  pose proof (size_nonneg z). cbn [mbind outcome_mbind outcome_bind app] in E.
  rewrite size_block_fits in E by lia.
  destruct (WriteHeader _ _ _ _ _) as [[h fb]| | |] eqn:Ew; try done.
  injection E as <- <-.
  apply WriteHeader_inv in Ew as (Hn & _ & -> & Hfb);
    [|by apply size_nonneg|done|by rewrite Hfl].
  rewrite Hfb by lia. rewrite Hty, Hfl, Hname in *. cbn [opt_bytes app] in *.
  rewrite setString_app in * by (by vm_compute). unfold setUint8 in *.
  rewrite setUint16_app in *. cbn [app] in *.
  set (fl := u8 (Z.b2z (Connect._enableGzip m) .<< 7)) in *.
  set (body := ((block kProtocolName ++ [byte_of (Connect._protocolVersion m)])
                ++ [byte_of fl]) ++ setUint16 (Connect._keepAlive m) []) in *.
  assert (Hfl2 : byte_val (byte_of fl) = fl ∧ (fl = 0 ∨ fl = 128)
                 ∧ (0 <? (fl .& 128)) = Connect._enableGzip m).
  { unfold fl. destruct (Connect._enableGzip m); vm_compute; auto. }
  assert (Hsz : size (body ++ block z) = size body + size (block z) + 0) by (norm_size; lia).
  unfold DecodeMessage. rewrite run_bind, run_packet by (done || lia || (by left)).
  unfold DecodeBody. cbn [FixHeader._msgType]. rewrite run_bind. unfold Connect.Decode.
  assert (Hb : size body = 10) by (unfold body; norm_size; by vm_compute).
  cbn [FixHeader._remainLen]. rewrite Hsz, Hb.
  pose proof (size_block_bounds z Hz). change kMaxPayloadSize with (2 ^ 28 - 1) in Hn.
  unfold body. rewrite <-!app_assoc.
  rewrite run_bind, run_getString by (change (size (block kProtocolName)) with 6; done || lia).
  change (size (block kProtocolName)) with 6.
  rewrite bool_decide_eq_false_2 by auto.
  cbn [app]. rewrite run_bind, run_getUint8 by lia.
  rewrite byte_val_of, Z.mod_small by (change kProtocolVersion with 1 in Hver; lia).
  destruct (Z.ltb_spec kProtocolVersion (Connect._protocolVersion m)); [lia|].
  rewrite run_bind, run_getUint8 by lia. destruct Hfl2 as (-> & Hfl01 & ->).
  assert (negb (fl =? 0) && negb (fl =? 128) = false) as -> by by destruct Hfl01 as [->| ->].
  rewrite run_bind, run_getUint16 by lia.
  destruct Hfits as [Hp _].
  rewrite run_bind, (run_getPayload _ (Connect._payload m)) by (done || lia).
  replace (10 + size (block z) + 0 - 6 - 1 - 1 - 2 - size (block z)) with 0 by lia.
  rewrite run_bind, run_expectEnd. destruct m, _header; simpl in *. by subst.
Qed.

(** Opens a packet built without a payload: names what is left to decode. *)
Ltac open_packet E Hty Hfl :=
  unfold fmap_result in E;
  destruct (WriteHeader _ _ _ _ _) as [[h fb]| | |] eqn:Ew; try done;
  injection E as <- <-;
  apply WriteHeader_inv in Ew as (Hn & _ & -> & Hfb); [|done|done|by rewrite Hfl];
  specialize (Hfb [] eq_refl); rewrite app_nil_r in Hfb; rewrite Hfb;
  rewrite Hty, Hfl in *; cbn [opt_bytes app setUint8] in *;
  unfold DecodeMessage; rewrite run_bind, run_packet by (done || (by left));
  unfold DecodeBody; cbn [FixHeader._msgType]; rewrite run_bind.

Lemma ConnAck_roundtrip m buf m' rest :
  readable (MConnAck m) → ConnAck.Encode m = Ret (buf, m') →
  run stream_reader DecodeMessage (buf ++ rest) = (Ret (MConnAck m'), rest).
Proof.
  intros (Hty & Hfl & Hc) E. unfold ConnAck.Encode in E. open_packet E Hty Hfl.
  unfold ConnAck.Decode. cbn [FixHeader._remainLen app].
  rewrite run_bind, run_getUint8 by done.
  assert (negb (byte_val (byte_of 0) =? 0) = false) as -> by done.
  rewrite run_bind, run_getUint8 by done.
  destruct m as [[ty n f] c]; simpl in *; subst. by destruct c.
Qed.

Lemma PingReq_roundtrip m buf m' rest :
  readable (MPingReq m) → PingReq.Encode m = Ret (buf, m') →
  run stream_reader DecodeMessage (buf ++ rest) = (Ret (MPingReq m'), rest).
Proof.
  intros (Hty & Hfl) E. unfold PingReq.Encode in E. open_packet E Hty Hfl.
  unfold FixHeader.SetRemainLen. by rewrite Hty, Hfl.
Qed.

Lemma PingResp_roundtrip m buf m' rest :
  readable (MPingResp m) → PingResp.Encode m = Ret (buf, m') →
  run stream_reader DecodeMessage (buf ++ rest) = (Ret (MPingResp m'), rest).
Proof.
  intros (Hty & Hfl) E. unfold PingResp.Encode in E. open_packet E Hty Hfl.
  unfold FixHeader.SetRemainLen. by rewrite Hty, Hfl.
Qed.

Lemma DisconnectType_of_val d :
  match d with Disconnect.DiscTypeOther v => 1 < v < 256 | _ => True end →
  Disconnect.DisconnectType_of (Disconnect.DisconnectType_val d) = d ∧
  0 ≤ Disconnect.DisconnectType_val d < 256.
Proof.
  intros Hd. destruct d as [| |v]; simpl; [done|done|]. split; [|lia].
  unfold Disconnect.DisconnectType_of. destruct v as [|[p|p|]|p]; try lia; done.
Qed.

Lemma Disconnect_roundtrip m buf m' rest :
  readable (MDisconnect m) → Disconnect.Encode m = Ret (buf, m') →
  run stream_reader DecodeMessage (buf ++ rest) = (Ret (MDisconnect m'), rest).
Proof.
  intros (Hty & Hfl & Hd) E. unfold Disconnect.Encode in E. open_packet E Hty Hfl.
  apply DisconnectType_of_val in Hd as [Hof Hrange].
  unfold Disconnect.Decode. cbn [FixHeader._remainLen app].
  rewrite run_bind, run_getUint8 by done.
  rewrite u8_small, byte_val_of, (Z.mod_small (Disconnect.DisconnectType_val _)), Hof by lia.
  rewrite run_bind, run_expectEnd, run_Ret. unfold FixHeader.SetRemainLen. by rewrite Hty, Hfl.
Qed.

Lemma SendReq_roundtrip m buf m' rest :
  readable (MSendReq m) → SendReq.Encode m = Ret (buf, m') →
  run stream_reader DecodeMessage (buf ++ rest) = (Ret (MSendReq m'), rest).
Proof.
  intros (Hty & Hhd & Hd & Hid & Hfits) E. unfold SendReq.Encode in E.
  destruct (setPayload _ _) as [pb| | |] eqn:Ep; try done.
  apply setPayload_inv in Ep as (z & Hg & Hz & ->); [|done].
  pose proof (size_block_bounds z Hz) as Hbz. pose proof (size_nonneg z).
  rewrite Hhd in E. cbn [mbind outcome_mbind outcome_bind mret outcome_mret app Z.b2z] in E.
  rewrite size_block_fits, Z.shiftl_0_l, Z.lor_0_r in E by lia.
  set (fl := u8 (SendReq.ReplyLevel_val (SendReq._replyLevel m) .<< 1)) in *.
  assert (Hfl : 0 ≤ fl ∧ fl mod 16 = fl ∧ fl ∈ [0; 2; 4; 6]
                ∧ SendReq.ReplyLevel_of ((fl .& 6) .>> 1) = SendReq._replyLevel m
                ∧ negb ((fl .& 8) .>> 3 =? 0) = false).
  { unfold fl. destruct (SendReq._replyLevel m); split_and!; try done;
      apply (bool_decide_unpack _); exact I. }
  destruct Hfl as (Hfl & Hmod & Hin & Hlevel & Hbit).
  destruct (WriteHeader _ _ _ _ _) as [[h fb]| | |] eqn:Ew; try done.
  injection E as <- <-. rewrite app_nil_r.
  apply WriteHeader_inv in Ew as (Hn & _ & -> & Hfb); [|by apply size_nonneg|done|done].
  rewrite Hfb by (change (i32 (size [])) with 0; lia).
  change (i32 (size [])) with 0 in *. cbn [opt_bytes FixHeader.SetFlags FixHeader._msgType
    FixHeader._flags app] in *.
  rewrite Hty, Hmod in *. clear Hfb.
  assert (Hts : size (SendReq._type m) < 2 ^ 28).
  { unfold setString in Hn. rewrite size_app in Hn. change kMaxPayloadSize with (2 ^ 28 - 1) in Hn.
    pose proof (size_nonneg (encodeLength (u32 (i32 (size (SendReq._type m))))
                   (setUint16 (SendReq._messageId m) []))). lia. }
  rewrite setString_app in * by done.
  set (body := setUint16 (SendReq._messageId m) [] ++ block (SendReq._type m)) in *.
  assert (Hsz : size (body ++ block z) = size body + size (block z) + 0) by (norm_size; lia).
  assert (Hb : size body = 2 + size (block (SendReq._type m))) by (unfold body; by norm_size).
  pose proof (size_block (SendReq._type m) Hts). pose proof (size_nonneg (SendReq._type m)).
  unfold DecodeMessage. rewrite run_bind, run_packet by (done || lia).
  unfold DecodeBody. cbn [FixHeader._msgType]. rewrite run_bind. unfold SendReq.Decode.
  cbn [FixHeader._remainLen FixHeader._flags]. rewrite Hsz, Hb, Hlevel, Hbit.
  change kMaxPayloadSize with (2 ^ 28 - 1) in Hn.
  unfold body. rewrite <-!app_assoc.
  rewrite run_bind, run_getUint16 by lia.
  rewrite run_bind, run_getString by lia.
  destruct Hfits as [Hp _].
  rewrite run_bind, (run_getPayload _ (SendReq._payload m)) by (done || lia).
  rewrite run_bind, run_Ret.
  replace (_ - 2 - size (block (SendReq._type m)) - size (block z)) with 0 by lia.
  rewrite run_bind, run_expectEnd, run_Ret. unfold FixHeader.SetRemainLen.
  clearbody fl. destruct m; simpl in *. subst. by rewrite Hty.
Qed.

End roundtrips.

(** ** Lemmas on decoding arbitrary bytes *)
Section safety.
Context `{!Zlib, !ZlibSpec}.

(** Neither undefined behaviour nor an endless loop. *)
Definition defined {A} (o : result A) : Prop :=
  match o with Undefined | OutOfFuel => False | _ => True end.

Lemma defined_bind {A B} (p : reading A) (f : A → reading B) :
  reading_wp defined p → (∀ a, reading_wp defined (f a)) → reading_wp defined (p ≫= f).
Proof.
  intros Hp Hf. apply reading_wp_bind. eapply reading_wp_impl; [exact Hp|].
  intros [a|e| |]; simpl; auto.
Qed.

(** Binding after a getter that leaves [packetRemaining] in range. *)
Definition remaining {A} (o : result (A * Z)) : Prop :=
  match o with Ret (_, r) => 0 ≤ r < 2 ^ 32 | Throw _ => True | _ => False end.

Lemma remaining_bind {A B} (p : reading (A * Z)) (f : A * Z → reading B) :
  reading_wp remaining p →
  (∀ a r, 0 ≤ r < 2 ^ 32 → reading_wp defined (f (a, r))) →
  reading_wp defined (p ≫= f).
Proof.
  intros Hp Hf. apply reading_wp_bind. eapply reading_wp_impl; [exact Hp|].
  intros [[a r]|e| |]; simpl; auto.
Qed.

Lemma getUint8_wp r : reading_wp remaining (getUint8 r).
Proof.
  unfold getUint8. destruct (r <? 1); [done|]. split; [done|].
  intros buf _. apply u32_range.
Qed.

Lemma getUint16_wp r :
  0 ≤ r < 2 ^ 32 →
  reading_wp (λ o, match o with Ret (_, r') => 0 ≤ r' ≤ 2 ^ 32 - 3 | Throw _ => True | _ => False end)
    (getUint16 r).
Proof.
  intros Hr. unfold getUint16. destruct (Z.ltb_spec r 2); [done|]. split; [done|].
  intros buf _. simpl. rewrite u32_small; lia.
Qed.

Lemma gunzipBlock_defined buf : defined (gunzipBlock buf).
Proof.
  unfold gunzipBlock. destruct (Z.ltb_spec 0 (size buf)) as [Hpos|]; [|done].
  destruct (gzipUncompress_total buf (size buf) [] Hpos) as [[[] out] ->]; done.
Qed.

Lemma getPayload_wp r :
  0 ≤ r < 2 ^ 32 → r ≠ 2 ^ 32 - 2 → reading_wp remaining (getPayload r).
Proof.
  intros Hr Hne. unfold getPayload, getGzipString. cbn [kEnableGzip].
  apply reading_wp_bind. eapply reading_wp_impl; [by apply getBlock_wp|].
  intros [[buf r']|e| |]; simpl; try done. intros [Hb Hr'].
  pose proof (gunzipBlock_defined buf). by destruct (gunzipBlock buf).
Qed.

Lemma expectEnd_wp r : reading_wp defined (expectEnd r).
Proof. unfold expectEnd. by destruct (negb _). Qed.

Lemma SendResp_defined h :
  0 ≤ FixHeader._remainLen h < 2 ^ 32 → reading_wp defined (SendResp.Decode h).
Proof.
  intros Hr. unfold SendResp.Decode. apply reading_wp_bind.
  eapply reading_wp_impl; [by apply getUint16_wp|].
  intros [[id r]|e| |] Hid; try done. cbv beta iota.
  apply remaining_bind; [apply getPayload_wp; lia|]. intros p r' _.
  apply defined_bind; [apply expectEnd_wp|done].
Qed.

Lemma ConnAck_defined h : reading_wp defined (ConnAck.Decode h).
Proof.
  unfold ConnAck.Decode. apply remaining_bind; [apply getUint8_wp|]. intros f r _.
  destruct (negb _); [done|]. apply remaining_bind; [apply getUint8_wp|]. intros c r' _.
  destruct (_ || _); [done|]. apply defined_bind; [apply expectEnd_wp|done].
Qed.

Lemma Disconnect_defined h : reading_wp defined (Disconnect.Decode h).
Proof.
  unfold Disconnect.Decode. apply remaining_bind; [apply getUint8_wp|]. intros v r _.
  apply defined_bind; [apply expectEnd_wp|done].
Qed.

Lemma MessageType_val_of v : MessageType_val (MessageType_of v) = v.
Proof. destruct v as [|v|v]; try done. do 4 (try destruct v as [v|v|]; try done). Qed.

(** A type read from a header that passes the test has a name. *)
Lemma unnamed_bad v :
  FixHeader.bad_type (kMsgUnnamed v) = false → MessageType_of v = kMsgUnnamed v → False.
Proof.
  intros Hr%good_type_range E. simpl in Hr.
  assert (v ∈ seqZ 1 7) as Hin by (apply elem_of_seqZ; lia). revert v Hin Hr E.
  apply (Forall_forall (λ v, _ → _ → False)). by repeat constructor.
Qed.

(** A decoded header has one of the seven types, a length of at most 28 bits or
    the mark of a malformed one, and even flags below 8. *)
Lemma FixHeader_Decode_wp :
  reading_wp (λ o, match o with
    | Ret h => FixHeader.bad_type (FixHeader._msgType h) = false ∧
               MessageType_of (MessageType_val (FixHeader._msgType h)) = FixHeader._msgType h ∧
               0 ≤ FixHeader._remainLen h < 2 ^ 32 ∧
               (FixHeader._remainLen h < 2 ^ 28 ∨ FixHeader._remainLen h = 2 ^ 32 - 1)
    | Throw _ => True
    | _ => False
    end) FixHeader.Decode.
Proof.
  split; [done|]. intros buf _. cbn [mbind reading_mbind reading_bind mret reading_mret].
  change (reading_bind ?f (Fin (Ret buf))) with (f buf). cbv beta zeta.
  destruct (FixHeader.bad_type _) eqn:Hty; [done|].
  destruct (_ || _); [done|].
  apply reading_wp_bind. eapply reading_wp_impl; [apply decodeLength_wp|].
  intros [[len ll]|e| |]; simpl; try done. rewrite Hty, u32_i32.
  rewrite MessageType_val_of.
  intros [[-> _]|[Hlen _]]; [split_and!; try done; by right|].
  rewrite u32_small by lia. split_and!; try done; lia.
Qed.

End safety.

(** ** Lemmas on the form of the packets written *)
Section written.
Context `{!Zlib, !ZlibSpec}.

(** Payload and data of a message are within the range of the [int] casts. *)
Definition fits (m : MessageBase) : Prop :=
  match m with
  | MConnect m => payload_fits (Connect._payload m)
  | MSendReq m => payload_fits (SendReq._payload m) ∧ payload_fits (SendReq._data m)
  | MSendResp m => payload_fits (SendResp._payload m)
  | _ => True
  end.

(** The bytes are one packet, and the header of the object describes it. *)
Definition is_packet (buf : bytes) (h : FixHeader.t) : Prop :=
  ∃ body, buf = packet (FixHeader._msgType h) (FixHeader._flags h) body ∧
          FixHeader._remainLen h = size body ∧ size body ≤ kMaxPayloadSize ∧
          FixHeader.bad_type (FixHeader._msgType h) = false.

Lemma WriteHeader_packet h m pl dl h' fb tail :
  0 ≤ FixHeader._flags h < 16 → 0 ≤ pl → 0 ≤ dl → size tail = pl + dl →
  WriteHeader h [] m pl dl = Ret (h', fb) →
  is_packet (fb ++ tail) h'.
Proof.
  intros Hf Hpl Hdl Ht E. apply WriteHeader_inv in E as (Hn & Hbad & -> & Hfb); try done; [|lia].
  exists (opt_bytes m ++ tail). rewrite Hfb by done. simpl.
  rewrite Z.mod_small, size_app by lia. split_and!; try done; lia.
Qed.

Lemma WriteHeader_packet_nil h m h' fb :
  0 ≤ FixHeader._flags h < 16 → WriteHeader h [] m 0 0 = Ret (h', fb) → is_packet fb h'.
Proof.
  intros Hf E. rewrite <-(app_nil_r fb). by eapply WriteHeader_packet; [..|exact E].
Qed.

Lemma setGzipData_fits data r :
  payload_fits data → setGzipData data [] = Ret r → i32 (size r) = size r.
Proof.
  intros Hfits E. unfold setGzipData in E. destruct (_ =? 0); [by injection E as <-|].
  apply (setPayload_inv _ []) in E as (z & _ & Hz & ->); [|done]. by apply size_block_fits.
Qed.

Lemma Connect_packet m buf m' :
  payload_fits (Connect._payload m) → 0 ≤ FixHeader._flags (Connect._header m) < 16 →
  Connect.Encode m = Ret (buf, m') → is_packet buf (Connect._header m').
Proof.
  intros Hfits Hf E. unfold Connect.Encode in E.
  destruct (setPayload _ _) as [pb| | |] eqn:Ep; try done.
  apply setPayload_inv in Ep as (z & _ & Hz & ->); [|done].
  cbn [mbind outcome_mbind outcome_bind app] in E. rewrite size_block_fits in E by done.
  destruct (WriteHeader _ _ _ _ _) as [[h fb]| | |] eqn:Ew; try done.
  injection E as <- <-. pose proof (size_nonneg (block z)).
  eapply WriteHeader_packet; [..|exact Ew]; lia || done.
Qed.

Lemma SendReq_packet m buf m' :
  payload_fits (SendReq._payload m) → payload_fits (SendReq._data m) →
  SendReq.Encode m = Ret (buf, m') → is_packet buf (SendReq._header m').
Proof.
  intros Hfits Hdata E. unfold SendReq.Encode in E.
  destruct (setPayload _ _) as [pb| | |] eqn:Ep; try done.
  apply setPayload_inv in Ep as (z & _ & Hz & ->); [|done].
  cbn [mbind outcome_mbind outcome_bind app] in E.
  destruct (if SendReq._hasData m then _ else _) as [db| | |] eqn:Ed; try done.
  assert (i32 (size db) = size db) as Hdb.
  { destruct (SendReq._hasData m); [by eapply setGzipData_fits|by injection Ed as <-]. }
  cbn [mbind outcome_mbind outcome_bind] in E. rewrite size_block_fits, Hdb in E by done.
  destruct (WriteHeader _ _ _ _ _) as [[h fb]| | |] eqn:Ew; try done.
  injection E as <- <-. rewrite <-app_assoc.
  pose proof (size_nonneg (block z)). pose proof (size_nonneg db).
  eapply WriteHeader_packet; [..|exact Ew]; [|lia|lia|apply size_app].
  simpl. by destruct (SendReq._replyLevel m), (SendReq._hasData m).
Qed.

Lemma SendResp_written m buf m' :
  payload_fits (SendResp._payload m) → SendResp.Encode m = Ret (buf, m') →
  ∃ z, gzipped (SendResp._payload m) z ∧ buf = block z ∧ size z < 2 ^ 28.
Proof.
  intros Hfits E. unfold SendResp.Encode in E.
  destruct (setPayload _ _) as [pb| | |] eqn:Ep; try done.
  apply setPayload_inv in Ep as (z & Hg & Hz & ->); [|done].
  cbn [mbind outcome_mbind outcome_bind app] in E. rewrite size_block_fits in E by done.
  destruct (WriteHeader _ _ _ _ _) as [[h fb]| | |] eqn:Ew; try done.
  injection E as <- <-. exists z. split_and!; try done.
  pose proof (size_block_bounds z Hz). unfold WriteHeader in Ew.
  destruct (Z.ltb_spec kMaxPayloadSize (size (setUint16 (SendResp._messageId m) [])
    + size (block z) + 0)) as [|Hn]; [done|].
  change kMaxPayloadSize with (2 ^ 28 - 1) in Hn. rewrite size_setUint16 in Hn. lia.
Qed.

End written.

(** A malformed length with a wrapped remainder passes the test of the code. *)
Lemma run_getBlock_malformed rest :
  run stream_reader (getBlock (2 ^ 32 - 2)) (map byte_of [128; 128; 128; 128] ++ rest) =
  (Undefined, rest).
Proof.
  unfold getBlock, decodeLength. rewrite run_bind. cbn [decodeLength_loop map app].
  do 4 (rewrite run_bind, run_ReadFull_cons; cbv zeta; cbn [hd]; rewrite byte_val_of;
        change ((128 mod 256 .& 128) =? 0) with false; cbv iota).
  done.
Qed.

(** One byte of block in an exhausted packet: the remainder wraps. *)
Lemma run_getBlock_wrap c rest :
  run stream_reader (getBlock 0) (byte_of 1 :: c :: rest) = (Ret ([c], 2 ^ 32 - 2), rest).
Proof.
  unfold getBlock. change (byte_of 1 :: c :: rest) with (encodeLength 1 [] ++ c :: rest).
  rewrite run_bind, run_decodeLength by lia. cbv beta iota zeta.
  change (0 -u32 size (encodeLength 1 [])) with (2 ^ 32 - 1).
  change (i32 1) with 1. change (2 ^ 32 - 1 <? u32 1) with false. change (1 <? 0) with false.
  cbv iota. by rewrite run_bind, run_ReadFull_cons, run_Ret.
Qed.

(** ** Properties *)
Section properties.
Context `{!Zlib, !ZlibSpec}.

(** C24: round trip.  What the client writes for a message of a class it can read
    (Connect with its own protocol name, ConnAck, PingReq, PingResp, Disconnect,
    SendReq without binary data) is decoded by DecodeMessage to the same object,
    header included, and exactly its bytes are consumed. *)
Theorem DecodeMessage_Encode m buf m' rest :
  readable m → Encode m = Ret (buf, m') →
  run stream_reader DecodeMessage (buf ++ rest) = (Ret m', rest).
Proof.
  intros Hm E. destruct m as [m|m|m|m|m|m|m]; [..|done]; simpl in E;
    unfold fmap_result in E;
    match type of E with (?e ≫= _) = _ => destruct e as [[b m0]| | |] eqn:Em end;
    try done; injection E as <- <-;
    eauto using Connect_roundtrip, ConnAck_roundtrip, PingReq_roundtrip,
      PingResp_roundtrip, Disconnect_roundtrip, SendReq_roundtrip.
Qed.

(** A SendReq with binary data, which the client does send, is never read
    back: FixHeader::Decode refuses the flag 8 that SendReq::Encode sets, so the
    branch of SendReq::Decode that reads the data is unreachable. *)
Theorem SendReq_with_data_refused m buf m' rest :
  FixHeader._msgType (SendReq._header m) = kMsgSendReq →
  SendReq._hasData m = true →
  payload_fits (SendReq._payload m) → payload_fits (SendReq._data m) →
  SendReq.Encode m = Ret (buf, m') →
  fst (run stream_reader DecodeMessage (buf ++ rest)) = throw TcpExcInvalidFlag.
Proof.
  intros Hty Hhd Hfits Hdata E. unfold SendReq.Encode in E. rewrite Hhd in E.
  destruct (setPayload _ _) as [pb| | |] eqn:Ep; try done.
  apply setPayload_inv in Ep as (z & _ & Hz & ->); [|done].
  cbn [mbind outcome_mbind outcome_bind app] in E.
  destruct (if kEnableGzip then _ else _) as [db| | |] eqn:Ed; try done.
  assert (Hdb : i32 (size db) = size db).
  { unfold setGzipData in Ed. cbn [kEnableGzip] in Ed.
    destruct (size (SendReq._data m) =? 0); [by injection Ed as <-|].
    apply (setPayload_inv _ []) in Ed as (zd & _ & Hzd & ->); [|done].
    by apply size_block_fits. }
  cbn [mbind outcome_mbind outcome_bind] in E.
  destruct (WriteHeader _ _ _ _ _) as [[h fb]| | |] eqn:Ew; try done.
  injection E as <- <-. rewrite size_block_fits, Hdb in Ew by done.
  set (fl := u8 _) in *.
  assert (0 ≤ fl ∧ fl mod 16 = fl ∧ fl < 16 ∧ bool_decide (fl ∈ [0; 2; 4; 6]) = false)
    as (Hfl & Hmod & Hlt & Hin) by (unfold fl; by destruct (SendReq._replyLevel m)).
  apply WriteHeader_inv in Ew as (Hn & Hbad & -> & Hfb); [|apply size_nonneg..|done].
  rewrite <-(app_assoc fb), Hfb by apply size_app.
  cbn [FixHeader.SetFlags FixHeader._msgType FixHeader._flags app] in *.
  rewrite Hty, Hmod. unfold packet. rewrite <-app_comm_cons, <-app_assoc.
  unfold DecodeMessage. rewrite run_bind, run_header; try done; [by rewrite Hin|].
  rewrite !size_app. change kMaxPayloadSize with (2 ^ 28 - 1) in Hn.
  pose proof (size_nonneg (block z)). pose proof (size_nonneg db).
  pose proof (size_nonneg (opt_bytes (Some (setString (SendReq._type m)
    (setUint16 (SendReq._messageId m) []))))). lia.
Qed.

(** C25: refinement of the wire format.  Every class but SendResp hands one packet
    to the writer: type and flags, the length of the rest in the variable-length
    form, the rest, whose length is at most kMaxPayloadSize and is the one the
    object's header records afterwards; the type is one of the seven. *)
Theorem Encode_packet m buf m' :
  (∀ r, m ≠ MSendResp r) → fits m → 0 ≤ FixHeader._flags (GetHeader m) < 16 →
  Encode m = Ret (buf, m') → is_packet buf (GetHeader m').
Proof.
  intros Hne Hfits Hf E. destruct m as [m|m|m|m|m|m|m]; simpl in E, Hfits, Hf;
    unfold fmap_result in E;
    match type of E with (?e ≫= _) = _ => destruct e as [[b m0]| | |] eqn:Em end;
    try done; injection E as <- <-; simpl.
  - eapply Connect_packet; eauto.
  - unfold ConnAck.Encode in Em. destruct (WriteHeader _ _ _ _ _) as [[h fb]| | |] eqn:Ew; try done.
    injection Em as <- <-. by eapply WriteHeader_packet_nil.
  - unfold PingReq.Encode in Em. destruct (WriteHeader _ _ _ _ _) as [[h fb]| | |] eqn:Ew; try done.
    injection Em as <- <-. by eapply WriteHeader_packet_nil.
  - unfold PingResp.Encode in Em. destruct (WriteHeader _ _ _ _ _) as [[h fb]| | |] eqn:Ew; try done.
    injection Em as <- <-. by eapply WriteHeader_packet_nil.
  - unfold Disconnect.Encode in Em. destruct (WriteHeader _ _ _ _ _) as [[h fb]| | |] eqn:Ew; try done.
    injection Em as <- <-. by eapply WriteHeader_packet_nil.
  - destruct Hfits. eapply SendReq_packet; eauto.
  - by destruct (Hne m).
Qed.

(** SendResp::Encode writes only the compressed payload and its length: the
    header, with the type of the packet, its length and the message id, is built
    and then not written. *)
Theorem SendResp_Encode_headless m buf m' :
  payload_fits (SendResp._payload m) → SendResp.Encode m = Ret (buf, m') →
  ∃ z, gzipped (SendResp._payload m) z ∧ buf = block z ∧
       run stream_reader (getPayload (size buf)) buf = (Ret (SendResp._payload m, 0), []).
Proof.
  intros Hfits E. destruct (SendResp_written m buf m' Hfits E) as (z & Hg & -> & Hz).
  exists z. split_and!; try done. rewrite <-(app_nil_r (block z)) at 2. destruct Hfits as [Hp _].
  pose proof (size_block z Hz). rewrite (run_getPayload _ (SendResp._payload m)) by (done || lia).
  by rewrite Z.sub_diag.
Qed.

(** A ConnAck made with its own constructor is written with the type of a
    Connect, and DecodeMessage then refuses it, whatever the return code. *)
Theorem ConnAck_constructor_mistyped n c buf m' rest :
  ConnAck.Encode (ConnAck.new n c) = Ret (buf, m') →
  fst (run stream_reader DecodeMessage (buf ++ rest)) = throw TcpExcInvalidProName.
Proof.
  intros E. assert (∃ v, buf = packet kMsgConnect 0 (block [] ++ [v])) as [v ->].
  { unfold ConnAck.Encode in E. destruct c; injection E as <- <-; by eexists. }
  unfold DecodeMessage. rewrite run_bind, run_packet by (done || by left).
  unfold DecodeBody. cbn [FixHeader._msgType]. rewrite run_bind. unfold Connect.Decode.
  rewrite <-app_assoc, run_bind, run_getString by done. done.
Qed.

(** C33: decoding is safe against any bytes, split in any way, for a packet of type
    ConnAck, PingReq, PingResp, Disconnect or SendResp: it returns a message or
    throws, with no array of negative size, no null message and no endless loop. *)
Theorem DecodeMessage_defined {K} (rd : IReader K) s :
  fills rd →
  (∀ h s', run rd FixHeader.Decode s = (Ret h, s') →
     FixHeader._msgType h ≠ kMsgConnect ∧ FixHeader._msgType h ≠ kMsgSendReq) →
  defined (fst (run rd DecodeMessage s)).
Proof.
  intros Hrd Hty. unfold DecodeMessage. rewrite run_bind.
  pose proof (reading_wp_run rd _ _ s Hrd (λ e, I) FixHeader_Decode_wp) as Hh.
  destruct (run rd FixHeader.Decode s) as [[h|e| |] s'] eqn:Eh; try done.
  destruct Hh as (Hbad & Hof & Hr & _). destruct (Hty h s' eq_refl) as [Hc Hs].
  apply reading_wp_run; [done|done|]. unfold DecodeBody.
  destruct (FixHeader._msgType h) as [| | | | | | | | |v] eqn:Et; try done;
    [..|exfalso; by apply (unnamed_bad v)];
    apply defined_bind; try done; auto using ConnAck_defined, Disconnect_defined, SendResp_defined;
    (apply defined_bind; [apply expectEnd_wp|done]).
Qed.

(** C34: a SendReq or Connect packet has no such protection.  In these ten bytes the
    length of the type field takes [packetRemaining] below zero, which wraps to
    2^32 - 2; the malformed length that follows then passes the check and the
    array [char buf[-1]] is declared. *)
Theorem SendReq_Decode_undefined a b c rest :
  run stream_reader DecodeMessage
    (map byte_of [96; 2] ++ [a; b] ++ map byte_of [1] ++ [c]
     ++ map byte_of [128; 128; 128; 128] ++ rest) = (Undefined, rest).
Proof.
  unfold DecodeMessage. rewrite run_bind.
  change (map byte_of [96; 2] ++ [a; b] ++ map byte_of [1] ++ [c]
    ++ map byte_of [128; 128; 128; 128] ++ rest)
    with (byte_of (MessageType_val kMsgSendReq * 16 + 0) :: encodeLength 2 []
          ++ [a; b] ++ [byte_of 1; c] ++ map byte_of [128; 128; 128; 128] ++ rest).
  rewrite run_header by (done || lia). cbn [bool_decide decide_rel].
  change (bool_decide (0 ∈ [0; 2; 4; 6])) with true. cbv iota.
  unfold DecodeBody. cbn [FixHeader._msgType]. rewrite run_bind.
  unfold SendReq.Decode. cbn [FixHeader._remainLen]. unfold getUint16.
  change (2 <? 2) with false. cbv iota.
  rewrite run_bind, run_bind, run_ReadFull_app by done. rewrite run_Ret.
  change (2 -u32 2) with 0. rewrite run_bind. unfold getString. cbn [app].
  rewrite run_getBlock_wrap, run_bind. unfold getPayload, getGzipString. cbn [kEnableGzip].
  by rewrite run_bind, run_getBlock_malformed.
Qed.

(** C35: round trip of the variable-length integer: every length below 2^28 takes
    one to four bytes, is read back, and the count of bytes that decodeLength
    reports is the one that was written; the encoding of one length is never a
    prefix of that of another. *)
Theorem encodeLength_roundtrip n rest :
  0 ≤ n < 2 ^ 28 →
  run stream_reader decodeLength (encodeLength n [] ++ rest) =
    (Ret (n, size (encodeLength n [])), rest) ∧
  1 ≤ size (encodeLength n []) ≤ 4 ∧
  ∀ n' rest', 0 ≤ n' < 2 ^ 28 →
    encodeLength n [] ++ rest = encodeLength n' [] ++ rest' → n = n' ∧ rest = rest'.
Proof.
  intros Hn. split; [by apply run_decodeLength|]. split; [by apply size_encodeLength|].
  intros n' rest' Hn' E%(f_equal (run stream_reader decodeLength)).
  rewrite !run_decodeLength in E by done. by injection E.
Qed.

(** A length that is longer than four bytes is not refused: the header is
    decoded with the remaining length 2^32 - 1, the four bytes are consumed and no
    exception of type TcpExcBadLenEncoding is thrown. *)
Theorem FixHeader_Decode_malformed ty f a b c d rest :
  FixHeader.bad_type ty = false → ty = MessageType_of (MessageType_val ty) →
  f ∈ [0; 2; 4; 6] →
  Forall (λ b, (byte_val b .& 128 =? 0) = false) [a; b; c; d] →
  run stream_reader FixHeader.Decode
    (byte_of (MessageType_val ty * 16 + f) :: a :: b :: c :: d :: rest) =
  (Ret (FixHeader.mk ty (2 ^ 32 - 1) f), rest).
Proof.
  intros Hty Hof Hf Hb. unfold FixHeader.Decode. rewrite run_bind, run_ReadFull_cons.
  cbn [hd]. cbv zeta.
  destruct (header_byte_fields ty f Hty (even_flags_range f Hf)) as [-> ->].
  rewrite <-Hof, Hty, flags_ok, bool_decide_eq_true_2 by (done || by apply even_flags_range).
  cbn [negb]. rewrite run_bind, run_decodeLength_malformed by done. done.
Qed.

(** Round trip of the compression: what gzipCompress makes of any text shorter
    than 2^31 bytes, gzipUncompress restores, whatever the size of zlib's chunks. *)
Theorem gzip_roundtrip src z :
  gzipped src z → size src < 2 ^ 31 → size z < 2 ^ 31 →
  gzipCompress src (i32 (size src)) [] = Ret (true, z) ∧
  gzipUncompress z (size z) [] = Ret (true, src).
Proof. intros. split; [by apply gzipCompress_spec|by apply gzipUncompress_spec]. Qed.

End properties.

(** ** Witnesses

    The properties at concrete messages, with the zlib of [Stored]. *)

#[local] Existing Instance Stored.zlib.
#[local] Existing Instance Stored.spec.

Lemma stored_fits p : size p < 2 ^ 28 → payload_fits p.
Proof.
  intros Hp. split; [lia|]. intros z (s & [= <-] & ->). simpl.
  rewrite Stored.size_enc. lia.
Qed.

Definition example_SendReq (data : bool) : SendReq.t :=
  SendReq.mk (newHeader kMsgSendReq 0) SendReq.RLevelReplyNow data 513 (str "login")
    (str "{}") (if data then str "xyz" else []).

Lemma DecodeMessage_Encode_witness :
  ∃ buf m', run stream_reader DecodeMessage (buf ++ str "rest") = (Ret (MSendReq m'), str "rest").
Proof.
  eexists _, _. apply (DecodeMessage_Encode (MSendReq (example_SendReq false))).
  - split_and!; try done. by apply stored_fits.
  - vm_compute. reflexivity.
Defined.

Lemma SendReq_with_data_refused_witness :
  ∃ buf, fst (run stream_reader DecodeMessage (buf ++ [])) = throw TcpExcInvalidFlag.
Proof.
  eexists. eapply (SendReq_with_data_refused (example_SendReq true));
    [done|done|by apply stored_fits|by apply stored_fits|]. vm_compute. reflexivity.
Defined.

Lemma Encode_packet_witness :
  ∃ buf m', is_packet buf (GetHeader m').
Proof.
  eexists _, _. apply (Encode_packet (MSendReq (example_SendReq true)));
    [done|split; by apply stored_fits|done|]. vm_compute. reflexivity.
Defined.

Lemma SendResp_Encode_headless_witness :
  ∃ buf z, gzipped (str "ok") z ∧ buf = block z ∧
           run stream_reader (getPayload (size buf)) buf = (Ret (str "ok", 0), []).
Proof.
  eexists. eapply (SendResp_Encode_headless (SendResp.new 0 7 (str "ok")));
    [by apply stored_fits|]. vm_compute. reflexivity.
Defined.

Lemma ConnAck_constructor_mistyped_witness :
  ∃ buf, fst (run stream_reader DecodeMessage (buf ++ [])) = throw TcpExcInvalidProName.
Proof.
  eexists. eapply (ConnAck_constructor_mistyped 0 ConnAck.RetCodeAccepted).
  vm_compute. reflexivity.
Defined.

Lemma DecodeMessage_defined_witness :
  defined (fst (run stream_reader DecodeMessage (map byte_of [32; 2; 0]))).
Proof.
  apply (DecodeMessage_defined stream_reader); [apply stream_reader_fills|].
  intros h s'. vm_compute. by intros [= <- _].
Defined.

Lemma encodeLength_roundtrip_witness :
  run stream_reader decodeLength (encodeLength 321 [] ++ []) = (Ret (321, 2), []).
Proof. apply (encodeLength_roundtrip 321 []). lia. Defined.

Lemma FixHeader_Decode_malformed_witness :
  run stream_reader FixHeader.Decode (map byte_of [112; 255; 255; 255; 255; 1]) =
  (Ret (FixHeader.mk kMsgSendResp (2 ^ 32 - 1) 0), [Byte.x01]).
Proof.
  apply (FixHeader_Decode_malformed kMsgSendResp 0 Byte.xff Byte.xff Byte.xff Byte.xff [Byte.x01]);
    [done|done|by left|by repeat constructor].
Defined.

Lemma gzip_roundtrip_witness :
  gzipCompress (str "ab") 2 [] = Ret (true, Stored.enc (str "ab")) ∧
  gzipUncompress (Stored.enc (str "ab")) 5 [] = Ret (true, str "ab").
Proof. apply (gzip_roundtrip (str "ab") (Stored.enc (str "ab"))); [by eexists|done|done]. Defined.
