(* ===== verification/SocketBreaker.v ===== *)
(** * SocketBreaker: the signal that wakes a thread blocked in select
    (src/socket/socket_breaker.hpp, .cpp)

    A breaker is a pipe whose reading end is among the descriptors that select
    watches.  The system calls are the class [PipeKernel]; what a pipe in
    non-blocking mode does is [PipeLaws].  The specification is a boolean flag:
    [Break] raises it, [Clear] lowers it and says whether it was raised, and the
    reading end is readable exactly while it is raised. *)
From S2P Require Import Prelude.

Class PipeKernel (K : Type) := {
  pipe : K → option (Z * Z) * K;               (* None: the return value is not 0 *)
  fcntl_getfl : Z → K → Z * K;
  fcntl_setfl : Z → Z → K → Z * K;
  pipe_write : Z → bytes → K → Z * K;          (* the return value of write(2) *)
  pipe_read : Z → Z → K → Z * K;               (* the return value of read(2) *)
  pipe_close : Z → K → K;
}.

Definition O_NONBLOCK : Z := 2048.

(** [created r w nr nw k]: [r] and [w] are the ends of an empty pipe, in
    non-blocking mode as [nr] and [nw] say.  [level r w k] is the number of bytes
    in the pipe when both ends are open and in non-blocking mode. *)
Class PipeLaws (K : Type) `{!PipeKernel K} := {
  created : Z → Z → bool → bool → K → Prop;
  level : Z → Z → K → option Z;
  pipe_created k r w k' :
    pipe k = (Some (r, w), k') → 0 ≤ r ∧ 0 ≤ w ∧ created r w false false k';
  getfl_created r w a b fd f k k' :
    created r w a b k → fcntl_getfl fd k = (f, k') → created r w a b k';
  setfl_created_r r w a b f ret k k' :
    created r w a b k → fcntl_setfl r (f .| O_NONBLOCK) k = (ret, k') → ret ≠ -1 →
    created r w true b k';
  setfl_created_w r w a b f ret k k' :
    created r w a b k → fcntl_setfl w (f .| O_NONBLOCK) k = (ret, k') → ret ≠ -1 →
    created r w a true k';
  created_level r w k : created r w true true k → level r w k = Some 0;
  write_byte r w n c k :
    level r w k = Some n →
    ∃ ret k', pipe_write w [c] k = (ret, k') ∧
      (ret = 1 ∧ level r w k' = Some (n + 1) ∨
       ret ≠ 1 ∧ 0 < n ∧ level r w k' = Some n);     (* the pipe is full *)
  read_bytes r w n len k :
    level r w k = Some n → 0 < len →
    ∃ ret k', pipe_read r len k = (ret, k') ∧
      (n = 0 ∧ ret < 0 ∧ level r w k' = Some 0 ∨     (* EAGAIN *)
       0 < n ∧ ret = Z.min n len ∧ level r w k' = Some (n - ret));
}.

Module SocketBreaker.

Record t : Set := mk { _pipe0 : Z; _pipe1 : Z; _broken : bool }.

Section ops.
Context {K : Type} `{!PipeKernel K}.

Definition set_pipes (b : t) (p0 p1 : Z) : t := mk p0 p1 (_broken b).

(** The descriptors stay in the fields. *)
Definition Close (b : t) (k : K) : K :=
  let k := if negb (_pipe0 b =? -1) then pipe_close (_pipe0 b) k else k in
  if negb (_pipe1 b =? -1) then pipe_close (_pipe1 b) k else k.

Definition ReCreate (b : t) (k : K) : bool * t * K :=
  match pipe k with
  | (None, k) => (false, set_pipes b (-1) (-1), k)
  | (Some (p0, p1), k) =>
      let b := set_pipes b p0 p1 in
      let '(flags0, k) := fcntl_getfl p0 k in
      let '(flags1, k) := fcntl_getfl p1 k in
      if (flags0 <? 0) || (flags1 <? 0) then (false, b, Close b k)
      else
        let '(ret0, k) := fcntl_setfl p0 (flags0 .| O_NONBLOCK) k in
        let '(ret1, k) := fcntl_setfl p1 (flags1 .| O_NONBLOCK) k in
        if (ret0 =? -1) || (ret1 =? -1) then (false, b, Close b k)
        else (true, b, k)
  end.

(** The constructor ([_broken = false] is the initialiser of the field). *)
Definition new (k : K) : t * K :=
  let '(_, b, k) := ReCreate (mk (-1) (-1) false) k in (b, k).

Definition Break (b : t) (k : K) : bool * t * K :=
  if _broken b then (true, b, k)
  else
    let dummy := str "1" in
    let '(ret, k) := pipe_write (_pipe1 b) dummy k in
    if negb (ret =? size dummy) then (false, b, k)
    else (true, mk (_pipe0 b) (_pipe1 b) true, k).

Definition Clear (b : t) (k : K) : bool * t * K :=
  let '(ret, k) := pipe_read (_pipe0 b) 128 k in
  if ret <? 0 then (false, b, k)
  else (true, mk (_pipe0 b) (_pipe1 b) false, k).

Definition BreakerFd (b : t) : Z := _pipe0 b.
Definition IsBreak (b : t) : bool := _broken b.

End ops.

(** ** The specification: a flag *)

Inductive op : Set := OpBreak | OpClear.

Definition step {K} `{!PipeKernel K} (o : op) (b : t) (k : K) : bool * t * K :=
  match o with OpBreak => Break b k | OpClear => Clear b k end.

Fixpoint steps {K} `{!PipeKernel K} (os : list op) (b : t) (k : K) : list bool * t * K :=
  match os with
  | [] => ([], b, k)
  | o :: os =>
      let '(r, b, k) := step o b k in
      let '(rs, b, k) := steps os b k in (r :: rs, b, k)
  end.

Definition flag_step (o : op) (raised : bool) : bool * bool :=
  match o with OpBreak => (true, true) | OpClear => (raised, false) end.

Fixpoint flag_steps (os : list op) (raised : bool) : list bool * bool :=
  match os with
  | [] => ([], raised)
  | o :: os =>
      let '(r, raised) := flag_step o raised in
      let '(rs, raised) := flag_steps os raised in (r :: rs, raised)
  end.

Section spec.
Context {K : Type} `{!PipeKernel K, !PipeLaws K}.

(** The pipe is open, and holds one byte while the flag is raised, else none. *)
Definition ready (b : t) (k : K) : Prop :=
  level (_pipe0 b) (_pipe1 b) k = Some (Z.b2z (_broken b)).

Lemma Break_ready b k :
  ready b k → ∃ b' k', Break b k = (true, b', k') ∧ ready b' k' ∧ _broken b' = true.
Proof.
  unfold ready, Break. destruct (_broken b) eqn:E; intros Hr.
  - exists b, k. by rewrite E.
  - destruct (write_byte _ _ _ Byte.x31 _ Hr) as (ret & k' & Ew & H).
    change (str "1") with [Byte.x31]. rewrite Ew.
    destruct H as [[-> Hl]|(_ & Hn & _)]; [|done]. by eexists _, _.
Qed.

Lemma Clear_ready b k :
  ready b k → ∃ b' k', Clear b k = (_broken b, b', k') ∧ ready b' k' ∧ _broken b' = false.
Proof.
  unfold ready, Clear. intros Hr.
  destruct (read_bytes _ _ _ 128 _ Hr) as (ret & k' & -> & H); [done|].
  destruct (_broken b) eqn:E; simpl in H.
  - destruct H as [[? _]|(_ & -> & Hl)]; [done|]. by eexists _, _.
  - destruct H as [(_ & Hret & Hl)|[? _]]; [|done].
    case_test; [|lia]. exists b, k'. by rewrite E.
Qed.

Lemma steps_ready os : ∀ b k,
  ready b k →
  ∃ b' k', steps os b k = (fst (flag_steps os (_broken b)), b', k') ∧ ready b' k' ∧
           _broken b' = snd (flag_steps os (_broken b)).
Proof.
  induction os as [|[] os IH]; intros b k Hr; simpl.
  - by exists b, k.
  - destruct (Break_ready b k Hr) as (b1 & k1 & -> & Hr1 & E).
    destruct (IH b1 k1 Hr1) as (b' & k' & -> & Hr' & E'). exists b', k'.
    rewrite E in *. by destruct (flag_steps os true).
  - destruct (Clear_ready b k Hr) as (b1 & k1 & -> & Hr1 & E).
    destruct (IH b1 k1 Hr1) as (b' & k' & -> & Hr' & E'). exists b', k'.
    rewrite E in *. by destruct (flag_steps os false).
Qed.

(** A pipe that is created is ready, if the flag was down. *)
Lemma ReCreate_ready b k b' k' :
  _broken b = false → ReCreate b k = (true, b', k') → ready b' k' ∧ _broken b' = false.
Proof.
  intros Hb. unfold ReCreate. destruct (pipe k) as [[[p0 p1]|] k1] eqn:Ep; [|done].
  destruct (pipe_created _ _ _ _ Ep) as (_ & _ & Hc).
  destruct (fcntl_getfl p0 k1) as [f0 k2] eqn:E0.
  destruct (fcntl_getfl p1 k2) as [f1 k3] eqn:E1. destruct (_ || _); [done|].
  destruct (fcntl_setfl p0 _ k3) as [r0 k4] eqn:E2.
  destruct (fcntl_setfl p1 _ k4) as [r1 k5] eqn:E3.
  destruct (Z.eqb_spec r0 (-1)); [done|]. destruct (Z.eqb_spec r1 (-1)); [done|].
  intros [= <- <-]. split; [|done]. unfold ready, set_pipes. simpl. rewrite Hb.
  eauto 10 using created_level, setfl_created_w, setfl_created_r, getfl_created.
Qed.

(** C31: refinement.  After a successful constructor, any sequence of Break and
    Clear returns what the flag returns, never fails to deliver a signal, and
    leaves the reading end readable exactly when the flag is raised. *)
Theorem breaker_refines_flag k b k' os :
  ReCreate (mk (-1) (-1) false) k = (true, b, k') →
  ∃ b' k'', steps os b k' = (fst (flag_steps os false), b', k'') ∧
    level (_pipe0 b') (_pipe1 b') k'' = Some (Z.b2z (snd (flag_steps os false))) ∧
    IsBreak b' = snd (flag_steps os false).
Proof.
  intros E. apply ReCreate_ready in E as [Hr Hb]; [|done].
  destruct (steps_ready os b k' Hr) as (b' & k'' & E & Hr' & Hb').
  rewrite Hb in *. exists b', k''. split_and!; try done. by rewrite <-Hb'.
Qed.

End spec.
End SocketBreaker.

(** ** A concrete kernel with one pipe, on the descriptors 3 and 4 *)
Module OnePipe.

Record t : Set := mk { unread : nat; nb_r : bool; nb_w : bool }.

Definition capacity : Z := 65536.

Definition nonblock (f : Z) : bool := negb (f .& O_NONBLOCK =? 0).

#[export] Instance kernel : PipeKernel t := {|
  pipe k := (Some (3, 4), mk 0%nat false false);
  fcntl_getfl fd k := (0, k);
  fcntl_setfl fd f k :=
    if fd =? 3 then (0, mk (unread k) (nonblock f) (nb_w k))
    else if fd =? 4 then (0, mk (unread k) (nb_r k) (nonblock f))
    else (-1, k);
  pipe_write fd bs k :=
    if (fd =? 4) && (Z.of_nat (unread k) <? capacity) then (1, mk (S (unread k)) (nb_r k) (nb_w k))
    else (-1, k);
  pipe_read fd len k :=
    if (fd =? 3) && (0 <? Z.of_nat (unread k)) then
      (Z.min (Z.of_nat (unread k)) len, mk (unread k - Z.to_nat len) (nb_r k) (nb_w k))
    else (-1, k);
  pipe_close fd k := k;
|}.

Lemma nonblock_lor f : nonblock (f .| O_NONBLOCK) = true.
Proof.
  unfold nonblock, O_NONBLOCK. rewrite Z.land_comm, Z.lor_comm, Z.land_lor_distr_r.
  destruct (Z.eqb_spec (Z.lor (2048 .& 2048) (2048 .& f)) 0) as [E|]; [|done].
  by apply Z.lor_eq_0_iff in E as [? _].
Qed.

#[export] Program Instance laws : PipeLaws t := {|
  created r w a b k := r = 3 ∧ w = 4 ∧ k = mk 0%nat a b;
  level r w k :=
    if (r =? 3) && (w =? 4) && nb_r k && nb_w k then Some (Z.of_nat (unread k)) else None;
|}.
Next Obligation. by intros k r w k' [= <- <- <-]. Qed.
Next Obligation. by intros ???????? (-> & -> & ->) [= <- <-]. Qed.
Next Obligation.
  intros ???????? (-> & -> & ->). simpl. intros [= <- <-] _. by rewrite nonblock_lor.
Qed.
Next Obligation.
  intros ???????? (-> & -> & ->). simpl. intros [= <- <-] _. by rewrite nonblock_lor.
Qed.
Next Obligation. by intros ??? (-> & -> & ->). Qed.
Next Obligation.
  intros r w n c [u nr nw] Hl. simpl in *. destruct (r =? 3); [|done].
  destruct (w =? 4); [|done]. destruct nr; [|done]. destruct nw; [|done].
  simpl in *. injection Hl as <-. unfold capacity. case_test; eexists _, _; (split; [done|]);
    [left|right]; split_and!; simpl; try done; try lia. f_equal. lia.
Qed.
Next Obligation.
  intros r w n len [u nr nw] Hl Hlen. simpl in *. destruct (r =? 3); [|done].
  destruct (w =? 4); [|done]. destruct nr; [|done]. destruct nw; [|done].
  simpl in *. injection Hl as <-. case_test; eexists _, _; (split; [done|]);
    [right|left]; split_and!; simpl; try lia; f_equal; lia.
Qed.

End OnePipe.

(** ** Pipes as a part of a larger system *)
Section part.
Context {K0 K : Type} `{!PipeKernel K0, !PipeLaws K0} (get : K → K0) (put : K0 → K → K).
Context (get_put : ∀ p k, get (put p k) = p).

Definition on_part {A} (f : K0 → A * K0) (k : K) : A * K :=
  let '(a, p) := f (get k) in (a, put p k).

Definition part_kernel : PipeKernel K := {|
  pipe := on_part pipe;
  fcntl_getfl fd := on_part (fcntl_getfl fd);
  fcntl_setfl fd f := on_part (fcntl_setfl fd f);
  pipe_write fd bs := on_part (pipe_write fd bs);
  pipe_read fd len := on_part (pipe_read fd len);
  pipe_close fd k := put (pipe_close fd (get k)) k;
|}.

Lemma on_part_eq {A} (f : K0 → A * K0) k a k' :
  on_part f k = (a, k') → f (get k) = (a, get k').
Proof.
  unfold on_part. destruct (f (get k)) as [a0 p]. intros [= <- <-]. by rewrite get_put.
Qed.

Lemma on_part_intro {A} (f : K0 → A * K0) k a p :
  f (get k) = (a, p) → on_part f k = (a, put p k).
Proof. unfold on_part. by intros ->. Qed.

Program Definition part_laws : @PipeLaws K part_kernel := {|
  created r w a b k := created r w a b (get k);
  level r w k := level r w (get k);
|}.
Next Obligation. intros k r w k' E%on_part_eq. exact (pipe_created _ _ _ _ E). Qed.
Next Obligation. intros * Hc E%on_part_eq. exact (getfl_created _ _ _ _ _ _ _ _ Hc E). Qed.
Next Obligation. intros * Hc E%on_part_eq Hr. exact (setfl_created_r _ _ _ _ _ _ _ _ Hc E Hr). Qed.
Next Obligation. intros * Hc E%on_part_eq Hr. exact (setfl_created_w _ _ _ _ _ _ _ _ Hc E Hr). Qed.
Next Obligation. intros * Hc. exact (created_level _ _ _ Hc). Qed.
Next Obligation.
  intros * Hl. destruct (write_byte _ _ _ c _ Hl) as (ret & p & E & Hp).
  eexists ret, _. split; [exact (on_part_intro _ _ _ _ E)|]. by rewrite get_put.
Qed.
Next Obligation.
  intros * Hl Hlen. destruct (read_bytes _ _ _ len _ Hl Hlen) as (ret & p & E & Hp).
  eexists ret, _. split; [exact (on_part_intro _ _ _ _ E)|]. by rewrite get_put.
Qed.

End part.

#[local] Existing Instance OnePipe.kernel.
#[local] Existing Instance OnePipe.laws.

Lemma breaker_refines_flag_witness :
  let os := [SocketBreaker.OpBreak; SocketBreaker.OpBreak; SocketBreaker.OpClear;
             SocketBreaker.OpClear] in
  fst (fst (SocketBreaker.steps os (SocketBreaker.mk 3 4 false) (OnePipe.mk 0%nat true true))) =
  [true; true; true; false].
Proof.
  intros os.
  destruct (SocketBreaker.breaker_refines_flag (OnePipe.mk 0%nat false false)
    (SocketBreaker.mk 3 4 false) (OnePipe.mk 0%nat true true) os) as (b' & k' & -> & _); done.
Defined.
