(* ===== verification/UnixSocket.v ===== *)
(** * UnixSocket: options of sockets (src/packet/unix_socket.hpp, .cpp)

    Thin functions over fcntl(2), which is part of [PipeKernel], and over
    setsockopt(2), getsockopt(2) and ioctl(2), which are [SockOpts]. *)
From S2P Require Import Prelude SocketBreaker.

Inductive sockopt : Set :=
| SO_RCVTIMEO (sec : Z) | SO_SNDTIMEO (sec : Z) | SO_LINGER (onoff linger : Z)
| TCP_MAXSEG (size : Z) | TCP_NODELAY (nagle : Z).

Inductive sockinfo : Set := SO_ERROR | GET_TCP_MAXSEG | SO_NWRITE | SO_NREAD.
Inductive ioctl_request : Set := SIOCOUTQ | SIOCINQ.

(** The functions that read give the return value and what they stored. *)
Class SockOpts (K : Type) := {
  setsockopt : Z → sockopt → K → Z * K;
  getsockopt : Z → sockinfo → K → Z * Z * K;
  ioctl : Z → ioctl_request → K → Z * Z * K;
}.

Inductive platform : Set := Apple | Android | Linux.

Section ops.
Context {K : Type} `{!PipeKernel K, !SockOpts K}.

Definition socket_set_noblo (fd : Z) (k : K) : Z * K :=
  let '(ret, k) := fcntl_getfl fd k in
  if 0 <=? ret then
    let flags := ret .| O_NONBLOCK in
    fcntl_setfl fd flags k
  else (ret, k).

Definition socket_set_blo (fd : Z) (k : K) : Z * K :=
  let '(ret, k) := fcntl_getfl fd k in
  if 0 <=? ret then
    let flags := ret .& Z.lnot O_NONBLOCK in
    fcntl_setfl fd flags k
  else (ret, k).

Definition socket_set_tcp_mss (sockfd size : Z) (k : K) : Z * K :=
  setsockopt sockfd (TCP_MAXSEG size) k.

(** [size] says whether the pointer is not null; the second result is stored. *)
Definition socket_get_tcp_mss (sockfd : Z) (size : bool) (k : K) : Z * option Z * K :=
  if negb size then (-1, None, k)
  else
    let '(ret, v, k) := getsockopt sockfd GET_TCP_MAXSEG k in
    (ret, Some v, k).

Definition socket_fix_tcp_mss (sockfd : Z) (k : K) : Z * K := socket_set_tcp_mss sockfd 1400 k.

Definition socket_disable_nagle (sock nagle : Z) (k : K) : Z * K :=
  setsockopt sock (TCP_NODELAY nagle) k.

Definition socket_get_nwrite (p : platform) (_sock : Z) (k : K) : Z * Z * K :=
  match p with
  | Apple => getsockopt _sock SO_NWRITE k
  | Android => ioctl _sock SIOCOUTQ k
  | Linux => (0, -1, k)
  end.

Definition socket_get_nread (p : platform) (_sock : Z) (k : K) : Z * Z * K :=
  match p with
  | Apple => getsockopt _sock SO_NREAD k
  | Android => ioctl _sock SIOCINQ k
  | Linux => (0, -1, k)
  end.

Definition socket_nwrite (p : platform) (_sock : Z) (k : K) : Z * K :=
  let '(ret, value, k) := socket_get_nwrite p _sock k in
  if ret =? 0 then (value, k) else (ret, k).

Definition socket_nread (p : platform) (_sock : Z) (k : K) : Z * K :=
  let '(ret, value, k) := socket_get_nread p _sock k in
  if ret =? 0 then (value, k) else (ret, k).

End ops.

(** ** Modes

    [mode fd k] are the status flags of an open descriptor.  F_SETFL changes
    O_NONBLOCK, bit 11; it ignores some of the other flags, so that the law speaks
    of a change of that bit only.  The two functions set and clear the flag and
    keep the others. *)
Class FcntlLaws (K : Type) `{!PipeKernel K} := {
  mode : Z → K → option Z;
  mode_nonneg fd k f : mode fd k = Some f → 0 ≤ f;
  getfl_mode fd k f : mode fd k = Some f → fcntl_getfl fd k = (f, k);
  setfl_mode fd k f f' :
    mode fd k = Some f → (∀ i, 0 ≤ i → i ≠ 11 → Z.testbit f' i = Z.testbit f i) →
    ∃ k', fcntl_setfl fd f' k = (0, k') ∧ mode fd k' = Some f' ∧
          ∀ fd', fd' ≠ fd → mode fd' k' = mode fd' k;
}.

Definition nonblocking {K} `{!PipeKernel K, !FcntlLaws K} (fd : Z) (k : K) : Prop :=
  ∃ f, mode fd k = Some f ∧ Z.testbit f 11 = true.
Definition blocking {K} `{!PipeKernel K, !FcntlLaws K} (fd : Z) (k : K) : Prop :=
  ∃ f, mode fd k = Some f ∧ Z.testbit f 11 = false.

Section modes.
Context {K : Type} `{!PipeKernel K, !FcntlLaws K}.

Lemma O_NONBLOCK_bit i : 0 ≤ i → Z.testbit O_NONBLOCK i = (i =? 11).
Proof. intros. change O_NONBLOCK with (2 ^ 11). by rewrite Z.pow2_bits_eqb, Z.eqb_sym. Qed.

Lemma set_noblo_spec fd k f :
  mode fd k = Some f →
  ∃ k' f', socket_set_noblo fd k = (0, k') ∧ mode fd k' = Some f' ∧
    (∀ i, 0 ≤ i → Z.testbit f' i = (i =? 11) || Z.testbit f i) ∧
    ∀ fd', fd' ≠ fd → mode fd' k' = mode fd' k.
Proof.
  intros Hf. destruct (setfl_mode fd k f (f .| O_NONBLOCK) Hf) as (k' & E & Hm & Hk).
  { intros i Hi Hne%Z.eqb_neq. by rewrite Z.lor_spec, O_NONBLOCK_bit, Hne, orb_false_r. }
  exists k', (f .| O_NONBLOCK). split_and!; [|done| |done].
  - unfold socket_set_noblo. rewrite (getfl_mode _ _ _ Hf).
    by rewrite (proj2 (Z.leb_le 0 f)) by (by eapply mode_nonneg).
  - intros i Hi. by rewrite Z.lor_spec, O_NONBLOCK_bit, orb_comm.
Qed.

Lemma set_blo_spec fd k f :
  mode fd k = Some f →
  ∃ k' f', socket_set_blo fd k = (0, k') ∧ mode fd k' = Some f' ∧
    (∀ i, 0 ≤ i → Z.testbit f' i = negb (i =? 11) && Z.testbit f i) ∧
    ∀ fd', fd' ≠ fd → mode fd' k' = mode fd' k.
Proof.
  intros Hf. destruct (setfl_mode fd k f (f .& Z.lnot O_NONBLOCK) Hf) as (k' & E & Hm & Hk).
  { intros i Hi Hne%Z.eqb_neq.
    by rewrite Z.land_spec, Z.lnot_spec, O_NONBLOCK_bit, Hne, andb_true_r by done. }
  exists k', (f .& Z.lnot O_NONBLOCK). split_and!; [|done| |done].
  - unfold socket_set_blo. rewrite (getfl_mode _ _ _ Hf).
    by rewrite (proj2 (Z.leb_le 0 f)) by (by eapply mode_nonneg).
  - intros i Hi. by rewrite Z.land_spec, Z.lnot_spec, O_NONBLOCK_bit, andb_comm.
Qed.

End modes.
