(* ===== verification/Log.v ===== *)
(** * Log: the lines of the log (src/log/)

    zlogger2console formats a message and hands it to the ConsoleLog of the platform,
    which adds the file, the function and the line.  A C string is the list of its
    bytes, none of them 0; what reads or writes outside an array, and a format that
    does not fit its arguments, is undefined. *)
From stdpp Require Import pretty.
From S2P Require Import Prelude.

Definition NUL : byte := Byte.x00.
Definition BACKSLASH : byte := Byte.x5c.
Definition SLASH : byte := Byte.x2f.
Definition SPACE : byte := Byte.x20.
Definition COLON : byte := Byte.x3a.
Definition PAREN : byte := Byte.x28.
Definition BRACKET : byte := Byte.x5d.
(** [*(s + i)]: the last element that can be read is the 0 after the string. *)
Definition char_at (s : bytes) (i : nat) : checked byte :=
  match s !! i with
  | Some c => Ret c
  | None => if (i =? length s)%nat then Ret NUL else Undefined
  end.
(** Writing [bs] to the array [buf] from the index [i]. *)
Definition write_at (buf : bytes) (i : Z) (bs : bytes) : checked bytes :=
  if (0 <=? i) && (i + size bs <=? size buf)
  then Ret (take (Z.to_nat i) buf ++ bs ++ drop (Z.to_nat i + length bs) buf)
  else Undefined.
(** The string in an array, up to the first 0. *)
Fixpoint cstr (buf : bytes) : bytes :=
  match buf with
  | [] => []
  | c :: buf => if decide (c = NUL) then [] else c :: cstr buf
  end.

(** ** loginfo_extract.cpp *)

(** [strrchr]: what follows the last [c]. *)
Fixpoint after_last (c : byte) (s : bytes) : option bytes :=
  match s with
  | [] => None
  | d :: s =>
      match after_last c s with
      | Some r => Some r
      | None => if decide (d = c) then Some s else None
      end
  end.

Definition ExtractFileName (_path : option bytes) : bytes :=
  match _path with
  | None => []
  | Some _path =>
      let pos := match after_last BACKSLASH _path with
                 | Some r => Some r
                 | None => after_last SLASH _path
                 end in
      match pos with
      | None | Some [] => _path
      | Some r => r
      end
  end.

(** The loop; its result is [start] and [end], as indices. *)
Fixpoint extract_loop (fuel : nat) (s : bytes) (start : nat) (end_ : option nat) (pos : nat)
    : checked (nat * option nat) :=
  match fuel with
  | O => OutOfFuel
  | S fuel =>
      c ← char_at s pos;
      if decide (c = NUL) then mret (start, end_)
      else if bool_decide (end_ = None) && bool_decide (c = SPACE)
      then extract_loop fuel s (S pos) end_ (S pos)
      else
        colons ← (if decide (c = COLON)
                  then d ← char_at s (S pos); mret (bool_decide (d = COLON))
                  else mret false);
        if (colons : bool) then extract_loop fuel s (S (S pos)) end_ (S (S pos))
        else if decide (c = PAREN) then extract_loop fuel s start (Some pos) (S pos)
        else if bool_decide (c = COLON) || bool_decide (c = BRACKET)
        then mret (start, Some pos)
        else extract_loop fuel s start end_ (S pos)
  end.

(** strncpy(3), which fills up with zeros. *)
Definition strncpy (dst src : bytes) (n : Z) : checked bytes :=
  if n <? 0 then Undefined
  else write_at dst 0 (take (Z.to_nat n) src ++ replicate (Z.to_nat n - length src) NUL).

(** [_func_ret] is the array before and after. *)
Definition ExtractFunctionName (_func : option bytes) (_func_ret : bytes) (_len : Z)
    : checked bytes :=
  match _func with
  | None => mret _func_ret
  | Some _func =>
      '(start, end_) ← extract_loop (S (length _func)) _func 0 None 0;
      let whole :=
        buf ← strncpy _func_ret _func _len;
        write_at buf (_len - 1) [NUL] in
      match end_ with
      | None => whole
      | Some end_ =>
          if (end_ <=? start + 1)%nat then whole
          else
            let len := Z.of_nat end_ - Z.of_nat start in
            let _len := _len - 1 in
            let len := if _len <? len then _len else len in
            if len <? 0 then Undefined
            else
              buf ← write_at _func_ret 0 (take (Z.to_nat len) (drop start _func));
              write_at buf len [NUL]
      end
  end.

(** ** printf *)

Inductive arg : Set := ArgInt (z : Z) | ArgStr (s : option bytes).

(** The conversions that the code uses are %d and %s, and %%. *)
Fixpoint format (fmt : bytes) (args : list arg) : checked bytes :=
  match fmt with
  | [] => Ret []
  | Byte.x25 :: fmt =>
      match fmt, args with
      | Byte.x64 :: fmt, ArgInt z :: args =>
          out ← format fmt args; Ret (str (pretty z) ++ out)
      | Byte.x73 :: fmt, ArgStr (Some s) :: args => out ← format fmt args; Ret (s ++ out)
      | Byte.x25 :: fmt, _ => out ← format fmt args; Ret (Byte.x25 :: out)
      | _, _ => Undefined
      end
  | c :: fmt => out ← format fmt args; Ret (c :: out)
  end.

(** The string that snprintf leaves in an array of [n] bytes. *)
Definition snprintf (n : Z) (fmt : bytes) (args : list arg) : checked bytes :=
  out ← format fmt args; Ret (take (Z.to_nat (n - 1)) out).

(** ** zlogger.cpp *)

Inductive LogLevel : Set :=
| kLevelVerbose | kLevelDebug | kLevelInfo | kLevelWarn | kLevelError | kLevelFatal | kLevelNone.
Definition level_number (l : LogLevel) : Z :=
  match l with
  | kLevelVerbose => 0 | kLevelDebug => 1 | kLevelInfo => 2 | kLevelWarn => 3
  | kLevelError => 4 | kLevelFatal => 5 | kLevelNone => 6
  end.

(** The fields that are used; the others stay 0. *)
Record LoggerInfo : Set := mkLoggerInfo {
  level : LogLevel;
  tag : option bytes;
  fileName : option bytes;
  funcName : option bytes;
  line : Z;
}.

(** [ConsoleLog] is that of the platform; [temp] has 4096 bytes. *)
Definition zlogger2console {Out : Type}
    (ConsoleLog : option LoggerInfo → option bytes → checked Out)
    (lvl : LogLevel) (fmt : option bytes) (valist : list arg) : checked Out :=
  let info l := mkLoggerInfo l (Some (str "zzconsole")) None None 0 in
  match fmt with
  | None => ConsoleLog (Some (info kLevelFatal)) (Some (str "NULL == _format"))
  | Some fmt =>
      temp ← snprintf 4096 fmt valist;
      ConsoleLog (Some (info lvl)) (Some temp)
  end.

(** ** platform_comm *)

Definition or_null_log (log : option bytes) : arg := ArgStr (Some (default (str "NULL==log!!!") log)).

(** [strFuncName], of 128 bytes, after ExtractFunctionName. *)
Definition func_name (info : LoggerInfo) : checked bytes :=
  buf ← ExtractFunctionName (funcName info) (replicate 128 NUL) 128;
  mret (cstr buf).

(** log/linux/platform_comm.cpp, log/android/platform_comm.cpp: the text of the line *)
Definition result_log (info : option LoggerInfo) (log : option bytes) : checked bytes :=
  match info with
  | Some info =>
      let filename := ExtractFileName (fileName info) in
      strFuncName ← func_name info;
      snprintf 2048 (str "[%s, %s, %d]:%s")
        [ArgStr (Some filename); ArgStr (Some strFuncName); ArgInt (line info); or_null_log log]
  | None => snprintf 2048 (str "%s") [or_null_log log]
  end.

(** The line is itself the format of printf. *)
Definition Linux_ConsoleLog (info : option LoggerInfo) (log : option bytes) : checked bytes :=
  text ← result_log info log;
  format text [].

(** Priority, tag and text given to __android_log_print. *)
Definition Android_ConsoleLog (info : option LoggerInfo) (log : option bytes)
    : checked (Z * bytes * bytes) :=
  text ← result_log info log;
  out ← format (str "%s") [ArgStr (Some text)];
  mret (match info with
        | Some info => (level_number (level info) + 2, default [] (tag info), out)
        | None => (5, [], out)
        end).

Definition levelStrings : list bytes := [str "V"; str "D"; str "I"; str "W"; str "E"; str "F"].

(** log/objc/platform_comm.mm: what is given to NSLog, if anything. *)
Definition Apple_ConsoleLog (info : option LoggerInfo) (log : option bytes) : checked (option bytes) :=
  match info, log with
  | Some info, Some log =>
      strFuncName ← func_name info;
      let file_name := ExtractFileName (fileName info) in
      match levelStrings !! Z.to_nat (level_number (level info)) with
      | None => Undefined
      | Some l =>
          out ← snprintf (16 * 1024) (str "[%s][%s][%s, %s, %d][%s")
            [ArgStr (Some l); ArgStr (Some (default [] (tag info))); ArgStr (Some file_name);
             ArgStr (Some strFuncName); ArgInt (line info); ArgStr (Some log)];
          mret (Some out)
      end
  | _, _ => mret None
  end.

(** ** The name of a function *)

Lemma char_at_lt s i c : char_at s i = Ret c → c ≠ NUL → (i < length s)%nat.
Proof.
  unfold char_at. destruct (s !! i) eqn:E; [by apply lookup_lt_Some in E|].
  destruct (_ =? _)%nat; [|done]. by intros [= <-].
Qed.

Lemma char_at_le s i : (i ≤ length s)%nat → ∃ c, char_at s i = Ret c.
Proof.
  intros Hi. unfold char_at. destruct (s !! i) as [c|] eqn:E; [by exists c|].
  apply lookup_ge_None in E. rewrite (proj2 (Nat.eqb_eq _ _)) by lia. by exists NUL.
Qed.

(** The loop ends, reads only the string and the 0 after it, and its result lies in
    the string. *)
Lemma extract_loop_ends s fuel : ∀ start end_ pos,
  (pos ≤ length s)%nat → (length s < fuel + pos)%nat → (start ≤ length s)%nat →
  (∀ e, end_ = Some e → (e ≤ length s)%nat) →
  ∃ start' end', extract_loop fuel s start end_ pos = Ret (start', end') ∧
    (start' ≤ length s)%nat ∧ (∀ e, end' = Some e → (e ≤ length s)%nat).
Proof.
  induction fuel as [|fuel IH]; intros start end_ pos Hpos Hfuel Hs He; [lia|]. simpl.
  destruct (char_at_le s pos Hpos) as [c Ec]. rewrite Ec. simpl.
  case_decide as Hc; [by exists start, end_|]. apply (char_at_lt _ _ _ Ec) in Hc.
  destruct (_ && _) eqn:Hsp; [by apply IH; try lia; try done|].
  assert (∃ b, (if decide (c = COLON) then d ← char_at s (S pos); mret (bool_decide (d = COLON))
          else mret false) = Ret b ∧ (b = true → (S pos < length s)%nat)) as (b & Eb & Hb).
  { clear Hsp. case_decide; [|exists false; split; [done|by intros [=]]]. destruct (char_at_le s (S pos)) as [d Ed]; [lia|].
    rewrite Ed. simpl. eexists; split; [done|]. intros Hd%bool_decide_eq_true.
    apply (char_at_lt _ _ _ Ed). by rewrite Hd. }
  rewrite Eb. clear Hsp Eb. simpl. destruct b; [specialize (Hb eq_refl); by apply IH; try lia; try done|].
  case_decide; [apply IH; try lia; intros e [= <-]; lia|].
  destruct (_ || _); [|by apply IH; try lia; try done].
  exists start, (Some pos). split_and!; [done|done|]. intros e [= <-]. lia.
Qed.

Lemma write_at_ret buf i bs :
  0 ≤ i → i + size bs ≤ size buf →
  write_at buf i bs = Ret (take (Z.to_nat i) buf ++ bs ++ drop (Z.to_nat i + length bs) buf).
Proof.
  intros H0 Hlen. unfold write_at. by rewrite (proj2 (Z.leb_le _ _)), (proj2 (Z.leb_le _ _)).
Qed.

Lemma cstr_app s rest : ¬ (NUL ∈ s) → cstr (s ++ NUL :: rest) = s.
Proof.
  induction s as [|c s IH]; intros Hs; simpl; [done|]. apply not_elem_of_cons in Hs as [Hc Hs].
  rewrite decide_False by done. by rewrite IH.
Qed.

(** A string put at the start of an array, and ended. *)
Lemma terminated buf sub : ¬ (NUL ∈ sub) → size sub < size buf →
  ∃ buf1 buf', write_at buf 0 sub = Ret buf1 ∧ write_at buf1 (size sub) [NUL] = Ret buf' ∧
    length buf' = length buf ∧ cstr buf' = sub.
Proof.
  intros Hs Hlen. unfold size in *. eexists _, _.
  rewrite write_at_ret by (unfold size; lia). simpl. split; [done|].
  rewrite write_at_ret; [|lia|unfold size; rewrite length_app, length_drop; simpl; lia].
  split; [done|]. rewrite Nat2Z.id, take_app_length. simpl. split.
  - rewrite length_app. simpl. rewrite length_drop, length_app, length_drop. lia.
  - by apply cstr_app.
Qed.

Lemma not_NUL_take_drop (s : bytes) n i : ¬ (NUL ∈ s) → ¬ (NUL ∈ take n (drop i s)).
Proof. intros Hs (j & Hj & _)%elem_of_take. by apply list_elem_of_lookup_2, subseteq_drop in Hj. Qed.

Lemma take_NUL s rest : ¬ (NUL ∈ s) → cstr (s ++ rest) = s ++ cstr rest.
Proof.
  induction s as [|c s IH]; intros Hs; simpl; [done|]. apply not_elem_of_cons in Hs as [Hc Hs].
  rewrite decide_False by done. by rewrite IH.
Qed.

(** strncpy, and the 0 put at the end. *)
Lemma strncpy_terminated s buf len :
  ¬ (NUL ∈ s) → size buf = len → 0 < len →
  ∃ buf', (buf1 ← strncpy buf s len; write_at buf1 (len - 1) [NUL]) = Ret buf' ∧
    length buf' = length buf ∧ cstr buf' = take (Z.to_nat (len - 1)) (drop 0 s).
Proof.
  intros Hs Hlen Hpos. unfold strncpy. rewrite (proj2 (Z.ltb_ge _ _)) by lia.
  set (src := take (Z.to_nat len) s ++ replicate (Z.to_nat len - length s) NUL).
  assert (length src = length buf) as Hsrc.
  { unfold src, size in *. rewrite length_app, length_take, length_replicate. lia. }
  rewrite write_at_ret by (unfold size in *; lia). simpl. rewrite Hsrc, drop_all, app_nil_r.
  rewrite write_at_ret by (unfold size in *; simpl; lia). eexists. split; [done|].
  rewrite drop_ge by (unfold size in *; simpl; lia). rewrite app_nil_r. split.
  { rewrite length_app, length_take. unfold size in *. simpl. lia. }
  unfold src, size in *. set (n := Z.to_nat (len - 1)). replace (Z.to_nat len) with (S n) by lia.
  destruct (Nat.le_gt_cases (length s) n) as [Hle|Hgt].
  - rewrite (take_ge s) by lia. rewrite (take_ge s) by lia. rewrite take_app_ge by lia.
    rewrite <-(assoc_L (++)), take_NUL by done. rewrite take_replicate.
    destruct (_ `min` _)%nat; simpl; apply app_nil_r.
  - rewrite take_app_le by (rewrite length_take; lia). rewrite take_take, Nat.min_l by lia.
    by rewrite cstr_app by (by apply (not_NUL_take_drop s n 0)).
Qed.

(** C37: ExtractFunctionName ends and stays within its arrays: for every name, and an
    array of [_len] bytes of which there is at least one, it returns, without
    reading outside the name or writing outside the array, and leaves in the array a
    string, ended by 0, that is a part of the name of less than [_len] bytes. *)
Theorem ExtractFunctionName_terminates _func _func_ret _len :
  ¬ (NUL ∈ _func) → size _func_ret = _len → 0 < _len →
  ∃ buf i n, ExtractFunctionName (Some _func) _func_ret _len = Ret buf ∧
    length buf = length _func_ret ∧ cstr buf = take n (drop i _func) ∧ Z.of_nat n < _len.
Proof.
  intros Hs Hlen Hpos. unfold ExtractFunctionName.
  destruct (extract_loop_ends _func (S (length _func)) 0 None 0) as (start & end_ & E & Hst & He);
    [lia..|done|]. rewrite E. simpl. clear E.
  pose proof (strncpy_terminated _func _func_ret _len Hs Hlen Hpos) as Hwhole.
  destruct end_ as [end_|]; [|by destruct Hwhole as (buf & -> & ? & ?);
    exists buf, 0%nat, (Z.to_nat (_len - 1)); split_and!; [..|lia]].
  specialize (He end_ eq_refl). destruct (Nat.leb_spec end_ (start + 1)).
  { destruct Hwhole as (buf & -> & ? & ?). exists buf, 0%nat, (Z.to_nat (_len - 1)).
    by split_and!; [..|lia]. }
  set (len := if _len - 1 <? _ then _ else _).
  assert (0 ≤ len ≤ _len - 1 ∧ len ≤ Z.of_nat end_ - Z.of_nat start) as Hl.
  { unfold len. destruct (Z.ltb_spec (_len - 1) (Z.of_nat end_ - Z.of_nat start)); lia. }
  clearbody len. rewrite (proj2 (Z.ltb_ge _ _)) by lia.
  set (sub := take (Z.to_nat len) (drop start _func)).
  assert (size sub = len) as Hsub.
  { unfold sub, size. rewrite length_take, length_drop. lia. }
  destruct (terminated _func_ret sub) as (buf1 & buf & -> & E2 & El & Ec);
    [by apply not_NUL_take_drop|lia|]. simpl. rewrite Hsub in E2. rewrite E2.
  exists buf, start, (Z.to_nat len). split_and!; [done..|lia].
Qed.

Lemma demo_name : ¬ (NUL ∈ str "bool NetCore::Send(int)").
Proof.
  intros Hin. vm_compute in Hin.
  repeat (apply elem_of_cons in Hin as [?|Hin]; [done|]). by apply elem_of_nil in Hin.
Qed.

Lemma ExtractFunctionName_terminates_witness :
  ∃ buf, ExtractFunctionName (Some (str "bool NetCore::Send(int)")) (replicate 8 NUL) 8 = Ret buf ∧
    length buf = 8%nat.
Proof.
  destruct (ExtractFunctionName_terminates (str "bool NetCore::Send(int)") (replicate 8 NUL) 8)
    as (buf & i & n & E & El & _); [exact demo_name|done|done|].
  by exists buf.
Defined.

(** The part is the name between the last "::" or blank and the parenthesis. *)
Example extract_Send :
  (buf ← ExtractFunctionName (Some (str "bool NetCore::Send(int)")) (replicate 128 NUL) 128;
   mret (cstr buf)) = Ret (str "Send").
Proof. by vm_compute. Qed.

(** A name of one letter, and a "::" in the arguments, make it the whole text. *)
Definition extracted (name : string) : checked bytes :=
  buf ← ExtractFunctionName (Some (str name)) (replicate 128 NUL) 128; mret (cstr buf).
Example extract_one_letter : extracted "void f(int)" = Ret (str "void f(int)").
Proof. by vm_compute. Qed.
Example extract_qualified :
  extracted "void Send(std::string)" = Ret (str "void Send(std::string)").
Proof. by vm_compute. Qed.

(** ** The console *)

Lemma format_literal s : ¬ (Byte.x25 ∈ s) → format s [] = Ret s.
Proof.
  induction s as [|c s IH]; intros Hs; [done|]. apply not_elem_of_cons in Hs as [Hc Hs].
  simpl. by destruct c; try (by destruct Hc); rewrite IH.
Qed.

(** On Linux the line is printed as it is when it has no "%"; the bytes of a message
    are not protected, and a "%" in them is taken for a conversion without argument. *)
Lemma Linux_ConsoleLog_plain info log text :
  result_log info log = Ret text → ¬ (Byte.x25 ∈ text) → Linux_ConsoleLog info log = Ret text.
Proof. unfold Linux_ConsoleLog. intros -> Ht. simpl. by apply format_literal. Qed.

Example percent_in_message :
  zlogger2console Linux_ConsoleLog kLevelInfo (Some (str "receive connect response error:%s"))
    [ArgStr (Some (str "50% lost"))] = Undefined.
Proof. by vm_compute. Qed.

(** "%0" is no conversion. *)
Example percent_zero {Out} (ConsoleLog : option LoggerInfo → option bytes → checked Out) err :
  zlogger2console ConsoleLog kLevelInfo (Some (str "wifi set tcp mss error:%0")) [ArgStr (Some err)]
  = Undefined.
Proof. done. Qed.
