(* ===== verification/Poll.v ===== *)
(** * Poll: waiting for several descriptors (src/socket/socket_poll_base.hpp,
    socket_poll.cpp, socket_epoll.cpp, socket_kqueue.cpp, socket_select.cpp)

    The pure virtual methods of SocketPollBase are the class [SocketPollBase], with
    one instance per derived class; SocketSelect delegates to one of them.  The
    breaker, of which the code keeps a reference, is an argument.  The system calls
    are classes whose functions also give [errno]. *)
From S2P Require Import Prelude SocketBreaker.

(** [std::find_if], and the change of the element found. *)
Fixpoint update_first {E} (sel : E → bool) (upd : E → E) (l : list E) : list E :=
  match l with
  | [] => []
  | e :: l => if sel e then upd e :: l else e :: update_first sel upd l
  end.

(** ** The virtual methods *)
Class SocketPollBase (P K : Type) := {
  poll_new : SocketBreaker.t → K → P * K;                        (* the constructor *)
  poll_delete : P → K → K;                                       (* the destructor *)
  ReadEvent : P → Z → bool → P;
  WriteEvent : P → Z → bool → P;
  ErrorEvent : P → Z → bool → P;
  ClearEvent : P → P;
  Poll : P → Z → SocketBreaker.t → K → checked (Z * P * SocketBreaker.t * K);
  ReadFdIsSet : P → Z → bool;
  WriteFdIsSet : P → Z → bool;
  ExceptionFdIsSet : P → Z → bool;
  BreakerIsError : SocketBreaker.t → P → bool;
  BreakerIsBreak : SocketBreaker.t → P → bool;
  GetErrno : P → Z;
}.

(** The first lines of every Poll: seconds to milliseconds, in an [int]. *)
Definition poll_timeout (timeout : Z) : checked Z :=
  if 0 <? timeout then
    if timeout * 1000 <? 2 ^ 31 then Ret (timeout * 1000) else Undefined
  else if timeout <? -1 then Ret 0
  else Ret timeout.

(** ** class SocketPoll *)
Module SocketPoll.

Definition POLLIN : Z := 1.
Definition POLLOUT : Z := 4.
Definition POLLERR : Z := 8.
Definition POLLHUP : Z := 16.
Definition POLLNVAL : Z := 32.

Record pollfd : Set := mkPollfd { fd : Z; events : Z; revents : Z }.

(** The return value, [revents] of each element, and [errno]. *)
Class PollKernel (K : Type) := {
  poll : list pollfd → Z → K → Z * list Z * Z * K;
}.

(** class PollEvent *)
Definition has (flag : Z) (mask : Z) : bool := negb (mask .& flag =? 0).
Definition Readable (e : pollfd) : bool := has POLLIN (revents e).
Definition Writable (e : pollfd) : bool := has POLLOUT (revents e).
Definition HangUp (e : pollfd) : bool := has POLLHUP (revents e).
Definition Error (e : pollfd) : bool := has POLLERR (revents e).
Definition Invalid (e : pollfd) : bool := has POLLNVAL (revents e).
Definition FD (e : pollfd) : Z := fd e.

Record t : Set := mk { _events : list pollfd; _pollEvents : list pollfd; _errno : Z }.

(** [_errno] is indeterminate until the first Poll. *)
Definition new (breaker : SocketBreaker.t) : t :=
  mk [mkPollfd (SocketBreaker.BreakerFd breaker) POLLIN 0] [] 0.

Definition is_fd (f : Z) (e : pollfd) : bool := fd e =? f.
Definition set_events (f : Z → Z) (e : pollfd) : pollfd := mkPollfd (fd e) (f (events e)) (revents e).

Definition __AddEvent (p : t) (f : Z) (read write error : bool) : t :=
  let events := 0 in
  let events := events .| (if read then POLLIN else 0) in
  let events := events .| (if write then POLLOUT else 0) in
  let events := events .| (if error then POLLERR .| POLLNVAL else 0) in
  let addEvent := mkPollfd f events 0 in
  if existsb (is_fd f) (_events p)
  then mk (update_first (is_fd f) (λ _, addEvent) (_events p)) (_pollEvents p) (_errno p)
  else mk (_events p ++ [addEvent]) (_pollEvents p) (_errno p).

Definition ReadEvent (p : t) (f : Z) (active : bool) : t :=
  if existsb (is_fd f) (_events p) then
    mk (update_first (is_fd f)
          (set_events (λ e, if active then e .| POLLIN else e .& Z.lnot POLLIN)) (_events p))
       (_pollEvents p) (_errno p)
  else __AddEvent p f active false false.

Definition WriteEvent (p : t) (f : Z) (active : bool) : t :=
  if existsb (is_fd f) (_events p) then
    mk (update_first (is_fd f)
          (set_events (λ e, if active then e .| POLLOUT else e .& Z.lnot POLLOUT)) (_events p))
       (_pollEvents p) (_errno p)
  else __AddEvent p f false active false.

Definition ErrorEvent (p : t) (f : Z) (active : bool) : t :=
  if existsb (is_fd f) (_events p) then
    mk (update_first (is_fd f)
          (set_events (λ e, if active then (e .| POLLERR) .| POLLNVAL
                            else (e .& Z.lnot POLLERR) .& Z.lnot POLLNVAL)) (_events p))
       (_pollEvents p) (_errno p)
  else __AddEvent p f false false active.

(** There always is a first element, that of the breaker. *)
Definition ClearEvent (p : t) : t := mk (take 1 (_events p)) (_pollEvents p) (_errno p).

Section poll.
Context {K : Type} `{!PollKernel K, !PipeKernel K}.

(** Up to the reset of the breaker. *)
Definition Poll_wait (p : t) (timeout : Z) (k : K) : checked (Z * t * K) :=
  timeout ← poll_timeout timeout;
  let events := map (λ e, mkPollfd (fd e) (events e) 0) (_events p) in
  let '(ret, revs, errno, k) := poll events timeout k in
  let events := zip_with (λ e r, mkPollfd (fd e) (SocketPoll.events e) r) events revs in
  mret (if ret <? 0 then (ret, mk events [] errno, k)
        else if ret =? 0 then (ret, mk events [] 0, k)
        else (ret, mk events (List.filter (λ e, negb (revents e =? 0)) events) 0, k)).

Definition Poll (p : t) (timeout : Z) (_breaker : SocketBreaker.t) (k : K)
    : checked (Z * t * SocketBreaker.t * K) :=
  '(ret, p, k) ← Poll_wait p timeout k;
  let '(_, _breaker, k) := SocketBreaker.Clear _breaker k in
  mret (ret, p, _breaker, k).

(** The overload without argument. *)
Definition Poll_forever (p : t) (_breaker : SocketBreaker.t) (k : K)
    : checked (Z * t * SocketBreaker.t * K) := Poll p (-1) _breaker k.

End poll.

Definition first_is (test : pollfd → bool) (f : Z) (p : t) : bool :=
  match List.find (is_fd f) (_pollEvents p) with Some e => test e | None => false end.

Definition ReadFdIsSet (p : t) (f : Z) : bool := first_is (λ e, Readable e || HangUp e) f p.
Definition WriteFdIsSet (p : t) (f : Z) : bool := first_is Writable f p.
Definition ExceptionFdIsSet (p : t) (f : Z) : bool := first_is (λ e, Error e || Invalid e) f p.

Definition BreakerIsError (p : t) : bool :=
  match _events p with e :: _ => Invalid e || Error e | [] => false end.
Definition BreakerIsBreak (p : t) : bool :=
  match _events p with e :: _ => Readable e | [] => false end.

End SocketPoll.

(** ** class SocketEpoll *)
Module SocketEpoll.

Definition EPOLLIN : Z := 1.
Definition EPOLLOUT : Z := 4.
Definition EPOLLERR : Z := 8.
Definition EPOLLHUP : Z := 16.

(** [fd] is the member of the union that the code uses. *)
Record epoll_event : Set := mkEvent { events : Z; fd : Z }.

(** [epoll_wait] gives the return value, the events stored, and [errno]. *)
Class EpollKernel (K : Type) := {
  epoll_create : K → Z * K;
  epoll_close : Z → K → K;                     (* close(2) *)
  epoll_ctl_add : Z → epoll_event → K → Z * K;
  epoll_wait : Z → Z → Z → K → Z * list epoll_event * Z * K;
}.

(** class EpollEvent *)
Definition has (flag : Z) (mask : Z) : bool := negb (mask .& flag =? 0).
Definition Readable (e : epoll_event) : bool := has EPOLLIN (events e).
Definition Writable (e : epoll_event) : bool := has EPOLLOUT (events e).
Definition HangUp (e : epoll_event) : bool := has EPOLLHUP (events e).
Definition Error (e : epoll_event) : bool := has EPOLLERR (events e).
Definition FD (e : epoll_event) : Z := fd e.

Record t : Set := mk {
  _epfd : Z;
  _events : list epoll_event;
  _pollEvents : list epoll_event;
  _errno : Z;
}.

Definition is_fd (f : Z) (e : epoll_event) : bool := fd e =? f.
Definition set_events (f : Z → Z) (e : epoll_event) : epoll_event := mkEvent (f (events e)) (fd e).

(** The three functions differ in the flag. *)
Definition set_flag (flag : Z) (p : t) (f : Z) (active : bool) : t :=
  mk (_epfd p)
     (if existsb (is_fd f) (_events p) then
        update_first (is_fd f)
          (set_events (λ e, if active then e .| flag else e .& Z.lnot flag)) (_events p)
      else _events p ++ [mkEvent (if active then flag else 0) f])
     (_pollEvents p) (_errno p).

Definition ReadEvent : t → Z → bool → t := set_flag EPOLLIN.
Definition WriteEvent : t → Z → bool → t := set_flag EPOLLOUT.
Definition ErrorEvent : t → Z → bool → t := set_flag EPOLLERR.

Definition ClearEvent (p : t) : t :=
  mk (_epfd p) (take 1 (_events p)) (_pollEvents p) (_errno p).

Section epoll.
Context {K : Type} `{!EpollKernel K, !PipeKernel K}.

Definition new (breaker : SocketBreaker.t) (k : K) : t * K :=
  let '(epfd, k) := epoll_create k in
  (ReadEvent (mk epfd [] [] 0) (SocketBreaker.BreakerFd breaker) true, k).

Definition delete (p : t) (k : K) : K := epoll_close (_epfd p) k.

(** The loop over epoll_ctl; its results are not looked at. *)
Fixpoint add_all (epfd : Z) (l : list epoll_event) (k : K) : K :=
  match l with
  | [] => k
  | e :: l => let '(_, k) := epoll_ctl_add epfd e k in add_all epfd l k
  end.

(** Poll is in three parts, between which other threads can call Break on the breaker:
    up to epoll_wait, of which the result is the timeout in milliseconds; epoll_wait, at
    the moment at which it returns, and what is done with its result; the reset of the
    breaker. *)
Definition Poll_start (p : t) (timeout : Z) (k : K) : checked (Z * K) :=
  timeout ← poll_timeout timeout;
  mret (timeout, add_all (_epfd p) (_events p) k).

Definition Poll_wait (p : t) (timeout : Z) (k : K) : Z * t * K :=
  let eventNum := size (_events p) in
  let '(ret, retEvents, errno, k) := epoll_wait (_epfd p) eventNum timeout k in
  if ret <? 0 then (ret, mk (_epfd p) (_events p) [] errno, k)
  else if ret =? 0 then (ret, mk (_epfd p) (_events p) [] 0, k)
  else (ret, mk (_epfd p) (_events p) (take (Z.to_nat ret) retEvents) 0, k).

Definition Poll (p : t) (timeout : Z) (_breaker : SocketBreaker.t) (k : K)
    : checked (Z * t * SocketBreaker.t * K) :=
  '(timeout, k) ← Poll_start p timeout k;
  let '(ret, p, k) := Poll_wait p timeout k in
  let '(_, _breaker, k) := SocketBreaker.Clear _breaker k in
  mret (ret, p, _breaker, k).

(** The overload without argument. *)
Definition Poll_forever (p : t) (_breaker : SocketBreaker.t) (k : K)
    : checked (Z * t * SocketBreaker.t * K) := Poll p (-1) _breaker k.

End epoll.

Definition first_is (test : epoll_event → bool) (f : Z) (p : t) : bool :=
  match List.find (is_fd f) (_pollEvents p) with Some e => test e | None => false end.

Definition ReadFdIsSet (p : t) (f : Z) : bool := first_is (λ e, Readable e || HangUp e) f p.
Definition WriteFdIsSet (p : t) (f : Z) : bool := first_is Writable f p.
Definition ExceptionFdIsSet (p : t) (f : Z) : bool := first_is Error f p.

Definition BreakerIsError (_breaker : SocketBreaker.t) (p : t) : bool :=
  ExceptionFdIsSet p (SocketBreaker.BreakerFd _breaker).
Definition BreakerIsBreak (_breaker : SocketBreaker.t) (p : t) : bool :=
  ReadFdIsSet p (SocketBreaker.BreakerFd _breaker).

End SocketEpoll.

(** ** class SocketKqueue *)
Module SocketKqueue.

Definition EVFILT_READ : Z := -1.
Definition EVFILT_WRITE : Z := -2.
Definition EV_ADD : Z := 1.
Definition EV_DELETE : Z := 2.
Definition EV_ENABLE : Z := 4.
Definition EV_ERROR : Z := 16384.
Definition EV_EOF : Z := 32768.

(** [fflags] and [data] are 0. *)
Record kevent : Set := mkKevent { ident : Z; filter : Z; flags : Z; udata : Z }.

(** [kevent_call] gives the return value, the events stored, and [errno]; the
    timeout is none, or seconds and nanoseconds. *)
Class KqueueKernel (K : Type) := {
  kqueue : K → Z * K;
  kqueue_close : Z → K → K;                    (* close(2) *)
  kevent_call : Z → list kevent → Z → option (Z * Z) → K → Z * list kevent * Z * K;
}.

(** class KqueueEvent *)
Definition Readable (e : kevent) : bool := filter e =? EVFILT_READ.
Definition Writable (e : kevent) : bool := filter e =? EVFILT_WRITE.
Definition Error (e : kevent) : bool := negb (flags e .& EV_ERROR =? 0).
Definition Invalid (e : kevent) : bool := negb (flags e .& EV_EOF =? 0).
Definition FD (e : kevent) : Z := i32 (udata e).

Record t : Set := mk {
  _kq : Z;
  _events : list kevent;
  _pollEvents : list kevent;
  _errno : Z;
}.

Definition is_event (f flt : Z) (e : kevent) : bool := (i32 (udata e) =? f) && (filter e =? flt).

(** The two functions differ in the filter. *)
Definition set_filter (flt : Z) (p : t) (f : Z) (active : bool) : t :=
  let added := mkKevent f flt (EV_ADD .| EV_ENABLE) f in
  mk (_kq p)
     (if existsb (is_event f flt) (_events p) then
        update_first (is_event f flt)
          (λ _, if active then added else mkKevent f flt EV_DELETE f) (_events p)
      else _events p ++ (if active then [added] else []))
     (_pollEvents p) (_errno p).

Definition ReadEvent : t → Z → bool → t := set_filter EVFILT_READ.
Definition WriteEvent : t → Z → bool → t := set_filter EVFILT_WRITE.
Definition ErrorEvent (p : t) (f : Z) (active : bool) : t := p.

Definition ClearEvent (p : t) : t := mk (_kq p) (take 1 (_events p)) (_pollEvents p) (_errno p).

Section kqueue.
Context {K : Type} `{!KqueueKernel K, !PipeKernel K}.

Definition new (breaker : SocketBreaker.t) (k : K) : t * K :=
  let '(kq, k) := kqueue k in
  (ReadEvent (mk kq [] [] 0) (SocketBreaker.BreakerFd breaker) true, k).

Definition delete (p : t) (k : K) : K := kqueue_close (_kq p) k.

Definition Poll_wait (p : t) (timeout : Z) (k : K) : checked (Z * t * K) :=
  timeout ← poll_timeout timeout;
  let timeSpec := (Z.quot timeout 1000, Z.rem timeout 1000 * 1000 * 1000) in
  let pTimeSpec := if timeout =? -1 then None else Some timeSpec in
  let eventNum := size (_events p) in
  let '(ret, retEvents, errno, k) := kevent_call (_kq p) (_events p) eventNum pTimeSpec k in
  mret (if ret <? 0 then (ret, mk (_kq p) (_events p) [] errno, k)
        else if ret =? 0 then (ret, mk (_kq p) (_events p) [] 0, k)
        else (ret, mk (_kq p) (_events p) (take (Z.to_nat ret) retEvents) 0, k)).

Definition Poll (p : t) (timeout : Z) (_breaker : SocketBreaker.t) (k : K)
    : checked (Z * t * SocketBreaker.t * K) :=
  '(ret, p, k) ← Poll_wait p timeout k;
  let '(_, _breaker, k) := SocketBreaker.Clear _breaker k in
  mret (ret, p, _breaker, k).

(** The overload without argument. *)
Definition Poll_forever (p : t) (_breaker : SocketBreaker.t) (k : K)
    : checked (Z * t * SocketBreaker.t * K) := Poll p (-1) _breaker k.

End kqueue.

Definition ReadFdIsSet (p : t) (f : Z) : bool :=
  existsb (λ e, (FD e =? f) && negb (Error e) && negb (Invalid e) && Readable e) (_pollEvents p).
Definition WriteFdIsSet (p : t) (f : Z) : bool :=
  existsb (λ e, (FD e =? f) && negb (Error e) && negb (Invalid e) && Writable e) (_pollEvents p).
Definition ExceptionFdIsSet (p : t) (f : Z) : bool :=
  match List.find (λ e, FD e =? f) (_pollEvents p) with
  | Some e => Error e || Invalid e
  | None => false
  end.

Definition BreakerIsError (_breaker : SocketBreaker.t) (p : t) : bool :=
  ExceptionFdIsSet p (SocketBreaker.BreakerFd _breaker).
Definition BreakerIsBreak (_breaker : SocketBreaker.t) (p : t) : bool :=
  ReadFdIsSet p (SocketBreaker.BreakerFd _breaker).

End SocketKqueue.

(** ** The three implementations *)

Section instances.
Context {K : Type} `{!PipeKernel K}.

#[export] Instance SocketPoll_base `{!SocketPoll.PollKernel K} : SocketPollBase SocketPoll.t K := {|
  poll_new b k := (SocketPoll.new b, k);
  poll_delete p k := k;
  ReadEvent := SocketPoll.ReadEvent;
  WriteEvent := SocketPoll.WriteEvent;
  ErrorEvent := SocketPoll.ErrorEvent;
  ClearEvent := SocketPoll.ClearEvent;
  Poll := SocketPoll.Poll;
  ReadFdIsSet := SocketPoll.ReadFdIsSet;
  WriteFdIsSet := SocketPoll.WriteFdIsSet;
  ExceptionFdIsSet := SocketPoll.ExceptionFdIsSet;
  BreakerIsError _ := SocketPoll.BreakerIsError;
  BreakerIsBreak _ := SocketPoll.BreakerIsBreak;
  GetErrno := SocketPoll._errno;
|}.

#[export] Instance SocketEpoll_base `{!SocketEpoll.EpollKernel K} : SocketPollBase SocketEpoll.t K := {|
  poll_new := SocketEpoll.new;
  poll_delete := SocketEpoll.delete;
  ReadEvent := SocketEpoll.ReadEvent;
  WriteEvent := SocketEpoll.WriteEvent;
  ErrorEvent := SocketEpoll.ErrorEvent;
  ClearEvent := SocketEpoll.ClearEvent;
  Poll := SocketEpoll.Poll;
  ReadFdIsSet := SocketEpoll.ReadFdIsSet;
  WriteFdIsSet := SocketEpoll.WriteFdIsSet;
  ExceptionFdIsSet := SocketEpoll.ExceptionFdIsSet;
  BreakerIsError := SocketEpoll.BreakerIsError;
  BreakerIsBreak := SocketEpoll.BreakerIsBreak;
  GetErrno := SocketEpoll._errno;
|}.

#[export] Instance SocketKqueue_base `{!SocketKqueue.KqueueKernel K} : SocketPollBase SocketKqueue.t K := {|
  poll_new := SocketKqueue.new;
  poll_delete := SocketKqueue.delete;
  ReadEvent := SocketKqueue.ReadEvent;
  WriteEvent := SocketKqueue.WriteEvent;
  ErrorEvent := SocketKqueue.ErrorEvent;
  ClearEvent := SocketKqueue.ClearEvent;
  Poll := SocketKqueue.Poll;
  ReadFdIsSet := SocketKqueue.ReadFdIsSet;
  WriteFdIsSet := SocketKqueue.WriteFdIsSet;
  ExceptionFdIsSet := SocketKqueue.ExceptionFdIsSet;
  BreakerIsError := SocketKqueue.BreakerIsError;
  BreakerIsBreak := SocketKqueue.BreakerIsBreak;
  GetErrno := SocketKqueue._errno;
|}.

End instances.

(** ** class SocketSelect

    [P] is the class of [_socketPoll]: SocketKqueue on Apple systems, SocketEpoll
    on the others. *)
Module SocketSelect.
Section select.
Context {P K : Type} `{!SocketPollBase P K}.

Definition new (breaker : SocketBreaker.t) (k : K) : P * K := poll_new breaker k.
Definition delete (p : P) (k : K) : K := poll_delete p k.

Definition PreSelect (p : P) : P := ClearEvent (K:=K) p.

Definition Select (timeout : Z) (p : P) (breaker : SocketBreaker.t) (k : K)
    : checked (Z * P * SocketBreaker.t * K) := Poll p timeout breaker k.

(** The overload without argument. *)
Definition Select_forever (p : P) (breaker : SocketBreaker.t) (k : K)
    : checked (Z * P * SocketBreaker.t * K) := Select (-1) p breaker k.

Definition ReadFdSet (socket : Z) (p : P) : P := ReadEvent (K:=K) p socket true.
Definition WriteFdSet (socket : Z) (p : P) : P := WriteEvent (K:=K) p socket true.
Definition ExceptionFdSet (socket : Z) (p : P) : P := ErrorEvent (K:=K) p socket true.

Definition ReadFdIsSet (socket : Z) (p : P) : bool := ReadFdIsSet (K:=K) p socket.
Definition WriteFdIsSet (socket : Z) (p : P) : bool := WriteFdIsSet (K:=K) p socket.
Definition ExceptionFdIsSet (socket : Z) (p : P) : bool := ExceptionFdIsSet (K:=K) p socket.

Definition IsBreak (breaker : SocketBreaker.t) (p : P) : bool := BreakerIsBreak (K:=K) breaker p.
Definition IsException (breaker : SocketBreaker.t) (p : P) : bool := BreakerIsError (K:=K) breaker p.
Definition GetErrno (p : P) : Z := GetErrno (K:=K) p.

End select.
End SocketSelect.
