(* ===== verification/PollProps.v ===== *)
(** * PollProps: what SocketSelect promises, for each of its implementations

    [PollInterest] is the contract of the registration functions: a set of
    descriptors to be read and a set to be written, besides the breaker.  The three
    classes of Poll.v keep it.  The second part, on epoll, is about the breaker and
    other threads that raise it during a Poll ([polls]): when a signal is reported, and
    when it is lost. *)
From S2P Require Import Prelude SocketBreaker Poll.

(** ** Registration *)

Lemma update_first_fmap {E A} (sel : E → bool) upd (f : E → A) l :
  (∀ e, f (upd e) = f e) → f <$> update_first sel upd l = f <$> l.
Proof.
  intros Hf. induction l as [|e l IH]; simpl; [done|].
  destruct (sel e); csimpl; by rewrite ?Hf, ?IH.
Qed.

Lemma find_update_first {E} (sel : E → bool) upd l :
  (∀ e, sel (upd e) = sel e) →
  List.find sel (update_first sel upd l) = upd <$> List.find sel l.
Proof.
  intros Hs. induction l as [|e l IH]; simpl; [done|].
  destruct (sel e) eqn:He; simpl; by rewrite ?Hs, ?He, ?IH.
Qed.

Lemma find_update_other {E} (sel sel' : E → bool) upd l :
  (∀ e, sel' e = true → sel e = false) → (∀ e, sel e = true → sel' (upd e) = false) →
  List.find sel' (update_first sel upd l) = List.find sel' l.
Proof.
  intros H1 H2. induction l as [|e l IH]; simpl; [done|].
  destruct (sel e) eqn:He; simpl.
  - rewrite (H2 e He). destruct (sel' e) eqn:He'; [|done]. apply H1 in He'. congruence.
  - by rewrite IH.
Qed.

Lemma find_app {E} (sel : E → bool) l1 l2 :
  List.find sel (l1 ++ l2) =
  match List.find sel l1 with Some e => Some e | None => List.find sel l2 end.
Proof. induction l1 as [|e l1 IH]; simpl; [done|]. by destruct (sel e). Qed.

Lemma find_existsb {E} (sel : E → bool) l :
  existsb sel l = match List.find sel l with Some _ => true | None => false end.
Proof. induction l as [|e l IH]; simpl; [done|]. by destruct (sel e). Qed.

(** What is watched on each descriptor: reading, and writing. *)
Definition interest : Type := Z → bool * bool.

Definition only_breaker (b : Z) : interest := λ f, (f =? b, false).

(** [keeps b p w]: [p] watches the breaker [b], first, and else what [w] says. *)
Class PollInterest (P K : Type) `{!SocketPollBase P K} := {
  keeps : Z → P → interest → Prop;
  keeps_ext b p w w' : keeps b p w → (∀ f, w f = w' f) → keeps b p w';
  keeps_new breaker k :
    - 2 ^ 31 ≤ SocketBreaker.BreakerFd breaker < 2 ^ 31 →
    keeps (SocketBreaker.BreakerFd breaker) (fst (poll_new breaker k))
          (only_breaker (SocketBreaker.BreakerFd breaker));
  keeps_read b p w f a :
    keeps b p w → f ≠ b → - 2 ^ 31 ≤ f < 2 ^ 31 →
    keeps b (ReadEvent (K:=K) p f a) (λ g, if g =? f then (a, snd (w f)) else w g);
  keeps_write b p w f a :
    keeps b p w → f ≠ b → - 2 ^ 31 ≤ f < 2 ^ 31 →
    keeps b (WriteEvent (K:=K) p f a) (λ g, if g =? f then (fst (w f), a) else w g);
  keeps_error b p w f a : keeps b p w → f ≠ b → keeps b (ErrorEvent (K:=K) p f a) w;
  keeps_clear b p w : keeps b p w → keeps b (ClearEvent (K:=K) p) (only_breaker b);
}.

(** A flag of a mask is a bit. *)
Lemma flag_testbit m i : 0 ≤ i → negb (m .& 2 ^ i =? 0) = Z.testbit m i.
Proof.
  intros Hi. destruct (Z.testbit m i) eqn:Hb.
  - destruct (Z.eqb_spec (m .& 2 ^ i) 0) as [E|]; [|done].
    apply (f_equal (λ x, Z.testbit x i)) in E.
    by rewrite Z.land_spec, Hb, Z.pow2_bits_true, Z.bits_0 in E.
  - destruct (Z.eqb_spec (m .& 2 ^ i) 0) as [|E]; [done|]. destruct E.
    apply Z.bits_inj'. intros j Hj. rewrite Z.land_spec, Z.pow2_bits_eqb, Z.bits_0 by done.
    destruct (Z.eqb_spec i j) as [<-|]; [by rewrite Hb|apply andb_false_r].
Qed.

Lemma testbit_set m i j a : 0 ≤ i → 0 ≤ j →
  Z.testbit (if (a : bool) then m .| 2 ^ i else m .& Z.lnot (2 ^ i)) j =
  if j =? i then a else Z.testbit m j.
Proof.
  intros Hi Hj. destruct a.
  - rewrite Z.lor_spec, Z.pow2_bits_eqb, (Z.eqb_sym i) by done.
    destruct (Z.eqb_spec j i); by rewrite ?orb_true_r, ?orb_false_r.
  - rewrite Z.land_spec, Z.lnot_spec, Z.pow2_bits_eqb, (Z.eqb_sym i) by done.
    destruct (Z.eqb_spec j i); by rewrite ?andb_false_r, ?andb_true_r.
Qed.

(** *** Lists of descriptors with a mask: SocketPoll and SocketEpoll *)
Section masks.
Context {E : Type} (fd events : E → Z) (upd : (Z → Z) → E → E).
Context (fd_upd : ∀ g e, fd (upd g e) = fd e) (events_upd : ∀ g e, events (upd g e) = g (events e)).

Let is_fd (f : Z) (e : E) : bool := fd e =? f.

Definition mask (l : list E) (f : Z) : Z :=
  match List.find (is_fd f) l with Some e => events e | None => 0 end.

Definition change (g : Z → Z) (f : Z) (e0 : E) (l : list E) : list E :=
  if existsb (is_fd f) l then update_first (is_fd f) (upd g) l else l ++ [e0].

Lemma mask_change g f e0 l h :
  fd e0 = f → events e0 = g 0 →
  mask (change g f e0 l) h = if h =? f then g (mask l f) else mask l h.
Proof.
  intros Hf Hg. unfold change, mask. rewrite find_existsb.
  assert (Hsel : ∀ e, is_fd f (upd g e) = is_fd f e) by (intros; unfold is_fd; by rewrite fd_upd).
  destruct (Z.eqb_spec h f) as [->|Hne].
  - destruct (List.find (is_fd f) l) as [e|] eqn:He.
    + rewrite find_update_first, He by done. simpl. apply events_upd.
    + rewrite find_app, He. simpl. unfold is_fd. by rewrite Hf, Z.eqb_refl.
  - destruct (List.find (is_fd f) l) as [e|] eqn:He.
    + rewrite find_update_other; [done| |]; unfold is_fd.
      * intros x Hx%Z.eqb_eq. by apply Z.eqb_neq; lia.
      * intros x Hx%Z.eqb_eq. rewrite fd_upd. by apply Z.eqb_neq; lia.
    + rewrite find_app. simpl. unfold is_fd at 2. rewrite Hf.
      rewrite (proj2 (Z.eqb_neq f h)) by lia. by destruct (List.find (is_fd h) l).
Qed.

Definition keeps_masks (b : Z) (l : list E) (w : interest) : Prop :=
  (∃ e l', l = e :: l' ∧ fd e = b ∧ events e = 1) ∧ NoDup (fd <$> l) ∧
  ∀ f, w f = (Z.testbit (mask l f) 0, Z.testbit (mask l f) 2).

Lemma keeps_masks_ext b l w w' :
  keeps_masks b l w → (∀ f, w f = w' f) → keeps_masks b l w'.
Proof. intros (He & Hn & Hw) Hext. split_and!; [done..|]. intros f. by rewrite <-Hext. Qed.

Lemma keeps_masks_change g f e0 b l w :
  fd e0 = f → events e0 = g 0 → f ≠ b → keeps_masks b l w →
  keeps_masks b (change g f e0 l)
    (λ h, if h =? f then (Z.testbit (g (mask l f)) 0, Z.testbit (g (mask l f)) 2) else w h).
Proof.
  intros Hf Hg Hb ((e & l' & -> & He & Hm) & Hn & Hw). split_and!.
  - unfold change. destruct (existsb _ _); simpl; [|by eexists _, _].
    unfold is_fd at 1. rewrite He, (proj2 (Z.eqb_neq b f)) by lia. by eexists _, _.
  - unfold change. rewrite find_existsb.
    destruct (List.find _ _) as [x|] eqn:Hx.
    + by rewrite update_first_fmap.
    + rewrite fmap_app. apply NoDup_app. split_and!; [done| |apply NoDup_singleton].
      intros x (y & -> & Hy)%list_elem_of_fmap Hin%list_elem_of_singleton. simpl in Hin.
      apply list_elem_of_In in Hy. pose proof (List.find_none _ _ Hx y Hy) as Hxy.
      apply Z.eqb_neq in Hxy. congruence.
  - intros h. rewrite mask_change by done. destruct (h =? f); [done|apply Hw].
Qed.

Lemma keeps_masks_clear b l w : keeps_masks b l w → keeps_masks b (take 1 l) (only_breaker b).
Proof.
  intros ((e & l' & -> & He & Hm) & Hn & Hw). simpl. split_and!; [by eexists _, _| |].
  - apply NoDup_singleton.
  - intros f. unfold only_breaker, mask. simpl. unfold is_fd. rewrite He, Z.eqb_sym.
    destruct (b =? f); [by rewrite Hm|done].
Qed.

Lemma keeps_masks_new b e : fd e = b → events e = 1 → keeps_masks b [e] (only_breaker b).
Proof.
  intros He Hm. split_and!; [by eexists _, _|apply NoDup_singleton|].
  intros f. unfold only_breaker, mask. simpl. unfold is_fd. rewrite He, Z.eqb_sym.
  destruct (b =? f); [by rewrite Hm|done].
Qed.

End masks.

Section instances.
Context {K : Type} `{!PipeKernel K}.

#[export] Program Instance SocketEpoll_interest `{!SocketEpoll.EpollKernel K} :
    PollInterest SocketEpoll.t K := {|
  keeps b p w := keeps_masks SocketEpoll.fd SocketEpoll.events b (SocketEpoll._events p) w;
|}.
Next Obligation. intros ? b p w w' Hk Hw. eapply keeps_masks_ext; [exact Hk|exact Hw]. Qed.
Next Obligation.
  intros ? breaker k _. simpl. unfold SocketEpoll.new.
  destruct (SocketEpoll.epoll_create k) as [e k']. simpl. by apply keeps_masks_new.
Qed.
Next Obligation.
  intros ? b p w f a Hk Hf _. simpl. eapply keeps_masks_ext.
  - apply (keeps_masks_change _ _ SocketEpoll.set_events) with
      (g := λ m, if a then m .| 2 ^ 0 else m .& Z.lnot (2 ^ 0)); [done|done|done| |done|exact Hk].
    by destruct a.
  - intros g. cbv beta. destruct Hk as (_ & _ & Hw). rewrite !testbit_set by done. simpl.
    destruct (g =? f); [by rewrite (Hw f)|done].
Qed.
Next Obligation.
  intros ? b p w f a Hk Hf _. simpl. eapply keeps_masks_ext.
  - apply (keeps_masks_change _ _ SocketEpoll.set_events) with
      (g := λ m, if a then m .| 2 ^ 2 else m .& Z.lnot (2 ^ 2)); [done|done|done| |done|exact Hk].
    by destruct a.
  - intros g. cbv beta. destruct Hk as (_ & _ & Hw). rewrite !testbit_set by done. simpl.
    destruct (g =? f); [by rewrite (Hw f)|done].
Qed.
Next Obligation.
  intros ? b p w f a Hk Hf. simpl. eapply keeps_masks_ext.
  - apply (keeps_masks_change _ _ SocketEpoll.set_events) with
      (g := λ m, if a then m .| 2 ^ 3 else m .& Z.lnot (2 ^ 3)); [done|done|done| |done|exact Hk].
    by destruct a.
  - intros g. cbv beta. destruct Hk as (_ & _ & Hw). rewrite !testbit_set by done. simpl.
    destruct (Z.eqb_spec g f) as [->|]; [by rewrite (Hw f)|done].
Qed.
Next Obligation. intros ? b p w Hk. eapply keeps_masks_clear, Hk. Qed.

(** SocketPoll adds an element where it is missing. *)
Lemma SocketPoll_change p f g (r w e : bool) :
  let new := SocketPoll.mkPollfd f
    (((0 .| (if r then SocketPoll.POLLIN else 0)) .| (if w then SocketPoll.POLLOUT else 0)) .|
     (if e then SocketPoll.POLLERR .| SocketPoll.POLLNVAL else 0)) 0 in
  SocketPoll._events
    (if existsb (SocketPoll.is_fd f) (SocketPoll._events p) then
       SocketPoll.mk (update_first (SocketPoll.is_fd f) (SocketPoll.set_events g)
         (SocketPoll._events p)) (SocketPoll._pollEvents p) (SocketPoll._errno p)
     else SocketPoll.__AddEvent p f r w e) =
  change SocketPoll.fd SocketPoll.set_events g f new (SocketPoll._events p).
Proof.
  simpl. unfold SocketPoll.__AddEvent, change, SocketPoll.is_fd.
  by destruct (existsb _ (SocketPoll._events p)).
Qed.

#[export] Program Instance SocketPoll_interest `{!SocketPoll.PollKernel K} :
    PollInterest SocketPoll.t K := {|
  keeps b p w := keeps_masks SocketPoll.fd SocketPoll.events b (SocketPoll._events p) w;
|}.
Next Obligation. intros ? b p w w' Hk Hw. eapply keeps_masks_ext; [exact Hk|exact Hw]. Qed.
Next Obligation. intros ? breaker k _. by apply keeps_masks_new. Qed.
Next Obligation.
  intros ? b p w f a Hk Hf _. simpl. eapply keeps_masks_ext.
  - unfold SocketPoll.ReadEvent. rewrite SocketPoll_change.
    apply (keeps_masks_change _ _ SocketPoll.set_events) with
      (g := λ m, if a then m .| 2 ^ 0 else m .& Z.lnot (2 ^ 0)); [done|done|done| |done|exact Hk].
    by destruct a.
  - intros g. cbv beta. destruct Hk as (_ & _ & Hw). rewrite !testbit_set by done. simpl.
    destruct (g =? f); [by rewrite (Hw f)|done].
Qed.
Next Obligation.
  intros ? b p w f a Hk Hf _. simpl. eapply keeps_masks_ext.
  - unfold SocketPoll.WriteEvent. rewrite SocketPoll_change.
    apply (keeps_masks_change _ _ SocketPoll.set_events) with
      (g := λ m, if a then m .| 2 ^ 2 else m .& Z.lnot (2 ^ 2)); [done|done|done| |done|exact Hk].
    by destruct a.
  - intros g. cbv beta. destruct Hk as (_ & _ & Hw). rewrite !testbit_set by done. simpl.
    destruct (g =? f); [by rewrite (Hw f)|done].
Qed.
Next Obligation.
  intros ? b p w f a Hk Hf. simpl. eapply keeps_masks_ext.
  - unfold SocketPoll.ErrorEvent. rewrite SocketPoll_change.
    apply (keeps_masks_change _ _ SocketPoll.set_events) with
      (g := λ m, if a then (m .| 2 ^ 3) .| 2 ^ 5 else (m .& Z.lnot (2 ^ 3)) .& Z.lnot (2 ^ 5));
      [done|done|done| |done|exact Hk].
    by destruct a.
  - intros g. cbv beta. destruct Hk as (_ & _ & Hw).
    assert (∀ m i, i = 0 ∨ i = 2 →
      Z.testbit (if a then (m .| 2 ^ 3) .| 2 ^ 5 else (m .& Z.lnot (2 ^ 3)) .& Z.lnot (2 ^ 5)) i
      = Z.testbit m i) as Hbit.
    { intros m i Hi.
      assert (Z.testbit (2 ^ 3) i = false ∧ Z.testbit (2 ^ 5) i = false) as [H3 H5]
        by (by destruct Hi as [-> | ->]).
      assert (0 ≤ i) by (by destruct Hi as [-> | ->]).
      destruct a; rewrite ?Z.lor_spec, ?Z.land_spec, ?Z.lnot_spec, ?H3, ?H5 by done.
      - by rewrite !orb_false_r.
      - by rewrite !andb_true_r. }
    rewrite !Hbit by tauto.
    destruct (Z.eqb_spec g f) as [->|]; [by rewrite (Hw f)|done].
Qed.
Next Obligation. intros ? b p w Hk. eapply keeps_masks_clear, Hk. Qed.

(** *** Kqueue: one element for each descriptor and filter *)

Definition listed (l : list SocketKqueue.kevent) (f flt : Z) : bool :=
  match List.find (SocketKqueue.is_event f flt) l with
  | Some e => negb (SocketKqueue.flags e .& SocketKqueue.EV_ADD =? 0)
  | None => false
  end.

Definition keeps_kevents (b : Z) (l : list SocketKqueue.kevent) (w : interest) : Prop :=
  (- 2 ^ 31 ≤ b < 2 ^ 31) ∧ (∃ l', l = SocketKqueue.mkKevent b SocketKqueue.EVFILT_READ 5 b :: l') ∧
  ∀ f, w f = (listed l f SocketKqueue.EVFILT_READ, listed l f SocketKqueue.EVFILT_WRITE).

Lemma listed_set_filter p f flt a g flt' :
  - 2 ^ 31 ≤ f < 2 ^ 31 →
  listed (SocketKqueue._events (SocketKqueue.set_filter flt p f a)) g flt' =
  if (g =? f) && (flt' =? flt) then a else listed (SocketKqueue._events p) g flt'.
Proof.
  intros Hf. unfold SocketKqueue.set_filter, listed. simpl. rewrite find_existsb.
  assert (Hself : ∀ fl, SocketKqueue.is_event f flt (SocketKqueue.mkKevent f flt fl f) = true).
  { intros fl. unfold SocketKqueue.is_event. simpl. by rewrite i32_small, !Z.eqb_refl. }
  assert (Hother : ∀ fl, (g =? f) && (flt' =? flt) = false →
            SocketKqueue.is_event g flt' (SocketKqueue.mkKevent f flt fl f) = false).
  { intros fl. unfold SocketKqueue.is_event. simpl. rewrite i32_small by done.
    by rewrite (Z.eqb_sym f), (Z.eqb_sym flt). }
  assert (Hsplit : ∀ e, (g =? f) && (flt' =? flt) = false → SocketKqueue.is_event g flt' e = true →
            SocketKqueue.is_event f flt e = false).
  { intros e Hne He. unfold SocketKqueue.is_event in *. apply andb_true_iff in He as [He1 He2].
    apply Z.eqb_eq in He1, He2. rewrite He1, He2. done. }
  destruct ((g =? f) && (flt' =? flt)) eqn:Hgf.
  - apply andb_true_iff in Hgf as [->%Z.eqb_eq ->%Z.eqb_eq].
    destruct (List.find (SocketKqueue.is_event f flt) (SocketKqueue._events p)) as [e|] eqn:He.
    + clear Hother Hsplit. revert He.
      induction (SocketKqueue._events p) as [|x l IH]; simpl; [done|].
      destruct (SocketKqueue.is_event f flt x) eqn:Hx.
      * intros _. simpl. destruct a; by rewrite Hself.
      * simpl. rewrite Hx. apply IH.
    + rewrite find_app, He. destruct a; simpl; by rewrite ?Hself.
  - destruct (List.find (SocketKqueue.is_event f flt) (SocketKqueue._events p)) as [e|] eqn:He.
    + rewrite find_update_other; [done| |].
      * intros x. by apply Hsplit.
      * intros x _. destruct a; by apply Hother.
    + rewrite find_app. destruct a; simpl; rewrite ?Hother by done;
        by destruct (List.find (SocketKqueue.is_event g flt') (SocketKqueue._events p)).
Qed.

Lemma keeps_kevents_set b p w f flt a :
  keeps_kevents b (SocketKqueue._events p) w → f ≠ b → - 2 ^ 31 ≤ f < 2 ^ 31 →
  keeps_kevents b (SocketKqueue._events (SocketKqueue.set_filter flt p f a))
    (λ g, (if (g =? f) && (SocketKqueue.EVFILT_READ =? flt) then a else fst (w g),
           if (g =? f) && (SocketKqueue.EVFILT_WRITE =? flt) then a else snd (w g))).
Proof.
  intros (Hb & (l' & Hl) & Hw) Hf Hr. split_and!; [lia|lia| |].
  - assert (SocketKqueue.is_event f flt (SocketKqueue.mkKevent b SocketKqueue.EVFILT_READ 5 b) = false)
      as Hnot.
    { unfold SocketKqueue.is_event. simpl. rewrite i32_small by done.
      by rewrite (proj2 (Z.eqb_neq b f)) by lia. }
    unfold SocketKqueue.set_filter. simpl. rewrite Hl. simpl. rewrite Hnot. simpl.
    destruct (existsb _ l'); by eexists.
  - intros g. by rewrite !listed_set_filter, Hw by done.
Qed.

#[export] Program Instance SocketKqueue_interest `{!SocketKqueue.KqueueKernel K} :
    PollInterest SocketKqueue.t K := {|
  keeps b p w := keeps_kevents b (SocketKqueue._events p) w;
|}.
Next Obligation.
  intros ? b p w w' (Hb & Hl & Hw) Hext. split_and!; [lia|lia|done|]. intros f. by rewrite <-Hext.
Qed.
Next Obligation.
  intros ? breaker k Hb. simpl. unfold SocketKqueue.new.
  destruct (SocketKqueue.kqueue k) as [e k']. simpl. split_and!; [lia|lia|by eexists|].
  intros f. unfold only_breaker, listed. simpl. unfold SocketKqueue.is_event. simpl.
  rewrite i32_small, Z.eqb_sym, !andb_true_r, !andb_false_r by done. by destruct (_ =? f).
Qed.
Next Obligation.
  intros ? b p w f a Hk Hf Hr. simpl.
  destruct (keeps_kevents_set b p w f SocketKqueue.EVFILT_READ a Hk Hf Hr) as (Hb & Hl & Hw).
  split_and!; [lia|lia|done|]. intros g. rewrite <-Hw. simpl. rewrite andb_true_r, andb_false_r.
  destruct (Z.eqb_spec g f) as [->|]; [done|by destruct (w g)].
Qed.
Next Obligation.
  intros ? b p w f a Hk Hf Hr. simpl.
  destruct (keeps_kevents_set b p w f SocketKqueue.EVFILT_WRITE a Hk Hf Hr) as (Hb & Hl & Hw).
  split_and!; [lia|lia|done|]. intros g. rewrite <-Hw. simpl. rewrite andb_true_r, andb_false_r.
  destruct (Z.eqb_spec g f) as [->|]; [done|by destruct (w g)].
Qed.
Next Obligation. done. Qed.
Next Obligation.
  intros ? b p w (Hb & (l' & Hl) & Hw). simpl. rewrite Hl. simpl.
  split_and!; [lia|lia|by eexists|]. intros f. unfold only_breaker, listed. simpl.
  unfold SocketKqueue.is_event. simpl.
  rewrite i32_small, Z.eqb_sym, !andb_true_r, !andb_false_r by done. by destruct (_ =? f).
Qed.

End instances.

(** *** Sequences of registrations *)

Inductive reg : Set :=
| SetRead (f : Z) (active : bool)
| SetWrite (f : Z) (active : bool)
| SetError (f : Z) (active : bool)
| Reset.

Definition apply_reg {P K} `{!SocketPollBase P K} (p : P) (r : reg) : P :=
  match r with
  | SetRead f a => ReadEvent (K:=K) p f a
  | SetWrite f a => WriteEvent (K:=K) p f a
  | SetError f a => ErrorEvent (K:=K) p f a
  | Reset => ClearEvent (K:=K) p
  end.

(** The reference: two sets of descriptors. *)
Definition spec_reg (b : Z) (w : interest) (r : reg) : interest :=
  match r with
  | SetRead f a => λ g, if g =? f then (a, snd (w f)) else w g
  | SetWrite f a => λ g, if g =? f then (fst (w f), a) else w g
  | SetError _ _ => w
  | Reset => only_breaker b
  end.

(** The descriptor is an [int] other than that of the breaker. *)
Definition reg_ok (b : Z) (r : reg) : Prop :=
  match r with
  | SetRead f _ | SetWrite f _ | SetError f _ => f ≠ b ∧ - 2 ^ 31 ≤ f < 2 ^ 31
  | Reset => True
  end.

Lemma keeps_regs {P K} `{!SocketPollBase P K, !PollInterest P K} b rs : ∀ (p : P) w,
  Forall (reg_ok b) rs → keeps (K:=K) b p w →
  keeps (K:=K) b (foldl (apply_reg (K:=K)) p rs) (foldl (spec_reg b) w rs).
Proof.
  induction rs as [|r rs IH]; intros p w Hok Hk; [done|].
  apply Forall_cons in Hok as [Hr Hok]. simpl. apply IH; [done|].
  destruct r; simpl in *; [apply keeps_read|apply keeps_write|apply keeps_error|eapply keeps_clear];
    (done || tauto).
Qed.

(** What the three classes hand to the system call: the bits of the mask, which
    have the same values in poll.h and epoll.h, and the filters. *)
Definition poll_interest (p : SocketPoll.t) : interest := λ f,
  let m := mask SocketPoll.fd SocketPoll.events (SocketPoll._events p) f in
  (SocketPoll.has SocketPoll.POLLIN m, SocketPoll.has SocketPoll.POLLOUT m).
Definition epoll_interest (p : SocketEpoll.t) : interest := λ f,
  let m := mask SocketEpoll.fd SocketEpoll.events (SocketEpoll._events p) f in
  (SocketEpoll.has SocketEpoll.EPOLLIN m, SocketEpoll.has SocketEpoll.EPOLLOUT m).
Definition kqueue_interest (p : SocketKqueue.t) : interest := λ f,
  (listed (SocketKqueue._events p) f SocketKqueue.EVFILT_READ,
   listed (SocketKqueue._events p) f SocketKqueue.EVFILT_WRITE).

(** What poll and epoll have besides: the list of descriptors, and the flag for
    errors; kqueue has neither. *)
Definition poll_errors (p : SocketPoll.t) (f : Z) : bool :=
  SocketPoll.has SocketPoll.POLLERR (mask SocketPoll.fd SocketPoll.events (SocketPoll._events p) f).
Definition epoll_errors (p : SocketEpoll.t) (f : Z) : bool :=
  SocketEpoll.has SocketEpoll.EPOLLERR (mask SocketEpoll.fd SocketEpoll.events (SocketEpoll._events p) f).

(** The reference for the flags, and for the lists: descriptors stay in the order in
    which they came. *)
Definition spec_error (err : Z → bool) (r : reg) : Z → bool :=
  match r with
  | SetError f a => λ g, if g =? f then a else err g
  | Reset => λ _, false
  | _ => err
  end.

Definition add_fd (f : Z) (l : list Z) : list Z := if decide (f ∈ l) then l else l ++ [f].
Definition spec_fds (l : list Z) (r : reg) : list Z :=
  match r with
  | SetRead f _ | SetWrite f _ | SetError f _ => add_fd f l
  | Reset => take 1 l
  end.

Definition is_error (r : reg) : bool := match r with SetError _ _ => true | _ => false end.

Section tracks.
Context {E : Type} (fd events : E → Z) (upd : (Z → Z) → E → E).
Context (fd_upd : ∀ g e, fd (upd g e) = fd e) (events_upd : ∀ g e, events (upd g e) = g (events e)).

Definition tracks (l : list E) (fds : list Z) (err : Z → bool) : Prop :=
  fd <$> l = fds ∧ ∀ f, Z.testbit (mask fd events l f) 3 = err f.

Lemma tracks_change g f e0 l fds err :
  fd e0 = f → events e0 = g 0 → tracks l fds err →
  tracks (change fd upd g f e0 l) (add_fd f fds)
    (λ h, if h =? f then Z.testbit (g (mask fd events l f)) 3 else err h).
Proof.
  intros Hf Hg [<- He]. split.
  - unfold change, add_fd. destruct (existsb _ l) eqn:Ex.
    + rewrite update_first_fmap, decide_True; [done| |done].
      apply existsb_exists in Ex as (e & Hin%list_elem_of_In & <-%Z.eqb_eq).
      by apply list_elem_of_fmap_2.
    + rewrite fmap_app, decide_False; [simpl; by rewrite Hf|].
      intros (e & -> & Hin%list_elem_of_In)%list_elem_of_fmap.
      assert (existsb (λ x, fd x =? fd e) l = true) as Hx; [|congruence].
      apply existsb_exists. exists e. split; [done|apply Z.eqb_refl].
  - intros h. rewrite (mask_change fd events upd) by done. by destruct (h =? f).
Qed.

(** The first element watches for reading only. *)
Lemma tracks_clear e l fds err :
  events e = 1 → tracks (e :: l) fds err → tracks [e] (take 1 fds) (λ _, false).
Proof.
  intros He [<- _]. split; [done|]. intros f. unfold mask. simpl. destruct (fd e =? f); [by rewrite He|done].
Qed.

End tracks.

Section track_regs.
Context {K : Type} `{!PipeKernel K, !SocketPoll.PollKernel K, !SocketEpoll.EpollKernel K}.

(** A change of bit [i] leaves bit 3, or sets it. *)
Lemma testbit_set_3 m i (a : bool) : i = 0 ∨ i = 2 →
  Z.testbit (if a then m .| 2 ^ i else m .& Z.lnot (2 ^ i)) 3 = Z.testbit m 3.
Proof. intros Hi. by destruct Hi as [-> | ->]; rewrite testbit_set. Qed.

Lemma tracks_ext {E} (fd events : E → Z) l fds err err' :
  tracks fd events l fds err → (∀ f, err f = err' f) → tracks fd events l fds err'.
Proof. intros [Hf He] Hext. split; [done|]. intros f. by rewrite He. Qed.

Lemma epoll_tracks b p w fds err r :
  keeps_masks SocketEpoll.fd SocketEpoll.events b (SocketEpoll._events p) w →
  tracks SocketEpoll.fd SocketEpoll.events (SocketEpoll._events p) fds err →
  tracks SocketEpoll.fd SocketEpoll.events (SocketEpoll._events (apply_reg (K:=K) p r))
    (spec_fds fds r) (spec_error err r).
Proof.
  intros ((e & l & El & _ & He) & _) Ht.
  assert (∀ i f a, tracks SocketEpoll.fd SocketEpoll.events
    (SocketEpoll._events (SocketEpoll.set_flag (2 ^ i) p f a)) (add_fd f fds)
    (λ h, if h =? f then Z.testbit (if a : bool then mask SocketEpoll.fd SocketEpoll.events (SocketEpoll._events p) f .| 2 ^ i
       else mask SocketEpoll.fd SocketEpoll.events (SocketEpoll._events p) f .& Z.lnot (2 ^ i)) 3 else err h)) as Hset.
  { intros i f a. apply (tracks_change _ _ SocketEpoll.set_events) with
      (g := λ m, if a then m .| 2 ^ i else m .& Z.lnot (2 ^ i)); [done|done|done| |exact Ht].
    destruct a; simpl; [by rewrite Z.lor_0_l|done]. }
  destruct Ht as [Hfds Herr].
  destruct r as [f a|f a|f a|]; simpl.
  - eapply tracks_ext; [exact (Hset 0 f a)|]. intros h. cbv beta. rewrite testbit_set_3 by tauto.
    destruct (Z.eqb_spec h f) as [->|]; [apply Herr|done].
  - eapply tracks_ext; [exact (Hset 2 f a)|]. intros h. cbv beta. rewrite testbit_set_3 by tauto.
    destruct (Z.eqb_spec h f) as [->|]; [apply Herr|done].
  - eapply tracks_ext; [exact (Hset 3 f a)|]. intros h. cbv beta. by rewrite testbit_set.
  - rewrite El. eapply tracks_clear; [exact He|]. split; [by rewrite <-El|]. by rewrite <-El.
Qed.

Lemma poll_tracks b p w fds err r :
  keeps_masks SocketPoll.fd SocketPoll.events b (SocketPoll._events p) w →
  tracks SocketPoll.fd SocketPoll.events (SocketPoll._events p) fds err →
  tracks SocketPoll.fd SocketPoll.events (SocketPoll._events (apply_reg (K:=K) p r))
    (spec_fds fds r) (spec_error err r).
Proof.
  intros ((e & l & El & _ & He) & _) Ht. pose proof Ht as [Hfds Herr].
  destruct r as [f a|f a|f a|]; simpl;
    unfold SocketPoll.ReadEvent, SocketPoll.WriteEvent, SocketPoll.ErrorEvent; rewrite ?SocketPoll_change.
  - eapply tracks_ext.
    + apply (tracks_change _ _ SocketPoll.set_events) with
        (g := λ m, if a then m .| 2 ^ 0 else m .& Z.lnot (2 ^ 0)); [done|done|done| |exact Ht].
      by destruct a.
    + intros h. cbv beta. rewrite testbit_set_3 by tauto. destruct (Z.eqb_spec h f) as [->|]; [apply Herr|done].
  - eapply tracks_ext.
    + apply (tracks_change _ _ SocketPoll.set_events) with
        (g := λ m, if a then m .| 2 ^ 2 else m .& Z.lnot (2 ^ 2)); [done|done|done| |exact Ht].
      by destruct a.
    + intros h. cbv beta. rewrite testbit_set_3 by tauto. destruct (Z.eqb_spec h f) as [->|]; [apply Herr|done].
  - eapply tracks_ext.
    + apply (tracks_change _ _ SocketPoll.set_events) with
        (g := λ m, if a then (m .| 2 ^ 3) .| 2 ^ 5 else (m .& Z.lnot (2 ^ 3)) .& Z.lnot (2 ^ 5));
        [done|done|done| |exact Ht]. by destruct a.
    + intros h. cbv beta. destruct (h =? f); [|done].
      destruct a; rewrite ?Z.lor_spec, ?Z.land_spec, ?Z.lnot_spec by done; simpl.
      * by rewrite orb_true_r.
      * by rewrite andb_false_r.
  - rewrite El. eapply tracks_clear; [exact He|]. split; [by rewrite <-El|]. by rewrite <-El.
Qed.

(** The same along a sequence of registrations, for one of the two. *)
Lemma tracks_regs {P E} (fd events : E → Z) (get : P → list E) `{!SocketPollBase P K, !PollInterest P K}
    (Hkeeps : ∀ b p w, keeps (K:=K) b p w → keeps_masks fd events b (get p) w)
    (Hone : ∀ b p w fds err r, keeps_masks fd events b (get p) w → tracks fd events (get p) fds err →
       tracks fd events (get (apply_reg (K:=K) p r)) (spec_fds fds r) (spec_error err r)) b rs : ∀ (p : P) w fds err,
  Forall (reg_ok b) rs → keeps (K:=K) b p w → tracks fd events (get p) fds err →
  tracks fd events (get (foldl (apply_reg (K:=K)) p rs)) (foldl spec_fds fds rs) (foldl spec_error err rs).
Proof.
  induction rs as [|r rs IH]; intros p w fds err Hok Hk Ht; [done|].
  pose proof (keeps_regs b [r] p w ltac:(by apply Forall_cons in Hok as [? _]; constructor; [|constructor]) Hk) as Hk1.
  apply Forall_cons in Hok as [Hr Hok]. simpl in *. eapply IH; [done|exact Hk1|]. eapply Hone; [by apply Hkeeps|done].
Qed.

Lemma new_tracks_poll breaker (k : K) :
  tracks SocketPoll.fd SocketPoll.events (SocketPoll._events (fst (poll_new breaker k)))
    [SocketBreaker.BreakerFd breaker] (λ _, false).
Proof. split; [done|]. intros f. unfold mask. simpl. by destruct (_ =? f). Qed.

Lemma new_tracks_epoll breaker (k : K) :
  tracks SocketEpoll.fd SocketEpoll.events (SocketEpoll._events (fst (poll_new breaker k)))
    [SocketBreaker.BreakerFd breaker] (λ _, false).
Proof.
  simpl. unfold SocketEpoll.new. destruct (SocketEpoll.epoll_create k). split; [done|].
  intros f. unfold mask. simpl. by destruct (_ =? f).
Qed.

End track_regs.

Lemma kqueue_no_errors {K} `{!PipeKernel K, !SocketKqueue.KqueueKernel K} (p : SocketKqueue.t) rs :
  foldl (apply_reg (K:=K)) p rs = foldl (apply_reg (K:=K)) p (List.filter (λ r, negb (is_error r)) rs).
Proof. revert p. induction rs as [|r rs IH]; intros p; [done|]. destruct r; simpl; apply IH. Qed.

(** C22: the three classes implement the same sets.  Whatever sequence of registrations
    and resets follows the constructor, poll, epoll and kqueue are asked to watch for
    reading and for writing exactly the descriptors of the reference, and the breaker
    is always watched.  Poll and epoll also have the same list of descriptors, each
    once, and the same flags for errors.  Kqueue does not take part in these: for it the
    registrations for errors are nothing, so that a descriptor that is registered only
    for errors is not watched. *)
Theorem registrations_agree {K} `{!PipeKernel K, !SocketPoll.PollKernel K,
    !SocketEpoll.EpollKernel K, !SocketKqueue.KqueueKernel K} breaker (k : K) rs :
  let b := SocketBreaker.BreakerFd breaker in
  - 2 ^ 31 ≤ b < 2 ^ 31 → Forall (reg_ok b) rs →
  let w := foldl (spec_reg b) (only_breaker b) rs in
  let err := foldl spec_error (λ _, false) rs in
  let fds := foldl spec_fds [b] rs in
  let pp := foldl (apply_reg (K:=K)) (fst (poll_new breaker k)) rs in
  let pe := foldl (apply_reg (K:=K)) (fst (poll_new breaker k)) rs in
  let pk := foldl (apply_reg (K:=K)) (fst (poll_new breaker k)) rs in
  (∀ f, poll_interest pp f = w f ∧ epoll_interest pe f = w f ∧ kqueue_interest pk f = w f) ∧
  (∀ f, poll_errors pp f = err f ∧ epoll_errors pe f = err f) ∧
  SocketPoll.fd <$> SocketPoll._events pp = fds ∧ SocketEpoll.fd <$> SocketEpoll._events pe = fds ∧
  NoDup fds ∧
  fst (poll_interest pp b) = true ∧ fst (epoll_interest pe b) = true ∧
  fst (kqueue_interest pk b) = true ∧
  pk = foldl (apply_reg (K:=K)) (fst (poll_new breaker k)) (List.filter (λ r, negb (is_error r)) rs).
Proof.
  intros b Hb Hok w err fds pp pe pk.
  destruct (keeps_regs b rs _ _ Hok (keeps_new (P:=SocketPoll.t) breaker k Hb))
    as ((ep & lp & Ep & Hp1 & Hp2) & Hp3 & Hp).
  pose proof (keeps_regs b rs _ _ Hok (keeps_new (P:=SocketEpoll.t) breaker k Hb)) as (_ & _ & He).
  pose proof (keeps_regs b rs _ _ Hok (keeps_new (P:=SocketKqueue.t) breaker k Hb)) as (_ & _ & Hk).
  pose proof (tracks_regs (P:=SocketPoll.t) (K:=K) SocketPoll.fd SocketPoll.events SocketPoll._events) as Tpoll.
  destruct (Tpoll (λ _ _ _ H, H) poll_tracks b rs _ _ [b] (λ _, false) Hok
    (keeps_new (P:=SocketPoll.t) breaker k Hb) (new_tracks_poll breaker k)) as [Hfp Herrp].
  pose proof (tracks_regs (P:=SocketEpoll.t) (K:=K) SocketEpoll.fd SocketEpoll.events SocketEpoll._events) as Tepoll.
  destruct (Tepoll (λ _ _ _ H, H) epoll_tracks b rs _ _ [b] (λ _, false) Hok
    (keeps_new (P:=SocketEpoll.t) breaker k Hb) (new_tracks_epoll breaker k)) as [Hfe Herre].
  fold pp in Ep, Hp, Hp3, Hfp, Herrp. fold pe in He, Hfe, Herre. fold pk in Hk.
  assert (∀ f, poll_interest pp f = w f) as Hwp.
  { intros f. unfold w. rewrite Hp. unfold poll_interest, SocketPoll.has.
    by rewrite (flag_testbit _ 0), (flag_testbit _ 2). }
  assert (∀ f, epoll_interest pe f = w f) as Hwe.
  { intros f. unfold w. rewrite He. unfold epoll_interest, SocketEpoll.has.
    by rewrite (flag_testbit _ 0), (flag_testbit _ 2). }
  assert (∀ f, kqueue_interest pk f = w f) as Hwk by (intros f; unfold w; by rewrite Hk).
  assert (fst (poll_interest pp b) = true) as Hbp.
  { unfold poll_interest, mask. rewrite Ep. simpl. by rewrite Hp1, Z.eqb_refl, Hp2. }
  split_and!; try done.
  - intros f. unfold poll_errors, epoll_errors, SocketPoll.has, SocketEpoll.has.
    rewrite !(flag_testbit _ 3) by done. split; [apply Herrp|apply Herre].
  - unfold fds. by rewrite <-Hfp.
  - by rewrite Hwe, <-Hwp.
  - by rewrite Hwk, <-Hwp.
  - apply kqueue_no_errors.
Qed.

(** ** Poll returns

    A timeout of less than 2147484 seconds does not overflow. *)
Class PollReturns (P K : Type) `{!SocketPollBase P K} := poll_returns p timeout br (k : K) :
  timeout * 1000 < 2 ^ 31 → ∃ ret (p' : P) br' k', Poll p timeout br k = Ret (ret, p', br', k').

Lemma poll_timeout_returns timeout : timeout * 1000 < 2 ^ 31 → ∃ ms, poll_timeout timeout = Ret ms.
Proof.
  intros Ht. unfold poll_timeout. destruct (0 <? timeout); [|destruct (timeout <? -1); eauto].
  rewrite (proj2 (Z.ltb_lt _ _)) by done. eauto.
Qed.

Section returns.
Context {K : Type} `{!PipeKernel K}.

#[export] Instance SocketPoll_returns `{!SocketPoll.PollKernel K} : PollReturns SocketPoll.t K.
Proof.
  intros p timeout br k (ms & E)%poll_timeout_returns. simpl. unfold SocketPoll.Poll, SocketPoll.Poll_wait.
  rewrite E. simpl. destruct (SocketPoll.poll _ _ _) as [[[ret revs] errno] k1]. simpl.
  destruct (ret <? 0), (ret =? 0); simpl; destruct (SocketBreaker.Clear _ _) as [[? ?] ?]; eauto.
Qed.

#[export] Instance SocketEpoll_returns `{!SocketEpoll.EpollKernel K} : PollReturns SocketEpoll.t K.
Proof.
  intros p timeout br k (ms & E)%poll_timeout_returns. simpl. unfold SocketEpoll.Poll, SocketEpoll.Poll_start.
  rewrite E. simpl. destruct (SocketEpoll.Poll_wait _ _ _) as [[ret p'] k1]. simpl.
  destruct (SocketBreaker.Clear _ _) as [[? ?] ?]; eauto.
Qed.

#[export] Instance SocketKqueue_returns `{!SocketKqueue.KqueueKernel K} : PollReturns SocketKqueue.t K.
Proof.
  intros p timeout br k (ms & E)%poll_timeout_returns. simpl. unfold SocketKqueue.Poll, SocketKqueue.Poll_wait.
  rewrite E. simpl. destruct (SocketKqueue.kevent_call _ _ _ _ _) as [[[ret evs] errno] k1]. simpl.
  destruct (ret <? 0), (ret =? 0); simpl; destruct (SocketBreaker.Clear _ _) as [[? ?] ?]; eauto.
Qed.

End returns.

(** ** The breaker, on epoll

    [registered e k] is the interest list of the epoll instance [e].  The laws are those
    of the manual pages, level-triggered: epoll_ctl may fail for want of memory, and
    epoll_wait reports at most [max] descriptors, but all that are ready if there is
    place for all that are registered. *)
Class EpollLaws (K : Type) `{!PipeKernel K, !PipeLaws K, !SocketEpoll.EpollKernel K} := {
  registered : Z → K → gmap Z Z;
  epoll_create_law k e k' :
    SocketEpoll.epoll_create k = (e, k') → 0 ≤ e →
    registered e k' = ∅ ∧ ∀ r w n, level r w k = Some n → level r w k' = Some n;
  (* EPOLL_CTL_ADD adds its descriptor, if it succeeds; a descriptor cannot be added twice *)
  epoll_ctl_law e ev k :
    ∃ ret k', SocketEpoll.epoll_ctl_add e ev k = (ret, k') ∧
      registered e k' = (if ret =? 0 then <[SocketEpoll.fd ev := SocketEpoll.events ev]> (registered e k)
                         else registered e k) ∧
      ∀ r w n, level r w k = Some n → level r w k' = Some n;
  (* the reading end of an open pipe is ready when there is something to read *)
  epoll_wait_law e max timeout r w n k :
    level r w k = Some n → registered e k !! r = Some SocketEpoll.EPOLLIN →
    Z.of_nat (base.size (registered e k)) ≤ max →
    ∃ ret evs errno k', SocketEpoll.epoll_wait e max timeout k = (ret, evs, errno, k') ∧
      level r w k' = Some n ∧
      (0 ≤ ret →
       List.find (SocketEpoll.is_fd r) (take (Z.to_nat ret) evs) =
       (if 0 <? n then Some (SocketEpoll.mkEvent SocketEpoll.EPOLLIN r) else None) ∧
       (0 < n → 0 < ret));
  (* writing to a pipe registers nothing *)
  epoll_pipe_write e fd bs k ret k' :
    pipe_write fd bs k = (ret, k') → registered e k' = registered e k;
}.

Section epoll.
Context {K : Type} `{!PipeKernel K, !PipeLaws K, !SocketEpoll.EpollKernel K, !EpollLaws K}.

(** *** A Poll with other threads *)

(** A state of the breaker and the world; another thread calls Break. *)
Definition break_step (s s' : SocketBreaker.t * K) : Prop :=
  ∃ b, SocketBreaker.Break (fst s) (snd s) = (b, fst s', snd s').

(** A Poll during which other threads call Break any number of times, before
    epoll_wait returns and between its return and the reset.  [seen] is the breaker when
    epoll_wait returns, [late] the breaker that is reset. *)
Inductive polls (p : SocketEpoll.t) (timeout : Z) (s : SocketBreaker.t * K)
    (seen late : SocketBreaker.t) (ret : Z) (p' : SocketEpoll.t) (s' : SocketBreaker.t * K) : Prop :=
| polls_intro ms k0 k1 k2 k3 b :
    SocketEpoll.Poll_start p timeout (snd s) = Ret (ms, k0) →
    rtc break_step (fst s, k0) (seen, k1) →
    SocketEpoll.Poll_wait p ms k1 = (ret, p', k2) →
    rtc break_step (seen, k2) (late, k3) →
    SocketBreaker.Clear late k3 = (b, fst s', snd s') →
    polls p timeout s seen late ret p' s'.

(** Poll as it is, without other threads. *)
Lemma Poll_polls p timeout br k ret p' br' k' :
  SocketEpoll.Poll p timeout br k = Ret (ret, p', br', k') →
  polls p timeout (br, k) br br ret p' (br', k').
Proof.
  unfold SocketEpoll.Poll. destruct (SocketEpoll.Poll_start p timeout k) as [[ms k0]| | |] eqn:E0; [|done..].
  simpl. destruct (SocketEpoll.Poll_wait p ms k0) as [[ret1 p1] k1] eqn:E1.
  destruct (SocketBreaker.Clear br k1) as [[b br1] k2] eqn:E2. intros [= <- <- <- <-].
  by eapply polls_intro; [exact E0|apply rtc_refl|exact E1|apply rtc_refl|exact E2].
Qed.

(** The state of a SocketSelect before its only Poll: the breaker first, and nothing
    in the kernel yet, which does not refuse the breaker for want of memory. *)
Definition fresh (p : SocketEpoll.t) (s : SocketBreaker.t * K) : Prop :=
  let b := SocketBreaker.BreakerFd (fst s) in
  (∃ w, keeps_masks SocketEpoll.fd SocketEpoll.events b (SocketEpoll._events p) w) ∧
  registered (SocketEpoll._epfd p) (snd s) = ∅ ∧
  fst (SocketEpoll.epoll_ctl_add (SocketEpoll._epfd p)
         (SocketEpoll.mkEvent SocketEpoll.EPOLLIN b) (snd s)) = 0.

(** The constructor gives such a state, and the registrations keep it. *)
Lemma new_fresh breaker k p k' rs :
  SocketEpoll.new breaker k = (p, k') → 0 ≤ SocketEpoll._epfd p →
  - 2 ^ 31 ≤ SocketBreaker.BreakerFd breaker < 2 ^ 31 →
  Forall (reg_ok (SocketBreaker.BreakerFd breaker)) rs →
  fst (SocketEpoll.epoll_ctl_add (SocketEpoll._epfd p)
    (SocketEpoll.mkEvent SocketEpoll.EPOLLIN (SocketBreaker.BreakerFd breaker)) k') = 0 →
  fresh (foldl (apply_reg (K:=K)) p rs) (breaker, k').
Proof.
  intros Ep He Hb Hrs Hctl.
  assert (SocketEpoll._epfd (foldl (apply_reg (K:=K)) p rs) = SocketEpoll._epfd p) as Efd.
  { clear. revert p. induction rs as [|r rs IH]; intros p; [done|]. simpl. rewrite IH. by destruct r. }
  split_and!; simpl; rewrite ?Efd; [|..|done].
  - exists (foldl (spec_reg (SocketBreaker.BreakerFd breaker)) (only_breaker (SocketBreaker.BreakerFd breaker)) rs).
    pose proof (keeps_new (P:=SocketEpoll.t) breaker k Hb) as Hk. simpl in Hk. rewrite Ep in Hk.
    exact (keeps_regs (P:=SocketEpoll.t) (K:=K) _ rs p _ Hrs Hk).
  - unfold SocketEpoll.new in Ep. destruct (SocketEpoll.epoll_create k) as [e k1] eqn:E.
    injection Ep as <- <-. by destruct (epoll_create_law _ _ _ E He).
Qed.

(** *** What Poll does, part by part *)

Lemma add_all_others e l r w n : ∀ k m,
  level r w k = Some n → registered e k !! r = m → Forall (λ ev, SocketEpoll.fd ev ≠ r) l →
  level r w (SocketEpoll.add_all e l k) = Some n ∧ registered e (SocketEpoll.add_all e l k) !! r = m.
Proof.
  induction l as [|ev l IH]; intros k m Hl Hm Hne; simpl; [done|].
  apply Forall_cons in Hne as [Hev Hne].
  destruct (epoll_ctl_law e ev k) as (ret & k' & -> & Hr & Hl').
  apply IH; [by apply Hl'| |done]. rewrite Hr. case_match; [|done]. by rewrite lookup_insert_ne.
Qed.

Lemma add_all_size e l : ∀ k : K,
  (base.size (registered e (SocketEpoll.add_all e l k)) ≤ base.size (registered e k) + length l)%nat.
Proof.
  induction l as [|ev l IH]; intros k; simpl; [lia|].
  destruct (epoll_ctl_law e ev k) as (ret & k' & -> & Hr & _).
  pose proof (IH k') as Hs. rewrite Hr in Hs. revert Hs. case_match; [|lia].
  destruct (registered e k !! SocketEpoll.fd ev) eqn:E.
  - rewrite map_size_insert_Some by done. lia.
  - rewrite map_size_insert_None by done. lia.
Qed.

(** The breaker is in order, and registered. *)
Definition watched (e : Z) (max : Z) (s : SocketBreaker.t * K) : Prop :=
  SocketBreaker.ready (fst s) (snd s) ∧
  registered e (snd s) !! SocketBreaker.BreakerFd (fst s) = Some SocketEpoll.EPOLLIN ∧
  Z.of_nat (base.size (registered e (snd s))) ≤ max.

Lemma Poll_start_watched p timeout br k ms k0 :
  SocketBreaker.ready br k → fresh p (br, k) → SocketEpoll.Poll_start p timeout k = Ret (ms, k0) →
  watched (SocketEpoll._epfd p) (size (SocketEpoll._events p)) (br, k0).
Proof.
  intros Hr ((w & (e & l & El & He & Hm) & Hnd & _) & Hreg & Hctl) E.
  unfold SocketEpoll.Poll_start in E. destruct (poll_timeout timeout); [|done..].
  injection E as _ <-. simpl in He, Hctl, Hreg. pose proof (add_all_size (SocketEpoll._epfd p) (SocketEpoll._events p) k) as Hs.
  rewrite Hreg, map_size_empty in Hs. split_and!; simpl; [..|unfold size; lia];
    rewrite El in *; simpl; apply NoDup_cons in Hnd as [Hni _];
    (assert (e = SocketEpoll.mkEvent SocketEpoll.EPOLLIN (SocketBreaker.BreakerFd br)) as ->
       by (destruct e; simpl in *; by subst));
    destruct (epoll_ctl_law (SocketEpoll._epfd p) (SocketEpoll.mkEvent SocketEpoll.EPOLLIN
                (SocketBreaker.BreakerFd br)) k) as (ret & k1 & E1 & Hr1 & Hl1);
    rewrite E1 in *; simpl in Hctl; subst ret; simpl in Hr1;
    (edestruct (add_all_others (SocketEpoll._epfd p) l) as [Hl2 Hreg2];
      [by apply Hl1, Hr|by rewrite Hr1, lookup_insert, decide_True| |]);
    try done;
    (apply Forall_forall; intros ev Hev Ee; apply Hni; apply (list_elem_of_fmap_2 SocketEpoll.fd) in Hev; rewrite Ee in Hev; exact Hev).
Qed.

Lemma Break_watched e max s s' :
  watched e max s → break_step s s' →
  watched e max s' ∧ SocketBreaker.IsBreak (fst s') = true ∧
  SocketBreaker.BreakerFd (fst s') = SocketBreaker.BreakerFd (fst s).
Proof.
  intros (Hr & Hreg & Hs) [b E]. destruct s as [br k], s' as [br' k']. simpl in *.
  destruct (SocketBreaker.Break_ready _ _ Hr) as (br1 & k1 & E1 & Hr1 & Hup).
  rewrite E in E1. injection E1 as _ <- <-.
  assert (SocketBreaker.BreakerFd br' = SocketBreaker.BreakerFd br ∧
          registered e k' = registered e k) as [Hfd Hk].
  { revert E. unfold SocketBreaker.Break. destruct (SocketBreaker._broken br); [by intros [= _ <- <-]|].
    destruct (pipe_write _ _ _) as [n kw] eqn:Ew. apply (epoll_pipe_write e) in Ew.
    destruct (negb _); by intros [= _ <- <-]. }
  unfold watched. simpl. rewrite Hk, Hfd. by split_and!.
Qed.

Lemma Breaks_watched e max s s' :
  watched e max s → rtc break_step s s' →
  watched e max s' ∧ SocketBreaker.BreakerFd (fst s') = SocketBreaker.BreakerFd (fst s) ∧
  (SocketBreaker.IsBreak (fst s) = true → SocketBreaker.IsBreak (fst s') = true).
Proof.
  intros Hw Hs. induction Hs as [s|s s1 s' H1 _ IH]; [done|].
  destruct (Break_watched _ _ _ _ Hw H1) as (Hw1 & Hup & Hfd).
  destruct (IH Hw1) as (Hw' & Hfd' & Hup'). split; [done|]. split; [congruence|auto].
Qed.

Lemma Clear_fd breaker b br (k k' : K) :
  SocketBreaker.Clear breaker k = (b, br, k') →
  SocketBreaker.BreakerFd br = SocketBreaker.BreakerFd breaker.
Proof.
  unfold SocketBreaker.Clear. destruct (pipe_read _ _ _) as [ret k1].
  destruct (ret <? 0); by intros [= _ <- _].
Qed.

(** Any number of Breaks. *)
Lemma Breaks_ready (s s' : SocketBreaker.t * K) :
  SocketBreaker.ready (fst s) (snd s) → rtc break_step s s' →
  SocketBreaker.ready (fst s') (snd s') ∧
  SocketBreaker.BreakerFd (fst s') = SocketBreaker.BreakerFd (fst s).
Proof.
  intros Hr Hs. induction Hs as [s|s s1 s' [b E] _ IH]; [done|].
  destruct (SocketBreaker.Break_ready _ _ Hr) as (br1 & k1 & E1 & Hr1 & _).
  rewrite E in E1. injection E1 as _ <- <-. destruct (IH Hr1) as [Hr' Hfd]. split; [done|].
  rewrite Hfd. revert E. unfold SocketBreaker.Break.
  destruct (SocketBreaker._broken (fst s)); [by intros [= _ <- _]|].
  destruct (pipe_write _ _ _) as [n kw]. destruct (negb _); by intros [= _ <- _].
Qed.

(** What epoll_wait reports is the state of the breaker when it returns. *)
Lemma Poll_wait_reports p br k ms ret p' k' :
  watched (SocketEpoll._epfd p) (size (SocketEpoll._events p)) (br, k) →
  SocketEpoll.Poll_wait p ms k = (ret, p', k') →
  SocketBreaker.ready br k' ∧
  SocketEpoll.BreakerIsBreak br p' = (0 <=? ret) && SocketBreaker.IsBreak br.
Proof.
  intros (Hr & Hreg & Hs) E. unfold SocketEpoll.Poll_wait in E.
  destruct (epoll_wait_law _ (size (SocketEpoll._events p)) ms _ _ _ _ Hr Hreg Hs)
    as (ret1 & evs & errno & k1 & Ew & Hl & Hw). simpl in Ew. rewrite Ew in E.
  assert (ret1 = ret ∧ k1 = k') as [-> ->].
  { revert E. by destruct (ret1 <? 0), (ret1 =? 0); intros [= -> _ ->]. }
  split; [exact Hl|]. destruct (Z.ltb_spec ret 0) as [Hneg|Hpos].
  { injection E as <-. by rewrite (proj2 (Z.leb_gt 0 ret)). }
  rewrite (proj2 (Z.leb_le 0 ret)) by done. destruct (Hw Hpos) as [Hfind Hev]. simpl.
  destruct (Z.eqb_spec ret 0) as [->|Hne]; injection E as <-.
  - unfold SocketBreaker.IsBreak. simpl in Hev. destruct (SocketBreaker._broken br); [|done].
    specialize (Hev eq_refl). lia.
  - unfold SocketEpoll.BreakerIsBreak, SocketEpoll.ReadFdIsSet, SocketEpoll.first_is. simpl.
    cbn [fst] in Hfind. unfold SocketBreaker.BreakerFd. rewrite Hfind. unfold SocketBreaker.IsBreak.
    by destruct (SocketBreaker._broken br).
Qed.

Lemma polls_reports p timeout s seen late ret p' s' :
  SocketBreaker.ready (fst s) (snd s) → fresh p s → polls p timeout s seen late ret p' s' →
  SocketBreaker.ready (fst s') (snd s') ∧ SocketBreaker.IsBreak (fst s') = false ∧
  (SocketBreaker.IsBreak (fst s) = true → SocketBreaker.IsBreak seen = true) ∧
  SocketEpoll.BreakerIsBreak (fst s') p' = (0 <=? ret) && SocketBreaker.IsBreak seen.
Proof.
  destruct s as [br k], s' as [br' k']. simpl.
  intros Hr Hf [ms k0 k1 k2 k3 b E0 H1 Ew H2 Ec]. simpl in *.
  pose proof (Poll_start_watched _ _ _ _ _ _ Hr Hf E0) as Hw0.
  destruct (Breaks_watched _ _ _ _ Hw0 H1) as (Hw1 & Hfd1 & Hup). simpl in *.
  destruct (Poll_wait_reports _ _ _ _ _ _ _ Hw1 Ew) as [Hr2 Hrep].
  assert (SocketBreaker.ready late k3 ∧ SocketBreaker.BreakerFd late = SocketBreaker.BreakerFd seen)
    as [Hr3 Hfd2] by exact (Breaks_ready (seen, k2) (late, k3) Hr2 H2).
  destruct (SocketBreaker.Clear_ready _ _ Hr3) as (br1 & k4 & E & Hr4 & Hlow).
  rewrite Ec in E. injection E as -> <- <-. split_and!; try done.
  unfold SocketEpoll.BreakerIsBreak in *. by rewrite (Clear_fd _ _ _ _ _ Ec), Hfd2.
Qed.

(** C23: Poll reports the signal of the breaker and takes it down, whatever other
    threads raise it while it waits: unless epoll_wait fails, IsBreak says exactly
    whether the breaker was raised when epoll_wait returned, and it was if it had been
    when Poll began; in any case the breaker is lowered and in order afterwards.  And
    Poll returns. *)
Theorem Poll_takes_signal p timeout (s : SocketBreaker.t * K) :
  SocketBreaker.ready (fst s) (snd s) → fresh p s → timeout * 1000 < 2 ^ 31 →
  (∃ ret p' s', polls p timeout s (fst s) (fst s) ret p' s') ∧
  ∀ seen late ret p' s', polls p timeout s seen late ret p' s' →
    SocketBreaker.ready (fst s') (snd s') ∧ SocketBreaker.IsBreak (fst s') = false ∧
    (SocketBreaker.IsBreak (fst s) = true → SocketBreaker.IsBreak seen = true) ∧
    SocketEpoll.BreakerIsBreak (fst s') p' = (0 <=? ret) && SocketBreaker.IsBreak seen.
Proof.
  intros Hr Hf Ht. split.
  - destruct (poll_returns (P:=SocketEpoll.t) p timeout (fst s) (snd s) Ht) as (ret & p' & br & k & E).
    destruct s. exists ret, p', (br, k). by apply Poll_polls.
  - intros. by eapply polls_reports.
Qed.

(** C38: a signal that is raised after epoll_wait has returned, and before the breaker
    is reset, is lost: from every state with a lowered breaker there is such a run, in
    which Break succeeds; the Poll that is under way does not report it, and takes
    it down, so that the next Poll does not report it either, if there is no other. *)
Theorem Break_lost p timeout (s : SocketBreaker.t * K) :
  SocketBreaker.ready (fst s) (snd s) → fresh p s → timeout * 1000 < 2 ^ 31 →
  SocketBreaker.IsBreak (fst s) = false →
  ∃ late ret p' s', polls p timeout s (fst s) late ret p' s' ∧
    SocketBreaker.IsBreak late = true ∧
    SocketEpoll.BreakerIsBreak (fst s') p' = false ∧ SocketBreaker.ready (fst s') (snd s') ∧
    ∀ p1 timeout1 k1 late1 ret1 p2 s2,
      SocketBreaker.ready (fst s') k1 → fresh p1 (fst s', k1) →
      polls p1 timeout1 (fst s', k1) (fst s') late1 ret1 p2 s2 →
      SocketEpoll.BreakerIsBreak (fst s2) p2 = false.
Proof.
  intros Hr Hf (ms & Et)%poll_timeout_returns Hlow. destruct s as [br k]. simpl in *.
  assert (SocketEpoll.Poll_start p timeout k = Ret (ms, SocketEpoll.add_all (SocketEpoll._epfd p)
            (SocketEpoll._events p) k)) as E0 by (unfold SocketEpoll.Poll_start; by rewrite Et).
  pose proof (Poll_start_watched _ _ _ _ _ _ Hr Hf E0) as Hw0. set (k0 := SocketEpoll.add_all _ _ _) in *.
  destruct (SocketEpoll.Poll_wait p ms k0) as [[ret p'] k2] eqn:Ew.
  destruct (Poll_wait_reports _ _ _ _ _ _ _ Hw0 Ew) as [Hr2 _].
  destruct (SocketBreaker.Break_ready _ _ Hr2) as (late & k3 & Eb & Hr3 & Hup).
  destruct (SocketBreaker.Clear late k3) as [[b br'] k'] eqn:Ec.
  assert (polls p timeout (br, k) br late ret p' (br', k')) as Hp.
  { eapply polls_intro; [exact E0|apply rtc_refl|exact Ew| |exact Ec].
    apply rtc_once. by exists true. }
  destruct (polls_reports p timeout (br, k) _ _ _ _ _ Hr Hf Hp) as (Hr' & Hlow' & _ & Hrep). simpl in *.
  exists late, ret, p', (br', k'). simpl. split_and!; try done.
  - by rewrite Hrep, Hlow, andb_false_r.
  - intros p1 timeout1 k1 late1 ret1 p2 s2 Hr1 Hf1 Hp1.
    destruct (polls_reports p1 timeout1 (br', k1) _ _ _ _ _ Hr1 Hf1 Hp1) as (_ & _ & _ & ->). by rewrite Hlow', andb_false_r.
Qed.

End epoll.

(** ** A concrete kernel: one pipe, and one epoll instance *)
Module EpollPipe.
#[local] Existing Instances OnePipe.kernel OnePipe.laws.

Record t : Set := mk { the_pipe : OnePipe.t; list : gmap Z Z }.

Definition put_pipe (p : OnePipe.t) (k : t) : t := mk p (list k).
#[export] Instance pipes : PipeKernel t := part_kernel the_pipe put_pipe.
#[export] Instance pipe_laws : PipeLaws t := part_laws the_pipe put_pipe (λ _ _, eq_refl).

(** Only the pipe is ever ready. *)
#[export] Instance epoll : SocketEpoll.EpollKernel t := {|
  SocketEpoll.epoll_create k := (7, mk (the_pipe k) ∅);
  SocketEpoll.epoll_close e k := mk (the_pipe k) ∅;
  SocketEpoll.epoll_ctl_add e ev k :=
    match list k !! SocketEpoll.fd ev with
    | Some _ => (-1, k)
    | None => (0, mk (the_pipe k) (<[SocketEpoll.fd ev := SocketEpoll.events ev]> (list k)))
    end;
  SocketEpoll.epoll_wait e max timeout k :=
    if SocketEpoll.has SocketEpoll.EPOLLIN (default 0 (list k !! 3)) &&
       (0 <? Z.of_nat (OnePipe.unread (the_pipe k))) && (0 <? max)
    then (1, [SocketEpoll.mkEvent SocketEpoll.EPOLLIN 3], 0, k)
    else (0, [], 0, k);
|}.

#[export] Program Instance epoll_laws : EpollLaws t := {| registered e := list |}.
Next Obligation. intros k e k' [= <- <-] _. by split. Qed.
Next Obligation.
  intros e ev k. simpl. destruct (list k !! _); eexists _, _; (split; [done|]); by split.
Qed.
Next Obligation.
  intros e max timeout r w n k Hl Hr Hmax. simpl in *.
  destruct (r =? 3) eqn:E3; [|done]. apply Z.eqb_eq in E3. subst r.
  destruct (w =? 4); [|done]. destruct (OnePipe.nb_r _) eqn:Er; [|done].
  destruct (OnePipe.nb_w _) eqn:Ew; [|done]. simpl in Hl. injection Hl as <-. rewrite Hr. simpl.
  assert (0 < max) as Hm.
  { enough (base.size (list k) ≠ 0%nat) by lia. intros E%map_size_empty_inv. by rewrite E in Hr. }
  rewrite (proj2 (Z.ltb_lt 0 max) Hm), andb_true_r.
  destruct (Z.ltb_spec 0 (Z.of_nat (OnePipe.unread (the_pipe k)))) as [Hn|Hn];
    eexists _, _, _, _; (split; [done|]); (split; [by rewrite Er, Ew|]);
    intros _; (split; [done|lia]).
Qed.
Next Obligation.
  intros e fd bs k ret k'. cbn. unfold on_part. cbn. by case_match; intros [= _ <-].
Qed.

#[export] Instance poll : SocketPoll.PollKernel t := {|
  SocketPoll.poll l timeout k := (0, map (λ _, 0) l, 0, k);
|}.
#[export] Instance kqueue : SocketKqueue.KqueueKernel t := {|
  SocketKqueue.kqueue k := (8, k);
  SocketKqueue.kqueue_close e k := k;
  SocketKqueue.kevent_call kq l max timeout k := (0, [], 0, k);
|}.

End EpollPipe.

#[local] Existing Instances OnePipe.kernel OnePipe.laws EpollPipe.pipes EpollPipe.pipe_laws
  EpollPipe.epoll EpollPipe.epoll_laws EpollPipe.poll EpollPipe.kqueue.

Definition demo_breaker : SocketBreaker.t := SocketBreaker.mk 3 4 false.
Definition demo_kernel : EpollPipe.t := EpollPipe.mk (OnePipe.mk 0%nat true true) ∅.

Definition demo_regs : list reg := [SetRead 5 true; SetWrite 5 true; SetError 5 true; SetRead 5 false].

Lemma registrations_agree_witness :
  let pe := foldl (apply_reg (K:=EpollPipe.t)) (fst (SocketEpoll.new demo_breaker demo_kernel)) demo_regs in
  let pk := foldl (apply_reg (K:=EpollPipe.t)) (fst (SocketKqueue.new demo_breaker demo_kernel)) demo_regs in
  epoll_interest pe 5 = (false, true) ∧ epoll_errors pe 5 = true ∧
  kqueue_interest pk 5 = (false, true) ∧ fst (epoll_interest pe 3) = true.
Proof.
  destruct (registrations_agree demo_breaker demo_kernel demo_regs)
    as (Hw & Herr & _ & _ & _ & _ & Hb & _); [by vm_compute| |].
  - repeat (constructor; [by vm_compute|]). constructor.
  - intros pe pk. destruct (Hw 5) as (_ & He & Hk). destruct (Herr 5) as [_ H5].
    split; [etransitivity; [exact He|]; by vm_compute|].
    split; [etransitivity; [exact H5|]; by vm_compute|].
    split; [etransitivity; [exact Hk|]; by vm_compute|exact Hb].
Defined.

Lemma demo_ready : SocketBreaker.ready demo_breaker demo_kernel.
Proof. by vm_compute. Qed.

Definition demo_select : SocketEpoll.t := SocketEpoll.mk 7 [SocketEpoll.mkEvent 1 3] [] 0.

Lemma demo_fresh : fresh demo_select (demo_breaker, demo_kernel).
Proof. split_and!; [|done..]. exists (only_breaker 3). by apply keeps_masks_new. Qed.

(** A Break comes while epoll_wait waits: it is reported. *)
Definition demo_raised : SocketBreaker.t := SocketBreaker.mk 3 4 true.

Lemma demo_polls : ∃ p' s',
  polls demo_select 1 (demo_breaker, demo_kernel) demo_raised demo_raised 1 p' s'.
Proof.
  eexists _, (_, _). eapply polls_intro.
  - reflexivity.
  - apply rtc_once. exists true. vm_compute. reflexivity.
  - vm_compute. reflexivity.
  - apply rtc_refl.
  - vm_compute. reflexivity.
Qed.

Lemma Poll_takes_signal_witness :
  ∃ p' s', polls demo_select 1 (demo_breaker, demo_kernel) demo_raised demo_raised 1 p' s' ∧
    SocketEpoll.BreakerIsBreak (fst s') p' = true ∧ SocketBreaker.IsBreak (fst s') = false.
Proof.
  destruct demo_polls as (p' & s' & Hp). exists p', s'. split; [exact Hp|].
  destruct (Poll_takes_signal demo_select 1 (demo_breaker, demo_kernel) demo_ready demo_fresh ltac:(lia))
    as [_ Hall]. destruct (Hall _ _ _ _ _ Hp) as (_ & Hlow & _ & Hrep). split; [exact Hrep|exact Hlow].
Defined.

Lemma Break_lost_witness :
  ∃ late ret p' s', polls demo_select 1 (demo_breaker, demo_kernel) demo_breaker late ret p' s' ∧
    SocketBreaker.IsBreak late = true ∧ SocketEpoll.BreakerIsBreak (fst s') p' = false.
Proof.
  destruct (Break_lost demo_select 1 (demo_breaker, demo_kernel) demo_ready demo_fresh)
    as (late & ret & p' & s' & Hp & Hup & Hrep & _); [lia|done|].
  exists late, ret, p', s'. split; [exact Hp|]. split; [exact Hup|exact Hrep].
Defined.
