(* ===== verification/MessageQueue.v ===== *)
(** * MessageQueue: the timer queue (src/common/message_queue.hpp, .cpp)

    A singly linked list of messages, sorted by the time they are due, that a
    thread drains.  The list is modelled with its pointers: [heap] is the store of
    the [Message] objects, a null pointer is [None], reading through a pointer
    that is not in the heap is [Undefined].  The abstraction [wf] relates the
    heap to the list of its entries, and the operations refine the functions
    [insert_entry], [remove_entry] and the split at the first entry not due. *)
From stdpp Require Import sorting pretty.
From S2P Require Import Prelude.

Abbreviation loc := positive.

Module MessageQueue.

Section types.
Context {C : Type}.      (* MessageCallback *)

(** struct Message; a null callback is [None]. *)
Record Message : Type := mkMessage {
  _callback : option C;
  _messageId : Z;        (* uint32_t *)
  _when : Z;             (* ticks of system_clock since its epoch *)
  _next : option loc;
}.

Record t : Type := mk {
  heap : gmap loc Message;
  _firstMessage : option loc;
  _currentMsgId : Z;     (* uint32_t *)
  _hasPost : bool;
  _canceledMessageIds : gset Z;
}.

(** The constructor. *)
Definition new : t := mk ∅ None 1 false ∅.

End types.
Arguments Message C : clear implicits.
Arguments t C : clear implicits.

Section ops.
Context {C : Type}.
(** The ticks of system_clock in a millisecond. *)
Variable ticks : Z.

Definition UINT32_MAX : Z := 2 ^ 32 - 1.

(** [DURATION_TO_MS]: duration_cast truncates towards zero. *)
Definition to_ms (d : Z) : Z := Z.quot d ticks.
Definition of_sec (sec : Z) : Z := sec * (1000 * ticks).

Definition load (h : gmap loc (Message C)) (a : loc) : checked (Message C) :=
  match h !! a with Some m => Ret m | None => Undefined end.

Definition set_next (h : gmap loc (Message C)) (a : loc) (p : option loc)
    : checked (gmap loc (Message C)) :=
  m ← load h a;
  mret (<[a := mkMessage (_callback m) (_messageId m) (_when m) p]> h).

(** A traversal visits every message of the heap once at most. *)
Definition fuel (h : gmap loc (Message C)) : nat := S (base.size h).

(** The loop of PostMessage: the last message before the position, and the
    message at the position. *)
Fixpoint find_position (n : nat) (h : gmap loc (Message C)) (when : Z)
    (lastMessage currentMessage : option loc) : checked (option loc * option loc) :=
  match n with
  | O => OutOfFuel
  | S n =>
      match currentMessage with
      | None => mret (lastMessage, None)
      | Some a =>
          m ← load h a;
          if _when m <? when then find_position n h when (Some a) (_next m)
          else mret (lastMessage, Some a)
      end
  end.

Definition PostMessage (q : t C) (now afterSec : Z) (callback : option C)
    : checked (Z * t C) :=
  let timePoint := now + of_sec afterSec in
  let messageId := _currentMsgId q in
  let newMessage := fresh (dom (heap q)) in
  let h := <[newMessage := mkMessage callback messageId timePoint None]> (heap q) in
  let id := u32 (_currentMsgId q + 1) in
  let id := if id =? UINT32_MAX then 1 else id in
  '(lastMessage, currentMessage) ←
    find_position (fuel (heap q)) h timePoint None (_firstMessage q);
  match lastMessage with
  | None =>
      h ← set_next h newMessage (_firstMessage q);
      mret (messageId, mk h (Some newMessage) id true (_canceledMessageIds q))
  | Some last =>
      match currentMessage with
      | None =>
          h ← set_next h last (Some newMessage);
          mret (messageId, mk h (_firstMessage q) id true (_canceledMessageIds q))
      | Some current =>
          h ← set_next h last (Some newMessage);
          h ← set_next h newMessage (Some current);
          mret (messageId, mk h (_firstMessage q) id true (_canceledMessageIds q))
      end
  end.

(** The loop of CancelMessage. *)
Fixpoint find_message (n : nat) (h : gmap loc (Message C)) (messageId : Z)
    (lastMessage currentMessage : option loc) : checked (option loc * option loc) :=
  match n with
  | O => OutOfFuel
  | S n =>
      match currentMessage with
      | None => mret (lastMessage, None)
      | Some a =>
          m ← load h a;
          if _messageId m =? messageId then mret (lastMessage, Some a)
          else find_message n h messageId (Some a) (_next m)
      end
  end.

Definition CancelMessage (q : t C) (messageId : Z) : checked (bool * t C) :=
  '(lastMessage, currentMessage) ←
    find_message (fuel (heap q)) (heap q) messageId None (_firstMessage q);
  let canceled := {[messageId]} ∪ _canceledMessageIds q in
  match currentMessage with
  | None =>
      mret (false, mk (heap q) (_firstMessage q) (_currentMsgId q) (_hasPost q) canceled)
  | Some current =>
      m ← load (heap q) current;
      '(h, first) ← match lastMessage with
                    | None => mret (heap q, _next m)
                    | Some last =>
                        h ← set_next (heap q) last (_next m);
                        mret (h, _firstMessage q)
                    end;
      mret (true, mk (delete current h) first (_currentMsgId q) (_hasPost q) canceled)
  end.

(** The ids from a message on, for debugging. *)
Fixpoint print_loop (n : nat) (h : gmap loc (Message C)) (currentMessage : option loc)
    (printMsg : bytes) : checked bytes :=
  match n with
  | O => OutOfFuel
  | S n =>
      match currentMessage with
      | None => mret printMsg
      | Some a =>
          m ← load h a;
          print_loop n h (_next m) (printMsg ++ str (pretty (_messageId m)) ++ str " ")
      end
  end.

Definition PrintMessageQueue (q : t C) : checked bytes :=
  print_loop (fuel (heap q)) (heap q) (_firstMessage q) (str "MessageQueue:").

(** *** __RunLoop

    One round of the loop has three parts.  [drain], under the lock, takes the
    messages that are due and computes how long to wait; [callbacks] runs them,
    in the order of the std::map, unlocked but for the test of each; [wait]
    decides, under the lock again, what the thread does next. *)

(** [DURATION_TO_MS(now-currentMessage->_when).count() >= 0] *)
Definition due (now when : Z) : bool := 0 <=? to_ms (now - when).

(** The first loop: the heap, the new head and the callbacks taken. *)
Fixpoint drain_loop (n : nat) (h : gmap loc (Message C)) (now : Z)
    (currentMessage : option loc) (callbackMap : gmap Z C)
    : checked (gmap loc (Message C) * option loc * gmap Z C) :=
  match n with
  | O => OutOfFuel
  | S n =>
      match currentMessage with
      | None => mret (h, None, callbackMap)
      | Some a =>
          m ← load h a;
          if due now (_when m) then
            let callbackMap :=
              match _callback m with
              | Some c => <[_messageId m := c]> callbackMap
              | None => callbackMap
              end in
            drain_loop n (delete a h) now (_next m) callbackMap
          else mret (h, Some a, callbackMap)
      end
  end.

(** The callbacks due, the duration in milliseconds and the queue. *)
Definition drain (q : t C) (now : Z) : checked (gmap Z C * Z * t C) :=
  '(h, currentMessage, callbackMap) ←
    drain_loop (fuel (heap q)) (heap q) now (_firstMessage q) ∅;
  duration ← match currentMessage with
             | None => mret 0
             | Some a => m ← load h a; mret (to_ms (_when m - now))
             end;
  mret (callbackMap, duration, mk h currentMessage (_currentMsgId q) false ∅).

(** The order of iteration of a std::map with integer keys. *)
Definition key_le (a b : Z * C) : Prop := fst a ≤ fst b.
#[local] Instance key_le_dec a b : Decision (key_le a b).
Proof. unfold key_le. apply _. Defined.
Definition in_key_order (m : gmap Z C) : list (Z * C) := merge_sort key_le (map_to_list m).

(** The callbacks of a round in their order. *)
Definition take_due (q : t C) (now : Z) : checked (list (Z * C) * t C) :=
  '(callbackMap, _, q) ← drain q now;
  mret (in_key_order callbackMap, q).

Lemma elem_of_in_key_order m id c : (id, c) ∈ in_key_order m ↔ m !! id = Some c.
Proof.
  unfold in_key_order. rewrite (merge_sort_Permutation key_le).
  apply elem_of_map_to_list.
Qed.

Lemma in_key_order_NoDup m : NoDup (fst <$> in_key_order m).
Proof.
  unfold in_key_order. rewrite (merge_sort_Permutation key_le). apply NoDup_fst_map_to_list.
Qed.

(** The callbacks are arbitrary code: [exec] runs one in a world of which the
    queue is a part, and may post and cancel messages.  A callback that has been
    cancelled since the queue was drained is skipped. *)
Fixpoint callbacks {W} (queue : W → t C) (exec : C → W → W) (l : list (Z * C)) (w : W) : W :=
  match l with
  | [] => w
  | (id, c) :: l =>
      if decide (id ∈ _canceledMessageIds (queue w)) then callbacks queue exec l w
      else callbacks queue exec l (exec c w)
  end.

Inductive wait_result : Set := Continue | WaitForever | WaitUntil (time : Z).

Definition wait (q : t C) (now duration : Z) : wait_result * t C :=
  if _hasPost q then
    (Continue, mk (heap q) (_firstMessage q) (_currentMsgId q) false (_canceledMessageIds q))
  else if duration =? 0 then (WaitForever, q)
  else (WaitUntil (now + duration * ticks), q).

End ops.

(** ** The abstract queue *)
Section abstract.
Context {C : Type}.

Record entry : Type := mkEntry {
  e_callback : option C;
  e_id : Z;
  e_when : Z;
}.

Definition node (e : entry) (p : option loc) : Message C :=
  mkMessage (e_callback e) (e_id e) (e_when e) p.

(** The messages from [p] up to the pointer [q]. *)
Fixpoint segment (h : gmap loc (Message C)) (p : option loc) (l : list (loc * entry))
    (q : option loc) : Prop :=
  match l with
  | [] => p = q
  | (a, e) :: l => p = Some a ∧ ∃ nx, h !! a = Some (node e nx) ∧ segment h nx l q
  end.

(** The heap holds exactly the messages of the list: none dangles, none leaks. *)
Definition owns (h : gmap loc (Message C)) (p : option loc) (l : list (loc * entry)) : Prop :=
  segment h p l None ∧ NoDup l.*1 ∧ ∀ a, is_Some (h !! a) ↔ a ∈ l.*1.

Definition wf (q : t C) (es : list entry) : Prop :=
  ∃ l, owns (heap q) (_firstMessage q) l ∧ es = l.*2.

(** A message is put before the first that is not due earlier: of two messages
    with the same time, the one posted last is the first. *)
Fixpoint insert_entry (e : entry) (l : list entry) : list entry :=
  match l with
  | [] => [e]
  | x :: l => if e_when x <? e_when e then x :: insert_entry e l else e :: x :: l
  end.

Fixpoint remove_entry (id : Z) (l : list entry) : list entry :=
  match l with
  | [] => []
  | x :: l => if e_id x =? id then l else x :: remove_entry id l
  end.

(** The messages due, and the rest, in a list. *)
Fixpoint split_due (ticks now : Z) (l : list entry) : list entry * list entry :=
  match l with
  | [] => ([], [])
  | x :: l => if due ticks now (e_when x)
              then (x :: fst (split_due ticks now l), snd (split_due ticks now l))
              else ([], x :: l)
  end.

Fixpoint collect (l : list entry) (m : gmap Z C) : gmap Z C :=
  match l with
  | [] => m
  | x :: l => collect l (match e_callback x with Some c => <[e_id x := c]> m | None => m end)
  end.

Definition when_le (a b : entry) : Prop := e_when a ≤ e_when b.
Definition sorted (l : list entry) : Prop := Sorted when_le l.

(** ** Lemmas on segments *)

Lemma segment_app h p l1 l2 q :
  segment h p (l1 ++ l2) q ↔ ∃ r, segment h p l1 r ∧ segment h r l2 q.
Proof.
  revert p. induction l1 as [|[a e] l1 IH]; intros p; simpl.
  - split; [eauto|by intros (? & -> & ?)].
  - setoid_rewrite IH. split.
    + intros (-> & nx & Ha & r & ? & ?). eauto 10.
    + intros (r & (-> & nx & Ha & ?) & ?). eauto 10.
Qed.

Lemma segment_insert h a m p l q :
  a ∉ l.*1 → segment (<[a:=m]> h) p l q ↔ segment h p l q.
Proof.
  revert p. induction l as [|[b e] l IH]; intros p Ha; simpl in *; [done|].
  apply not_elem_of_cons in Ha as [Hab Ha]. setoid_rewrite IH; [|done].
  by rewrite lookup_insert_ne.
Qed.

Lemma segment_delete h a p l q :
  a ∉ l.*1 → segment (delete a h) p l q ↔ segment h p l q.
Proof.
  revert p. induction l as [|[b e] l IH]; intros p Ha; simpl in *; [done|].
  apply not_elem_of_cons in Ha as [Hab Ha]. setoid_rewrite IH; [|done].
  by rewrite lookup_delete_ne.
Qed.

Lemma segment_snoc h p l a e q :
  segment h p (l ++ [(a, e)]) q ↔ segment h p l (Some a) ∧ h !! a = Some (node e q).
Proof.
  rewrite segment_app. simpl. split.
  - intros (r & Hl & -> & nx & Ha & ->). done.
  - intros [Hl Ha]. eauto 6.
Qed.

Lemma segment_is_Some h p l q a : segment h p l q → a ∈ l.*1 → is_Some (h !! a).
Proof.
  revert p. induction l as [|[b e] l IH]; intros p; simpl; [by intros _ ?%elem_of_nil|].
  intros (_ & nx & Hb & Hl) [->|Ha]%elem_of_cons; eauto.
Qed.

Lemma owns_size h p l : owns h p l → length l = base.size h.
Proof.
  intros (_ & Hnd & Hdom). rewrite <-(length_fmap fst), <-(size_list_to_set (C:=gset loc)) by done.
  rewrite <-size_dom. f_equal. apply leibniz_equiv. intros a.
  by rewrite elem_of_list_to_set, <-Hdom, elem_of_dom.
Qed.

(** The last pointer of a traversal. *)
Definition last_loc (l : list (loc * entry)) (p : option loc) : option loc :=
  match last l with Some (a, _) => Some a | None => p end.

Lemma last_loc_cons x l p : last_loc (x :: l) p = last_loc l (Some (fst x)).
Proof. unfold last_loc. destruct x. rewrite last_cons. by destruct (last l) as [[]|]. Qed.

Lemma find_position_spec h when l : ∀ n p lst,
  segment h p l None → (length l < n)%nat →
  ∃ l1 l2, l = l1 ++ l2 ∧ Forall (λ x, e_when x.2 < when) l1 ∧
    match l2 with [] => True | x :: _ => when ≤ e_when x.2 end ∧
    find_position n h when lst p = Ret (last_loc l1 lst, fst <$> head l2).
Proof.
  induction l as [|[a e] l IH]; intros [|n] p lst Hs Hn; simpl in *; try lia.
  - subst. exists [], []. done.
  - destruct Hs as (-> & nx & Ha & Hs). unfold load. rewrite Ha. simpl.
    destruct (Z.ltb_spec (e_when e) when) as [Hlt|Hge].
    + destruct (IH n nx (Some a) Hs) as (l1 & l2 & -> & Hl1 & Hl2 & E); [lia|].
      exists ((a, e) :: l1), l2. rewrite last_loc_cons. split_and!; try done. by constructor.
    + exists [], ((a, e) :: l). done.
Qed.

Lemma insert_entry_app e l1 l2 :
  Forall (λ x, e_when x < e_when e) l1 →
  match l2 with [] => True | x :: _ => e_when e ≤ e_when x end →
  insert_entry e (l1 ++ l2) = l1 ++ e :: l2.
Proof.
  intros Hl1 Hl2. induction Hl1 as [|x l1 Hx Hl1 IH]; simpl.
  - destruct l2 as [|y l2]; [done|]. simpl. case_test; [lia|done].
  - case_test; [|lia]. by rewrite IH.
Qed.

Lemma segment_head h p l : segment h p l None → p = fst <$> head l.
Proof. destruct l as [|[a e] l]; simpl; [done|]. by intros [-> _]. Qed.

Lemma owns_insert_head h p l n e :
  owns h p l → h !! n = None → owns (<[n := node e p]> h) (Some n) ((n, e) :: l).
Proof.
  intros (Hs & Hnd & Hdom) Hn. assert (n ∉ l.*1) by (rewrite <-Hdom, Hn; by intros []).
  split_and!.
  - split; [done|]. exists p. rewrite lookup_insert, decide_True by done.
    split; [done|]. by apply segment_insert.
  - by constructor.
  - intros a. rewrite lookup_insert_is_Some. simpl. rewrite elem_of_cons, <-Hdom.
    destruct (decide (n = a)); naive_solver.
Qed.

Lemma owns_insert_after h p l1 a ea l2 n e :
  owns h p (l1 ++ (a, ea) :: l2) → h !! n = None →
  owns (<[n := node e (fst <$> head l2)]> (<[a := node ea (Some n)]> h)) p
       (l1 ++ (a, ea) :: (n, e) :: l2).
Proof.
  intros (Hs & Hnd & Hdom) Hn.
  assert (n ∉ (l1 ++ (a, ea) :: l2).*1) as Hnl by (rewrite <-Hdom, Hn; by intros []).
  rewrite fmap_app, fmap_cons in *. simpl in *.
  apply not_elem_of_app in Hnl as [Hn1 [Hna Hn2]%not_elem_of_cons].
  pose proof Hnd as (Hnd1 & Hdis & [Ha2 Hnd2]%NoDup_cons)%NoDup_app.
  assert (a ∉ l1.*1) as Ha1 by (intros Ha; apply (Hdis a Ha); by left).
  apply segment_app in Hs as (r & Hs1 & -> & nx & Ha & Hs2). split_and!.
  - apply segment_app. exists (Some a). split; [by rewrite !segment_insert|].
    split; [done|]. exists (Some n). rewrite lookup_insert_ne, lookup_insert, decide_True by done.
    split; [done|]. split; [done|]. exists nx.
    rewrite lookup_insert, decide_True by done. rewrite !segment_insert by done.
    by rewrite <-(segment_head _ _ _ Hs2).
  - rewrite !fmap_app. simpl. apply NoDup_app. split_and!; [done| |].
    + intros x Hx [->|[->|Hx2]%elem_of_cons]%elem_of_cons; [done..|].
      apply (Hdis x Hx). by right.
    + repeat constructor; try done. by intros [?|?]%elem_of_cons.
  - intros b. rewrite !lookup_insert_is_Some, Hdom, fmap_app. simpl.
    rewrite !elem_of_app, !elem_of_cons. destruct (decide (b = n)), (decide (b = a)); naive_solver.
Qed.

Lemma owns_remove h p l1 a ea l2 nx :
  owns h p (l1 ++ (a, ea) :: l2) → h !! a = Some (node ea nx) →
  match last l1 with
  | None => owns (delete a h) nx l2
  | Some (b, eb) => owns (delete a (<[b := node eb nx]> h)) p (l1 ++ l2)
  end.
Proof.
  intros (Hs & Hnd & Hdom) Ha.
  rewrite fmap_app, fmap_cons in *. simpl in *.
  pose proof Hnd as (Hnd1 & Hdis & [Ha2 Hnd2]%NoDup_cons)%NoDup_app.
  assert (a ∉ l1.*1) as Ha1 by (intros Ha'; apply (Hdis a Ha'); by left).
  apply segment_app in Hs as (r & Hs1 & -> & nx' & Ha' & Hs2).
  rewrite Ha in Ha'. injection Ha' as <-.
  destruct (last l1) as [[b eb]|] eqn:El.
  - apply last_Some in El as [l1' ->]. rewrite fmap_app in *. simpl in *.
    assert (b ≠ a) as Hba.
    { intros ->. apply Ha1, elem_of_app. right. by left. }
    pose proof Hnd1 as (_ & Hdis1 & _)%NoDup_app.
    assert (b ∉ l1'.*1) as Hb1 by (intros Hb; apply (Hdis1 b Hb); by left).
    assert (b ∉ l2.*1) as Hb2.
    { intros Hb. apply (Hdis b); [apply elem_of_app; right; by left|by right]. }
    rewrite segment_snoc in Hs1. destruct Hs1 as [Hs1 Hb].
    apply not_elem_of_app in Ha1 as [Ha1 _]. split_and!.
    + rewrite segment_app. exists nx. rewrite segment_snoc.
      rewrite lookup_delete_ne, lookup_insert, decide_True by done.
      by rewrite !segment_delete, !segment_insert.
    + rewrite fmap_app, fmap_app. apply NoDup_app. split_and!; [done| |done].
      intros x Hx Hx2. apply (Hdis x Hx). by right.
    + intros c. rewrite lookup_delete_is_Some, lookup_insert_is_Some, Hdom, !fmap_app. simpl.
      rewrite !elem_of_app, !elem_of_cons, elem_of_nil.
      destruct (decide (c = a)), (decide (c = b)); naive_solver.
  - apply last_None in El as ->. simpl in *. subst p. split_and!.
    + by apply segment_delete.
    + done.
    + intros c. rewrite lookup_delete_is_Some, Hdom, elem_of_cons.
      destruct (decide (c = a)); naive_solver.
Qed.

Lemma print_loop_spec h l : ∀ n p out,
  segment h p l None → (length l < n)%nat →
  print_loop n h p out = Ret (out ++ concat ((λ x, str (pretty (e_id x.2)) ++ str " ") <$> l)).
Proof.
  induction l as [|[a e] l IH]; intros [|n] p out Hs Hn; simpl in *; try lia.
  - subst. simpl. by rewrite app_nil_r.
  - destruct Hs as (-> & nx & Ha & Hs). unfold load. rewrite Ha. simpl.
    rewrite (IH n nx) by (done || lia). by rewrite <-!app_assoc.
Qed.

Lemma find_message_spec h id l : ∀ n p lst,
  segment h p l None → (length l < n)%nat →
  match find_message n h id lst p with
  | Ret (last, None) => Forall (λ x, e_id x.2 ≠ id) l
  | Ret (last, Some a) =>
      ∃ l1 e l2, l = l1 ++ (a, e) :: l2 ∧ Forall (λ x, e_id x.2 ≠ id) l1 ∧ e_id e = id ∧
                 last = last_loc l1 lst
  | _ => False
  end.
Proof.
  induction l as [|[a e] l IH]; intros [|n] p lst Hs Hn; simpl in *; try lia.
  - subst. by constructor.
  - destruct Hs as (-> & nx & Ha & Hs). unfold load. rewrite Ha. simpl.
    destruct (Z.eqb_spec (e_id e) id) as [He|He].
    + by exists [], e, l.
    + specialize (IH n nx (Some a) Hs ltac:(lia)).
      destruct (find_message _ _ _ _ _) as [[last [b|]]| | |]; [|by constructor|done..].
      destruct IH as (l1 & eb & l2 & -> & Hl1 & Hid & ->).
      exists ((a, e) :: l1), eb, l2. rewrite last_loc_cons. split_and!; try done. by constructor.
Qed.

Lemma remove_entry_app id e l1 l2 :
  Forall (λ x, e_id x ≠ id) l1 → e_id e = id → remove_entry id (l1 ++ e :: l2) = l1 ++ l2.
Proof.
  intros Hl1 He. induction Hl1 as [|x l1 Hx Hl1 IH]; simpl; case_test; try done. by rewrite IH.
Qed.

Lemma remove_entry_none id l : Forall (λ x, e_id x ≠ id) l → remove_entry id l = l.
Proof. induction 1 as [|x l Hx _ IH]; [done|]. simpl. case_test; [done|]. by rewrite IH. Qed.

Lemma sorted_insert e l : sorted l → sorted (insert_entry e l).
Proof.
  unfold sorted. induction l as [|x l IH]; simpl; [by repeat constructor|].
  intros [Hs Hhd]%Sorted_inv. case_test.
  - constructor; [by apply IH|]. destruct l as [|y l]; simpl; [by repeat constructor; unfold when_le; lia|].
    apply HdRel_inv in Hhd. case_test; constructor; unfold when_le in *; lia.
  - constructor; [by constructor|]. constructor. unfold when_le. lia.
Qed.

Lemma set_next_node h a e p q :
  h !! a = Some (node e p) → set_next h a q = Ret (<[a := node e q]> h).
Proof. intros Ha. unfold set_next, load. by rewrite Ha. Qed.

Lemma segment_load h p l a e q :
  segment h p (l ++ (a, e) :: q) None → ∃ nx, h !! a = Some (node e nx).
Proof. intros (r & _ & _ & nx & Ha & _)%segment_app. eauto. Qed.

Lemma remove_entry_sublist id l : remove_entry id l `sublist_of` l.
Proof.
  induction l as [|x l IH]; simpl; [done|]. case_test; [by apply sublist_cons|by apply sublist_skip].
Qed.

#[local] Instance when_le_trans : Transitive when_le.
Proof. unfold when_le. intros x y z. lia. Qed.

Lemma sorted_remove id l : sorted l → sorted (remove_entry id l).
Proof.
  unfold sorted. intros Hs. apply StronglySorted_Sorted. apply Sorted_StronglySorted in Hs; [|apply _].
  induction Hs as [|x l Hs IH Hx]; simpl; [constructor|]. case_test; [done|].
  constructor; [done|]. rewrite Forall_forall in *. intros y Hy. apply Hx.
  eapply elem_of_submseteq; [exact Hy|]. apply sublist_submseteq, remove_entry_sublist.
Qed.

(** *** Lemmas on times *)

Lemma due_spec ticks now when : 0 < ticks → (due ticks now when = true ↔ when < now + ticks).
Proof.
  intros Ht. unfold due, to_ms. rewrite Z.leb_le. split; intros H.
  - destruct (decide (0 ≤ now - when)); [lia|].
    destruct (decide (when < now + ticks)); [done|exfalso].
    assert (Z.quot (now - when) ticks ≤ Z.quot (- ticks) ticks) by (apply Z.quot_le_mono; lia).
    rewrite Z.quot_opp_l, Z.quot_same in * by lia. lia.
  - destruct (decide (0 ≤ now - when)); [apply Z.quot_pos; lia|].
    replace (now - when) with (- (when - now)) by lia. rewrite Z.quot_opp_l by lia.
    rewrite Z.quot_small by lia. lia.
Qed.

Lemma not_due_ms ticks now when :
  0 < ticks → due ticks now when = false → to_ms ticks (when - now) ≠ 0.
Proof.
  intros Ht Hd Hz. apply not_true_iff_false in Hd. rewrite due_spec in Hd by done.
  unfold to_ms in Hz. apply Z.quot_small_iff in Hz; lia.
Qed.

Lemma due_deadline ticks now when now' :
  0 < ticks → now + to_ms ticks (when - now) * ticks ≤ now' → due ticks now' when = true.
Proof.
  intros Ht H. apply due_spec; [done|]. unfold to_ms in H.
  pose proof (Z.quot_rem' (when - now) ticks). pose proof (Z.rem_bound_abs (when - now) ticks). lia.
Qed.

Lemma split_due_app ticks now l :
  fst (split_due ticks now l) ++ snd (split_due ticks now l) = l.
Proof. induction l as [|x l IH]; simpl; [done|]. destruct (due _ _ _); simpl; by rewrite ?IH. Qed.

Lemma split_due_early ticks now l :
  0 < ticks → Forall (λ x, e_when x < now + ticks) (fst (split_due ticks now l)).
Proof.
  intros Ht. induction l as [|x l IH]; simpl; [done|]. destruct (due _ _ _) eqn:E; [|done].
  constructor; [by apply due_spec|done].
Qed.

Lemma sorted_split ticks now l : sorted l → sorted (snd (split_due ticks now l)).
Proof.
  unfold sorted. induction l as [|x l IH]; simpl; [done|]. destruct (due _ _ _); [|done].
  intros [Hs _]%Sorted_inv. by apply IH.
Qed.

Lemma collect_lookup l : ∀ m id c,
  NoDup (e_id <$> l) →
  collect l m !! id = Some c ↔
    (∃ e, e ∈ l ∧ e_id e = id ∧ e_callback e = Some c) ∨
    m !! id = Some c ∧ ∀ e, e ∈ l → e_id e = id → e_callback e = None.
Proof.
  induction l as [|x l IH]; intros m id c Hnd; simpl in *.
  - split; [|by intros [(e & He%elem_of_nil & _)|[? _]]]. intros H. right. split; [done|].
    by intros e He%elem_of_nil.
  - apply NoDup_cons in Hnd as [Hx Hnd].
    assert (∀ e, e ∈ l → e_id e ≠ e_id x) as Hne.
    { intros e He E. apply Hx. rewrite <-E. by apply list_elem_of_fmap_2. }
    rewrite IH by done. setoid_rewrite elem_of_cons.
    destruct (decide (e_id x = id)) as [<-|Hid].
    + destruct (e_callback x) as [c'|] eqn:Ec.
      * rewrite lookup_insert, decide_True by done. split.
        -- intros [(e & He & E & _)|[[= ->] _]]; [by destruct (Hne e He)|].
           left. exists x. auto.
        -- intros [(e & [->|He] & E & E2)|[_ H]].
           ++ right. split; [congruence|]. intros e He E'. by destruct (Hne e He).
           ++ by destruct (Hne e He).
           ++ specialize (H x (or_introl eq_refl) eq_refl). congruence.
      * split.
        -- intros [(e & He & E & E2)|[Hm H]]; [by destruct (Hne e He)|]. right. split; [done|].
           intros e [->|He] E; [done|by apply H].
        -- intros [(e & [->|He] & E & E2)|[Hm H]]; [congruence|by destruct (Hne e He)|].
           right. split; [done|]. auto.
    + assert (∀ c', (<[e_id x:=c']> m) !! id = m !! id) as Hl
        by (intros; by rewrite lookup_insert_ne).
      assert ((match e_callback x with Some c0 => <[e_id x:=c0]> m | None => m end) !! id = m !! id)
        as -> by by destruct (e_callback x).
      split.
      * intros [(e & He & E)|[Hm H]]; [left; eauto|]. right. split; [done|].
        intros e [->|He] E; [done|by apply H].
      * intros [(e & [->|He] & E & E2)|[Hm H]]; [done|left; eauto|]. right. split; [done|]. auto.
Qed.

Lemma split_due_rest ticks now l x r :
  x :: r = snd (split_due ticks now l) → due ticks now (e_when x) = false.
Proof.
  induction l as [|y l IH]; simpl; [done|]. destruct (due _ _ (e_when y)) eqn:E; simpl; [done|].
  by intros [= -> ->].
Qed.

End abstract.
Arguments entry C : clear implicits.

#[local] Existing Instance outcome_mret.

Section refinement.
Context {C : Type} (ticks : Z).
Implicit Types q : t C.

Lemma fuel_enough h p (l : list (loc * entry C)) :
  owns h p l → (length l < fuel h)%nat.
Proof. intros ->%owns_size. unfold fuel. lia. Qed.

Lemma post_lookup q (l : list (loc * entry C)) m :
  owns (heap q) (_firstMessage q) l →
  heap q !! fresh (dom (heap q)) = None ∧
  segment (<[fresh (dom (heap q)) := m]> (heap q)) (_firstMessage q) l None.
Proof.
  intros (Hs & _ & Hdom). pose proof (is_fresh (dom (heap q))) as Hf.
  rewrite not_elem_of_dom in Hf. split; [done|].
  apply segment_insert; [|done]. rewrite <-Hdom, Hf. by intros [].
Qed.

Lemma PostMessage_spec q es now afterSec callback :
  wf q es → sorted es → 1 ≤ _currentMsgId q < UINT32_MAX →
  ∃ q', PostMessage ticks q now afterSec callback = Ret (_currentMsgId q, q') ∧
    let e := mkEntry callback (_currentMsgId q) (now + of_sec ticks afterSec) in
    wf q' (insert_entry e es) ∧ sorted (insert_entry e es) ∧
    1 ≤ _currentMsgId q' < UINT32_MAX ∧ _hasPost q' = true ∧
    _canceledMessageIds q' = _canceledMessageIds q.
Proof.
  intros (l & Ho & ->) Hsort Hid.
  set (e := mkEntry callback _ _). set (n := fresh (dom (heap q))).
  set (id := if u32 (_currentMsgId q + 1) =? UINT32_MAX then 1 else u32 (_currentMsgId q + 1)).
  assert (1 ≤ id < UINT32_MAX) as Hid'.
  { unfold id, UINT32_MAX in *. rewrite u32_small by lia. case_test; lia. }
  destruct (post_lookup q l (node e None) Ho) as [Hfr Hs].
  destruct (find_position_spec _ (e_when e) l (fuel (heap q)) _ None Hs (fuel_enough _ _ _ Ho))
    as (l1 & l2 & -> & Hl1 & Hl2 & E).
  assert (Hins : insert_entry e (l1 ++ l2).*2 = l1.*2 ++ e :: l2.*2).
  { rewrite fmap_app. apply insert_entry_app; [by apply Forall_fmap|].
    by destruct l2 as [|[]]. }
  fold n in Hfr, Hs, E. unfold PostMessage. cbv zeta. fold n id. change (mkMessage callback _ _ None) with (node e None).
  change (now + of_sec ticks afterSec) with (e_when e). rewrite E. simpl.
  pose proof (sorted_insert e _ Hsort) as Hsort'. rewrite Hins in *.
  destruct (last l1) as [[a ea]|] eqn:Hlast.
  - apply last_Some in Hlast as [l1' ->]. unfold last_loc. rewrite last_snoc.
    rewrite <-app_assoc in Ho, Hs. cbn [app] in Ho, Hs.
    destruct (segment_load _ _ _ _ _ _ Hs) as [nx Ha].
    assert (n ≠ a) as Hna.
    { intros <-. destruct Ho as (Hs0 & _ & _).
      destruct (segment_load _ _ _ _ _ _ Hs0) as [nx' Hx]. by rewrite Hfr in Hx. }
    pose proof (owns_insert_after _ _ _ _ _ _ n e Ho Hfr) as Ho'.
    rewrite (set_next_node _ a ea nx) by done.
    exists (mk (<[n := node e (fst <$> head l2)]> (<[a := node ea (Some n)]> (heap q)))
               (_firstMessage q) id true (_canceledMessageIds q)).
    split; [|split_and!; try done; try (simpl; lia)].
    + destruct l2 as [|[c ec] l2]; cbn [fmap option_fmap option_map head fst mbind outcome_mbind outcome_bind].
      * by rewrite insert_insert_ne.
      * rewrite (set_next_node _ n e None) by
          (by rewrite lookup_insert_ne, lookup_insert, decide_True).
        cbn [mbind outcome_mbind outcome_bind].
        rewrite (insert_insert_ne _ a n), insert_insert, decide_True by done. done.
    + exists (l1' ++ (a, ea) :: (n, e) :: l2). by rewrite !fmap_app, <-app_assoc.
  - apply last_None in Hlast as ->. cbn [last_loc last fmap app list_fmap] in *.
    rewrite (set_next_node _ n e None) by (by rewrite lookup_insert, decide_True).
    cbn [mbind outcome_mbind outcome_bind]. rewrite insert_insert, decide_True by done.
    eexists. split; [done|]. split_and!; try done; try (simpl; lia).
    exists ((n, e) :: l2). split; [|done]. by apply owns_insert_head.
Qed.

Lemma CancelMessage_spec q es id :
  wf q es → sorted es →
  ∃ q', CancelMessage q id = Ret (bool_decide (id ∈ e_id <$> es), q') ∧
    wf q' (remove_entry id es) ∧ sorted (remove_entry id es) ∧
    _canceledMessageIds q' = {[id]} ∪ _canceledMessageIds q ∧
    _currentMsgId q' = _currentMsgId q ∧ _hasPost q' = _hasPost q.
Proof.
  intros (l & Ho & ->) Hsort. pose proof Ho as (Hs & _ & _).
  pose proof (sorted_remove id _ Hsort) as Hsort'.
  pose proof (find_message_spec _ id l (fuel (heap q)) _ None Hs (fuel_enough _ _ _ Ho)) as Hf.
  unfold CancelMessage.
  destruct (find_message _ _ _ _ _) as [[lst [a|]]| | |]; try done;
    cbn [mbind outcome_mbind outcome_bind].
  - destruct Hf as (l1 & e & l2 & -> & Hl1 & He & ->).
    destruct (segment_load _ _ _ _ _ _ Hs) as [nx Ha]. unfold load at 1. rewrite Ha.
    cbn [mbind outcome_mbind outcome_bind]. rewrite bool_decide_eq_true_2.
    2:{ rewrite !fmap_app, elem_of_app. right. rewrite <-He. by left. }
    pose proof (owns_remove _ _ _ _ _ _ _ Ho Ha) as Ho'.
    rewrite fmap_app in *. cbn [fmap list_fmap snd] in *.
    rewrite remove_entry_app in * by (done || by apply Forall_fmap).
    rewrite <-fmap_app in *.
    unfold last_loc. destruct (last l1) as [[b eb]|] eqn:El.
    + apply last_Some in El as [l1' ->]. apply segment_app in Hs as (r & Hs1 & _).
      apply segment_snoc in Hs1 as [_ Hb]. rewrite (set_next_node _ b eb r) by done.
      eexists. split; [done|]. split_and!; try done. by eexists.
    + apply last_None in El as ->. eexists. split; [done|]. split_and!; try done. by eexists.
  - rewrite remove_entry_none in * by (by apply Forall_fmap).
    rewrite bool_decide_eq_false_2.
    2:{ rewrite <-list_fmap_compose, list_elem_of_fmap. intros (x & -> & Hx).
        rewrite Forall_forall in Hf. by apply (Hf x Hx). }
    eexists. split; [done|]. split_and!; try done. by eexists.
Qed.

Lemma drain_loop_spec now (l : list (loc * entry C)) : ∀ n h p m,
  owns h p l → (length l < n)%nat →
  ∃ h' l2, drain_loop ticks n h now p m =
             Ret (h', fst <$> head l2, collect (fst (split_due ticks now l.*2)) m) ∧
           owns h' (fst <$> head l2) l2 ∧ l2.*2 = snd (split_due ticks now l.*2).
Proof.
  induction l as [|[a e] l IH]; intros [|n] h p m Ho Hn; simpl in *; try lia.
  - destruct Ho as (-> & Hr). by exists h, [].
  - pose proof Ho as ((-> & nx & Ha & _) & _). unfold load. rewrite Ha.
    cbn [mbind outcome_mbind outcome_bind]. simpl. destruct (due ticks now (e_when e)) eqn:Ed.
    + pose proof (owns_remove _ _ [] _ _ _ _ Ho Ha) as Ho'. simpl in Ho'.
      destruct (IH n _ nx (match e_callback e with Some c => <[e_id e := c]> m | None => m end) Ho')
        as (h' & l2 & E & Ho2 & E2); [lia|]. by exists h', l2.
    + by exists h, ((a, e) :: l).
Qed.

Lemma drain_spec q es now :
  0 < ticks → wf q es →
  ∃ d q', drain ticks q now = Ret (collect (fst (split_due ticks now es)) ∅, d, q') ∧
    wf q' (snd (split_due ticks now es)) ∧
    fst (split_due ticks now es) ++ snd (split_due ticks now es) = es ∧
    _hasPost q' = false ∧ _canceledMessageIds q' = ∅ ∧
    (d = 0 ↔ snd (split_due ticks now es) = []) ∧
    match snd (split_due ticks now es) with
    | [] => True
    | x :: _ => now + ticks ≤ e_when x ∧
                ∀ now', now + d * ticks ≤ now' → due ticks now' (e_when x) = true
    end ∧ Forall (λ x, e_when x < now + ticks) (fst (split_due ticks now es)).
Proof.
  intros Ht (l & Ho & ->). unfold drain.
  destruct (drain_loop_spec now l (fuel (heap q)) _ _ ∅ Ho (fuel_enough _ _ _ Ho))
    as (h' & l2 & -> & Ho2 & E2).
  cbn [mbind outcome_mbind outcome_bind]. rewrite <-E2.
  pose proof (split_due_app ticks now l.*2) as Happ. rewrite <-E2 in Happ.
  destruct l2 as [|[a e] l2]; cbn [head fmap option_fmap option_map fst list_fmap snd] in *.
  - eexists _, _. split; [done|]. split_and!; try done; [by exists []|by apply split_due_early].
  - pose proof Ho2 as ((_ & nx & Ha & _) & _). unfold load. rewrite Ha.
    cbn [mbind outcome_mbind outcome_bind].
    assert (due ticks now (e_when e) = false) as Hd.
    { by apply (split_due_rest ticks now l.*2 e l2.*2). }
    eexists _, _. split; [done|]. split_and!; try done.
    + by exists ((a, e) :: l2).
    + split; [|done]. simpl. intros Hz. exfalso. by apply (not_due_ms ticks now (e_when e)).
    + apply not_true_iff_false in Hd. rewrite due_spec in Hd by done. lia.
    + intros now'. by apply due_deadline.
    + by apply split_due_early.
Qed.

Lemma drain_id q now m d q' :
  drain ticks q now = Ret (m, d, q') → _currentMsgId q' = _currentMsgId q.
Proof.
  unfold drain. destruct (drain_loop _ _ _ _ _ _) as [[[h p] cb]| | |]; try done.
  destruct p as [a|]; cbn [mbind outcome_mbind outcome_bind]; [|by intros [= _ _ <-]].
  unfold load. destruct (h !! a); [|done]. by intros [= _ _ <-].
Qed.

(** *** Properties *)

(** C27: PostMessage refines the insertion into a sorted list: it terminates,
    follows no dangling pointer, loses no message, and returns the id it gave;
    the new message comes before those with the same time. *)
Theorem PostMessage_refines q es now afterSec callback :
  wf q es → sorted es → 1 ≤ _currentMsgId q < UINT32_MAX →
  ∃ q', PostMessage ticks q now afterSec callback = Ret (_currentMsgId q, q') ∧
    let e := mkEntry callback (_currentMsgId q) (now + of_sec ticks afterSec) in
    wf q' (insert_entry e es) ∧ sorted (insert_entry e es) ∧
    1 ≤ _currentMsgId q' < UINT32_MAX ∧ _hasPost q' = true ∧
    _canceledMessageIds q' = _canceledMessageIds q.
Proof. apply PostMessage_spec. Qed.

(** PrintMessageQueue lists the ids of the queue in its order. *)
Lemma PrintMessageQueue_spec q es : wf q es →
  PrintMessageQueue q =
    Ret (str "MessageQueue:" ++ concat ((λ e, str (pretty (e_id e)) ++ str " ") <$> es)).
Proof.
  intros (l & Ho & ->). unfold PrintMessageQueue. rewrite (print_loop_spec _ l).
  - by rewrite <-list_fmap_compose.
  - by apply Ho.
  - by eapply fuel_enough.
Qed.

(** C32: CancelMessage refines the removal of the entry with that id: it returns
    whether there was one, and in both cases the id is recorded as cancelled, so
    that a callback already taken from the list is not run either. *)
Theorem CancelMessage_refines q es id :
  wf q es → sorted es →
  ∃ q', CancelMessage q id = Ret (bool_decide (id ∈ e_id <$> es), q') ∧
    wf q' (remove_entry id es) ∧ sorted (remove_entry id es) ∧
    _canceledMessageIds q' = {[id]} ∪ _canceledMessageIds q ∧
    _currentMsgId q' = _currentMsgId q ∧ _hasPost q' = _hasPost q.
Proof. apply CancelMessage_spec. Qed.

(** C28: a round of the loop takes exactly the messages that are due at the head of
    the list, collects their callbacks and leaves a well-formed queue of the rest,
    with the cancelled ids and the post flag reset.  It computes the duration 0,
    for which the thread waits without a deadline, only when nothing is left; else
    the first message left is due when the deadline is reached.  A message is taken
    less than one millisecond early, and never left when its time has come. *)
Theorem drain_refines q es now :
  0 < ticks → wf q es →
  ∃ d q', drain ticks q now = Ret (collect (fst (split_due ticks now es)) ∅, d, q') ∧
    wf q' (snd (split_due ticks now es)) ∧
    fst (split_due ticks now es) ++ snd (split_due ticks now es) = es ∧
    _hasPost q' = false ∧ _canceledMessageIds q' = ∅ ∧
    (d = 0 ↔ snd (split_due ticks now es) = []) ∧
    match snd (split_due ticks now es) with
    | [] => True
    | x :: _ => now + ticks ≤ e_when x ∧
                ∀ now', now + d * ticks ≤ now' → due ticks now' (e_when x) = true
    end ∧ Forall (λ x, e_when x < now + ticks) (fst (split_due ticks now es)).
Proof. apply drain_spec. Qed.

(** A callback that was cancelled is not run, even when it was taken from the
    list before the cancellation: running the callbacks of a round is running
    those whose ids are not cancelled, whatever code the callbacks are, as long as
    nothing but the next round resets the cancelled ids. *)
Theorem callbacks_cancelled {W} (queue : W → t C) exec l w :
  (∀ c w, _canceledMessageIds (queue w) ⊆ _canceledMessageIds (queue (exec c w))) →
  ∀ ids, ids ⊆ _canceledMessageIds (queue w) →
  callbacks queue exec l w = callbacks queue exec (filter (λ p, fst p ∉ ids) l) w.
Proof.
  intros Hmono. revert w. induction l as [|[id c] l IH]; intros w ids Hids; [done|].
  cbn [callbacks]. destruct (decide (id ∈ ids)) as [Hid|Hid].
  - rewrite filter_cons_False by (simpl; tauto). rewrite decide_True by set_solver. by apply IH.
  - rewrite filter_cons_True by done. cbn [callbacks]. case_decide; [by apply IH|].
    apply IH. etrans; [done|apply Hmono].
Qed.

End refinement.
End MessageQueue.

(** ** The interface

    What the users of the queue rely on: [tq_holds q es] says that the messages
    pending are [es], [tq_cancelled q] are the ids cancelled since the last round.
    Callbacks are not null. *)
Class TimerQueue (Q C : Type) := {
  tq_ticks : Z;
  tq_post : Q → Z → Z → C → checked (Z * Q);
  tq_cancel : Q → Z → checked (bool * Q);
  tq_drain : Q → Z → checked (list (Z * C) * Q);
  tq_next : Q → Z;
  tq_cancelled : Q → gset Z;
  tq_holds : Q → list (MessageQueue.entry C) → Prop;
  tq_post_law q es now sec c :
    tq_holds q es →
    ∃ q', tq_post q now sec c = Ret (tq_next q, q') ∧ tq_next q ≠ 0 ∧
      tq_holds q' (MessageQueue.insert_entry
        (MessageQueue.mkEntry (Some c) (tq_next q) (now + MessageQueue.of_sec tq_ticks sec)) es) ∧
      tq_cancelled q' = tq_cancelled q;
  tq_cancel_law q es id :
    tq_holds q es →
    ∃ b q', tq_cancel q id = Ret (b, q') ∧ tq_holds q' (MessageQueue.remove_entry id es) ∧
      tq_cancelled q' = {[id]} ∪ tq_cancelled q;
  tq_drain_law q es now :
    tq_holds q es →
    ∃ q', tq_drain q now =
        Ret (MessageQueue.in_key_order
               (MessageQueue.collect (fst (MessageQueue.split_due tq_ticks now es)) ∅), q') ∧
      tq_holds q' (snd (MessageQueue.split_due tq_ticks now es)) ∧ tq_cancelled q' = ∅;
}.

(** The queue of message_queue.cpp, with a clock of nanoseconds. *)
#[export] Program Instance MessageQueue_TimerQueue {C} : TimerQueue (MessageQueue.t C) C := {|
  tq_ticks := 1000000;
  tq_post q now sec c := MessageQueue.PostMessage 1000000 q now sec (Some c);
  tq_cancel := MessageQueue.CancelMessage;
  tq_drain := MessageQueue.take_due 1000000;
  tq_next := MessageQueue._currentMsgId;
  tq_cancelled := MessageQueue._canceledMessageIds;
  tq_holds q es := MessageQueue.wf q es ∧ MessageQueue.sorted es ∧
                   1 ≤ MessageQueue._currentMsgId q < MessageQueue.UINT32_MAX;
|}.
Next Obligation.
  intros C q es now sec c (Hw & Hs & Hid).
  destruct (MessageQueue.PostMessage_spec 1000000 q es now sec (Some c) Hw Hs Hid)
    as (q' & E & Hw' & Hs' & Hid' & _ & Hc). exists q'. split_and!; try done; lia.
Qed.
Next Obligation.
  intros C q es id (Hw & Hs & Hid).
  destruct (MessageQueue.CancelMessage_spec q es id Hw Hs) as (q' & E & Hw' & Hs' & Hc & Hi & _).
  eexists _, q'. rewrite Hi. split; [exact E|]. split_and!; (done || lia).
Qed.
Next Obligation.
  intros C q es now (Hw & Hs & Hid).
  destruct (MessageQueue.drain_spec 1000000 q es now eq_refl Hw) as (d & q' & E & Hw' & _ & _ & Hc & _).
  exists q'. unfold MessageQueue.take_due. rewrite E. split; [done|]. split; [|done].
  split_and!; try done; [by apply MessageQueue.sorted_split|..];
    rewrite (MessageQueue.drain_id _ _ _ _ _ _ E); lia.
Qed.

(** ** Witnesses: a queue of two messages *)

Definition two_entries : list (MessageQueue.entry nat) :=
  [MessageQueue.mkEntry (Some 7%nat) 2 1000; MessageQueue.mkEntry None 1 5000].

Definition two_messages : MessageQueue.t nat :=
  MessageQueue.mk
    (<[5%positive := MessageQueue.mkMessage (Some 7%nat) 2 1000 (Some 9%positive)]>
       {[9%positive := MessageQueue.mkMessage None 1 5000 None]})
    (Some 5%positive) 3 false ∅.

Lemma two_messages_wf : MessageQueue.wf two_messages two_entries.
Proof.
  exists (zip [5%positive; 9%positive] two_entries). split; [|done]. split_and!.
  - repeat (split; [done|]; eexists; split; [done|]). done.
  - by apply (bool_decide_unpack _).
  - intros a. simpl. rewrite lookup_insert_is_Some, lookup_singleton_is_Some, !elem_of_cons, elem_of_nil.
    destruct (decide (5%positive = a)); naive_solver.
Qed.

Lemma two_entries_sorted : MessageQueue.sorted two_entries.
Proof. repeat constructor. unfold MessageQueue.when_le. simpl. lia. Qed.

Example two_printed : MessageQueue.PrintMessageQueue two_messages = Ret (str "MessageQueue:2 1 ").
Proof. vm_compute. reflexivity. Qed.

Lemma PostMessage_refines_witness :
  ∃ q', MessageQueue.PostMessage 1 two_messages 0 1 (Some 8%nat) = Ret (3, q') ∧
    MessageQueue.wf q' [MessageQueue.mkEntry (Some 8%nat) 3 1000;
                        MessageQueue.mkEntry (Some 7%nat) 2 1000; MessageQueue.mkEntry None 1 5000].
Proof.
  destruct (MessageQueue.PostMessage_refines 1 two_messages two_entries 0 1 (Some 8%nat)
    two_messages_wf two_entries_sorted) as (q' & E & Hw & _); [done|]. by exists q'.
Defined.

Lemma CancelMessage_refines_witness :
  ∃ q', MessageQueue.CancelMessage two_messages 1 = Ret (true, q') ∧
    MessageQueue.wf q' [MessageQueue.mkEntry (Some 7%nat) 2 1000].
Proof.
  destruct (MessageQueue.CancelMessage_refines two_messages two_entries 1
    two_messages_wf two_entries_sorted) as (q' & E & Hw & _). by exists q'.
Defined.

Lemma drain_refines_witness :
  ∃ q', MessageQueue.drain 1 two_messages 1000 = Ret ({[2 := 7%nat]}, 4000, q') ∧
    MessageQueue.wf q' [MessageQueue.mkEntry None 1 5000].
Proof.
  destruct (MessageQueue.drain_refines 1 two_messages two_entries 1000 eq_refl two_messages_wf)
    as (d & q' & E & Hw & _).
  exists q'. split; [|done]. revert E. vm_compute. by intros [= <- <-].
Defined.

Lemma callbacks_cancelled_witness :
  let q := MessageQueue.mk ∅ None 1 false {[4]} : MessageQueue.t nat in
  MessageQueue.callbacks fst (λ c w, (fst w, c :: snd w)) [(3, 30%nat); (4, 40%nat)] (q, [])
  = (q, [30%nat]).
Proof.
  intros q.
  rewrite (MessageQueue.callbacks_cancelled fst (λ c w, (fst w, c :: snd w)) _ _
             (λ c w, reflexivity _) {[4]} (reflexivity _)).
  reflexivity.
Defined.
