(* ===== verification/Alarm.v ===== *)
(** * Alarm: the timers and their pool (src/common/alarm.hpp, .cpp,
    src/object_pool.hpp)

    An alarm posts one callback to the timer queue.  The closure that is posted
    captures the alarm, so the callbacks of the queue are the addresses [A] of the
    alarms; the inner callback, the code of the alarm's owner, is a tag [I].  The
    alarms are proved against the interface [TimerQueue].

    [reachable] are the states that the interleavings of Start, Cancel and the queue's
    thread lead to.  That thread tests under the lock of the queue whether a callback
    has been cancelled, and calls it after it has released that lock: the callback
    then takes the lock of its alarm.  What others do in between is a part of the
    interleaving; [settled] excludes one such thing, and [cancelled_alarm_fires] shows
    what it does. *)
From stdpp Require Import functions.
From S2P Require Import Prelude MessageQueue.

Module Alarm.

Inductive AlarmStatus : Set := kStatusInit | kStatusStart | kStatusCancel | kStatusAlarm.

#[export] Instance AlarmStatus_eq_dec : EqDecision AlarmStatus.
Proof. solve_decision. Defined.

Record t (I : Type) : Type := mk {
  _innerCallback : option I;      (* [_callback] is null exactly when this is *)
  _messageId : Z;                 (* uint32_t *)
  _status : AlarmStatus;
  _userData : Z;
}.
Arguments mk {I} _ _ _ _.
Arguments _innerCallback {I} _.
Arguments _messageId {I} _.
Arguments _status {I} _.
Arguments _userData {I} _.

Section ops.
Context {A I Q : Type} `{!TimerQueue Q A}.

(** The constructor; [_userData] is indeterminate. *)
Definition new (indeterminate : Z) : t I := mk None 0 kStatusInit indeterminate.

Definition SetUserData (a : t I) (d : Z) : t I :=
  mk (_innerCallback a) (_messageId a) (_status a) d.
Definition GetUserData (a : t I) : Z := _userData a.

Definition SetCallback (a : t I) (callback : I) : t I :=
  mk (Some callback) (_messageId a) (_status a) (_userData a).

(** [this] is the address that the closure captures. *)
Definition Start (this : A) (a : t I) (q : Q) (now afterSec : Z) : checked (bool * t I * Q) :=
  match _innerCallback a with
  | None => mret (false, a, q)
  | Some _ =>
      if decide (_status a = kStatusStart) then mret (false, a, q)
      else
        '(messageId, q) ← tq_post q now afterSec this;
        mret (true, mk (_innerCallback a) messageId kStatusStart (_userData a), q)
  end.

Definition StartCallback (this : A) (a : t I) (q : Q) (now afterSec : Z) (callback : I)
    : checked (bool * t I * Q) :=
  Start this (SetCallback a callback) q now afterSec.

Definition Cancel (a : t I) (q : Q) : checked (bool * t I * Q) :=
  if _messageId a =? 0 then mret (false, a, q)
  else
    '(_, q) ← tq_cancel (C:=A) q (_messageId a);
    mret (true, mk (_innerCallback a) 0 kStatusCancel (_userData a), q).

Definition IsWaiting (a : t I) : bool := bool_decide (_status a = kStatusStart).
Definition IsAlarm (a : t I) : bool := bool_decide (_status a = kStatusAlarm).

(** The closure that SetCallback builds, as far as it holds the lock: the alarm
    afterwards, and whether it goes on to run [_innerCallback]. *)
Definition callback (a : t I) : t I * bool :=
  if _messageId a =? 0 then (a, false)
  else (mk (_innerCallback a) (_messageId a) kStatusAlarm (_userData a), true).

End ops.
End Alarm.

(** ** class ObjectPool: [Get], and the deleter of the pointers it returns *)
Module ObjectPool.
Section ops.
Context {A : Type}.

(** [fresh] is the address that [new T()] gives. *)
Definition Get (_pool : list A) (fresh : A) : A * list A :=
  match last _pool with
  | None => (fresh, _pool)
  | Some t => (t, removelast _pool)
  end.

Definition release (_pool : list A) (t : A) : list A := _pool ++ [t].

End ops.
End ObjectPool.

(** ** Alarms and the queue's thread *)
Section system.
Context {A I Q : Type} `{!EqDecision A} `{!TimerQueue Q A}.

Record sys : Type := mkSys {
  alarms : A → Alarm.t I;
  queue : Q;
  tested : option (Z * A);   (* the callback that is about to be run *)
  taken : list (Z * A);      (* those of the current round that are still to be tested *)
}.

(** The callbacks of the current round that have not run. *)
Definition round (s : sys) : list (Z * A) := option_list (tested s) ++ taken s.

(** The id of the next message is not in use (ids come round after 2^32 - 2 posts). *)
Definition fresh_id (s : sys) : Prop :=
  (∀ es, tq_holds (queue s) es →
         tq_next (C:=A) (queue s) ∉ (MessageQueue.e_id <$> es) ++ (round s).*1) ∧
  ∀ a, Alarm._messageId (alarms s a) ≠ tq_next (C:=A) (queue s).

(** The label is the alarm that goes on to its inner callback.  [admits] says when an
    alarm can be started. *)
Inductive step (admits : sys → A → Prop) : sys → option A → sys → Prop :=
| step_SetCallback s a i :
    step admits s None
      (mkSys (<[a := Alarm.SetCallback (alarms s a) i]> (alarms s)) (queue s) (tested s) (taken s))
| step_Start s a now sec b al q :
    admits s a → fresh_id s →
    Alarm.Start a (alarms s a) (queue s) now sec = Ret (b, al, q) →
    step admits s None (mkSys (<[a := al]> (alarms s)) q (tested s) (taken s))
| step_Cancel s a b al q :
    Alarm.Cancel (A:=A) (alarms s a) (queue s) = Ret (b, al, q) →
    step admits s None (mkSys (<[a := al]> (alarms s)) q (tested s) (taken s))
| step_round s now l q :
    tested s = None → taken s = [] → tq_drain (queue s) now = Ret (l, q) →
    step admits s None (mkSys (alarms s) q None l)
| step_skip s id a l :
    tested s = None → taken s = (id, a) :: l → id ∈ tq_cancelled (C:=A) (queue s) →
    step admits s None (mkSys (alarms s) (queue s) None l)
| step_test s id a l :
    tested s = None → taken s = (id, a) :: l → id ∉ tq_cancelled (C:=A) (queue s) →
    step admits s None (mkSys (alarms s) (queue s) (Some (id, a)) l)
| step_run s id a al (fires : bool) :
    tested s = Some (id, a) → Alarm.callback (alarms s a) = (al, fires) →
    step admits s (if fires then Some a else None)
      (mkSys (<[a := al]> (alarms s)) (queue s) None (taken s)).

Definition initial (s : sys) : Prop :=
  tq_holds (C:=A) (queue s) [] ∧ tested s = None ∧ taken s = [] ∧
  ∀ a, ∃ d, alarms s a = Alarm.new d.

Inductive reachable (admits : sys → A → Prop) : sys → Prop :=
| reach_init s : initial s → reachable admits s
| reach_step s o s' : reachable admits s → step admits s o s' → reachable admits s'.

(** The callback that has been tested is not one of [a] that has been cancelled since. *)
Definition settled (s : sys) (a : A) : Prop :=
  ∀ id, tested s = Some (id, a) → id ∉ tq_cancelled (C:=A) (queue s).
Definition any_time (_ : sys) (_ : A) : Prop := True.

(** A callback of [a] with this id is pending: in the queue, or taken from it and
    not cancelled since. *)
Definition live (s : sys) (es : list (MessageQueue.entry A)) (id : Z) (a : A) : Prop :=
  (∃ e, e ∈ es ∧ MessageQueue.e_id e = id ∧ MessageQueue.e_callback e = Some a) ∨
  (id, a) ∈ round s ∧ id ∉ tq_cancelled (C:=A) (queue s).

(** A started alarm has exactly one pending callback, every other has none; a callback
    that was cancelled after its test finds its alarm without a message. *)
Definition Inv (s : sys) : Prop :=
  ∃ es, tq_holds (queue s) es ∧
    NoDup ((MessageQueue.e_id <$> es) ++ (round s).*1) ∧
    (∀ id a, live s es id a ↔
       Alarm._status (alarms s a) = Alarm.kStatusStart ∧ Alarm._messageId (alarms s a) = id) ∧
    (∀ a, Alarm._status (alarms s a) = Alarm.kStatusStart → Alarm._messageId (alarms s a) ≠ 0) ∧
    (∀ a b, Alarm._messageId (alarms s a) = Alarm._messageId (alarms s b) →
            Alarm._messageId (alarms s a) ≠ 0 → a = b) ∧
    ∀ id a, tested s = Some (id, a) → id ∈ tq_cancelled (C:=A) (queue s) →
            Alarm._messageId (alarms s a) = 0.

(** *** Lemmas *)

Lemma insert_entry_Permutation (e : MessageQueue.entry A) es :
  MessageQueue.insert_entry e es ≡ₚ e :: es.
Proof.
  induction es as [|x es IH]; simpl; [done|]. case_test; [|done].
  rewrite IH. constructor.
Qed.

Lemma elem_of_remove_entry id (es : list (MessageQueue.entry A)) e :
  NoDup (MessageQueue.e_id <$> es) →
  e ∈ MessageQueue.remove_entry id es ↔ e ∈ es ∧ MessageQueue.e_id e ≠ id.
Proof.
  induction es as [|x es IH]; simpl; [intros _; rewrite elem_of_nil; tauto|].
  intros [Hx Hnd]%NoDup_cons. case_test.
  - subst. rewrite elem_of_cons. split; [|naive_solver]. intros He. split; [by right|].
    intros E. apply Hx. rewrite <-E. by apply list_elem_of_fmap_2.
  - rewrite !elem_of_cons, IH by done. naive_solver.
Qed.

Lemma NoDup_remove_entry id (es : list (MessageQueue.entry A)) (l : list Z) :
  NoDup ((MessageQueue.e_id <$> es) ++ l) →
  NoDup ((MessageQueue.e_id <$> MessageQueue.remove_entry id es) ++ l).
Proof.
  intros Hnd. eapply sublist_NoDup; [exact Hnd|]. apply sublist_app; [|done].
  apply fmap_sublist, MessageQueue.remove_entry_sublist.
Qed.

(** An update of one alarm that keeps what the invariant says of it. *)
Lemma Inv_update (f : A → Alarm.t I) a al id b :
  (b = a → Alarm._status al = Alarm._status (f a) ∧ Alarm._messageId al = Alarm._messageId (f a)) →
  (Alarm._status (<[a := al]> f b) = Alarm.kStatusStart ∧ Alarm._messageId (<[a := al]> f b) = id ↔
   Alarm._status (f b) = Alarm.kStatusStart ∧ Alarm._messageId (f b) = id).
Proof.
  intros H. destruct (decide (a = b)) as [<-|Hne].
  - rewrite fn_lookup_insert. by destruct (H eq_refl) as [-> ->].
  - by rewrite fn_lookup_insert_ne.
Qed.

Lemma Inv_init s : initial s → Inv s.
Proof.
  intros (Hq & He & Ht & Ha). exists []. unfold live, round. rewrite He, Ht.
  split_and!; [done|constructor|..].
  - intros id a. destruct (Ha a) as [d ->]. split; [|by intros [? _]].
    intros [(e & Hn%elem_of_nil & _)|[Hn%elem_of_nil _]]; done.
  - intros a. by destruct (Ha a) as [d ->].
  - intros a b. by destruct (Ha a) as [d ->].
  - done.
Qed.

(** An operation that leaves the alarm and the queue as they are. *)
Lemma Inv_same s a :
  Inv (mkSys (<[a := alarms s a]> (alarms s)) (queue s) (tested s) (taken s)) ↔ Inv s.
Proof.
  assert (∀ b, (<[a:=alarms s a]> (alarms s)) b = alarms s b) as Hf.
  { intros b. destruct (decide (a = b)) as [<-|];
      [by rewrite fn_lookup_insert|by rewrite fn_lookup_insert_ne]. }
  unfold Inv, live, round. simpl. by setoid_rewrite Hf.
Qed.

(** The values of the fields after an update. *)
Lemma alarm_insert (f : A → Alarm.t I) a al b :
  (<[a := al]> f) b = if decide (a = b) then al else f b.
Proof.
  case_decide as H; [subst; apply fn_lookup_insert|by apply fn_lookup_insert_ne].
Qed.

Lemma Inv_SetCallback s a i :
  Inv s →
  Inv (mkSys (<[a := Alarm.SetCallback (alarms s a) i]> (alarms s)) (queue s) (tested s) (taken s)).
Proof.
  intros (es & Hq & Hnd & Hl & Hid & Hinj & Hst). exists es.
  assert (∀ b, Alarm._messageId (<[a:=Alarm.SetCallback (alarms s a) i]> (alarms s) b)
               = Alarm._messageId (alarms s b)) as Hm
    by (intros b; rewrite alarm_insert; by case_decide; subst).
  split_and!; try done; simpl.
  - intros id b. rewrite Inv_update by done. apply Hl.
  - intros b. rewrite Hm, alarm_insert. case_decide; subst; apply Hid.
  - intros b c. rewrite !Hm. apply Hinj.
  - intros id b. rewrite Hm. apply Hst.
Qed.

Lemma Inv_Start s a now sec b al q :
  Inv s → settled s a → fresh_id s → Alarm.Start a (alarms s a) (queue s) now sec = Ret (b, al, q) →
  Inv (mkSys (<[a := al]> (alarms s)) q (tested s) (taken s)).
Proof.
  intros (es & Hq & Hnd & Hl & Hid & Hinj & Hstale) Hset [Hfresh Hfid] E. specialize (Hfresh es Hq).
  assert (Inv s) as Hsame by by exists es.
  unfold Alarm.Start in E.
  destruct (Alarm._innerCallback (alarms s a)) as [i|];
    [case_decide as Hst|]; [revert E; intros [= _ <- <-]; by rewrite Inv_same| |
                            revert E; intros [= _ <- <-]; by rewrite Inv_same].
  destruct (tq_post_law _ _ now sec a Hq) as (q' & Ep & Hn0 & Hq' & Hc).
  rewrite Ep in E. revert E. intros [= _ <- <-].
  set (e := MessageQueue.mkEntry _ _ _) in Hq'. exists (MessageQueue.insert_entry e es).
  split; [done|]. unfold round in *. simpl. rewrite insert_entry_Permutation.
  split; [by constructor|]. split_and!.
  - intros id c. unfold live, round. simpl. setoid_rewrite (insert_entry_Permutation e es).
    setoid_rewrite elem_of_cons. rewrite Hc. specialize (Hl id c). unfold live, round in Hl.
    rewrite alarm_insert. case_decide as Hac; subst.
    + simpl. split; [|intros [_ <-]; left; exists e; auto].
      intros [(e' & [->|He] & E1 & E2)|Ht]; [done|exfalso..]; apply Hst, Hl; eauto.
    + rewrite <-Hl. split; [|naive_solver].
      intros [(e' & [->|He] & E1 & E2)|Ht]; [simpl in E2; congruence|eauto..].
  - intros c. rewrite alarm_insert. case_decide; [done|apply Hid].
  - intros c d. rewrite !alarm_insert. repeat case_decide; simpl; try congruence.
    all: intros Hm; first [by apply Hinj|by destruct (Hfid d (eq_sym Hm))|by destruct (Hfid c Hm)].
  - intros id c Ht Hin. rewrite Hc in Hin. rewrite alarm_insert. case_decide; [|by eapply Hstale].
    subst c. by destruct (Hset id Ht).
Qed.

Lemma Inv_Cancel s a b al q :
  Inv s → Alarm.Cancel (A:=A) (alarms s a) (queue s) = Ret (b, al, q) →
  Inv (mkSys (<[a := al]> (alarms s)) q (tested s) (taken s)).
Proof.
  intros Hi E. unfold Alarm.Cancel in E. destruct (Z.eqb_spec (Alarm._messageId (alarms s a)) 0) as [Hz|Hz].
  { revert E. intros [= _ <- <-]. by rewrite Inv_same. }
  destruct Hi as (es & Hq & Hnd & Hl & Hid & Hinj & Hstale).
  destruct (tq_cancel_law _ es (Alarm._messageId (alarms s a)) Hq) as (b' & q' & Ec & Hq' & Hc).
  rewrite Ec in E. revert E. intros [= _ <- <-]. set (i := Alarm._messageId (alarms s a)) in *.
  exists (MessageQueue.remove_entry i es). split; [done|]. split; [by apply NoDup_remove_entry|].
  assert (NoDup (MessageQueue.e_id <$> es)) as Hnd1 by by apply NoDup_app in Hnd as [? _].
  split_and!.
  - intros id c. trans (live s es id c ∧ id ≠ i).
    { unfold live, round. simpl. setoid_rewrite (elem_of_remove_entry i es _ Hnd1). rewrite Hc. set_solver. }
    rewrite Hl. simpl. rewrite alarm_insert. case_decide as Hac; subst; simpl.
    + split; [by intros [[_ <-] ?]|by intros []].
    + split; [tauto|]. intros [Hst Hm]. split; [done|]. intros ->. by apply Hac, Hinj.
  - intros c. simpl. rewrite alarm_insert. case_decide; [done|apply Hid].
  - intros c d. simpl. rewrite !alarm_insert. repeat case_decide; simpl; try congruence. apply Hinj.
  - simpl. intros id c Ht. rewrite Hc, alarm_insert. case_decide as Hac; [done|].
    intros [->%elem_of_singleton|Hin]%elem_of_union; [|by eapply Hstale].
    destruct (decide (i ∈ tq_cancelled (C:=A) (queue s))) as [Hin|Hin]; [by eapply Hstale|].
    assert (live s es i c) as [_ Hm]%Hl.
    { right. split; [|done]. unfold round. rewrite Ht. by left. }
    destruct Hac. by apply Hinj.
Qed.

Lemma Inv_round s now l q :
  Inv s → tested s = None → taken s = [] → tq_drain (queue s) now = Ret (l, q) →
  Inv (mkSys (alarms s) q None l).
Proof.
  intros (es & Hq & Hnd & Hl & Hid & Hinj & _) He Ht E. unfold live, round in *.
  destruct (tq_drain_law _ es now Hq) as (q' & Ed & Hq' & Hc).
  rewrite Ed in E. injection E as <- <-.
  pose proof (MessageQueue.split_due_app tq_ticks now es) as Happ.
  set (due := fst _) in *. set (rest := snd _) in *. rewrite He, Ht, app_nil_r in Hnd.
  rewrite <-Happ, fmap_app in Hnd. pose proof Hnd as (Hnd1 & Hdis & Hnd2)%NoDup_app.
  assert (∀ id c, (id, c) ∈ MessageQueue.in_key_order (MessageQueue.collect due ∅) ↔
            ∃ e, e ∈ due ∧ MessageQueue.e_id e = id ∧ MessageQueue.e_callback e = Some c) as Hin.
  { intros id c. rewrite MessageQueue.elem_of_in_key_order, MessageQueue.collect_lookup by done.
    rewrite lookup_empty. naive_solver. }
  exists rest. split; [done|]. simpl. split; [|split_and!; try done].
  - apply NoDup_app. split; [done|]. split; [|apply MessageQueue.in_key_order_NoDup].
    intros id Hr ((id' & c) & -> & (e & Hed & <- & _)%Hin)%list_elem_of_fmap.
    apply (Hdis (MessageQueue.e_id e)); [by apply list_elem_of_fmap_2|done].
  - intros id c. rewrite <-Hl. unfold live, round. simpl. rewrite He, Ht, Hin, Hc, <-Happ.
    setoid_rewrite elem_of_app. setoid_rewrite elem_of_nil. set_solver.
Qed.

(** The next callback of the round has been cancelled. *)
Lemma Inv_drop s s' id a :
  Inv s → alarms s' = alarms s → queue s' = queue s → tested s' = None →
  round s = (id, a) :: round s' → id ∈ tq_cancelled (C:=A) (queue s) → Inv s'.
Proof.
  intros (es & Hq & Hnd & Hl & Hid & Hinj & _) Ea Eq Et Er Hc. exists es.
  unfold live in *. rewrite Ea, Eq, Et. rewrite Er in *. split_and!; try done; simpl in *.
  - eapply sublist_NoDup; [exact Hnd|]. apply sublist_app; [done|]. by apply sublist_cons.
  - intros id' c. rewrite <-Hl, elem_of_cons. naive_solver.
Qed.

(** It is the pending callback of its alarm. *)
Lemma Inv_fires s id a al :
  Inv s → tested s = Some (id, a) → id ∉ tq_cancelled (C:=A) (queue s) →
  Alarm._status al = Alarm.kStatusAlarm → Alarm._messageId al = Alarm._messageId (alarms s a) →
  Inv (mkSys (<[a := al]> (alarms s)) (queue s) None (taken s)) ∧
  Alarm._status (alarms s a) = Alarm.kStatusStart ∧ Alarm._messageId (alarms s a) ≠ 0.
Proof.
  intros (es & Hq & Hnd & Hl & Hid & Hinj & _) Ht Hc Hal Hmal. unfold live, round in Hnd, Hl.
  rewrite Ht in Hnd, Hl. simpl in Hnd, Hl.
  pose proof (proj1 (Hl id a) (or_intror (conj (list_elem_of_here _ _) Hc))) as [Hst Hm].
  pose proof (Hid a Hst) as Hnz. split; [|done]. exists es.
  apply NoDup_app in Hnd as (Hnd1 & Hdis & [Hid2 Hnd2]%NoDup_cons).
  unfold round. simpl. split; [done|]. split; [|split_and!].
  - apply NoDup_app. split_and!; try done. intros x Hx Hx2. apply (Hdis x Hx). by right.
  - intros id' c. trans (live s es id' c ∧ c ≠ a).
    { unfold live, round. simpl. rewrite Ht. simpl. rewrite elem_of_cons. split.
      - intros [(e & He & <- & Ec)|[Hin Hn]].
        + split; [left; eauto|]. intros ->.
          pose proof (proj1 (Hl (MessageQueue.e_id e) a) (or_introl (ex_intro _ e (conj He (conj eq_refl Ec)))))
            as [_ Hm'].
          apply (Hdis (MessageQueue.e_id e)); [by apply list_elem_of_fmap_2|rewrite <-Hm', Hm; by left].
        + split; [right; auto|]. intros ->.
          pose proof (proj1 (Hl id' a) (or_intror (conj (list_elem_of_further _ _ _ Hin) Hn))) as [_ Hm'].
          apply Hid2. apply list_elem_of_fmap. exists (id', a). simpl. split; [congruence|done].
      - intros [[?|[[[= -> ->]|?] ?]] ?]; [by left|done|by right]. }
    unfold live, round. rewrite Ht. simpl. rewrite Hl, alarm_insert. case_decide; subst; simpl; [|naive_solver].
    rewrite Hal. split; [by intros [_ ?]|by intros []].
  - intros c. rewrite alarm_insert. case_decide; subst; [by rewrite Hal|apply Hid].
  - intros c d. rewrite !alarm_insert. repeat case_decide; subst; rewrite ?Hmal; auto.
  - done.
Qed.

Lemma Inv_step s o s' : Inv s → step settled s o s' → Inv s'.
Proof.
  intros Hi Hs. destruct Hs as [| | |s now l q He Ht Hd|s id a l He Ht Hc|s id a l He Ht Hc|s id a al fires He E].
  - by apply Inv_SetCallback.
  - by eapply Inv_Start.
  - by eapply Inv_Cancel.
  - by eapply Inv_round.
  - eapply Inv_drop; try done. unfold round. simpl. by rewrite He, Ht.
  - destruct Hi as (es & Hq & Hnd & Hl & Hid & Hinj & _). exists es.
    assert (round (mkSys (alarms s) (queue s) (Some (id, a)) l) = round s) as Er
      by (unfold round; simpl; by rewrite He, Ht).
    unfold live in *. rewrite Er. simpl. split_and!; try done. by intros ? ? [= <- <-].
  - unfold Alarm.callback in E.
    destruct (decide (id ∈ tq_cancelled (C:=A) (queue s))) as [Hc|Hc].
    + pose proof Hi as (_ & _ & _ & _ & _ & _ & Hstale). rewrite (Hstale id a He Hc) in E.
      simpl in E. injection E as <- _.
      apply (Inv_same (mkSys (alarms s) (queue s) None (taken s))). simpl.
      eapply Inv_drop; try done. unfold round. simpl. by rewrite He.
    + destruct (Z.eqb_spec (Alarm._messageId (alarms s a)) 0) as [Hz|Hz]; injection E as <- _.
      * destruct (Inv_fires s id a (Alarm.mk None 0 Alarm.kStatusAlarm 0) Hi He Hc) as (_ & _ & Hn); done.
      * by eapply Inv_fires.
Qed.

Lemma reachable_Inv s : reachable settled s → Inv s.
Proof. induction 1; eauto using Inv_init, Inv_step. Qed.

(** *** Properties *)

(** C29: an alarm that is started has exactly one callback pending, the one with its
    message id, and an alarm that is not started has none: at every point of every
    interleaving of Start, Cancel, SetCallback and the queue's thread in which no
    alarm is started between the test and the run of a callback of it that has been
    cancelled in between. *)
Theorem alarm_pending s :
  reachable settled s →
  ∃ es, tq_holds (queue s) es ∧ ∀ id a,
    live s es id a ↔ Alarm.IsWaiting (alarms s a) = true ∧ Alarm._messageId (alarms s a) = id.
Proof.
  intros (es & Hq & _ & Hl & _)%reachable_Inv. exists es. split; [done|]. intros id a.
  unfold Alarm.IsWaiting. by rewrite bool_decide_eq_true.
Qed.

(** C30: in the same interleavings a callback goes on to the inner callback of its
    alarm only if the alarm is started and the message is that of its last Start, not
    cancelled, also when a Cancel comes between the test and the callback's lock;
    afterwards the alarm has fired and nothing is pending for it. *)
Theorem alarm_fires_once s a s' :
  reachable settled s → step settled s (Some a) s' →
  Alarm.IsWaiting (alarms s a) = true ∧
  (∃ id, tested s = Some (id, a) ∧ id = Alarm._messageId (alarms s a) ∧
         id ∉ tq_cancelled (C:=A) (queue s)) ∧
  Alarm.IsAlarm (alarms s' a) = true ∧
  ∃ es, tq_holds (queue s') es ∧ ∀ id, ¬ live s' es id a.
Proof.
  intros Hi%reachable_Inv Hs. remember (Some a) as o eqn:Eo.
  destruct Hs as [| | | | | |s id a0 al fires He E]; try done.
  destruct fires; [|done]. injection Eo as ->. unfold Alarm.callback in E.
  destruct (Z.eqb_spec (Alarm._messageId (alarms s a)) 0) as [Hz|Hz]; [done|]. injection E as <-.
  pose proof Hi as (es0 & _ & _ & Hl0 & _ & _ & Hstale).
  assert (id ∉ tq_cancelled (C:=A) (queue s)) as Hc by (intros Hc; by apply Hz, (Hstale id)).
  assert (live s es0 id a) as [Hst Hm]%Hl0.
  { right. split; [|done]. unfold round. rewrite He. by left. }
  destruct (Inv_fires s id a (Alarm.mk (Alarm._innerCallback (alarms s a)) (Alarm._messageId (alarms s a))
    Alarm.kStatusAlarm (Alarm._userData (alarms s a))) Hi He Hc) as ((es & Hq & _ & Hl & _) & _); [done..|].
  unfold Alarm.IsWaiting, Alarm.IsAlarm. simpl. rewrite alarm_insert, decide_True, !bool_decide_eq_true by done.
  split_and!; try done; [by eexists|]. exists es. split; [done|]. intros id' Hlive%Hl. simpl in Hlive.
  rewrite alarm_insert, decide_True in Hlive by done. by destruct Hlive.
Qed.

End system.
Arguments sys A I Q : clear implicits.

(** ** Witnesses: one alarm of the queue of message_queue.cpp *)

Abbreviation one_sys := (sys nat unit (MessageQueue.t nat)).
Definition example_alarms : one_sys := mkSys (λ _, Alarm.new 0) MessageQueue.new None [].

Lemma empty_holds {A} (q : MessageQueue.t A) (es : list (MessageQueue.entry A)) :
  MessageQueue._firstMessage q = None → tq_holds q es → es = [].
Proof.
  intros Hf ((l & (Hs & _ & _) & ->) & _). destruct l as [|[a e] l]; [done|].
  rewrite Hf in Hs. by destruct Hs.
Qed.

Lemma holds_empty {A} (q : MessageQueue.t A) :
  MessageQueue.heap q = ∅ → MessageQueue._firstMessage q = None →
  1 ≤ MessageQueue._currentMsgId q < MessageQueue.UINT32_MAX → tq_holds q [].
Proof.
  intros Hh Hf Hid. split; [|split; [constructor|done]]. exists []. split; [|done].
  split_and!; [done|constructor|]. intros a. rewrite Hh, lookup_empty, elem_of_nil.
  split; [by intros []|done].
Qed.

(** The alarm 0 is started for one second; two seconds later its message is taken
    and tested. *)
Definition started_alarms : nat → Alarm.t unit := <[0%nat := Alarm.SetCallback (Alarm.new 0) ()]> (λ _, Alarm.new 0).
Definition started : checked (bool * Alarm.t unit * MessageQueue.t nat) :=
  Alarm.Start 0%nat (started_alarms 0%nat) MessageQueue.new 0 1.
Definition about_to_run : option one_sys :=
  match started with
  | Ret (_, al, q) =>
      match tq_drain q 2000000000 with
      | Ret ((id, a) :: l, q) => Some (mkSys (<[0%nat := al]> started_alarms) q (Some (id, a)) l)
      | _ => None
      end
  | _ => None
  end.

Lemma about_to_run_reachable admits :
  (∀ s, tested s = None → admits s 0%nat) → ∃ s : one_sys, reachable admits s ∧ about_to_run = Some s.
Proof.
  intros Hadm.
  assert (reachable admits example_alarms) as H0.
  { apply reach_init. split_and!; [by apply holds_empty|done|done|by exists 0]. }
  pose proof (reach_step _ _ _ _ H0 (step_SetCallback _ _ 0%nat ())) as H1.
  change (reachable admits (mkSys started_alarms MessageQueue.new None [])) in H1.
  unfold about_to_run. destruct started as [[[b al] q]| | |] eqn:Es; [|by vm_compute in Es..].
  assert (reachable admits (mkSys (<[0%nat := al]> started_alarms) q None [])) as H2.
  { eapply reach_step; [exact H1|]. apply (step_Start admits (mkSys started_alarms MessageQueue.new None []) 0%nat 0 1 b al q);
      [by apply Hadm| |exact Es].
    split; [intros es ->%empty_holds; [apply not_elem_of_nil|done]|].
    intros a. simpl. unfold started_alarms. rewrite alarm_insert. by case_decide. }
  assert (∃ id a q', tq_drain q 2000000000 = Ret ([(id, a)], q') ∧
    bool_decide (id ∈ tq_cancelled (C:=nat) q') = false) as (id & a & q' & Ed & Hc).
  { vm_compute in Es. injection Es as _ _ <-. eexists _, _, _. split; [vm_compute; reflexivity|]. by vm_compute. }
  rewrite Ed. eexists. split; [|done]. eapply reach_step; [eapply reach_step; [exact H2|]|].
  - by eapply (step_round _ _ 2000000000 _ q').
  - by apply step_test; [done|done|apply bool_decide_eq_false in Hc].
Qed.

Lemma example_started : ∃ s : one_sys, reachable settled s ∧ about_to_run = Some s.
Proof. apply about_to_run_reachable. intros s Hs id. by rewrite Hs. Qed.

Lemma alarm_pending_witness :
  ∃ (s : one_sys) es, Alarm.IsWaiting (alarms s 0%nat) = true ∧
    ∀ id a, live s es id a ↔
      Alarm.IsWaiting (alarms s a) = true ∧ Alarm._messageId (alarms s a) = id.
Proof.
  destruct example_started as (s & Hs & E). exists s.
  destruct (alarm_pending s Hs) as (es & _ & H). exists es. split; [|exact H].
  vm_compute in E. by injection E as <-.
Defined.

Lemma alarm_fires_once_witness : ∃ s' : one_sys, Alarm.IsAlarm (alarms s' 0%nat) = true.
Proof.
  destruct example_started as (s & Hs & E).
  assert (∃ al, tested s = Some (1, 0%nat) ∧ Alarm.callback (alarms s 0%nat) = (al, true)) as (al & Ht & Hc).
  { vm_compute in E. injection E as <-. by eexists. }
  eexists. apply (alarm_fires_once s 0%nat _ Hs). exact (step_run settled s 1 0%nat al true Ht Hc).
Defined.

(** *** Outside those interleavings

    A callback that has passed the test runs for the next Start of its alarm: the
    alarm is cancelled and started again before the callback takes its lock.  It
    then goes on to the inner callback at once, instead of a second later, and the
    alarm counts as fired while the callback of its new message is still pending. *)
Lemma cancelled_alarm_fires :
  ∃ (s s' : one_sys) es, reachable any_time s ∧ step any_time s (Some 0%nat) s' ∧
    (∃ id, tested s = Some (id, 0%nat) ∧ id ∈ tq_cancelled (C:=nat) (queue s)) ∧
    Alarm.IsAlarm (alarms s' 0%nat) = true ∧ tq_holds (queue s') es ∧
    live s' es (Alarm._messageId (alarms s' 0%nat)) 0%nat.
Proof.
  destruct (about_to_run_reachable any_time) as (s & Hs & E); [done|].
  assert (tested s = Some (1, 0%nat) ∧ taken s = [] ∧ (∀ a, Alarm._messageId (alarms s a) = 0 ∨ a = 0%nat))
    as (Ht & Hl & Ha).
  { vm_compute in E. injection E as <-. split_and!; [done|done|]. intros [|a]; [by right|by left]. }
  destruct (Alarm.Cancel (A:=nat) (alarms s 0%nat) (queue s)) as [[[b1 al1] q1]| | |] eqn:E1.
  2-4: vm_compute in E; injection E as <-; by vm_compute in E1.
  assert (tq_holds q1 [] ∧ MessageQueue._firstMessage q1 = None ∧ tq_next (C:=nat) q1 = 2 ∧
    Alarm._messageId al1 = 0 ∧ Alarm._innerCallback al1 = Some () ∧ Alarm._status al1 = Alarm.kStatusCancel ∧
    bool_decide (1 ∈ tq_cancelled (C:=nat) q1) = true) as (Hq1 & Hf1 & Hn & Hm1 & Hi1 & Hst1 & Hc1).
  { vm_compute in E. injection E as <-. vm_compute in E1. injection E1 as _ <- <-.
    split; [by apply holds_empty|by split_and!]. }
  pose proof (reach_step _ _ _ _ Hs (step_Cancel any_time s 0%nat _ _ _ E1)) as Hs1.
  set (s1 := mkSys _ _ _ _) in Hs1.
  destruct (tq_post_law q1 [] 2000000000 1 0%nat Hq1) as (q2 & E2 & _ & Hq2 & Hc2). rewrite Hn in E2, Hq2.
  set (al2 := Alarm.mk (Some ()) 2 Alarm.kStatusStart (Alarm._userData al1)).
  assert (Alarm.Start 0%nat (alarms s1 0%nat) (queue s1) 2000000000 1 = Ret (true, al2, q2)) as E3.
  { change (alarms s1) with (<[0%nat := al1]> (alarms s)). rewrite alarm_insert, decide_True by done.
    unfold Alarm.Start. rewrite Hi1, Hst1, decide_False by done.
    change (queue s1) with q1. by rewrite E2. }
  assert (reachable any_time (mkSys (<[0%nat := al2]> (alarms s1)) q2 (tested s1) (taken s1))) as Hs2.
  { eapply reach_step; [exact Hs1|]. eapply step_Start; [done| |exact E3]. split.
    - intros es ->%empty_holds; [|done]. change (queue s1) with q1. rewrite Hn. unfold round. simpl. rewrite Ht, Hl. simpl.
      intros ?%list_elem_of_singleton. lia.
    - intros a. change (queue s1) with q1. rewrite Hn.
      change (alarms s1) with (<[0%nat := al1]> (alarms s)). rewrite alarm_insert.
      destruct (decide (0%nat = a)) as [|Hne]; [rewrite Hm1; lia|]. destruct (Ha a); [lia|congruence]. }
  set (s2 := mkSys _ q2 _ _) in Hs2.
  assert (Alarm.callback (alarms s2 0%nat) = (Alarm.mk (Some ()) 2 Alarm.kStatusAlarm (Alarm._userData al1), true)) as Ecb.
  { simpl. by rewrite alarm_insert, decide_True. }
  eexists s2, _, _. split; [exact Hs2|]. split; [exact (step_run any_time s2 1 0%nat _ true Ht Ecb)|]. split.
  { exists 1. split; [exact Ht|]. change (queue s2) with q2. rewrite Hc2. by apply bool_decide_eq_true in Hc1. }
  simpl. rewrite alarm_insert, decide_True by done. split; [done|]. split; [exact Hq2|].
  left. eexists. split; [by left|]. split; done.
Qed.
