(* ===== verification/TcpDefine.v ===== *)
(** * TcpDefine: the enumerations of the client (src/tcp_define.h) and the
    addresses it connects to (src/connect/tcp_connector.hpp) *)
From S2P Require Import Prelude.

Inductive DisconnectCode : Set :=
| kDisCodeNone | kDisCodeReset | kDisCodeNetChange | kDisCodeNetLost | kDisCodeKickout
| kDisCodeLogout | kDisCodeConnectTimeout | kDisCodeSendReqTimeout | kDisCodePingTimeout.

Inductive NetType : Set := kNetTypeUnknown | kNetTypeWifi | kNetTypeMobile | kNetTypeNoNet.

Inductive ConnectStatus : Set :=
| kConnectIdle | kConnecting | kConnected | kDisconnected | kConnectFailed | kConnectKickout.

Inductive ErrorCode : Set :=
| kErrorCodeNone | kErrorCodeNotConnect | kErrorCodeTimeout | kErrorCodeLoseConnect.

(** The enumeration SvrDisCode, and the other values that the cast of a byte of
    the server can give. *)
Inductive SvrDisCode : Set := SvrDisNone | SvrDisKickout | SvrDisOther (v : Z).

#[export] Instance DisconnectCode_eq_dec : EqDecision DisconnectCode.
Proof. solve_decision. Defined.
#[export] Instance NetType_eq_dec : EqDecision NetType.
Proof. solve_decision. Defined.
#[export] Instance ConnectStatus_eq_dec : EqDecision ConnectStatus.
Proof. solve_decision. Defined.
#[export] Instance ErrorCode_eq_dec : EqDecision ErrorCode.
Proof. solve_decision. Defined.
#[export] Instance SvrDisCode_eq_dec : EqDecision SvrDisCode.
Proof. solve_decision. Defined.

(** struct AddrInfo *)
Record AddrInfo : Set := mkAddrInfo { ip : bytes; port : Z; isTls : bool }.
