(* ===== verification/Connector.v ===== *)
(** * Connector: opening one connection (src/connect/tcp_connector.hpp, .cpp,
    ssl_connector.hpp, .cpp)

    A connector is a state machine that is driven by two functions around a call of
    select: PreSelect registers its descriptor, AfterSelect looks at the outcome.
    The virtual methods dispatch on [_class].  A connector and the SocketSelect it is
    given are the state of the monad of Monad.v, with the operating system. *)
From S2P Require Import Prelude Monad TcpError Sockets SocketBreaker TimeUtils UnixSocket.
From S2P Require Import Poll TcpDefine.

(** ** A pointer to TcpSocket, by its dynamic class *)

Inductive AnySocket : Set := Plain (s : TcpSocket.t) | Tls (s : SSLSocket.t).

(** The static variable [_ctx] of ssl_socket.cpp. *)
Class SslStatic (K : Type) := {
  get_ctx : K → option Z;
  set_ctx : option Z → K → K;
}.

Module AnySocket.
Section ops.
Context {K : Type} `{!Kernel K, !OpenSSL K, !SslStatic K}.

Definition IsInvalid (s : AnySocket) : bool :=
  match s with Plain s => TcpSocket.IsInvalid s | Tls s => SSLSocket.IsInvalid s end.
Definition GetSocket (s : AnySocket) : Z :=
  match s with Plain s => TcpSocket.GetSocket s | Tls s => SSLSocket.GetSocket s end.
Definition GetConnectError (s : AnySocket) : Z :=
  match s with Plain s => TcpSocket.GetConnectError s | Tls s => SSLSocket.GetConnectError s end.

Definition Connect (s : AnySocket) (k : K) : Z * AnySocket * K :=
  match s with
  | Plain s => (TcpSocket.Connect s, Plain s, k)
  | Tls s =>
      let '(err, s, ctx, k) := SSLSocket.Connect s (get_ctx k) k in
      (err, Tls s, set_ctx ctx k)
  end.

Definition Close (s : AnySocket) (k : K) : AnySocket * K :=
  match s with
  | Plain s => let '(s, k) := TcpSocket.Close s k in (Plain s, k)
  | Tls s => let '(s, k) := SSLSocket.Close s k in (Tls s, k)
  end.

Definition Read (s : AnySocket) (len : Z) (k : K) : result bytes * K :=
  match s with Plain s => TcpSocket.Read s len k | Tls s => SSLSocket.Read s len k end.
Definition Write (s : AnySocket) (buf : bytes) (k : K) : result unit * K :=
  match s with Plain s => TcpSocket.Write s buf k | Tls s => SSLSocket.Write s buf k end.

#[export] Instance isocket : ISocket AnySocket K := {| sock_Read := Read; sock_Write := Write |}.
#[export] Instance control : SocketControl AnySocket K :=
  {| sock_IsInvalid := IsInvalid; sock_GetSocket := GetSocket; sock_Close := Close |}.

End ops.
End AnySocket.
#[export] Existing Instances AnySocket.isocket AnySocket.control.

(** ** The connectors *)

Inductive ConnectorStatus : Set :=
| ConnStatusStart | ConnStatusConnecting | ConnStatusError | ConnStatusStartSSL
| ConnStatusSSLConnecting | ConnStatusConnected | ConnStatusEnd.

#[export] Instance ConnectorStatus_eq_dec : EqDecision ConnectorStatus.
Proof. solve_decision. Defined.

(** socket(2), connect(2) with the address and the port of a [sockaddr_in], which
    also gives [errno], and inet_addr(3). *)
Class ConnectKernel (K : Type) := {
  socket : K → Z * K;
  connect : Z → Z → Z → K → Z * Z * K;
  inet_addr : bytes → Z;
}.

Definition EINPROGRESS : Z := 115.
Definition IS_NOBLOCK_CONNECT_ERRNO (err : Z) : bool := err =? EINPROGRESS.
Definition INT_MAX : Z := 2 ^ 31 - 1.

(** What [delete] does with an object of a derived class through a pointer to its base
    class when the destructor of that is not virtual: the standard leaves it undefined
    ([false]); the usual compilers run the destructor of the base class and free the
    memory ([true]). *)
Class BaseDelete := base_delete : bool.

Module Connector.

Inductive cls : Set := TcpConnector | SSLConnector.

Record t : Set := mk {
  _class : cls;
  _addr : AddrInfo;
  _socket : option AnySocket;
  _status : ConnectorStatus;
  _index : Z;
  _connTimeout : Z;              (* unsigned int, in ms *)
  _startConnTime : Z;            (* uint64_t *)
  _endConnTime : Z;
}.

#[export] Instance t_rebuild : Rebuild t := λ c,
  mk (_class c) (_addr c) (_socket c) (_status c) (_index c) (_connTimeout c) (_startConnTime c)
     (_endConnTime c).

(** The constructors; [_endConnTime] is indeterminate. *)
Definition new (class : cls) (addr : AddrInfo) (index connTimeout indeterminate : Z) : t :=
  mk class addr None ConnStatusStart index connTimeout 0 indeterminate.

Definition Socket (c : t) : option AnySocket := _socket c.
Definition SetSocket (c : t) (s : option AnySocket) : t := c <| _socket := s |>.
Definition Status (c : t) : ConnectorStatus := _status c.

Section ops.
Context {P K : Type} `{!SocketPollBase P K, !PipeKernel K, !Clock K, !SockOpts K}.
Context `{!Kernel K, !OpenSSL K, !SslStatic K, !ConnectKernel K, !BaseDelete}.

(** The connector, the SocketSelect and the operating system. *)
Record env : Type := mkEnv { self : t; sel : P; os : K }.
#[export] Instance env_rebuild : Rebuild env := λ e, mkEnv (self e) (sel e) (os e).
Abbreviation M := (ST env).

Definition get {A} (f : t → A) : M A := gets (λ e, f (self e)).
Definition set (f : t → t) : M unit := modify (λ e, e <| self := f (self e) |>).
Definition set_status (s : ConnectorStatus) : M unit := set (λ c, c <| _status := s |>).
Definition call {A} (f : K → A * K) : M A := λ e,
  let '(a, k) := f (os e) in Ret (a, e <| os := k |>).
Definition with_sel (f : P → P) : M unit := modify (λ e, e <| sel := f (sel e) |>).

(** [_socket->...] of a null pointer is undefined. *)
Definition socket_ptr : M AnySocket :=
  s ← get _socket;
  match s with Some s => mret s | None => undefined end.

Definition __NewSocket (class : cls) (fd : Z) : AnySocket :=
  match class with
  | TcpConnector => Plain (TcpSocket.mk fd)
  | SSLConnector => Tls (SSLSocket.new fd)
  end.

Definition Timeout : M Z :=
  status ← get _status;
  if bool_decide (status = ConnStatusConnecting) || bool_decide (status = ConnStatusSSLConnecting)
  then
    start ← get _startConnTime;
    connTimeout ← get _connTimeout;
    now ← call gettickcount;
    mret (i32 (u64 (u64 (start + connTimeout) - now)))
  else if bool_decide (status = ConnStatusError) || bool_decide (status = ConnStatusConnected)
  then mret 0
  else mret INT_MAX.

(** [delete] of an object of the base class, or of the derived one. *)
Definition delete_object (derived : bool) : M unit :=
  if derived && negb base_delete then undefined else mret ().

(** The destructors of the sockets do nothing. *)
Definition Close : M unit :=
  s ← get _socket;
  match s with
  | None => mret ()
  | Some s =>
      call (AnySocket.Close s);;
      delete_object (match s with Plain _ => false | Tls _ => true end);;
      set (λ c, c <| _socket := None |> <| _status := ConnStatusEnd |>)
  end.

(** [delete connectors[i]]: the destructor of TcpConnector calls Close. *)
Definition delete : M unit :=
  class ← get _class;
  delete_object (match class with TcpConnector => false | SSLConnector => true end);;
  Close.

Definition PreConnectSelect : M unit :=
  socketFd ← call socket;
  addr ← get _addr;
  if socketFd =? INVALID_SOCKET then set_status ConnStatusError
  else if bool_decide (ip addr = []) then set_status ConnStatusError
  else
    ret ← call (socket_set_noblo socketFd);
    if negb (ret =? 0) then set_status ConnStatusError
    else
      now ← call gettickcount;
      set (λ c, c <| _startConnTime := now |>);;
      '(ret, errno) ← call (connect socketFd (inet_addr (K:=K) (ip addr)) (port addr));
      if negb (ret =? 0) && negb (IS_NOBLOCK_CONNECT_ERRNO errno) then set_status ConnStatusError
      else
        with_sel (SocketSelect.WriteFdSet (K:=K) socketFd);;
        with_sel (SocketSelect.ExceptionFdSet (K:=K) socketFd);;
        class ← get _class;
        set (λ c, c <| _socket := Some (__NewSocket class socketFd) |>);;
        set_status ConnStatusConnecting.

Definition AfterConnectSelect : M unit :=
  s ← get _socket;
  match s with
  | None => set_status ConnStatusError
  | Some s =>
      timeout ← Timeout;
      let socketFd := AnySocket.GetSocket s in
      exception ← gets (λ e, SocketSelect.ExceptionFdIsSet (K:=K) socketFd (sel e));
      if (exception : bool) then
        call (getsockopt socketFd SO_ERROR);;
        set_status ConnStatusError
      else
        writable ← gets (λ e, SocketSelect.WriteFdIsSet (K:=K) socketFd (sel e));
        if (writable : bool) then
          now ← call gettickcount;
          set (λ c, c <| _endConnTime := now |>);;
          tls ← get (λ c, isTls (_addr c));
          if (tls : bool) then set_status ConnStatusStartSSL
          else
            ret ← call (socket_set_blo socketFd);
            if negb (ret =? 0) then set_status ConnStatusError
            else set_status ConnStatusConnected
        else if timeout <=? 0 then set_status ConnStatusError
        else mret ()
  end.

(** TcpConnector::PreSelect and TcpConnector::AfterSelect *)
Definition Tcp_PreSelect : M unit :=
  status ← get _status;
  match status with
  | ConnStatusStart => PreConnectSelect
  | ConnStatusConnecting =>
      s ← socket_ptr;
      let socket := AnySocket.GetSocket s in
      with_sel (SocketSelect.WriteFdSet (K:=K) socket);;
      with_sel (SocketSelect.ExceptionFdSet (K:=K) socket)
  | _ => mret ()
  end.

Definition Tcp_AfterSelect : M unit :=
  status ← get _status;
  match status with
  | ConnStatusConnecting => AfterConnectSelect
  | _ => mret ()
  end.

(** *** class SSLConnector *)

Definition PreSSLSelect : M unit :=
  s ← socket_ptr;
  '(error, s) ← call (λ k, let '(error, s, k) := AnySocket.Connect s k in ((error, s), k));
  set (λ c, c <| _socket := Some s |>);;
  let socket := AnySocket.GetSocket s in
  let connecting :=
    with_sel (SocketSelect.ExceptionFdSet (K:=K) socket);;
    set_status ConnStatusSSLConnecting in
  if error =? SSL_ERROR_WANT_READ then
    with_sel (SocketSelect.ReadFdSet (K:=K) socket);; connecting
  else if error =? SSL_ERROR_WANT_WRITE then
    with_sel (SocketSelect.WriteFdSet (K:=K) socket);; connecting
  else if error =? SSL_ERROR_NONE then mret ()
  else set_status ConnStatusError.

Definition AfterSSLSelect : M unit :=
  timeout ← Timeout;
  s ← socket_ptr;
  let socket := AnySocket.GetSocket s in
  exception ← gets (λ e, SocketSelect.ExceptionFdIsSet (K:=K) socket (sel e));
  if (exception : bool) then
    call (getsockopt socket SO_ERROR);;
    set_status ConnStatusError
  else
    ready ← gets (λ e, SocketSelect.WriteFdIsSet (K:=K) socket (sel e) ||
                       SocketSelect.ReadFdIsSet (K:=K) socket (sel e));
    if (ready : bool) then
      call gettickcount;;
      ret ← call (socket_set_blo socket);
      if negb (ret =? 0) then set_status ConnStatusError
      else set_status ConnStatusConnected
    else if timeout <=? 0 then set_status ConnStatusError
    else mret ().

Definition SSL_PreSelect : M unit :=
  Tcp_PreSelect;;
  status ← get _status;
  match status with
  | ConnStatusStartSSL => PreSSLSelect
  | ConnStatusSSLConnecting =>
      s ← socket_ptr;
      let socket := AnySocket.GetSocket s in
      let connError := AnySocket.GetConnectError s in
      with_sel (SocketSelect.ExceptionFdSet (K:=K) socket);;
      if connError =? SSL_ERROR_WANT_READ then with_sel (SocketSelect.ReadFdSet (K:=K) socket)
      else if connError =? SSL_ERROR_WANT_WRITE then with_sel (SocketSelect.WriteFdSet (K:=K) socket)
      else mret ()
  | _ => mret ()
  end.

Definition SSL_AfterSelect : M unit :=
  Tcp_AfterSelect;;
  status ← get _status;
  match status with
  | ConnStatusSSLConnecting => AfterSSLSelect
  | _ => mret ()
  end.

(** *** The virtual methods *)

Definition PreSelect : M unit :=
  class ← get _class;
  match class with TcpConnector => Tcp_PreSelect | SSLConnector => SSL_PreSelect end.

Definition AfterSelect : M unit :=
  class ← get _class;
  match class with TcpConnector => Tcp_AfterSelect | SSLConnector => SSL_AfterSelect end.

End ops.
End Connector.
