(* ===== verification/ConnectorProps.v ===== *)
(** * ConnectorProps: the state machine of a connector

    Which transitions a connector can take, that no null pointer is followed, that
    it reports a connection only after its descriptor is blocking again, and that it
    gives up at its deadline. *)
From S2P Require Import Prelude Monad TcpError Sockets SocketBreaker TimeUtils UnixSocket.
From S2P Require Import Poll TcpDefine Connector.
Import Connector.

Section props.
Context {P K : Type} `{!SocketPollBase P K, !PipeKernel K, !Clock K, !SockOpts K}.
Context `{!Kernel K, !OpenSSL K, !SslStatic K, !ConnectKernel K, !BaseDelete}.
Abbreviation env := (Connector.env (P:=P) (K:=K)).

(** ** Rules *)

Section rules.
Context {U : Prop}.

Lemma wp_get {A} (f : Connector.t → A) Φ (e : env) : Φ (f (self e)) e → wpx U (get f) Φ e.
Proof. done. Qed.
Lemma wp_set f Φ (e : env) : Φ () (e <| self := f (self e) |>) → wpx U (set f) Φ e.
Proof. done. Qed.
Lemma conn_wp_call {A} (f : K → A * K) Φ (e : env) :
  (∀ a k, f (os e) = (a, k) → Φ a (e <| os := k |>)) → wpx U (call f) Φ e.
Proof. intros HΦ. unfold wpx, call. destruct (f _) as [a k]. by apply HΦ. Qed.
Lemma wp_with_sel f Φ (e : env) : Φ () (e <| sel := f (sel e) |>) → wpx U (with_sel f) Φ e.
Proof. done. Qed.
Lemma wp_socket_ptr Φ (e : env) s :
  _socket (self e) = Some s → Φ s e → wpx U socket_ptr Φ e.
Proof. intros E HΦ. unfold socket_ptr. apply wp_bind, wp_get. by rewrite E. Qed.

End rules.

(** Where deleting through a pointer to the base class is defined, and otherwise. *)
Lemma wp_delete_object derived Φ (e : env) : Φ () e → wp (delete_object derived) Φ e.
Proof. intros HΦ. unfold delete_object. by destruct (_ && _). Qed.
Lemma twp_delete_object derived Φ (e : env) :
  base_delete = true → Φ () e → twp (delete_object derived) Φ e.
Proof. intros Hb HΦ. unfold delete_object. by rewrite Hb, andb_false_r. Qed.

(** By the standard, a connector for TLS cannot be deleted. *)
Lemma delete_undefined (e : env) :
  base_delete = false → _class (self e) = SSLConnector → delete e = Undefined.
Proof.
  intros Hb Hc. unfold delete, delete_object, mbind, ST_mbind, get, gets. simpl. by rewrite Hc, Hb.
Qed.

(** ** Transitions *)

Definition has_socket (s : ConnectorStatus) : bool :=
  match s with
  | ConnStatusConnecting | ConnStatusStartSSL | ConnStatusSSLConnecting | ConnStatusConnected => true
  | _ => false
  end.

(** The socket is there in the states that need it, and not before. *)
Definition wf (c : Connector.t) : Prop :=
  (has_socket (_status c) = true → is_Some (_socket c)) ∧
  (_status c = ConnStatusStart → _socket c = None).

(** Only the state, the socket and the times change. *)
Definition same_target (c c' : Connector.t) : Prop :=
  _class c' = _class c ∧ _addr c' = _addr c ∧ _index c' = _index c ∧
  _connTimeout c' = _connTimeout c.

Definition pre_step (class : cls) (s s' : ConnectorStatus) : Prop :=
  match s, s' with
  | ConnStatusStart, (ConnStatusError | ConnStatusConnecting) => True
  | ConnStatusStart, _ => False
  | ConnStatusStartSSL, (ConnStatusStartSSL | ConnStatusError | ConnStatusSSLConnecting) =>
      class = SSLConnector ∨ s' = ConnStatusStartSSL
  | _, _ => s' = s
  end.

Definition after_step (class : cls) (tls : bool) (s s' : ConnectorStatus) : Prop :=
  match s, s' with
  | ConnStatusConnecting, (ConnStatusConnecting | ConnStatusError) => True
  | ConnStatusConnecting, ConnStatusStartSSL => tls = true
  | ConnStatusConnecting, ConnStatusConnected => tls = false
  | ConnStatusConnecting, _ => False
  | ConnStatusSSLConnecting, (ConnStatusSSLConnecting | ConnStatusError | ConnStatusConnected) =>
      class = SSLConnector ∨ s' = ConnStatusSSLConnecting
  | _, _ => s' = s
  end.
End props.

Ltac conn_step :=
  lazymatch goal with
  | |- wpx _ (mret _) _ _ => apply wp_mret
  | |- wpx _ (_ ≫= _) _ _ => apply wp_bind
  | |- wpx _ (get _) _ _ => apply wp_get
  | |- wpx _ (gets _) _ _ => apply wp_gets
  | |- wpx _ (set _) _ _ => apply wp_set
  | |- wpx _ (set_status _) _ _ => apply wp_set
  | |- wpx _ (with_sel _) _ _ => apply wp_with_sel
  | |- wpx _ (call _) _ _ => apply conn_wp_call; intros ? ? ?
  | |- wpx _ socket_ptr _ _ => eapply wp_socket_ptr; [try eassumption|]
  | |- wp (delete_object _) _ _ => apply wp_delete_object
  | |- twp (delete_object _) _ _ => apply twp_delete_object; [done|]
  | |- wpx _ (match ?x with _ => _ end) _ _ => destruct x eqn:?
  | |- wpx _ (if ?x then _ else _) _ _ => destruct x eqn:?
  end.
Ltac conn_run := repeat (cbv beta zeta; conn_step).

Section steps.
Context {P K : Type} `{!SocketPollBase P K, !PipeKernel K, !Clock K, !SockOpts K}.
Context `{!Kernel K, !OpenSSL K, !SslStatic K, !ConnectKernel K}.
Abbreviation env := (Connector.env (P:=P) (K:=K)).

Lemma twp_PreConnectSelect (e : env) :
  wf (self e) → _status (self e) = ConnStatusStart →
  twp PreConnectSelect (λ _ e', wf (self e') ∧ same_target (self e) (self e') ∧
    (_status (self e') = ConnStatusError ∨ _status (self e') = ConnStatusConnecting)) e.
Proof.
  intros [Hw1 Hw2] Hs. specialize (Hw2 Hs). unfold PreConnectSelect. conn_run; simpl.
  all: unfold wf, same_target; simpl; split_and!; try done; auto.
Qed.
(** The time left, in an [int]. *)
Definition time_left (c : Connector.t) (now : Z) : Z :=
  i32 (u64 (u64 (_startConnTime c + _connTimeout c) - now)).

Definition connecting (s : ConnectorStatus) : Prop :=
  s = ConnStatusConnecting ∨ s = ConnStatusSSLConnecting.

Lemma twp_Timeout (e : env) (Φ : Z → env → Prop) {U : Prop} :
  (∀ t k, (connecting (_status (self e)) →
             ∃ now, gettickcount (os e) = (now, k) ∧ t = time_left (self e) now) →
          Φ t (e <| os := k |>)) →
  wpx U Timeout Φ e.
Proof.
  intros HΦ. assert (∀ t, ¬ connecting (_status (self e)) → Φ t e) as HΦ'.
  { intros t Hn. specialize (HΦ t (os e)). destruct e. apply HΦ. done. }
  unfold Timeout, connecting in *. conn_run.
  - apply HΦ. intros _. by eexists.
  - apply HΦ'. intros [Hs|Hs]; rewrite Hs in *; done.
  - apply HΦ'. intros [Hs|Hs]; rewrite Hs in *; done.
Qed.

(** The outcome of the select calls after which a connector is asked. *)
Lemma twp_AfterConnectSelect (e : env) :
  wf (self e) → _status (self e) = ConnStatusConnecting →
  twp AfterConnectSelect (λ _ e', wf (self e') ∧ same_target (self e) (self e') ∧
    _socket (self e') = _socket (self e) ∧ sel e' = sel e ∧
    after_step (_class (self e)) (isTls (_addr (self e))) ConnStatusConnecting (_status (self e')) ∧
    (_status (self e') = ConnStatusConnected →
     ∃ s k, _socket (self e) = Some s ∧ socket_set_blo (AnySocket.GetSocket s) k = (0, os e')) ∧
    (_status (self e') = ConnStatusConnecting → ∃ now k,
       gettickcount (os e) = (now, k) ∧ 0 < time_left (self e) now)) e.
Proof.
  intros [Hw1 Hw2] Hs. rewrite Hs in Hw1. destruct (Hw1 eq_refl) as [s Es].
  unfold AfterConnectSelect. apply wp_bind, wp_get. rewrite Es. apply wp_bind, twp_Timeout.
  intros t k Ht. destruct (Ht (or_introl Hs)) as (now & En & ->). conn_run; simpl.
  all: unfold wf, same_target, after_step; simpl; rewrite ?Es, ?Hs in *.
  all: split_and!; try done; try (by intros; eexists).
  all: try (intros _; eexists _, _; split; [done|]; simpl).
  all: match goal with
       | H : negb (?a =? 0) = false, E : socket_set_blo _ _ = _ |- _ =>
           apply negb_false_iff, Z.eqb_eq in H; subst a; exact E
       | H : (_ <=? 0) = false |- _ => by apply Z.leb_gt in H
       end.
Qed.

Lemma twp_AfterSSLSelect (e : env) :
  wf (self e) → _status (self e) = ConnStatusSSLConnecting → _class (self e) = SSLConnector →
  twp AfterSSLSelect (λ _ e', wf (self e') ∧ same_target (self e) (self e') ∧
    _socket (self e') = _socket (self e) ∧ sel e' = sel e ∧
    after_step (_class (self e)) (isTls (_addr (self e))) ConnStatusSSLConnecting (_status (self e')) ∧
    (_status (self e') = ConnStatusConnected →
     ∃ s k, _socket (self e) = Some s ∧ socket_set_blo (AnySocket.GetSocket s) k = (0, os e')) ∧
    (_status (self e') = ConnStatusSSLConnecting → ∃ now k,
       gettickcount (os e) = (now, k) ∧ 0 < time_left (self e) now)) e.
Proof.
  intros [Hw1 Hw2] Hs Hc. rewrite Hs in Hw1. destruct (Hw1 eq_refl) as [s Es].
  unfold AfterSSLSelect. apply wp_bind, twp_Timeout.
  intros t k Ht. destruct (Ht (or_intror Hs)) as (now & En & ->). conn_run; simpl.
  all: unfold wf, same_target, after_step; simpl; rewrite ?Es, ?Hs, ?Hc in *.
  all: split_and!; try done; try (by intros; eexists); try (by left).
  all: try (intros _; eexists _, _; split; [done|]; simpl).
  all: match goal with
       | H : negb (?a =? 0) = false, E : socket_set_blo _ _ = _ |- _ =>
           apply negb_false_iff, Z.eqb_eq in H; subst a; exact E
       | H : (_ <=? 0) = false |- _ => by apply Z.leb_gt in H
       end.
Qed.

(** A handshake that SSL_connect reports as finished at once changes nothing in the
    state of the connector. *)
Lemma twp_PreSSLSelect (e : env) :
  wf (self e) → _status (self e) = ConnStatusStartSSL → _class (self e) = SSLConnector →
  twp PreSSLSelect (λ _ e', wf (self e') ∧ same_target (self e) (self e') ∧
    is_Some (_socket (self e')) ∧
    pre_step SSLConnector ConnStatusStartSSL (_status (self e'))) e.
Proof.
  intros [Hw1 Hw2] Hs Hc. rewrite Hs in Hw1. destruct (Hw1 eq_refl) as [s Es].
  unfold PreSSLSelect. conn_run; simpl.
  all: unfold wf, same_target, pre_step; simpl; rewrite ?Es, ?Hs, ?Hc in *.
  all: split_and!; try done; try (by intros; eexists); by left.
Qed.

Lemma twp_Tcp_PreSelect (e : env) :
  wf (self e) →
  twp Tcp_PreSelect (λ _ e', wf (self e') ∧ same_target (self e) (self e') ∧
    if decide (_status (self e) = ConnStatusStart)
    then _status (self e') = ConnStatusError ∨ _status (self e') = ConnStatusConnecting
    else _status (self e') = _status (self e) ∧ _socket (self e') = _socket (self e)) e.
Proof.
  intros Hwf. unfold Tcp_PreSelect. apply wp_bind, wp_get.
  destruct (_status (self e)) eqn:Hs; simpl; try (apply wp_mret; by split_and!).
  - by apply twp_PreConnectSelect.
  - destruct (proj1 Hwf) as [s Es]; [by rewrite Hs|]. conn_run. by split_and!.
Qed.

Lemma same_target_trans c1 c2 c3 : same_target c1 c2 → same_target c2 c3 → same_target c1 c3.
Proof. unfold same_target. intuition congruence. Qed.

(** C17: registering a connector returns, whatever the sockets and the TLS library
    answer: no null socket is followed; the state changes only from the start to
    connecting or to an error, and, for a TLS connector, from the start of the
    handshake to handshaking or to an error. *)
Theorem PreSelect_steps (e : env) :
  wf (self e) →
  ∃ e', PreSelect e = Ret ((), e') ∧ wf (self e') ∧ same_target (self e) (self e') ∧
    pre_step (_class (self e)) (_status (self e)) (_status (self e')).
Proof.
  intros Hwf.
  assert (twp PreSelect (λ _ e', wf (self e') ∧ same_target (self e) (self e') ∧
    pre_step (_class (self e)) (_status (self e)) (_status (self e'))) e) as Hw.
  2:{ apply twp_elim in Hw as ([] & e' & E & Hw). by exists e'. }
  unfold PreSelect. apply wp_bind, wp_get. destruct (_class (self e)) eqn:Hc.
  - eapply wp_mono; [by apply twp_Tcp_PreSelect|]. intros _ e' (Hw & Ht & Hs).
    split_and!; [done..|]. case_decide as Hst; [rewrite Hst; destruct Hs as [-> | ->]; simpl; done|].
    destruct Hs as [-> _]. destruct (_status (self e)); simpl; auto.
  - unfold SSL_PreSelect. apply wp_bind. eapply wp_mono; [by apply twp_Tcp_PreSelect|].
    intros _ e1 (Hw & Ht & Hs). apply wp_bind, wp_get. case_decide as Hst.
    { rewrite Hst. destruct Hs as [Hs|Hs]; rewrite Hs; [by apply wp_mret; rewrite Hs|].
      apply wp_mret. by rewrite Hs. }
    destruct Hs as [Hs Hsock]. rewrite Hs.
    destruct (_status (self e)) eqn:Hse; try (apply wp_mret; rewrite Hs; by split_and!).
    + eapply wp_mono; [apply twp_PreSSLSelect; [done|done|by rewrite (proj1 Ht)]|].
      intros _ e2 (Hw2 & Ht2 & _ & Hp). split_and!; [done|by eapply same_target_trans|done..].
    + destruct (proj1 Hw) as [s Es]; [by rewrite Hs|].
      conn_run; simpl; rewrite Hs; by split_and!.
Qed.

(** What AfterSelect leaves. *)
Definition looked (e e' : env) : Prop :=
  wf (self e') ∧ same_target (self e) (self e') ∧
  _socket (self e') = _socket (self e) ∧ sel e' = sel e ∧
  after_step (_class (self e)) (isTls (_addr (self e))) (_status (self e)) (_status (self e')) ∧
  (_status (self e) ≠ ConnStatusConnected → _status (self e') = ConnStatusConnected →
   ∃ s k, _socket (self e) = Some s ∧ socket_set_blo (AnySocket.GetSocket s) k = (0, os e')) ∧
  (connecting (_status (self e')) → ∃ now k,
     gettickcount (os e) = (now, k) ∧ 0 < time_left (self e) now).

Lemma twp_AfterSelect (e : env) :
  wf (self e) → (_status (self e) = ConnStatusSSLConnecting → _class (self e) = SSLConnector) →
  twp AfterSelect (λ _, looked e) e.
Proof.
  intros Hwf Hssl. set (Q := λ (_ : unit), looked e).
  assert (Hrest : ¬ connecting (_status (self e)) → Q () e).
  { intros Hn. unfold Q, looked. split_and!; try done.
    destruct (_status (self e)); simpl; auto. }
  assert (Htcp : twp Tcp_AfterSelect (λ _ e', if decide (_status (self e) = ConnStatusConnecting)
            then Q () e' ∧ _status (self e') ≠ ConnStatusSSLConnecting else e' = e) e).
  { unfold Tcp_AfterSelect. apply wp_bind, wp_get.
    destruct (_status (self e)) eqn:Hs; try by apply wp_mret.
    eapply wp_mono; [by apply twp_AfterConnectSelect|].
    intros [] e' (H1 & H2 & H3 & H4 & H5 & H6 & H7). simpl. split.
    - unfold Q, looked. rewrite ?Hs. split_and!; try done.
      intros [Hc|Hc]; [by apply H7|]. by rewrite Hc in H5.
    - intros Hc. by rewrite Hc in H5. }
  unfold AfterSelect. apply wp_bind, wp_get. destruct (_class (self e)) eqn:Hc.
  - eapply wp_mono; [exact Htcp|]. intros [] e'. case_decide as Hs; [by intros [Hq _]|].
    intros He. subst e'. apply Hrest. intros [?|Hn]; [done|]. by specialize (Hssl Hn).
  - unfold SSL_AfterSelect. apply wp_bind. eapply wp_mono; [exact Htcp|]. intros [] e1.
    case_decide as Hs.
    + intros [Hq Hne]. apply wp_bind, wp_get. destruct (_status (self e1)) eqn:?; try done; by apply wp_mret.
    + intros He. subst e1. apply wp_bind, wp_get. destruct (_status (self e)) eqn:Hse;
        try (apply wp_mret, Hrest; intros [?|?]; congruence).
      eapply wp_mono; [apply twp_AfterSSLSelect; congruence|].
      intros [] e' (H1 & H2 & H3 & H4 & H5 & H6 & H7). unfold Q, looked. rewrite ?Hse, ?Hc in *.
      split_and!; try done. intros [Hc'|Hc']; [by rewrite Hc' in H5; destruct H5|by apply H7].
Qed.

(** C16: looking at a connector after select returns, with a transition of the state
    machine.  It keeps its socket; it reports a connection only when the descriptor
    has been set back to blocking mode by the last system call; and it is in one of the
    states Connecting and SSLConnecting afterwards only if its time left was positive.
    This deadline binds no other state: a TLS connector whose descriptor is writable
    becomes StartSSL also when its time is over, and StartSSL has no deadline. *)
Theorem AfterSelect_steps (e : env) :
  wf (self e) → (_status (self e) = ConnStatusSSLConnecting → _class (self e) = SSLConnector) →
  ∃ e', AfterSelect e = Ret ((), e') ∧ wf (self e') ∧ same_target (self e) (self e') ∧
    _socket (self e') = _socket (self e) ∧ sel e' = sel e ∧
    after_step (_class (self e)) (isTls (_addr (self e))) (_status (self e)) (_status (self e')) ∧
    (_status (self e) ≠ ConnStatusConnected → _status (self e') = ConnStatusConnected →
     ∃ s k, _socket (self e) = Some s ∧ socket_set_blo (AnySocket.GetSocket s) k = (0, os e')) ∧
    (connecting (_status (self e')) → ∃ now k,
       gettickcount (os e) = (now, k) ∧ 0 < time_left (self e) now).
Proof.
  intros Hwf Hssl. destruct (twp_elim _ _ _ (twp_AfterSelect e Hwf Hssl)) as ([] & e' & E & Hl).
  exists e'. split; [exact E|exact Hl].
Qed.

(** ** The handshake *)

(** A handshake that is finished at once leaves the connector where it was: nothing
    is registered, and the connector has no deadline. *)
Lemma early_handshake_stuck (e : env) s s' k :
  _status (self e) = ConnStatusStartSSL → _socket (self e) = Some s →
  AnySocket.Connect s (os e) = (SSL_ERROR_NONE, s', k) →
  ∃ e', PreSSLSelect e = Ret ((), e') ∧ _status (self e') = ConnStatusStartSSL ∧
    sel e' = sel e ∧ Timeout e' = Ret (INT_MAX, e').
Proof.
  intros Hs Es Ec. set (e1 := mkEnv ((self e) <| _socket := Some s' |>) (sel e) k).
  exists e1. assert (_status (self e1) = ConnStatusStartSSL) as Hs1 by done.
  split_and!; [|done|done|].
  - unfold PreSSLSelect, socket_ptr, get, gets, call, mbind, ST_mbind. simpl. rewrite Es. simpl.
    by rewrite Ec.
  - unfold Timeout, get, gets, mbind, ST_mbind. simpl. by rewrite Hs.
Qed.

(** A connection is reported at the first sign of the peer, whatever SSL_connect had
    said: the handshake need not be finished. *)
Lemma unfinished_handshake_connected (e : env) s :
  _status (self e) = ConnStatusSSLConnecting → _socket (self e) = Some s →
  SocketSelect.ExceptionFdIsSet (K:=K) (AnySocket.GetSocket s) (sel e) = false →
  SocketSelect.ReadFdIsSet (K:=K) (AnySocket.GetSocket s) (sel e) = true →
  (∀ k, fst (socket_set_blo (AnySocket.GetSocket s) k) = 0) →
  ∃ e', AfterSSLSelect e = Ret ((), e') ∧ _status (self e') = ConnStatusConnected ∧
    _socket (self e') = Some s.
Proof.
  intros Hs Es Hex Hrd Hblo.
  assert (twp AfterSSLSelect (λ _ e', _status (self e') = ConnStatusConnected ∧
    _socket (self e') = Some s) e) as Hw.
  2:{ apply twp_elim in Hw as ([] & e' & E & Hw). by exists e'. }
  unfold AfterSSLSelect. apply wp_bind, twp_Timeout. intros t k _. apply wp_bind.
  eapply wp_socket_ptr; [exact Es|]. cbv zeta. apply wp_bind, wp_gets. simpl. rewrite Hex.
  apply wp_bind, wp_gets. simpl. rewrite Hrd, orb_true_r. apply wp_bind, conn_wp_call.
  intros now k1 _. apply wp_bind, conn_wp_call. intros ret k2 E2. simpl in E2.
  specialize (Hblo k1). rewrite E2 in Hblo. simpl in Hblo. subst ret. by apply wp_set.
Qed.

End steps.
