(* ===== verification/ComplexConnect.v ===== *)
(** * ComplexConnect: opening a connection impatiently
    (src/connect/complex_connect.hpp, .cpp)

    Several addresses are tried at once: a new connector is started every
    [_interval] milliseconds, or at once after an error, and the first that is
    connected wins.  The local variables of ConnectImpatient are the record [locals];
    [iteration] is the body of its loop, and the loop is given fuel. *)
From S2P Require Import Prelude Monad TcpError Sockets SocketBreaker TimeUtils UnixSocket.
From S2P Require Import Poll TcpDefine Connector.

Module ComplexConnect.

Record t : Set := mk {
  _timeout : Z;              (* unsigned int, ms *)
  _interval : Z;
  _errorInterval : Z;
  _maxConnect : Z;
}.

Section ops.
Context {P K : Type} `{!SocketPollBase P K, !PipeKernel K, !Clock K, !SockOpts K}.
Context `{!Kernel K, !OpenSSL K, !SslStatic K, !ConnectKernel K, !BaseDelete}.

Record locals : Type := mkLocals {
  connectors : list (option Connector.t);      (* None: NULL *)
  lastStartConnTime : Z;
  lastError : Z;
  index : nat;
  retSocket : option AnySocket;
  sel : P;
  breaker : SocketBreaker.t;
  os : K;
}.
#[export] Instance locals_rebuild : Rebuild locals := λ s,
  mkLocals (connectors s) (lastStartConnTime s) (lastError s) (index s) (retSocket s) (sel s)
           (breaker s) (os s).
Abbreviation M := (ST locals).

Definition call {A} (f : K → A * K) : M A := λ s,
  let '(a, k) := f (os s) in Ret (a, s <| os := k |>).

(** [connectors[i]->...] *)
Definition with_connector {A} (i : nat) (m : ST Connector.env A) : M A := λ s,
  match connectors s !! i with
  | Some (Some c) =>
      '(a, e) ← m (Connector.mkEnv c (sel s) (os s));
      Ret (a, s <| connectors := <[i := Some (Connector.self e)]> (connectors s) |>
                <| sel := Connector.sel e |> <| os := Connector.os e |>)
  | _ => Undefined
  end.

(** [delete connectors[i]; connectors[i] = NULL] *)
Definition delete_connector (i : nat) : M unit :=
  with_connector i Connector.delete;;
  modify (λ s, s <| connectors := <[i := None]> (connectors s) |>).

Definition __IsConnecting (c : option Connector.t) : bool :=
  match c with
  | Some c => match Connector.Socket c with Some _ => true | None => false end
  | None => false
  end.

Definition runningCount (l : list (option Connector.t)) : Z := size (List.filter __IsConnecting l).

(** The first loop, which creates the connectors. *)
Definition new_connector (cc : t) (WITH_SSL : bool) (i : nat) (addr : AddrInfo) : option Connector.t :=
  Some (Connector.new (if WITH_SSL && isTls addr then Connector.SSLConnector
                       else Connector.TcpConnector) addr (Z.of_nat i) (_timeout cc) 0).
Definition new_connectors (cc : t) (WITH_SSL : bool) (addrs : list AddrInfo)
    : list (option Connector.t) := imap (new_connector cc WITH_SSL) addrs.

(** Whether the next connector is due; the result is the timeout so far. *)
Definition start_next (cc : t) (curTime : Z) : M Z :=
  error ← gets lastError;
  let interval := i32 (if error =? 0 then _interval cc else _errorInterval cc) in
  last ← gets lastStartConnTime;
  nextConnTimeout ← checking (int_range (interval - i32 (u64 (curTime - last))));
  let timeout := i32 (_timeout cc) in
  s ← gets (λ s, s);
  if (Z.of_nat (index s) <? size (connectors s)) && (runningCount (connectors s) <? _maxConnect cc)
  then
    if 0 <? nextConnTimeout then mret (Z.min timeout nextConnTimeout)
    else
      now ← call gettickcount;
      modify (λ s, s <| lastStartConnTime := now |> <| lastError := 0 |>
                     <| index := S (index s) |>);;
      mret timeout
  else mret timeout.

(** The loop that registers the connectors [i], ..., [i + n - 1]. *)
Fixpoint pre_select (n i : nat) (timeout : Z) : M Z :=
  match n with
  | O => mret timeout
  | S n =>
      c ← gets (λ s, connectors s !! i);
      match c with
      | None => undefined
      | Some None => pre_select n (S i) timeout
      | Some (Some _) =>
          with_connector i Connector.PreSelect;;
          left ← with_connector i Connector.Timeout;
          pre_select n (S i) (Z.min timeout left)
      end
  end.

(** The loop that looks at their outcomes. *)
Fixpoint after_select (n i : nat) : M unit :=
  match n with
  | O => mret ()
  | S n =>
      c ← gets (λ s, connectors s !! i);
      match c with
      | None => undefined
      | Some None => after_select n (S i)
      | Some (Some _) =>
          with_connector i Connector.AfterSelect;;
          status ← with_connector i (Connector.get Connector.Status);
          if bool_decide (status = ConnStatusError) then
            with_connector i Connector.Close;;
            delete_connector i;;
            modify (λ s, s <| lastError := -1 |>);;
            after_select n (S i)
          else if bool_decide (status = ConnStatusConnected) then
            socket ← with_connector i (Connector.get Connector.Socket);
            modify (λ s, s <| retSocket := socket |>);;
            with_connector i (Connector.set (λ c, Connector.SetSocket c None));;
            delete_connector i
          else after_select n (S i)
      end
  end.

(** [sel.Select(selTimeout)] *)
Definition select (selTimeout : Z) : M Z := λ s,
  '(ret, p, br, k) ← SocketSelect.Select selTimeout (sel s) (breaker s) (os s);
  Ret (ret, s <| sel := p |> <| breaker := br |> <| os := k |>).

(** The body of the loop up to the call of Select: the number of connectors that are
    watched, and the timeout. *)
Definition register (cc : t) : M (nat * Z) :=
  curTime ← call gettickcount;
  (λ s, let '(p, k) := SocketSelect.new (breaker s) (os s) in
        Ret ((), s <| sel := SocketSelect.PreSelect (K:=K) p |> <| os := k |>));;
  timeout ← start_next cc curTime;
  n ← gets index;
  timeout ← pre_select n 0 timeout;
  mret (n, Z.max 0 timeout).

(** The rest of the body; the result says whether the loop is left. *)
Definition look (n : nat) (ret : Z) : M bool :=
  if ret <? 0 then mret true
  else
    exception ← gets (λ s, SocketSelect.IsException (K:=K) (breaker s) (sel s));
    if (exception : bool) then mret true
    else
      broken ← gets (λ s, SocketSelect.IsBreak (K:=K) (breaker s) (sel s));
      if (broken : bool) then mret true
      else
        after_select n 0;;
        s ← gets (λ s, s);
        let allInvalid := forallb (λ c, match c with None => true | Some _ => false end)
                                  (connectors s) in
        mret (allInvalid || match retSocket s with Some _ => true | None => false end).

Definition iteration (cc : t) : M bool :=
  '(n, timeout) ← register cc;
  let selTimeout := Z.quot timeout 1000 in
  ret ← select selTimeout;
  leave ← look n ret;
  modify (λ s, s <| os := SocketSelect.delete (sel s) (os s) |>);;
  mret leave.

Fixpoint loop (fuel : nat) (cc : t) : M unit :=
  match fuel with
  | O => out_of_fuel
  | S fuel =>
      leave ← iteration cc;
      if (leave : bool) then mret () else loop fuel cc
  end.

(** The last loop, over the connectors [i], ..., [i + n - 1]. *)
Fixpoint close_all (n i : nat) : M unit :=
  match n with
  | O => mret ()
  | S n =>
      c ← gets (λ s, connectors s !! i);
      match c with
      | Some (Some _) =>
          with_connector i Connector.Close;;
          delete_connector i;;
          close_all n (S i)
      | _ => close_all n (S i)
      end
  end.

(** [p] is only there before the first SocketSelect is made. *)
Definition ConnectImpatient (fuel : nat) (p : P) (cc : t) (WITH_SSL : bool) (addrs : list AddrInfo)
    : ST (SocketBreaker.t * K) (option AnySocket) := λ '(br, k),
  if bool_decide (addrs = []) then Ret (None, (br, k))
  else
    let connectors := new_connectors cc WITH_SSL addrs in
    let '(curTime, k) := gettickcount k in
    let lastStartConnTime := u64 (curTime - _interval cc) in
    '(r, s) ← (loop fuel cc;;
               close_all (length connectors) 0;;
               gets retSocket)
              (mkLocals connectors lastStartConnTime 0 0 None p br k);
    Ret (r, (breaker s, os s)).

End ops.
End ComplexConnect.
