(* ===== verification/ComplexProps.v ===== *)
(** * ComplexProps: what ConnectImpatient does with its sockets

    [Ledger] says what the system calls do to the set of open sockets; [owned] is a
    connector together with its descriptor, apart from those of others, and [ledger]
    the state of the loop in which every new socket has exactly one owner.  Each
    operation keeps them, so that what ConnectImpatient has opened is closed again,
    except the socket that it returns. *)
From S2P Require Import Prelude Monad TcpError Sockets SocketBreaker TimeUtils UnixSocket.
From S2P Require Import Poll PollProps TcpDefine Connector ConnectorProps ComplexConnect.
Import Connector.

(** ** What the system calls keep

    [Kept Q]: the calls that neither open nor close a socket keep [Q]. *)
Section kept.
Context {K : Type} `{!PipeKernel K, !Clock K, !SockOpts K}.
Context `{!Kernel K, !OpenSSL K, !SslStatic K, !ConnectKernel K}.

Class Kept (Q : K → Prop) := {
  kept_clock c k : Q k → Q (snd (clock_gettime c k));
  kept_getfl fd k : Q k → Q (snd (fcntl_getfl fd k));
  kept_setfl fd f k : Q k → Q (snd (fcntl_setfl fd f k));
  kept_connect fd a p k : Q k → Q (snd (connect fd a p k));
  kept_getsockopt fd o k : Q k → Q (snd (getsockopt fd o k));
  kept_SSL_CTX_new k : Q k → Q (snd (SSL_CTX_new k));
  kept_SSL_new c k : Q k → Q (snd (SSL_new c k));
  kept_SSL_set_fd ssl fd k : Q k → Q (SSL_set_fd ssl fd k);
  kept_SSL_connect ssl k : Q k → Q (snd (SSL_connect ssl k));
  kept_SSL_free ssl k : Q k → Q (SSL_free ssl k);
  kept_set_ctx c k : Q k → Q (set_ctx c k);
}.

(** The sockets that are open.  socket(2) gives a descriptor that was not open,
    close(2) closes it, and the other calls leave them alone: SSL_set_fd makes
    OpenSSL use a descriptor without owning it. *)
Class Ledger := {
  opened : K → gset Z;
  opened_kept X : Kept (λ k, opened k = X);
  socket_opened k fd k' : socket k = (fd, k') →
    if fd =? INVALID_SOCKET then opened k' = opened k
    else ¬ (fd ∈ opened k) ∧ opened k' = {[fd]} ∪ opened k;
  close_opened fd k : opened (close fd k) = opened k ∖ {[fd]};
}.
#[export] Existing Instance opened_kept.
#[export] Instance kept_True : Kept (λ _, True).
Proof. done. Qed.

Section calls.
Context (Q : K → Prop) `{!Kept Q}.

Lemma kept_gettickcount k : Q k → Q (snd (gettickcount k)).
Proof.
  intros HQ%(kept_clock CLOCK_MONOTONIC). unfold gettickcount.
  by destruct (clock_gettime _ _) as [[ts|] k'].
Qed.

Lemma kept_set_noblo fd k : Q k → Q (snd (socket_set_noblo fd k)).
Proof.
  intros HQ%(kept_getfl fd). unfold socket_set_noblo. destruct (fcntl_getfl fd k) as [ret k'].
  destruct (0 <=? ret); [by apply kept_setfl|done].
Qed.

Lemma kept_set_blo fd k : Q k → Q (snd (socket_set_blo fd k)).
Proof.
  intros HQ%(kept_getfl fd). unfold socket_set_blo. destruct (fcntl_getfl fd k) as [ret k'].
  destruct (0 <=? ret); [by apply kept_setfl|done].
Qed.

Lemma kept_Connect s k : Q k → Q (snd (AnySocket.Connect s k)).
Proof.
  intros HQ. destruct s as [s|s]; simpl; [done|].
  unfold SSLSocket.Connect, SSLSocket.GetSSLContext.
  assert (∃ c k1, (match get_ctx k with None => SSL_CTX_new k | Some c => (Some c, k) end) = (c, k1)
                  ∧ Q k1) as (c & k1 & -> & HQ1).
  { destruct (get_ctx k) as [c|]; [by eexists _, _|].
    pose proof (kept_SSL_CTX_new k HQ). destruct (SSL_CTX_new k). by eexists _, _. }
  pose proof (kept_SSL_new c k1 HQ1) as HQ2.
  destruct (SSL_new c k1) as [[ssl|] k2]; simpl in *; [|by apply kept_set_ctx].
  pose proof (kept_SSL_connect ssl _ (kept_SSL_set_fd ssl (SSLSocket._socket s) _ HQ2)) as HQ3.
  destruct (SSL_connect _ _) as [status k3].
  destruct (status =? 1); by apply kept_set_ctx.
Qed.

End calls.

(** Closing a socket that is open. *)
Lemma Close_opened `{!Ledger} s k :
  AnySocket.GetSocket s ≠ INVALID_SOCKET →
  opened (snd (AnySocket.Close s k)) = opened k ∖ {[AnySocket.GetSocket s]}.
Proof.
  unfold AnySocket.Close, TcpSocket.Close, SSLSocket.Close, AnySocket.GetSocket,
    TcpSocket.GetSocket, SSLSocket.GetSocket.
  destruct s as [s|s]; intros Hs%Z.eqb_neq; rewrite Hs; simpl; [apply close_opened|].
  rewrite close_opened. destruct (SSLSocket._ssl s) as [ssl|]; [|done].
  by rewrite (kept_SSL_free (Q:=λ k', opened k' = opened k)).
Qed.

End kept.

Arguments Ledger K {_ _ _ _ _ _ _}.

(** The same for the calls of a SocketPollBase. *)
Class PollKept (P : Type) {K : Type} `{!SocketPollBase P K} (Q : K → Prop) := {
  kept_poll_new br k : Q k → Q (snd (poll_new (P:=P) br k));
  kept_poll_delete (p : P) k : Q k → Q (poll_delete p k);
  kept_Poll (p : P) timeout br k ret p' br' k' :
    Poll p timeout br k = Ret (ret, p', br', k') → Q k → Q k';
}.

(** On epoll: its calls, and the read(2) of the breaker. *)
Class EpollKept {K : Type} `{!PipeKernel K, !SocketEpoll.EpollKernel K} (Q : K → Prop) := {
  kept_epoll_create k : Q k → Q (snd (SocketEpoll.epoll_create k));
  kept_epoll_close e k : Q k → Q (SocketEpoll.epoll_close e k);
  kept_epoll_ctl e ev k : Q k → Q (snd (SocketEpoll.epoll_ctl_add e ev k));
  kept_epoll_wait e max timeout k : Q k → Q (snd (SocketEpoll.epoll_wait e max timeout k));
  kept_pipe_read fd len k : Q k → Q (snd (pipe_read fd len k));
}.

Section epoll_kept.
Context {K : Type} `{!PipeKernel K, !SocketEpoll.EpollKernel K} (Q : K → Prop) `{!EpollKept Q}.

Lemma kept_Clear br k b br' k' : SocketBreaker.Clear br k = (b, br', k') → Q k → Q k'.
Proof.
  unfold SocketBreaker.Clear. intros E HQ. pose proof (kept_pipe_read (SocketBreaker.BreakerFd br) 128 k HQ).
  revert E. destruct (pipe_read _ _ _) as [ret k1]. destruct (ret <? 0); by intros [= _ _ <-].
Qed.

Lemma kept_add_all e l : ∀ k, Q k → Q (SocketEpoll.add_all e l k).
Proof.
  induction l as [|ev l IH]; intros k HQ; simpl; [done|].
  pose proof (kept_epoll_ctl e ev k HQ). destruct (SocketEpoll.epoll_ctl_add e ev k).
  by apply IH.
Qed.

#[export] Program Instance SocketEpoll_kept : PollKept SocketEpoll.t Q.
Next Obligation.
  intros br k HQ. simpl. unfold SocketEpoll.new. pose proof (kept_epoll_create k HQ).
  by destruct (SocketEpoll.epoll_create k).
Qed.
Next Obligation. intros p k HQ. by apply kept_epoll_close. Qed.
Next Obligation.
  intros p timeout br k ret p' br' k' E HQ. simpl in E.
  unfold SocketEpoll.Poll, SocketEpoll.Poll_start, SocketEpoll.Poll_wait in E.
  destruct (poll_timeout timeout) as [ms| | |]; simpl in E; try done.
  pose proof (kept_add_all (SocketEpoll._epfd p) (SocketEpoll._events p) k HQ) as HQ1.
  set (k1 := SocketEpoll.add_all _ _ _) in *.
  pose proof (kept_epoll_wait (SocketEpoll._epfd p) (size (SocketEpoll._events p)) ms k1 HQ1) as HQ2.
  destruct (SocketEpoll.epoll_wait _ _ _ _) as [[[r evs] errno] k2]. simpl in *.
  destruct (r <? 0), (r =? 0); simpl in E;
    destruct (SocketBreaker.Clear br k2) as [[b br1] k3] eqn:Ec; injection E as _ _ _ <-;
    by eapply kept_Clear.
Qed.

End epoll_kept.

(** ** One connector *)
Section connector.
Context {P K : Type} `{!SocketPollBase P K, !PipeKernel K, !Clock K, !SockOpts K}.
Context `{!Kernel K, !OpenSSL K, !SslStatic K, !ConnectKernel K}.
Abbreviation env := (Connector.env (P:=P) (K:=K)).

Lemma wp_call_kept {U : Prop} (Q : K → Prop) {A} (f : K → A * K) Φ (e : env) :
  (∀ k, Q k → Q (snd (f k))) → Q (os e) → (∀ a k, f (os e) = (a, k) → Q k → Φ a (e <| os := k |>)) →
  wpx U (call f) Φ e.
Proof.
  intros Hf HQ HΦ. apply conn_wp_call. intros a k E. apply HΦ; [done|]. apply Hf in HQ.
  by rewrite E in HQ.
Qed.

Lemma wp_socket_ptr_any Φ (e : env) : (∀ s, _socket (self e) = Some s → Φ s e) → wp socket_ptr Φ e.
Proof.
  intros HΦ. unfold socket_ptr. apply wp_bind, wp_get. destruct (_socket (self e)); [|done].
  by apply HΦ.
Qed.

(** The descriptor that a connector holds. *)
Definition cfd (c : Connector.t) : list Z :=
  match _socket c with Some s => [AnySocket.GetSocket s] | None => [] end.

Context `{!Ledger K}.

(** A connection to [a] does not fail at once: the address is not empty, and, on a
    descriptor that socket(2) has just given, fcntl succeeds, and connect(2) succeeds or
    is under way. *)
Definition startable (a : AddrInfo) : Prop :=
  ip a ≠ [] ∧ ∀ (k : K) fd k1 r k2 now k3 ret errno k4,
    socket k = (fd, k1) → fd ≠ INVALID_SOCKET → socket_set_noblo fd k1 = (r, k2) →
    r = 0 ∧
    (gettickcount k2 = (now, k3) →
     connect fd (inet_addr (K:=K) (ip a)) (port a) k3 = (ret, errno, k4) →
     ret = 0 ∨ IS_NOBLOCK_CONNECT_ERRNO errno = true).

(** The connector [c] holds its descriptor, and the sockets [X] are those of others. *)
Definition owns (X : gset Z) (c : Connector.t) (k : K) : Prop :=
  opened k = X ∪ list_to_set (cfd c) ∧ (∀ fd, fd ∈ cfd c → ¬ (fd ∈ X) ∧ fd ≠ INVALID_SOCKET) ∧
  startable (_addr c) ∧ (_status c = ConnStatusStart → _socket c = None).

Lemma owns_kept X c c' k k' :
  owns X c k → opened k' = opened k → cfd c' = cfd c → _addr c' = _addr c →
  (_status c' = ConnStatusStart → _socket c' = None) → owns X c' k'.
Proof. unfold owns. by intros (E & Hd & Hi & _) -> -> ->. Qed.

End connector.

(** Runs the code of a connector; [Q] holds between the calls. *)
Ltac kept_call Q :=
  apply (wp_call_kept Q);
    [ by first [ apply (kept_gettickcount Q) | apply (kept_set_noblo Q) | apply (kept_set_blo Q)
               | apply (kept_Connect Q) | intros ?; apply (kept_connect (Q:=Q))
               | intros ?; apply (kept_getsockopt (Q:=Q)) ]
    | simpl; done
    | intros ? ? ? ? ].
Ltac kept_step Q :=
  lazymatch goal with
  | |- wpx _ (call _) _ _ => kept_call Q
  | |- wpx _ socket_ptr _ _ => apply wp_socket_ptr_any; intros ? ?
  | |- wpx _ Timeout _ _ => unfold Timeout
  | _ => conn_step
  end.
Ltac kept_run Q := repeat (cbv beta zeta; kept_step Q).

Section owned.
Context {P K : Type} `{!SocketPollBase P K, !PipeKernel K, !Clock K, !SockOpts K}.
Context `{!Kernel K, !OpenSSL K, !SslStatic K, !ConnectKernel K, !BaseDelete, !Ledger K}.
Abbreviation env := (Connector.env (P:=P) (K:=K)).

Lemma owns_PreConnectSelect X (e : env) :
  owns X (self e) (os e) → _status (self e) = ConnStatusStart →
  wp PreConnectSelect (λ _ e', owns X (self e') (os e')) e.
Proof.
  intros (E & Hd & Hip & Hst) Hs. specialize (Hst Hs). unfold cfd in *. rewrite Hst in *.
  simpl in E. rewrite (right_id_L ∅ (∪)) in E. pose proof Hip as [Hne Hgo].
  unfold PreConnectSelect. apply wp_bind, conn_wp_call. intros fd k Es.
  pose proof (socket_opened _ _ _ Es) as Ek.
  apply wp_bind, wp_get. case_test.
  { apply wp_set. unfold owns, cfd. simpl. rewrite Hst. simpl.
    by rewrite (right_id_L ∅ (∪)), Ek, E. }
  destruct Ek as [Hnew Ek]. rewrite bool_decide_eq_false_2 by done.
  apply wp_bind. apply (wp_call_kept (λ k, opened k = {[fd]} ∪ X)).
  { by apply (kept_set_noblo (λ k, opened k = {[fd]} ∪ X)). } { simpl. by rewrite Ek, E. }
  intros r k1 E1 H1. simpl in E1.
  destruct (Hgo (Connector.os e) fd k r k1 0 k1 0 0 k1) as [-> _]; [done..|]. simpl.
  apply wp_bind. apply (wp_call_kept (λ k, opened k = {[fd]} ∪ X)).
  { apply (kept_gettickcount (λ k, opened k = {[fd]} ∪ X)). } { done. }
  intros now k2 E2 H2. simpl in E2. apply wp_bind, wp_set, wp_bind.
  apply (wp_call_kept (λ k, opened k = {[fd]} ∪ X)).
  { intros ?. apply (kept_connect (Q:=λ k, opened k = {[fd]} ∪ X)). } { done. }
  intros [ret errno] k3 E3 H3. simpl in E3.
  destruct (Hgo (Connector.os e) fd k 0 k1 now k2 ret errno k3) as [_ Hc]; [done..|].
  specialize (Hc E2 E3).
  assert (negb (ret =? 0) && negb (IS_NOBLOCK_CONNECT_ERRNO errno) = false) as ->.
  { destruct Hc as [-> | ->]; [done|]. by rewrite andb_false_r. }
  kept_run (λ k, opened k = {[fd]} ∪ X). unfold owns, cfd. simpl.
  match goal with |- context [AnySocket.GetSocket (__NewSocket ?c fd)] =>
    replace (AnySocket.GetSocket (__NewSocket c fd)) with fd by (by destruct c) end.
  split_and!; [|intros fd' ->%list_elem_of_singleton; split; [by rewrite <-E|done]|done|done].
  set_solver.
Qed.

(** The other operations keep the descriptor. *)
Definition owned (X : gset Z) (e' : env) : Prop := owns X (self e') (os e').

Lemma owned_kept X (e e' : env) :
  owned X e → opened (os e') = opened (os e) → _socket (self e') = _socket (self e) →
  _addr (self e') = _addr (self e) →
  (_status (self e') = ConnStatusStart → _status (self e) = ConnStatusStart) → owned X e'.
Proof.
  intros Ho Ho' Hs Ha Hst. eapply owns_kept; [exact Ho|done| |done|]; unfold cfd; [by rewrite Hs|].
  intros Hst'%Hst. rewrite Hs. by apply Ho.
Qed.

Lemma Connect_socket s k err s' k' :
  AnySocket.Connect s k = (err, s', k') → AnySocket.GetSocket s' = AnySocket.GetSocket s.
Proof.
  destruct s as [s|s]; simpl; [by intros [= _ <- _]|]. unfold SSLSocket.Connect.
  destruct (SSLSocket.GetSSLContext _ _) as [c k1]. destruct (SSL_new c k1) as [[ssl|] k2];
    [|by intros [= _ <- _]].
  destruct (SSL_connect _ _) as [status k3]. destruct (status =? 1); by intros [= _ <- _].
Qed.
End owned.

Ltac owned_run e :=
  kept_run (λ k, opened k = opened (os e));
  (eapply (owned_kept _ e); [done|simpl; try done..]).

Section owned.
Context {P K : Type} `{!SocketPollBase P K, !PipeKernel K, !Clock K, !SockOpts K}.
Context `{!Kernel K, !OpenSSL K, !SslStatic K, !ConnectKernel K, !BaseDelete, !Ledger K}.
Abbreviation env := (Connector.env (P:=P) (K:=K)).

Lemma owned_Timeout X (e : env) : owned X e → wp Timeout (λ _ e', owned X e' ∧ self e' = self e) e.
Proof.
  intros Ho. unfold Timeout. kept_run (λ k, opened k = opened (os e)); (split; [|done]);
    by eapply (owned_kept _ e).
Qed.

Lemma owned_PreSSLSelect X (e : env) :
  owned X e → _status (self e) ≠ ConnStatusStart → wp PreSSLSelect (λ _, owned X) e.
Proof.
  intros Ho Hst. unfold PreSSLSelect. apply wp_bind, wp_socket_ptr_any. intros s Es.
  apply wp_bind, (wp_call_kept (λ k, opened k = opened (os e))); [|done|].
  { intros k Hk%(kept_Connect (λ k, opened k = opened (os e)) s). by destruct (AnySocket.Connect s k) as [[? ?] ?]. }
  intros [error s'] k Ek Hk. simpl in Ek.
  destruct (AnySocket.Connect s (os e)) as [[error0 s0] k0] eqn:Ec.
  injection Ek as -> -> ->. apply Connect_socket in Ec.
  apply wp_bind, wp_set. simpl. assert (owned X (mkEnv ((self e) <| _socket := Some s' |>) (sel e) k)) as Ho'.
  { eapply owns_kept; [exact Ho|done| |done|done]. unfold cfd. simpl. by rewrite Es, Ec. }
  set (e' := mkEnv _ _ _) in Ho'.
  change (e <| os := k |> <| self := _ |>) with e'. clearbody e'. owned_run e'.
Qed.

Lemma owned_AfterConnectSelect X (e : env) :
  owned X e → _status (self e) ≠ ConnStatusStart → wp AfterConnectSelect (λ _, owned X) e.
Proof. intros Ho Hst. unfold AfterConnectSelect. owned_run e. Qed.

Lemma owned_AfterSSLSelect X (e : env) :
  owned X e → _status (self e) ≠ ConnStatusStart → wp AfterSSLSelect (λ _, owned X) e.
Proof. intros Ho Hst. unfold AfterSSLSelect. owned_run e. Qed.

Lemma owned_Tcp_PreSelect X (e : env) : owned X e → wp Tcp_PreSelect (λ _, owned X) e.
Proof.
  intros Ho. unfold Tcp_PreSelect. apply wp_bind, wp_get. destruct (_status (self e)) eqn:Hs;
    try by apply wp_mret.
  - by apply owns_PreConnectSelect.
  - owned_run e.
Qed.

Lemma owned_Tcp_AfterSelect X (e : env) : owned X e → wp Tcp_AfterSelect (λ _, owned X) e.
Proof.
  intros Ho. unfold Tcp_AfterSelect. apply wp_bind, wp_get. destruct (_status (self e)) eqn:Hs;
    try by apply wp_mret. apply owned_AfterConnectSelect; [done|by rewrite Hs].
Qed.

Lemma owned_PreSelect X (e : env) : owned X e → wp PreSelect (λ _, owned X) e.
Proof.
  intros Ho. unfold PreSelect. apply wp_bind, wp_get. destruct (_class _).
  { by apply owned_Tcp_PreSelect. }
  apply wp_bind. eapply wp_mono; [by apply owned_Tcp_PreSelect|]. intros [] e' Ho'.
  apply wp_bind, wp_get. destruct (_status (self e')) eqn:Hs; try by apply wp_mret.
  - apply owned_PreSSLSelect; [done|by rewrite Hs].
  - owned_run e'.
Qed.

Lemma owned_AfterSelect X (e : env) : owned X e → wp AfterSelect (λ _, owned X) e.
Proof.
  intros Ho. unfold AfterSelect. apply wp_bind, wp_get. destruct (_class _).
  { by apply owned_Tcp_AfterSelect. }
  apply wp_bind. eapply wp_mono; [by apply owned_Tcp_AfterSelect|]. intros [] e' Ho'.
  apply wp_bind, wp_get. destruct (_status (self e')) eqn:Hs; try by apply wp_mret.
  apply owned_AfterSSLSelect; [done|by rewrite Hs].
Qed.

(** Close gives the descriptor back. *)
Lemma owned_Close X (e : env) :
  owned X e → wp Close (λ _ e', owned X e' ∧ _socket (self e') = None) e.
Proof.
  intros Ho. unfold Close. apply wp_bind, wp_get. destruct (_socket (self e)) as [s|] eqn:Es.
  2:{ by apply wp_mret. }
  apply wp_bind, conn_wp_call. intros s' k Ek. apply wp_bind, wp_delete_object, wp_set. split; [|done].
  destruct Ho as (E & Hd & Hip & _). unfold owned, owns, cfd in *. simpl. rewrite Es in *. simpl in *.
  destruct (Hd _ (proj2 (list_elem_of_singleton _ _) eq_refl)) as [Hx Hne].
  pose proof (Close_opened s (os e) Hne) as Hc. rewrite Ek, E in Hc. simpl in Hc.
  split_and!; [|by intros ? ?%elem_of_nil|done|done]. set_solver.
Qed.

Lemma owned_delete X (e : env) :
  owned X e → wp delete (λ _ e', owned X e' ∧ _socket (self e') = None) e.
Proof. intros Ho. unfold delete. by apply wp_bind, wp_get, wp_bind, wp_delete_object, owned_Close. Qed.

End owned.

(** ** The loop *)
Import ComplexConnect.

Section complex.
Context {P K : Type} `{!SocketPollBase P K, !PipeKernel K, !Clock K, !SockOpts K}.
Context `{!Kernel K, !OpenSSL K, !SslStatic K, !ConnectKernel K, !BaseDelete}.
Abbreviation locals := (ComplexConnect.locals (P:=P) (K:=K)).
Abbreviation env := (Connector.env (P:=P) (K:=K)).

(** The locals after the connector [i] has run. *)
Definition put (i : nat) (e : env) (s : locals) : locals :=
  s <| connectors := <[i := Some (self e)]> (connectors s) |>
    <| ComplexConnect.sel := Connector.sel e |> <| ComplexConnect.os := Connector.os e |>.
Definition focus (c : Connector.t) (s : locals) : env :=
  Connector.mkEnv c (ComplexConnect.sel s) (ComplexConnect.os s).

Lemma wp_with_connector {U : Prop} {A} i (m : ST env A) Φ (s : locals) c :
  connectors s !! i = Some (Some c) → wpx U m (λ a e, Φ a (put i e s)) (focus c s) →
  wpx U (with_connector i m) Φ s.
Proof.
  intros Hc. unfold wpx, with_connector. rewrite Hc. fold (focus c s).
  by destruct (m (focus c s)) as [[a e]| | |].
Qed.

Lemma cc_wp_call {U : Prop} {A} (f : K → A * K) Φ (s : locals) :
  (∀ a k, f (ComplexConnect.os s) = (a, k) → Φ a (s <| ComplexConnect.os := k |>)) →
  wpx U (ComplexConnect.call f) Φ s.
Proof. intros HΦ. unfold wpx, ComplexConnect.call. destruct (f _) as [a k]. by apply HΦ. Qed.

(** *** The ledger of the loop *)

Definition slot_fds (c : option Connector.t) : list Z := match c with Some c => cfd c | None => [] end.
Definition fds (l : list (option Connector.t)) : list Z := l ≫= slot_fds.
Definition ret_fds (r : option AnySocket) : list Z :=
  match r with Some s => [AnySocket.GetSocket s] | None => [] end.

Lemma fds_app l1 l2 : fds (l1 ++ l2) = fds l1 ++ fds l2.
Proof. unfold fds. by rewrite bind_app. Qed.
Lemma fds_cons c l : fds (c :: l) = slot_fds c ++ fds l.
Proof. done. Qed.

Context `{!Ledger K}.

Definition connector_ok (c : Connector.t) : Prop :=
  startable (K:=K) (_addr c) ∧ (_status c = ConnStatusStart → _socket c = None).

(** [base] are the sockets that were open before; all others are held, once, by a
    connector or by the result. *)
Definition ledger (base : gset Z) (s : locals) : Prop :=
  let l := ret_fds (retSocket s) ++ fds (connectors s) in
  opened (ComplexConnect.os s) = base ∪ list_to_set l ∧ NoDup l ∧
  (∀ fd, fd ∈ l → ¬ (fd ∈ base) ∧ fd ≠ INVALID_SOCKET) ∧
  ∀ i c, connectors s !! i = Some (Some c) → connector_ok c.

Lemma ledger_focus base (s : locals) i c :
  ledger base s → connectors s !! i = Some (Some c) →
  ∃ X, owned X (focus c s) ∧
    ∀ e, owned X e → ledger base (put i e s) ∧
      (_socket (self e) = None →
       ledger base ((put i e s) <| connectors := <[i := None]> (connectors (put i e s)) |>)).
Proof.
  intros (E & Hnd & Hdis & Hok) Hi.
  destruct (list_elem_of_split_length _ _ _ Hi) as (l1 & l2 & El & Ei).
  set (R := ret_fds (retSocket s)) in *. set (X := base ∪ list_to_set (R ++ fds l1 ++ fds l2)).
  assert (∀ c', R ++ fds (<[i:=c']> (connectors s)) ≡ₚ slot_fds c' ++ (R ++ fds l1 ++ fds l2)) as Hp.
  { intros c'. rewrite El, Ei, insert_middle, fds_app, fds_cons. solve_Permutation. }
  assert (R ++ fds (connectors s) ≡ₚ cfd c ++ (R ++ fds l1 ++ fds l2)) as Hp0.
  { rewrite <-(Hp (Some c)), list_insert_id by done. done. }
  rewrite Hp0 in Hnd. apply NoDup_app in Hnd as (Hnd1 & Hd & Hnd2).
  assert (∀ fd, fd ∈ R ++ fds l1 ++ fds l2 → ¬ (fd ∈ base) ∧ fd ≠ INVALID_SOCKET) as Hrest.
  { intros fd Hfd. apply Hdis. rewrite Hp0. set_solver. }
  exists X. split.
  - split_and!; [|intros fd Hfd; split|..]; simpl; try by apply (Hok i).
    + rewrite E. setoid_rewrite Hp0. unfold X. set_solver.
    + unfold X. rewrite not_elem_of_union, elem_of_list_to_set. split; [|by apply Hd].
      apply Hdis. rewrite Hp0. set_solver.
    + apply Hdis. rewrite Hp0. set_solver.
  - intros e (Eo & Ho & Hip & Hst).
    assert (∀ c', (∀ c0, c' = Some c0 → connector_ok c0) → slot_fds c' = cfd (self e) →
      ledger base ((put i e s) <| connectors := <[i := c']> (connectors s) |>)) as Hput.
    { intros c' Hok' Hc'. unfold ledger. simpl. fold R. split_and!.
      - rewrite Eo. setoid_rewrite Hp. rewrite Hc'. unfold X. set_solver.
      - rewrite Hp, Hc'. apply NoDup_app. split_and!; [|intros fd Hfd; by apply Ho in Hfd as [?%not_elem_of_union ?]; set_solver|done].
        unfold cfd. destruct (_socket (self e)); [by apply NoDup_singleton|by apply NoDup_nil].
      - intros fd. rewrite Hp, Hc'. intros [Hfd|Hfd]%elem_of_app; [|by apply Hrest]. apply Ho in Hfd. set_solver.
      - intros j c0. simpl. rewrite list_lookup_insert.
        case_decide; [intros [= Hc0]; by apply Hok'|apply Hok]. }
    split.
    + apply (Hput (Some (self e))); [by intros c0 [= <-]|done].
    + intros Hn. simpl. rewrite list_insert_insert_eq. apply (Hput None); [done|]. unfold cfd. by rewrite Hn.
Qed.

(** What the loops over the connectors leave. *)
Definition tidy (base : gset Z) (s s' : locals) : Prop :=
  ledger base s' ∧ length (connectors s') = length (connectors s).

Lemma tidy_trans base s1 s2 s3 : tidy base s1 s2 → tidy base s2 s3 → tidy base s1 s3.
Proof. intros [_ E1] [H2 E2]. split; [done|congruence]. Qed.

Lemma wp_owned {A} base (s : locals) i c (m : ST env A) Φ :
  ledger base s → connectors s !! i = Some (Some c) →
  (∀ X, owned X (focus c s) → wp m (λ _ e, owned X e) (focus c s)) →
  (∀ a e, ledger base (put i e s) → Φ a (put i e s)) → wp (with_connector i m) Φ s.
Proof.
  intros Hl Hi Hm HΦ. destruct (ledger_focus _ _ _ _ Hl Hi) as (X & Ho & Hput).
  apply (wp_with_connector i m _ s c Hi). eapply wp_mono; [by apply Hm|].
  intros a e Ho'. by apply HΦ, Hput.
Qed.

Lemma put_lookup i e (s : locals) c :
  connectors s !! i = Some c → connectors (put i e s) !! i = Some (Some (self e)).
Proof. intros Hi%lookup_lt_Some. simpl. by rewrite list_lookup_insert_eq. Qed.

Lemma put_length i e (s : locals) : length (connectors (put i e s)) = length (connectors s).
Proof. apply length_insert. Qed.

Section run.

Lemma wp_delete_connector base (s : locals) i c :
  ledger base s → connectors s !! i = Some (Some c) →
  wp (delete_connector i) (λ _ s', tidy base s s' ∧ retSocket s' = retSocket s ∧
    connectors s' = <[i := None]> (connectors s)) s.
Proof.
  intros Hl Hi. destruct (ledger_focus _ _ _ _ Hl Hi) as (X & Ho & Hput).
  unfold delete_connector. apply wp_bind, (wp_with_connector _ _ _ s c Hi).
  eapply wp_mono; [by apply owned_delete|]. intros [] e [Ho' Hn]. apply wp_modify.
  destruct (Hput e Ho') as [_ Hd]. specialize (Hd Hn). simpl in *.
  rewrite list_insert_insert_eq in *. split; [split; [done|apply length_insert]|done].
Qed.

Lemma wp_close_connector {B} base (s : locals) i c (m : ST locals B) Φ :
  ledger base s → connectors s !! i = Some (Some c) →
  (∀ s', tidy base s s' → retSocket s' = retSocket s →
     connectors s' = <[i := None]> (connectors s) → wp m Φ s') →
  wp (with_connector i Connector.Close;; delete_connector i;; m) Φ s.
Proof.
  intros Hl Hi HΦ. apply wp_bind. eapply wp_owned; [done|done| |].
  { intros X Ho. eapply wp_mono; [by apply owned_Close|]. by intros [] e [? _]. }
  intros [] e Hl'. apply wp_bind. eapply wp_mono; [by eapply wp_delete_connector, put_lookup|].
  intros [] s' ([Ht El] & Hr & Ec). rewrite put_length in El. apply HΦ; [by split|done|].
  rewrite Ec. simpl. by rewrite list_insert_insert_eq.
Qed.

Lemma wp_pre_select base n : ∀ i timeout (s : locals), ledger base s →
  wp (pre_select n i timeout) (λ _ s', tidy base s s' ∧ retSocket s' = retSocket s) s.
Proof.
  induction n as [|n IH]; intros i timeout s Hl; simpl; [by apply wp_mret|].
  apply wp_bind, wp_gets. destruct (connectors s !! i) as [[c|]|] eqn:Hi; [|by apply IH|done].
  apply wp_bind. eapply wp_owned; [done|done|by intros; apply owned_PreSelect|].
  intros [] e1 Hl1. apply wp_bind. eapply wp_owned; [done|by eapply put_lookup| |].
  { intros X Ho. eapply wp_mono; [by apply owned_Timeout|]. by intros ? e [? _]. }
  intros left e2 Hl2. eapply wp_mono; [by apply IH|]. intros ? s' [[Hl' El] Hr].
  rewrite !put_length in El. by split.
Qed.

(** The connector that has won hands its socket over. *)
Lemma wp_win base (s : locals) i c :
  ledger base s → retSocket s = None → connectors s !! i = Some (Some c) →
  wp (socket ← with_connector i (Connector.get Connector.Socket);
      modify (λ s, s <| retSocket := socket |>);;
      with_connector i (Connector.set (λ c, Connector.SetSocket c None));;
      delete_connector i) (λ _, tidy base s) s.
Proof.
  intros (E & Hnd & Hdis & Hok) Hr Hi. rewrite Hr in *. simpl in *.
  apply wp_bind, (wp_with_connector _ _ _ s c Hi), wp_get, wp_bind, wp_modify.
  apply wp_bind. eapply wp_with_connector; [by apply put_lookup with (c := Some c)|].
  apply wp_set. unfold delete_connector. apply wp_bind. eapply wp_with_connector.
  { eapply put_lookup. by apply put_lookup with (c := Some c). }
  unfold Connector.delete, Close. apply wp_bind, wp_get, wp_bind, wp_delete_object, wp_bind, wp_get.
  simpl. apply wp_mret, wp_modify. unfold tidy, ledger. simpl. rewrite !list_insert_insert_eq, !length_insert.
  destruct (list_elem_of_split_length _ _ _ Hi) as (l1 & l2 & El & Ei).
  assert (ret_fds (Connector.Socket c) ++ fds (<[i:=None]> (connectors s)) ≡ₚ fds (connectors s)) as Hp.
  { rewrite El, Ei, insert_middle, !fds_app, !fds_cons. unfold ret_fds, Connector.Socket.
    simpl. unfold cfd. solve_Permutation. }
  split; [|done]. rewrite Hp. split_and!; [|done| |].
  - rewrite E. first [done | by setoid_rewrite Hp].
  - intros fd. rewrite Hp. apply Hdis.
  - intros j c0. rewrite list_lookup_insert. case_decide; [done|apply Hok].
Qed.

Lemma wp_after_select base n : ∀ i (s : locals), ledger base s → retSocket s = None →
  wp (after_select n i) (λ _, tidy base s) s.
Proof.
  induction n as [|n IH]; intros i s Hl Hr; simpl; [by apply wp_mret|].
  apply wp_bind, wp_gets. destruct (connectors s !! i) as [[c|]|] eqn:Hi; [|by apply IH|done].
  apply wp_bind. eapply wp_owned; [done|done|by intros; apply owned_AfterSelect|].
  intros [] e1 Hl1. apply wp_bind. eapply wp_owned; [done|by eapply put_lookup| |].
  { intros X Ho. by apply wp_get. }
  intros status e2 Hl2. set (s2 := put i e2 (put i e1 s)) in *.
  assert (length (connectors s2) = length (connectors s)) as Elen.
  { unfold s2. by rewrite !put_length. }
  assert (connectors s2 !! i = Some (Some (self e2))) as Hi2.
  { by eapply put_lookup, put_lookup. }
  assert (retSocket s2 = None) as Hr2 by done. clearbody s2.
  case_bool_decide.
  { eapply wp_close_connector; [done|done|]. intros s3 [Hl3 El3] Hr3 _. apply wp_bind, wp_modify.
    eapply wp_mono; [apply IH; [exact Hl3|simpl; by rewrite Hr3]|]. intros [] s' [? El']. split; [done|].
    simpl in El'. congruence. }
  case_bool_decide.
  { eapply wp_mono; [by eapply wp_win|]. intros [] s' [? ?]. split; [done|congruence]. }
  eapply wp_mono; [by apply IH|]. intros [] s' [? ?]. split; [done|congruence].
Qed.

Lemma wp_close_all base n : ∀ i (s : locals), ledger base s → length (connectors s) = (i + n)%nat →
  fds (take i (connectors s)) = [] →
  wp (close_all n i) (λ _ s', tidy base s s' ∧ retSocket s' = retSocket s ∧
    fds (connectors s') = []) s.
Proof.
  induction n as [|n IH]; intros i s Hl Hlen Hfds; simpl.
  { apply wp_mret. split; [done|]. split; [done|]. rewrite take_ge in Hfds by lia. done. }
  apply wp_bind, wp_gets.
  destruct (lookup_lt_is_Some_2 (connectors s) i) as [c Hi]; [lia|]. rewrite Hi. destruct c as [c|].
  - eapply wp_close_connector; [done|done|]. intros s' [Hl' El'] Hr' Ec'.
    eapply wp_mono; [apply IH; [done|lia|]|].
    + rewrite Ec', (take_S_r _ _ None), take_insert_ge, fds_app, Hfds; [done|lia|].
      by rewrite list_lookup_insert_eq by lia.
    + intros [] s'' ([Hl'' El''] & Hr'' & Ef). split_and!; [split; [done|congruence]|congruence|done].
  - apply IH; [done|lia|]. by rewrite (take_S_r _ _ None), fds_app, Hfds.
Qed.

Context `{!∀ X, PollKept P (λ k, opened k = X)}.

Lemma ledger_os base (s s' : locals) :
  ledger base s → retSocket s' = retSocket s → connectors s' = connectors s →
  opened (ComplexConnect.os s') = opened (ComplexConnect.os s) → ledger base s'.
Proof. unfold ledger. by intros Hl -> -> ->. Qed.

Lemma wp_start_next base cc curTime (s : locals) :
  ledger base s → wp (start_next cc curTime) (λ _ s', tidy base s s' ∧ retSocket s' = retSocket s) s.
Proof.
  intros Hl. unfold start_next. do 2 apply wp_bind, wp_gets. apply wp_bind, wp_checking. intros next _.
  apply wp_bind, wp_gets. case_match; [|by apply wp_mret]. case_match; [by apply wp_mret|].
  apply wp_bind, cc_wp_call. intros now k Ek. apply wp_bind, wp_modify, wp_mret.
  split; [split; [|done]|done]. eapply ledger_os; [exact Hl|done..|]. simpl.
  pose proof (kept_gettickcount (λ k, opened k = opened (ComplexConnect.os s)) _ eq_refl) as Hk1.
  by rewrite Ek in Hk1.
Qed.

Lemma wp_iteration base cc (s : locals) :
  ledger base s → retSocket s = None →
  wp (iteration cc) (λ leave s', tidy base s s' ∧ (leave = false → retSocket s' = None)) s.
Proof.
  intros Hl Hr. unfold iteration, register. apply wp_bind, wp_bind, cc_wp_call. intros curTime k Ek.
  pose proof (kept_gettickcount (λ k, opened k = opened (ComplexConnect.os s)) _ eq_refl) as Hk1.
  rewrite Ek in Hk1. simpl in Hk1. apply wp_bind. unfold wpx at 1.
  pose proof (kept_poll_new (P:=P) (Q:=λ k, opened k = opened (ComplexConnect.os s)) (breaker s) k Hk1)
    as Hk2. unfold SocketSelect.new. simpl. destruct (poll_new _ _) as [p k2]. simpl in Hk2.
  set (s1 := s <| ComplexConnect.os := k |> <| ComplexConnect.sel := _ |> <| ComplexConnect.os := _ |>).
  assert (ledger base s1) as Hl1 by (by eapply ledger_os).
  assert (retSocket s1 = None ∧ length (connectors s1) = length (connectors s)) as [Hr1 E1] by done.
  clearbody s1. apply wp_bind. eapply wp_mono; [by apply wp_start_next|].
  intros timeout s2 [[Hl2 E2] Hr2]. apply wp_bind, wp_gets, wp_bind.
  eapply wp_mono; [by apply wp_pre_select|]. intros timeout' s3 [[Hl3 E3] Hr3]. apply wp_mret. cbv zeta.
  apply wp_bind. unfold wpx at 1, select, SocketSelect.Select.
  destruct (Poll _ _ _ _) as [[[[ret p4] br4] k4]| | |] eqn:Ep; simpl; try done.
  apply (kept_Poll (Q:=λ k, opened k = opened (ComplexConnect.os s3))) in Ep; [|done].
  set (s4 := s3 <| ComplexConnect.sel := _ |> <| ComplexConnect.breaker := _ |> <| ComplexConnect.os := _ |>).
  assert (tidy base s s4 ∧ retSocket s4 = None) as [Ht4 Hr4].
  { split; [|simpl; congruence]. split; [by eapply ledger_os|simpl; congruence]. }
  clearbody s4. apply wp_bind.
  eapply wp_mono with (Φ := λ leave s', tidy base s s' ∧ (leave = false → retSocket s' = None)).
  - unfold look. case_match; [by apply wp_mret|]. apply wp_bind, wp_gets. case_match; [by apply wp_mret|].
    apply wp_bind, wp_gets. case_match; [by apply wp_mret|]. apply wp_bind.
    eapply wp_mono; [apply wp_after_select; [apply Ht4|done]|]. intros [] s5 Ht5.
    apply wp_bind, wp_gets, wp_mret. split; [by eapply tidy_trans|]. intros [_ Hn]%orb_false_iff.
    by destruct (retSocket s5).
  - intros leave s6 [[Hl6 E6] Hr6]. apply wp_bind, wp_modify, wp_mret. split; [split; [|done]|done].
    eapply ledger_os; [exact Hl6|done..|]. simpl. unfold SocketSelect.delete.
    by apply (kept_poll_delete (Q:=λ k, opened k = opened (ComplexConnect.os s6))).
Qed.

Lemma wp_loop base cc fuel : ∀ s : locals,
  ledger base s → retSocket s = None → wp (loop fuel cc) (λ _, tidy base s) s.
Proof.
  induction fuel as [|fuel IH]; intros s Hl Hr; simpl; [done|]. apply wp_bind.
  eapply wp_mono; [by apply wp_iteration|]. intros leave s1 [Ht Hr1].
  destruct leave; [by apply wp_mret|]. eapply wp_mono; [apply IH; [apply Ht|by apply Hr1]|].
  intros [] s2 Ht2. by eapply tidy_trans.
Qed.

Lemma new_connectors_lookup cc WITH_SSL addrs i c :
  new_connectors cc WITH_SSL addrs !! i = Some (Some c) →
  ∃ a, addrs !! i = Some a ∧ _addr c = a ∧ _socket c = None ∧ _status c = ConnStatusStart.
Proof.
  unfold new_connectors. rewrite list_lookup_imap. destruct (addrs !! i) as [a|]; simpl; [|done].
  intros [= <-]. by exists a.
Qed.

Lemma new_connectors_fds cc WITH_SSL addrs : fds (new_connectors cc WITH_SSL addrs) = [].
Proof.
  apply elem_of_nil_inv. intros fd (c & Hfd & Hc)%list_elem_of_bind.
  apply list_elem_of_lookup in Hc as [i Hi]. destruct c as [c|]; [|by apply elem_of_nil in Hfd].
  apply new_connectors_lookup in Hi as (a & _ & _ & Hs & _). simpl in Hfd. unfold cfd in Hfd.
  rewrite Hs in Hfd. by apply elem_of_nil in Hfd.
Qed.

End run.

(** C12: no socket is leaked: for addresses that are not empty, and on whose new
    sockets fcntl and connect do not fail at once, ConnectImpatient, when it returns,
    leaves open exactly the sockets that were open before and the socket of its result,
    which is a new one, whatever the connections, select, the TLS library and the clock
    do. *)
Theorem ConnectImpatient_closes `{!∀ X, PollKept P (λ k, opened k = X)}
    fuel p cc WITH_SSL addrs br k r br' k' :
  Forall (startable (K:=K)) addrs →
  ConnectImpatient (P:=P) fuel p cc WITH_SSL addrs (br, k) = Ret (r, (br', k')) →
  opened k' = opened k ∪ list_to_set (ret_fds r) ∧
  ∀ s, r = Some s → ¬ (AnySocket.GetSocket s ∈ opened k) ∧ AnySocket.IsInvalid s = false.
Proof.
  intros Haddrs. unfold ConnectImpatient. case_bool_decide.
  { intros [= <- <- <-]. simpl. by rewrite (right_id_L ∅ (∪)). }
  pose proof (kept_gettickcount (λ k', opened k' = opened k) k eq_refl) as Hk1.
  destruct (gettickcount k) as [curTime k1]. simpl in Hk1. set (l := new_connectors cc WITH_SSL addrs).
  set (s0 := mkLocals _ _ _ _ _ _ _ _). assert (ledger (opened k) s0) as Hl.
  { unfold ledger. simpl. unfold l. rewrite new_connectors_fds. simpl.
    rewrite (right_id_L ∅ (∪)). split_and!; [done|apply NoDup_nil_2|by intros ? ?%elem_of_nil|].
    intros i c (a & Ha & <- & Hs & _)%new_connectors_lookup. split; [|done].
    by eapply Forall_lookup in Haddrs. }
  assert (wp (loop fuel cc;; close_all (length l) 0;; gets retSocket)
    (λ r s, ledger (opened k) s ∧ fds (connectors s) = [] ∧ r = retSocket s) s0) as Hw.
  { apply wp_bind. eapply wp_mono; [by eapply wp_loop|]. intros [] s1 [Hl1 E1]. apply wp_bind.
    eapply wp_mono; [by apply wp_close_all; [exact Hl1|by rewrite E1|]|].
    intros [] s2 ([Hl2 _] & _ & Hf). by apply wp_gets. }
  unfold wpx in Hw. fold l s0.
  lazymatch type of Hw with match ?run with _ => _ end => destruct run as [[r0 s]| | |] end;
    try done.
  intros [= <- _ <-].
  destruct Hw as ((E & _ & Hd & _) & Hf & ->). rewrite Hf, (right_id_L [] (++)) in *.
  split; [done|]. intros sock Hs. rewrite Hs in Hd. simpl in Hd.
  destruct (Hd _ (proj2 (list_elem_of_singleton _ _) eq_refl)) as [Hb Hne]. split; [done|].
  apply Z.eqb_neq in Hne. by destruct sock.
Qed.

End complex.
