(* ===== verification/ComplexTurns.v ===== *)
(** * ComplexTurns: the turns of the loop of ConnectImpatient

    How many connections are under way, the socket that a failed start leaks, and
    the turn that is the last. *)
From S2P Require Import Prelude Monad TcpError Sockets SocketBreaker TimeUtils UnixSocket.
From S2P Require Import Poll PollProps TcpDefine Connector ConnectorProps ComplexConnect ComplexProps.
Import Connector ComplexConnect.

Section connector.
Context {P K : Type} `{!SocketPollBase P K, !PipeKernel K, !Clock K, !SockOpts K}.
Context `{!Kernel K, !OpenSSL K, !SslStatic K, !ConnectKernel K, !BaseDelete}.
Abbreviation env := (Connector.env (P:=P) (K:=K)).

(** A start that fails leaks its socket: when socket(2) has given a descriptor
    and PreConnectSelect ends in an error, for whatever reason, the connector does
    not know the descriptor, and Close leaves it open. *)
Theorem failed_start_leaks `{!Ledger K} (e : env) fd k :
  wf (self e) → _status (self e) = ConnStatusStart →
  socket (Connector.os e) = (fd, k) → fd ≠ INVALID_SOCKET →
  ∃ e1, PreConnectSelect e = Ret ((), e1) ∧
    (_status (self e1) = ConnStatusError →
     ∃ e2, Close e1 = Ret ((), e2) ∧ ¬ (fd ∈ opened (Connector.os e)) ∧
       opened (Connector.os e2) = {[fd]} ∪ opened (Connector.os e)).
Proof.
  intros [_ Hw] Hs Ek Hfd. specialize (Hw Hs). pose proof (socket_opened _ _ _ Ek) as Hk.
  apply Z.eqb_neq in Hfd. rewrite Hfd in Hk. destruct Hk as [Hnew Hk].
  set (X := {[fd]} ∪ opened (Connector.os e)) in *.
  assert (twp PreConnectSelect (λ _ e1, _status (self e1) = ConnStatusError →
    _socket (self e1) = None ∧ opened (Connector.os e1) = X) e) as Hp.
  { unfold PreConnectSelect. apply wp_bind, conn_wp_call. intros fd' k' E'. rewrite Ek in E'.
    injection E' as <- <-. apply wp_bind, wp_get. rewrite Hfd. kept_run (λ k, opened k = X); simpl; first [by intros _; rewrite Hw|done]. }
  apply twp_elim in Hp as ([] & e1 & E1 & Hp). exists e1. split; [done|]. intros He.
  destruct (Hp He) as [Hn Ho]. exists e1. split; [|done].
  unfold Close, mbind, ST_mbind, Connector.get, gets. simpl. by rewrite Hn.
Qed.

(** ** Turns *)

Definition weight (c : Connector.t) : nat := match _socket c with Some _ => 1 | None => 0 end.

(** A connector that has started does not open another socket. *)
Definition settled (c c' : Connector.t) : Prop :=
  _status c ≠ ConnStatusStart → _status c' ≠ ConnStatusStart ∧ (weight c' ≤ weight c)%nat.

Lemma settled_refl c : settled c c.
Proof. by intros ?. Qed.

Lemma settled_PreSelect (e : env) :
  wp PreSelect (λ _ e', _status (self e') ≠ ConnStatusStart ∧ settled (self e) (self e')) e.
Proof.
  assert (wp Tcp_PreSelect (λ _ e', _status (self e') ≠ ConnStatusStart ∧
    settled (self e) (self e')) e) as Htcp.
  { unfold Tcp_PreSelect. apply wp_bind, wp_get. destruct (_status (self e)) eqn:Hs;
      try (apply wp_mret; split; [by rewrite Hs|apply settled_refl]).
    - unfold PreConnectSelect. conn_run; (split; [done|]); by intros ?.
    - apply wp_bind, wp_socket_ptr_any. intros s Es. conn_run. split; [by simpl; rewrite Hs|].
      apply settled_refl. }
  unfold PreSelect. apply wp_bind, wp_get. destruct (_class (self e)); [exact Htcp|].
  apply wp_bind. eapply wp_mono; [exact Htcp|]. intros [] e1 [Hn Hse]. apply wp_bind, wp_get.
  destruct (_status (self e1)) eqn:Hs; try by (apply wp_mret; rewrite Hs).
  - unfold PreSSLSelect. apply wp_bind, wp_socket_ptr_any. intros s Es.
    apply wp_bind, conn_wp_call. intros [err s'] k _. apply wp_bind, wp_set. conn_run; simpl;
      rewrite ?Hs; (split; [done|]); intros Hst; destruct (Hse Hst) as [_ Hle];
      (split; [simpl; by rewrite ?Hs|]); unfold weight in *; simpl; by rewrite Es in Hle.
  - apply wp_bind, wp_socket_ptr_any. intros s Es. conn_run; simpl; (split; [by rewrite Hs|done]).
Qed.

End connector.

(** ** How many connections are under way *)
Section turns.
Context {P K : Type} `{!SocketPollBase P K, !PipeKernel K, !Clock K, !SockOpts K}.
Context `{!Kernel K, !OpenSSL K, !SslStatic K, !ConnectKernel K, !BaseDelete}.
Abbreviation locals := (ComplexConnect.locals (P:=P) (K:=K)).
Abbreviation env := (Connector.env (P:=P) (K:=K)).
Implicit Types (s : locals) (l : list (option Connector.t)).

Lemma settled_AfterSelect (e : env) :
  wp AfterSelect (λ _ e', settled (self e) (self e')) e.
Proof.
  assert (wp Tcp_AfterSelect (λ _ e', settled (self e) (self e')) e) as Htcp.
  { unfold Tcp_AfterSelect. apply wp_bind, wp_get. destruct (_status (self e)) eqn:Hs;
      try (apply wp_mret, settled_refl).
    unfold AfterConnectSelect, Timeout. conn_run; intros Hst; by split. }
  unfold AfterSelect. apply wp_bind, wp_get. destruct (_class (self e)); [exact Htcp|].
  apply wp_bind. eapply wp_mono; [exact Htcp|]. intros [] e1 Hse. apply wp_bind, wp_get.
  destruct (_status (self e1)) eqn:Hs; try by apply wp_mret.
  unfold AfterSSLSelect, Timeout. kept_run (λ _ : K, True); intros Hst;
    destruct (Hse Hst) as [Hst1 Hle]; (split; [simpl; done|exact Hle]).
Qed.

(** A connector that has a socket, or is about to open one. *)
Definition pending (c : option Connector.t) : nat :=
  match c with
  | Some c => if decide (_status c = ConnStatusStart) then 1 else weight c
  | None => 0
  end.
Definition slot_weight (c : option Connector.t) : nat :=
  match c with Some c => weight c | None => 0 end.
Abbreviation total := sum_list_with.

Lemma total_insert f l i c c' : l !! i = Some c → (f c' ≤ f c)%nat → (total f (<[i:=c']> l) ≤ total f l)%nat.
Proof.
  intros (l1 & l2 & -> & ->)%list_elem_of_split_length Hle.
  rewrite insert_middle, !sum_list_with_app. simpl. lia.
Qed.

Lemma total_mono f g l : (∀ c, c ∈ l → (f c ≤ g c)%nat) → (total f l ≤ total g l)%nat.
Proof.
  induction l as [|c l IH]; intros Hle; simpl; [lia|].
  pose proof (Hle c ltac:(set_solver)). specialize (IH ltac:(set_solver)). lia.
Qed.

Lemma runningCount_total l : runningCount l = Z.of_nat (total slot_weight l).
Proof.
  unfold runningCount, size. f_equal. induction l as [|[c|] l IH]; simpl; [done| |done].
  unfold Socket, weight. by destruct (_socket c); simpl; rewrite IH.
Qed.

(** The connectors from [index] on have not started.  [started] says that those
    before it have. *)
Definition waiting (c : option Connector.t) : Prop :=
  ∀ c', c = Some c' → _status c' = ConnStatusStart ∧ _socket c' = None.
Definition started (c : option Connector.t) : Prop :=
  ∀ c', c = Some c' → _status c' ≠ ConnStatusStart.

Definition bounded (cc : ComplexConnect.t) s : Prop :=
  Z.of_nat (total pending (take (index s) (connectors s))) ≤ _maxConnect cc ∧
  Forall waiting (drop (index s) (connectors s)).

Lemma bounded_running cc s : bounded cc s → runningCount (connectors s) ≤ _maxConnect cc.
Proof.
  intros [Hb Hw]. rewrite runningCount_total, <-(take_drop (index s) (connectors s)), sum_list_with_app.
  assert (total slot_weight (drop (index s) (connectors s)) = 0)%nat as ->.
  { induction Hw as [|[c|] l Hc _ IH]; simpl; [done| |done]. rewrite IH. unfold weight.
    by rewrite (proj2 (Hc c eq_refl)). }
  assert (total slot_weight (take (index s) (connectors s)) ≤
          total pending (take (index s) (connectors s)))%nat; [|lia].
  apply total_mono. intros [c|] _; simpl; [|done]. case_decide; [|done].
  unfold weight. by destruct (_socket c); lia.
Qed.

(** One connector before [index] takes a step. *)
Lemma bounded_step cc s i c c' s' :
  bounded cc s → connectors s !! i = Some c → (i < index s)%nat → index s' = index s →
  connectors s' = <[i := c']> (connectors s) → (pending c' ≤ pending c)%nat → bounded cc s'.
Proof.
  intros [Hb Hw] Hi Hlt Ei Ec Hle. unfold bounded. rewrite Ei, Ec, drop_insert_lt by lia.
  split; [|done]. rewrite take_insert_lt by lia.
  pose proof (total_insert pending (take (index s) (connectors s)) i c c') as Ht.
  rewrite lookup_take_lt in Ht by lia. specialize (Ht Hi Hle). lia.
Qed.

Lemma bounded_ext cc s s' :
  bounded cc s → index s' = index s → connectors s' = connectors s → bounded cc s'.
Proof. unfold bounded. by intros Hb -> ->. Qed.

(** What one step of a connector that has started does to its slot. *)
Lemma pending_settled c c' : _status c ≠ ConnStatusStart → settled c c' →
  (pending (Some c') ≤ pending (Some c))%nat ∧ _status c' ≠ ConnStatusStart.
Proof.
  intros Hst Hse. destruct (Hse Hst) as [Hst' Hle]. simpl. by rewrite !decide_False.
Qed.

Lemma pending_start c c' :
  _status c' ≠ ConnStatusStart → settled c c' → (pending (Some c') ≤ pending (Some c))%nat.
Proof.
  intros Hst' Hse. destruct (decide (_status c = ConnStatusStart)) as [Hst|Hst].
  - simpl. rewrite decide_False, decide_True by done. unfold weight. destruct (_socket c'); lia.
  - by apply pending_settled.
Qed.

Lemma started_extend i c l :
  Forall started (take i l) → started c → (i < length l)%nat →
  Forall started (take (S i) (<[i := c]> l)).
Proof.
  intros Hl Hc Hi. rewrite (take_S_r _ _ c) by (by rewrite list_lookup_insert_eq).
  rewrite take_insert_ge by done. apply Forall_app. by repeat constructor.
Qed.

Lemma bounded_pre_select cc n : ∀ i timeout s,
  bounded cc s → index s = (i + n)%nat → Forall started (take i (connectors s)) →
  wp (pre_select n i timeout) (λ _ s', bounded cc s' ∧ index s' = index s ∧
    Forall started (take (index s) (connectors s'))) s.
Proof.
  induction n as [|n IH]; intros i timeout s Hb Hidx Hst; simpl.
  { apply wp_mret. rewrite Nat.add_0_r in Hidx. by rewrite Hidx. }
  apply wp_bind, wp_gets. destruct (connectors s !! i) as [c|] eqn:Hi; [|done].
  destruct c as [c|].
  - apply wp_bind, (wp_with_connector _ _ _ s c Hi). eapply wp_mono; [apply settled_PreSelect|].
    intros [] e [Hn Hse]. apply wp_bind. eapply wp_with_connector; [by eapply put_lookup|].
    apply twp_Timeout. intros t k _. set (s2 := put i _ (put i e s)).
    assert (connectors s2 = <[i := Some (self e)]> (connectors s)) as Ec
      by (apply list_insert_insert_eq).
    assert (index s2 = index s) as Ei by done. clearbody s2. rewrite <-Ei. apply IH.
    + eapply bounded_step; [done|done|lia|done|done|]. by apply pending_start.
    + lia.
    + rewrite Ec. apply started_extend; [done|by intros c' [= <-]|by eapply lookup_lt_Some].
  - apply IH; [done|lia|]. rewrite (take_S_r _ _ None), Forall_app by done. by repeat constructor.
Qed.

(** The loop finds its state so. *)
Definition turn_inv (cc : ComplexConnect.t) s : Prop :=
  bounded cc s ∧ Forall started (take (index s) (connectors s)).

Lemma bounded_start_next cc curTime s :
  turn_inv cc s → wp (start_next cc curTime) (λ _, bounded cc) s.
Proof.
  intros [[Hb Hw] Hst]. unfold start_next. do 2 apply wp_bind, wp_gets.
  apply wp_bind, wp_checking. intros next _. apply wp_bind, wp_gets.
  destruct (_ <? size _) eqn:Hidx; [|by apply wp_mret]. apply Z.ltb_lt in Hidx.
  destruct (_ <? _maxConnect cc) eqn:Hmax; [|by apply wp_mret]. apply Z.ltb_lt in Hmax. simpl.
  case_match; [by apply wp_mret|]. apply wp_bind, cc_wp_call. intros now k _.
  apply wp_bind, wp_modify, wp_mret. unfold bounded. simpl.
  destruct (lookup_lt_is_Some_2 (connectors s) (index s)) as [c Hc]; [unfold size in Hidx; lia|].
  rewrite (take_S_r _ _ c Hc), sum_list_with_app. simpl.
  rewrite (drop_S _ c) in Hw by done. apply Forall_cons in Hw as [Hc0 Hw]. split; [|done].
  rewrite runningCount_total, <-(take_drop (index s) (connectors s)), sum_list_with_app in Hmax.
  assert (total pending (take (index s) (connectors s)) =
          total slot_weight (take (index s) (connectors s))) as ->.
  { clear Hb Hmax. induction Hst as [|[c'|] l Hc' _ IH]; simpl; [done| |done].
    rewrite IH, decide_False; [done|]. by apply Hc'. }
  assert (pending c ≤ 1)%nat; [|lia]. destruct c as [c|]; simpl; [|lia].
  rewrite decide_True; [lia|]. by apply Hc0.
Qed.

Lemma bounded_register cc s :
  turn_inv cc s → wp (register cc) (λ '(n, _) s', turn_inv cc s' ∧ n = index s') s.
Proof.
  intros [Hb Hst]. unfold register. apply wp_bind, cc_wp_call. intros curTime k _.
  apply wp_bind. unfold wpx at 1. destruct (SocketSelect.new _ _) as [p k2].
  apply wp_bind. eapply wp_mono; [apply bounded_start_next; split; [exact Hb|exact Hst]|].
  intros timeout s1 Hb1.
  apply wp_bind, wp_gets, wp_bind. eapply wp_mono; [apply (bounded_pre_select cc); [done|done|by constructor]|].
  intros timeout' s2 (Hb2 & Ei & Hst2). apply wp_mret. by rewrite <-Ei in Hst2.
Qed.

Lemma turn_inv_step cc s i c c' s' :
  turn_inv cc s → connectors s !! i = Some c → (i < index s)%nat → index s' = index s →
  connectors s' = <[i := c']> (connectors s) → (pending c' ≤ pending c)%nat → started c' →
  turn_inv cc s'.
Proof.
  intros [Hb Hst] Hi Hlt Ei Ec Hle Hc. split; [by eapply bounded_step|].
  rewrite Ei, Ec, take_insert_lt by done. by apply Forall_insert.
Qed.

(** One operation on a connector, between the registrations. *)
Lemma turn_inv_with {A} cc s i c (m : ST env A) Φ :
  turn_inv cc s → connectors s !! i = Some (Some c) → (i < index s)%nat →
  wp m (λ _ e, settled c (self e)) (focus c s) →
  (∀ a s' c', turn_inv cc s' → index s' = index s → connectors s' !! i = Some (Some c') →
     Φ a s') → wp (with_connector i m) Φ s.
Proof.
  intros Hinv Hi Hlt Hm HΦ. apply (wp_with_connector _ _ _ s c Hi). eapply wp_mono; [exact Hm|].
  intros a e Hse. assert (_status c ≠ ConnStatusStart) as Hst.
  { destruct Hinv as [_ Hst]. rewrite Forall_lookup in Hst. eapply (Hst i); [|done].
    by rewrite lookup_take_lt. }
  destruct (pending_settled _ _ Hst Hse) as [Hle Hst'].
  eapply HΦ; [|done|by eapply put_lookup]. eapply turn_inv_step; try done. by intros ? [= <-].
Qed.

Lemma turn_inv_delete cc s i c :
  turn_inv cc s → connectors s !! i = Some (Some c) → (i < index s)%nat →
  wp (delete_connector i) (λ _ s', turn_inv cc s' ∧ index s' = index s) s.
Proof.
  intros Hinv Hi Hlt. unfold delete_connector. apply wp_bind. eapply turn_inv_with; [done..| |].
  { unfold Connector.delete, Close. conn_run; intros Hst; (split; [done|]); [|done].
    unfold weight. simpl. lia. }
  intros [] s' c' Hinv' Hidx Hi'. apply wp_modify. split; [|done].
  eapply (turn_inv_step cc s' i (Some c') None); try done; simpl; [lia|lia].
Qed.

Lemma turn_inv_after_select cc n : ∀ i s,
  turn_inv cc s → (i + n = index s)%nat → wp (after_select n i) (λ _, turn_inv cc) s.
Proof.
  induction n as [|n IH]; intros i s Hinv Hidx; simpl; [by apply wp_mret|].
  apply wp_bind, wp_gets. destruct (connectors s !! i) as [[c|]|] eqn:Hi; [|by apply IH; [|lia]|done].
  apply wp_bind. eapply turn_inv_with; [done|done|lia|apply settled_AfterSelect|].
  intros [] s1 c1 Hinv1 Hidx1 Hi1. apply wp_bind.
  eapply turn_inv_with; [done|done|lia|by apply wp_get, settled_refl|].
  intros status s2 c2 Hinv2 Hidx2 Hi2. cbv beta zeta. case_bool_decide; [|case_bool_decide].
  - apply wp_bind. eapply turn_inv_with; [done|done|lia| |].
    { unfold Close. conn_run; intros Hst; (split; [done|]); [|done]. unfold weight. simpl. lia. }
    intros [] s3 c3 Hinv3 Hidx3 Hi3. apply wp_bind.
    eapply wp_mono; [eapply turn_inv_delete; [done|done|lia]|]. intros [] s4 [Hinv4 Hidx4].
    apply wp_bind, wp_modify, IH; [done|simpl; lia].
  - apply wp_bind. eapply turn_inv_with; [done|done|lia|by apply wp_get, settled_refl|].
    intros socket s3 c3 Hinv3 Hidx3 Hi3. apply wp_bind, wp_modify, wp_bind.
    eapply (turn_inv_with cc _ i c3); [exact Hinv3|done|simpl; lia| |].
    { apply wp_set. intros Hst. split; [done|]. unfold weight. simpl. lia. }
    intros [] s4 c4 Hinv4 Hidx4 Hi4. simpl in Hidx4.
    eapply wp_mono; [eapply turn_inv_delete; [done|done|lia]|]. by intros [] s5 [? _].
  - apply IH; [done|lia].
Qed.

Lemma turn_inv_iteration cc s : turn_inv cc s → wp (iteration cc) (λ _, turn_inv cc) s.
Proof.
  intros Hinv. unfold iteration. apply wp_bind. eapply wp_mono; [by apply bounded_register|].
  intros [n timeout] s1 [Hinv1 ->]. cbv zeta. apply wp_bind. unfold wpx at 1, select.
  destruct (SocketSelect.Select _ _ _ _) as [[[[ret p] br] k]| | |]; simpl; try done.
  set (s2 := s1 <| ComplexConnect.sel := _ |> <| ComplexConnect.breaker := _ |>
                <| ComplexConnect.os := _ |>).
  assert (turn_inv cc s2) as Hinv2 by exact Hinv1. assert (index s2 = index s1) as Ei by done.
  clearbody s2. rewrite <-Ei. apply wp_bind. eapply wp_mono with (Φ := λ _ s', turn_inv cc s').
  - unfold look. case_match; [by apply wp_mret|]. apply wp_bind, wp_gets. case_match; [by apply wp_mret|].
    apply wp_bind, wp_gets. case_match; [by apply wp_mret|]. apply wp_bind.
    eapply wp_mono; [by apply turn_inv_after_select|]. intros [] s3 Hinv3.
    by apply wp_bind, wp_gets, wp_mret.
  - intros leave s3 Hinv3. apply wp_bind, wp_modify, wp_mret. exact Hinv3.
Qed.

(** The states that the loop goes through. *)
Inductive turns (cc : ComplexConnect.t) : locals → locals → Prop :=
| turns_refl s : turns cc s s
| turns_step s1 b s2 s3 : iteration cc s1 = Ret (b, s2) → turns cc s2 s3 → turns cc s1 s3.

(** C15: at most [_maxConnect] connections are under way: at every turn of the loop,
    after the connectors have been registered and the next one has perhaps opened
    its socket, no more than [_maxConnect] connectors have a socket. *)
Theorem at_most_maxConnect cc WITH_SSL addrs last p br k s n timeout s' :
  0 ≤ _maxConnect cc →
  turns cc (mkLocals (new_connectors cc WITH_SSL addrs) last 0 0 None p br k) s →
  register cc s = Ret (n, timeout, s') →
  runningCount (connectors s') ≤ _maxConnect cc.
Proof.
  intros Hmax Ht. set (s0 := mkLocals _ _ _ _ _ _ _ _) in Ht. assert (turn_inv cc s0) as Hinv.
  { split; [split|]; simpl; [done| |by constructor]. apply Forall_lookup. intros i c Hi c' ->.
    by apply new_connectors_lookup in Hi as (a & _ & _ & Hn & Hs). }
  clearbody s0. induction Ht as [s0|s1 b s2 s3 E _ IH]; intros Er.
  - eapply (wp_elim _ (λ '(n, _) s', turn_inv cc s' ∧ n = index s')) in Er; [|by apply bounded_register].
    by apply bounded_running, Er.
  - apply IH; [|done]. by eapply (wp_elim _ (λ _, turn_inv cc)), turn_inv_iteration.
Qed.

End turns.

(** ** The last turn *)
Section last_turn.
Context {P K : Type} `{!SocketPollBase P K, !PipeKernel K, !Clock K, !SockOpts K}.
Context `{!Kernel K, !OpenSSL K, !SslStatic K, !ConnectKernel K, !BaseDelete}.
Abbreviation locals := (ComplexConnect.locals (P:=P) (K:=K)).
Abbreviation env := (Connector.env (P:=P) (K:=K)).

(** [Q] is a condition on the system that no call ends, such as that the clock has
    passed a point. *)
Context (Q : K → Prop) `{!Kept Q, !PollKept P Q, !PollReturns P K}.
Context (kept_close : ∀ fd k, Q k → Q (close fd k)) (Hdelete : base_delete = true).

Definition tick (k : K) : Z := fst (gettickcount k).

(** A connector whose deadline has passed, in the state in which the outcome of the
    next select ends it: connecting without TLS, or in the handshake. *)
Definition due (c : Connector.t) : Prop :=
  wf c ∧ connecting (_status c) ∧
  (_status c = ConnStatusConnecting → isTls (_addr c) = false) ∧
  (_status c = ConnStatusSSLConnecting → _class c = SSLConnector) ∧
  ∀ k, Q k → time_left c (tick k) ≤ 0.

Lemma due_PreSelect (e : env) :
  due (self e) → twp PreSelect (λ _ e', self e' = self e ∧ Connector.os e' = Connector.os e) e.
Proof.
  intros (Hwf & Hc & _ & Hssl & _). unfold PreSelect, SSL_PreSelect, Tcp_PreSelect.
  destruct (proj1 Hwf) as [s Es]; [by destruct Hc as [-> | ->]|].
  apply wp_bind, wp_get. destruct Hc as [Hs|Hs].
  - destruct (_class (self e)) eqn:Hcl; apply wp_bind, wp_get || apply wp_bind, wp_bind, wp_get;
      rewrite Hs; conn_run; simpl in *; congruence || done.
  - rewrite (Hssl Hs). apply wp_bind, wp_bind, wp_get. rewrite Hs.
    apply wp_mret, wp_bind, wp_get. rewrite Hs. conn_run; done.
Qed.

Lemma kept_AfterSelect (e : env) :
  Q (Connector.os e) → wp AfterSelect (λ _ e', Q (Connector.os e')) e.
Proof.
  intros HQ. unfold AfterSelect, SSL_AfterSelect, Tcp_AfterSelect, AfterConnectSelect, AfterSSLSelect.
  kept_run Q; done.
Qed.

Lemma due_AfterSelect (e : env) :
  due (self e) → Q (Connector.os e) →
  twp AfterSelect (λ _ e', Q (Connector.os e') ∧
    (_status (self e') = ConnStatusError ∨
     _status (self e') = ConnStatusConnected ∧ is_Some (_socket (self e')))) e.
Proof.
  intros (Hwf & Hc & Htcp & Hssl & Hdue) HQ.
  destruct (twp_elim _ _ _ (twp_AfterSelect e Hwf Hssl))
    as ([] & e' & E & Hwf' & _ & _ & _ & Hstep & _ & Hleft).
  pose proof (wp_elim _ (λ _ e', Q (Connector.os e')) _ _ _ E (kept_AfterSelect e HQ)) as HQ'.
  unfold wpx. rewrite E. split; [done|].
  assert (¬ connecting (_status (self e'))) as Hn.
  { intros (now & k & Et & Hlt)%Hleft. specialize (Hdue _ HQ). unfold tick in Hdue.
    rewrite Et in Hdue. simpl in Hdue. lia. }
  destruct Hwf' as [Hsock _]. unfold connecting in *.
  assert (_status (self e') ≠ ConnStatusStartSSL) as Hssl'.
  { intros Hs'. rewrite Hs' in Hstep. destruct Hc as [Hs|Hs]; rewrite Hs in Hstep; [|done].
    simpl in Hstep. by rewrite Htcp in Hstep. }
  destruct Hc as [Hs|Hs]; rewrite Hs in Hstep; destruct (_status (self e')) eqn:Hs'; simpl in Hstep;
    try done; try (by left); try (right; by split; [|apply Hsock]); destruct Hn; by auto.
Qed.

Lemma kept_Close (e : env) : Q (Connector.os e) → twp Close (λ _ e', Q (Connector.os e')) e.
Proof.
  intros HQ. unfold Close. apply wp_bind, wp_get. destruct (_socket (self e)) as [s|];
    [|by apply wp_mret].
  apply wp_bind, (wp_call_kept Q); [|done|by intros; apply wp_bind, twp_delete_object, wp_set].
  intros k Hk. destruct s as [s|s]; simpl; unfold TcpSocket.Close, SSLSocket.Close.
  - destruct (_ =? _); [done|]. by apply kept_close.
  - destruct (_ =? _); [done|]. apply kept_close. destruct (SSLSocket._ssl s); [|done].
    by apply kept_SSL_free.
Qed.

Lemma kept_delete (e : env) :
  Q (Connector.os e) → twp Connector.delete (λ _ e', Q (Connector.os e')) e.
Proof.
  intros HQ. unfold Connector.delete. by apply wp_bind, wp_get, wp_bind, twp_delete_object, kept_Close.
Qed.

Definition all_due (s : locals) : Prop :=
  Q (ComplexConnect.os s) ∧ ∀ i c, connectors s !! i = Some (Some c) → due c.

Lemma due_pre_select n : ∀ i timeout (s : locals),
  all_due s → (i + n = length (connectors s))%nat →
  twp (pre_select n i timeout) (λ t s', all_due s' ∧ connectors s' = connectors s ∧
    retSocket s' = retSocket s ∧ t ≤ timeout) s.
Proof.
  induction n as [|n IH]; intros i timeout s Hd Hlen; simpl; [by apply wp_mret|].
  apply wp_bind, wp_gets. destruct (lookup_lt_is_Some_2 (connectors s) i) as [c Hi]; [lia|].
  rewrite Hi. destruct c as [c|]; [|by apply IH; [|lia]]. destruct Hd as [HQ Hd].
  apply wp_bind, (wp_with_connector _ _ _ s c Hi).
  eapply wp_mono; [by apply due_PreSelect, (Hd i)|]. intros [] e [Ec Ek]. simpl in Ec, Ek.
  apply wp_bind. eapply wp_with_connector; [by eapply put_lookup|].
  apply twp_Timeout. intros t k Ht. set (s2 := put i _ (put i e s)).
  assert (connectors s2 = connectors s) as Ec2.
  { unfold s2, put. simpl. by rewrite list_insert_insert_eq, Ec, list_insert_id. }
  assert (retSocket s2 = retSocket s) as Er2 by done.
  assert (Q (ComplexConnect.os s2)) as HQ2.
  { destruct (Hd i c Hi) as (_ & Hc & _). simpl in Ht. rewrite Ec in Ht.
    destruct (Ht Hc) as (now & Et & _). simpl. rewrite Ek in Et.
    pose proof (kept_gettickcount Q _ HQ) as HQk. by rewrite Et in HQk. }
  clearbody s2. rewrite <-Ec2, <-Er2. eapply wp_mono; [apply IH|].
  - split; [done|]. by rewrite Ec2.
  - rewrite Ec2. lia.
  - intros t' s' (? & ? & ? & ?). split_and!; [done..|]. lia.
Qed.

(** The loop over the outcomes ends every connector, or has a result. *)
Definition ended (s : locals) : Prop :=
  is_Some (retSocket s) ∨ Forall (λ c, c = None) (connectors s).

Lemma due_after_select n : ∀ i (s : locals),
  all_due s → (i + n = length (connectors s))%nat → Forall (λ c, c = None) (take i (connectors s)) →
  twp (after_select n i) (λ _, ended) s.
Proof.
  induction n as [|n IH]; intros i s Hd Hlen Hnone; simpl.
  { apply wp_mret. right. by rewrite take_ge in Hnone by lia. }
  apply wp_bind, wp_gets. destruct (lookup_lt_is_Some_2 (connectors s) i) as [c Hi]; [lia|].
  rewrite Hi. destruct Hd as [HQ Hd]. destruct c as [c|].
  2:{ apply IH; [done|lia|]. rewrite (take_S_r _ _ None Hi). apply Forall_app. by repeat constructor. }
  apply wp_bind, (wp_with_connector _ _ _ s c Hi).
  eapply wp_mono; [by apply due_AfterSelect; [apply (Hd i)|]|]. intros [] e [HQe Hst].
  assert (connectors (put i e s) !! i = Some (Some (self e))) as Hi1 by (by eapply put_lookup).
  apply wp_bind, (wp_with_connector _ _ _ _ _ Hi1), wp_get.
  assert (connectors (put i (focus (self e) (put i e s)) (put i e s)) !! i = Some (Some (self e)))
    as Hi2 by (exact (put_lookup _ _ _ _ Hi1)). cbv beta zeta. unfold Status.
  destruct Hst as [Hst|[Hst [sock Hsock]]]; simpl; rewrite Hst; simpl.
  - apply wp_bind, (wp_with_connector _ _ _ _ _ Hi2). eapply wp_mono; [by apply kept_Close|].
    intros [] e3 HQ3. apply wp_bind. unfold delete_connector. apply wp_bind.
    eapply wp_with_connector; [by eapply put_lookup|]. eapply wp_mono; [by apply kept_delete|].
    intros [] e4 HQ4. apply wp_modify, wp_bind, wp_modify. apply IH.
    + split; [exact HQ4|]. intros j c'. simpl. rewrite !list_insert_insert_eq, list_lookup_insert.
      case_decide; [done|apply Hd].
    + simpl. by rewrite !length_insert; lia.
    + simpl. rewrite !list_insert_insert_eq, (take_S_r _ _ None), take_insert_ge by
        (done || by rewrite list_lookup_insert_eq by lia). apply Forall_app. by repeat constructor.
  - apply wp_bind, (wp_with_connector _ _ _ _ _ Hi2), wp_get, wp_bind, wp_modify, wp_bind.
    eapply wp_with_connector; [by eapply put_lookup|]. apply wp_set. unfold delete_connector.
    apply wp_bind. eapply wp_with_connector; [by eapply put_lookup, put_lookup|].
    unfold Connector.delete, Close. apply wp_bind, wp_get, wp_bind, twp_delete_object; [done|].
    apply wp_bind, wp_get. simpl. apply wp_mret, wp_modify. left. simpl. unfold Socket. by exists sock.
Qed.

(** The loop ends: in a turn that finds that every address has been tried and
    that the deadline of every connection under way has passed, whatever select
    reports, the loop is left: each connection is either the result or given up.
    (The hypothesis on [nextConnTimeout] excludes the overflow of an [int] when 24
    days have passed since the last start.) *)
Theorem deadline_last_turn cc (s : locals) :
  all_due s → index s = length (connectors s) →
  (∀ k, Q k → - 2 ^ 31 ≤ i32 (if lastError s =? 0 then _interval cc else _errorInterval cc) -
               i32 (u64 (tick k - lastStartConnTime s)) < 2 ^ 31) →
  ∃ s', iteration cc s = Ret (true, s').
Proof.
  intros [HQ Hd] Hidx Hrange.
  assert (twp (iteration cc) (λ b _, b = true) s) as Hw.
  2:{ apply twp_elim in Hw as (b & s' & E & ->). by exists s'. }
  pose proof (kept_gettickcount Q _ HQ) as HQ1.
  unfold iteration, register. apply wp_bind, wp_bind, cc_wp_call. intros curTime k Ek.
  apply wp_bind. unfold wpx at 1, SocketSelect.new. simpl. rewrite Ek in HQ1.
  pose proof (kept_poll_new (P:=P) (Q:=Q) (breaker s) k HQ1) as HQ2.
  destruct (poll_new _ _) as [p k2]. simpl in HQ2. apply wp_bind. unfold start_next.
  do 2 apply wp_bind, wp_gets. simpl. apply wp_bind.
  assert (curTime = tick (ComplexConnect.os s)) as -> by (unfold tick; by rewrite Ek).
  unfold wpx at 1, checking, int_range. specialize (Hrange _ HQ).
  rewrite (proj2 (Z.leb_le _ _)), (proj2 (Z.ltb_lt _ _)) by lia. simpl.
  apply wp_bind, wp_gets. simpl. rewrite Hidx. unfold size. rewrite Z.ltb_irrefl. simpl.
  apply wp_mret, wp_bind, wp_gets. simpl. rewrite Hidx. apply wp_bind.
  set (s1 := s <| ComplexConnect.os := k |> <| ComplexConnect.sel := _ |> <| ComplexConnect.os := _ |>).
  assert (all_due s1) as Hd1 by done. assert (connectors s1 = connectors s) as Ec1 by done.
  clearbody s1. rewrite <-Ec1. eapply wp_mono; [by apply due_pre_select|].
  intros t s2 (Hd2 & Ec2 & _ & Ht). apply wp_mret. cbv zeta.
  apply wp_bind. unfold wpx at 1, select, SocketSelect.Select.
  assert (Z.quot (Z.max 0 t) 1000 * 1000 < 2 ^ 31) as Hsel.
  { pose proof (i32_range (_timeout cc)). pose proof (Z.quot_rem' (Z.max 0 t) 1000).
    pose proof (Z.rem_nonneg (Z.max 0 t) 1000). lia. }
  destruct (poll_returns (ComplexConnect.sel s2) _ (breaker s2) (ComplexConnect.os s2) Hsel)
    as (ret & p3 & br3 & k3 & Ep). rewrite Ep. simpl.
  apply (kept_Poll (Q:=Q)) in Ep; [|apply Hd2].
  set (s3 := s2 <| ComplexConnect.sel := _ |> <| ComplexConnect.breaker := _ |> <| ComplexConnect.os := _ |>).
  assert (all_due s3) as Hd3 by (split; [exact Ep|apply Hd2]).
  assert (length (connectors s1) = length (connectors s3)) as El3 by (by rewrite <-Ec2).
  clearbody s3. clear Hrange. rewrite El3. apply wp_bind. eapply wp_mono with (Φ := λ b _, b = true).
  - unfold look. case_match; [by apply wp_mret|]. apply wp_bind, wp_gets. case_match; [by apply wp_mret|].
    apply wp_bind, wp_gets. case_match; [by apply wp_mret|]. apply wp_bind.
    eapply wp_mono; [by apply due_after_select; [|done|constructor]|]. intros [] s4 Hend.
    apply wp_bind, wp_gets, wp_mret. destruct Hend as [[sock ->]|Hnone]; [apply orb_true_r|].
    apply orb_true_iff. left. by induction Hnone as [|c l -> _ IH].
  - intros b s4 ->. by apply wp_bind, wp_modify, wp_mret.
Qed.

End last_turn.
