(* ===== verification/ComplexEnds.v ===== *)
(** * ComplexEnds: the loop of ConnectImpatient ends

    On a clock that goes on: every turn either makes progress, which a connector does
    at most five times, or finds that the next start and all deadlines are still to
    come, and select takes some time.  The number of turns is bounded by the timeouts
    in nanoseconds. *)
From S2P Require Import Prelude Monad TcpError Sockets SocketBreaker TimeUtils UnixSocket.
From S2P Require Import Poll PollProps TcpDefine Connector ConnectorProps ComplexConnect ComplexProps.
From S2P Require Import ComplexTurns.
Import Connector.

(** ** Arithmetic *)

Lemma u64_add_idemp a b : u64 (u64 a + b) = u64 (a + b).
Proof. apply Zplus_mod_idemp_l. Qed.
Lemma u64_sub a b : u64 (u64 a - u64 b) = u64 (a - b).
Proof. symmetry. apply Zminus_mod. Qed.

(** A difference of times that fits in an [int]. *)
Lemma i32_u64 z : - 2 ^ 31 ≤ z < 2 ^ 31 → i32 (u64 z) = z.
Proof.
  intros Hz. unfold i32, u64. rewrite <-(Zplus_mod_idemp_l (z mod 2 ^ 64)).
  replace ((z mod 2 ^ 64) mod 2 ^ 32) with (z mod 2 ^ 32).
  - rewrite Zplus_mod_idemp_l, Z.mod_small; lia.
  - change (2 ^ 64) with (2 ^ 32 * 2 ^ 32). rewrite Z.rem_mul_r, Z.mul_comm by lia.
    by rewrite Z_mod_plus_full, Zmod_mod.
Qed.

(** ** A clock that goes on

    [nanos] is the monotonic clock; no call sets it back, and waiting takes time. *)
Section clock.
Context {K : Type} `{!PipeKernel K, !Clock K, !SockOpts K}.
Context `{!Kernel K, !OpenSSL K, !SslStatic K, !ConnectKernel K}.

Class Ticking := {
  nanos : K → Z;
  nanos_tick k : tick k = u64 (nanos k / 1000000);
  nanos_kept T : Kept (λ k, T ≤ nanos k);
  nanos_socket k : nanos k ≤ nanos (snd (socket k));
  nanos_close fd k : nanos k ≤ nanos (close fd k);
}.
#[export] Existing Instance nanos_kept.

Class PollTicks (P : Type) `{!SocketPollBase P K, !Ticking} := {
  poll_keeps T : PollKept P (λ k, T ≤ nanos k);
  poll_ticks (p : P) timeout br k ret p' br' k' :
    Poll p timeout br k = Ret (ret, p', br', k') → nanos k < nanos k';
}.
#[export] Existing Instance poll_keeps.

End clock.
Arguments Ticking K {_ _ _ _ _ _ _}.

(** ** One connector *)
Section connector.
Context {P K : Type} `{!SocketPollBase P K, !PipeKernel K, !Clock K, !SockOpts K}.
Context `{!Kernel K, !OpenSSL K, !SslStatic K, !ConnectKernel K, !Ticking K}.
Abbreviation env := (Connector.env (P:=P) (K:=K)).
Context (timeout T0 : Z).

(** The time in milliseconds. *)
Definition ms (k : K) : Z := nanos k / 1000000.

Lemma ms_mono k k' : nanos k ≤ nanos k' → ms k ≤ ms k'.
Proof. intros H. by apply Z.div_le_mono. Qed.

(** A handshake is not finished by the call that begins it: it waits for the server.
    SSL_get_error is SSL_ERROR_NONE only after success. *)
Definition handshake_waits : Prop :=
  (∀ ssl (k : K), fst (SSL_connect ssl k) ≠ 1) ∧
  (∀ ssl status (k : K), status ≠ 1 → SSL_get_error ssl status k ≠ SSL_ERROR_NONE).

(** A connector for an address without TLS, or of the class for TLS. *)
Definition able (c : Connector.t) : Prop :=
  match _class c with
  | TcpConnector => isTls (_addr c) = false
  | SSLConnector => handshake_waits
  end ∧ _connTimeout c = timeout.

(** The states of a connector between two turns. *)
Definition idle (c : Connector.t) : Prop :=
  able c ∧ _status c = ConnStatusStart ∧ _socket c = None.
Definition failed (c : Connector.t) : Prop := able c ∧ _status c = ConnStatusError.

(** Under way since a time that is not after [t]; [watched] once it is registered. *)
Definition live (t : Z) (c : Connector.t) : Prop :=
  able c ∧ (_status c = ConnStatusConnecting ∨
            _class c = SSLConnector ∧ (_status c = ConnStatusStartSSL ∨ _status c = ConnStatusSSLConnecting)) ∧
  is_Some (_socket c) ∧ ∃ R, _startConnTime c = u64 R ∧ T0 ≤ R ≤ t.
Definition watched (t : Z) (c : Connector.t) : Prop :=
  live t c ∧ _status c ≠ ConnStatusStartSSL.

(** What it has before it. *)
Definition stage (c : Connector.t) : nat :=
  match _status c with
  | ConnStatusStart => 5
  | ConnStatusConnecting => 4
  | ConnStatusStartSSL => 3
  | ConnStatusSSLConnecting => 2
  | _ => 1
  end.

(** With a deadline that is not after [D]. *)
Definition due_by (D : Z) (c : Connector.t) : Prop :=
  ∃ R, _startConnTime c = u64 R ∧ T0 ≤ R ∧ R + timeout ≤ D.

Lemma live_mono t t' c : t ≤ t' → live t c → live t' c.
Proof. intros Ht (Hp & Hs & Hsock & R & E & HR). split_and!; [done..|]. exists R. split; [done|lia]. Qed.

Lemma watched_mono t t' c : t ≤ t' → watched t c → watched t' c.
Proof. intros Ht [Hl Hs]. split; [by eapply live_mono|done]. Qed.

Lemma live_due t c : live t c → due_by (t + timeout) c.
Proof. intros (_ & _ & _ & R & E & HR). exists R. split_and!; [done|lia..]. Qed.

(** The clock is read between two states. *)
Lemma wp_now {U : Prop} Φ (e : env) :
  (∀ k, nanos (os e) ≤ nanos k → Φ (u64 (ms (os e))) (e <| os := k |>)) →
  wpx U (call gettickcount) Φ e.
Proof.
  intros HΦ. apply conn_wp_call. intros now k E.
  pose proof (nanos_tick (os e)) as Ht. unfold tick in Ht. rewrite E in Ht. simpl in Ht. subst now.
  apply HΦ. pose proof (kept_gettickcount (λ k, nanos (os e) ≤ nanos k) (os e) (Z.le_refl _)) as Hk.
  by rewrite E in Hk.
Qed.

Lemma twp_PreConnectSelect_idle (e : env) :
  idle (self e) → T0 ≤ ms (os e) →
  twp PreConnectSelect (λ _ e', nanos (os e) ≤ nanos (os e') ∧
    (failed (self e') ∨ live (ms (os e')) (self e') ∧ _status (self e') = ConnStatusConnecting)) e.
Proof.
  intros ([Hc Hto] & Hs & Hn) HT. unfold PreConnectSelect.
  apply wp_bind, conn_wp_call. intros fd k Ek. pose proof (nanos_socket (os e)) as H1.
  rewrite Ek in H1. simpl in H1. apply wp_bind, wp_get.
  destruct (fd =? INVALID_SOCKET). { apply wp_set. split; [done|]. by left. }
  case_bool_decide. { apply wp_set. split; [done|]. by left. }
  apply wp_bind, (wp_call_kept (λ k, nanos (os e) ≤ nanos k)); [|done|].
  { intros k'. by apply (kept_set_noblo (λ k, nanos (os e) ≤ nanos k)). }
  intros ret k1 _ H2. destruct (negb _). { apply wp_set. split; [done|]. by left. }
  apply wp_bind, wp_now. intros k2 H3. simpl in H3. apply wp_bind, wp_set, wp_bind.
  apply (wp_call_kept (λ k, nanos k1 ≤ nanos k)); [intros k'; by apply (kept_connect (Q:=λ k, nanos k1 ≤ nanos k))|done|].
  intros [ret2 errno] k3 _ H4. destruct (negb _ && negb _).
  { apply wp_set. split; [simpl; lia|]. by left. }
  conn_run; (split; [simpl; lia|]); right; (split; [|done]);
    (split_and!; [done|by left|by eexists|]); simpl;
    exists (ms k1); (split; [done|]); split; [|by apply ms_mono].
  all: etransitivity; [exact HT|]; by apply ms_mono.
Qed.

Lemma Connect_waits s k : handshake_waits → fst (fst (AnySocket.Connect s k)) ≠ SSL_ERROR_NONE.
Proof.
  intros [Hc Hg]. destruct s as [s|s]; [done|]. simpl. unfold SSLSocket.Connect.
  destruct (SSLSocket.GetSSLContext _ _) as [ctx k1]. destruct (SSL_new ctx k1) as [[ssl|] k2]; [|done].
  pose proof (Hc ssl (SSL_set_fd ssl (SSLSocket._socket s) k2)) as H1.
  destruct (SSL_connect _ _) as [status k3]. simpl in H1. destruct (Z.eqb_spec status 1); [done|]. by apply Hg.
Qed.

(** The handshake begins. *)
Lemma twp_PreSSLSelect_live (e : env) :
  live (ms (os e)) (self e) → _status (self e) = ConnStatusStartSSL →
  twp PreSSLSelect (λ _ e', nanos (os e) ≤ nanos (os e') ∧
    (failed (self e') ∨ watched (ms (os e')) (self e')) ∧ (stage (self e') < stage (self e))%nat) e.
Proof.
  intros ([Hc Hto] & Hst & [s Es] & R & ER & HR) Hs. rewrite Hs in Hst.
  destruct Hst as [?|[Hcls _]]; [done|]. rewrite Hcls in Hc.
  unfold PreSSLSelect. apply wp_bind. eapply wp_socket_ptr; [exact Es|].
  pose proof (kept_Connect (λ k, nanos (os e) ≤ nanos k) s (os e) (Z.le_refl _)) as Hk.
  pose proof (Connect_waits s (os e) Hc) as Hne.
  apply wp_bind, conn_wp_call. intros [err s'] k Ek. 
  destruct (AnySocket.Connect s (os e)) as [[err0 s0] k0]. injection Ek as -> -> ->. simpl in Hk, Hne.
  apply ms_mono in Hk as Hms. apply wp_bind, wp_set. rewrite (proj2 (Z.eqb_neq err SSL_ERROR_NONE) Hne).
  assert (able ((self e) <| _socket := Some s' |>)) as Hable by (unfold able; simpl; by rewrite Hcls).
  conn_run; simpl; (split_and!; [done| |unfold stage; simpl; rewrite Hs; lia]); [right|right|by left].
  all: split; [|done]; (split_and!; [done|right; by auto|by eexists|]); exists R; (split; [done|]); simpl; lia.
Qed.

Lemma twp_Tcp_PreSelect_slot (e : env) :
  idle (self e) ∨ live (ms (os e)) (self e) → T0 ≤ ms (os e) →
  twp Tcp_PreSelect (λ _ e', nanos (os e) ≤ nanos (os e') ∧
    (live (ms (os e)) (self e) ∧ self e' = self e ∨
     (failed (self e') ∨ watched (ms (os e')) (self e') ∧ _status (self e') = ConnStatusConnecting) ∧
     (stage (self e') < stage (self e))%nat)) e.
Proof.
  intros Hc HT. unfold Tcp_PreSelect. apply wp_bind, wp_get. destruct Hc as [Hc|Hc].
  - pose proof Hc as (_ & Hs & _). rewrite Hs.
    eapply wp_mono; [by apply twp_PreConnectSelect_idle|]. intros [] e' [Ht He]. split; [done|right].
    unfold stage. rewrite Hs. destruct He as [[Ha He]|[Hl He]]; rewrite He.
    + split; [by left|lia].
    + split; [right|lia]. split; [split; [done|by rewrite He]|done].
  - pose proof Hc as (_ & Hs & [s Es] & _).
    destruct (_status (self e)) eqn:Hst; try (apply wp_mret; split; [done|by left]); [naive_solver|].
    apply wp_bind. eapply wp_socket_ptr; [exact Es|]. conn_run; (split; [done|by left]).
Qed.

(** Registering: what has begun a new stage may have failed. *)
Lemma twp_PreSelect_slot (e : env) :
  idle (self e) ∨ live (ms (os e)) (self e) → T0 ≤ ms (os e) →
  twp PreSelect (λ _ e', nanos (os e) ≤ nanos (os e') ∧
    (failed (self e') ∨ watched (ms (os e')) (self e')) ∧
    (self e' = self e ∨ (stage (self e') < stage (self e))%nat)) e.
Proof.
  intros Hc HT. unfold PreSelect. apply wp_bind, wp_get. destruct (_class (self e)) eqn:Hcls.
  - eapply wp_mono; [by apply twp_Tcp_PreSelect_slot|]. intros [] e' [Ht He]. split; [done|].
    destruct He as [[Hl ->]|[[?|[? _]] ?]]; [|by auto..]. split; [right|by left].
    split; [by eapply live_mono, Hl; apply ms_mono|]. destruct Hl as (_ & [?|[? _]] & _); congruence.
  - unfold SSL_PreSelect. apply wp_bind.
    eapply wp_mono; [by apply twp_Tcp_PreSelect_slot|]. intros [] e1 [Ht He]. apply ms_mono in Ht as Hms.
    apply wp_bind, wp_get. destruct He as [[Hl He]|[He Hst]].
    + assert (live (ms (os e1)) (self e1)) as Hl1 by (rewrite He; by eapply live_mono).
      destruct (_status (self e1)) eqn:Hs1; try (apply wp_mret; split_and!; [done| |by left]; right;
        split; [done|congruence]).
      * eapply wp_mono; [by apply twp_PreSSLSelect_live|]. intros [] e2 (Ht2 & He2 & Hst).
        split_and!; [lia|done|right; by rewrite <-He].
      * destruct Hl1 as (Ha & Hs & [s Es] & HR). apply wp_bind. eapply wp_socket_ptr; [exact Es|].
        conn_run; (split_and!; [done| |by left]); right; (split; [|simpl; congruence]);
          (split_and!; [done|done|by eexists|done]).
    + assert (_status (self e1) = ConnStatusError ∨ _status (self e1) = ConnStatusConnecting) as Hs1
        by (destruct He as [[_ ?]|[_ ?]]; auto).
      destruct Hs1 as [E|E]; rewrite E; apply wp_mret;
        (split_and!; [done|destruct He as [?|[? _]]; auto|by right]).
Qed.

(** What is asked between registering and select: only the clock is read. *)
Lemma twp_Timeout_clock (e : env) :
  twp Timeout (λ _ e', self e' = self e ∧ nanos (os e) ≤ nanos (os e')) e.
Proof. unfold Timeout. kept_run (λ k, nanos (os e) ≤ nanos k); split; done || lia. Qed.

Lemma watched_status t c :
  watched t c → _status c = ConnStatusConnecting ∨ _status c = ConnStatusSSLConnecting.
Proof. intros [(_ & Hs & _) Hne]. naive_solver. Qed.

Lemma wp_Timeout_watched {U : Prop} t (e : env) (Φ : Z → env → Prop) :
  watched t (self e) →
  (∀ k, nanos (os e) ≤ nanos k → Φ (time_left (self e) (u64 (ms (os e)))) (e <| os := k |>)) →
  wpx U Timeout Φ e.
Proof.
  intros Hw HΦ. unfold Timeout. apply wp_bind, wp_get.
  assert (bool_decide (_status (self e) = ConnStatusConnecting) ||
          bool_decide (_status (self e) = ConnStatusSSLConnecting) = true) as ->.
  { destruct (watched_status _ _ Hw) as [-> | ->]; done. }
  apply wp_bind, wp_get, wp_bind, wp_get, wp_bind, wp_now. intros k Hk. apply wp_mret. by apply HΦ.
Qed.

(** Looking at it: it goes on as it is before its deadline only, or has a next stage. *)
Definition outcome_of (e e' : env) : Prop :=
  nanos (os e) ≤ nanos (os e') ∧
  (failed (self e') ∨ _status (self e') = ConnStatusConnected ∧ is_Some (_socket (self e')) ∨
   live (ms (os e)) (self e') ∧ _status (self e') = ConnStatusStartSSL ∧
     (stage (self e') < stage (self e))%nat ∨
   self e' = self e ∧ 0 < time_left (self e) (u64 (ms (os e)))).

Lemma twp_AfterConnectSelect_watched t (e : env) :
  watched t (self e) → t ≤ ms (os e) → _status (self e) = ConnStatusConnecting →
  twp AfterConnectSelect (λ _ e', outcome_of e e') e.
Proof.
  intros Hw Ht Hs. pose proof Hw as [([Hc Hto] & _ & [s Es] & R & ER & HR) _]. unfold AfterConnectSelect.
  apply wp_bind, wp_get. rewrite Es. apply wp_bind. eapply wp_Timeout_watched; [exact Hw|]. intros k Hk.
  cbv zeta. kept_run (λ k, nanos (os e) ≤ nanos k); simpl in *; (split; [done || lia|]); simpl.
  all: try (left; by split). all: try (right; left; split; [done|by exists s]).
  - right; right; left. assert (_class (self e) = SSLConnector) as Hcls.
    { destruct (_class (self e)); [congruence|done]. }
    split_and!; [|done|unfold stage; simpl; rewrite Hs; lia].
    split_and!; [by split|right; by auto|by exists s|]. exists R. split; [done|lia].
  - right; right; right. split; [done|]. by apply Z.leb_gt.
Qed.

Lemma twp_AfterSSLSelect_watched t (e : env) :
  watched t (self e) → twp AfterSSLSelect (λ _ e', outcome_of e e') e.
Proof.
  intros Hw. pose proof Hw as [(Ha & _ & [s Es] & _) _]. unfold AfterSSLSelect.
  apply wp_bind. eapply wp_Timeout_watched; [exact Hw|]. intros k Hk. apply wp_bind.
  eapply wp_socket_ptr; [exact Es|]. cbv zeta.
  kept_run (λ k, nanos (os e) ≤ nanos k); simpl in *; (split; [done || lia|]); simpl.
  all: try (left; by split). all: try (right; left; split; [done|by exists s]).
  right; right; right. split; [done|]. by apply Z.leb_gt.
Qed.

Lemma twp_AfterSelect_watched t (e : env) :
  watched t (self e) → t ≤ ms (os e) → twp AfterSelect (λ _ e', outcome_of e e') e.
Proof.
  intros Hw Ht. unfold AfterSelect. apply wp_bind, wp_get. destruct (_class (self e)) eqn:Hcls.
  - assert (_status (self e) = ConnStatusConnecting) as Hs.
    { destruct Hw as [(_ & [?|[? _]] & _) _]; congruence. }
    unfold Tcp_AfterSelect. apply wp_bind, wp_get. rewrite Hs. by eapply twp_AfterConnectSelect_watched.
  - unfold SSL_AfterSelect, Tcp_AfterSelect. apply wp_bind, wp_bind, wp_get.
    destruct (watched_status _ _ Hw) as [Hs|Hs]; rewrite Hs.
    + eapply wp_mono; [by eapply twp_AfterConnectSelect_watched|]. intros [] e1 Ho.
      apply wp_bind, wp_get. destruct (_status (self e1)) eqn:Hs1; try (by apply wp_mret).
      exfalso. destruct Ho as (_ & [[_ ?]|[[? _]|[(_ & ? & _)|[? _]]]]); congruence.
    + apply wp_mret, wp_bind, wp_get. rewrite Hs. by eapply twp_AfterSSLSelect_watched.
Qed.

Lemma twp_AfterSelect_failed (e : env) :
  failed (self e) → twp AfterSelect (λ _ e', e' = e) e.
Proof.
  intros [_ Hs].
  assert (twp Tcp_AfterSelect (λ _ e', e' = e) e) as Htcp.
  { unfold Tcp_AfterSelect. apply wp_bind, wp_get. rewrite Hs. by apply wp_mret. }
  unfold AfterSelect. apply wp_bind, wp_get. destruct (_class (self e)); [done|].
  apply wp_bind. eapply wp_mono; [exact Htcp|]. intros [] e' ->. apply wp_bind, wp_get. rewrite Hs.
  by apply wp_mret.
Qed.

(** A connection with time left has its deadline before it. *)
Lemma time_left_due D c (n : Z) :
  able c → due_by D c → T0 ≤ n < T0 + 2 ^ 30 → 0 ≤ timeout < 2 ^ 30 →
  0 < time_left c (u64 n) → n < D.
Proof.
  intros [_ Hto] (R & E & HR & HD) Hn Ht Hleft. unfold time_left in Hleft.
  rewrite E, Hto, u64_add_idemp, u64_sub in Hleft.
  destruct (decide (n < R + timeout)) as [?|Hge]; [lia|]. rewrite i32_u64 in Hleft by lia. lia.
Qed.

(** From here on the compiler runs the destructor of the base class. *)
Lemma twp_Close_clock `{!BaseDelete} (e : env) :
  base_delete = true → twp Close (λ _ e', nanos (os e) ≤ nanos (os e')) e.
Proof.
  intros Hdel. apply (kept_Close (λ k, nanos (os e) ≤ nanos k)); [|done|lia].
  intros fd k Hk. etransitivity; [exact Hk|apply nanos_close].
Qed.

Lemma twp_delete_clock `{!BaseDelete} (e : env) :
  base_delete = true → twp Connector.delete (λ _ e', nanos (os e) ≤ nanos (os e')) e.
Proof.
  intros Hdel. apply (kept_delete (λ k, nanos (os e) ≤ nanos k)); [|done|lia].
  intros fd k Hk. etransitivity; [exact Hk|apply nanos_close].
Qed.

End connector.

(** ** The connectors of the loop *)
Import ComplexConnect.

Section slots.
Context {P K : Type} `{!SocketPollBase P K, !PipeKernel K, !Clock K, !SockOpts K}.
Context `{!Kernel K, !OpenSSL K, !SslStatic K, !ConnectKernel K, !BaseDelete, !Ticking K}.
Abbreviation locals := (ComplexConnect.locals (P:=P) (K:=K)).
Abbreviation env := (Connector.env (P:=P) (K:=K)).
Context (timeout T0 : Z).
Implicit Types (s : locals) (l : list (option Connector.t)).

(** What the connectors have before them. *)
Definition load l : nat := sum_list_with (λ o, from_option stage 0%nat o) l.

Lemma load_insert l i c o :
  l !! i = Some (Some c) → (from_option stage 0 o < stage c)%nat → (load (<[i := o]> l) < load l)%nat.
Proof.
  intros (l1 & l2 & -> & ->)%list_elem_of_split_length. rewrite insert_middle. unfold load.
  rewrite !sum_list_with_app. simpl. lia.
Qed.
Lemma stage_pos c : (0 < stage c)%nat.
Proof. unfold stage. destruct (_status c); lia. Qed.

(** Nothing has happened to the connectors, or some progress was made. *)
Definition advanced l l' : Prop := l' = l ∨ (load l' < load l)%nat.

Lemma advanced_trans l1 l2 l3 : advanced l1 l2 → advanced l2 l3 → advanced l1 l3.
Proof. intros [->|?] [->|?]; [by left|right; lia..]. Qed.
Lemma advanced_insert l i c c' :
  l !! i = Some (Some c) → c' = c ∨ (stage c' < stage c)%nat → advanced l (<[i := Some c']> l).
Proof. intros Hi [->|Hst]; [left; by apply list_insert_id|right; by eapply load_insert]. Qed.

(** [phi] holds of every connector with its position, at the current time. *)
Definition slots (phi : nat → Z → Connector.t → Prop) s : Prop :=
  ∀ j c, connectors s !! j = Some (Some c) → phi j (ms (os s)) c.

(** While they are registered, up to [i] of the first [n], and while their outcomes
    are looked at. *)
Definition registering (i n j : nat) (t : Z) (c : Connector.t) : Prop :=
  if decide (j < i)%nat then watched timeout T0 t c ∨ failed timeout c
  else if decide (j < n)%nat then live timeout T0 t c ∨ idle timeout c
  else idle timeout c.
Definition looking (i n j : nat) (t : Z) (c : Connector.t) : Prop :=
  if decide (j < i)%nat then live timeout T0 t c
  else if decide (j < n)%nat then watched timeout T0 t c ∨ failed timeout c
  else idle timeout c.

Lemma registering_mono i n j t t' c : t ≤ t' → registering i n j t c → registering i n j t' c.
Proof.
  unfold registering. intros Ht. repeat case_decide; try done; (intros [?|?]; [left|by right]);
    [by eapply watched_mono|by eapply live_mono].
Qed.
Lemma looking_mono i n j t t' c : t ≤ t' → looking i n j t c → looking i n j t' c.
Proof.
  unfold looking. intros Ht. repeat case_decide; try done; [by apply live_mono|].
  intros [?|?]; [left; by eapply watched_mono|by right].
Qed.

Lemma registered_looking n j t c : registering n n j t c → looking 0 n j t c.
Proof. unfold registering, looking. repeat case_decide; try done; try lia; auto. Qed.
Lemma looked_registering n j t c : looking n n j t c → registering 0 n j t c.
Proof. unfold registering, looking. repeat case_decide; try done; try lia; auto. Qed.

Lemma slots_put phi phi' i e s :
  slots phi s → nanos (os s) ≤ nanos (Connector.os e) →
  (∀ j t t' c, j ≠ i → t ≤ t' → phi j t c → phi' j t' c) →
  phi' i (ms (Connector.os e)) (self e) → slots phi' (put i e s).
Proof.
  intros Hs Ht Hother Hi j c. simpl. rewrite list_lookup_insert. case_decide as Hj.
  - destruct Hj as [<- _]. by intros [= <-].
  - intros Hc. eapply (Hother j); [|by apply ms_mono|by apply Hs].
    intros ->. apply Hj. split; [done|]. by eapply lookup_lt_Some.
Qed.

Lemma slots_none phi phi' i s s' :
  slots phi s → nanos (os s) ≤ nanos (os s') →
  connectors s' = <[i := None]> (connectors s) →
  (∀ j t t' c, j ≠ i → t ≤ t' → phi j t c → phi' j t' c) → slots phi' s'.
Proof.
  intros Hs Ht Hc Hother j c. rewrite Hc, list_lookup_insert. case_decide as Hj; [done|].
  intros Hj'. eapply (Hother j); [|by apply ms_mono|by apply Hs].
  intros ->. apply Hj. split; [done|]. by eapply lookup_lt_Some.
Qed.

Lemma slots_later phi s s' :
  slots phi s → connectors s' = connectors s → nanos (os s) ≤ nanos (os s') →
  (∀ j t t' c, t ≤ t' → phi j t c → phi j t' c) → slots phi s'.
Proof.
  intros Hs Hc Ht Hmono j c Hj. rewrite Hc in Hj. eapply Hmono; [by apply ms_mono|by apply Hs].
Qed.

(** ** Registering *)

(** The clock is read between two states. *)
Lemma cc_wp_now {U : Prop} Φ s :
  (∀ k, nanos (os s) ≤ nanos k → Φ (u64 (ms (os s))) (s <| os := k |>)) →
  wpx U (call gettickcount) Φ s.
Proof.
  intros HΦ. apply cc_wp_call. intros now k E.
  pose proof (nanos_tick (os s)) as Ht. unfold tick in Ht. rewrite E in Ht. simpl in Ht. subst now.
  apply HΦ. pose proof (kept_gettickcount (λ k, nanos (os s) ≤ nanos k) (os s) (Z.le_refl _)) as Hk.
  by rewrite E in Hk.
Qed.

(** The variables that the loops over the connectors keep. *)
Definition frame s s' : Prop :=
  index s' = index s ∧ lastStartConnTime s' = lastStartConnTime s ∧
  length (connectors s') = length (connectors s) ∧ nanos (os s) ≤ nanos (os s').

Lemma frame_trans s1 s2 s3 : frame s1 s2 → frame s2 s3 → frame s1 s3.
Proof. intros (E1 & E2 & E3 & E4) (F1 & F2 & F3 & F4). split_and!; [congruence..|lia]. Qed.
Lemma frame_put i e s : nanos (os s) ≤ nanos (Connector.os e) → frame s (put i e s).
Proof. intros Ht. split_and!; [done|done|apply put_length|done]. Qed.

Definition registered s s' : Prop :=
  frame s s' ∧ lastError s' = lastError s ∧ retSocket s' = retSocket s ∧
  advanced (connectors s) (connectors s').

Lemma registering_next i n j t t' c :
  j ≠ i → t ≤ t' → registering i n j t c → registering (S i) n j t' c.
Proof.
  unfold registering. intros Hj Ht. repeat case_decide; try done; try lia; (intros [?|?]; [left|by right]);
    [by eapply watched_mono|by eapply live_mono].
Qed.

(** One connector is registered, and asked for its time. *)
Lemma twp_register_one {A} i n c (m : Z → ST locals A) s Φ :
  T0 ≤ ms (os s) → slots (registering i n) s → (i < n)%nat → connectors s !! i = Some (Some c) →
  (∀ t' s', slots (registering (S i) n) s' → registered s s' → twp (m t') Φ s') →
  twp (with_connector i PreSelect;; left ← with_connector i Timeout; m left) Φ s.
Proof.
  intros HT Hs Hn Hi HΦ. apply wp_bind, (wp_with_connector _ _ _ s c Hi).
  pose proof (Hs i c Hi) as Hc. unfold registering in Hc. rewrite decide_False, decide_True in Hc by lia.
  eapply wp_mono; [apply (twp_PreSelect_slot timeout T0); [simpl; tauto|done]|].
  intros [] e (Ht & He & Hst). simpl in Ht, Hst.
  apply wp_bind. eapply wp_with_connector; [by eapply put_lookup|].
  eapply wp_mono; [apply twp_Timeout_clock|]. intros t' e2 [Es2 Ht2]. simpl in Es2, Ht2. apply HΦ.
  - apply (slots_put (registering (S i) n)); [|done| |].
    + apply (slots_put (registering i n)); [done|done|apply registering_next|].
      unfold registering. rewrite decide_True by lia. tauto.
    + intros j t1 t2 c' _. apply registering_mono.
    + unfold registering. rewrite decide_True by lia. rewrite Es2.
      destruct He as [He|He]; [by right|left]. by eapply watched_mono, He; apply ms_mono.
  - split_and!; [eapply frame_trans; by apply frame_put|done|done|]. simpl.
    rewrite list_insert_insert_eq, Es2. by eapply advanced_insert.
Qed.

Lemma twp_pre_select n k : ∀ i t s,
  T0 ≤ ms (os s) → slots (registering i n) s → (i + k = n)%nat → (n ≤ length (connectors s))%nat →
  twp (pre_select k i t) (λ t' s', t' ≤ t ∧ slots (registering n n) s' ∧ registered s s') s.
Proof.
  induction k as [|k IH]; intros i t s HT Hs Hn Hlen; simpl.
  { apply wp_mret. rewrite Nat.add_0_r in Hn. subst i. split_and!; [lia|done|].
    split_and!; [by split_and!|done|done|by left]. }
  apply wp_bind, wp_gets. destruct (lookup_lt_is_Some_2 (connectors s) i) as [c Hi]; [lia|].
  rewrite Hi. destruct c as [c|].
  2:{ apply IH; [done| |lia|lia]. intros j c Hj. specialize (Hs j c Hj).
      eapply registering_next; [|apply Z.le_refl|exact Hs]. congruence. }
  eapply twp_register_one; [done|exact Hs|lia|exact Hi|]. intros t' s' Hs' (Hf & El & Er & Ha).
  pose proof Hf as (_ & _ & El' & Ht'). eapply wp_mono; [apply IH|].
  - etransitivity; [exact HT|by apply ms_mono].
  - done.
  - lia.
  - by rewrite El'.
  - intros t3 s3 (Hle & Hs3 & Hf3 & El3 & Er3 & Ha3). split_and!; [lia|done|].
    split_and!; [by eapply frame_trans|congruence|congruence|by eapply advanced_trans].
Qed.

(** ** Looking *)

(** What the loop over the outcomes leaves when it has no result: either nothing has
    changed, and every connector that it looked at has time left, or one has gone on. *)
Definition left_over (i n : nat) s s' : Prop :=
  connectors s' = connectors s ∧ lastError s' = lastError s ∧
  (∀ j c, (i ≤ j < n)%nat → connectors s !! j = Some (Some c) →
   ∃ m, ms (os s) ≤ m ≤ ms (os s') ∧ 0 < time_left c (u64 m)).
Definition looked_at (i n : nat) s s' : Prop :=
  is_Some (retSocket s') ∨
  retSocket s' = None ∧ slots (looking n n) s' ∧
  (left_over i n s s' ∨ (load (connectors s') < load (connectors s))%nat).

Context (Hdelete : base_delete = true).

(** A connector that has failed is closed and deleted. *)
Lemma twp_drop {A} i c (m : ST locals A) s Φ :
  connectors s !! i = Some (Some c) →
  (∀ s', connectors s' = <[i := None]> (connectors s) → frame s s' → retSocket s' = retSocket s →
     twp m Φ s') →
  twp (with_connector i Connector.Close;; delete_connector i;; m) Φ s.
Proof.
  intros Hi HΦ. apply wp_bind, (wp_with_connector _ _ _ s c Hi).
  eapply wp_mono; [by apply twp_Close_clock|]. intros [] e1 Ht1. simpl in Ht1.
  unfold delete_connector. apply wp_bind, wp_bind. eapply wp_with_connector; [by eapply put_lookup|].
  eapply wp_mono; [by apply twp_delete_clock|]. intros [] e2 Ht2. simpl in Ht2. apply wp_modify, HΦ.
  - simpl. by rewrite !list_insert_insert_eq.
  - split_and!; [done|done| |simpl; lia]. simpl. by rewrite !length_insert.
  - done.
Qed.

(** The socket of a connector that is connected is kept. *)
Lemma twp_take i c sock s Φ :
  connectors s !! i = Some (Some c) → _socket c = Some sock →
  (∀ s', frame s s' → is_Some (retSocket s') → Φ () s') →
  twp (socket ← with_connector i (Connector.get Connector.Socket);
       modify (λ s, s <| retSocket := socket |>);;
       with_connector i (Connector.set (λ c, Connector.SetSocket c None));;
       delete_connector i) Φ s.
Proof.
  intros Hi Hsock HΦ.
  apply wp_bind, (wp_with_connector _ _ _ s _ Hi), wp_get, wp_bind, wp_modify, wp_bind.
  eapply wp_with_connector; [simpl; by rewrite list_lookup_insert_eq by (by eapply lookup_lt_Some)|].
  apply wp_set. unfold delete_connector, Connector.delete, Close. apply wp_bind.
  eapply wp_with_connector; [simpl; by rewrite list_lookup_insert_eq by
    (rewrite length_insert; by eapply lookup_lt_Some)|].
  apply wp_bind, wp_get, wp_bind, twp_delete_object; [done|].
  apply wp_bind, wp_get. simpl. apply wp_mret, wp_modify, HΦ.
  - split_and!; [done|done| |simpl; lia]. simpl. by rewrite !length_insert.
  - simpl. unfold Socket. by exists sock.
Qed.

Lemma looking_next i n j t t' c : j ≠ i → t ≤ t' → looking i n j t c → looking (S i) n j t' c.
Proof.
  unfold looking. intros Hj Ht. repeat case_decide; try done; try lia;
    [by apply live_mono|intros [?|?]; [left; by eapply watched_mono|by right]].
Qed.

Lemma looked_at_step i n s s2 s3 :
  (connectors s2 = connectors s ∧ lastError s2 = lastError s ∧
   (∀ c, connectors s !! i = Some (Some c) → (i < n)%nat →
    ∃ m, ms (os s) ≤ m ≤ ms (os s2) ∧ 0 < time_left c (u64 m)) ∨
   (load (connectors s2) < load (connectors s))%nat) →
  nanos (os s) ≤ nanos (os s2) → nanos (os s2) ≤ nanos (os s3) →
  looked_at (S i) n s2 s3 → looked_at i n s s3.
Proof.
  intros Hstep Ht2 Ht3 [Hr|(Hr & Hs & Hl)]; [by left|]. right. split_and!; [done|done|].
  apply ms_mono in Ht2, Ht3.
  destruct Hstep as [(Ec & El & Hi)|Ha], Hl as [(Ec3 & El3 & Hl3)|Ha3]; [|right..]; try congruence; try lia.
  left. split_and!; [congruence..|]. intros j c Hj Hc. destruct (decide (j = i)) as [->|Hne].
  - destruct (Hi c Hc) as (m & Hm & Hleft); [lia|]. exists m. split; [lia|done].
  - rewrite <-Ec in Hc. destruct (Hl3 j c) as (m & Hm & Hleft); [lia|done|]. exists m. split; [lia|done].
Qed.

Lemma twp_look_one i n c s :
  slots (looking i n) s → (i < n)%nat → connectors s !! i = Some (Some c) →
  twp AfterSelect (λ _ e, nanos (os s) ≤ nanos (Connector.os e) ∧
    (_status (self e) = ConnStatusError ∨ _status (self e) = ConnStatusConnected ∧ is_Some (_socket (self e)) ∨
     live timeout T0 (ms (os s)) (self e) ∧
     _status (self e) ≠ ConnStatusError ∧ _status (self e) ≠ ConnStatusConnected ∧
     (self e = c ∧ 0 < time_left c (u64 (ms (os s))) ∨ (stage (self e) < stage c)%nat))) (focus c s).
Proof.
  intros Hs Hn Hi. pose proof (Hs i c Hi) as Hc. unfold looking in Hc. rewrite decide_False, decide_True in Hc by lia.
  destruct Hc as [Hc|Hc].
  - eapply wp_mono; [by eapply (twp_AfterSelect_watched timeout T0)|]. intros [] e [Ht He]. split; [done|].
    destruct He as [[_ ?]|[?|[(Hl & Hst & Hlt)|[E Hleft]]]]; [by left|by right; left|..]; right; right.
    + rewrite Hst. split_and!; [done..|by right].
    + rewrite E. split_and!; [apply Hc|..|by left]; intros E1; destruct (watched_status _ _ _ _ Hc); simpl in *; congruence.
  - eapply wp_mono; [by eapply twp_AfterSelect_failed|]. intros [] e ->. split; [done|left]. apply Hc.
Qed.

Lemma twp_after_select n k : ∀ i s,
  slots (looking i n) s → (i + k = n)%nat → (n ≤ length (connectors s))%nat → retSocket s = None →
  twp (after_select k i) (λ _ s', frame s s' ∧ looked_at i n s s') s.
Proof.
  induction k as [|k IH]; intros i s Hs Hn Hlen Hr; simpl.
  { apply wp_mret. rewrite Nat.add_0_r in Hn. subst i. split; [by split_and!|]. right.
    split_and!; [done|done|]. left. split_and!; [done..|]. intros j c Hj. lia. }
  apply wp_bind, wp_gets. destruct (lookup_lt_is_Some_2 (connectors s) i) as [c Hi]; [lia|].
  rewrite Hi. destruct c as [c|].
  2:{ eapply wp_mono; [apply IH; [|lia|lia|done]|].
      - intros j c Hj. specialize (Hs j c Hj). eapply looking_next; [|done|exact Hs]. congruence.
      - intros [] s3 [Hf Hl]. split; [done|]. eapply looked_at_step; [|done|apply Hf|exact Hl]. left.
        split_and!; [done..|]. by rewrite Hi. }
  apply wp_bind, (wp_with_connector _ _ _ s c Hi).
  eapply wp_mono; [apply (twp_look_one i n); [done|lia|done]|]. intros [] e [Ht He].
  set (s1 := put i e s). assert (frame s s1) as Hf1 by (by apply frame_put).
  assert (connectors s1 !! i = Some (Some (self e))) as Hi1 by (by eapply put_lookup).
  assert (connectors s1 = <[i := Some (self e)]> (connectors s)) as Ec1 by done.
  assert (lastError s1 = lastError s ∧ retSocket s1 = None) as [El1 Er1] by done.
  assert (ms (os s) ≤ ms (os s1)) as Hms1 by (by apply ms_mono).
  assert (slots (λ j t c, j = i ∨ looking (S i) n j t c) s1) as Hs1.
  { apply (slots_put (looking i n)); [done|done| |by left]. intros j t t' c' Hj Hle Hc'. right.
    by eapply looking_next. }
  clearbody s1. apply wp_bind, (wp_with_connector _ _ _ s1 _ Hi1), wp_get.
  assert (put i (focus (self e) s1) s1 = s1) as ->.
  { destruct s1. unfold put, focus. simpl in *. by rewrite list_insert_id. }
  cbv beta. unfold Status. change (self (focus (self e) s1)) with (self e).
  destruct He as [He|[[He [sock Hsock]]|(Hlive & Hne & Hnc & Hgo)]].
  - rewrite He, bool_decide_eq_true_2 by done. apply (twp_drop i (self e)); [done|].
    intros s2 Ec2 Hf2 Er2. apply wp_bind, wp_modify.
    set (s3 := s2 <| lastError := -1 |>).
    assert (frame s s3) as Hf3 by (eapply frame_trans; [exact Hf1|exact Hf2]).
    eapply wp_mono; [apply IH|].
    + apply (slots_none _ (looking (S i) n) i s1 s3 Hs1); [apply Hf2|done|].
      intros j t t' c' Hj Hle [?|Hc']; [done|]. by eapply looking_mono.
    + lia.
    + by rewrite (proj1 (proj2 (proj2 Hf3))).
    + by rewrite <-Er1.
    + intros [] s4 [Hf4 Hl]. split; [by eapply frame_trans|].
      eapply looked_at_step; [|apply Hf3|apply Hf4|exact Hl]. right. simpl. rewrite Ec2, Ec1.
      rewrite list_insert_insert_eq. eapply load_insert; [exact Hi|apply stage_pos].
  - rewrite He, bool_decide_eq_false_2, bool_decide_eq_true_2 by done.
    apply (twp_take i (self e) sock); [done|done|]. intros s2 Hf2 Hr2.
    split; [by eapply frame_trans|by left].
  - rewrite !bool_decide_eq_false_2 by done. eapply wp_mono; [apply IH|].
    + intros j c' Hj. destruct (Hs1 j c' Hj) as [->|?]; [|done].
      rewrite Hi1 in Hj. injection Hj as <-. unfold looking. rewrite decide_True by lia.
      by eapply live_mono.
    + lia.
    + by rewrite (proj1 (proj2 (proj2 Hf1))).
    + done.
    + intros [] s3 [Hf3 Hl]. split; [by eapply frame_trans|].
      eapply looked_at_step; [|apply Hf1|apply Hf3|exact Hl]. rewrite Ec1.
      destruct Hgo as [[Ee Hleft]|Hst]; [left|right; by eapply load_insert].
      split_and!; [by rewrite Ee, list_insert_id|done|].
      intros c' Hc' _. rewrite Hi in Hc'. injection Hc' as <-. exists (ms (os s)). split; [lia|done].
Qed.

End slots.

(** ** The turns *)
Section turns.
Context {P K : Type} `{!SocketPollBase P K, !PipeKernel K, !Clock K, !SockOpts K}.
Context `{!Kernel K, !OpenSSL K, !SslStatic K, !ConnectKernel K, !BaseDelete, !Ticking K}.
Context `{!PollTicks P, !PollReturns P K}.
Abbreviation locals := (ComplexConnect.locals (P:=P) (K:=K)).
Context (cc : ComplexConnect.t) (T0 : Z).
Implicit Types (s : locals).

(** Times of less than twelve days, and room for one connection. *)
Definition sane : Prop :=
  0 ≤ _timeout cc < 2 ^ 30 ∧ 0 ≤ _interval cc < 2 ^ 30 ∧ 0 ≤ _errorInterval cc < 2 ^ 30 ∧
  1 ≤ _maxConnect cc.
Context (Hcc : sane).

Definition gap s : Z := if lastError s =? 0 then _interval cc else _errorInterval cc.
Definition longest : Z := Z.max (_timeout cc) (Z.max (_interval cc) (_errorInterval cc)).

(** The state between two turns, and its deadlines. *)
Definition inv s : Prop :=
  T0 ≤ ms (os s) ∧ (index s ≤ length (connectors s))%nat ∧ retSocket s = None ∧
  slots (looking (_timeout cc) T0 (index s) (index s)) s ∧
  ∃ L, lastStartConnTime s = u64 L ∧ T0 - 2 ^ 30 ≤ L ≤ ms (os s).
Definition dues (D : Z) s : Prop :=
  (∃ L, lastStartConnTime s = u64 L ∧ T0 - 2 ^ 30 ≤ L ≤ T0 + 2 ^ 30 ∧ L + gap s ≤ D) ∧
  ∀ j c, connectors s !! j = Some (Some c) → (j < index s)%nat → due_by (_timeout cc) T0 D c.

(** What is left to do. *)
Definition work s : nat := (load (connectors s) + (length (connectors s) - index s))%nat.

(** Twelve days after [T0]. *)
Definition late s : Prop := T0 + 2 ^ 30 ≤ ms (os s).
#[export] Instance late_dec s : Decision (late s).
Proof. unfold late. apply _. Defined.

Lemma inv_dues s : inv s → ¬ late s → dues (ms (os s) + longest) s.
Proof.
  unfold late, longest. intros (HT & Hidx & Hr & Hs & L & EL & HL) Hlate. split.
  - exists L. split; [done|]. unfold gap. destruct (_ =? 0); lia.
  - intros j c Hc Hj. specialize (Hs j c Hc). unfold looking in Hs. rewrite decide_True in Hs by done.
    destruct (live_due _ _ _ _ Hs) as (R & ER & HR). exists R. split; [done|]. lia.
Qed.

(** Whether the next connector is started: if not, there is something to wait for. *)
Definition begun s s' : Prop :=
  (index s < length (connectors s))%nat ∧ index s' = S (index s) ∧
  connectors s' = connectors s ∧ retSocket s' = retSocket s ∧ nanos (os s) ≤ nanos (os s') ∧
  lastStartConnTime s' = u64 (ms (os s)).
Definition waits (D now : Z) s : Prop :=
  now < D ∨ index s = length (connectors s) ∨
  ∃ j c, (j < index s)%nat ∧ connectors s !! j = Some (Some c).

Lemma running_exists s :
  inv s → 1 ≤ runningCount (connectors s) →
  ∃ j c, (j < index s)%nat ∧ connectors s !! j = Some (Some c).
Proof.
  intros (_ & _ & _ & Hs & _) Hrun. unfold runningCount, size in Hrun.
  destruct (List.filter __IsConnecting (connectors s)) as [|o l] eqn:E; [done|].
  assert (o ∈ connectors s ∧ __IsConnecting o = true) as [Hin Ho].
  { pose proof (proj1 (filter_In __IsConnecting o (connectors s))) as Hf. rewrite E in Hf.
    destruct Hf as [Hin Ho]; [by left|]. by apply list_elem_of_In in Hin. }
  apply list_elem_of_lookup in Hin as [j Hj]. destruct o as [c|]; [|done]. exists j, c.
  split; [|done]. specialize (Hs j c Hj). unfold looking in Hs.
  destruct (decide (j < index s)%nat) as [?|?]; [done|]. destruct Hs as (_ & _ & Hn).
  simpl in Ho. unfold Socket in Ho. by rewrite Hn in Ho.
Qed.

Lemma twp_start_next D n0 s :
  inv s → dues D s → T0 ≤ n0 < T0 + 2 ^ 30 →
  twp (start_next cc (u64 n0)) (λ t s', t ≤ i32 (_timeout cc) ∧ (s' = s ∧ waits D n0 s ∨ begun s s')) s.
Proof.
  intros Hinv ((L & EL & HL & HD) & _) Hn0. pose proof Hcc as (Hto & Hin & Her & Hmax).
  assert (0 ≤ gap s < 2 ^ 30) as Hgap by (unfold gap; destruct (_ =? 0); lia).
  unfold start_next. apply wp_bind, wp_gets. fold (gap s). rewrite (i32_small (gap s)) by lia.
  apply wp_bind, wp_gets. rewrite EL, u64_sub, i32_u64 by lia. apply wp_bind.
  unfold wpx at 1, checking, int_range.
  rewrite (proj2 (Z.leb_le _ _)), (proj2 (Z.ltb_lt _ _)) by lia. simpl.
  apply wp_bind, wp_gets. cbv zeta.
  destruct (Z.ltb_spec (Z.of_nat (index s)) (size (connectors s))) as [Hlt|Hge]; simpl.
  2:{ apply wp_mret. split; [lia|]. left. split; [done|]. right. left.
      destruct Hinv as (_ & Hidx & _). unfold size in Hge. lia. }
  destruct (Z.ltb_spec (runningCount (connectors s)) (_maxConnect cc)) as [Hrun|Hrun]; simpl.
  2:{ apply wp_mret. split; [lia|]. left. split; [done|]. right. right.
      apply running_exists; [done|lia]. }
  destruct (Z.ltb_spec 0 (gap s - (n0 - L))) as [Hnext|Hnext].
  - apply wp_mret. split; [lia|]. left. split; [done|]. left. lia.
  - apply wp_bind, cc_wp_now. intros k Hk. apply wp_bind, wp_modify, wp_mret.
    split; [lia|]. right. split_and!; try done. unfold size in Hlt. lia.
Qed.

(** A new state that differs in the system and the SocketSelect only. *)
Definition moved s s' : Prop :=
  connectors s' = connectors s ∧ index s' = index s ∧ lastStartConnTime s' = lastStartConnTime s ∧
  lastError s' = lastError s ∧ retSocket s' = retSocket s ∧ nanos (os s) ≤ nanos (os s').

Lemma inv_moved s s' : moved s s' → inv s → inv s'.
Proof.
  intros (E1 & E2 & E3 & E4 & E5 & Ht) (HT & Hidx & Hr & Hs & L & EL & HL). apply ms_mono in Ht as Hms.
  unfold inv. rewrite E1, E2, E3, E5. split_and!; [lia|done|done| |exists L; split; [done|lia]].
  eapply slots_later; [exact Hs|done|done|apply looking_mono].
Qed.

Lemma dues_moved D s s' :
  connectors s' = connectors s → index s' = index s → lastStartConnTime s' = lastStartConnTime s →
  lastError s' = lastError s → dues D s → dues D s'.
Proof. unfold dues, gap. by intros -> -> -> ->. Qed.

Lemma twp_register D s :
  inv s → dues D s → ¬ late s →
  twp (register cc) (λ '(n, t) s', 0 ≤ t < 2 ^ 31 ∧ n = index s' ∧ (n ≤ length (connectors s'))%nat ∧
    retSocket s' = None ∧ slots (registering (_timeout cc) T0 n n) s' ∧
    nanos (os s) ≤ nanos (os s') ∧ length (connectors s') = length (connectors s) ∧
    (∃ L, lastStartConnTime s' = u64 L ∧ T0 - 2 ^ 30 ≤ L ≤ ms (os s')) ∧
    (connectors s' = connectors s ∧ index s' = index s ∧ lastError s' = lastError s ∧
     lastStartConnTime s' = lastStartConnTime s ∧ waits D (ms (os s)) s ∨ (work s' < work s)%nat)) s.
Proof.
  intros Hinv Hdues Hlate. pose proof Hinv as (HT & _). unfold late in Hlate.
  unfold register. apply wp_bind, cc_wp_now. intros k Hk. apply wp_bind. unfold wpx at 1, SocketSelect.new. simpl.
  pose proof (kept_poll_new (P:=P) (Q:=λ k', nanos k ≤ nanos k') (breaker s) k (Z.le_refl _)) as Hp.
  destruct (poll_new _ _) as [p k2]. simpl in Hp.
  set (s1 := s <| ComplexConnect.os := k |> <| ComplexConnect.sel := _ |> <| ComplexConnect.os := _ |>).
  assert (moved s s1) as Hm by (split_and!; simpl; done || lia). clearbody s1.
  pose proof (inv_moved _ _ Hm Hinv) as Hinv1. pose proof Hm as (E1 & E2 & E3 & E4 & E5 & Ht1).
  assert (dues D s1) as Hdues1 by (by apply (dues_moved D s)).
  apply wp_bind. fold (ms (os s)).
  eapply wp_mono; [apply (twp_start_next D); [done|done|lia]|]. intros t s2 [Hle Hcase].
  assert (inv s1 → T0 ≤ ms (os s2) ∧ slots (registering (_timeout cc) T0 0 (index s2)) s2 ∧
    (index s2 ≤ length (connectors s2))%nat ∧ retSocket s2 = None ∧ nanos (os s1) ≤ nanos (os s2) ∧
    connectors s2 = connectors s1 ∧
    ∃ L, lastStartConnTime s2 = u64 L ∧ T0 - 2 ^ 30 ≤ L ≤ ms (os s2)) as Hs2.
  { intros (HT1 & Hidx1 & Hr1 & Hs1 & L & EL & HL). destruct Hcase as [[-> _]|(Hlt & Ei & Ec & Er & Ht & Els)].
    - split_and!; try done; [|by exists L]. intros j c Hc. by apply looked_registering, Hs1.
    - apply ms_mono in Ht as Hms. rewrite Ei, Ec, Er, Els.
      split_and!; try done; try lia; [|exists (ms (os s1)); split; [done|lia]].
      intros j c Hc. rewrite Ec in Hc. specialize (Hs1 j c Hc). revert Hs1. unfold looking, registering.
      repeat case_decide; try lia; try done; intros Hs1; [left; by eapply live_mono|by right]. }
  destruct (Hs2 Hinv1) as (HT2 & Hs2' & Hidx2 & Hr2 & Ht2 & Ec2 & L & EL & HL).
  apply wp_bind, wp_gets, wp_bind.
  eapply wp_mono; [by apply (twp_pre_select (_timeout cc) T0 (index s2))|].
  intros t3 s3 (Hle3 & Hs3 & (Ei3 & Els3 & El3 & Ht3) & Eerr3 & Er3 & Ha3).
  apply wp_mret. apply ms_mono in Ht3 as Hms3. rewrite El3, Ei3, Els3, Er3.
  split_and!; [lia|pose proof (i32_range (_timeout cc)); lia|done|done|done|done|lia|congruence|exists L; split; [done|lia]|].
  destruct Hcase as [[-> Hw]|(Hlt & Ei & Ec & Er & Ht & Els)].
  - destruct Ha3 as [Ec3|Ha3]; [left|right].
    + rewrite Ec3. split_and!; try congruence. unfold waits in *. by rewrite E1, E2 in Hw.
    + unfold work. rewrite El3, Ei3. rewrite E1 in *. rewrite E2. lia.
  - right. assert (load (connectors s3) ≤ load (connectors s2))%nat by (destruct Ha3 as [->|?]; lia).
    unfold work. rewrite El3, Ei3, Ei. rewrite Ec2, E1, E2 in *. lia.
Qed.

(** After select: [s2] has been registered in a turn that began in [s]. *)
Definition turned D s s' : Prop :=
  inv s' ∧ ((work s' < work s)%nat ∨
            work s' = work s ∧ dues D s' ∧ nanos (os s) < nanos (os s') ∧ ms (os s) < D).

Lemma turned_waiting D s s2 s3 n :
  dues D s → T0 ≤ ms (os s) → ¬ late s3 → n = index s →
  connectors s2 = connectors s → index s2 = index s → lastError s2 = lastError s →
  waits D (ms (os s)) s → ms (os s) ≤ ms (os s2) → slots (looking (_timeout cc) T0 0 n) s2 →
  (∃ j c, connectors s3 !! j = Some (Some c)) → length (connectors s3) = length (connectors s2) →
  left_over 0 n s2 s3 → lastError s3 = lastError s ∧ ms (os s) < D.
Proof.
  intros Hdues HT Hlate -> Ec2 Ei2 El2 Hw Hms Hs2 Hleft Hlen (Ec3 & El3 & Htime).
  split; [congruence|].
  assert ((∃ j c, (j < index s)%nat ∧ connectors s !! j = Some (Some c)) → ms (os s) < D) as Hdue.
  { intros (j & c & Hj & Hc). assert (connectors s2 !! j = Some (Some c)) as Hc2 by congruence.
    destruct (Htime j c) as (m & Hm & Hpos); [lia|done|]. unfold late in Hlate.
    pose proof (Hs2 j c Hc2) as Hl. unfold looking in Hl. rewrite decide_False, decide_True in Hl by lia.
    assert (able (_timeout cc) c) as Hp by (by destruct Hl as [[[? _] _]|[? _]]).
    enough (m < D) by lia. apply (time_left_due (_timeout cc) T0 D c); [done| |lia|apply Hcc|done].
    by apply (proj2 Hdues j c). }
  destruct Hw as [?|[Hidx|?]]; [done| |by apply Hdue]. apply Hdue.
  destruct Hleft as (j & c & Hc). exists j, c. rewrite Ec3, Ec2 in Hc. split; [|done].
  rewrite Hidx. by eapply lookup_lt_Some.
Qed.

Lemma turned_moved D s s5 s6 :
  late s5 ∨ turned D s s5 → moved s5 s6 → late s6 ∨ turned D s s6.
Proof.
  intros Hb Hm. pose proof Hm as (E1 & E2 & E3 & E4 & E5 & Ht6). apply ms_mono in Ht6 as Hms6.
  destruct Hb as [Hb|[Hinv5 Hb]]; [left; unfold late in *; lia|right].
  split; [by eapply inv_moved|]. assert (work s6 = work s5) as -> by (unfold work; by rewrite E1, E2).
  destruct Hb as [?|(? & Hd & ? & ?)]; [by left|right]. split_and!; [done| |lia|done].
  by apply (dues_moved D s5).
Qed.

Lemma some_left (l : list (option Connector.t)) :
  forallb (λ c, match c with None => true | Some _ => false end) l = false →
  ∃ j c, l !! j = Some (Some c).
Proof.
  induction l as [|[c|] l IH]; intros Hl; [done|by exists 0%nat, c|].
  destruct (IH Hl) as (j & c & Hj). by exists (S j), c.
Qed.

Lemma twp_select t s Φ :
  0 ≤ t < 2 ^ 31 → (∀ ret s', moved s s' → nanos (os s) < nanos (os s') → Φ ret s') →
  twp (select (Z.quot t 1000)) Φ s.
Proof.
  intros Ht HΦ. unfold wpx, select, SocketSelect.Select.
  assert (Z.quot t 1000 * 1000 < 2 ^ 31) as Hq.
  { pose proof (Z.quot_rem' t 1000). pose proof (Z.rem_nonneg t 1000). lia. }
  destruct (poll_returns (ComplexConnect.sel s) _ (breaker s) (os s) Hq) as (ret & p & br & k & Ep).
  rewrite Ep. simpl. apply poll_ticks in Ep as Hk. apply HΦ; [|done]. split_and!; try done. simpl. lia.
Qed.

Context (Hdelete : base_delete = true).

Lemma twp_iteration D s :
  inv s → dues D s → ¬ late s →
  twp (iteration cc) (λ leave s', leave = true ∨ late s' ∨ turned D s s') s.
Proof.
  intros Hinv Hdues Hlate. pose proof (proj1 Hinv) as HT. unfold iteration.
  apply wp_bind. eapply wp_mono; [by apply (twp_register D)|].
  intros [n t] s2 (Hsel & Hn & Hlen & Hr2 & Hs2 & Ht2 & El2 & (L & EL & HL) & Hcase). cbv zeta.
  apply wp_bind, twp_select; [done|]. intros ret s3 (Ec3 & Ei3 & Els3 & Ee3 & Er3' & _) Ht3.
  assert (retSocket s3 = None) as Er3 by congruence.
  assert (slots (looking (_timeout cc) T0 0 n) s3) as Hs3.
  { apply (slots_later _ s2); [|done|lia|apply looking_mono]. intros j c Hc. by apply registered_looking, Hs2. }
  apply wp_bind. eapply wp_mono with (Φ := λ b s', b = true ∨ late s' ∨ turned D s s').
  2:{ intros b s5 Hb. apply wp_bind, wp_modify, wp_mret. destruct Hb as [->|Hb]; [by left|right].
      eapply turned_moved; [exact Hb|]. split_and!; try done. simpl. unfold SocketSelect.delete.
      apply (kept_poll_delete (Q:=λ k, nanos (os s5) ≤ nanos k)). lia. }
  unfold look. case_match; [apply wp_mret; by left|].
  apply wp_bind, wp_gets. case_match; [apply wp_mret; by left|].
  apply wp_bind, wp_gets. case_match; [apply wp_mret; by left|]. apply wp_bind.
  eapply wp_mono; [apply (twp_after_select (_timeout cc) T0 Hdelete n n 0 s3); [done|lia|by rewrite Ec3|done]|].
  intros [] s4 [(Ei4 & Els4 & El4 & Ht4) Hl]. apply wp_bind, wp_gets, wp_mret.
  destruct Hl as [[sock ->]|(Hr4 & Hs4 & Hl)]; [left; apply orb_true_r|].
  destruct (forallb _ _) eqn:Hall; [by left|right].
  destruct (decide (late s4)) as [?|Hlate4]; [by left|right].
  apply ms_mono in Ht2 as Hms2, Ht4 as Hms4.
  pose proof (ms_mono _ _ (Z.lt_le_incl _ _ Ht3)) as Hms3.
  assert (inv s4) as Hinv4.
  { unfold inv. rewrite Ei4, Ei3, <-Hn, El4, Ec3. split_and!; [lia|done|done|done|].
    exists L. split; [congruence|lia]. }
  split; [done|]. destruct Hcase as [(Ec & Ei & Ee & Els & Hw)|Hwork].
  2:{ left. enough (work s4 ≤ work s2)%nat by lia. unfold work. rewrite El4, Ei4, Ei3, Ec3.
      destruct Hl as [(-> & _)|Ha]; [rewrite Ec3; lia|]. rewrite Ec3 in Ha. lia. }
  destruct Hl as [Hl|Ha].
  2:{ left. unfold work. rewrite El4, Ei4, Ei3, Ec3, Ei, Ec. rewrite Ec3, Ec in Ha. lia. }
  right. pose proof Hl as (Ec4 & Ee4 & _).
  destruct (turned_waiting D s s3 s4 n) as [Ee4' HD]; try done; try congruence; try lia.
  { by apply some_left. }
  split_and!; [|by apply (dues_moved D s); congruence|lia|done].
  unfold work. by rewrite Ei4, Ei3, Ec4, Ec3, Ei, Ec.
Qed.

(** ** The loop *)

(** The turns that a state has left, at most. *)
Definition per_event : Z := longest * 1000000 + 1.
Definition budget D s : Z := Z.of_nat (work s) * per_event + Z.max 0 (D * 1000000 - nanos (os s)).

Lemma nanos_ms (k : K) : ms k * 1000000 ≤ nanos k < (ms k + 1) * 1000000.
Proof. unfold ms. pose proof (Z.div_mod (nanos k) 1000000). pose proof (Z.mod_pos_bound (nanos k) 1000000). lia. Qed.

(** The states at the start of a turn. *)
Inductive running : locals → locals → Prop :=
| running_refl s : running s s
| running_step s1 s2 s3 : iteration cc s1 = Ret (false, s2) → running s2 s3 → running s1 s3.

Lemma loop_ends fuel : ∀ D s,
  inv s → dues D s → budget D s < Z.of_nat fuel →
  (∃ s', loop fuel cc s = Ret ((), s')) ∨ (∃ s', running s s' ∧ late s').
Proof.
  induction fuel as [|fuel IH]; intros D s Hinv Hdues Hb.
  { exfalso. unfold budget, per_event, longest in Hb. pose proof Hcc as (? & ? & ? & _). lia. }
  destruct (decide (late s)) as [Hlate|Hlate]; [right; exists s; by split; [apply running_refl|]|].
  destruct (twp_elim _ _ _ (twp_iteration D s Hinv Hdues Hlate)) as (leave & s' & E & Hout).
  simpl. unfold mbind, ST_mbind, mbind, outcome_mbind, outcome_bind. rewrite E.
  destruct leave; [left; by exists s'|].
  destruct (decide (late s')) as [Hlate'|Hlate'].
  { right. exists s'. split; [|done]. by eapply running_step, running_refl. }
  destruct Hout as [?|[?|[Hinv' Hw]]]; [done..|].
  assert (∃ D', dues D' s' ∧ budget D' s' < Z.of_nat fuel) as (D' & Hd' & Hb').
  { destruct Hw as [Hw|(Hw & Hd & Ht & HD)].
    - exists (ms (os s') + longest). split; [by apply inv_dues|].
      pose proof (nanos_ms (os s')). unfold budget, per_event in *.
      assert (0 ≤ longest) by (unfold longest; destruct Hcc; lia). nia.
    - exists D. split; [done|]. pose proof (nanos_ms (os s)). unfold budget in *. rewrite Hw. lia. }
  destruct (IH D' s' Hinv' Hd' Hb') as [Hret|(s'' & Ht & Hl)]; [by left|right].
  exists s''. split; [|done]. by eapply running_step.
Qed.

Lemma twp_close_all n : ∀ i s, twp (close_all n i) (λ _ _, True) s.
Proof.
  induction n as [|n IH]; intros i s; simpl; [by apply wp_mret|]. apply wp_bind, wp_gets.
  destruct (connectors s !! i) as [[c|]|] eqn:Hi; [|apply IH..].
  eapply twp_drop; [done|exact Hi|]. intros s' _ _ _. apply IH.
Qed.

End turns.

(** ** ConnectImpatient *)
Section ends.
Context {P K : Type} `{!SocketPollBase P K, !PipeKernel K, !Clock K, !SockOpts K}.
Context `{!Kernel K, !OpenSSL K, !SslStatic K, !ConnectKernel K, !BaseDelete, !Ticking K}.
Context `{!PollTicks P, !PollReturns P K}.

Abbreviation locals := (ComplexConnect.locals (P:=P) (K:=K)).

(** The variables before the loop. *)
Definition before_loop (cc : ComplexConnect.t) (WITH_SSL : bool) (addrs : list AddrInfo) (p : P)
    (br : SocketBreaker.t) (k : K) : locals :=
  mkLocals (new_connectors cc WITH_SSL addrs) (u64 (fst (gettickcount k) - _interval cc)) 0 0 None
           p br (snd (gettickcount k)).

Definition max_turns (cc : ComplexConnect.t) (addrs : list AddrInfo) : Z :=
  (6 * size addrs + 1) * per_event cc.

(** Addresses that a connector can be made for: in a library built without TLS no
    address asks for it, which TcpClient::InitHostAndPort sees to. *)
Definition supported (WITH_SSL : bool) (addrs : list AddrInfo) : Prop :=
  Forall (λ a, if WITH_SSL && isTls a then handshake_waits (K:=K) else isTls a = false) addrs.

Lemma new_connectors_load cc WITH_SSL addrs :
  load (new_connectors cc WITH_SSL addrs) = (5 * length addrs)%nat.
Proof.
  unfold new_connectors. 
  assert (∀ i a, from_option stage 0%nat (new_connector cc WITH_SSL i a) = 5%nat) as Hf by done.
  revert Hf. generalize (new_connector cc WITH_SSL) as f. unfold load.
  induction addrs as [|a l IH]; intros f Hf; [done|]. rewrite imap_cons. simpl. rewrite Hf, IH; [lia|].
  intros i a'. apply Hf.
Qed.

Lemma before_loop_inv cc WITH_SSL addrs p br k :
  sane cc → supported WITH_SSL addrs →
  inv cc (ms k) (before_loop cc WITH_SSL addrs p br k).
Proof.
  intros Hcc Htls. pose proof (nanos_tick k) as Et. unfold tick in Et.
  pose proof (kept_gettickcount (λ k', nanos k ≤ nanos k') k (Z.le_refl _)) as Hk.
  apply ms_mono in Hk. destruct Hcc as (_ & Hin & _).
  unfold inv, before_loop. simpl. rewrite Et. fold (ms k).
  split_and!; [done|lia|done| |].
  - intros j c. simpl. unfold new_connectors. rewrite list_lookup_imap. intros Hj.
    destruct (addrs !! j) as [a|] eqn:Ha; [|done]. injection Hj as <-.
    pose proof (Forall_lookup_1 _ _ _ _ Htls Ha) as Hplain. simpl in Hplain.
    unfold looking. rewrite !decide_False by lia. split_and!; [split; [|done]|done|done].
    simpl. by destruct (WITH_SSL && isTls a).
  - exists (ms k - _interval cc). split; [|lia]. unfold u64. by rewrite Zminus_mod_idemp_l.
Qed.

Lemma twp_start_first cc T0 n0 c (s : locals) :
  sane cc → T0 ≤ n0 < T0 + 2 ^ 30 → lastStartConnTime s = u64 (T0 - _interval cc) →
  lastError s = 0 → index s = 0%nat → runningCount (connectors s) = 0 →
  connectors s !! 0%nat = Some c →
  twp (start_next cc (u64 n0)) (λ t s', t = i32 (_timeout cc) ∧ index s' = 1%nat ∧
    connectors s' = connectors s ∧ nanos (os s) ≤ nanos (os (s' : locals))) s.
Proof.
  intros (Hto & Hin & _ & Hmax) Hn0 Elast Eerr Eidx Hrun Hc0. apply lookup_lt_Some in Hc0.
  unfold start_next. apply wp_bind, wp_gets. rewrite Eerr. simpl. rewrite (i32_small (_interval cc)) by lia.
  apply wp_bind, wp_gets. rewrite Elast, u64_sub, i32_u64 by lia. apply wp_bind.
  unfold wpx at 1, checking, int_range. rewrite (proj2 (Z.leb_le _ _)), (proj2 (Z.ltb_lt _ _)) by lia.
  simpl. apply wp_bind, wp_gets. rewrite Eidx, Hrun.
  rewrite (proj2 (Z.ltb_lt (Z.of_nat 0) _)), (proj2 (Z.ltb_lt 0 (_maxConnect cc))) by (unfold size; lia).
  simpl. rewrite (proj2 (Z.ltb_ge _ _)) by lia. apply wp_bind, cc_wp_now. intros k Hk.
  apply wp_bind, wp_modify, wp_mret. simpl. by rewrite Eidx.
Qed.

Lemma twp_pre_select_first cc T0 t c (s : locals) :
  sane cc → connectors s !! 0%nat = Some (Some c) → idle (_timeout cc) c → T0 ≤ ms (os s) →
  twp (pre_select 1 0 t) (λ t' s', T0 ≤ ms (os s') ∧
    ((∃ c', connectors s' !! 0%nat = Some (Some c') ∧ _status c' = ConnStatusConnecting) →
    ¬ late T0 s' → Z.min t (_timeout cc - (ms (os s') - T0)) ≤ t')) s.
Proof.
  intros Hcc Hc Hidle HT. simpl. apply wp_bind, wp_gets. rewrite Hc.
  apply wp_bind, (wp_with_connector _ _ _ s c Hc).
  eapply wp_mono; [apply (twp_PreSelect_slot (_timeout cc) T0); [by left|done]|].
  intros [] e (Ht & He & _). simpl in Ht. apply wp_bind. eapply wp_with_connector; [by eapply put_lookup|].
  assert (twp Timeout (λ r e', self e' = self e ∧ nanos (Connector.os e) ≤ nanos (Connector.os e') ∧
    (_status (self e) = ConnStatusConnecting → ms (Connector.os e') < T0 + 2 ^ 30 →
     _timeout cc - (ms (Connector.os e') - T0) ≤ r)) (focus (self e) (put 0 e s))) as Hleft.
  { destruct He as [[_ He]|He].
    - eapply wp_mono; [apply twp_Timeout_clock|]. intros r e' [E Ht']. simpl in E.
      split_and!; [done|done|]. congruence.
    - eapply (wp_Timeout_watched (_timeout cc) T0); [exact He|]. intros k Hk. split_and!; [done|done|].
      intros _ Hlate. pose proof He as [([_ Hto] & _ & _ & R & ER & HR) _]. simpl in *. apply ms_mono in Hk.
      pose proof Hcc as (Hto' & _). unfold time_left. rewrite ER, Hto, u64_add_idemp, u64_sub, i32_u64; lia. }
  eapply wp_mono; [exact Hleft|]. intros r e2 (Es2 & Ht2 & Hr). apply wp_mret. split.
  { simpl. etransitivity; [exact HT|]. apply ms_mono. lia. }
  intros (c' & Hc' & Hst) Hlate.
  simpl in Hc', Hlate |- *. unfold late in Hlate. simpl in Hlate.
  rewrite list_insert_insert_eq, list_lookup_insert_eq in Hc' by (by eapply lookup_lt_Some).
  injection Hc' as <-. rewrite Es2 in Hst. specialize (Hr Hst). lia.
Qed.

(** The interval is not kept after a start.  In the turn that starts the first
    connection, select is given the whole time that this connection has left, so that
    the second address waits for the timeout of a first one that does not answer. *)
Theorem interval_ignored cc WITH_SSL addrs (p : P) br (k : K) :
  sane cc → supported WITH_SSL addrs → addrs ≠ [] →
  ¬ late (ms k) (before_loop cc WITH_SSL addrs p br k) →
  ∃ t s', register cc (before_loop cc WITH_SSL addrs p br k) = Ret ((1%nat, t), s') ∧
    ((∃ c, connectors s' !! 0%nat = Some (Some c) ∧ _status c = ConnStatusConnecting) →
     ¬ late (ms k) s' → _timeout cc - (ms (os s') - ms k) ≤ t).
Proof.
  intros Hcc Htls Hne Hlate. set (s0 := before_loop cc WITH_SSL addrs p br k) in *.
  assert (inv cc (ms k) s0) as Hinv by (by apply before_loop_inv).
  pose proof Hinv as (HT & _ & _ & Hs0 & _).
  pose proof Hcc as (Hto & Hin & _ & Hmax).
  assert (runningCount (connectors s0) = 0) as Hrun.
  { destruct (decide (1 ≤ runningCount (connectors s0))) as [Hr|Hr].
    - destruct (running_exists cc (ms k) s0 Hinv Hr) as (j & c & Hj & _). simpl in Hj. lia.
    - unfold runningCount in *. pose proof (size_nonneg (List.filter __IsConnecting (connectors s0))). lia. }
  assert (∃ c, connectors s0 !! 0%nat = Some (Some c)) as (c0 & Hc0).
  { destruct addrs; [done|]. by eexists. }
  pose proof (Hs0 _ _ Hc0) as Hidle. unfold looking in Hidle. rewrite !decide_False in Hidle by (simpl; lia).
  enough (twp (register cc) (λ '(n, t) s', n = 1%nat ∧
    ((∃ c, connectors s' !! 0%nat = Some (Some c) ∧ _status c = ConnStatusConnecting) →
     ¬ late (ms k) s' → _timeout cc - (ms (os s') - ms k) ≤ t)) s0) as Htwp.
  { destruct (twp_elim _ _ _ Htwp) as ([n t] & s' & E & -> & Hx). by exists t, s'. }
  assert (lastStartConnTime s0 = u64 (ms k - _interval cc)) as Elast.
  { pose proof (nanos_tick k) as Et. unfold tick in Et. unfold s0. simpl. rewrite Et.
    unfold u64. by rewrite Zminus_mod_idemp_l. }
  assert (lastError s0 = 0 ∧ index s0 = 0%nat) as [Eerr Eidx] by done.
  clearbody s0. unfold register. apply wp_bind, cc_wp_now. intros k1 Hk1.
  apply wp_bind. unfold wpx at 1, SocketSelect.new. simpl.
  pose proof (kept_poll_new (P:=P) (Q:=λ k', nanos k1 ≤ nanos k') (breaker s0) k1 (Z.le_refl _)) as Hp.
  destruct (poll_new _ _) as [p1 k2]. simpl in Hp.
  apply wp_bind. eapply wp_mono.
  { apply (twp_start_first cc (ms k) (ms (os s0)) (Some c0)); [done| |done..]. unfold late in Hlate. lia. }
  intros t s1 (-> & Ei & Ec & Ht1). simpl in Ec, Ht1. apply wp_bind, wp_gets. rewrite Ei.
  apply wp_bind. eapply wp_mono; [eapply (twp_pre_select_first cc (ms k)); [done|by rewrite Ec|done|]|].
  { etransitivity; [exact HT|]. apply ms_mono. do 2 (etransitivity; [eassumption|]). done. }
  intros t s2 [HT2 Ht]. apply wp_mret. split; [done|]. intros Hc Hl. specialize (Ht Hc Hl).
  rewrite (i32_small (_timeout cc)) in Ht by lia. lia.
Qed.

(** It comes back; Connecting applies this to the client. *)
Lemma connect_returns cc WITH_SSL addrs (p : P) br (k : K) fuel :
  base_delete = true → sane cc → supported WITH_SSL addrs → max_turns cc addrs ≤ Z.of_nat fuel →
  (∃ r, ConnectImpatient fuel p cc WITH_SSL addrs (br, k) = Ret r) ∨
  (∃ s, running cc (before_loop cc WITH_SSL addrs p br k) s ∧ late (ms k) s).
Proof.
  intros Hdel Hcc Htls Hfuel. unfold ConnectImpatient. case_bool_decide; [left; by eexists|].
  set (s0 := before_loop cc WITH_SSL addrs p br k).
  destruct (decide (late (ms k) s0)) as [Hlate|Hlate]; [right; exists s0; by split; [apply running_refl|]|].
  assert (inv cc (ms k) s0) as Hinv by (by apply before_loop_inv).
  destruct (loop_ends cc (ms k) Hcc Hdel fuel (ms (os s0) + longest cc) s0) as [[s1 E]|?].
  - done.
  - by apply inv_dues.
  - assert (work s0 = (6 * length addrs)%nat) as Ew.
    { unfold work. simpl. rewrite new_connectors_load. unfold new_connectors. rewrite length_imap. lia. }
    unfold budget. rewrite Ew. pose proof (nanos_ms (os s0)). unfold max_turns, size, per_event in *.
    assert (0 ≤ longest cc) by (unfold longest; destruct Hcc; lia). nia.
  - left. destruct (twp_elim _ _ _ (twp_close_all Hdel (length (new_connectors cc WITH_SSL addrs)) 0 s1))
      as ([] & s2 & E2 & _).
    unfold s0, before_loop in E. destruct (gettickcount k) as [now k']. simpl in E.
    unfold mbind, ST_mbind, mbind, outcome_mbind, outcome_bind. rewrite E. simpl. rewrite E2.
    by eexists.
  - by right.
Qed.

(** C13: ConnectImpatient ends.  With timeouts of less than twelve days, a monotonic clock
    that every poll moves on, TLS handshakes that wait for the server, and a compiler
    that deletes a derived object through a pointer to its base by running the
    destructor of the base (the standard leaves it undefined), [max_turns] turns are
    enough: it comes back, whatever the system calls, select and the interruption
    answer, or else it gets to a state in which twelve days have passed since its start,
    where the [int] differences of times mean nothing and nothing is claimed. *)
Theorem ConnectImpatient_returns cc WITH_SSL addrs (p : P) br (k : K) fuel :
  base_delete = true → sane cc → supported WITH_SSL addrs → max_turns cc addrs ≤ Z.of_nat fuel →
  (∃ r, ConnectImpatient fuel p cc WITH_SSL addrs (br, k) = Ret r) ∨
  (∃ s, running cc (before_loop cc WITH_SSL addrs p br k) s ∧ late (ms k) s).
Proof. apply connect_returns. Qed.

End ends.

(** ** A handshake that does not wait

    [handshake_waits] is needed: a connector whose handshake succeeds at once stays
    where it is, has no deadline, and nothing but an interruption ends the loop. *)
Section hangs.
Context {P K : Type} `{!SocketPollBase P K, !PipeKernel K, !Clock K, !SockOpts K}.
Context `{!Kernel K, !OpenSSL K, !SslStatic K, !ConnectKernel K, !BaseDelete}.
Abbreviation locals := (ComplexConnect.locals (P:=P) (K:=K)).
Abbreviation env := (Connector.env (P:=P) (K:=K)).

Context (handshake_at_once :
  ∀ s (k : K), ∃ s' k', AnySocket.Connect (Tls s) k = (SSL_ERROR_NONE, Tls s', k')).
Context (nothing_happens : ∀ (p : P) timeout br (k : K) ret p' br' k',
  Poll p timeout br k = Ret (ret, p', br', k') →
  0 ≤ ret ∧ SocketSelect.IsException (K:=K) br' p' = false ∧ SocketSelect.IsBreak (K:=K) br' p' = false).

Definition stuck (c : Connector.t) : Prop :=
  _class c = SSLConnector ∧ _status c = ConnStatusStartSSL ∧ ∃ s, _socket c = Some (Tls s).
Definition hung (s : locals) : Prop :=
  (∃ c, connectors s = [Some c] ∧ stuck c) ∧ index s = 1%nat ∧ retSocket s = None.

Lemma wp_PreSelect_stuck (e : env) : stuck (self e) → wp PreSelect (λ _ e', stuck (self e')) e.
Proof.
  intros (Hc & Hs & t & Et). unfold PreSelect. apply wp_bind, wp_get. rewrite Hc.
  unfold SSL_PreSelect, Tcp_PreSelect. apply wp_bind, wp_bind, wp_get. rewrite Hs. apply wp_mret.
  apply wp_bind, wp_get. rewrite Hs. unfold PreSSLSelect. apply wp_bind. eapply wp_socket_ptr; [exact Et|].
  apply wp_bind, conn_wp_call. intros [err s'] k E.
  destruct (handshake_at_once t (Connector.os e)) as (t' & k' & Ec). rewrite Ec in E. injection E as <- <- _.
  apply wp_bind, wp_set. simpl. apply wp_mret. split_and!; [done|done|by exists t'].
Qed.

Lemma wp_Timeout_stuck (e : env) : stuck (self e) → wp Timeout (λ _ e', stuck (self e')) e.
Proof.
  intros Hst. pose proof Hst as (_ & Hs & _). unfold Timeout. apply wp_bind, wp_get. rewrite Hs. simpl.
  by apply wp_mret.
Qed.

Lemma wp_AfterSelect_stuck (e : env) : stuck (self e) → wp AfterSelect (λ _ e', stuck (self e')) e.
Proof.
  intros Hst. pose proof Hst as (Hc & Hs & _). unfold AfterSelect. apply wp_bind, wp_get. rewrite Hc.
  unfold SSL_AfterSelect, Tcp_AfterSelect. apply wp_bind, wp_bind, wp_get. rewrite Hs. apply wp_mret.
  apply wp_bind, wp_get. rewrite Hs. by apply wp_mret.
Qed.

(** A call on the one connector. *)
Lemma wp_hung {A} (m : ST env A) (Φ : A → locals → Prop) s :
  hung s → (∀ e : env, stuck (self e) → wp m (λ _ e', stuck (self e')) e) →
  (∀ a s', hung s' → Φ a s') → wp (with_connector 0 m) Φ s.
Proof.
  intros ((c & Ec & Hc) & Hi & Hr) Hm HΦ. eapply wp_with_connector; [by rewrite Ec|].
  eapply wp_mono; [by apply Hm|]. intros a e He. apply HΦ. split_and!; [|done|done].
  exists (self e). split; [|done]. unfold put. simpl. by rewrite Ec.
Qed.

Lemma wp_start_next_hung cc now s : hung s → wp (start_next cc now) (λ _ s', hung s') s.
Proof.
  intros Hh. unfold start_next. apply wp_bind, wp_gets, wp_bind, wp_gets, wp_bind.
  unfold wpx at 1, checking. destruct (int_range _); [simpl|done..]. apply wp_bind, wp_gets.
  destruct Hh as ((c & Ec & Hc) & Hi & Hr). rewrite Ec, Hi. simpl. apply wp_mret.
  split_and!; [by exists c|done|done].
Qed.

Lemma wp_look_hung ret s :
  hung s → 0 ≤ ret → SocketSelect.IsException (K:=K) (ComplexConnect.breaker s) (ComplexConnect.sel s) = false →
  SocketSelect.IsBreak (K:=K) (ComplexConnect.breaker s) (ComplexConnect.sel s) = false →
  wp (look 1 ret) (λ leave s', leave = false ∧ hung s') s.
Proof.
  intros Hh Hret Hex Hbr. unfold look. rewrite (proj2 (Z.ltb_ge ret 0) Hret).
  apply wp_bind, wp_gets. rewrite Hex. apply wp_bind, wp_gets. rewrite Hbr. apply wp_bind.
  unfold after_select. apply wp_bind, wp_gets. pose proof Hh as ((c & Ec & _) & _). rewrite Ec. simpl.
  apply wp_bind, wp_hung; [done|apply wp_AfterSelect_stuck|]. intros _ s1 Hh1.
  pose proof Hh1 as ((c1 & Ec1 & Hc1) & _ & Hr1). pose proof Hc1 as (_ & Hs1 & _).
  apply wp_bind. eapply wp_with_connector; [by rewrite Ec1|]. apply wp_get. unfold Status. simpl.
  assert (put 0 (focus c1 s1) s1 = s1) as ->.
  { destruct s1. unfold put, focus. simpl in *. by rewrite Ec1. }
  rewrite Hs1, !bool_decide_eq_false_2 by done. apply wp_mret, wp_bind, wp_gets, wp_mret.
  rewrite Ec1, Hr1. by split.
Qed.

Lemma wp_hung_iteration cc s : hung s → wp (iteration cc) (λ leave s', leave = false ∧ hung s') s.
Proof.
  intros Hh. unfold iteration, register. apply wp_bind, wp_bind, cc_wp_call. intros now k _.
  apply wp_bind. unfold wpx at 1, SocketSelect.new. destruct (poll_new _ _) as [p k2].
  set (s1 := s <| ComplexConnect.os := k |> <| ComplexConnect.sel := _ |> <| ComplexConnect.os := _ |>).
  assert (hung s1) as Hh1 by done. clearbody s1. clear s Hh p k k2.
  apply wp_bind. eapply wp_mono; [by apply wp_start_next_hung|]. intros t s2 Hh2.
  apply wp_bind, wp_gets, wp_bind. rewrite (proj1 (proj2 Hh2)). unfold pre_select.
  eapply (wp_mono _ (λ _ s', hung s')).
  { apply wp_bind, wp_gets. destruct Hh2 as ((c & Ec & Hc) & Hi & Hr). rewrite Ec. simpl.
    assert (hung s2) as Hh2 by (split_and!; [by exists c|done|done]).
    apply wp_bind, wp_hung; [done|apply wp_PreSelect_stuck|]. intros _ s3 Hh3.
    apply wp_bind, wp_hung; [done|apply wp_Timeout_stuck|]. intros left s4 Hh4. by apply wp_mret. }
  intros t' s3 Hh3. apply wp_mret. cbv zeta beta iota. apply wp_bind. unfold wpx at 1, select.
  destruct (SocketSelect.Select _ _ _ _) as [[[[ret p] br] k]| | |] eqn:E; [simpl|done..].
  apply nothing_happens in E as (Hret & Hex & Hbr).
  set (s4 := s3 <| ComplexConnect.sel := _ |> <| ComplexConnect.breaker := _ |> <| ComplexConnect.os := _ |>).
  assert (hung s4) as Hh4 by done.
  assert (SocketSelect.IsException (K:=K) (ComplexConnect.breaker s4) (ComplexConnect.sel s4) = false ∧
          SocketSelect.IsBreak (K:=K) (ComplexConnect.breaker s4) (ComplexConnect.sel s4) = false) as [Hex4 Hbr4] by done.
  clearbody s4. apply wp_bind. eapply wp_mono; [by apply wp_look_hung|]. intros leave s5 [-> Hh5].
  by apply wp_bind, wp_modify, wp_mret.
Qed.

(** C39: with a handshake that succeeds at once and nobody who interrupts, the loop of
    ConnectImpatient never returns, however often it goes around: the only connector
    stays where it is, and its timeout does not run. *)
Theorem early_handshake_hangs cc fuel : ∀ s r, hung s → loop fuel cc s ≠ Ret r.
Proof.
  induction fuel as [|fuel IH]; intros s r Hh; [done|]. simpl. unfold mbind, ST_mbind.
  destruct (iteration cc s) as [[leave s']| | |] eqn:E; [|done..].
  destruct (wp_elim _ _ _ _ _ E (wp_hung_iteration cc s Hh)) as [-> Hh']. by apply IH.
Qed.

End hangs.
