(* ===== verification/DnsQuery.v ===== *)
(** * DnsQuery: finding the addresses of a host
    (src/connect/dns_query.hpp, .cpp)

    The system's resolver runs on a detached thread for each query, and tells the
    waiting thread with a breaker.  The threads share [_hostName], [_cacheIps] and
    [_retBreaker] without a lock, and a thread of an earlier query, for another host, can
    still be running.  Its getaddrinfo is taken to have read [_hostName] when it is called
    (the code passes c_str(), which the next query overwrites).  The threads are a part of
    the state; [others] is what they do
    while GetHostByName runs: some number of steps, see [queries].  Writing the cache
    while another thread writes or copies it is a data race. *)
From S2P Require Import Prelude Monad TcpError Sockets SocketBreaker TimeUtils Poll.

(** getaddrinfo(3) with the addresses printed by inet_ntoa(3), none when the return
    value is not 0, and the callback of the application for HTTP DNS. *)
Class Resolver (K : Type) := {
  getaddrinfo : bytes → K → option (list bytes) * K;
  httpDns : bytes → K → list bytes * K;
}.

Module DnsQuery.

(** How far a detached thread that runs __GetIps has come: it will read [_hostName];
    getaddrinfo looks for a host; these addresses are still to be pushed to the cache,
    which was cleared; the breaker is to be raised. *)
Inductive phase : Set :=
| Started | Resolving (hostName : bytes) | Writing (ips : list bytes) | Signalling.

(** class DnsQuery, with its detached threads *)
Record t : Set := mk {
  _hostName : bytes;
  _cacheIps : list bytes;
  _retBreaker : SocketBreaker.t;
  _getHttpDns : bool;             (* whether the callback is set *)
  threads : list phase;
}.
#[export] Instance t_rebuild : Rebuild t := λ d,
  mk (_hostName d) (_cacheIps d) (_retBreaker d) (_getHttpDns d) (threads d).

Section ops.
Context {P K : Type} `{!SocketPollBase P K, !PipeKernel K, !Clock K, !Resolver K}.

(** The constructor. *)
Definition new (k : K) : t * K :=
  let '(br, k) := SocketBreaker.new k in (mk [] [] br false [], k).

(** SharedQuery, with [_instance]: the object is made by the first call. *)
Definition SharedQuery (_instance : option t) (k : K) : t * K :=
  match _instance with Some d => (d, k) | None => new k end.

Definition SetHttpDns (d : t) (set : bool) : t := d <| _getHttpDns := set |>.

(** The next step of a thread; [None]: it ends. *)
Definition __GetIps (p : phase) (d : t) (k : K) : option phase * t * K :=
  match p with
  | Started => (Some (Resolving (_hostName d)), d, k)
  | Resolving hostName =>
      let '(result, k) := getaddrinfo hostName k in
      match result with
      | None => (Some Signalling, d, k)
      | Some ips => (Some (Writing ips), d <| _cacheIps := [] |>, k)
      end
  | Writing (ip :: ips) => (Some (Writing ips), d <| _cacheIps := _cacheIps d ++ [ip] |>, k)
  | Writing [] => (Some Signalling, d, k)
  | Signalling =>
      let '(_, br, k) := SocketBreaker.Break (_retBreaker d) k in
      (None, d <| _retBreaker := br |>, k)
  end.

Definition is_writing (p : phase) : bool := match p with Writing _ => true | _ => false end.

(** No thread is writing the cache. *)
Definition quiet (d : t) : bool := negb (existsb is_writing (threads d)).

(** A step of one thread, which does not begin to write while another writes. *)
Inductive thread_step : t * K → t * K → Prop :=
| thread_goes l1 p l2 p' d k d' k' :
    threads d = l1 ++ p :: l2 → __GetIps p d k = (p', d', k') →
    (from_option is_writing false p' = true → is_writing p = true ∨ quiet d = true) →
    thread_step (d, k) (d' <| threads := l1 ++ option_list p' ++ l2 |>, k').

(** Any number of steps without a data race: none of the threads is left writing, since
    GetHostByName may copy the cache next. *)
Definition queries (d : t) (k : K) (d' : t) (k' : K) : Prop :=
  rtc thread_step (d, k) (d', k') ∧ quiet d' = true.

(** The object, the breaker of the caller, the local [sel] and the system. *)
Record env : Type := mkEnv { self : t; breaker : SocketBreaker.t; sel : P; os : K }.
#[export] Instance env_rebuild : Rebuild env := λ e,
  mkEnv (self e) (breaker e) (sel e) (os e).
Abbreviation M := (ST env).

Definition get {A} (f : t → A) : M A := gets (λ e, f (self e)).
Definition set (f : t → t) : M unit := modify (λ e, e <| self := f (self e) |>).
Definition call {A} (f : K → A * K) : M A := λ e,
  let '(a, k) := f (os e) in Ret (a, e <| os := k |>).
Definition ret_Clear : M bool := λ e,
  let '(b, br, k) := SocketBreaker.Clear (_retBreaker (self e)) (os e) in
  Ret (b, e <| self := (self e) <| _retBreaker := br |> |> <| os := k |>).
Definition ret_ReCreate : M bool := λ e,
  let '(b, br, k) := SocketBreaker.ReCreate (_retBreaker (self e)) (os e) in
  Ret (b, e <| self := (self e) <| _retBreaker := br |> |> <| os := k |>).
Definition ret_Close : M unit := λ e,
  Ret ((), e <| os := SocketBreaker.Close (_retBreaker (self e)) (os e) |>).

(** Other threads run. *)
Definition interfere (others : t → K → t * K) : M unit := λ e,
  let '(d, k) := others (self e) (os e) in Ret ((), e <| self := d |> <| os := k |>).

Definition new_select : M unit := λ e,
  let '(p, k) := SocketSelect.new (breaker e) (os e) in
  Ret ((), e <| sel := SocketSelect.PreSelect (K:=K) p |> <| os := k |>).
Definition select (timeout : Z) : M Z := λ e,
  '(ret, p, br, k) ← SocketSelect.Select timeout (sel e) (breaker e) (os e);
  Ret (ret, e <| sel := p |> <| breaker := br |> <| os := k |>).
Definition delete_select : M unit :=
  modify (λ e, e <| os := SocketSelect.delete (sel e) (os e) |>).

(** The query on another thread; [None] when the caller's breaker ends it. *)
Definition query (others : t → K → t * K) (hostName : bytes) (timeout : Z)
    : M (option (list bytes)) :=
  interfere others;;
  cleared ← ret_Clear;
  (if negb cleared then ret_Close;; ret_ReCreate;; mret () else mret ());;
  set (λ d, d <| _hostName := hostName |>);;
  set (λ d, d <| threads := threads d ++ [Started] |>);;
  new_select;;
  fd ← get (λ d, SocketBreaker.BreakerFd (_retBreaker d));
  modify (λ e, e <| sel := SocketSelect.ExceptionFdSet (K:=K) fd (sel e) |>);;
  modify (λ e, e <| sel := SocketSelect.ReadFdSet (K:=K) fd (sel e) |>);;
  interfere others;;
  select (i32 timeout);;
  broken ← gets (λ e, SocketSelect.IsBreak (K:=K) (breaker e) (sel e));
  if (broken : bool) then delete_select;; mret None
  else
    interfere others;;
    race ← get (λ d, negb (quiet d));
    if (race : bool) then undefined
    else
      ips ← get _cacheIps;
      delete_select;;
      mret (Some ips).

Definition GetHostByName (others : t → K → t * K) (hostName backupIp : bytes) (timeout : Z)
    : M (bool * list bytes) :=
  call gettickcount;;
  hasHttpDns ← get _getHttpDns;
  fromHttp ← (if (hasHttpDns : bool) then call (httpDns hostName) else mret []);
  call gettickcount;;
  found ← (if bool_decide (fromHttp = []) then query others hostName timeout
           else mret (Some fromHttp));
  match found with
  | None => mret (false, [])
  | Some ips =>
      call gettickcount;;
      mret (true, if bool_decide (ips = []) then [backupIp] else ips)
  end.

End ops.
End DnsQuery.

(** The static member [_instance]. *)
Class DnsStatic (K : Type) := {
  dns_instance : K → option DnsQuery.t;
  set_dns_instance : DnsQuery.t → K → K;
}.
