(* ===== verification/DnsProps.v ===== *)
(** * DnsProps: what GetHostByName returns

    It returns, whatever the threads of the resolver do meanwhile, with addresses of
    one source; and a cache that is shared by all hosts. *)
From S2P Require Import Prelude Monad SocketBreaker TimeUtils Poll PollProps DnsQuery.
Import DnsQuery.

Section props.
Context {P K : Type} `{!SocketPollBase P K, !PipeKernel K, !Clock K, !Resolver K}.
Abbreviation env := (DnsQuery.env (P:=P) (K:=K)).

Lemma dns_wp_call {U : Prop} {A} (f : K → A * K) Φ (e : env) :
  (∀ a k, f (os e) = (a, k) → Φ a (e <| os := k |>)) → wpx U (call f) Φ e.
Proof. intros HΦ. unfold wpx, call. destruct (f _) as [a k]. by apply HΦ. Qed.

(** Renewing the breaker of the answer. *)
Lemma twp_renew Φ (e : env) :
  (∀ br k, Φ () (e <| self := (self e) <| _retBreaker := br |> |> <| os := k |>)) →
  twp (cleared ← ret_Clear;
       if negb cleared then ret_Close;; ret_ReCreate;; mret () else mret ()) Φ e.
Proof.
  intros HΦ. apply wp_bind. unfold wpx at 1, ret_Clear.
  destruct (SocketBreaker.Clear _ _) as [[b br] k]. destruct (negb b); [|apply HΦ].
  apply wp_bind. unfold wpx at 1, ret_Close. apply wp_bind. unfold wpx at 1, ret_ReCreate.
  destruct (SocketBreaker.ReCreate _ _) as [[b' br'] k']. apply HΦ.
Qed.

Lemma twp_interfere others Φ (e : env) :
  (∀ d k, others (self e) (os e) = (d, k) → Φ () (e <| self := d |> <| os := k |>)) →
  twp (interfere others) Φ e.
Proof. intros HΦ. unfold wpx, interfere. destruct (others _ _) as [d k]. by apply HΦ. Qed.

(** ** What the threads leave in the cache *)

(** The hosts that are looked for are of [H]; what the cache holds now, or will hold when
    the thread that writes it is done, is of [A]. *)
Definition ok_thread (H : bytes → Prop) (A : list bytes → Prop) (hostName : bytes)
    (cache : list bytes) (p : phase) : Prop :=
  match p with
  | Started => H hostName
  | Resolving h => H h
  | Writing l => A (cache ++ l)
  | Signalling => True
  end.

Definition sound (H : bytes → Prop) (A : list bytes → Prop) (d : t) : Prop :=
  Forall (ok_thread H A (_hostName d) (_cacheIps d)) (threads d) ∧
  (quiet d = true → A (_cacheIps d)) ∧
  (length (List.filter is_writing (threads d)) ≤ 1)%nat.

Lemma quiet_true d : quiet d = true ↔ List.filter is_writing (threads d) = [].
Proof.
  unfold quiet. rewrite negb_true_iff. induction (threads d) as [|p l IH]; simpl; [done|].
  by destruct (is_writing p).
Qed.

(** A thread that does not write does not depend on the cache. *)
Lemma ok_others H A h c c' (l : list phase) :
  List.filter is_writing l = [] → Forall (ok_thread H A h c) l → Forall (ok_thread H A h c') l.
Proof.
  intros Hw Hl. induction Hl as [|p l Hp Hl IH]; [done|]. simpl in Hw.
  destruct (is_writing p) eqn:Ep; [done|]. constructor; [by destruct p|by apply IH].
Qed.

(** The state after a step of a thread between [l1] and [l2]. *)
Lemma sound_after H A d (l1 l2 : list phase) o :
  threads d = l1 ++ option_list o ++ l2 →
  Forall (ok_thread H A (_hostName d) (_cacheIps d)) (l1 ++ l2) →
  from_option (ok_thread H A (_hostName d) (_cacheIps d)) True o →
  (from_option is_writing false o = false → List.filter is_writing (l1 ++ l2) = [] → A (_cacheIps d)) →
  (length (List.filter is_writing (l1 ++ l2)) +
   (if from_option is_writing false o then 1 else 0) ≤ 1)%nat →
  sound H A d.
Proof.
  intros Et [H1 H2]%Forall_app Ho Hq Hlen. unfold sound. rewrite quiet_true, Et.
  rewrite !List.filter_app in *. rewrite length_app in *. split_and!.
  - apply Forall_app. split; [done|]. destruct o; simpl in *; by try constructor.
  - destruct o as [p|]; simpl in *; [destruct (is_writing p)|]; intros [E1 E2]%app_eq_nil; auto;
      [done|apply Hq; [done|by rewrite E1, E2]..].
  - destruct o as [p|]; simpl in *; [destruct (is_writing p); simpl|]; lia.
Qed.

Lemma sound_step (H : bytes → Prop) (A : list bytes → Prop) d k d' k' :
  (∀ h ips k k', H h → getaddrinfo h k = (Some ips, k') → A ips) →
  thread_step (d, k) (d', k') → sound H A d →
  sound H A d' ∧ _hostName d' = _hostName d.
Proof.
  intros HA Hs (Hp & Hq & Hone). inversion Hs as [l1 p l2 p' ? ? d1 ? Et E Halone]; subst.
  rewrite Et in Hp, Hone. rewrite quiet_true, Et in Hq. rewrite quiet_true, Et in Halone.
  apply Forall_app in Hp as [Hp1 [Hp Hp2]%Forall_cons].
  assert (Forall (ok_thread H A (_hostName d) (_cacheIps d)) (l1 ++ l2)) as Hrest by (by apply Forall_app).
  rewrite !List.filter_app in *. rewrite !length_app in Hone. simpl in Hone, Hq, Halone.
  assert (is_writing p = true → List.filter is_writing (l1 ++ l2) = []) as Hothers.
  { intros Ew. rewrite Ew in Hone. simpl in Hone. rewrite List.filter_app.
    destruct (List.filter _ l1), (List.filter _ l2); simpl in *; done || lia. }
  destruct p as [|h|[|ip ips]|]; simpl in E, Hp.
  - injection E as <- <- <-. split; [|done]. apply (sound_after _ _ _ l1 l2 (Some (Resolving (_hostName d)))); [done|done|exact Hp| |].
    + intros _ Hf. apply Hq. by rewrite List.filter_app in Hf.
    + simpl in *. rewrite List.filter_app, length_app. lia.
  - destruct (getaddrinfo h k) as [[ips|] k1] eqn:Eg; injection E as <- <- <-; (split; [|done]).
    + simpl in Halone. destruct (Halone eq_refl) as [?|Hf]; [done|]. simpl in Hf.
      assert (List.filter is_writing (l1 ++ l2) = []) as Hf' by (by rewrite List.filter_app).
      apply (sound_after _ _ _ l1 l2 (Some (Writing ips))); simpl; [done|by eapply ok_others|by eapply HA|done|by rewrite Hf'].
    + apply (sound_after _ _ _ l1 l2 (Some Signalling)); [done|done|done| |].
      * intros _ Hf. apply Hq. by rewrite List.filter_app in Hf.
      * simpl in *. rewrite List.filter_app, length_app. lia.
  - injection E as <- <- <-. specialize (Hothers eq_refl). split; [|done].
    apply (sound_after _ _ _ l1 l2 (Some Signalling)); simpl; [done|done|done| |rewrite Hothers; simpl; lia].
    intros _ _. by rewrite app_nil_r in Hp.
  - injection E as <- <- <-. specialize (Hothers eq_refl). split; [|done].
    apply (sound_after _ _ _ l1 l2 (Some (Writing ips))); simpl; [done|by eapply ok_others|by rewrite <-app_assoc|done|by rewrite Hothers].
  - destruct (SocketBreaker.Break _ _) as [[b br] k1]. injection E as <- <- <-. split; [|done].
    apply (sound_after _ _ _ l1 l2 None); simpl; [done|done|done| |].
    + intros _ Hf. apply Hq. by rewrite List.filter_app in Hf.
    + simpl in *. rewrite List.filter_app, length_app. lia.
Qed.

Lemma sound_queries (H : bytes → Prop) (A : list bytes → Prop) d k d' k' :
  (∀ h ips k k', H h → getaddrinfo h k = (Some ips, k') → A ips) →
  queries d k d' k' → sound H A d → sound H A d'.
Proof.
  intros HA [Hs _]. remember (d, k) as s eqn:Es. remember (d', k') as s' eqn:Es'.
  revert d k d' k' Es Es'. induction Hs as [|s1 s2 s3 H1 _ IH]; intros d k d' k' -> Es'.
  - by injection Es' as <- <-.
  - destruct s2 as [d2 k2]. intros Hd. destruct (sound_step _ _ _ _ _ _ HA H1 Hd) as [Hd2 _].
    by eapply IH.
Qed.

(** ** What the query leaves *)

(** Nothing when the caller's breaker ended it, else the cache, after the other threads
    have run. *)
Definition answered (others : t → K → t * K) (hostName : bytes) (d : t)
    (r : option (list bytes)) (e' : env) : Prop :=
  SocketSelect.IsBreak (K:=K) (breaker e') (sel e') = bool_decide (r = None) ∧
  ∀ ips, r = Some ips → ips = _cacheIps (self e') ∧
    ∃ k0 d1 k1 d2 d3 k3 d4 k4 k5 k6, others d k0 = (d1, k1) ∧
      d2 = d1 <| _retBreaker := _retBreaker d2 |> <| _hostName := hostName |>
              <| threads := threads d1 ++ [Started] |> ∧
      others d2 k3 = (d3, k4) ∧ others d3 k5 = (d4, k6) ∧ self e' = d4.

Lemma twp_query `{!PollReturns P K} others hostName timeout (e : env) :
  (∀ d k, quiet (fst (others d k)) = true) → 0 ≤ timeout → timeout * 1000 < 2 ^ 31 →
  twp (query others hostName timeout) (answered others hostName (self e)) e.
Proof.
  intros Hquiet H0 Ht. unfold query. apply wp_bind, twp_interfere. intros d1 k1 Eo0. simpl in Eo0.
  set (e1 := e <| self := d1 |> <| os := k1 |>). assert (self e1 = d1) as E1 by done. clearbody e1.
  assert (∀ (m : bool → ST env unit) (n : ST env (option (list bytes))) Φ,
    twp (b ← ret_Clear; m b) (λ _, wpx False n Φ) e1 → twp (b ← ret_Clear; m b;; n) Φ e1) as Hassoc.
  { intros m n Φ Hm. unfold wpx, mbind, ST_mbind, mbind, outcome_mbind, outcome_bind in *.
    destruct (ret_Clear e1) as [[b e2]| | |]; try done. by destruct (m b e2) as [[[] e3]| | |]. }
  apply Hassoc, twp_renew. intros br k0. apply wp_bind, wp_modify, wp_bind, wp_modify.
  apply wp_bind. unfold wpx at 1, new_select. destruct (SocketSelect.new _ _) as [p1 kp].
  apply wp_bind, wp_gets, wp_bind, wp_modify, wp_bind, wp_modify.
  apply wp_bind, twp_interfere. intros d2 k2 Eo1. simpl in Eo1.
  apply wp_bind. unfold wpx at 1, select. simpl. unfold SocketSelect.Select.
  rewrite i32_small by lia.
  edestruct (poll_returns (P:=P) (K:=K)) as (ret & p' & br' & k3 & ->); [exact Ht|]. simpl.
  apply wp_bind, wp_gets. simpl. destruct (SocketSelect.IsBreak br' p') eqn:Hb.
  - apply wp_bind, wp_modify, wp_mret. split; [exact Hb|by intros ? [=]].
  - apply wp_bind, twp_interfere. intros d4 k4 Eo2. simpl in Eo2.
    apply wp_bind, wp_gets. simpl. pose proof (Hquiet d2 k3) as Hq4. rewrite Eo2 in Hq4. simpl in Hq4.
    rewrite Hq4. simpl. apply wp_bind, wp_gets, wp_bind, wp_modify, wp_mret. split; [exact Hb|].
    intros ips [= <-]. split; [done|]. do 10 eexists. split_and!; [exact Eo0| |exact Eo1|exact Eo2|done].
    simpl. by rewrite E1.
Qed.

(** Where the addresses come from: the callback for HTTP DNS; the system's resolver,
    asked for this host or for one that a thread of an earlier query is still looking
    for; what the cache held before, with what a thread is about to write to it; or the
    backup address alone. *)
Definition looked_for (d : t) (hostName h : bytes) : Prop :=
  h = hostName ∨ Resolving h ∈ threads d ∨ Started ∈ threads d ∧ h = _hostName d.

Definition left_in_cache (d : t) (ips : list bytes) : Prop :=
  ips = _cacheIps d ∨ ∃ l, Writing l ∈ threads d ∧ ips = _cacheIps d ++ l.

Definition source_of (d : t) (hostName backupIp : bytes) (ips : list bytes) : Prop :=
  (∃ k k', httpDns hostName k = (ips, k')) ∨
  (∃ h k k', looked_for d hostName h ∧ getaddrinfo h k = (Some ips, k')) ∨
  left_in_cache d ips ∨ ips = [backupIp].

(** At most one thread is writing: there has been no race so far. *)
Definition no_race (d : t) : Prop := (length (List.filter is_writing (threads d)) ≤ 1)%nat.

Lemma answered_source others hostName d ips (e' : env) :
  (∀ d k d' k', others d k = (d', k') → queries d k d' k') → no_race d →
  answered others hostName d (Some ips) e' →
  (∃ h k k', looked_for d hostName h ∧ getaddrinfo h k = (Some ips, k')) ∨ left_in_cache d ips.
Proof.
  intros Hothers Hone [_ Ha].
  destruct (Ha ips eq_refl) as [-> (k0 & d1 & k1 & d2 & d3 & k3 & d4 & k4 & k5 & k6 & E0 & E2 & E3 & E4 & ->)].
  set (H := looked_for d hostName).
  set (A := λ ips, (∃ h k k', H h ∧ getaddrinfo h k = (Some ips, k')) ∨ left_in_cache d ips).
  assert (∀ h ips k k', H h → getaddrinfo h k = (Some ips, k') → A ips) as HA by (left; eauto).
  assert (sound H A d) as Hd.
  { split_and!; [|by intros _; right; left|done]. apply Forall_forall. intros [|h|l|] Hp; simpl; try done.
    - by right; right.
    - by right; left.
    - right; right. by exists l. }
  apply Hothers in E0, E3, E4. pose proof (proj2 E0) as Hq1. pose proof (proj2 E4) as Hq4.
  pose proof (sound_queries _ _ _ _ _ _ HA E0 Hd) as Hd1.
  assert (sound H A d2) as Hd2.
  { destruct Hd1 as (Hf & Hq & _). rewrite quiet_true in Hq1. rewrite E2. split_and!; simpl.
    - apply Forall_app. split; [|constructor; [by left|constructor]].
      rewrite Forall_forall in *. intros [|h|l|] Hp; simpl; try done; [by left|by apply (Hf _ Hp)..].
    - intros _. by apply Hq, quiet_true.
    - rewrite List.filter_app, Hq1. simpl. lia. }
  pose proof (sound_queries _ _ _ _ _ _ HA E4 (sound_queries _ _ _ _ _ _ HA E3 Hd2)) as (_ & Hq & _).
  by apply Hq.
Qed.

Lemma twp_GetHostByName `{!PollReturns P K} others hostName backupIp timeout (e : env) :
  (∀ d k d' k', others d k = (d', k') → queries d k d' k') →
  0 ≤ timeout → timeout * 1000 < 2 ^ 31 →
  twp (GetHostByName others hostName backupIp timeout) (λ '(b, ips) e',
    (b = false → ips = [] ∧ SocketSelect.IsBreak (K:=K) (breaker e') (sel e') = true) ∧
    (b = true → ips ≠ [] ∧ (no_race (self e) → source_of (self e) hostName backupIp ips))) e.
Proof.
  intros Hothers H0 Ht. set (good := λ ips, no_race (self e) → source_of (self e) hostName backupIp ips).
  assert (Hend : ∀ ips (e' : env), good ips →
    let out := if bool_decide (ips = []) then [backupIp] else ips in out ≠ [] ∧ good out).
  { intros ips e' Hg. simpl. case_bool_decide; [|done]. split; [done|]. intros _. by do 3 right. }
  unfold GetHostByName. apply wp_bind, dns_wp_call. intros t1 k1 _.
  apply wp_bind, wp_gets, wp_bind.
  eapply wp_mono with (Φ := λ r e', self e' = self e ∧
    (r = [] ∨ ∃ k k', httpDns hostName k = (r, k'))).
  { simpl. destruct (_getHttpDns (self e)).
    - apply dns_wp_call. intros r k E. split; [done|]. right. by eexists _, _.
    - apply wp_mret. by split; [|left]. }
  intros r e1 [He1 Hr]. apply wp_bind, dns_wp_call. intros t2 k2 _. apply wp_bind.
  case_bool_decide as Hne.
  - eapply wp_mono; [apply twp_query; [|done|done]|].
    { intros d k. destruct (others d k) as [d' k'] eqn:E. by apply Hothers in E as [_ ?]. }
    intros [ips|] e2 Ha; [|apply wp_mret; by destruct Ha].
    apply wp_bind, dns_wp_call. intros t3 k3 _. apply wp_mret. split; [done|]. intros _.
    apply Hend; [done|]. intros Hrace. simpl in Ha. rewrite He1 in Ha.
    destruct (answered_source _ _ _ _ _ Hothers Hrace Ha) as [?|?]; [by right; left|by right; right; left].
  - apply wp_mret, wp_bind, dns_wp_call. intros t3 k3 _. apply wp_mret. split; [done|]. intros _.
    apply Hend; [done|]. intros _. destruct Hr as [?|Hr]; [done|by left].
Qed.

(** The part that the client uses. *)
Lemma GetHostByName_total `{!PollReturns P K} others hostName backupIp timeout (e : env) :
  (∀ d k d' k', others d k = (d', k') → queries d k d' k') →
  0 ≤ timeout → timeout * 1000 < 2 ^ 31 →
  ∃ b ips e', GetHostByName others hostName backupIp timeout e = Ret (b, ips, e') ∧
    (b = true → ips ≠ []).
Proof.
  intros Hothers H0 Ht.
  destruct (twp_elim _ _ _ (twp_GetHostByName others hostName backupIp timeout e Hothers H0 Ht))
    as ([b ips] & e' & E & _ & Hw). exists b, ips, e'. split; [done|]. by intros [? _]%Hw.
Qed.

(** C14: GetHostByName returns, if no thread writes the cache while it is copied.  It
    answers false, with no address, only if the breaker of the caller was raised; else
    it answers true with at least one address, and all of them come from one source: the
    callback for HTTP DNS; the system's resolver, asked for this host, or for the host of
    an earlier query whose thread was still under way; what the cache held before, or a
    thread was about to complete; or the backup address alone. *)
Theorem GetHostByName_answers `{!PollReturns P K} others hostName backupIp timeout (e : env) :
  (∀ d k d' k', others d k = (d', k') → queries d k d' k') → no_race (self e) →
  0 ≤ timeout → timeout * 1000 < 2 ^ 31 →
  ∃ b ips e', GetHostByName others hostName backupIp timeout e = Ret (b, ips, e') ∧
    (b = false → ips = [] ∧ SocketSelect.IsBreak (K:=K) (breaker e') (sel e') = true) ∧
    (b = true → ips ≠ [] ∧ source_of (self e) hostName backupIp ips).
Proof.
  intros Hothers Hrace H0 Ht.
  destruct (twp_elim _ _ _ (twp_GetHostByName others hostName backupIp timeout e Hothers H0 Ht))
    as ([b ips] & e' & E & Hf & Htr). exists b, ips, e'. split_and!; [done..|].
  intros [? Hs]%Htr. by split; [|apply Hs].
Qed.

(** The cache is not kept by host: without HTTP DNS, when no lookup brings an
    answer in time, whatever host is asked for, the addresses that an earlier
    lookup, of any host, has left are returned, and the backup address is not. *)
Theorem stale_addresses `{!PollReturns P K} others hostName backupIp timeout (e : env) :
  (∀ d k d' k', others d k = (d', k') → queries d k d' k') →
  (∀ d k, quiet d = true → _cacheIps (fst (others d k)) = _cacheIps d) →
  0 ≤ timeout → timeout * 1000 < 2 ^ 31 →
  quiet (self e) = true → _getHttpDns (self e) = false → _cacheIps (self e) ≠ [] →
  ∃ b ips e', GetHostByName others hostName backupIp timeout e = Ret (b, ips, e') ∧
    if b then ips = _cacheIps (self e)
    else SocketSelect.IsBreak (K:=K) (breaker e') (sel e') = true.
Proof.
  intros Hothers Hkeep H0 Ht Hq0 Hno Hne.
  assert (twp (GetHostByName others hostName backupIp timeout) (λ '(b, ips) e',
    if (b : bool) then ips = _cacheIps (self e)
    else SocketSelect.IsBreak (K:=K) (breaker e') (sel e') = true) e) as Hw.
  2:{ apply twp_elim in Hw as ([b ips] & e' & E & Hw). by exists b, ips, e'. }
  unfold GetHostByName. apply wp_bind, dns_wp_call. intros t1 k1 _.
  apply wp_bind, wp_gets, wp_bind. simpl. rewrite Hno. apply wp_mret.
  apply wp_bind, dns_wp_call. intros t2 k2 _. apply wp_bind. rewrite bool_decide_eq_true_2 by done.
  eapply wp_mono; [apply twp_query; [|done|done]|].
  { intros d k. destruct (others d k) as [d' k'] eqn:E. by apply Hothers in E as [_ ?]. }
  intros [ips|] e2 [Hb Ha]; [|by apply wp_mret].
  destruct (Ha ips eq_refl) as [-> (k0 & d1 & kb & d2 & d3 & k3 & d4 & k4 & k5 & k6 & E0 & E2 & E3 & E4 & E5)].
  apply wp_bind, dns_wp_call. intros t3 kt _. apply wp_mret.
  assert (_cacheIps (self e2) = _cacheIps (self e)) as Ec.
  { pose proof (Hkeep (self e) k0 Hq0) as H1. simpl in E0. rewrite E0 in H1.
    apply Hothers in E0 as [_ Hq1]. assert (quiet d2 = true) as Hq2.
    { apply quiet_true in Hq1. apply quiet_true. rewrite E2; simpl; by rewrite List.filter_app, Hq1. }
    pose proof (Hkeep d2 k3 Hq2) as H3. rewrite E3 in H3. apply Hothers in E3 as [_ Hq3].
    pose proof (Hkeep d3 k5 Hq3) as H4. rewrite E4 in H4. simpl in *.
    by rewrite E5, H4, H3, E2. }
  simpl. rewrite Ec. by rewrite bool_decide_eq_false_2.
Qed.

End props.
