(* ===== verification/TcpClient.v ===== *)
(** * TcpClient: the client (src/tcp_client.hpp, .cpp)

    The state [t] has the fields of the class, the alarms and the timer queue they
    share, the state [os] of what is outside, the program counter of the thread
    that __Run is, and the trace of what the application and the server observe.
    An operation is a function [M]; what a thread does between two points where
    other threads can intervene is one operation.  System.v composes them. *)
From stdpp Require Import sorting functions.
From S2P Require Import Prelude TcpError Sockets TcpIO Gzip FixHeader Message.
From S2P Require Import Monad SocketBreaker TimeUtils UnixSocket MessageQueue Alarm TcpDefine.
From S2P Require Import DnsQuery.

Definition kDnsTimeout : Z := 2.
Definition kConnectTimeout : Z := 10 * 1000.
Definition kConnectInterval : Z := 4 * 1000.
Definition kConnectErrorInterval : Z := 0.
Definition kMaxConnectNum : Z := 3.
Definition kSocketTimeout : Z := 5.
Definition kPingInterval : Z := 60.
Definition kPingTimeout : Z := 5.
Definition kSendReqTimeout : Z := 10.

(** The names of the codes, for the log; set by the constructor. *)
Definition _disCodeMap : list (DisconnectCode * bytes) :=
  [(kDisCodeNone, str "none"); (kDisCodeReset, str "reset"); (kDisCodeNetChange, str "net change");
   (kDisCodeNetLost, str "net lost"); (kDisCodeKickout, str "kick out"); (kDisCodeLogout, str "logout");
   (kDisCodeConnectTimeout, str "connect timeout"); (kDisCodeSendReqTimeout, str "send req timeout");
   (kDisCodePingTimeout, str "ping timeout")].

Definition kRetConnFailed : Z := 0.
Definition kRetConnSuccess : Z := 1.
Definition kRetConnTimeout : Z := -1.
Definition kRetConnKickout : Z := -2.

Definition EAGAIN : Z := 11.
Definition UINT16_MAX : Z := 65535.

(** The alarms: the three of the client, and those of the pool by address. *)
Inductive alarm_id : Set :=
| ReconnectAlarm | PingAlarm | PingTimeoutAlarm | Pooled (l : positive).

(** The closures that the client gives to its alarms; [CbSendTimeout] captures the
    alarm it is given to. *)
Inductive closure : Set := CbReconnect | CbPing | CbPingTimeout | CbSendTimeout.

#[export] Instance alarm_id_eq_dec : EqDecision alarm_id.
Proof. solve_decision. Defined.

(** What SocketSelect reports after Select. *)
Record select_result : Set := mkSelect {
  selRet : Z;
  isException : bool;      (* the breaker *)
  exceptionFd : bool;
  writeFd : bool;
  readFd : bool;
}.

(** Where the thread of __Run is, with its local [loopStartTick]. *)
Inductive pc : Set :=
| PcStart
| PcConnecting
| PcHead (loopStartTick : Z)
| PcSelect (loopStartTick : Z) (hasMessage : bool)
| PcChecks (loopStartTick : Z) (r : select_result)
| PcWrite (loopStartTick : Z) (r : select_result)
| PcRead (loopStartTick : Z) (r : select_result)
| PcPing (loopStartTick : Z)
| PcExit
| PcDone.

(** What the client uses besides the operating system: the application's
    [_getConnectInfo], and the two components that find and open a connection.
    These two are given a breaker, which they change. *)
Class Services (S K : Type) := {
  getConnectInfo : K → bytes * K;
  GetHostByName : bytes → bytes → Z → ST (SocketBreaker.t * K) (bool * list bytes);
  ConnectImpatient : list AddrInfo → ST (SocketBreaker.t * K) (option S);
}.

Module TcpClient.
Section client.
Context {S K Q F : Type}.     (* F: OnSendRespCallback, when it is not null *)

(** What can be seen from outside. *)
Inductive event : Type :=
| EvStatus (status : ConnectStatus)                    (* _onStatusChange *)
| EvCallback (f : F) (code : ErrorCode) (payload : bytes)
| EvSendReq (type payload : bytes)                     (* _onSendReq *)
| EvServerDisconnect (code : SvrDisCode)               (* _onServerDisconnect *)
| EvWrite (m : MessageBase).                           (* handed to the socket *)

Record t : Type := mk {
  _host : bytes;
  _backupIp : bytes;
  _port : Z;
  _isTls : bool;
  _getConnectInfo : bool;          (* whether the callback is set *)
  _onStatusChange : bool;
  _onSendReq : bool;
  _onServerDisconnect : bool;
  _socket : option S;
  _reader : TcpReader.t S;
  _writer : TcpWriter.t S;
  _thread : option pc;             (* None: NULL *)
  _disCode : DisconnectCode;
  _connectStatus : ConnectStatus;
  _netType : NetType;
  _shouldReconnect : bool;
  _shouldNewBreaker : bool;
  _shouldNewConnBreaker : bool;
  _timeoutDisconnect : bool;
  _reconnectCount : Z;
  _lastConnTick : Z;
  _currentMsgId : Z;               (* uint16_t *)
  _messageQueue : list MessageBase;
  _callbackMap : gmap Z (option F);
  _timeoutAlarmMap : gmap Z alarm_id;
  _objectPool : list alarm_id;
  next_alarm : positive;           (* the address of the next new Alarm *)
  _readWriteBreaker : SocketBreaker.t;
  _connectBreaker : SocketBreaker.t;
  alarms : alarm_id → Alarm.t closure;
  timers : Q;
  os : K;
  trace : list event;
}.

#[export] Instance t_rebuild : Rebuild t := λ s,
  mk (_host s) (_backupIp s) (_port s) (_isTls s) (_getConnectInfo s) (_onStatusChange s)
     (_onSendReq s) (_onServerDisconnect s) (_socket s) (_reader s) (_writer s) (_thread s)
     (_disCode s) (_connectStatus s) (_netType s) (_shouldReconnect s) (_shouldNewBreaker s)
     (_shouldNewConnBreaker s) (_timeoutDisconnect s) (_reconnectCount s) (_lastConnTick s)
     (_currentMsgId s) (_messageQueue s) (_callbackMap s) (_timeoutAlarmMap s) (_objectPool s)
     (next_alarm s) (_readWriteBreaker s) (_connectBreaker s) (alarms s) (timers s) (os s)
     (trace s).

Abbreviation M := (ST t).

Definition emit (e : event) : M unit := modify (λ s, s <| trace := trace s ++ [e] |>).

(** A call of a service, or of an operation of the outside. *)
Definition call {A} (f : K → A * K) : M A := λ s,
  let '(a, k) := f (os s) in Ret (a, s <| os := k |>).

(** A call that is given [_connectBreaker]. *)
Definition with_connectBreaker {A} (m : ST (SocketBreaker.t * K) A) : M A :=
  zoom (λ s, (_connectBreaker s, os s))
       (λ '(br, k) s, s <| _connectBreaker := br |> <| os := k |>) m.

(** A call that can throw: the handler gets the exception. *)
Definition try_catch {A B} (f : K → result A * K) (handler : TcpException → M B) (body : A → M B)
    : M B := λ s,
  match f (os s) with
  | (Ret a, k) => body a (s <| os := k |>)
  | (Throw e, k) => handler e (s <| os := k |>)
  | (Undefined, _) => Undefined
  | (OutOfFuel, _) => OutOfFuel
  end.

Context `{!ISocket S K, !SocketControl S K, !Services S K}.
Context `{!PipeKernel K, !Clock K, !SockOpts K}.
Context `{!TimerQueue Q alarm_id, !Zlib}.

(** *** Calls on the members: breakers, alarms, the pool *)

Definition rw_Break : M bool := λ s,
  let '(b, br, k) := SocketBreaker.Break (_readWriteBreaker s) (os s) in
  Ret (b, s <| _readWriteBreaker := br |> <| os := k |>).
Definition conn_Break : M bool := λ s,
  let '(b, br, k) := SocketBreaker.Break (_connectBreaker s) (os s) in
  Ret (b, s <| _connectBreaker := br |> <| os := k |>).
Definition rw_Clear : M bool := λ s,
  let '(b, br, k) := SocketBreaker.Clear (_readWriteBreaker s) (os s) in
  Ret (b, s <| _readWriteBreaker := br |> <| os := k |>).
Definition conn_Clear : M bool := λ s,
  let '(b, br, k) := SocketBreaker.Clear (_connectBreaker s) (os s) in
  Ret (b, s <| _connectBreaker := br |> <| os := k |>).
Definition rw_ReCreate : M bool := λ s,
  let '(b, br, k) := SocketBreaker.ReCreate (_readWriteBreaker s) (os s) in
  Ret (b, s <| _readWriteBreaker := br |> <| os := k |>).
Definition conn_ReCreate : M bool := λ s,
  let '(b, br, k) := SocketBreaker.ReCreate (_connectBreaker s) (os s) in
  Ret (b, s <| _connectBreaker := br |> <| os := k |>).
Definition rw_Close : M unit := λ s,
  Ret ((), s <| os := SocketBreaker.Close (_readWriteBreaker s) (os s) |>).
Definition conn_Close : M unit := λ s,
  Ret ((), s <| os := SocketBreaker.Close (_connectBreaker s) (os s) |>).

Definition set_alarm (a : alarm_id) (al : Alarm.t closure) (s : t) : t :=
  s <| alarms := <[a := al]> (alarms s) |>.

Definition alarm_Start (a : alarm_id) (afterSec : Z) : M bool := λ s,
  '(b, al, q) ← Alarm.Start a (alarms s a) (timers s) (system_clock (os s)) afterSec;
  Ret (b, (set_alarm a al s) <| timers := q |>).
Definition alarm_Cancel (a : alarm_id) : M bool := λ s,
  '(b, al, q) ← Alarm.Cancel (A:=alarm_id) (alarms s a) (timers s);
  Ret (b, (set_alarm a al s) <| timers := q |>).
Definition alarm_SetCallback (a : alarm_id) (c : closure) : M unit :=
  modify (λ s, set_alarm a (Alarm.SetCallback (alarms s a) c) s).
Definition alarm_SetUserData (a : alarm_id) (d : Z) : M unit :=
  modify (λ s, set_alarm a (Alarm.SetUserData (alarms s a) d) s).

(** [_objectPool.Get()] *)
Definition pool_Get : M alarm_id := λ s,
  let '(a, pool) := ObjectPool.Get (_objectPool s) (Pooled (next_alarm s)) in
  let new := bool_decide (a = Pooled (next_alarm s)) in
  let s := s <| _objectPool := pool |> in
  Ret (a, if new then (set_alarm a (Alarm.new 0) s) <| next_alarm := Pos.succ (next_alarm s) |>
          else s).

(** The deleter of a pointer of the pool. *)
Definition pool_release (a : alarm_id) : M unit :=
  modify (λ s, s <| _objectPool := ObjectPool.release (_objectPool s) a |>).

(** *** Status and callbacks *)

Definition __SetConnectStatus (status : ConnectStatus) : M unit :=
  current ← gets _connectStatus;
  if decide (status = current) then mret ()
  else
    modify (λ s, s <| _connectStatus := status |>);;
    onStatusChange ← gets _onStatusChange;
    if (onStatusChange : bool) then emit (EvStatus status) else mret ().

Definition __GetCallback (messageId : Z) : M (option F) :=
  iter ← gets (λ s, _callbackMap s !! messageId);
  match iter with
  | Some callback =>
      modify (λ s, s <| _callbackMap := delete messageId (_callbackMap s) |>);;
      mret callback
  | None => mret None
  end.

(** A detached thread that calls the callback. *)
Definition async_call (callback : F) (code : ErrorCode) (payload : bytes) : M unit :=
  emit (EvCallback callback code payload).

(** *** MakeSureConnected and DisconnectAsync *)

Definition MakeSureConnected : M unit :=
  status ← gets _connectStatus;
  if decide (status = kConnected) then mret ()
  else
    thread ← gets _thread;
    match thread with
    | Some _ => mret ()
    | None =>
        modify (λ s, s <| _connectStatus := kConnectIdle |>
                       <| _disCode := kDisCodeNone |>
                       <| _shouldReconnect := true |>
                       <| _shouldNewBreaker := false |>
                       <| _shouldNewConnBreaker := false |>
                       <| _timeoutDisconnect := false |>);;
        rw_Clear;;
        conn_Clear;;
        modify (λ s, s <| _messageQueue := [] |>);;
        modify (λ s, s <| _thread := Some PcStart |>)
    end.

Definition DisconnectAsync (code : DisconnectCode) (shouldReconnect : bool) : M unit :=
  thread ← gets _thread;
  match thread with
  | None => if shouldReconnect then MakeSureConnected else mret ()
  | Some _ =>
      modify (λ s, s <| _disCode := code |> <| _shouldReconnect := shouldReconnect |>);;
      ok ← rw_Break;
      (if (ok : bool) then mret ()
       else rw_Close;; modify (λ s, s <| _shouldNewBreaker := true |>));;
      ok ← conn_Break;
      (if (ok : bool) then mret ()
       else conn_Close;; modify (λ s, s <| _shouldNewConnBreaker := true |>))
  end.

(** *** __WaitDisconnect, after the join *)

(** The ids of a std::map in the order of iteration. *)
Definition map_keys {V} (m : gmap Z V) : list Z :=
  merge_sort (≤) ((map_to_list m).*1).

(** The first loop: the alarm is cancelled, and goes to the pool at the end of the
    body. *)
Fixpoint cancel_timeouts (ids : list Z) : M unit :=
  match ids with
  | [] => mret ()
  | messageId :: ids =>
      iter ← gets (λ s, _timeoutAlarmMap s !! messageId);
      match iter with
      | Some alarm => alarm_Cancel alarm;; pool_release alarm;; cancel_timeouts ids
      | None => cancel_timeouts ids
      end
  end.

(** The second loop; the result is [false] when the function returns from it. *)
Fixpoint lose_callbacks (ids : list Z) : M bool :=
  match ids with
  | [] => mret true
  | messageId :: ids =>
      callback ← __GetCallback messageId;
      match callback with
      | None => mret false
      | Some callback => async_call callback kErrorCodeLoseConnect [];; lose_callbacks ids
      end
  end.

Definition __WaitDisconnect : M unit :=
  thread ← gets _thread;
  match thread with
  | None => mret ()
  | Some _ =>
      modify (λ s, s <| _thread := None |>);;
      timeoutMessageIds ← gets (λ s, map_keys (_timeoutAlarmMap s));
      cancel_timeouts timeoutMessageIds;;
      modify (λ s, s <| _timeoutAlarmMap := ∅ |>);;
      completed ← lose_callbacks timeoutMessageIds;
      if (completed : bool) then
        newBreaker ← gets _shouldNewBreaker;
        (if (newBreaker : bool) then rw_ReCreate;; mret () else mret ());;
        newConnBreaker ← gets _shouldNewConnBreaker;
        (if (newConnBreaker : bool) then conn_ReCreate;; mret () else mret ())
      else mret ()
  end.

(** *** Sending *)

Definition push (m : MessageBase) : M unit :=
  modify (λ s, s <| _messageQueue := _messageQueue s ++ [m] |>).

(** [data] is the pointer and the length, or a null pointer. *)
Definition Send (payloadType payload : bytes) (data : option (bytes * Z)) (func : option F)
    : M bool :=
  status ← gets _connectStatus;
  if negb (bool_decide (status = kConnected)) then
    match func with
    | Some func => async_call func kErrorCodeNotConnect [];; mret false
    | None => mret false
    end
  else
    id ← gets _currentMsgId;
    modify (λ s, s <| _callbackMap := <[id := func]> (_callbackMap s) |>);;
    let sendReq := SendReq.new 0 id payloadType payload in
    sendReq ← match data with
              | Some (data, dataLen) => checking (SendReq.SetData sendReq data dataLen)
              | None => mret sendReq
              end;
    push (MSendReq sendReq);;
    modify (λ s, s <| _currentMsgId := u16 (_currentMsgId s + 1) |>);;
    id ← gets _currentMsgId;
    (if id =? UINT16_MAX then modify (λ s, s <| _currentMsgId := 1 |>) else mret ());;
    rw_Break;;
    mret true.

Definition SendNoReply (type payload : bytes) : M bool :=
  status ← gets _connectStatus;
  if negb (bool_decide (status = kConnected)) then mret false
  else
    let sendReq := SendReq.SetReplyLevel (SendReq.new 0 0 type payload) SendReq.RLevelNoReply in
    push (MSendReq sendReq);;
    rw_Break;;
    mret true.

Definition SendDisconnect : M unit :=
  status ← gets _connectStatus;
  if negb (bool_decide (status = kConnected)) then mret ()
  else
    push (MDisconnect (Disconnect.new 0));;
    rw_Break;;
    mret ().

(** *** Setup *)

Definition InitHostAndPort (host backupIp : bytes) (port : Z) (isTls WITH_SSL getConnectInfo : bool)
    : M unit :=
  modify (λ s, s <| _host := host |> <| _backupIp := backupIp |> <| _port := u16 port |>
                 <| _isTls := WITH_SSL && isTls |> <| _getConnectInfo := getConnectInfo |>);;
  alarm_SetCallback ReconnectAlarm CbReconnect;;
  alarm_SetCallback PingAlarm CbPing;;
  alarm_SetCallback PingTimeoutAlarm CbPingTimeout.

Definition SetNetType (netType : NetType) : M unit :=
  modify (λ s, s <| _netType := netType |>).

Definition SetHttpDns `{!DnsStatic K} (getHttpDns : bool) : M unit :=
  call (λ k, let '(query, k) := DnsQuery.SharedQuery (dns_instance k) k in
             ((), set_dns_instance (DnsQuery.SetHttpDns query getHttpDns) k)).

(** The setters of the callbacks; [set] says whether the function is not null. *)
Definition SetOnConnStatusChange (set : bool) : M unit :=
  modify (λ s, s <| _onStatusChange := set |>).
Definition SetOnServerDisconnect (set : bool) : M unit :=
  modify (λ s, s <| _onServerDisconnect := set |>).
Definition SetOnSendReq (set : bool) : M unit := modify (λ s, s <| _onSendReq := set |>).

Definition GetConnectStatus : M ConnectStatus := gets _connectStatus.

(** The constructor.  The client of the library is a static object, so that the
    fields without initialiser are zero; [q] is the shared timer queue. *)
Definition new (q : Q) (k : K) : t :=
  let '(rw, k) := SocketBreaker.new k in
  let '(conn, k) := SocketBreaker.new k in
  {| _host := []; _backupIp := []; _port := 0; _isTls := false; _getConnectInfo := false;
     _onStatusChange := false; _onSendReq := false; _onServerDisconnect := false;
     _socket := None; _reader := TcpReader.mk None; _writer := TcpWriter.mk None;
     _thread := None; _disCode := kDisCodeNone; _connectStatus := kConnectIdle;
     _netType := kNetTypeUnknown; _shouldReconnect := false; _shouldNewBreaker := false;
     _shouldNewConnBreaker := false; _timeoutDisconnect := false; _reconnectCount := 0;
     _lastConnTick := 0; _currentMsgId := 1; _messageQueue := []; _callbackMap := ∅;
     _timeoutAlarmMap := ∅; _objectPool := []; next_alarm := 1%positive;
     _readWriteBreaker := rw; _connectBreaker := conn; alarms _ := Alarm.new 0;
     timers := q; os := k; trace := [] |}.

(** *** The thread: connecting *)

(** The loop that repeats the addresses until there are three. *)
Fixpoint fill_addrs (n : nat) (ips : list bytes) (port : Z) (isTls : bool) (ipIndex : nat)
    (addrs : list AddrInfo) : option (list AddrInfo) :=
  if size addrs <? 3 then
    match n with
    | O => None
    | Datatypes.S n =>
        match ips !! ipIndex with
        | None => None
        | Some ip =>
            let ipIndex := Datatypes.S ipIndex in
            let ipIndex := if (length ips <=? ipIndex)%nat then O else ipIndex in
            fill_addrs n ips port isTls ipIndex (addrs ++ [mkAddrInfo ip port isTls])
        end
    end
  else Some addrs.

(** The Connect packet, and the answer.  The pointer that the code keeps to the
    decoded message is read after its owner is gone; the model reads the message
    as it was, and a message that is not a ConnAck is undefined behaviour. *)
Definition login : M Z :=
  hasInfo ← gets _getConnectInfo;
  if negb hasInfo then mret kRetConnFailed
  else
    call gettickcount;;
    connectInfo ← call (getConnectInfo (S:=S));
    let connect := Connect.mk (newHeader kMsgConnect 0) kProtocolName kProtocolVersion
                     kPingInterval connectInfo kEnableGzip in
    writer ← gets _writer;
    reader ← gets _reader;
    try_catch (EncodeMessage (TcpWriter.Write writer) (MConnect connect))
      (λ _, mret kRetConnFailed)
      (λ _,
        emit (EvWrite (MConnect connect));;
        try_catch (run (TcpReader.ReadFull reader) DecodeMessage)
          (λ e, mret (if GetErrno e =? EAGAIN then kRetConnTimeout else kRetConnFailed))
          (λ m,
            match m with
            | MConnAck connAck =>
                returnRet ←
                  match ConnAck._returnCode connAck with
                  | ConnAck.RetCodeAccepted => mret (u8 kRetConnSuccess)
                  | ConnAck.RetCodeNotAuthorized =>
                      modify (λ s, s <| _shouldReconnect := false |>);;
                      mret (u8 kRetConnKickout)
                  | _ => mret (u8 kRetConnFailed)
                  end;
                call gettickcount;;
                mret (i8 returnRet)
            | _ => undefined
            end)).

(** The part of __RunConnect after the addresses are known. *)
Definition open_socket (addrs : list AddrInfo) : M Z :=
  socket ← with_connectBreaker (ConnectImpatient addrs);
  modify (λ s, s <| _socket := socket |>);;
  match socket with
  | None => mret kRetConnFailed
  | Some sock =>
      if sock_IsInvalid (K:=K) sock then mret kRetConnFailed
      else
        let socketFd := sock_GetSocket (K:=K) sock in
        ret ← call (setsockopt socketFd (SO_RCVTIMEO kSocketTimeout));
        if negb (ret =? 0) then mret kRetConnFailed
        else
          ret ← call (setsockopt socketFd (SO_SNDTIMEO kSocketTimeout));
          if negb (ret =? 0) then mret kRetConnFailed
          else
            modify (λ s, s <| _writer := TcpWriter.mk (Some sock) |>
                           <| _reader := TcpReader.mk (Some sock) |>);;
            netType ← gets _netType;
            (if decide (netType = kNetTypeWifi)
             then call (socket_fix_tcp_mss socketFd);; mret () else mret ());;
            call (socket_disable_nagle socketFd 1);;
            login
  end.

(** __RunConnect after the status is set. *)
Definition __RunConnect : M Z :=
  currentTick ← call gettickcount;
  lastConnTick ← gets _lastConnTick;
  let lastConnDuration := u64 (currentTick - lastConnTick) in
  (if (lastConnDuration <? 300000) || (lastConnTick =? 0) then
     count ← gets _reconnectCount;
     if 5 <? count then modify (λ s, s <| os := sleep_for 1 (os s) |>) else mret ()
   else modify (λ s, s <| _reconnectCount := 0 |>));;
  netType ← gets _netType;
  if decide (netType = kNetTypeNoNet) then
    modify (λ s, s <| _shouldReconnect := false |>);; mret kRetConnFailed
  else
    host ← gets _host;
    backupIp ← gets _backupIp;
    if bool_decide (host = []) then mret kRetConnFailed
    else if bool_decide (backupIp = []) then mret kRetConnFailed
    else
      '(dnsRet, ips) ← with_connectBreaker (GetHostByName (S:=S) host backupIp kDnsTimeout);
      if negb dnsRet then mret kRetConnFailed
      else
        port ← gets _port;
        isTls ← gets _isTls;
        match fill_addrs 3 ips port isTls 0 [] with
        | None => undefined          (* ips[0] of an empty vector *)
        | Some addrs => open_socket addrs
        end.

(** __Run up to the read-write loop, after __SetConnectStatus(kConnecting). *)
Definition run_connecting : M unit :=
  ret ← __RunConnect;
  let status := if ret =? kRetConnSuccess then kConnected
                else if ret =? kRetConnKickout then kConnectKickout
                else kConnectFailed in
  __SetConnectStatus status;;
  if ret =? kRetConnSuccess then
    loopStartTick ← call gettickcount;
    modify (λ s, s <| _thread := Some (PcHead loopStartTick) |>)
  else if ret =? kRetConnTimeout then
    socket ← gets _socket;
    match socket with
    | None => undefined
    | Some sock =>
        call (setsockopt (sock_GetSocket (K:=K) sock) (SO_LINGER 1 0));;
        modify (λ s, s <| _thread := Some PcExit |>)
    end
  else modify (λ s, s <| _thread := Some PcExit |>).

(** The end of __Run. *)
Definition run_exit : M unit :=
  socket ← gets _socket;
  (match socket with
   | Some sock =>
       call (sock_Close sock);;
       modify (λ s, s <| _socket := None |>)
   | None => mret ()
   end);;
  __SetConnectStatus kDisconnected;;
  alarm_Start ReconnectAlarm 0;;
  modify (λ s, s <| _thread := Some PcDone |>).

(** *** Messages received *)

Definition __handleSendReq (sendReq : SendReq.t) : M unit :=
  onSendReq ← gets _onSendReq;
  if (onSendReq : bool) then emit (EvSendReq (SendReq._type sendReq) (SendReq._payload sendReq))
  else mret ().

Definition __handleSendResp (sendResp : SendResp.t) : M unit :=
  let messageId := SendResp._messageId sendResp in
  iter ← gets (λ s, _timeoutAlarmMap s !! messageId);
  match iter with
  | Some alarm =>
      alarm_Cancel alarm;;
      modify (λ s, s <| _timeoutAlarmMap := delete messageId (_timeoutAlarmMap s) |>);;
      pool_release alarm
  | None => mret ()
  end;;
  callback ← __GetCallback messageId;
  match callback with
  | Some callback => async_call callback kErrorCodeNone (SendResp._payload sendResp)
  | None => mret ()
  end.

Definition SvrDisCode_of (d : Disconnect.DisconnectType) : SvrDisCode :=
  match d with
  | Disconnect.DiscTypeNone => SvrDisNone
  | Disconnect.DiscTypeKickout => SvrDisKickout
  | Disconnect.DiscTypeOther v => SvrDisOther v
  end.

Definition __handleDisconnect (disconnect : Disconnect.t) : M unit :=
  let disCode := SvrDisCode_of (Disconnect._type disconnect) in
  (if decide (disCode = SvrDisKickout) then DisconnectAsync kDisCodeKickout false else mret ());;
  onServerDisconnect ← gets _onServerDisconnect;
  if (onServerDisconnect : bool) then emit (EvServerDisconnect disCode) else mret ().

(** *** The thread: the read-write loop

    Each function is one part of the body of the loop and sets the program counter
    to the next; [leave] is the destructor of the ScopeGuard and the return. *)

Definition goto (p : pc) : M unit := modify (λ s, s <| _thread := Some p |>).

Definition leave : M unit :=
  alarm_Cancel PingAlarm;;
  alarm_Cancel PingTimeoutAlarm;;
  goto PcExit.

(** Up to [sel.Select()]. *)
Definition rw_head (loopStartTick : Z) : M unit :=
  curTick ← call gettickcount;
  reconnectCount ← gets _reconnectCount;
  (if negb (reconnectCount =? 0) && (5 * 1000 <? u64 (curTick - loopStartTick))
   then modify (λ s, s <| _reconnectCount := 0 |>) else mret ());;
  waiting ← gets (λ s, Alarm.IsWaiting (alarms s PingAlarm));
  (if negb waiting then alarm_Start PingAlarm kPingInterval;; mret () else mret ());;
  queue ← gets _messageQueue;
  goto (PcSelect loopStartTick (negb (bool_decide (queue = [])))).

(** Select returns [r], and clears the breaker. *)
Definition rw_select (loopStartTick : Z) (r : select_result) : M unit :=
  rw_Clear;;
  goto (PcChecks loopStartTick r).

Definition rw_checks (loopStartTick : Z) (r : select_result) : M unit :=
  disCode ← gets _disCode;
  pingTimeout ← gets (λ s, Alarm.IsAlarm (alarms s PingTimeoutAlarm));
  if negb (bool_decide (disCode = kDisCodeNone)) then leave
  else if selRet r <? 0 then leave
  else if isException r then leave
  else if exceptionFd r then leave
  else if (pingTimeout : bool) then
    modify (λ s, s <| _disCode := kDisCodePingTimeout |>);; leave
  else goto (PcWrite loopStartTick r).

(** The timer of a request that has been written. *)
Definition start_timeout (messageId : Z) : M unit :=
  alarm ← pool_Get;
  alarm_SetUserData alarm messageId;;
  alarm_SetCallback alarm CbSendTimeout;;
  alarm_Start alarm kSendReqTimeout;;
  old ← gets (λ s, _timeoutAlarmMap s !! messageId);
  modify (λ s, s <| _timeoutAlarmMap := <[messageId := alarm]> (_timeoutAlarmMap s) |>);;
  match old with
  | Some old => pool_release old
  | None => mret ()
  end.

Definition rw_write (loopStartTick : Z) (r : select_result) : M unit :=
  queue ← gets _messageQueue;
  match queue with
  | message :: _ =>
      if writeFd r then
        writer ← gets _writer;
        try_catch (EncodeMessage (TcpWriter.Write writer) message)
          (λ _, leave)
          (λ _,
            emit (EvWrite message);;
            match message with
            | MSendReq sendReq => start_timeout (SendReq._messageId sendReq)
            | _ => mret ()
            end;;
            modify (λ s, s <| _messageQueue := tail (_messageQueue s) |>);;
            alarm_Cancel PingAlarm;;
            alarm_Start PingAlarm kPingInterval;;
            goto (PcRead loopStartTick r))
      else goto (PcRead loopStartTick r)
  | [] => goto (PcRead loopStartTick r)
  end.

Definition handle_message (message : MessageBase) : M unit :=
  match message with
  | MPingResp _ => alarm_Cancel PingTimeoutAlarm;; mret ()
  | MSendReq m => __handleSendReq m
  | MSendResp m => __handleSendResp m
  | MDisconnect m => __handleDisconnect m
  | _ => mret ()
  end.

Definition rw_read (loopStartTick : Z) (r : select_result) : M unit :=
  if readFd r then
    reader ← gets _reader;
    try_catch (run (TcpReader.ReadFull reader) DecodeMessage)
      (λ _, leave)
      (λ message, handle_message message;; goto (PcPing loopStartTick))
  else goto (PcPing loopStartTick).

Definition rw_ping (loopStartTick : Z) : M unit :=
  alarm ← gets (λ s, Alarm.IsAlarm (alarms s PingAlarm));
  if (alarm : bool) then
    writer ← gets _writer;
    let pingReq := MPingReq (PingReq.new 0) in
    try_catch (EncodeMessage (TcpWriter.Write writer) pingReq)
      (λ _, leave)
      (λ _,
        emit (EvWrite pingReq);;
        alarm_Cancel PingTimeoutAlarm;;
        alarm_Start PingTimeoutAlarm kPingTimeout;;
        goto (PcHead loopStartTick))
  else goto (PcHead loopStartTick).

(** One step of the thread; [r] is what a Select that returns now reports. *)
Definition thread_step (r : select_result) : M unit :=
  thread ← gets _thread;
  match thread with
  | Some PcStart => __SetConnectStatus kConnecting;; goto PcConnecting
  | Some PcConnecting => run_connecting
  | Some (PcHead tick) => rw_head tick
  | Some (PcSelect tick _) => rw_select tick r
  | Some (PcChecks tick r) => rw_checks tick r
  | Some (PcWrite tick r) => rw_write tick r
  | Some (PcRead tick r) => rw_read tick r
  | Some (PcPing tick) => rw_ping tick
  | Some PcExit => run_exit
  | Some PcDone | None => mret ()
  end.

(** *** Closures of the alarms, run by the thread of the timer queue *)

Definition on_reconnect : M unit :=
  __WaitDisconnect;;
  shouldReconnect ← gets _shouldReconnect;
  if (shouldReconnect : bool) then
    count ← gets _reconnectCount;
    count ← checking (int_range (count + 1));
    modify (λ s, s <| _reconnectCount := count |>);;
    MakeSureConnected
  else mret ().

Definition on_send_timeout (alarm : alarm_id) : M unit :=
  messageId ← gets (λ s, Alarm.GetUserData (alarms s alarm));
  iter ← gets (λ s, _timeoutAlarmMap s !! messageId);
  match iter with
  | Some old =>
      modify (λ s, s <| _timeoutAlarmMap := delete messageId (_timeoutAlarmMap s) |>);;
      pool_release old
  | None => mret ()
  end;;
  callback ← __GetCallback messageId;
  match callback with
  | None => mret ()
  | Some callback =>
      async_call callback kErrorCodeTimeout [];;
      status ← gets _connectStatus;
      timeoutDisconnect ← gets _timeoutDisconnect;
      if bool_decide (status = kConnected) && negb timeoutDisconnect then
        modify (λ s, s <| _timeoutDisconnect := true |>);;
        DisconnectAsync kDisCodeSendReqTimeout true
      else mret ()
  end.

Definition run_closure (alarm : alarm_id) (c : closure) : M unit :=
  match c with
  | CbReconnect => on_reconnect
  | CbPing | CbPingTimeout => rw_Break;; mret ()
  | CbSendTimeout => on_send_timeout alarm
  end.

(** The closure that an alarm posts, in two parts: under the lock, see
    [Alarm.callback], and the call of [_innerCallback], which is read then; calling an
    empty std::function throws, and nothing catches it. *)
Definition alarm_callback (alarm : alarm_id) : M bool :=
  fires ← gets (λ s, snd (Alarm.callback (alarms s alarm)));
  modify (λ s, set_alarm alarm (fst (Alarm.callback (alarms s alarm))) s);;
  mret fires.

Definition alarm_inner (alarm : alarm_id) : M unit :=
  inner ← gets (λ s, Alarm._innerCallback (alarms s alarm));
  match inner with
  | Some c => run_closure alarm c
  | None => undefined
  end.

End client.
Arguments event F : clear implicits.
Arguments t S K Q F : clear implicits.
End TcpClient.
