(* ===== verification/Connecting.v ===== *)
(** * Connecting: how the client finds and opens its connection

    The services of TcpClient, [GetHostByName] and [ConnectImpatient], made of the
    components DnsQuery and ComplexConnect, and the addresses that __RunConnect
    hands from the one to the other (src/tcp_client.cpp, 359-379). *)
From S2P Require Import Prelude Monad TcpError Sockets SocketBreaker TimeUtils UnixSocket.
From S2P Require Import Poll PollProps TcpDefine Connector ComplexConnect DnsQuery DnsProps.
From S2P Require Import ComplexProps ComplexEnds Gzip MessageQueue TcpClient.
Import TcpClient.

(** The connection of the client. *)
Definition complexConn : ComplexConnect.t :=
  ComplexConnect.mk (u32 kConnectTimeout) (u32 kConnectInterval) (u32 kConnectErrorInterval)
                    (u32 kMaxConnectNum).

(** The callback [_getConnectInfo] of the application. *)
Class Application (K : Type) := { connect_info : K → bytes * K }.

Section services.
Context {P K : Type} `{!SocketPollBase P K, !PipeKernel K, !Clock K, !SockOpts K}.
Context `{!Kernel K, !OpenSSL K, !SslStatic K, !ConnectKernel K, !BaseDelete}.
Context `{!Resolver K, !DnsStatic K, !Application K}.

(** The shared query; [others] are its threads, and [p] stands for the local [sel]
    before it is made. *)
Definition dns_GetHostByName (others : DnsQuery.t → K → DnsQuery.t * K) (p : P)
    (host backupIp : bytes) (timeout : Z) : ST (SocketBreaker.t * K) (bool * list bytes) :=
  λ '(br, k),
    let '(query, k) := DnsQuery.SharedQuery (dns_instance k) k in
    '(r, e) ← DnsQuery.GetHostByName others host backupIp timeout (DnsQuery.mkEnv query br p k);
    Ret (r, (DnsQuery.breaker e, set_dns_instance (DnsQuery.self e) (DnsQuery.os e))).

Definition services (others : DnsQuery.t → K → DnsQuery.t * K) (p : P) (fuel : nat)
    (WITH_SSL : bool) : Services AnySocket K := {|
  getConnectInfo := connect_info;
  GetHostByName := dns_GetHostByName others p;
  ConnectImpatient addrs := ComplexConnect.ConnectImpatient fuel p complexConn WITH_SSL addrs;
|}.


End services.

(** The addresses are repeated, in their order, until there are three. *)
Definition three (ips : list bytes) (port : Z) (isTls : bool) : list AddrInfo :=
  map (λ i, mkAddrInfo (nth (i mod length ips) ips []) port isTls) [0; 1; 2]%nat.


(** ** __RunConnect up to the connection *)
Section run.
Context {P K Q F : Type} `{!SocketPollBase P K, !PipeKernel K, !Clock K, !SockOpts K}.
Context `{!Kernel K, !OpenSSL K, !SslStatic K, !ConnectKernel K, !BaseDelete}.
Context `{!Resolver K, !DnsStatic K, !Application K, !PollReturns P K}.
Context `{!TimerQueue Q alarm_id, !Zlib}.
Context (others : DnsQuery.t → K → DnsQuery.t * K) (p : P) (fuel : nat) (WITH_SSL : bool).
Context (Hothers : ∀ d k d' k', others d k = (d', k') → DnsQuery.queries d k d' k').
#[local] Instance the_services : Services AnySocket K := services others p fuel WITH_SSL.
Abbreviation client := (TcpClient.t AnySocket K Q F).


Lemma with_connectBreaker_ret {A} (m : ST (SocketBreaker.t * K) A) (c : client) a br k :
  m (_connectBreaker c, os c) = Ret (a, (br, k)) →
  with_connectBreaker m c = Ret (a, c <| _connectBreaker := br |> <| os := k |>).
Proof. intros E. unfold with_connectBreaker, zoom. by rewrite E. Qed.


End run.

(** ** The connection is opened or given up *)
Section opening.
Context {P K Q F : Type} `{!SocketPollBase P K, !PipeKernel K, !Clock K, !SockOpts K}.
Context `{!Kernel K, !OpenSSL K, !SslStatic K, !ConnectKernel K, !BaseDelete}.
Context `{!Resolver K, !DnsStatic K, !Application K, !PollReturns P K, !Ticking K, !PollTicks P}.
Context (others : DnsQuery.t → K → DnsQuery.t * K) (p : P) (fuel : nat) (WITH_SSL : bool).
#[local] Instance services_here : Services AnySocket K := services others p fuel WITH_SSL.
Abbreviation client := (TcpClient.t AnySocket K Q F).

Lemma complexConn_sane : sane complexConn.
Proof. by split_and!. Qed.

Lemma three_supported ips port isTls :
  (isTls = true → WITH_SSL = true ∧ handshake_waits (K:=K)) →
  supported (K:=K) WITH_SSL (three ips port isTls).
Proof.
  intros Htls. unfold supported, three. repeat constructor; simpl; destruct isTls; simpl;
    rewrite ?andb_false_r; try done; by destruct (Htls eq_refl) as [-> ?].
Qed.

(** With the timeouts of the client (10 s, 4 s, 0 s) and three addresses. *)
Lemma opening_ends ips (c : client) :
  base_delete = true →
  (_isTls c = true → WITH_SSL = true ∧ handshake_waits (K:=K)) → 190000000019 ≤ Z.of_nat fuel →
  let addrs := three ips (_port c) (_isTls c) in
  (∃ socket c', with_connectBreaker (ConnectImpatient addrs) c = Ret (socket, c')) ∨
  ∃ s, running complexConn (before_loop complexConn WITH_SSL addrs p (_connectBreaker c) (os c)) s ∧
    late (ms (os c)) s.
Proof.
  intros Hdelete Htls Hfuel addrs.
  destruct (connect_returns complexConn WITH_SSL addrs p (_connectBreaker c) (os c) fuel)
    as [[[socket [br k]] E]|?]; [done|exact complexConn_sane|by apply three_supported|done| |by right].
  left. eexists socket, _. by apply with_connectBreaker_ret.
Qed.

End opening.
