(* ===== verification/ConnectDemo.v ===== *)
(** * ConnectDemo: a concrete system, and the witnesses for the connectors,
    ConnectImpatient and GetHostByName

    A clock that stands still, sockets that are numbered, of which epoll reports the
    newest as writable, and a resolver that knows one address. *)
From S2P Require Import Prelude Monad TcpError Sockets SocketBreaker TimeUtils UnixSocket.
From S2P Require Import Poll PollProps TcpDefine Connector ConnectorProps.
From S2P Require Import ComplexConnect ComplexProps ComplexTurns DnsQuery DnsProps.
From S2P Require Import Gzip MessageQueue Alarm TcpClient Connecting.

Module Net.

Record t : Set := mk { ms : Z; open : gset Z; next : Z }.

#[export] Instance pipes : PipeKernel t := {|
  pipe k := (Some (3, 4), k);
  fcntl_getfl fd k := (0, k);
  fcntl_setfl fd f k := (0, k);
  pipe_write fd bs k := (1, k);
  pipe_read fd len k := (-1, k);
  pipe_close fd k := k;
|}.

#[export] Instance clock : Clock t := {|
  clock_gettime id k := (Some (mkTimespec (ms k / 1000) (ms k mod 1000 * 1000000)), k);
  gettimeofday k := (ms k / 1000, 0, k);
  sleep_for sec k := k;
  system_clock := ms;
|}.

#[export] Instance options : SockOpts t := {|
  setsockopt fd o k := (0, k);
  getsockopt fd o k := (0, 0, k);
  ioctl fd r k := (0, 0, k);
|}.

#[export] Instance kernel : Kernel t := {|
  recv fd len k := (Received [], k);
  send fd bs k := (Sent (size bs), k);
  close fd k := mk (ms k) (open k ∖ {[fd]}) (next k);
|}.

#[export] Instance ssl : OpenSSL t := {|
  SSL_CTX_new k := (Some 1, k);
  SSL_new c k := (Some 2, k);
  SSL_set_fd s fd k := k;
  SSL_connect s k := (-1, k);
  SSL_get_error s ret k := SSL_ERROR_WANT_READ;
  SSL_free s k := k;
  SSL_read s len k := (SslFail 0, k);
  SSL_write s bs k := (SslBytes bs, k);
|}.

#[export] Instance static : SslStatic t := {| get_ctx k := None; set_ctx c k := k |}.

#[export] Instance connections : ConnectKernel t := {|
  socket k :=
    if decide (next k ∈ open k ∨ next k = INVALID_SOCKET) then (INVALID_SOCKET, k)
    else (next k, mk (ms k) ({[next k]} ∪ open k) (next k + 1));
  connect fd a p k := (-1, EINPROGRESS, k);
  inet_addr ip := 0;
|}.

#[export] Instance epoll : SocketEpoll.EpollKernel t := {|
  SocketEpoll.epoll_create k := (7, k);
  SocketEpoll.epoll_close e k := k;
  SocketEpoll.epoll_ctl_add e ev k := (0, k);
  SocketEpoll.epoll_wait e max timeout k :=
    (1, [SocketEpoll.mkEvent SocketEpoll.EPOLLOUT (next k - 1)], 0, k);
|}.

#[export] Instance resolver : Resolver t := {|
  getaddrinfo host k :=
    (Some [if bool_decide (host = str "example.org") then str "10.0.0.1" else str "192.0.2.8"], k);
  httpDns host k := ([], k);
|}.

(** What only depends on the sockets and the clock is kept. *)
#[export] Instance kept (Q : t → Prop) : Kept Q.
Proof. done. Qed.

#[export] Instance epoll_kept (Q : t → Prop) : EpollKept Q.
Proof. done. Qed.

#[export] Program Instance ledger : Ledger t := {| opened := open; opened_kept X := kept _ |}.
Next Obligation.
  intros k fd k'. simpl. case_decide as Hd; intros [= <- <-]; simpl; [done|].
  destruct (Z.eqb_spec (next k) INVALID_SOCKET); [by destruct Hd; right|].
  split; [|done]. intros Hin. by destruct Hd; left.
Qed.
Next Obligation. done. Qed.

(** A connection to any address is under way at once. *)
Lemma net_startable a : ip a ≠ [] → startable (K:=t) a.
Proof.
  intros Hip. split; [done|]. intros k fd k1 r k2 now k3 ret errno k4 _ _ [= <- <-].
  split; [done|]. intros _ [= <- <- <-]. by right.
Qed.

#[export] Instance base : BaseDelete := true.

End Net.
#[local] Existing Instances Net.pipes Net.clock Net.options Net.kernel Net.ssl Net.static
  Net.connections Net.epoll Net.resolver Net.ledger Net.kept Net.epoll_kept Net.base.

Definition net : Net.t := Net.mk 5000 ∅ 10.
Definition a_breaker : SocketBreaker.t := SocketBreaker.mk 3 4 false.
Definition a_select : SocketEpoll.t := SocketEpoll.mk 7 [SocketEpoll.mkEvent 1 3] [] 0.
Definition an_addr (ip : bytes) : AddrInfo := mkAddrInfo ip 80 false.

(** ** Connectors *)
Module ConnectorDemo.
Import Connector.

Definition fresh_connector (ip : bytes) : env :=
  mkEnv (Connector.new TcpConnector (an_addr ip) 0 1000 0) a_select net.

(** Under way since 1 s, with 1 s to live. *)
Definition old_connector : Connector.t :=
  Connector.mk TcpConnector (an_addr (str "10.0.0.1")) (Some (Plain (TcpSocket.mk 5)))
    ConnStatusConnecting 0 1000 1000 0.

Lemma PreSelect_steps_witness :
  ∃ e', PreSelect (fresh_connector (str "10.0.0.1")) = Ret ((), e') ∧ wf (self e').
Proof.
  destruct (PreSelect_steps (fresh_connector (str "10.0.0.1"))) as (e' & E & Hw & _); [done|].
  by exists e'.
Defined.

Lemma AfterSelect_steps_witness :
  ∃ e', AfterSelect (mkEnv old_connector a_select net) = Ret ((), e') ∧ ¬ connecting (_status (self e')).
Proof.
  destruct (AfterSelect_steps (mkEnv old_connector a_select net))
    as (e' & E & _ & _ & _ & _ & _ & _ & Hleft); [|done|].
  { split; [by exists (Plain (TcpSocket.mk 5))|done]. }
  exists e'. split; [done|]. intros (now & k & Et & Hlt)%Hleft. vm_compute in Et.
  injection Et as <- _. by vm_compute in Hlt.
Defined.

Lemma failed_start_leaks_witness :
  ∃ e1 e2, PreConnectSelect (fresh_connector []) = Ret ((), e1) ∧ Close e1 = Ret ((), e2) ∧
    Net.open (os e2) = {[10]}.
Proof.
  destruct (failed_start_leaks (fresh_connector []) 10 (Net.mk 5000 {[10]} 11))
    as (e1 & E1 & Hleak); [done|done|by vm_compute|done|].
  assert (_status (self e1) = ConnStatusError) as Hs.
  { vm_compute in E1. by injection E1 as <-. }
  destruct (Hleak Hs) as (e2 & E2 & _ & Ho). exists e1, e2. split; [done|]. split; [done|].
  etransitivity; [exact Ho|]. by vm_compute.
Defined.

End ConnectorDemo.

(** ** ConnectImpatient *)
Module ComplexDemo.
Import ComplexConnect.

Definition cc : t := mk 10000 4000 0 3.
Definition addrs : list AddrInfo := [an_addr (str "10.0.0.1"); an_addr (str "10.0.0.2")].

Lemma demo_addrs : Forall (startable (K:=Net.t)) addrs.
Proof. do 2 (constructor; [by apply Net.net_startable|]). constructor. Qed.

Definition demo_run : checked (option AnySocket * (SocketBreaker.t * Net.t)) :=
  ConnectImpatient 2 a_select cc false addrs (a_breaker, net).
Definition returns (m : checked (option AnySocket * (SocketBreaker.t * Net.t))) : Prop :=
  match m with Ret (Some _, _) => True | _ => False end.

Lemma run_returns_elim m : returns m → ∃ r br k, m = Ret (Some r, (br, k)).
Proof. destruct m as [[[r|] [br k]]| | |]; [|done..]. by exists r, br, k. Qed.

Lemma demo_returns : ∃ r br k, demo_run = Ret (Some r, (br, k)).
Proof. apply run_returns_elim. vm_compute. exact I. Qed.

Lemma ConnectImpatient_closes_witness :
  ∃ r br' k', demo_run = Ret (Some r, (br', k')) ∧
    Net.open k' = list_to_set (ret_fds (Some r)).
Proof.
  destruct demo_returns as (r & br' & k' & E). exists r, br', k'. split; [exact E|].
  destruct (ConnectImpatient_closes 2 a_select cc false addrs a_breaker net (Some r) br' k'
              demo_addrs E) as [Ho _].
  etransitivity; [exact Ho|]. apply (left_id_L ∅ (∪)).
Defined.

Lemma at_most_maxConnect_witness :
  ∃ n timeout s', register cc (mkLocals (new_connectors cc false addrs) 1000 0 0 None a_select a_breaker net)
    = Ret (n, timeout, s') ∧ runningCount (connectors s') ≤ 3.
Proof.
  destruct (register cc _) as [[[n timeout] s']| | |] eqn:E; [|by vm_compute in E..].
  exists n, timeout, s'. split; [done|].
  by eapply (at_most_maxConnect cc false addrs 1000 a_select a_breaker net);
    [by vm_compute|apply turns_refl|exact E].
Defined.

Lemma deadline_last_turn_witness :
  ∃ s', iteration cc (mkLocals [Some ConnectorDemo.old_connector; None] 1000 0 2 None a_select a_breaker net)
    = Ret (true, s').
Proof.
  apply (deadline_last_turn (λ k, Net.ms k = 5000)); [done|done| |done|].
  - split; [done|]. intros [|[|i]] c; [|done|done]. intros [= <-].
    split_and!; [|by left|done|done|].
    + split; [by exists (Plain (TcpSocket.mk 5))|done].
    + intros [m o n] Hm. simpl in Hm. subst m. by vm_compute.
  - intros [m o n] Hm. simpl in Hm. subst m. by vm_compute.
Defined.

End ComplexDemo.

(** ** GetHostByName *)
Module DnsDemo.
Import DnsQuery.

(** A thread that runs to its end. *)
Definition thread_end (p : phase) (d : t) (k : Net.t) : t * Net.t :=
  let signal d k :=
    let '(_, br, k) := SocketBreaker.Break (_retBreaker d) k in (d <| _retBreaker := br |>, k) in
  let resolve h d k :=
    let '(result, k) := getaddrinfo h k in
    signal (match result with Some ips => d <| _cacheIps := ips |> | None => d end) k in
  match p with
  | Started => resolve (_hostName d) d k
  | Resolving h => resolve h d k
  | Writing l => signal (d <| _cacheIps := _cacheIps d ++ l |>) k
  | Signalling => signal d k
  end.

Lemma thread_ends l1 p l2 d k :
  threads d = l1 ++ p :: l2 → is_writing p = true ∨ quiet d = true →
  rtc thread_step (d, k) (let '(d', k') := thread_end p d k in (d' <| threads := l1 ++ l2 |>, k')).
Proof.
  assert (∀ d k, threads d = l1 ++ Signalling :: l2 →
    rtc thread_step (d, k) (let '(d', k') := thread_end Signalling d k in (d' <| threads := l1 ++ l2 |>, k')))
    as Hsignal.
  { clear. intros d k E. apply rtc_once. simpl.
    destruct (SocketBreaker.Break _ _) as [[b br] k'] eqn:Eb.
    apply (thread_goes l1 Signalling l2 None); [done| |done]. simpl. by rewrite Eb. }
  assert (∀ l d k, threads d = l1 ++ Writing l :: l2 →
    rtc thread_step (d, k) (let '(d', k') := thread_end (Writing l) d k in (d' <| threads := l1 ++ l2 |>, k')))
    as Hwrite.
  { intros l. induction l as [|ip l IH]; intros e k' E.
    - eapply rtc_l; [by apply (thread_goes l1 (Writing []) l2 (Some Signalling))|].
      etransitivity; [by apply Hsignal|]. destruct e. simpl. rewrite app_nil_r.
      destruct (SocketBreaker.Break _ _) as [[b br] kb]. apply rtc_refl.
    - eapply rtc_l; [by apply (thread_goes l1 (Writing (ip :: l)) l2 (Some (Writing l))); [| |left]|].
      etransitivity; [by apply IH|]. simpl. rewrite <-app_assoc.
      destruct (SocketBreaker.Break _ _) as [[b br] kb]. apply rtc_refl. }
  assert (∀ h d k, threads d = l1 ++ Resolving h :: l2 → quiet d = true →
    rtc thread_step (d, k) (let '(d', k') := thread_end (Resolving h) d k in (d' <| threads := l1 ++ l2 |>, k')))
    as Hresolve.
  { intros h e k' E Hq. eapply rtc_l; [by eapply (thread_goes l1 (Resolving h) l2 (Some (Writing _))); [| |right]|].
    etransitivity; [by apply Hwrite|]. simpl.
    destruct (SocketBreaker.Break _ _) as [[b br] kb]. apply rtc_refl. }
  intros E Hq. destruct p as [|h|l|]; [|destruct Hq; [done|by apply Hresolve]|by apply Hwrite|by apply Hsignal].
  destruct Hq as [|Hq]; [done|].
  eapply rtc_l; [by apply (thread_goes l1 Started l2 (Some (Resolving (_hostName d))))|].
  etransitivity; [apply Hresolve; [done|]|].
  - revert Hq. unfold quiet. simpl. by rewrite E, !existsb_app.
  - destruct d. simpl. destruct (SocketBreaker.Break _ _) as [[b br] kb]. apply rtc_refl.
Qed.

(** The threads that write go on to their ends. *)
Fixpoint settle (l1 l2 : list phase) (d : t) (k : Net.t) : t * Net.t :=
  match l2 with
  | [] => (d, k)
  | p :: l2 =>
      if is_writing p then
        let '(d, k) := thread_end p d k in settle l1 l2 (d <| threads := l1 ++ l2 |>) k
      else settle (l1 ++ [p]) l2 d k
  end.
Definition settled (d : t) (k : Net.t) : t * Net.t := settle [] (threads d) d k.

Lemma settle_queries l1 l2 d k :
  threads d = l1 ++ l2 → List.filter is_writing l1 = [] →
  queries d k (settle l1 l2 d k).1 (settle l1 l2 d k).2.
Proof.
  revert l1 d k. induction l2 as [|p l2 IH]; intros l1 d k E Hf; simpl.
  - split; [done|]. rewrite quiet_true, E, List.filter_app, Hf. done.
  - destruct (is_writing p) eqn:Ep.
    + pose proof (thread_ends l1 p l2 d k E (or_introl Ep)) as Hend.
      destruct (thread_end p d k) as [d' k'].
      destruct (IH l1 (d' <| threads := l1 ++ l2 |>) k') as [H Hq]; [done..|].
      split; [|done]. by etransitivity.
    + apply IH; [by rewrite E, <-app_assoc|]. rewrite List.filter_app, Hf. simpl. by rewrite Ep.
Qed.

(** Then the first thread runs to its end. *)
Definition first (d : t) (k : Net.t) : t * Net.t :=
  let '(d, k) := settled d k in
  match threads d with
  | [] => (d, k)
  | p :: l => let '(d, k) := thread_end p d k in (d <| threads := l |>, k)
  end.

Lemma settle_cache l1 l2 d k :
  List.filter is_writing l2 = [] → _cacheIps (settle l1 l2 d k).1 = _cacheIps d.
Proof.
  revert l1. induction l2 as [|p l2 IH]; intros l1 Hf; [done|]. simpl in *.
  destruct (is_writing p); [done|]. by apply IH.
Qed.

Lemma settled_queries d k d' k' : settled d k = (d', k') → queries d k d' k'.
Proof. intros E. pose proof (settle_queries [] (threads d) d k eq_refl eq_refl) as H. unfold settled in E. by rewrite E in H. Qed.

Lemma first_queries d k d' k' : first d k = (d', k') → queries d k d' k'.
Proof.
  unfold first. destruct (settled d k) as [d1 k1] eqn:E. apply settled_queries in E as [Hs Hq].
  destruct (threads d1) as [|p l] eqn:Et; [by intros [= <- <-]|].
  pose proof (thread_ends [] p l d1 k1 Et (or_intror Hq)) as Hend.
  destruct (thread_end p d1 k1) as [d2 k2]. intros [= <- <-]. split; [by etransitivity|].
  apply quiet_true in Hq. apply quiet_true. rewrite Et in Hq. simpl in *. by destruct (is_writing p).
Qed.

(** The cache holds the address of another host, whose thread still looks for it. *)
Definition dns : t :=
  mk (str "other.org") [str "192.0.2.7"] a_breaker false [Resolving (str "other.org")].
Definition dns_env : env := mkEnv dns a_breaker a_select net.
Definition ask (others : t → Net.t → t * Net.t) : checked (bool * list bytes * env) :=
  GetHostByName others (str "example.org") (str "10.9.9.9") 2 dns_env.

Lemma GetHostByName_answers_witness :
  ∃ b ips e', ask first = Ret (b, ips, e') ∧
    (b = true → ips ≠ []).
Proof.
  destruct (GetHostByName_answers first (str "example.org") (str "10.9.9.9") 2 dns_env)
    as (b & ips & e' & E & _ & Ht); [exact first_queries|by unfold no_race; simpl; lia|done|done|].
  exists b, ips, e'. split; [done|]. by intros [? _]%Ht.
Defined.

Lemma stale_addresses_witness :
  ∃ b ips e', ask settled = Ret (b, ips, e') ∧
    if b then ips = [str "192.0.2.7"] else SocketSelect.IsBreak (K:=Net.t) (breaker e') (sel e') = true.
Proof.
  apply (stale_addresses settled (str "example.org") (str "10.9.9.9") 2 dns_env); try done.
  - exact settled_queries.
  - intros d k Hq. apply quiet_true in Hq. by apply settle_cache.
Defined.

(** What the thread of the other host finds is the answer when it is the first to end. *)
Example late_answer :
  match ask (λ d k, if bool_decide (length (threads d) = 2%nat) then first d k else settled d k) with
  | Ret (b, ips, _) => b = true ∧ ips = [str "192.0.2.8"]
  | _ => False
  end.
Proof. vm_compute. by split. Qed.

(** A thread that begins to write just before the cache is copied. *)
Definition one_step (d : t) (k : Net.t) : t * Net.t :=
  match threads d with
  | Started :: l | Resolving _ :: l =>
      let '(p, d, k) := __GetIps (hd Started (threads d)) d k in (d <| threads := option_list p ++ l |>, k)
  | _ => (d, k)
  end.
Example copy_race : ask one_step = Undefined.
Proof. by vm_compute. Qed.

End DnsDemo.

(** ** The client *)
Module RunConnectDemo.
Import TcpClient.
#[local] Existing Instance Stored.zlib.

#[local] Instance dns_static : DnsStatic Net.t :=
  {| dns_instance k := Some DnsDemo.dns; set_dns_instance d k := k |}.
#[local] Instance application : Application Net.t := {| connect_info k := (str "token", k) |}.
#[local] Instance the_services : Services AnySocket Net.t :=
  services DnsDemo.first a_select 5 false.



End RunConnectDemo.
