(* ===== verification/EndsDemo.v ===== *)
(** * EndsDemo: a system in which time passes, and the witness for ComplexEnds

    No peer answers: epoll reports nothing, and takes its timeout and a nanosecond. *)
From S2P Require Import Prelude Monad TcpError Sockets SocketBreaker TimeUtils UnixSocket.
From S2P Require Import Poll PollProps TcpDefine Connector ConnectorProps.
From S2P Require Import ComplexConnect ComplexProps ComplexTurns ComplexEnds ConnectDemo.

Module Silent.

Record t : Set := mk { ns : Z; next : Z }.

#[export] Instance pipes : PipeKernel t := {|
  pipe k := (Some (3, 4), k);
  fcntl_getfl fd k := (0, k);
  fcntl_setfl fd f k := (0, k);
  pipe_write fd bs k := (1, k);
  pipe_read fd len k := (-1, k);
  pipe_close fd k := k;
|}.

#[export] Instance clock : Clock t := {|
  clock_gettime id k := (Some (mkTimespec (ns k / 10 ^ 9) (ns k mod 10 ^ 9)), k);
  gettimeofday k := (ns k / 10 ^ 9, 0, k);
  sleep_for sec k := mk (ns k + Z.max 0 sec * 10 ^ 9) (next k);
  system_clock := ns;
|}.

#[export] Instance options : SockOpts t := {|
  setsockopt fd o k := (0, k);
  getsockopt fd o k := (0, 0, k);
  ioctl fd r k := (0, 0, k);
|}.

#[export] Instance kernel : Kernel t := {|
  recv fd len k := (Received [], k);
  send fd bs k := (Sent (size bs), k);
  close fd k := k;
|}.

#[export] Instance ssl : OpenSSL t := {|
  SSL_CTX_new k := (Some 1, k);
  SSL_new c k := (Some 2, k);
  SSL_set_fd s fd k := k;
  SSL_connect s k := (-1, k);
  SSL_get_error s ret k := SSL_ERROR_WANT_READ;
  SSL_free s k := k;
  SSL_read s len k := (SslFail 0, k);
  SSL_write s bs k := (SslBytes bs, k);
|}.

#[export] Instance static : SslStatic t := {| get_ctx k := None; set_ctx c k := k |}.

#[export] Instance connections : ConnectKernel t := {|
  socket k := (next k, mk (ns k) (next k + 1));
  connect fd a p k := (-1, EINPROGRESS, k);
  inet_addr ip := 0;
|}.

#[export] Instance epoll : SocketEpoll.EpollKernel t := {|
  SocketEpoll.epoll_create k := (7, k);
  SocketEpoll.epoll_close e k := k;
  SocketEpoll.epoll_ctl_add e ev k := (0, k);
  SocketEpoll.epoll_wait e max timeout k :=
    (0, [], 0, mk (ns k + Z.max 0 timeout * 1000000 + 1) (next k));
|}.

#[export] Program Instance ticking : Ticking t := {| nanos := ns |}.
Next Obligation.
  intros k. unfold tick. simpl. unfold u64. rewrite !Zmult_mod_idemp_l, <-!Zplus_mod. f_equal.
  pose proof (Z.mod_pos_bound (ns k) (10 ^ 9)). rewrite Z.quot_div_nonneg by lia.
  rewrite (Z.div_mod (ns k) (10 ^ 9)) at 3 by lia.
  replace (10 ^ 9 * (ns k / 10 ^ 9)) with ((ns k / 10 ^ 9 * 1000) * 1000000) by lia.
  by rewrite Z.div_add_l by lia.
Qed.
Next Obligation. by split. Qed.
Next Obligation. intros k. simpl. lia. Qed.
Next Obligation. intros fd k. simpl. lia. Qed.

Lemma add_all_id e l k : SocketEpoll.add_all (K:=t) e l k = k.
Proof. by induction l. Qed.

Lemma poll_later (p : SocketEpoll.t) timeout br k ret p' br' k' :
  SocketEpoll.Poll p timeout br k = Ret (ret, p', br', k') → ns k < ns k'.
Proof.
  unfold SocketEpoll.Poll, SocketEpoll.Poll_start, SocketEpoll.Poll_wait. destruct (poll_timeout timeout) as [w| | |]; [|done..].
  simpl. rewrite add_all_id. unfold SocketBreaker.Clear. simpl. intros [= _ _ _ <-]. simpl. lia.
Qed.

#[export] Program Instance poll_ticking : PollTicks SocketEpoll.t (K:=t) := {|
  poll_keeps T := _; poll_ticks := poll_later |}.
Next Obligation.
  intros T. split; [done|done|]. intros p timeout br k ret p' br' k' E. simpl in *.
  apply poll_later in E. lia.
Qed.

#[export] Instance base : BaseDelete := true.

End Silent.
#[local] Existing Instances Silent.pipes Silent.clock Silent.options Silent.kernel Silent.ssl
  Silent.static Silent.connections Silent.epoll Silent.ticking Silent.poll_ticking Silent.base.

Definition silent : Silent.t := Silent.mk (5 * 10 ^ 9) 10.

Module ImpatientDemo.
Import ComplexConnect ComplexDemo.

Lemma sane_cc : sane cc.
Proof. by split_and!. Qed.
(** One address with TLS and one without. *)
Definition two : list AddrInfo := [mkAddrInfo (str "10.0.0.1") 443 true; an_addr (str "10.0.0.2")].

Lemma handshakes : handshake_waits (K:=Silent.t).
Proof. split; [done|]. by intros ssl status k _. Qed.
Lemma two_supported : supported (K:=Silent.t) true two.
Proof. constructor; [exact handshakes|]. constructor; [done|]. constructor. Qed.

Lemma ConnectImpatient_returns_witness :
  (∃ r, ConnectImpatient (Z.to_nat (max_turns cc two)) a_select cc true two (a_breaker, silent) = Ret r) ∨
  (∃ s, running cc (before_loop cc true two a_select a_breaker silent) s ∧ late (ComplexEnds.ms silent) s).
Proof.
  apply (ConnectImpatient_returns cc true two a_select a_breaker silent);
    [done|exact sane_cc|exact two_supported|rewrite Z2Nat.id; [done|by vm_compute]].
Defined.

(** The interval is 4 s, and select waits for 10 s. *)
Lemma interval_ignored_witness :
  ∃ t s', register cc (before_loop cc true two a_select a_breaker silent) = Ret (1%nat, t, s') ∧ t = 10000.
Proof.
  destruct (interval_ignored cc true two a_select a_breaker silent sane_cc two_supported)
    as (t & s' & E & Hle); [done|by vm_compute|].
  exists t, s'. split; [exact E|]. vm_compute in E. by injection E as <- <-.
Defined.

(** The second address is tried after ten seconds instead of four, and with both
    timeouts nothing is left of trying them at once: the run takes twenty seconds. *)
Example silent_run :
  match ConnectImpatient 8 a_select cc true two (a_breaker, silent) with
  | Ret (r, (_, k)) => r = None ∧ Silent.ns k / 10 ^ 9 = 25
  | _ => False
  end.
Proof. vm_compute. by split. Qed.

End ImpatientDemo.

(** ** A handshake that does not wait *)
Module HangDemo.
Import ComplexConnect ComplexDemo.

#[local] Instance eager : OpenSSL Silent.t := {|
  SSL_CTX_new k := (Some 1, k);
  SSL_new c k := (Some 2, k);
  SSL_set_fd s fd k := k;
  SSL_connect s k := (1, k);
  SSL_get_error s ret k := SSL_ERROR_NONE;
  SSL_free s k := k;
  SSL_read s len k := (SslFail 0, k);
  SSL_write s bs k := (SslBytes bs, k);
|}.

Definition handshaking : Connector.t :=
  Connector.mk Connector.SSLConnector (mkAddrInfo (str "10.0.0.1") 443 true)
    (Some (Tls (SSLSocket.new 10))) ConnStatusStartSSL 0 10000 5000 5001.

Lemma early_handshake_hangs_witness :
  ¬ ∃ r, loop 100 cc (mkLocals [Some handshaking] 5000 0 1 None a_select a_breaker silent) = Ret r.
Proof.
  intros [r E]. revert E. apply (early_handshake_hangs (P:=SocketEpoll.t) (K:=Silent.t)).
  - intros s k. by eexists _, _.
  - intros p timeout br k ret p' br' k' Ep. simpl in Ep.
    unfold SocketEpoll.Poll, SocketEpoll.Poll_start, SocketEpoll.Poll_wait in Ep. destruct (poll_timeout timeout) as [w| | |]; [|done..].
    simpl in Ep. rewrite Silent.add_all_id in Ep. unfold SocketBreaker.Clear in Ep. simpl in Ep.
    by injection Ep as <- <- <- _.
  - split_and!; [|done|done]. exists handshaking. split; [done|]. split_and!; [done|done|by eexists].
Defined.

End HangDemo.
