(* ===== verification/Logic.v ===== *)
(** * Logic: a program logic for the operations of the client

    The rules of Monad.v for the functions of TcpClient.v: one rule for each
    primitive, and the tactic [wp_run], which applies them. *)
From stdpp Require Import functions.
From S2P Require Import Prelude TcpError Sockets TcpIO Gzip FixHeader Message.
From S2P Require Import Monad SocketBreaker TimeUtils UnixSocket MessageQueue Alarm TcpDefine TcpClient.
Import TcpClient.

Section logic.
Context {S K Q F : Type}.
Context `{!ISocket S K, !SocketControl S K, !Services S K}.
Context `{!PipeKernel K, !Clock K, !SockOpts K}.
Context `{!TimerQueue Q alarm_id, !Zlib}.
Abbreviation client := (TcpClient.t S K Q F).
Abbreviation M := (ST client).

Section rules.
Context {U : Prop}.

Lemma wp_emit e Φ (c : client) : Φ () (c <| trace := trace c ++ [e] |>) → wpx U (emit e) Φ c.
Proof. done. Qed.
Lemma wp_call {A} (f : K → A * K) Φ (c : client) :
  (∀ a k, Φ a (c <| os := k |>)) → wpx U (call f) Φ c.
Proof. intros HΦ. unfold wpx, call. destruct (f _) as [a k]. apply HΦ. Qed.
Lemma wp_breaker (op : SocketBreaker.t → K → bool * SocketBreaker.t * K)
    (get : client → SocketBreaker.t) (put : SocketBreaker.t → client → client) Φ c :
  (∀ b br k, Φ b ((put br c) <| os := k |>)) →
  wpx U (λ s, let '(b, br, k) := op (get s) (os s) in Ret (b, (put br s) <| os := k |>)) Φ c.
Proof. intros HΦ. unfold wpx. destruct (op _ _) as [[b br] k]. apply HΦ. Qed.

Lemma wp_rw_Break Φ (c : client) :
  (∀ b br k, Φ b (c <| _readWriteBreaker := br |> <| os := k |>)) → wpx U rw_Break Φ c.
Proof. apply (wp_breaker SocketBreaker.Break _readWriteBreaker (λ br s, s <| _readWriteBreaker := br |>)). Qed.
Lemma wp_conn_Break Φ (c : client) :
  (∀ b br k, Φ b (c <| _connectBreaker := br |> <| os := k |>)) → wpx U conn_Break Φ c.
Proof. apply (wp_breaker SocketBreaker.Break _connectBreaker (λ br s, s <| _connectBreaker := br |>)). Qed.
Lemma wp_rw_Clear Φ (c : client) :
  (∀ b br k, Φ b (c <| _readWriteBreaker := br |> <| os := k |>)) → wpx U rw_Clear Φ c.
Proof. apply (wp_breaker SocketBreaker.Clear _readWriteBreaker (λ br s, s <| _readWriteBreaker := br |>)). Qed.
Lemma wp_conn_Clear Φ (c : client) :
  (∀ b br k, Φ b (c <| _connectBreaker := br |> <| os := k |>)) → wpx U conn_Clear Φ c.
Proof. apply (wp_breaker SocketBreaker.Clear _connectBreaker (λ br s, s <| _connectBreaker := br |>)). Qed.
Lemma wp_rw_ReCreate Φ (c : client) :
  (∀ b br k, Φ b (c <| _readWriteBreaker := br |> <| os := k |>)) → wpx U rw_ReCreate Φ c.
Proof. apply (wp_breaker SocketBreaker.ReCreate _readWriteBreaker (λ br s, s <| _readWriteBreaker := br |>)). Qed.
Lemma wp_conn_ReCreate Φ (c : client) :
  (∀ b br k, Φ b (c <| _connectBreaker := br |> <| os := k |>)) → wpx U conn_ReCreate Φ c.
Proof. apply (wp_breaker SocketBreaker.ReCreate _connectBreaker (λ br s, s <| _connectBreaker := br |>)). Qed.
Lemma wp_rw_Close Φ (c : client) : (∀ k, Φ () (c <| os := k |>)) → wpx U rw_Close Φ c.
Proof. intros HΦ. apply HΦ. Qed.
Lemma wp_conn_Close Φ (c : client) : (∀ k, Φ () (c <| os := k |>)) → wpx U conn_Close Φ c.
Proof. intros HΦ. apply HΦ. Qed.

Lemma wp_pool_Get Φ (c : client) :
  (∀ a c', c' = c <| _objectPool := _objectPool c' |> <| alarms := alarms c' |>
                  <| next_alarm := next_alarm c' |> → Φ a c') →
  wpx U pool_Get Φ c.
Proof.
  intros HΦ. unfold wpx, pool_Get. destruct (ObjectPool.Get _ _) as [b pool].
  apply HΦ. by destruct c, (bool_decide _).
Qed.

End rules.

(** The operations that may not return. *)

Lemma wp_with_connectBreaker {A} (m : ST (SocketBreaker.t * K) A) Φ (c : client) :
  (∀ a br k, Φ a (c <| _connectBreaker := br |> <| os := k |>)) → wp (with_connectBreaker m) Φ c.
Proof. intros HΦ. apply wp_zoom_any. by intros a [br k]. Qed.
Lemma wp_try {A B} (f : K → result A * K) h (b : A → M B) Φ (c : client) :
  (∀ e k, wp (h e) Φ (c <| os := k |>)) → (∀ a k, wp (b a) Φ (c <| os := k |>)) →
  wp (try_catch f h b) Φ c.
Proof.
  intros Hh Hb. unfold wpx, try_catch. destruct (f _) as [[]]; try done; [apply Hb|apply Hh].
Qed.
Lemma wp_alarm_Start a sec Φ (c : client) :
  (∀ b al q, Φ b ((set_alarm a al c) <| timers := q |>)) → wp (alarm_Start a sec) Φ c.
Proof.
  intros HΦ. unfold wpx, alarm_Start. destruct (Alarm.Start _ _ _ _ _) as [[[b' al] q]| | |]; try done.
  apply HΦ.
Qed.
Lemma wp_alarm_Cancel a Φ (c : client) :
  (∀ b al q, Φ b ((set_alarm a al c) <| timers := q |>)) → wp (alarm_Cancel a) Φ c.
Proof.
  intros HΦ. unfold wpx, alarm_Cancel. destruct (Alarm.Cancel _ _) as [[[b' al] q]| | |]; try done.
  apply HΦ.
Qed.

(** What SetData returns, if it returns. *)
Lemma SetData_spec m d n m' :
  SendReq.SetData m d n = Ret m' ↔
  0 ≤ n ≤ size d ∧ m' = SendReq.with_data m (take (Z.to_nat n) d).
Proof.
  unfold SendReq.SetData. destruct (_ && _) eqn:E.
  - apply andb_true_iff in E as [?%Z.leb_le ?%Z.leb_le]. split; [by intros [= ->]|].
    by intros [_ ->].
  - split; [done|]. intros [[?%Z.leb_le ?%Z.leb_le] _]. by destruct (_ <=? _), (_ <=? _).
Qed.

(** The timer queue keeps its contract. *)
Definition timers_ok (c : client) : Prop := ∃ es, tq_holds (C:=alarm_id) (timers c) es.

(** ** The operations on alarms return *)

Lemma Alarm_Start_total (a : alarm_id) (al : Alarm.t closure) (q : Q) now sec :
  (∃ es, tq_holds (C:=alarm_id) q es) →
  ∃ b al' q', Alarm.Start a al q now sec = Ret (b, al', q') ∧
              ∃ es, tq_holds (C:=alarm_id) q' es.
Proof.
  intros [es Hq]. unfold Alarm.Start. destruct (Alarm._innerCallback al); [|eauto 10].
  case_decide; [eauto 10|].
  destruct (tq_post_law q es now sec a Hq) as (q' & -> & _ & Hq' & _). eauto 10.
Qed.

Lemma Alarm_Cancel_total (al : Alarm.t closure) (q : Q) :
  (∃ es, tq_holds (C:=alarm_id) q es) →
  ∃ b al' q', Alarm.Cancel (A:=alarm_id) al q = Ret (b, al', q') ∧
              ∃ es, tq_holds (C:=alarm_id) q' es.
Proof.
  intros [es Hq]. unfold Alarm.Cancel. case_test; [eauto 10|].
  destruct (tq_cancel_law q es (Alarm._messageId al) Hq) as (b & q' & -> & Hq' & _). eauto 10.
Qed.

Lemma twp_alarm_Start a sec Φ (c : client) :
  timers_ok c →
  (∀ b al q, (∃ es, tq_holds (C:=alarm_id) q es) → Φ b ((set_alarm a al c) <| timers := q |>)) →
  twp (alarm_Start a sec) Φ c.
Proof.
  intros Hq HΦ. unfold wpx, alarm_Start.
  destruct (Alarm_Start_total a (alarms c a) (timers c) (system_clock (os c)) sec Hq)
    as (b & al & q' & -> & Hq'). by apply HΦ.
Qed.

Lemma twp_alarm_Cancel a Φ (c : client) :
  timers_ok c →
  (∀ b al q, (∃ es, tq_holds (C:=alarm_id) q es) → Φ b ((set_alarm a al c) <| timers := q |>)) →
  twp (alarm_Cancel a) Φ c.
Proof.
  intros Hq HΦ. unfold wpx, alarm_Cancel.
  destruct (Alarm_Cancel_total (alarms c a) (timers c) Hq) as (b & al & q' & -> & Hq'). by apply HΦ.
Qed.

End logic.

(** The next step of an operation. *)
Ltac wp_step :=
  lazymatch goal with
  | |- wpx _ (mret _) _ _ => apply wp_mret
  | |- wpx _ (_ ≫= _) _ _ => apply wp_bind
  | |- wpx _ (gets _) _ _ => apply wp_gets
  | |- wpx _ (modify _) _ _ => apply wp_modify
  | |- wpx _ (goto _) _ _ => apply wp_modify
  | |- wpx _ (emit _) _ _ => apply wp_emit
  | |- wpx _ (async_call _ _ _) _ _ => apply wp_emit
  | |- wpx _ (push _) _ _ => apply wp_modify
  | |- wpx _ (pool_release _) _ _ => apply wp_modify
  | |- wpx _ (alarm_SetCallback _ _) _ _ => apply wp_modify
  | |- wpx _ (alarm_SetUserData _ _) _ _ => apply wp_modify
  | |- wpx _ undefined _ _ => apply wp_undefined
  | |- wp (checking _) _ _ => apply wp_checking; intros ? ?
  | |- wpx _ (with_connectBreaker _) _ _ => apply wp_with_connectBreaker; intros ? ? ?
  | |- wpx _ (call _) _ _ => apply wp_call; intros ? ?
  | |- wpx _ (try_catch _ _ _) _ _ => apply wp_try; intros ? ?
  | |- wp (alarm_Start _ _) _ _ => apply wp_alarm_Start; intros ? ? ?
  | |- wp (alarm_Cancel _) _ _ => apply wp_alarm_Cancel; intros ? ? ?
  | |- twp (alarm_Start _ _) _ _ => apply twp_alarm_Start; [try done|intros ? ? ? ?]
  | |- twp (alarm_Cancel _) _ _ => apply twp_alarm_Cancel; [try done|intros ? ? ? ?]
  | |- wpx _ rw_Break _ _ => apply wp_rw_Break; intros ? ? ?
  | |- wpx _ conn_Break _ _ => apply wp_conn_Break; intros ? ? ?
  | |- wpx _ rw_Clear _ _ => apply wp_rw_Clear; intros ? ? ?
  | |- wpx _ conn_Clear _ _ => apply wp_conn_Clear; intros ? ? ?
  | |- wpx _ rw_ReCreate _ _ => apply wp_rw_ReCreate; intros ? ? ?
  | |- wpx _ conn_ReCreate _ _ => apply wp_conn_ReCreate; intros ? ? ?
  | |- wpx _ rw_Close _ _ => apply wp_rw_Close; intros ?
  | |- wpx _ conn_Close _ _ => apply wp_conn_Close; intros ?
  | |- wpx _ (match ?x with _ => _ end) _ _ => destruct x eqn:?
  | |- wpx _ (if ?x then _ else _) _ _ => destruct x eqn:?
  end.
Ltac wp_run := repeat (cbv beta zeta; wp_step).
