(* ===== verification/System.v ===== *)
(** * System: the client with its threads

    [step] interleaves what runs concurrently: calls of the application, the
    thread of __Run, the thread of the timer queue with the closures of the
    alarms, and the outside.  A step is one operation of TcpClient.v, each of
    which the code executes under a lock or on one thread between two points where
    it can be observed.  The thread of the timer queue takes three steps for a
    message, as in Alarm.v: the test whether it is cancelled, the part of the closure
    under the lock of the alarm, and the call of the inner callback; calls of the
    application and the thread of __Run come between them.  [sent] and [submitted]
    record, for the statements only, the callbacks and the messages that the
    application has handed over. *)
From S2P Require Import Prelude TcpError Sockets TcpIO Gzip FixHeader Message.
From S2P Require Import Monad SocketBreaker TimeUtils UnixSocket MessageQueue Alarm TcpDefine TcpClient Logic.
Import TcpClient.

Section system.
Context {S K Q F : Type}.
Context `{!ISocket S K, !SocketControl S K, !Services S K}.
Context `{!PipeKernel K, !Clock K, !SockOpts K}.
Context `{!TimerQueue Q alarm_id, !Zlib}.
Abbreviation client := (TcpClient.t S K Q F).
Abbreviation M := (ST client).

(** The calls of the application. *)
Inductive api : Type :=
| ApiMakeSureConnected
| ApiDisconnectAsync (code : DisconnectCode) (shouldReconnect : bool)
| ApiSend (type payload : bytes) (data : option (bytes * Z)) (func : option F)
| ApiSendNoReply (type payload : bytes)
| ApiSendDisconnect
| ApiSetNetType (netType : NetType)
| ApiWaitDisconnect         (* the second half of Disconnect *)
| ApiInitHostAndPort (host backupIp : bytes) (port : Z) (isTls WITH_SSL getConnectInfo : bool)
| ApiSetOnServerDisconnect (set : bool)
| ApiSetOnSendReq (set : bool).

(** Disconnect, and the destructor, which calls it with these arguments. *)
Definition Disconnect (code : DisconnectCode) (shouldReconnect : bool) : list api :=
  [ApiDisconnectAsync code shouldReconnect; ApiWaitDisconnect].
Definition destructor : list api := Disconnect kDisCodeReset false.

Definition discard {A} (m : M A) : M unit := m ≫= λ _, mret ().

Definition api_op (a : api) : M unit :=
  match a with
  | ApiMakeSureConnected => MakeSureConnected
  | ApiDisconnectAsync code b => DisconnectAsync code b
  | ApiSend ty p d f => discard (Send ty p d f)
  | ApiSendNoReply ty p => discard (SendNoReply ty p)
  | ApiSendDisconnect => SendDisconnect
  | ApiSetNetType n => SetNetType n
  | ApiWaitDisconnect => __WaitDisconnect
  | ApiInitHostAndPort host ip port tls ssl info => InitHostAndPort host ip port tls ssl info
  | ApiSetOnServerDisconnect b => SetOnServerDisconnect b
  | ApiSetOnSendReq b => SetOnSendReq b
  end.

(** [_thread->join()] returns once the thread has ended. *)
Definition joinable (c : client) : Prop :=
  match _thread c with None | Some PcDone => True | _ => False end.

Definition api_enabled (a : api) (c : client) : Prop :=
  match a with ApiWaitDisconnect => joinable c | _ => True end.

(** What a call hands over: the callback, and the message that it submits. *)
Definition api_callback (a : api) : list F :=
  match a with ApiSend _ _ _ (Some f) => [f] | _ => [] end.

Definition api_message (a : api) (c : client) : list MessageBase :=
  if decide (_connectStatus c = kConnected) then
    match a with
    | ApiSend ty p d _ =>
        let m := SendReq.new 0 (_currentMsgId c) ty p in
        [MSendReq (match d with
                   | Some (b, n) => SendReq.with_data m (take (Z.to_nat n) b)
                   | None => m
                   end)]
    | ApiSendNoReply ty p =>
        [MSendReq (SendReq.SetReplyLevel (SendReq.new 0 0 ty p) SendReq.RLevelNoReply)]
    | ApiSendDisconnect => [MDisconnect (Disconnect.new 0)]
    | _ => []
    end
  else [].

(** What the thread of the timer queue does with the message that it has taken last:
    it has tested that the message is not cancelled, or is about to call the inner
    callback of its alarm. *)
Inductive running : Set :=
| Tested (id : Z) (a : alarm_id)
| Calling (a : alarm_id).

Record sys : Type := mkSys {
  cl : client;
  current : option running;
  taken : list (Z * alarm_id);      (* the callbacks of the timer queue's round *)
  sent : list F;
  submitted : list MessageBase;
}.

Inductive step : sys → sys → Prop :=
| step_api s a c' :
    api_enabled a (cl s) → api_op a (cl s) = Ret ((), c') →
    step s (mkSys c' (current s) (taken s) (sent s ++ api_callback a) (submitted s ++ api_message a (cl s)))
| step_thread s r c' :
    thread_step r (cl s) = Ret ((), c') →
    step s (mkSys c' (current s) (taken s) (sent s) (submitted s))
| step_round s now l q :
    current s = None → taken s = [] → tq_drain (timers (cl s)) now = Ret (l, q) →
    step s (mkSys ((cl s) <| timers := q |>) None l (sent s) (submitted s))
| step_skip s id a l :
    current s = None → taken s = (id, a) :: l → id ∈ tq_cancelled (C:=alarm_id) (timers (cl s)) →
    step s (mkSys (cl s) None l (sent s) (submitted s))
| step_test s id a l :
    current s = None → taken s = (id, a) :: l →
    id ∉ tq_cancelled (C:=alarm_id) (timers (cl s)) →
    step s (mkSys (cl s) (Some (Tested id a)) l (sent s) (submitted s))
| step_callback s id a fires c' :
    current s = Some (Tested id a) → alarm_callback a (cl s) = Ret (fires, c') →
    step s (mkSys c' (if fires then Some (Calling a) else None) (taken s) (sent s) (submitted s))
| step_inner s a c' :
    current s = Some (Calling a) →
    (Alarm._innerCallback (alarms (cl s) a) = Some CbReconnect → joinable (cl s)) →
    alarm_inner a (cl s) = Ret ((), c') →
    step s (mkSys c' None (taken s) (sent s) (submitted s))
| step_outside s k :
    step s (mkSys ((cl s) <| os := k |>) (current s) (taken s) (sent s) (submitted s)).

(** SetHttpDns only reaches the static DnsQuery, which is outside. *)
Lemma step_SetHttpDns `{!DnsQuery.DnsStatic K} s getHttpDns c' :
  SetHttpDns getHttpDns (cl s) = Ret ((), c') → step s (mkSys c' (current s) (taken s) (sent s) (submitted s)).
Proof.
  unfold SetHttpDns, call. repeat case_match; intros E; simplify_eq; apply step_outside.
Qed.

(** The state of the constructor. *)
Definition initial (s : sys) : Prop :=
  _thread (cl s) = None ∧ _connectStatus (cl s) = kConnectIdle ∧ _currentMsgId (cl s) = 1 ∧
  _callbackMap (cl s) = ∅ ∧ _messageQueue (cl s) = [] ∧ trace (cl s) = [] ∧
  current s = None ∧ sent s = [] ∧ submitted s = [].

Lemma initial_new q k : initial (mkSys (new q k) None [] [] []).
Proof.
  unfold initial, new. destruct (SocketBreaker.new k) as [rw k1].
  destruct (SocketBreaker.new k1) as [conn k2]. by split_and!.
Qed.

Inductive reachable : sys → Prop :=
| reach_init s : initial s → reachable s
| reach_step s s' : reachable s → step s s' → reachable s'.

(** ** What the statements speak of *)

(** The callbacks that have been called, and those that wait. *)
Definition called (tr : list (event F)) : list F :=
  omap (λ e, match e with EvCallback f _ _ => Some f | _ => None end) tr.
Definition waiting (m : gmap Z (option F)) : list F := omap snd (map_to_list m).

(** The messages of the application that have been written. *)
Definition user_message (m : MessageBase) : bool :=
  match m with MSendReq _ | MDisconnect _ => true | _ => false end.
Definition written (tr : list (event F)) : list MessageBase :=
  omap (λ e, match e with
             | EvWrite m => if user_message m then Some m else None
             | _ => None
             end) tr.

Definition statuses (tr : list (event F)) : list ConnectStatus :=
  omap (λ e, match e with EvStatus s => Some s | _ => None end) tr.

Definition may_follow (a b : ConnectStatus) : Prop :=
  match a, b with
  | kDisconnected, kConnecting
  | kConnecting, (kConnected | kConnectFailed | kConnectKickout)
  | (kConnected | kConnectFailed | kConnectKickout), kDisconnected => True
  | _, _ => False
  end.

Fixpoint status_path (from : ConnectStatus) (l : list ConnectStatus) : Prop :=
  match l with
  | [] => True
  | s :: l => may_follow from s ∧ status_path s l
  end.

Definition status_of (p : option pc) (status : ConnectStatus) : Prop :=
  match p with
  | None => status = kConnectIdle ∨ status = kDisconnected
  | Some PcStart => status = kConnectIdle
  | Some PcConnecting => status = kConnecting
  | Some PcExit => status = kConnected ∨ status = kConnectFailed ∨ status = kConnectKickout
  | Some PcDone => status = kDisconnected
  | Some _ => status = kConnected
  end.

Definition last_status (l : list ConnectStatus) : ConnectStatus := default kDisconnected (last l).

Record Inv (sent : list F) (submitted : list MessageBase) (c : client) : Prop := mkInv {
  inv_id : 1 ≤ _currentMsgId c < UINT16_MAX;
  inv_status : status_of (_thread c) (_connectStatus c);
  inv_callbacks : called (trace c) ++ waiting (_callbackMap c) ⊆+ sent;
  inv_fifo : written (trace c) ++ _messageQueue c `sublist_of` submitted;
  inv_user : Forall (λ m, user_message m = true) (_messageQueue c);
  inv_path : _onStatusChange c = true →
    status_path kDisconnected (statuses (trace c)) ∧
    (if decide (_connectStatus c = kConnectIdle) then kDisconnected else _connectStatus c)
    = last_status (statuses (trace c));
}.

(** ** Lemmas on what the statements speak of *)

Lemma called_app (tr1 tr2 : list (event F)) : called (tr1 ++ tr2) = called tr1 ++ called tr2.
Proof. apply omap_app. Qed.
Lemma written_app (tr1 tr2 : list (event F)) : written (tr1 ++ tr2) = written tr1 ++ written tr2.
Proof. apply omap_app. Qed.
Lemma statuses_app (tr1 tr2 : list (event F)) :
  statuses (tr1 ++ tr2) = statuses tr1 ++ statuses tr2.
Proof. apply omap_app. Qed.

Lemma waiting_delete (m : gmap Z (option F)) id o :
  m !! id = Some o → waiting m ≡ₚ option_list o ++ waiting (delete id m).
Proof.
  intros E. unfold waiting. rewrite <-(map_to_list_delete m id o) by done. simpl. by destruct o.
Qed.

Lemma waiting_insert (m : gmap Z (option F)) id o :
  waiting (<[id := o]> m) ⊆+ option_list o ++ waiting m.
Proof.
  rewrite (waiting_delete _ id o) by (by rewrite lookup_insert, decide_True).
  rewrite delete_insert_eq. apply submseteq_app; [done|].
  destruct (m !! id) as [o'|] eqn:E.
  - rewrite (waiting_delete m id o') by done. by apply submseteq_inserts_l.
  - by rewrite delete_id.
Qed.

Lemma status_path_app from l s :
  status_path from l → may_follow (default from (last l)) s → status_path from (l ++ [s]).
Proof.
  revert from. induction l as [|x l IH]; intros from; simpl; [done|].
  intros [Hx Hl] Hs. split; [done|]. apply IH; [done|]. revert Hs.
  change (x :: l) with ([x] ++ l). rewrite last_app. by destruct (last l).
Qed.

Lemma last_status_snoc l s : last_status (l ++ [s]) = s.
Proof. unfold last_status. by rewrite last_snoc. Qed.

Lemma wp_GetCallback (U : Prop) id (Φ : option F → client → Prop) (c : client) :
  (∀ o m, (o = None → waiting m ⊆+ waiting (_callbackMap c)) →
          (∀ f, o = Some f → f :: waiting m ⊆+ waiting (_callbackMap c)) →
          Φ o (c <| _callbackMap := m |>)) →
  wpx U (__GetCallback id) Φ c.
Proof.
  intros HΦ. unfold __GetCallback. apply wp_bind, wp_gets.
  destruct (_callbackMap c !! id) as [o|] eqn:E.
  - apply wp_bind, wp_modify, wp_mret. apply HΦ.
    + intros ->. by rewrite (waiting_delete _ _ _ E).
    + intros f ->. by rewrite (waiting_delete _ _ _ E).
  - apply wp_mret. replace c with (c <| _callbackMap := _callbackMap c |>) by by destruct c.
    by apply HΦ.
Qed.

(** The operations that change nothing that the invariant speaks of. *)
Definition same (c c' : client) : Prop :=
  _thread c' = _thread c ∧ _connectStatus c' = _connectStatus c ∧
  _currentMsgId c' = _currentMsgId c ∧ _callbackMap c' = _callbackMap c ∧
  _messageQueue c' = _messageQueue c ∧ trace c' = trace c ∧
  _onStatusChange c' = _onStatusChange c.

Lemma client_Inv_same se su c c' : Inv se su c → same c c' → Inv se su c'.
Proof.
  intros [] (E1 & E2 & E3 & E4 & E5 & E6 & E7).
  constructor; rewrite ?E1, ?E2, ?E3, ?E4, ?E5, ?E6, ?E7; auto.
Qed.

Lemma same_trans c1 c2 c3 : same c1 c2 → same c2 c3 → same c1 c3.
Proof. unfold same. intros (?&?&?&?&?&?&?) (?&?&?&?&?&?&?). split_and!; congruence. Qed.
Lemma same_refl c : same c c.
Proof. by unfold same. Qed.


(** The invariant after assignments to the fields. *)
Ltac inv_done :=
  match goal with
  | Hinv : Inv _ _ ?c |- Inv _ _ _ =>
      first
        [ apply (client_Inv_same _ _ c); [exact Hinv|by split_and!]
        | destruct Hinv; constructor; simpl in *;
          rewrite ?called_app, ?written_app, ?statuses_app; simpl; rewrite ?app_nil_r; auto ]
  end.

Lemma same_cancel_timeouts ids (c : client) : wp (cancel_timeouts ids) (λ _ c', same c c') c.
Proof.
  revert c. induction ids as [|id ids IH]; intros c; simpl; wp_run; [by split_and!| |apply IH].
  eapply wp_mono; [apply IH|]. intros ? c' Hs. eapply same_trans; [|exact Hs]. by split_and!.
Qed.

(** A callback that is taken from the map and called, if there is one. *)
Lemma Inv_call se su c o m code payload :
  Inv se su c →
  (o = None → waiting m ⊆+ waiting (_callbackMap c)) →
  (∀ f, o = Some f → f :: waiting m ⊆+ waiting (_callbackMap c)) →
  Inv se su (match o with
    | Some f => (c <| _callbackMap := m |>) <| trace := trace c ++ [EvCallback f code payload] |>
    | None => c <| _callbackMap := m |> end).
Proof.
  intros [] Hn Hf. destruct o as [f|]; constructor; simpl in *;
    rewrite ?called_app, ?written_app, ?statuses_app; simpl; rewrite ?app_nil_r; auto.
  - rewrite <-app_assoc. simpl. etrans; [|done]. by apply submseteq_app, Hf.
  - etrans; [|done]. by apply submseteq_app, Hn.
Qed.

Lemma Inv_lose_callbacks se su ids c :
  Inv se su c → wp (lose_callbacks ids) (λ _ c', Inv se su c' ∧ _thread c' = _thread c ∧
                      _connectStatus c' = _connectStatus c) c.
Proof.
  revert c. induction ids as [|id ids IH]; intros c Hinv; simpl; [wp_run; auto|].
  apply wp_bind, wp_GetCallback. intros o m Hn Hf.
  pose proof (Inv_call _ _ _ o m kErrorCodeLoseConnect [] Hinv Hn Hf).
  destruct o as [f|]; wp_run; [|done]. eapply wp_mono; [by apply IH|]. done.
Qed.

(** *** The operations keep the invariant *)

Lemma same_DisconnectAsync code b c p :
  _thread c = Some p → wp (DisconnectAsync code b) (λ _ c', same c c') c.
Proof.
  intros Ht. unfold DisconnectAsync. wp_run; simpl; try (by split_and!); congruence.
Qed.

Lemma Inv_MakeSureConnected se su c :
  Inv se su c → wp MakeSureConnected (λ _ c', Inv se su c') c.
Proof.
  intros Hinv. unfold MakeSureConnected. wp_run; [done..|].
  destruct Hinv as [? Hst ? Hfifo ? Hpath]. constructor; simpl in *; auto.
  - rewrite app_nil_r. etrans; [|exact Hfifo]. by apply sublist_inserts_r.
  - intros Hh. destruct (Hpath Hh) as [? Hlast]. split; [done|]. rewrite <-Hlast.
    rewrite Heqo in Hst. by destruct Hst as [-> | ->].
Qed.

Lemma Inv_DisconnectAsync se su code b c :
  Inv se su c → wp (DisconnectAsync code b) (λ _ c', Inv se su c') c.
Proof.
  intros Hinv. destruct (_thread c) eqn:Ht.
  - eapply wp_mono; [by eapply same_DisconnectAsync|]. intros ? c' Hs. by eapply client_Inv_same.
  - unfold DisconnectAsync. wp_run; try congruence; by apply Inv_MakeSureConnected.
Qed.

Lemma Inv_WaitDisconnect se su c :
  joinable c → Inv se su c → wp __WaitDisconnect (λ _ c', Inv se su c') c.
Proof.
  intros Hj Hinv. unfold __WaitDisconnect. wp_run; [|done].
  set (c1 := c <| _thread := None |>).
  assert (Inv se su c1) as H1.
  { destruct Hinv as [? Hst ? ? ? ?]. constructor; simpl; auto. unfold joinable in Hj.
    destruct (_thread c) as [[]|]; try done. by right. }
  eapply wp_mono; [apply same_cancel_timeouts|]. intros ? c2 H2. wp_run.
  assert (Inv se su (c2 <| _timeoutAlarmMap := ∅ |>)) as H3.
  { eapply client_Inv_same; [exact H1|]. eapply same_trans; [exact H2|]. by split_and!. }
  eapply wp_mono; [apply (Inv_lose_callbacks _ _ _ _ H3)|]. intros ? c3 (H4 & _). wp_run; inv_done.
Qed.

Lemma Inv_Send se su ty p d f c :
  Inv se su c →
  wp (Send ty p d f) (λ _ c', Inv (se ++ option_list f) (su ++ api_message (ApiSend ty p d f) c) c') c.
Proof.
  intros Hinv. unfold Send, api_message. apply wp_bind, wp_gets.
  destruct (decide (_connectStatus c = kConnected)) as [Hc|Hc]; simpl.
  - rewrite bool_decide_eq_true_2 by done. simpl.
    destruct Hinv as [Hid ? Hcb Hfifo Hu ?].
    assert (u16 (_currentMsgId c + 1) = _currentMsgId c + 1) as Hu16
      by (apply u16_small; unfold UINT16_MAX in *; lia).
    assert (called (trace c) ++ waiting (<[_currentMsgId c := f]> (_callbackMap c))
            ⊆+ se ++ option_list f).
    { rewrite (Permutation_app_comm se). etrans; [by apply submseteq_app, waiting_insert|].
      rewrite Permutation_app_swap_app. by apply submseteq_app. }
    destruct d as [[d n]|]; wp_run;
      repeat match goal with
             | H : SendReq.SetData _ _ _ = Ret _ |- _ => apply SetData_spec in H as [_ ->]
             end;
      constructor; simpl in *; auto; rewrite ?app_assoc; auto;
      try (by apply sublist_app); try (apply Forall_app; split; [done|by constructor]);
      try (unfold UINT16_MAX in *; rewrite Hu16 in *; lia).
  - rewrite bool_decide_eq_false_2 by done. simpl. rewrite app_nil_r.
    destruct Hinv as [Hid ? Hcb Hfifo Hu ?]. destruct f as [f|]; wp_run.
    + constructor; simpl in *; rewrite ?called_app, ?written_app, ?statuses_app; simpl;
        rewrite ?app_nil_r; auto.
      rewrite <-app_assoc, (Permutation_app_comm [f]), app_assoc. by apply submseteq_app.
    + simpl. rewrite app_nil_r. by constructor.
Qed.

Lemma Inv_pushed se su m c c' :
  user_message m = true → Inv se su c →
  same (c <| _messageQueue := _messageQueue c ++ [m] |>) c' → Inv se (su ++ [m]) c'.
Proof.
  intros Hm [] Hs. eapply client_Inv_same; [|exact Hs]. constructor; simpl in *; auto.
  - rewrite app_assoc. by apply sublist_app.
  - apply Forall_app. split; [done|by constructor].
Qed.

(** *** The parts of the thread *)

(** The invariant, and that the thread and the status are as before. *)
Definition kept (se : list F) (su : list MessageBase) (c c' : client) : Prop :=
  Inv se su c' ∧ _thread c' = _thread c ∧ _connectStatus c' = _connectStatus c.

Lemma kept_same se su c c' : Inv se su c → same c c' → kept se su c c'.
Proof. intros Hinv Hs. split; [by eapply client_Inv_same|]. by destruct Hs as (? & ? & _). Qed.

Ltac kept_done :=
  match goal with
  | Hinv : Inv _ _ ?c |- kept _ _ ?c _ => split_and!; [inv_done|done|done]
  end.

Lemma kept_login se su c : Inv se su c → wp login (λ _ c', kept se su c c') c.
Proof.
  intros Hinv. unfold login. wp_run; kept_done.
Qed.

Lemma kept_trans se su c1 c2 c3 : kept se su c1 c2 → kept se su c2 c3 → kept se su c1 c3.
Proof. intros (? & E1 & E2) (? & E3 & E4). split_and!; congruence || done. Qed.

Lemma kept_open_socket se su addrs c :
  Inv se su c → wp (open_socket addrs) (λ _ c', kept se su c c') c.
Proof.
  intros Hinv. unfold open_socket. wp_run; try kept_done;
    (eapply wp_mono; [apply kept_login; inv_done|]); intros ? c' Hk;
    (eapply kept_trans; [|exact Hk]); kept_done.
Qed.

Lemma kept_RunConnect se su c : Inv se su c → wp __RunConnect (λ _ c', kept se su c c') c.
Proof.
  intros Hinv. unfold __RunConnect. wp_run; try kept_done;
    (eapply wp_mono; [apply kept_open_socket; inv_done|]); intros ? c' Hk;
    (eapply kept_trans; [|exact Hk]); kept_done.
Qed.

Lemma wp_SetConnectStatus status (Φ : unit → client → Prop) (c : client) :
  _connectStatus c ≠ status →
  (∀ tr, called tr = [] → written tr = [] →
         (_onStatusChange c = true → statuses tr = [status]) →
         Φ () (c <| _connectStatus := status |> <| trace := trace c ++ tr |>)) →
  wp (__SetConnectStatus status) Φ c.
Proof.
  intros Hne HΦ. unfold __SetConnectStatus. wp_run; [congruence|by apply HΦ|].
  simpl in *. specialize (HΦ []). simpl in HΦ. rewrite app_nil_r in HΦ. apply HΦ; [done..|congruence].
Qed.

(** A change of the status with the program counter that goes with it. *)
Lemma Inv_status se su status p tr c c' :
  Inv se su c → called tr = [] → written tr = [] →
  (_onStatusChange c = true → statuses tr = [status]) →
  status ≠ kConnectIdle →
  may_follow (if decide (_connectStatus c = kConnectIdle) then kDisconnected else _connectStatus c) status →
  status_of p status →
  same (c <| _connectStatus := status |> <| trace := trace c ++ tr |> <| _thread := p |>) c' →
  Inv se su c'.
Proof.
  intros [? ? ? ? ? Hpath] Htr1 Htr2 Htr3 Hni Hf Hp Hs. eapply client_Inv_same; [|exact Hs].
  constructor; simpl in *; rewrite ?called_app, ?written_app, ?Htr1, ?Htr2, ?app_nil_r; auto.
  intros Hh. destruct (Hpath Hh) as [Hsp Hlast].
  rewrite statuses_app, Htr3, last_status_snoc, decide_False by done. split; [|done].
  apply status_path_app; [done|]. unfold last_status in Hlast. by rewrite <-Hlast.
Qed.

Lemma Inv_start se su c :
  Inv se su c → _thread c = Some PcStart →
  wp (__SetConnectStatus kConnecting;; goto PcConnecting) (λ _ c', Inv se su c') c.
Proof.
  intros Hinv Ht. pose proof (inv_status _ _ _ Hinv) as Hst. rewrite Ht in Hst. simpl in Hst.
  apply wp_bind, wp_SetConnectStatus; [by rewrite Hst|]. intros tr Htr1 Htr2 Htr3. wp_run.
  eapply (Inv_status _ _ kConnecting); [exact Hinv|done..| | |by split_and!]; [|done].
  by rewrite Hst.
Qed.

Lemma Inv_connecting se su c :
  Inv se su c → _thread c = Some PcConnecting →
  wp run_connecting (λ _ c', Inv se su c') c.
Proof.
  intros Hinv Ht. pose proof (inv_status _ _ _ Hinv) as Hst. rewrite Ht in Hst. simpl in Hst.
  unfold run_connecting. apply wp_bind. eapply wp_mono; [by apply kept_RunConnect|].
  intros ret c1 (H1 & _ & Hst1). rewrite Hst in Hst1. cbv zeta.
  destruct (Z.eqb_spec ret kRetConnSuccess).
  - apply wp_bind, wp_SetConnectStatus; [by rewrite Hst1|]. intros tr Htr1 Htr2 Htr3. wp_run.
    eapply (Inv_status _ _ kConnected); [exact H1|done..| | |by split_and!]; [by rewrite Hst1|done].
  - apply wp_bind, wp_SetConnectStatus; [by rewrite Hst1; destruct (_ =? _)|].
    intros tr Htr1 Htr2 Htr3.
    assert (∀ c', same (c1 <| _connectStatus := if ret =? kRetConnKickout then kConnectKickout
                                     else kConnectFailed |>
                           <| trace := trace c1 ++ tr |> <| _thread := Some PcExit |>) c' →
            Inv se su c') as Hend.
    { intros c' Hs. eapply Inv_status; [exact H1|exact Htr1|exact Htr2|exact Htr3|..|exact Hs];
        rewrite ?Hst1; destruct (_ =? _); simpl; auto. }
    wp_run; apply Hend; by split_and!.
Qed.

Lemma Inv_exit se su c :
  Inv se su c → _thread c = Some PcExit → wp run_exit (λ _ c', Inv se su c') c.
Proof.
  intros Hinv Ht. pose proof (inv_status _ _ _ Hinv) as Hst. rewrite Ht in Hst. simpl in Hst.
  assert (∀ c1, same c c1 → wp (__SetConnectStatus kDisconnected;; alarm_Start ReconnectAlarm 0;;
            goto PcDone) (λ _ c', Inv se su c') c1) as Hend.
  { intros c1 Hs. pose proof Hs as (_ & Es & _). assert (Inv se su c1) as H1 by by eapply client_Inv_same.
    apply wp_bind, wp_SetConnectStatus; [rewrite Es; by destruct Hst as [->|[->| ->]]|].
    intros tr Htr1 Htr2 Htr3. wp_run.
    eapply (Inv_status _ _ kDisconnected); [exact H1|done..| | |by split_and!]; [|done].
    rewrite Es. by destruct Hst as [->|[->| ->]]. }
  unfold run_exit. apply wp_bind, wp_gets. apply wp_bind.
  destruct (_socket c);
    [apply wp_bind, wp_call; intros ? ?; apply wp_modify|apply wp_mret]; apply Hend; by split_and!.
Qed.

Lemma Inv_loop se su c c' p :
  Inv se su c → _connectStatus c = kConnected → status_of (Some p) kConnected →
  same (c <| _thread := Some p |>) c' → Inv se su c'.
Proof.
  intros [] Hst Hp Hs. eapply client_Inv_same; [|exact Hs]. constructor; simpl; auto. by rewrite Hst.
Qed.

Ltac loop_done :=
  match goal with
  | Hinv : Inv _ _ ?c, Hst : _connectStatus ?c = kConnected |- Inv _ _ _ =>
      eapply (Inv_loop _ _ c); [exact Hinv|exact Hst| |by split_and!]; simpl; auto
  end.

Lemma wp_pool_Get_same (Φ : alarm_id → client → Prop) (c : client) : (∀ a c', same c c' → Φ a c') → wp pool_Get Φ c.
Proof.
  intros HΦ. apply wp_pool_Get. intros a c' Hc. apply HΦ. rewrite Hc. by split_and!.
Qed.

Lemma same_start_timeout id (c : client) : wp (start_timeout id) (λ _ c', same c c') c.
Proof.
  unfold start_timeout. apply wp_bind, wp_pool_Get_same. intros a c1 Hs.
  wp_run; (eapply same_trans; [exact Hs|]); by split_and!.
Qed.

Lemma Inv_head se su c tick :
  Inv se su c → _connectStatus c = kConnected → wp (rw_head tick) (λ _ c', Inv se su c') c.
Proof. intros Hinv Hst. unfold rw_head. wp_run; loop_done. Qed.

Lemma Inv_select se su c tick r :
  Inv se su c → _connectStatus c = kConnected → wp (rw_select tick r) (λ _ c', Inv se su c') c.
Proof. intros Hinv Hst. unfold rw_select. wp_run; loop_done. Qed.

Lemma Inv_leave se su c :
  Inv se su c → _connectStatus c = kConnected → wp leave (λ _ c', Inv se su c') c.
Proof. intros Hinv Hst. unfold leave. wp_run; loop_done. Qed.

Lemma Inv_checks se su c tick r :
  Inv se su c → _connectStatus c = kConnected → wp (rw_checks tick r) (λ _ c', Inv se su c') c.
Proof.
  intros Hinv Hst. unfold rw_checks. wp_run; try loop_done; apply Inv_leave; try done; inv_done.
Qed.

(** A message of the queue that is written and taken from it. *)
Lemma Inv_written se su c c2 message queue :
  Inv se su c → _messageQueue c = message :: queue →
  same (c <| trace := trace c ++ [EvWrite message] |>) c2 →
  Inv se su (c2 <| _messageQueue := tail (_messageQueue c2) |>).
Proof.
  intros [? ? ? Hfifo Hu ?] Hq (E1 & E2 & E3 & E4 & E5 & E6 & E7).
  rewrite Hq in *. apply Forall_cons in Hu as [Hm Hu].
  constructor; simpl in *; rewrite ?E1, ?E2, ?E3, ?E4, ?E5, ?E6, ?E7, ?Hq,
    ?called_app, ?written_app, ?statuses_app; simpl; rewrite ?app_nil_r; auto.
  rewrite Hm, <-app_assoc. done.
Qed.

Lemma Inv_write se su c tick r :
  Inv se su c → _connectStatus c = kConnected → wp (rw_write tick r) (λ _ c', Inv se su c') c.
Proof.
  intros Hinv Hst. unfold rw_write. apply wp_bind, wp_gets.
  destruct (_messageQueue c) as [|message queue] eqn:Hq; [wp_run; loop_done|].
  destruct (writeFd r); [|wp_run; loop_done]. apply wp_bind, wp_gets. cbv beta.
  apply wp_try; intros ? k; [apply Inv_leave; [inv_done|done]|].
  assert (Inv se su (c <| os := k |>)) as Hk by inv_done.
  apply wp_bind, wp_emit. set (c1 := (c <| os := k |>) <| trace := _ |>).
  apply wp_bind. apply wp_mono with (λ _ c2, same c1 c2).
  { destruct message; try (apply wp_mret; by split_and!). apply same_start_timeout. }
  intros ? c2 Hs. pose proof (Inv_written _ _ _ _ _ _ Hk Hq Hs) as H2.
  assert (_connectStatus (c2 <| _messageQueue := tail (_messageQueue c2) |>) = kConnected) as Hst2.
  { destruct Hs as (_ & E & _). by rewrite <-Hst. }
  wp_run. loop_done.
Qed.

Lemma kept_handle_message se su message c p :
  Inv se su c → _thread c = Some p → wp (handle_message message) (λ _ c', kept se su c c') c.
Proof.
  intros Hinv Ht.
  destruct message as [m|m|m|m|m|m|m]; simpl; try (wp_run; kept_done).
  - unfold __handleDisconnect. cbv zeta. apply wp_bind.
    apply wp_mono with (λ _ c', same c c').
    { case_decide; [by eapply same_DisconnectAsync|by apply wp_mret]. }
    intros ? c1 Hs. eapply wp_mono; [|intros ? c2 Hk; eapply kept_trans; [by apply kept_same|exact Hk]].
    assert (Inv se su c1) as H1 by by eapply client_Inv_same. wp_run; kept_done.
  - unfold __handleSendReq. wp_run; kept_done.
  - unfold __handleSendResp. apply wp_bind, wp_gets, wp_bind.
    apply wp_mono with (λ _ c', same c c'); [wp_run; by split_and!|].
    intros ? c1 Hs. eapply wp_mono; [|intros ? c2 Hk; eapply kept_trans; [by apply kept_same|exact Hk]].
    assert (Inv se su c1) as H1 by by eapply client_Inv_same.
    apply wp_bind, wp_GetCallback. intros o m' Hn Hf. 
    pose proof (Inv_call _ _ _ o m' kErrorCodeNone (SendResp._payload m) H1 Hn Hf).
    destruct o; wp_run; by split_and!.
Qed.

Lemma Inv_read se su c tick r p :
  Inv se su c → _connectStatus c = kConnected → _thread c = Some p →
  wp (rw_read tick r) (λ _ c', Inv se su c') c.
Proof.
  intros Hinv Hst Ht. unfold rw_read. destruct (readFd r); [|wp_run; loop_done].
  apply wp_bind, wp_gets. cbv beta. apply wp_try; intros m k; [apply Inv_leave; [inv_done|done]|].
  assert (Inv se su (c <| os := k |>)) as Hk by inv_done. apply wp_bind.
  eapply wp_mono; [by eapply kept_handle_message|]. intros ? c2 (H2 & _ & Hst2).
  assert (_connectStatus c2 = kConnected) by by rewrite <-Hst. wp_run. loop_done.
Qed.

Lemma Inv_ping se su c tick :
  Inv se su c → _connectStatus c = kConnected → wp (rw_ping tick) (λ _ c', Inv se su c') c.
Proof.
  intros Hinv Hst. unfold rw_ping. apply wp_bind, wp_gets.
  destruct (Alarm.IsAlarm _); [|wp_run; loop_done]. apply wp_bind, wp_gets. cbv beta zeta.
  apply wp_try; intros m k; [apply Inv_leave; [inv_done|done]|].
  set (c1 := (c <| os := k |>) <| trace := trace c ++ [EvWrite (MPingReq (PingReq.new 0))] |>).
  assert (Inv se su c1) as H1 by inv_done. assert (_connectStatus c1 = kConnected) as Hst1 by done.
  apply wp_bind, wp_emit. fold c1. wp_run. loop_done.
Qed.

Lemma Inv_thread_step se su c r :
  Inv se su c → wp (thread_step r) (λ _ c', Inv se su c') c.
Proof.
  intros Hinv. pose proof (inv_status _ _ _ Hinv) as Hst. unfold thread_step.
  apply wp_bind, wp_gets.
  destruct (_thread c) as [[]|] eqn:Ht; simpl in Hst;
    eauto using Inv_start, Inv_connecting, Inv_head, Inv_select, Inv_checks, Inv_write, Inv_read,
      Inv_ping, Inv_exit, wp_mret.
Qed.

(** *** The closures and the calls *)

Lemma Inv_on_send_timeout se su a c :
  Inv se su c → wp (on_send_timeout a) (λ _ c', Inv se su c') c.
Proof.
  intros Hinv. unfold on_send_timeout. apply wp_bind, wp_gets, wp_bind, wp_gets, wp_bind.
  apply wp_mono with (λ _ c', same c c'); [wp_run; by split_and!|]. intros ? c1 Hs.
  assert (Inv se su c1) as H1 by by eapply client_Inv_same.
  apply wp_bind, wp_GetCallback. intros o m Hn Hf.
  pose proof (Inv_call _ _ _ o m kErrorCodeTimeout [] H1 Hn Hf) as H2.
  destruct o as [f|]; wp_run; try done. by apply Inv_DisconnectAsync; inv_done.
Qed.

Lemma Inv_alarm_callback se su a c :
  Inv se su c → wp (alarm_callback a) (λ _ c', Inv se su c') c.
Proof. intros Hinv. unfold alarm_callback. wp_run. inv_done. Qed.

Lemma Inv_alarm_inner se su a c :
  (Alarm._innerCallback (alarms c a) = Some CbReconnect → joinable c) →
  Inv se su c → wp (alarm_inner a) (λ _ c', Inv se su c') c.
Proof.
  intros Hj Hinv. unfold alarm_inner. apply wp_bind, wp_gets.
  destruct (Alarm._innerCallback _) as [[]|]; simpl; [..|by apply wp_undefined].
  - unfold on_reconnect. apply wp_bind. eapply wp_mono; [apply (Inv_WaitDisconnect se su c); auto|].
    intros ? c2 H2. wp_run; [|done].
    apply Inv_MakeSureConnected, (client_Inv_same _ _ c2); [done|by split_and!].
  - wp_run. inv_done.
  - wp_run. inv_done.
  - by apply Inv_on_send_timeout.
Qed.

Ltac no_message :=
  unfold api_message;
  replace (if decide _ then [] else []) with ([] : list MessageBase) by (by case_decide);
  rewrite !app_nil_r.

Lemma Inv_api se su a c :
  api_enabled a c → Inv se su c →
  wp (api_op a) (λ _ c', Inv (se ++ api_callback a) (su ++ api_message a c) c') c.
Proof.
  intros Hen Hinv. destruct a as [|code b|ty p d f|ty p| |n| |host ip port tls ssl info|b|b]; simpl.
  - no_message. by apply Inv_MakeSureConnected.
  - no_message. by apply Inv_DisconnectAsync.
  - apply wp_bind. eapply wp_mono; [by apply Inv_Send|]. intros ? c' H'. apply wp_mret.
    by destruct f.
  - rewrite app_nil_r. unfold SendNoReply, api_message. apply wp_bind, wp_bind, wp_gets.
    case_decide as Hc; [rewrite bool_decide_eq_true_2 by done|rewrite bool_decide_eq_false_2 by done];
      simpl; wp_run; [|by rewrite app_nil_r]. eapply Inv_pushed; [done|exact Hinv|by split_and!].
  - rewrite app_nil_r. unfold SendDisconnect, api_message. apply wp_bind, wp_gets.
    case_decide as Hc; [rewrite bool_decide_eq_true_2 by done|rewrite bool_decide_eq_false_2 by done];
      simpl; wp_run; [|by rewrite app_nil_r]. eapply Inv_pushed; [done|exact Hinv|by split_and!].
  - no_message. unfold SetNetType. wp_run. inv_done.
  - no_message. by apply Inv_WaitDisconnect.
  - no_message. unfold InitHostAndPort, alarm_SetCallback. wp_run. inv_done.
  - no_message. unfold SetOnServerDisconnect. wp_run. inv_done.
  - no_message. unfold SetOnSendReq. wp_run. inv_done.
Qed.

Lemma Inv_initial s : initial s → Inv (sent s) (submitted s) (cl s).
Proof.
  intros (Et & Es & Ei & Em & Eq & Etr & _ & Ese & Esu).
  constructor; rewrite ?Et, ?Es, ?Ei, ?Em, ?Eq, ?Etr, ?Ese, ?Esu; simpl; auto.
  unfold UINT16_MAX. lia.
Qed.

Lemma client_Inv_step s s' :
  Inv (sent s) (submitted s) (cl s) → step s s' → Inv (sent s') (submitted s') (cl s').
Proof.
  intros Hinv Hs.
  destruct Hs as [s a c' Hen E|s r c' E|s now l q|s id a l|s id a l|s id a fires c' _ E
                 |s a c' _ Hj E|s k]; simpl.
  - by apply (wp_elim _ _ _ _ _ E (Inv_api _ _ a _ Hen Hinv)).
  - by apply (wp_elim _ _ _ _ _ E (Inv_thread_step _ _ _ r Hinv)).
  - eapply client_Inv_same; [exact Hinv|by split_and!].
  - done.
  - done.
  - by apply (wp_elim _ _ _ _ _ E (Inv_alarm_callback _ _ a _ Hinv)).
  - by apply (wp_elim _ _ _ _ _ E (Inv_alarm_inner _ _ a _ Hj Hinv)).
  - eapply client_Inv_same; [exact Hinv|by split_and!].
Qed.

Lemma reachable_client_Inv s : reachable s → Inv (sent s) (submitted s) (cl s).
Proof. induction 1; [by apply Inv_initial|by eapply client_Inv_step]. Qed.

(** ** Properties *)

(** C1: no callback of a request is called more often than it was passed to Send,
    whatever answers, timeouts and disconnections happen in whatever order: the
    callbacks called and those still waiting are a part of those passed.  In
    particular a callback that is called does not wait any longer. *)
Theorem callbacks_at_most_once s :
  reachable s →
  called (trace (cl s)) ++ waiting (_callbackMap (cl s)) ⊆+ sent s.
Proof. intros Hs. apply (inv_callbacks _ _ _ (reachable_client_Inv s Hs)). Qed.

(** C2: the messages of the application that reach the socket are, in order and
    without repetition, among those that it submitted while connected, and the ones
    still queued come after them. *)
Theorem messages_in_order s :
  reachable s →
  written (trace (cl s)) ++ _messageQueue (cl s) `sublist_of` submitted s.
Proof. intros Hs. apply (inv_fifo _ _ _ (reachable_client_Inv s Hs)). Qed.

(** C3: the status changes that the application is told follow the life cycle:
    connecting, then connected, failed or kicked out, then disconnected, and so on;
    the last one is the current status, except that a client that is about to
    connect again is idle. *)
Theorem status_sequence s :
  reachable s → _onStatusChange (cl s) = true →
  status_path kDisconnected (statuses (trace (cl s))) ∧
  (_connectStatus (cl s) ≠ kConnectIdle →
   _connectStatus (cl s) = last_status (statuses (trace (cl s)))).
Proof.
  intros Hs Hh. destruct (inv_path _ _ _ (reachable_client_Inv s Hs) Hh) as [Hp Hl].
  split; [done|]. intros Hne. by rewrite decide_False in Hl.
Qed.

(** C10: the status and the thread agree: the status is connected only while the
    thread is in the read-write loop or about to leave it, and a client without a
    thread is idle or disconnected, so that MakeSureConnected starts one. *)
Theorem status_of_thread s :
  reachable s → status_of (_thread (cl s)) (_connectStatus (cl s)).
Proof. intros Hs. apply (inv_status _ _ _ (reachable_client_Inv s Hs)). Qed.

(** C11: the id of the next request is between 1 and 65534: the counter wraps without
    using 0, the id of the requests without reply, or UINT16_MAX. *)
Theorem message_id_range s :
  reachable s → 1 ≤ _currentMsgId (cl s) < UINT16_MAX.
Proof. intros Hs. apply (inv_id _ _ _ (reachable_client_Inv s Hs)). Qed.

End system.
Arguments sys S K Q F : clear implicits.
Arguments api F : clear implicits.
