(* ===== verification/NetCore.v ===== *)
(** * NetCore: the interface of the library (src/net_core.hpp, .cpp)

    Static functions that delegate to one static client. *)
From S2P Require Import Prelude TcpError Sockets TcpIO Gzip FixHeader Message.
From S2P Require Import Monad SocketBreaker TimeUtils UnixSocket MessageQueue Alarm TcpDefine DnsQuery TcpClient.

Module NetCore.
Section ops.
Context {S K Q F : Type}.
Context `{!ISocket S K, !SocketControl S K, !Services S K}.
Context `{!PipeKernel K, !Clock K, !SockOpts K}.
Context `{!TimerQueue Q alarm_id, !Zlib}.
Abbreviation M := (ST (TcpClient.t S K Q F)).

Definition InitHostAndPort (host backupIp : bytes) (port : Z)
    (isTls WITH_SSL getConnectInfo : bool) : M unit :=
  TcpClient.InitHostAndPort host backupIp port isTls WITH_SSL getConnectInfo.

Definition MakeSureConnected : M unit := TcpClient.MakeSureConnected.

Definition DisconnectAsync (code : DisconnectCode) (shouldReconnect : bool) : M unit :=
  TcpClient.SendDisconnect;;
  TcpClient.DisconnectAsync code shouldReconnect.

Definition Send (payloadType payload : bytes) (callback : option F) : M bool :=
  TcpClient.Send payloadType payload None callback.

Definition SendData (payloadType payload data : bytes) (dataLen : Z) (callback : option F)
    : M bool :=
  TcpClient.Send payloadType payload (Some (data, dataLen)) callback.

Definition SendNoReply (payloadType payload : bytes) : M bool :=
  TcpClient.SendNoReply payloadType payload.

Definition SetNetType (netType : NetType) : M unit := TcpClient.SetNetType netType.

Definition GetConnectStatus : M ConnectStatus := TcpClient.GetConnectStatus.

Definition SetOnConnStatusChange (set : bool) : M unit := TcpClient.SetOnConnStatusChange set.
Definition SetOnServerDisconnect (set : bool) : M unit := TcpClient.SetOnServerDisconnect set.
Definition SetHttpDns `{!DnsStatic K} (getHttpDns : bool) : M unit := TcpClient.SetHttpDns getHttpDns.
Definition SetOnSendReq (set : bool) : M unit := TcpClient.SetOnSendReq set.

End ops.
End NetCore.
