(* ===== verification/Demo.v ===== *)
(** * Demo: a concrete world, and the witnesses of the properties of System.v

    A kernel with one connection and one pipe, services that always succeed, the
    timer queue of MessageQueue.v and the stored zlib make every operation of the
    client computable.  [play] runs a list of actions, each a step of [step]. *)
From S2P Require Import Prelude TcpError Sockets TcpIO Gzip Encoding FixHeader Message.
From S2P Require Import Monad SocketBreaker TimeUtils UnixSocket MessageQueue Alarm TcpDefine TcpClient System.
Import TcpClient.

#[local] Existing Instance OnePipe.kernel.

Module World.

Record t : Set := mk { net : SegmentedKernel.t; pipes : OnePipe.t; clock : Z }.

#[export] Instance kernel : Kernel t := {|
  recv fd len k := let '(r, n) := SegmentedKernel.seg_recv fd len (net k) in
                   (r, mk n (pipes k) (clock k));
  send fd bs k := let '(r, n) := SegmentedKernel.seg_send fd bs (net k) in
                  (r, mk n (pipes k) (clock k));
  close fd k := k;
|}.

Definition put_pipes (p : OnePipe.t) (k : t) : t := mk (net k) p (clock k).
#[export] Instance pipe_kernel : PipeKernel t := part_kernel pipes put_pipes.

#[export] Instance clocks : Clock t := {|
  clock_gettime id k := (Some (mkTimespec (clock k / 1000000000) (clock k mod 1000000000)), k);
  gettimeofday k := (clock k / 1000000000, clock k mod 1000000000 / 1000, k);
  sleep_for sec k := k;
  system_clock := clock;
|}.

#[export] Instance options : SockOpts t := {|
  setsockopt fd o k := (0, k);
  getsockopt fd o k := (0, 0, k);
  ioctl fd r k := (0, 0, k);
|}.

#[export] Instance services : Services TcpSocket.t t := {|
  getConnectInfo k := (str "token", k);
  GetHostByName host backup timeout := mret (true, [str "10.0.0.1"]);
  ConnectImpatient addrs := mret (Some (TcpSocket.mk 5));
|}.

End World.

#[export] Existing Instance World.kernel.
#[export] Existing Instance World.pipe_kernel.
#[export] Existing Instance World.clocks.
#[export] Existing Instance World.options.
#[export] Existing Instance World.services.
#[export] Existing Instance Stored.zlib.

Abbreviation demo_client := (TcpClient.t TcpSocket.t World.t (MessageQueue.t alarm_id) nat).
Abbreviation demo_sys := (sys TcpSocket.t World.t (MessageQueue.t alarm_id) nat).

(** ** Actions *)

Inductive action : Type :=
| Api (a : api nat)
| Thread (r : select_result)
| Outside (k : World.t)
| Round
| TestNext                 (* the queue tests its next message *)
| Callback
| Inner.

Definition returned {A} (m : checked (unit * A)) : option A :=
  match m with Ret ((), a) => Some a | _ => None end.

Definition joinable_b (c : demo_client) : bool :=
  match _thread c with None | Some PcDone => true | _ => false end.

Definition enabled_b (a : api nat) (c : demo_client) : bool :=
  match a with ApiWaitDisconnect => joinable_b c | _ => true end.

Definition act (x : action) (s : demo_sys) : option demo_sys :=
  match x with
  | Api a =>
      if enabled_b a (cl s) then
        c ← returned (api_op a (cl s));
        Some (mkSys c (current s) (taken s) (sent s ++ api_callback a) (submitted s ++ api_message a (cl s)))
      else None
  | Thread r =>
      c ← returned (thread_step r (cl s));
      Some (mkSys c (current s) (taken s) (sent s) (submitted s))
  | Outside k =>
      Some (mkSys ((cl s) <| os := k |>) (current s) (taken s) (sent s) (submitted s))
  | Round =>
      match current s, taken s, tq_drain (timers (cl s)) (World.clock (os (cl s))) with
      | None, [], Ret (l, q) => Some (mkSys ((cl s) <| timers := q |>) None l (sent s) (submitted s))
      | _, _, _ => None
      end
  | TestNext =>
      match current s, taken s with
      | None, (id, a) :: l =>
          Some (mkSys (cl s) (if bool_decide (id ∈ tq_cancelled (C:=alarm_id) (timers (cl s)))
                              then None else Some (Tested id a)) l (sent s) (submitted s))
      | _, _ => None
      end
  | Callback =>
      match current s with
      | Some (Tested id a) =>
          match alarm_callback a (cl s) with
          | Ret (fires, c) =>
              Some (mkSys c (if fires then Some (Calling a) else None) (taken s) (sent s) (submitted s))
          | _ => None
          end
      | _ => None
      end
  | Inner =>
      match current s with
      | Some (Calling a) =>
          if joinable_b (cl s) || negb (match Alarm._innerCallback (alarms (cl s) a) with
                                        | Some CbReconnect => true | _ => false end)
          then c ← returned (alarm_inner a (cl s)); Some (mkSys c None (taken s) (sent s) (submitted s))
          else None
      | _ => None
      end
  end.

Fixpoint play (xs : list action) (s : demo_sys) : option demo_sys :=
  match xs with
  | [] => Some s
  | x :: xs => s ← act x s; play xs s
  end.

Lemma joinable_b_spec (c : demo_client) : joinable_b c = true → joinable c.
Proof. unfold joinable_b, joinable. by destruct (_thread c) as [[]|]. Qed.

Lemma returned_spec {A} (m : checked (unit * A)) a : returned m = Some a → m = Ret ((), a).
Proof. destruct m as [[[] b]| | |]; try done. by intros [= ->]. Qed.

Lemma act_step x s s' : act x s = Some s' → step s s'.
Proof.
  destruct x as [a|r|k| | | |]; simpl; intros E.
  - destruct (enabled_b a (cl s)) eqn:Hen; [|done].
    apply bind_Some in E as (c & Hc%returned_spec & [= <-]). constructor; [|done].
    destruct a; simpl in *; try done. by apply joinable_b_spec.
  - apply bind_Some in E as (c & Hc%returned_spec & [= <-]). by econstructor.
  - injection E as <-. constructor.
  - destruct (current s) eqn:Hc; [done|]. destruct (taken s) eqn:Ht; [|done].
    destruct (MessageQueue.take_due _ _ _) as [[l q]| | |] eqn:Hd; try done.
    injection E as <-. by eapply step_round.
  - destruct (current s) eqn:Hc; [done|]. destruct (taken s) as [|[id a] l] eqn:Ht; [done|].
    injection E as <-. case_bool_decide; [by eapply step_skip|by apply step_test].
  - destruct (current s) as [[id a|]|] eqn:Hc; [|done..].
    destruct (alarm_callback a (cl s)) as [[fires c]| | |] eqn:Ea; [|done..].
    injection E as <-. by eapply step_callback.
  - destruct (current s) as [[|a]|] eqn:Hc; [done| |done].
    destruct (joinable_b _ || _) eqn:Hj; [|done].
    apply bind_Some in E as (c & Hr%returned_spec & [= <-]). eapply step_inner; try done.
    intros Hcb. rewrite Hcb, orb_false_r in Hj. by apply joinable_b_spec.
Qed.

Lemma play_reachable xs s s' : reachable s → play xs s = Some s' → reachable s'.
Proof.
  revert s. induction xs as [|x xs IH]; simpl; intros s Hs E; [by injection E as <-|].
  apply bind_Some in E as (s1 & H1%act_step & H2). eapply IH; [|done]. by eapply reach_step.
Qed.

(** ** A session

    The client connects, sends a request that is answered, then two requests and a
    message without reply, of which one request is written; it is disconnected, and
    the reconnect alarm reaps the thread. *)

Definition demo_answer : bytes :=
  setUint8 112 [] ++ encodeLength 8 [] ++ (setUint16 1 [] ++ encodeLength (size (Stored.enc (str "ok"))) []
                 ++ Stored.enc (str "ok")).

Definition demo_world : World.t :=
  World.mk (SegmentedKernel.mk [map byte_of [32; 2; 0; 0]; demo_answer] [] 1000)
           (OnePipe.mk 0 true true) 1000000000.

Definition demo_alarms (a : alarm_id) : Alarm.t closure :=
  match a with
  | ReconnectAlarm => Alarm.SetCallback (Alarm.new 0) CbReconnect
  | PingAlarm => Alarm.SetCallback (Alarm.new 0) CbPing
  | PingTimeoutAlarm => Alarm.SetCallback (Alarm.new 0) CbPingTimeout
  | Pooled _ => Alarm.new 0
  end.

Definition demo_start : demo_sys :=
  mkSys
    {| _host := str "host"; _backupIp := str "10.0.0.2"; _port := 8080; _isTls := false;
       _getConnectInfo := true; _onStatusChange := true; _onSendReq := true;
       _onServerDisconnect := true; _socket := None; _reader := TcpReader.mk None;
       _writer := TcpWriter.mk None; _thread := None; _disCode := kDisCodeNone;
       _connectStatus := kConnectIdle; _netType := kNetTypeWifi; _shouldReconnect := false;
       _shouldNewBreaker := false; _shouldNewConnBreaker := false; _timeoutDisconnect := false;
       _reconnectCount := 0; _lastConnTick := 0; _currentMsgId := 1; _messageQueue := [];
       _callbackMap := ∅; _timeoutAlarmMap := ∅; _objectPool := []; next_alarm := 1%positive;
       _readWriteBreaker := SocketBreaker.mk 3 4 false;
       _connectBreaker := SocketBreaker.mk 3 4 false; alarms := demo_alarms;
       timers := MessageQueue.new; os := demo_world; trace := [] |}
    None [] [] [].

Definition ready (w r : bool) : select_result := mkSelect 1 false false w r.
Definition idle : action := Thread (ready false false).
Definition iteration (w r : bool) : list action :=
  [idle; Thread (ready w r); idle; idle; idle; idle].

Definition demo_session : list action :=
  [Api ApiMakeSureConnected; idle; idle;
   Api (ApiSend (str "a") (str "1") None (Some 7%nat))] ++ iteration true true ++
  [Api (ApiSend (str "b") (str "2") None (Some 8%nat));
   Api (ApiSend (str "c") (str "3") None (Some 9%nat));
   Api (ApiSendNoReply (str "d") (str "4"))] ++ iteration true false ++
  [Api (ApiDisconnectAsync kDisCodeReset false); idle; idle; idle; idle; Round; TestNext; Callback; Inner].

Definition request (id : Z) (type payload : string) : MessageBase :=
  MSendReq (SendReq.new 0 id (str type) (str payload)).

Lemma from_facts {A} (o : option A) (P : A → Prop) :
  match o with Some a => P a | None => False end → ∃ a, o = Some a ∧ P a.
Proof. destruct o as [a|]; [|done]. by exists a. Qed.

Definition demo_result (s : demo_sys) : Prop :=
  called (trace (cl s)) = [7; 8]%nat ∧ waiting (_callbackMap (cl s)) = [9%nat] ∧
  sent s = [7; 8; 9]%nat ∧
  written (trace (cl s)) = [request 1 "a" "1"; request 2 "b" "2"] ∧
  statuses (trace (cl s)) = [kConnecting; kConnected; kDisconnected] ∧
  _connectStatus (cl s) = kDisconnected ∧ _onStatusChange (cl s) = true.

Lemma demo_facts :
  match play demo_session demo_start with Some s => demo_result s | None => False end.
Proof. vm_compute. by split_and!. Qed.

Lemma demo_end : ∃ s : demo_sys, reachable s ∧ demo_result s.
Proof.
  destruct (from_facts (play demo_session demo_start) demo_result demo_facts) as (s & E & Hf).
  exists s. split; [|exact Hf]. eapply play_reachable; [|exact E]. apply reach_init.
  by split_and!.
Qed.

(** ** Witnesses *)

Lemma callbacks_at_most_once_witness :
  ∃ s : demo_sys, called (trace (cl s)) = [7; 8]%nat ∧ sent s = [7; 8; 9]%nat ∧
    called (trace (cl s)) ++ waiting (_callbackMap (cl s)) ⊆+ sent s.
Proof.
  destruct demo_end as (s & Hs & Hc & _ & Hsent & _). exists s. split; [done|]. split; [done|].
  exact (callbacks_at_most_once s Hs).
Defined.

Lemma messages_in_order_witness :
  ∃ s : demo_sys, written (trace (cl s)) = [request 1 "a" "1"; request 2 "b" "2"] ∧
    written (trace (cl s)) ++ _messageQueue (cl s) `sublist_of` submitted s.
Proof.
  destruct demo_end as (s & Hs & _ & _ & _ & Hw & _). exists s. split; [done|].
  exact (messages_in_order s Hs).
Defined.

Lemma status_sequence_witness :
  status_path kDisconnected [kConnecting; kConnected; kDisconnected].
Proof.
  destruct demo_end as (s & Hs & _ & _ & _ & _ & <- & _ & Hh).
  exact (proj1 (status_sequence s Hs Hh)).
Defined.

Lemma status_of_thread_witness :
  ∃ s : demo_sys, status_of (_thread (cl s)) kDisconnected.
Proof.
  destruct demo_end as (s & Hs & _ & _ & _ & _ & _ & Est & _). exists s. rewrite <-Est.
  exact (status_of_thread s Hs).
Defined.

Lemma message_id_range_witness :
  ∃ s : demo_sys, 1 ≤ _currentMsgId (cl s) < UINT16_MAX.
Proof. destruct demo_end as (s & Hs & _). exists s. exact (message_id_range s Hs). Defined.
