(* ===== verification/ClientProps.v ===== *)
(** * ClientProps: what single operations of the client do

    Functional properties of TcpClient.v, with total correctness: the operations
    return, given a timer queue that keeps its contract.  Several of them state
    behaviour that is not what the code is for; see the findings. *)
From stdpp Require Import functions sorting.
From S2P Require Import Prelude TcpError Sockets TcpIO Gzip FixHeader Message.
From S2P Require Import Monad SocketBreaker TimeUtils UnixSocket MessageQueue Alarm TcpDefine TcpClient NetCore Logic System.
Import TcpClient.

Section props.
Context {S K Q F : Type}.
Context `{!ISocket S K, !SocketControl S K, !Services S K}.
Context `{!PipeKernel K, !Clock K, !SockOpts K}.
Context `{!TimerQueue Q alarm_id, !Zlib}.
Abbreviation client := (TcpClient.t S K Q F).

(** ** Lemmas *)

(** The next id of a request. *)
Definition next_id (id : Z) : Z := if id + 1 =? UINT16_MAX then 1 else id + 1.

(** A signal on a breaker in order. *)
Lemma twp_rw_Break_ready `{!PipeLaws K} (Φ : bool → client → Prop) c :
  (∀ b br k,
     (SocketBreaker.ready (_readWriteBreaker c) (os c) →
      b = true ∧ SocketBreaker.ready br k ∧ SocketBreaker.IsBreak br = true) →
     Φ b (c <| _readWriteBreaker := br |> <| os := k |>)) →
  twp rw_Break Φ c.
Proof.
  intros HΦ. unfold wpx, rw_Break.
  destruct (SocketBreaker.Break (_readWriteBreaker c) (os c)) as [[b br] k] eqn:E.
  apply HΦ. intros Hr. destruct (SocketBreaker.Break_ready _ _ Hr) as (br' & k' & E' & Hr' & Hb).
  rewrite E in E'. by injection E' as -> -> ->.
Qed.

Lemma map_keys_elem {V} (m : gmap Z V) id : id ∈ map_keys m ↔ is_Some (m !! id).
Proof.
  unfold map_keys. rewrite (merge_sort_Permutation (≤)), list_elem_of_fmap. split.
  - intros ([i v] & -> & Hv%elem_of_map_to_list). by exists v.
  - intros [v Hv]. exists (id, v). by rewrite elem_of_map_to_list.
Qed.

Lemma map_keys_NoDup {V} (m : gmap Z V) : NoDup (map_keys m).
Proof.
  unfold map_keys. rewrite (merge_sort_Permutation (≤)). apply NoDup_fst_map_to_list.
Qed.

(** The alarm [a] of [c] is cancelled in [c'], where the queue that held the messages
    [es] holds [es']: the closure of its message, if that still comes, returns at
    once, and the queue does not hold the message any more and skips it if it has
    taken it already. *)
Definition timer_cancelled (es es' : list (MessageQueue.entry alarm_id)) (c c' : client)
    (a : alarm_id) : Prop :=
  let id := Alarm._messageId (alarms c a) in
  snd (Alarm.callback (alarms c' a)) = false ∧
  (id ≠ 0 → id ∈ tq_cancelled (C:=alarm_id) (timers c') ∧
    (NoDup (map MessageQueue.e_id es) → id ∉ map MessageQueue.e_id es')).

(** Operations that cancel alarms, and do nothing else with them and the queue. *)
Definition cancels (es es' : list (MessageQueue.entry alarm_id)) (c c' : client) : Prop :=
  tq_holds (C:=alarm_id) (timers c') es' ∧ es' `sublist_of` es ∧
  tq_cancelled (C:=alarm_id) (timers c) ⊆ tq_cancelled (C:=alarm_id) (timers c') ∧
  ∀ a, alarms c' a = alarms c a ∨ timer_cancelled es es' c c' a.

Lemma callback_cancelled (al : Alarm.t closure) :
  snd (Alarm.callback al) = false ↔ Alarm._messageId al = 0.
Proof. unfold Alarm.callback. destruct (Z.eqb_spec (Alarm._messageId al) 0); simpl; naive_solver. Qed.

Lemma sublist_ids (es es' : list (MessageQueue.entry alarm_id)) :
  es' `sublist_of` es →
  (∀ id, id ∈ map MessageQueue.e_id es' → id ∈ map MessageQueue.e_id es) ∧
  (NoDup (map MessageQueue.e_id es) → NoDup (map MessageQueue.e_id es')).
Proof.
  intros Hs%(fmap_sublist MessageQueue.e_id). split.
  - intros id Hin. eapply elem_of_submseteq; [exact Hin|]. by apply sublist_submseteq.
  - intros Hnd. by eapply sublist_NoDup.
Qed.

Lemma remove_entry_ids id (es : list (MessageQueue.entry alarm_id)) :
  NoDup (map MessageQueue.e_id es) → id ∉ map MessageQueue.e_id (MessageQueue.remove_entry id es).
Proof.
  induction es as [|e es IH]; simpl; [by intros _ ?%elem_of_nil|].
  intros [Hni Hnd]%NoDup_cons. destruct (Z.eqb_spec (MessageQueue.e_id e) id) as [<-|]; [done|].
  simpl. rewrite not_elem_of_cons. split; [done|by apply IH].
Qed.

(** What is cancelled stays so. *)
Lemma timer_cancelled_later es es1 es2 (c c1 c2 : client) a :
  timer_cancelled es es1 c c1 a → cancels es1 es2 c1 c2 → timer_cancelled es es2 c c2 a.
Proof.
  intros [H0 Hid] (_ & Hsub & Hc & Ha). destruct (sublist_ids _ _ Hsub) as [Hin _]. split.
  - destruct (Ha a) as [->|[? _]]; done.
  - intros Hne. destruct (Hid Hne) as [? Hq]. split; [by apply Hc|]. intros Hnd Hx. by apply Hq, Hin.
Qed.

Lemma cancels_trans es es1 es2 (c c1 c2 : client) :
  cancels es es1 c c1 → cancels es1 es2 c1 c2 → cancels es es2 c c2.
Proof.
  intros H1 H2. pose proof H1 as (_ & Hs1 & Hc1 & Ha1). pose proof H2 as (Hq2 & Hs2 & Hc2 & Ha2).
  split_and!; [done|by etrans|by etrans|]. intros a.
  destruct (Ha1 a) as [E1|Hx]; [|right; by eapply timer_cancelled_later].
  destruct (Ha2 a) as [E2|[H0 Hid]]; [left; by rewrite E2|]. right. split; [done|].
  rewrite <-E1. intros Hne. destruct (Hid Hne) as [? Hni]. split; [done|].
  intros Hnd. by apply Hni, (sublist_ids _ _ Hs1).
Qed.

Lemma twp_alarm_Cancel_cancels a es (Φ : bool → client → Prop) (c : client) :
  tq_holds (C:=alarm_id) (timers c) es →
  (∀ b al q es', let c' := (set_alarm a al c) <| timers := q |> in
     cancels es es' c c' → timer_cancelled es es' c c' a → Φ b c') →
  twp (alarm_Cancel a) Φ c.
Proof.
  intros Hq HΦ. unfold wpx, alarm_Cancel, Alarm.Cancel.
  destruct (Z.eqb_spec (Alarm._messageId (alarms c a)) 0) as [E|Hne].
  - assert (timer_cancelled es es c (set_alarm a (alarms c a) c <| timers := timers c |>) a) as Hc.
    { split; [|done]. simpl. rewrite fn_lookup_insert. by apply callback_cancelled. }
    apply (HΦ false _ _ es); [|done]. split_and!; [done..|]. intros a'.
    destruct (decide (a' = a)) as [->|]; [by right|]. left. simpl. by rewrite fn_lookup_insert_ne.
  - destruct (tq_cancel_law _ es (Alarm._messageId (alarms c a)) Hq) as (b & q' & -> & Hq' & Hc).
    simpl. set (al := Alarm.mk _ 0 _ _). set (es' := MessageQueue.remove_entry _ es) in *.
    assert (timer_cancelled es es' c (set_alarm a al c <| timers := q' |>) a) as Ht.
    { split; [simpl; rewrite fn_lookup_insert; by apply callback_cancelled|]. intros _. simpl.
      split; [rewrite Hc; set_solver|apply remove_entry_ids]. }
    apply (HΦ _ _ _ es'); [|done]. split_and!; [done|apply MessageQueue.remove_entry_sublist|..].
    + simpl. rewrite Hc. set_solver.
    + intros a'. destruct (decide (a' = a)) as [->|]; [by right|]. left. simpl.
      by rewrite fn_lookup_insert_ne.
Qed.

(** What cancelling the timers leaves as it is, and the pool. *)
Definition timers_cancelled (es : list (MessageQueue.entry alarm_id)) (ids : list Z) (c c' : client)
    : Prop :=
  (∃ es', cancels es es' c c' ∧
    ∀ id a, id ∈ ids → _timeoutAlarmMap c !! id = Some a → timer_cancelled es es' c c' a) ∧
  same c c' ∧ _timeoutAlarmMap c' = _timeoutAlarmMap c ∧
  _shouldNewBreaker c' = _shouldNewBreaker c ∧ _shouldReconnect c' = _shouldReconnect c ∧
  _shouldNewConnBreaker c' = _shouldNewConnBreaker c ∧
  _readWriteBreaker c' = _readWriteBreaker c ∧ _connectBreaker c' = _connectBreaker c ∧
  _objectPool c' = _objectPool c ++ omap (λ id, _timeoutAlarmMap c !! id) ids.

Lemma twp_cancel_timeouts es ids (c : client) :
  tq_holds (C:=alarm_id) (timers c) es →
  twp (cancel_timeouts ids) (λ _ c', timers_cancelled es ids c c') c.
Proof.
  revert c es. induction ids as [|id ids IH]; intros c es Hq; simpl.
  - apply wp_mret. unfold timers_cancelled. rewrite app_nil_r. split; [|by split_and!].
    exists es. split; [|by intros ? ? ?%elem_of_nil]. split_and!; try done. by left.
  - apply wp_bind, wp_gets. destruct (_timeoutAlarmMap c !! id) as [a|] eqn:E.
    + apply wp_bind, (twp_alarm_Cancel_cancels _ es); [done|]. intros b al q es1 c1 Hc1 Ha1.
      apply wp_bind, wp_modify. set (c2 := c1 <| _objectPool := _ |>).
      assert (cancels es es1 c c2) as Hc2 by exact Hc1.
      eapply wp_mono; [apply (IH c2 es1), Hc1|].
      intros ? c' ((es' & Hc' & Hids) & Hs & H1 & H2 & H3 & H4 & H5 & H6 & H7).
      split; [|split; [eapply same_trans; [|exact Hs]; by split_and!|]].
      * exists es'. split; [by eapply cancels_trans|]. intros id' a' Hin Hm.
        apply elem_of_cons in Hin as [->|Hin].
        -- assert (a' = a) as -> by congruence. by eapply timer_cancelled_later.
        -- destruct Hc2 as (_ & Hs1 & _ & Hal). destruct (Hal a') as [Ea|Hx];
             [|by eapply timer_cancelled_later].
           destruct (Hids id' a' Hin Hm) as [H0 Hq']. split; [done|]. rewrite <-Ea.
           intros Hne. destruct (Hq' Hne) as [? Hni]. split; [done|].
           intros Hnd. by apply Hni, (sublist_ids _ _ Hs1).
      * rewrite H1, H2, H3, H4, H5, H6, H7. split_and!; try done.
        simpl. rewrite E. unfold ObjectPool.release. by rewrite <-app_assoc.
    + eapply wp_mono; [by apply IH|]. intros ? c' ((es' & Hc' & Hids) & Hrest). split.
      * exists es'. split; [done|]. intros id' a' [->|Hin]%elem_of_cons Hm; [congruence|by eapply Hids].
      * simpl. by rewrite E.
Qed.

Definition lost (f : F) : event F := EvCallback f kErrorCodeLoseConnect [].

(** [fs] are the callbacks of the requests [ids]. *)
Definition callbacks_of (m : gmap Z (option F)) (ids : list Z) (fs : list F) : Prop :=
  (λ id, m !! id) <$> ids = (λ f, Some (Some f)) <$> fs.

Lemma lose_callbacks_all ids : ∀ fs (c : client),
  NoDup ids → callbacks_of (_callbackMap c) ids fs →
  lose_callbacks ids c =
  Ret (true, c <| _callbackMap := foldl (λ m id, delete id m) (_callbackMap c) ids |>
               <| trace := trace c ++ map lost fs |>).
Proof.
  unfold callbacks_of. induction ids as [|id ids IH]; intros [|f fs] c Hnd Hf; try done.
  - simpl. rewrite app_nil_r. by destruct c.
  - apply NoDup_cons in Hnd as [Hni Hnd]. rewrite !fmap_cons in Hf. injection Hf as Hid Hf.
    cbn [lose_callbacks]. unfold mbind, ST_mbind, __GetCallback, gets, mbind, ST_mbind.
    cbn [mbind outcome_mbind outcome_bind]. rewrite Hid. simpl. rewrite (IH fs); [|done|].
    + simpl. by rewrite <-app_assoc.
    + simpl. rewrite <-Hf. apply list_fmap_ext. intros i id' Hi. apply lookup_delete_ne.
      intros ->. by apply Hni, (list_elem_of_lookup_2 _ i).
Qed.

Lemma foldl_delete {V} (m : gmap Z (option F)) (w : gmap Z V) id :
  foldl (λ m id, delete id m) m (map_keys w) !! id =
  if decide (is_Some (w !! id)) then None else m !! id.
Proof.
  assert (∀ ids m, foldl (λ m id, delete id m) m ids !! id =
                   if decide (id ∈ ids) then None else (m : gmap Z (option F)) !! id) as ->.
  { clear. induction ids as [|i ids IH]; intros m; simpl; [done|]. rewrite IH.
    repeat case_decide; rewrite ?elem_of_cons in *; try tauto; try done.
    - rewrite lookup_delete, decide_True; naive_solver.
    - apply lookup_delete_ne. naive_solver. }
  apply decide_ext. apply map_keys_elem.
Qed.

Lemma lose_callbacks_stop id ids (c : client) :
  (∀ f, _callbackMap c !! id ≠ Some (Some f)) →
  lose_callbacks (id :: ids) c = Ret (false, c <| _callbackMap := delete id (_callbackMap c) |>).
Proof.
  intros Hid. cbn [lose_callbacks]. unfold mbind, ST_mbind, __GetCallback, gets, mbind, ST_mbind.
  cbn [mbind outcome_mbind outcome_bind].
  destruct (_callbackMap c !! id) as [[f|]|] eqn:E; [by destruct (Hid f)|done|].
  rewrite delete_id by done. by destruct c.
Qed.

(** The buffer that Send is given has as many bytes as its length says. *)
Definition valid_data (data : option (bytes * Z)) : bool :=
  match data with Some (d, n) => (0 <=? n) && (n <=? size d) | None => true end.

(** The request with the bytes of the buffer. *)
Definition attach (data : option (bytes * Z)) (req : SendReq.t) : SendReq.t :=
  match data with Some (d, n) => SendReq.with_data req (take (Z.to_nat n) d) | None => req end.

(** C4: Send while connected queues the request under the current id, registers the
    callback under the same id (in place of one that still waits there), moves to
    the next id, and, when the breaker is in order, raises the signal that wakes
    the thread; it calls nothing.  The request has the first bytes of the buffer, as
    many as it is told, provided that there are so many; a length that the buffer
    has not is undefined behaviour.  Not connected, it refuses, and the callback, if
    there is one, is told so once and not kept. *)
Theorem Send_spec `{!PipeLaws K} ty p data func (c : client) :
  1 ≤ _currentMsgId c < UINT16_MAX →
  if decide (_connectStatus c = kConnected) then
    let id := _currentMsgId c in
    if valid_data data then ∃ c', Send ty p data func c = Ret (true, c') ∧
      trace c' = trace c ∧ _currentMsgId c' = next_id id ∧
      _callbackMap c' = <[id := func]> (_callbackMap c) ∧
      _messageQueue c' = _messageQueue c ++ [MSendReq (attach data (SendReq.new 0 id ty p))] ∧
      (SocketBreaker.ready (_readWriteBreaker c) (os c) →
       SocketBreaker.ready (_readWriteBreaker c') (os c') ∧
       SocketBreaker.IsBreak (_readWriteBreaker c') = true)
    else Send ty p data func c = Undefined
  else ∃ c', Send ty p data func c = Ret (false, c') ∧
    _callbackMap c' = _callbackMap c ∧ _messageQueue c' = _messageQueue c ∧
    trace c' = trace c ++
      match func with Some f => [EvCallback f kErrorCodeNotConnect []] | None => [] end.
Proof.
  intros Hid. destruct (decide (_connectStatus c = kConnected)) as [Hc|Hc].
  2:{ apply twp_Ret. unfold Send. apply wp_bind, wp_gets. rewrite bool_decide_eq_false_2 by done.
      destruct func; wp_run; simpl; rewrite ?app_nil_r; done. }
  cbv zeta. destruct (valid_data data) eqn:Hd.
  2:{ unfold Send, mbind, ST_mbind, gets. simpl. rewrite bool_decide_eq_true_2 by done. simpl.
      destruct data as [[d n]|]; [|done]. simpl in Hd. unfold checking, SendReq.SetData.
      by rewrite Hd. }
  apply twp_Ret. unfold Send. apply wp_bind, wp_gets. cbv beta.
  rewrite bool_decide_eq_true_2 by done. cbn [negb].
  assert (Hu : u16 (_currentMsgId c + 1) = _currentMsgId c + 1)
    by (apply u16_small; unfold UINT16_MAX in *; lia).
  do 2 (apply wp_bind, wp_gets || apply wp_bind, wp_modify; cbv beta zeta). apply wp_bind.
  apply wp_mono with (λ r c', r = attach data (SendReq.new 0 (_currentMsgId c) ty p) ∧
                              c' = c <| _callbackMap := <[_currentMsgId c := func]> (_callbackMap c) |>).
  { destruct data as [[d n]|]; [|by apply wp_mret]. eapply twp_checking; [|by split].
    unfold SendReq.SetData. simpl in Hd. by rewrite Hd. }
  intros ? ? [-> ->]. cbv beta zeta.
  repeat (cbv beta zeta; lazymatch goal with |- wpx _ rw_Break _ _ => fail | _ => wp_step end).
  all: apply twp_rw_Break_ready; intros b br k Hbr; wp_run.
  all: simpl in *; rewrite Hu in *; unfold next_id;
    match goal with H : (?a =? ?b) = _ |- context [?a =? ?b] => rewrite H end.
  all: split_and!; try done; intros Hr; by destruct (Hbr Hr) as (_ & ? & ?).
Qed.

(** ** The end of a connection *)

(** C5: after the thread has ended, __WaitDisconnect tells every written request
    that still waits for an answer that the connection is lost, once and in the
    order of the ids, provided that each of them has a callback; each of its timers
    is cancelled, so that its closure does nothing any more and the queue neither
    holds nor runs it; the timers go back to the pool, no timer and none of these
    callbacks is kept, and there is no thread any more. *)
Theorem WaitDisconnect_notifies (c : client) es fs :
  _thread c = Some PcDone → tq_holds (C:=alarm_id) (timers c) es →
  callbacks_of (_callbackMap c) (map_keys (_timeoutAlarmMap c)) fs →
  ∃ c', __WaitDisconnect c = Ret ((), c') ∧
    trace c' = trace c ++ map lost fs ∧
    (∀ id, _callbackMap c' !! id =
           if decide (is_Some (_timeoutAlarmMap c !! id)) then None else _callbackMap c !! id) ∧
    _timeoutAlarmMap c' = ∅ ∧ _thread c' = None ∧
    _objectPool c' = _objectPool c ++
      omap (λ id, _timeoutAlarmMap c !! id) (map_keys (_timeoutAlarmMap c)) ∧
    ∃ es', tq_holds (C:=alarm_id) (timers c') es' ∧ es' `sublist_of` es ∧
      ∀ id a, _timeoutAlarmMap c !! id = Some a → timer_cancelled es es' c c' a.
Proof.
  intros Ht Hq Hcb. apply twp_Ret. unfold __WaitDisconnect. apply wp_bind, wp_gets. rewrite Ht.
  apply wp_bind, wp_modify, wp_bind, wp_gets, wp_bind. simpl.
  eapply wp_mono; [by apply twp_cancel_timeouts|].
  intros ? c2 ((es' & (Hq' & Hsub & _) & Hids) & Hs & _ & _ & _ & _ & _ & _ & Hp).
  destruct Hs as (Es & _ & _ & Ec & _ & Et & _). simpl in *.
  apply wp_bind, wp_modify, wp_bind. unfold wpx at 1.
  rewrite (lose_callbacks_all _ fs); [|apply map_keys_NoDup|simpl; by rewrite Ec].
  wp_run; simpl; rewrite Ec, Et, Hp, Es; (split_and!; try done; [intros id; by rewrite foldl_delete|]);
    (exists es'; split_and!; [done..|]); intros id al Hm;
    (apply (Hids id al); [|exact Hm]); apply map_keys_elem; by exists al.
Qed.

(** If the written request with the least id has no callback, which a message
    sent with SendNoReply never has and its id, 0, is the least, then __WaitDisconnect
    returns at once: no request is told of the loss, although their timers are
    gone, so that their callbacks are never called; nor are the breakers renewed
    that are marked as broken. *)
Theorem WaitDisconnect_silent (c : client) id ids :
  _thread c = Some PcDone → timers_ok c →
  map_keys (_timeoutAlarmMap c) = id :: ids → (∀ f, _callbackMap c !! id ≠ Some (Some f)) →
  ∃ c', __WaitDisconnect c = Ret ((), c') ∧
    trace c' = trace c ∧ _callbackMap c' = delete id (_callbackMap c) ∧
    _timeoutAlarmMap c' = ∅ ∧ _thread c' = None ∧
    _readWriteBreaker c' = _readWriteBreaker c ∧ _connectBreaker c' = _connectBreaker c.
Proof.
  intros Ht [es Hq] Hk Hid.
  assert (twp __WaitDisconnect (λ _ c', trace c' = trace c ∧
    _callbackMap c' = delete id (_callbackMap c) ∧
    _timeoutAlarmMap c' = ∅ ∧ _thread c' = None ∧
    _readWriteBreaker c' = _readWriteBreaker c ∧ _connectBreaker c' = _connectBreaker c) c) as Hw.
  2:{ apply twp_elim in Hw as ([] & c' & E & H'). eauto. }
  unfold __WaitDisconnect. apply wp_bind, wp_gets. rewrite Ht.
  apply wp_bind, wp_modify, wp_bind, wp_gets, wp_bind. cbv beta.
  change (map_keys (_timeoutAlarmMap (c <| _thread := None |>)))
    with (map_keys (_timeoutAlarmMap c)). rewrite Hk.
  eapply wp_mono; [by apply twp_cancel_timeouts|].
  intros ? c2 (_ & Hs & _ & _ & _ & _ & Hb1 & Hb2 & _).
  destruct Hs as (Es & _ & _ & Ec & _ & Et & _). simpl in Es, Ec, Et, Hb1, Hb2.
  apply wp_bind, wp_modify, wp_bind. unfold wpx at 1.
  rewrite lose_callbacks_stop; [|simpl; by rewrite Ec]. wp_run. simpl.
  by rewrite Ec, Et, Es, Hb1, Hb2.
Qed.

(** C36: NetCore::DisconnectAsync on a connected client whose thread waits in select
    queues a Disconnect packet and then leaves the loop before anything is written:
    whatever select reports next, the packet stays in the queue, and the server is
    never told. *)
Theorem NetCore_Disconnect_unsent (c : client) tick hasMessage code b r :
  _thread c = Some (PcSelect tick hasMessage) → _connectStatus c = kConnected → timers_ok c →
  code ≠ kDisCodeNone →
  ∃ c1 c2 c3, NetCore.DisconnectAsync code b c = Ret ((), c1) ∧
    thread_step r c1 = Ret ((), c2) ∧ thread_step r c2 = Ret ((), c3) ∧
    _thread c3 = Some PcExit ∧ trace c3 = trace c ∧
    _messageQueue c3 = _messageQueue c ++ [MDisconnect (Disconnect.new 0)].
Proof.
  intros Ht Hc Hq Hcode.
  assert (twp (NetCore.DisconnectAsync code b) (λ _ c1, timers_ok c1 ∧ _disCode c1 = code ∧
    _thread c1 = _thread c ∧ trace c1 = trace c ∧
    _messageQueue c1 = _messageQueue c ++ [MDisconnect (Disconnect.new 0)]) c) as H1.
  { unfold NetCore.DisconnectAsync, SendDisconnect, DisconnectAsync.
    apply wp_bind, wp_bind, wp_gets. rewrite Hc. cbn [negb bool_decide decide_rel].
    rewrite bool_decide_eq_true_2 by done. cbn [negb].
    wp_run; simpl in *; try congruence; by split_and!. }
  apply twp_elim in H1 as ([] & c1 & E1 & Hq1 & Hcode1 & Ht1 & Htr1 & Hm1).
  assert (twp (thread_step r) (λ _ c2, timers_ok c2 ∧ _disCode c2 = code ∧
    _thread c2 = Some (PcChecks tick r) ∧ trace c2 = trace c ∧
    _messageQueue c2 = _messageQueue c1) c1) as H2.
  { unfold thread_step. apply wp_bind, wp_gets. rewrite Ht1, Ht. unfold rw_select. wp_run.
    by split_and!. }
  apply twp_elim in H2 as ([] & c2 & E2 & Hq2 & Hcode2 & Ht2 & Htr2 & Hm2).
  assert (twp (thread_step r) (λ _ c3, _thread c3 = Some PcExit ∧ trace c3 = trace c ∧
    _messageQueue c3 = _messageQueue c1) c2) as H3.
  { unfold thread_step. apply wp_bind, wp_gets. rewrite Ht2. unfold rw_checks.
    apply wp_bind, wp_gets, wp_bind, wp_gets. rewrite Hcode2, bool_decide_eq_false_2 by done.
    cbn [negb]. unfold leave. wp_run. simpl. by rewrite Htr2, Hm2. }
  apply twp_elim in H3 as ([] & c3 & E3 & Ht3 & Htr3 & Hm3).
  exists c1, c2, c3. rewrite Hm3. by split_and!.
Qed.

(** ** Being kicked out *)

Lemma kickout_no_reconnect (c : client) :
  wp __RunConnect (λ ret c', ret = kRetConnKickout → _shouldReconnect c' = false) c.
Proof.
  assert (∀ c : client, wp login (λ ret c', ret = kRetConnKickout → _shouldReconnect c' = false) c)
    as Hlogin
    by (intros; unfold login; wp_run; 
        first [done|intros Hx; exfalso; revert Hx; try case_test; by vm_compute]).
  assert (∀ addrs (c : client), wp (open_socket addrs)
            (λ ret c', ret = kRetConnKickout → _shouldReconnect c' = false) c) as Hopen
    by (intros; unfold open_socket; wp_run; first [done|apply Hlogin]).
  unfold __RunConnect. wp_run; first [done|apply Hopen].
Qed.

Lemma twp_lose_callbacks ids (c : client) :
  twp (lose_callbacks ids) (λ _ c', _thread c' = _thread c ∧
         _shouldReconnect c' = _shouldReconnect c) c.
Proof.
  revert c. induction ids as [|id ids IH]; intros c; simpl; [by apply wp_mret|].
  apply wp_bind, wp_GetCallback. intros [f|] m _ _; [|by apply wp_mret].
  wp_run. eapply wp_mono; [apply IH|]. done.
Qed.

Lemma twp_WaitDisconnect (c : client) :
  timers_ok c →
  twp __WaitDisconnect (λ _ c', _thread c' = None ∧ _shouldReconnect c' = _shouldReconnect c) c.
Proof.
  intros [es Hq]. unfold __WaitDisconnect. apply wp_bind, wp_gets.
  destruct (_thread c) eqn:Ht; [|by apply wp_mret].
  apply wp_bind, wp_modify, wp_bind, wp_gets, wp_bind.
  eapply wp_mono; [by apply twp_cancel_timeouts|].
  intros ? c2 (_ & (Es & _) & _ & _ & Hr & _). simpl in *.
  apply wp_bind, wp_modify, wp_bind. eapply wp_mono; [apply twp_lose_callbacks|].
  intros b c3 [Ht3 Hr3]. simpl in *. wp_run; simpl; split; congruence.
Qed.

Lemma wp_SetConnectStatus_eq status (c : client) U :
  wpx U (__SetConnectStatus status) (λ _ c', _connectStatus c' = status ∧ _thread c' = _thread c ∧
    _shouldReconnect c' = _shouldReconnect c ∧ timers c' = timers c) c.
Proof. unfold __SetConnectStatus. by wp_run. Qed.

Lemma run_connecting_kickout (c : client) :
  wp run_connecting (λ _ c1, _connectStatus c1 = kConnectKickout →
    _thread c1 = Some PcExit ∧ _shouldReconnect c1 = false) c.
Proof.
  unfold run_connecting. apply wp_bind.
  eapply wp_mono; [apply kickout_no_reconnect|]. intros ret c' Hret. cbv beta zeta.
  apply wp_bind. eapply wp_mono; [apply wp_SetConnectStatus_eq|].
  intros ? c2 (Hs2 & _ & Hr2 & _). cbv beta.
  destruct (Z.eqb_spec ret kRetConnSuccess); [wp_run; simpl; by rewrite Hs2|].
  destruct (Z.eqb_spec ret kRetConnKickout) as [Hk|];
    [|wp_run; simpl; rewrite Hs2; by intros].
  specialize (Hret Hk). subst ret. change (kRetConnKickout =? kRetConnTimeout) with false. cbv iota.
  wp_run. simpl. by rewrite Hr2.
Qed.

(** C6: a client that the server does not authorize stays down: when the connecting
    phase ends with the status kicked out, the thread ends, the reconnect alarm
    that it starts reaps it, and no thread is started again. *)
Theorem kickout_stays_down (c c1 : client) :
  run_connecting c = Ret ((), c1) → _connectStatus c1 = kConnectKickout → timers_ok c1 →
  ∃ c2 c3, run_exit c1 = Ret ((), c2) ∧ on_reconnect c2 = Ret ((), c3) ∧
    _connectStatus c2 = kDisconnected ∧ _thread c3 = None.
Proof.
  intros E Hk Hq. destruct (wp_elim _ _ _ _ _ E (run_connecting_kickout c) Hk) as [Ht1 Hr1].
  assert (twp run_exit (λ _ c2, _connectStatus c2 = kDisconnected ∧ _shouldReconnect c2 = false ∧
                               timers_ok c2) c1) as H2.
  { unfold run_exit. apply wp_bind, wp_gets, wp_bind.
    apply wp_mono with (λ _ c', _shouldReconnect c' = false ∧ timers_ok c'); [wp_run; by split|].
    intros ? c' [Hr' Hq']. apply wp_bind. eapply wp_mono; [apply wp_SetConnectStatus_eq|].
    intros ? c'' (Hs & _ & Hr & Hq''). cbv beta.
    assert (timers_ok c'') by (unfold timers_ok; by rewrite Hq'').
    wp_run. simpl. by rewrite Hr. }
  apply twp_elim in H2 as ([] & c2 & E2 & Hs2 & Hr2 & Hq2).
  assert (twp on_reconnect (λ _ c3, _thread c3 = None) c2) as H3.
  { unfold on_reconnect. apply wp_bind. eapply wp_mono; [by apply twp_WaitDisconnect|].
    intros ? c3 [Ht3 Hr3]. apply wp_bind, wp_gets. rewrite Hr3, Hr2. by apply wp_mret. }
  apply twp_elim in H3 as ([] & c3 & E3 & Ht3). by exists c2, c3.
Qed.

(** A kick-out that the server announces on an open connection can be overridden:
    if the timeout of a request that waits for an answer fires before the thread
    has left the loop, DisconnectAsync is called again, and the client, which was
    told not to reconnect, will. *)
Theorem kickout_overridden (c : client) p m a id f :
  _thread c = Some p → _connectStatus c = kConnected → _timeoutDisconnect c = false →
  Disconnect._type m = Disconnect.DiscTypeKickout →
  Alarm.GetUserData (alarms c a) = id → _callbackMap c !! id = Some (Some f) →
  ∃ c1 c2, __handleDisconnect m c = Ret ((), c1) ∧ on_send_timeout a c1 = Ret ((), c2) ∧
    _disCode c1 = kDisCodeKickout ∧ _shouldReconnect c1 = false ∧
    _disCode c2 = kDisCodeSendReqTimeout ∧ _shouldReconnect c2 = true.
Proof.
  intros Ht Hc Hto Hm Hid Hf.
  assert (twp (__handleDisconnect m) (λ _ c1, _disCode c1 = kDisCodeKickout ∧
    _shouldReconnect c1 = false ∧ _thread c1 = Some p ∧ _connectStatus c1 = kConnected ∧
    _timeoutDisconnect c1 = false ∧ alarms c1 = alarms c ∧ _callbackMap c1 = _callbackMap c) c) as H1.
  { unfold __handleDisconnect, DisconnectAsync. rewrite Hm. cbn [SvrDisCode_of].
    rewrite decide_True by done. wp_run; try congruence; split_and!; simpl; congruence. }
  apply twp_elim in H1 as ([] & c1 & E1 & Hd1 & Hr1 & Ht1 & Hc1 & Hto1 & Ha1 & Hcb1).
  assert (twp (on_send_timeout a) (λ _ c2, _disCode c2 = kDisCodeSendReqTimeout ∧
    _shouldReconnect c2 = true) c1) as H2.
  { unfold on_send_timeout. apply wp_bind, wp_gets, wp_bind, wp_gets, wp_bind.
    rewrite Ha1, Hid.
    apply wp_mono with (λ _ c', _thread c' = Some p ∧ _connectStatus c' = kConnected ∧
      _timeoutDisconnect c' = false ∧ _callbackMap c' = _callbackMap c);
      [wp_run; by split_and!|].
    intros ? c' (Ht' & Hc' & Hto' & Hcb'). apply wp_bind. unfold __GetCallback.
    apply wp_bind, wp_gets. rewrite Hcb', Hf. unfold DisconnectAsync.
    wp_run; simpl in *; rewrite ?Hc', ?Hto', ?bool_decide_eq_true_2 in * by done; done || congruence. }
  apply twp_elim in H2 as ([] & c2 & E2 & Hd2 & Hr2). by exists c1, c2.
Qed.

(** ** Timers of requests *)

Lemma twp_pool_Get_new (Φ : alarm_id → client → Prop) (c : client) :
  _objectPool c = [] →
  Φ (Pooled (next_alarm c)) (set_alarm (Pooled (next_alarm c)) (Alarm.new 0) c
                               <| next_alarm := Pos.succ (next_alarm c) |>) →
  twp pool_Get Φ c.
Proof.
  intros Hp HΦ. unfold wpx, pool_Get, ObjectPool.Get. rewrite Hp. simpl.
  rewrite bool_decide_eq_true_2 by done.
  replace (c <| _objectPool := [] |>) with c by (rewrite <-Hp; by destruct c). done.
Qed.

Lemma twp_pool_Get_reuse (Φ : alarm_id → client → Prop) (c : client) pool a :
  _objectPool c = pool ++ [a] → a ≠ Pooled (next_alarm c) →
  Φ a (c <| _objectPool := pool |>) → twp pool_Get Φ c.
Proof.
  intros Hp Ha HΦ. unfold wpx, pool_Get, ObjectPool.Get. rewrite Hp, last_snoc.
  rewrite bool_decide_eq_false_2 by done. by rewrite removelast_last.
Qed.

(** An alarm that is started already stays as it is. *)
Lemma twp_Start_waiting (Φ : bool → client → Prop) (c : client) a sec :
  Alarm.IsWaiting (alarms c a) = true →
  Φ false ((set_alarm a (alarms c a) c) <| timers := timers c |>) →
  twp (alarm_Start a sec) Φ c.
Proof.
  intros Hw%bool_decide_eq_true HΦ. unfold wpx, alarm_Start, Alarm.Start.
  destruct (Alarm._innerCallback _); [|done]. by rewrite decide_True.
Qed.

(** The timers of messages without reply all have the key 0.  When a second one
    is written while the timer of the first runs, that alarm goes to the pool still
    started; the next request is given it, its Start is refused, and the request
    times out when the first message would have, instead of ten seconds after it
    was written. *)
Theorem NoReply_timer_reused (c : client) l id :
  timers_ok c → _objectPool c = [] → _timeoutAlarmMap c !! 0 = Some (Pooled l) →
  (l < next_alarm c)%positive → Alarm.IsWaiting (alarms c (Pooled l)) = true →
  id ≠ 0 → _timeoutAlarmMap c !! id = None →
  ∃ c1 c2, start_timeout 0 c = Ret ((), c1) ∧ start_timeout id c1 = Ret ((), c2) ∧
    _timeoutAlarmMap c2 !! id = Some (Pooled l) ∧ timers c2 = timers c1 ∧
    Alarm._messageId (alarms c2 (Pooled l)) = Alarm._messageId (alarms c (Pooled l)) ∧
    Alarm.GetUserData (alarms c2 (Pooled l)) = id.
Proof.
  intros Hq Hp Hm Hl Hw Hid Hmid.
  assert (twp (start_timeout 0) (λ _ c1, _objectPool c1 = [Pooled l] ∧
    alarms c1 (Pooled l) = alarms c (Pooled l) ∧ (l < next_alarm c1)%positive ∧
    _timeoutAlarmMap c1 !! id = None) c) as H1.
  { assert (Pooled (next_alarm c) ≠ Pooled l) by (intros [=]; lia).
    unfold start_timeout. apply wp_bind, twp_pool_Get_new; [done|].
    repeat (cbv beta zeta; lazymatch goal with
                           | |- wpx _ (match _ with _ => _ end) _ _ => fail
                           | |- wpx _ (alarm_Start _ _) _ _ => fail | _ => wp_step end).
    apply twp_alarm_Start; [done|]. intros ? al q' _. apply wp_bind, wp_gets. cbv beta. simpl.
    rewrite Hm. wp_run. simpl. rewrite Hp, !fn_lookup_insert_ne, lookup_insert_ne by done.
    split_and!; try done. lia. }
  apply twp_elim in H1 as ([] & c1 & E1 & Hp1 & Ha1 & Hl1 & Hm1).
  assert (twp (start_timeout id) (λ _ c2, _timeoutAlarmMap c2 !! id = Some (Pooled l) ∧
    timers c2 = timers c1 ∧
    Alarm._messageId (alarms c2 (Pooled l)) = Alarm._messageId (alarms c (Pooled l)) ∧
    Alarm.GetUserData (alarms c2 (Pooled l)) = id) c1) as H2.
  { unfold start_timeout. apply wp_bind, (twp_pool_Get_reuse _ _ [] (Pooled l));
      [done|intros [=]; lia|].
    apply wp_bind, wp_modify, wp_bind, wp_modify, wp_bind. apply twp_Start_waiting.
    { simpl. rewrite !fn_lookup_insert. unfold Alarm.IsWaiting in *. simpl. by rewrite Ha1. }
    apply wp_bind, wp_gets. cbv beta. simpl. rewrite Hm1. wp_run. simpl.
    rewrite !fn_lookup_insert, lookup_insert, decide_True by done. simpl. by rewrite Ha1. }
  apply twp_elim in H2 as ([] & c2 & E2 & H2). by exists c1, c2.
Qed.

End props.
