(* ===== verification/ClientDemo.v ===== *)
(** * ClientDemo: witnesses of the properties of ClientProps.v, in the world of Demo.v *)
From stdpp Require Import functions.
From S2P Require Import Prelude TcpError Sockets TcpIO Gzip FixHeader Message.
From S2P Require Import SocketBreaker MessageQueue Alarm TcpDefine TcpClient NetCore Logic.
From S2P Require Import System ClientProps Demo.
Import TcpClient.

#[local] Existing Instance OnePipe.kernel.
#[local] Existing Instance OnePipe.laws.

#[local] Instance world_laws : PipeLaws World.t :=
  part_laws World.pipes World.put_pipes (λ _ _, eq_refl).

Definition resting : demo_client := cl demo_start.

Definition connected : demo_client :=
  resting <| _connectStatus := kConnected |> <| _thread := Some (PcSelect 0 false) |>.

Lemma timers_empty (c : demo_client) : timers c = MessageQueue.new → timers_ok c.
Proof.
  intros E. exists []. rewrite E. apply holds_empty; [done..|by vm_compute].
Qed.

Lemma Send_spec_witness :
  (∃ c', Send (str "a") (str "1") (Some (str "xyz", 2)) (Some 7%nat) connected = Ret (true, c') ∧
    _callbackMap c' !! 1 = Some (Some 7%nat) ∧
    map (λ m, match m with MSendReq r => SendReq._data r | _ => [] end) (_messageQueue c')
    = [str "xy"] ∧ SocketBreaker.IsBreak (_readWriteBreaker c') = true) ∧
  Send (str "a") (str "1") (Some (str "xyz", 4)) (Some 7%nat) connected = Undefined.
Proof.
  assert (1 ≤ _currentMsgId connected < UINT16_MAX) as Hid by (unfold UINT16_MAX; simpl; lia).
  split.
  - pose proof (Send_spec (str "a") (str "1") (Some (str "xyz", 2)) (Some 7%nat) connected Hid) as H'.
    destruct (decide _) as [_|n]; [|by destruct n]. simpl in H'.
    destruct H' as (c' & E & _ & _ & Hc & Hm & Hb). exists c'. split; [exact E|].
    split; [rewrite Hc; by vm_compute|]. split; [rewrite Hm; by vm_compute|].
    apply Hb. by vm_compute.
  - pose proof (Send_spec (str "a") (str "1") (Some (str "xyz", 4)) (Some 7%nat) connected Hid) as H'.
    destruct (decide _) as [_|n]; [|by destruct n]. exact H'.
Defined.

(** A client whose thread has ended while request 1 waits for an answer. *)
Definition broken_off (callbacks : gmap Z (option nat)) : demo_client :=
  resting <| _thread := Some PcDone |> <| _callbackMap := callbacks |>
          <| _timeoutAlarmMap := {[1 := Pooled 1]} |>.

Lemma callback_skips (al : Alarm.t closure) :
  snd (Alarm.callback al) = false → Alarm.callback al = (al, false).
Proof. unfold Alarm.callback. by destruct (_ =? 0). Qed.

(** The timer of the request has been started: message 1 of the queue. *)
Definition timed_out : demo_client :=
  (broken_off {[1 := Some 7%nat]}) <| alarms := <[Pooled 1%positive :=
    Alarm.mk (Some CbSendTimeout) 1 Alarm.kStatusStart 1]> demo_alarms |>.

Definition one_message : list (MessageQueue.entry alarm_id) :=
  [MessageQueue.mkEntry (Some (Pooled 1)) 1 10000000000].

Lemma one_message_queue : ∃ q, tq_holds (C:=alarm_id) q one_message.
Proof.
  destruct (tq_post_law _ [] 0 10 (Pooled 1) (holds_empty MessageQueue.new eq_refl eq_refl ltac:(by vm_compute)))
    as (q' & _ & _ & Hq' & _). by exists q'.
Qed.

Lemma WaitDisconnect_notifies_witness :
  ∃ q c', __WaitDisconnect (timed_out <| timers := q |>) = Ret ((), c') ∧
    trace c' = [EvCallback 7%nat kErrorCodeLoseConnect []] ∧ _callbackMap c' !! 1 = None ∧
    Alarm.callback (alarms c' (Pooled 1)) = (alarms c' (Pooled 1), false) ∧
    1 ∈ tq_cancelled (C:=alarm_id) (timers c').
Proof.
  destruct one_message_queue as [q Hq].
  destruct (WaitDisconnect_notifies (timed_out <| timers := q |>) one_message [7%nat])
    as (c' & E & Ht & Hc & _ & _ & _ & es' & _ & _ & Ha); [done|exact Hq|by vm_compute|].
  destruct (Ha 1 (Pooled 1)) as [H0 H1]; [by vm_compute|].
  exists q, c'. split; [exact E|]. split; [exact Ht|]. split; [rewrite Hc; by vm_compute|].
  split; [by apply callback_skips|]. by apply H1.
Defined.

Lemma WaitDisconnect_silent_witness :
  ∃ c', __WaitDisconnect (broken_off ∅) = Ret ((), c') ∧ trace c' = [] ∧ _thread c' = None.
Proof.
  destruct (WaitDisconnect_silent (broken_off ∅) 1 [])
    as (c' & E & Ht & _ & _ & Hth & _);
    [done|by apply timers_empty|by vm_compute|by intros f [=]|].
  exists c'. split; [exact E|]. split; [exact Ht|exact Hth].
Defined.

Lemma NetCore_Disconnect_unsent_witness :
  ∃ c1 c2 c3, NetCore.DisconnectAsync kDisCodeReset false connected = Ret ((), c1) ∧
    thread_step (ready true true) c1 = Ret ((), c2) ∧
    thread_step (ready true true) c2 = Ret ((), c3) ∧
    _thread c3 = Some PcExit ∧ _messageQueue c3 = [MDisconnect (Disconnect.new 0)].
Proof.
  destruct (NetCore_Disconnect_unsent connected 0 false kDisCodeReset false (ready true true))
    as (c1 & c2 & c3 & E1 & E2 & E3 & Ht & _ & Hm); [done|done|by apply timers_empty|done|].
  exists c1, c2, c3. split; [exact E1|]. split; [exact E2|]. split; [exact E3|].
  split; [exact Ht|exact Hm].
Defined.

(** A server that answers the login with the return code RetCodeNotAuthorized. *)
Definition unauthorized : demo_client :=
  resting <| _thread := Some PcConnecting |> <| _disCode := kDisCodeNone |>
          <| os := World.mk (SegmentedKernel.mk [map byte_of [32; 2; 0; 3]] [] 1000)
                            (OnePipe.mk 0 true true) 1000000000 |>.

Definition kicked (c : demo_client) : Prop :=
  _connectStatus c = kConnectKickout ∧ timers c = MessageQueue.new.

Definition returns {A} (m : checked (unit * A)) (P : A → Prop) : Prop :=
  match returned m with Some a => P a | None => False end.

Lemma returns_elim {A} (m : checked (unit * A)) (P : A → Prop) :
  returns m P → ∃ a, m = Ret ((), a) ∧ P a.
Proof. destruct m as [[[] a]| | |]; try done. by exists a. Qed.

Lemma kicked_facts : returns (run_connecting unauthorized) kicked.
Proof. vm_compute. by split_and!. Qed.

Lemma unauthorized_end : ∃ c1, run_connecting unauthorized = Ret ((), c1) ∧ kicked c1.
Proof. exact (returns_elim _ _ kicked_facts). Qed.

Lemma kickout_stays_down_witness :
  ∃ c1 c2 c3, run_connecting unauthorized = Ret ((), c1) ∧ run_exit c1 = Ret ((), c2) ∧
    on_reconnect c2 = Ret ((), c3) ∧ _thread c3 = None.
Proof.
  destruct unauthorized_end as (c1 & E & Hs & Hq).
  destruct (kickout_stays_down unauthorized c1 E Hs (timers_empty c1 Hq))
    as (c2 & c3 & E2 & E3 & _ & Ht).
  exists c1, c2, c3. split; [exact E|]. split; [exact E2|]. split; [exact E3|exact Ht].
Defined.

Definition demo_kickout : Disconnect.t :=
  Disconnect.mk (newHeader kMsgDisconnect 0) Disconnect.DiscTypeKickout.

Lemma kickout_overridden_witness :
  let c := connected <| _callbackMap := {[0 := Some 7%nat]} |> in
  ∃ c1 c2, __handleDisconnect demo_kickout c = Ret ((), c1) ∧
    on_send_timeout (Pooled 1) c1 = Ret ((), c2) ∧
    _shouldReconnect c1 = false ∧ _shouldReconnect c2 = true.
Proof.
  intros c.
  destruct (kickout_overridden c (PcSelect 0 false) demo_kickout
              (Pooled 1) 0 7%nat) as (c1 & c2 & E1 & E2 & _ & H1 & _ & H2); try by vm_compute.
  exists c1, c2. split; [exact E1|]. split; [exact E2|]. split; [exact H1|exact H2].
Defined.

Lemma NoReply_timer_reused_witness :
  let c := connected <| _timeoutAlarmMap := {[0 := Pooled 1]} |> <| next_alarm := 2%positive |>
             <| alarms := <[Pooled 1%positive :=
                            Alarm.mk (Some CbSendTimeout) 77 Alarm.kStatusStart 0]> demo_alarms |> in
  ∃ c1 c2, start_timeout 0 c = Ret ((), c1) ∧ start_timeout 1 c1 = Ret ((), c2) ∧
    _timeoutAlarmMap c2 !! 1 = Some (Pooled 1) ∧ Alarm._messageId (alarms c2 (Pooled 1)) = 77.
Proof.
  intros c.
  destruct (NoReply_timer_reused c 1%positive 1) as (c1 & c2 & E1 & E2 & Hm & _ & Hid & _);
    [by apply timers_empty|by vm_compute..|].
  exists c1, c2. split; [exact E1|]. split; [exact E2|]. split; [exact Hm|exact Hid].
Defined.
