(* ===== verification/Jni.v ===== *)
(** * Jni: the binding for Android (src/jni/)

    The native methods of the Java class TcpClient, and the closures by which the
    client calls the listeners of the application.  The functions of jni.h are the
    class [JNI] over the state [J] of the Java virtual machine, as one thread sees it;
    passing NULL where jni.h does not allow it is undefined. *)
From S2P Require Import Prelude Monad TcpError Sockets TcpIO Gzip FixHeader Message.
From S2P Require Import SocketBreaker TimeUtils UnixSocket MessageQueue Alarm TcpDefine.
From S2P Require Import DnsQuery TcpClient NetCore.

(** ** jni.h *)

Definition jobject : Set := option Z.                  (* None: NULL *)
Inductive jvalue : Set := JInt (z : Z) | JObject (o : jobject).

Definition JNI_OK : Z := 0.
Definition JNI_EDETACHED : Z := -2.

(** A JNIEnv pointer is a number, NULL is [None]. *)
Class JNI (J : Type) := {
  GetEnv : J → Z * option Z * J;                       (* the status, and *env *)
  AttachCurrentThread : J → Z * option Z * J;          (* None: *env is not written *)
  DetachCurrentThread : J → J;
  ExceptionOccurred : Z → J → jobject * J;
  NewLocalRef : Z → jobject → J → jobject * J;
  DeleteLocalRef : Z → jobject → J → J;
  NewGlobalRef : Z → jobject → J → jobject * J;
  DeleteGlobalRef : Z → jobject → J → J;
  FindClass : Z → bytes → J → jobject * J;
  GetObjectClass : Z → Z → J → jobject * J;
  GetMethodID : Z → Z → bytes → bytes → J → option Z * J;
  CallVoidMethod : Z → Z → Z → list jvalue → J → J;
  CallObjectMethod : Z → Z → Z → list jvalue → J → jobject * J;
  NewObject : Z → Z → Z → list jvalue → J → jobject * J;
  GetStringUTFChars : Z → Z → J → option (Z * bytes) * J;   (* pointer and contents *)
  ReleaseStringUTFChars : Z → Z → Z → J → J;
  NewStringUTF : Z → bytes → J → jobject * J;
  NewByteArray : Z → Z → J → jobject * J;
  SetByteArrayRegion : Z → Z → Z → Z → bytes → J → J;
  GetByteArrayRegion : Z → Z → Z → Z → J → bytes * J;
  GetArrayLength : Z → Z → J → Z * J;
  GetObjectArrayElement : Z → Z → Z → J → jobject * J;
}.

Section pointers.
Context {J : Type}.

(** A pointer that must not be NULL. *)
Definition deref {A} (p : option A) : ST J A :=
  match p with Some a => mret a | None => undefined end.

(** A call without result. *)
Definition perform (f : J → J) : ST J unit := modify f.

End pointers.

(** [strlen], and the string that ends there. *)
Fixpoint c_string (s : bytes) : bytes :=
  match s with
  | [] => []
  | b :: s => if decide (b = Byte.x00) then [] else b :: c_string s
  end.

(** ** class ScopedJstring (scoped_jstring.h, .cc) *)
Module ScopedJstring.

(** A [const char *]: lent by the virtual machine, or of a std::string. *)
Inductive chars : Set := Utf (p : Z) (s : bytes) | Cpp (s : bytes).
Definition contents (c : chars) : bytes := match c with Utf _ s | Cpp s => s end.

Record t : Set := mk {
  env_ : option Z;
  jstr_ : jobject;
  char_ : option chars;
  jstr2char_ : bool;
}.

Section ops.
Context {J : Type} `{!JNI J}.

(** ScopedJstring(JNIEnv*, jstring) *)
Definition of_jstring (_env : option Z) (_jstr : jobject) : ST J t :=
  env ← deref _env;
  jstr ← lift (NewLocalRef env _jstr);
  match jstr with
  | None => mret (mk _env None None true)
  | Some r =>
      exception ← lift (ExceptionOccurred env);
      match exception with
      | Some _ => mret (mk _env jstr None true)
      | None =>
          c ← lift (GetStringUTFChars env r);
          mret (mk _env jstr (option_map (λ '(p, s), Utf p s) c) true)
      end
  end.

(** ScopedJstring(JNIEnv*, const char* ) *)
Definition of_chars (_env : option Z) (_char : option bytes) : ST J t :=
  match _env, _char with
  | Some env, Some char =>
      let s := mk _env None (Some (Cpp char)) false in
      exception ← lift (ExceptionOccurred env);
      match exception with
      | Some _ => mret s
      | None =>
          strClass ← lift (FindClass env (str "java/lang/String"));
          cls ← deref strClass;
          ctorID ← lift (GetMethodID env cls (str "<init>") (str "([BLjava/lang/String;)V"));
          let len := i32 (size (c_string char)) in
          bytes ← lift (NewByteArray env len);
          array ← deref bytes;
          perform (SetByteArrayRegion env array 0 len (c_string char));;
          encoding ← lift (NewStringUTF env (str "utf-8"));
          ctor ← deref ctorID;
          jstr ← lift (NewObject env cls ctor [JObject bytes; JObject encoding]);
          perform (DeleteLocalRef env bytes);;
          perform (DeleteLocalRef env encoding);;
          perform (DeleteLocalRef env strClass);;
          mret (mk _env jstr (Some (Cpp char)) false)
      end
  | _, _ => mret (mk _env None (option_map Cpp _char) false)
  end.

(** ~ScopedJstring *)
Definition destroy (s : t) : ST J unit :=
  match env_ s, jstr_ s, char_ s with
  | Some env, Some r, Some c =>
      exception ← lift (ExceptionOccurred env);
      match exception with
      | Some _ => mret ()
      | None =>
          (match jstr2char_ s, c with
           | true, Utf p _ => perform (ReleaseStringUTFChars env r p)
           | true, Cpp _ => undefined
           | false, _ => mret ()
           end);;
          perform (DeleteLocalRef env (Some r))
      end
  | _, _, _ => mret ()
  end.

Definition GetChar (s : t) : ST J (option bytes) :=
  env ← deref (env_ s);
  exception ← lift (ExceptionOccurred env);
  match exception with
  | Some _ => mret None
  | None => mret (option_map contents (char_ s))
  end.

Definition SafeGetChar (s : t) : ST J bytes :=
  realstr ← GetChar s;
  mret (default [] realstr).

Definition GetJstr (s : t) : ST J jobject :=
  env ← deref (env_ s);
  exception ← lift (ExceptionOccurred env);
  match exception with
  | Some _ => mret None
  | None => mret (jstr_ s)
  end.

End ops.
End ScopedJstring.

(** ** The closures (com_kawayu_go_socket_android_TcpClient.cc)

    Each captures [gListener], the global reference of its listener. *)
Module Jni.

(** The results of a cast from and to the enumerations of tcp_define.h.  A number
    that is not the value of an enumerator is outside the model, except that the
    last two are numbers on the way to Java. *)
Definition DisconnectCode_values : list DisconnectCode :=
  [kDisCodeNone; kDisCodeReset; kDisCodeNetChange; kDisCodeNetLost; kDisCodeKickout;
   kDisCodeLogout; kDisCodeConnectTimeout; kDisCodeSendReqTimeout; kDisCodePingTimeout].
Definition NetType_values : list NetType :=
  [kNetTypeUnknown; kNetTypeWifi; kNetTypeMobile; kNetTypeNoNet].
Definition ConnectStatus_values : list ConnectStatus :=
  [kConnectIdle; kConnecting; kConnected; kDisconnected; kConnectFailed; kConnectKickout].
Definition ErrorCode_values : list ErrorCode :=
  [kErrorCodeNone; kErrorCodeNotConnect; kErrorCodeTimeout; kErrorCodeLoseConnect].

(** The enumerator with a number, and the number of an enumerator. *)
Definition of_number {A} (values : list A) (n : Z) : option A :=
  if n <? 0 then None else values !! Z.to_nat n.
Definition to_number {A} `{!EqDecision A} (values : list A) (a : A) : Z :=
  match list_find (eq a) values with Some (i, _) => Z.of_nat i | None => -1 end.
Definition SvrDisCode_number (d : SvrDisCode) : Z :=
  match d with SvrDisNone => 0 | SvrDisKickout => 1 | SvrDisOther v => v end.

(** The constants of the Java class (com_kawayu_go_socket_android_TcpClient.h), in the
    order of the enumerators that they stand for. *)
Definition DIS_constants : list Z := [0; 1; 2; 3; 4; 5; 6; 7; 8].
Definition NET_TYPE_constants : list Z := [0; 1; 2; 3].
Definition CONN_constants : list Z := [0; 1; 2; 3; 4; 5].
Definition ERR_CODE_constants : list Z := [0; 1; 2; 3].
Definition SVR_DIS_CODE_constants : list Z := [0; 1].

Section closures.
Context {J : Type} `{!JNI J}.

Definition getJniEnv : ST J (option Z * bool) :=
  '(stat, env) ← lift GetEnv;
  if stat =? JNI_EDETACHED then
    '(_, written) ← lift AttachCurrentThread;
    mret (match written with Some _ => written | None => env end, true)
  else mret (env, false).

Definition detach_if (needDetach : bool) : ST J unit :=
  if needDetach then perform DetachCurrentThread else mret ().

(** [newEnv->GetObjectClass(gListener)] and [newEnv->GetMethodID(...)]: the object,
    and the method, which is used later. *)
Definition listener_method (newEnv : Z) (gListener : jobject) (name sig : bytes)
    : ST J (Z * option Z) :=
  listener ← deref gListener;
  listenerClassRef ← lift (GetObjectClass newEnv listener);
  cls ← deref listenerClassRef;
  method ← lift (GetMethodID newEnv cls name sig);
  mret (listener, method).

Definition getConnectInfo (gListener : jobject) : ST J bytes :=
  '(env, needDetach) ← getJniEnv;
  newEnv ← deref env;
  '(listener, getConnectInfo) ←
    listener_method newEnv gListener (str "getConnectInfo") (str "()Ljava/lang/String;");
  method ← deref getConnectInfo;
  connectInfo ← lift (CallObjectMethod newEnv listener method []);
  connect_info_jstr ← ScopedJstring.of_jstring env connectInfo;
  cConnectInfo ← ScopedJstring.SafeGetChar connect_info_jstr;
  ScopedJstring.destroy connect_info_jstr;;
  detach_if needDetach;;
  mret cConnectInfo.

Definition onSendResp (gListener : jobject) (errorCode : ErrorCode) (response : bytes) : ST J unit :=
  '(env, needDetach) ← getJniEnv;
  newEnv ← deref env;
  '(listener, onSendResp) ←
    listener_method newEnv gListener (str "onSendResp") (str "(ILjava/lang/String;)V");
  response_jstr ← ScopedJstring.of_chars env (Some response);
  method ← deref onSendResp;
  jstr ← ScopedJstring.GetJstr response_jstr;
  perform (CallVoidMethod newEnv listener method
             [JInt (to_number ErrorCode_values errorCode); JObject jstr]);;
  perform (DeleteGlobalRef newEnv gListener);;
  ScopedJstring.destroy response_jstr;;
  detach_if needDetach.

(** A listener that is told a number: onConnStatusChange and onServerDisconnect. *)
Definition tell_number (name : bytes) (gListener : jobject) (n : Z) : ST J unit :=
  '(env, needDetach) ← getJniEnv;
  newEnv ← deref env;
  '(listener, method) ← listener_method newEnv gListener name (str "(I)V");
  method ← deref method;
  perform (CallVoidMethod newEnv listener method [JInt n]);;
  detach_if needDetach.

Definition onConnStatusChange (gListener : jobject) (status : ConnectStatus) : ST J unit :=
  tell_number (str "onConnStatusChange") gListener (to_number ConnectStatus_values status).

Definition onServerDisconnect (gListener : jobject) (disCode : SvrDisCode) : ST J unit :=
  tell_number (str "onServerDisconnect") gListener (SvrDisCode_number disCode).

Definition onSendReq (gListener : jobject) (payloadType payload : bytes) : ST J unit :=
  '(env, needDetach) ← getJniEnv;
  newEnv ← deref env;
  '(listener, onSendReq) ←
    listener_method newEnv gListener (str "onSendReq") (str "(Ljava/lang/String;Ljava/lang/String;)V");
  payloadType_jstr ← ScopedJstring.of_chars env (Some payloadType);
  payload_jstr ← ScopedJstring.of_chars env (Some payload);
  method ← deref onSendReq;
  jtype ← ScopedJstring.GetJstr payloadType_jstr;
  jpayload ← ScopedJstring.GetJstr payload_jstr;
  perform (CallVoidMethod newEnv listener method [JObject jtype; JObject jpayload]);;
  ScopedJstring.destroy payloadType_jstr;;
  ScopedJstring.destroy payload_jstr;;
  detach_if needDetach.

(** The loop over the String[]: the elements [i], ..., [i + n - 1]. *)
Fixpoint collect_ips (newEnv result : Z) (n : nat) (i : Z) (ips : list bytes) : ST J (list bytes) :=
  match n with
  | O => mret ips
  | S n =>
      obj ← lift (GetObjectArrayElement newEnv result i);
      match obj with
      | None => collect_ips newEnv result n (i + 1) ips
      | Some r =>
          c ← lift (GetStringUTFChars newEnv r);
          '(_, ip) ← deref c;
          collect_ips newEnv result n (i + 1) (ips ++ [ip])
      end
  end.

(** [host_jstr] is not deleted, nor are the characters of the addresses released. *)
Definition getHttpDns (gListener : jobject) (host : bytes) : ST J (list bytes) :=
  '(env, needDetach) ← getJniEnv;
  newEnv ← deref env;
  host_jstr ← ScopedJstring.of_chars env (Some host);
  '(listener, getHttpDns) ←
    listener_method newEnv gListener (str "getHttpDns") (str "(Ljava/lang/String;)[Ljava/lang/String;");
  method ← deref getHttpDns;
  jhost ← ScopedJstring.GetJstr host_jstr;
  result ← lift (CallObjectMethod newEnv listener method [JObject jhost]);
  '(_, written) ← lift AttachCurrentThread;
  let newEnv := default newEnv written in
  array ← deref result;
  size ← lift (GetArrayLength newEnv array);
  ips ← collect_ips newEnv array (Z.to_nat size) 0 [];
  perform DetachCurrentThread;;
  mret ips.

End closures.

(** ** The native methods

    The static client of NetCore, the virtual machine, and the listeners that the
    closures held by the client capture. *)
Section natives.
Context {J S K Q : Type} `{!JNI J}.
Context `{!ISocket S K, !SocketControl S K, !Services S K}.
Context `{!PipeKernel K, !Clock K, !SockOpts K}.
Context `{!TimerQueue Q alarm_id, !Zlib}.

Record t : Type := mk {
  jvm : J;
  client : TcpClient.t S K Q jobject;
  connectInfoListener : option jobject;      (* None: no closure is set *)
  statusListener : option jobject;
  sendReqListener : option jobject;
  disconnectListener : option jobject;
  httpDnsListener : option jobject;
}.
#[export] Instance t_rebuild : Rebuild t := λ s,
  mk (jvm s) (client s) (connectInfoListener s) (statusListener s) (sendReqListener s)
     (disconnectListener s) (httpDnsListener s).

Definition java {A} (m : ST J A) : ST t A := zoom jvm (λ j s, s <| jvm := j |>) m.
Definition core {A} (m : ST (TcpClient.t S K Q jobject) A) : ST t A :=
  zoom client (λ c s, s <| client := c |>) m.

(** A ScopedJstring passed where a std::string is expected. *)
Definition std_string (s : ScopedJstring.t) : ST J bytes :=
  c ← ScopedJstring.GetChar s;
  deref c.

Definition initHostAndPort (WITH_SSL : bool) (env : Z) (host backupIp : jobject) (port : Z)
    (isTls : bool) (listener : jobject) : ST t unit :=
  host_jstr ← java (ScopedJstring.of_jstring (Some env) host);
  backupIp_jstr ← java (ScopedJstring.of_jstring (Some env) backupIp);
  gListener ← java (lift (NewGlobalRef env listener));
  chost ← java (std_string host_jstr);
  cbackup ← java (std_string backupIp_jstr);
  core (NetCore.InitHostAndPort chost cbackup port isTls WITH_SSL true);;
  modify (λ s, s <| connectInfoListener := Some gListener |>);;
  java (ScopedJstring.destroy backupIp_jstr);;
  java (ScopedJstring.destroy host_jstr).

Definition makeSureConnected : ST t unit := core NetCore.MakeSureConnected.

Definition disconnectAsync (code : Z) (shouldReconnect : bool) : ST t unit :=
  match of_number DisconnectCode_values code with
  | Some code => core (NetCore.DisconnectAsync code shouldReconnect)
  | None => undefined
  end.

(** The call of NetCore::Send, with [char cData[len]] or without. *)
Definition send_strings (env : Z) (payload_type_jstr payload_jstr : ScopedJstring.t)
    (data callback : jobject) : ST t bool :=
  match data with
  | None =>
      type ← java (std_string payload_type_jstr);
      payload ← java (std_string payload_jstr);
      core (NetCore.Send type payload (Some callback))
  | Some data =>
      len ← java (lift (GetArrayLength env data));
      if len <? 0 then undefined
      else
        cData ← java (lift (GetByteArrayRegion env data 0 len));
        type ← java (std_string payload_type_jstr);
        payload ← java (std_string payload_jstr);
        core (NetCore.SendData type payload cData len (Some callback))
  end.

Definition send (env : Z) (payloadType payload data listener : jobject) : ST t bool :=
  payload_type_jstr ← java (ScopedJstring.of_jstring (Some env) payloadType);
  payload_jstr ← java (ScopedJstring.of_jstring (Some env) payload);
  gListener ← java (lift (NewGlobalRef env listener));
  ret ← send_strings env payload_type_jstr payload_jstr data gListener;
  java (ScopedJstring.destroy payload_jstr);;
  java (ScopedJstring.destroy payload_type_jstr);;
  mret ret.

Definition sendNoReply (env : Z) (payloadType payload : jobject) : ST t bool :=
  payload_type_jstr ← java (ScopedJstring.of_jstring (Some env) payloadType);
  payload_jstr ← java (ScopedJstring.of_jstring (Some env) payload);
  type ← java (std_string payload_type_jstr);
  cpayload ← java (std_string payload_jstr);
  ret ← core (NetCore.SendNoReply type cpayload);
  java (ScopedJstring.destroy payload_jstr);;
  java (ScopedJstring.destroy payload_type_jstr);;
  mret ret.

Definition setOnConnStatusChange (env : Z) (listener : jobject) : ST t unit :=
  gListener ← java (lift (NewGlobalRef env listener));
  core (NetCore.SetOnConnStatusChange true);;
  modify (λ s, s <| statusListener := Some gListener |>).

Definition setOnSendReq (env : Z) (listener : jobject) : ST t unit :=
  gListener ← java (lift (NewGlobalRef env listener));
  core (NetCore.SetOnSendReq true);;
  modify (λ s, s <| sendReqListener := Some gListener |>).

Definition setOnServerDisconnect (env : Z) (listener : jobject) : ST t unit :=
  gListener ← java (lift (NewGlobalRef env listener));
  core (NetCore.SetOnServerDisconnect true);;
  modify (λ s, s <| disconnectListener := Some gListener |>).

Definition setHttpDnsListener `{!DnsStatic K} (env : Z) (listener : jobject) : ST t unit :=
  gListener ← java (lift (NewGlobalRef env listener));
  core (NetCore.SetHttpDns true);;
  modify (λ s, s <| httpDnsListener := Some gListener |>).

Definition setNetType (netType : Z) : ST t unit :=
  match of_number NetType_values netType with
  | Some netType => core (NetCore.SetNetType netType)
  | None => undefined
  end.

Definition getConnectStatus : ST t Z :=
  status ← core NetCore.GetConnectStatus;
  mret (to_number ConnectStatus_values status).

(** What the client tells the application, on the way to its listeners. *)
Definition deliver (e : TcpClient.event jobject) : ST t unit :=
  match e with
  | TcpClient.EvStatus status =>
      l ← gets statusListener; g ← java (deref l); java (onConnStatusChange g status)
  | TcpClient.EvCallback gListener code payload => java (onSendResp gListener code payload)
  | TcpClient.EvSendReq type payload =>
      l ← gets sendReqListener; g ← java (deref l); java (onSendReq g type payload)
  | TcpClient.EvServerDisconnect code =>
      l ← gets disconnectListener; g ← java (deref l); java (onServerDisconnect g code)
  | TcpClient.EvWrite _ => mret ()
  end.

End natives.
Arguments t J S K Q : clear implicits.
End Jni.
