(* ===== verification/JniProps.v ===== *)
(** * JniProps: what the binding for Android promises

    [JvmLaws] says what the code relies on of jni.h: which references and strings a
    call creates and frees.  The closures and the native methods are proved against
    it; the listeners of requests are then followed through the client. *)
From stdpp Require Import functions.
From S2P Require Import Prelude Monad TcpError Sockets TcpIO Gzip FixHeader Message.
From S2P Require Import SocketBreaker TimeUtils UnixSocket MessageQueue Alarm TcpDefine.
From S2P Require Import DnsQuery TcpClient NetCore Jni.
Import Jni.

(** ** The enumerations *)

(** The constants of the Java class are the numbers of the enumerators, as the comment
    in tcp_define.h asks for, *)
Lemma constants_agree :
  to_number DisconnectCode_values <$> DisconnectCode_values = DIS_constants ∧
  to_number NetType_values <$> NetType_values = NET_TYPE_constants ∧
  to_number ConnectStatus_values <$> ConnectStatus_values = CONN_constants ∧
  to_number ErrorCode_values <$> ErrorCode_values = ERR_CODE_constants ∧
  SvrDisCode_number <$> [SvrDisNone; SvrDisKickout] = SVR_DIS_CODE_constants.
Proof. done. Qed.

(** and no enumerator is lost on its way through Java. *)
Lemma of_to_number {A} `{!EqDecision A} (values : list A) a :
  a ∈ values → of_number values (to_number values a) = Some a.
Proof.
  intros Ha. unfold of_number, to_number.
  destruct (list_find_elem_of (eq a) values a Ha eq_refl) as [[i b] E]. rewrite E.
  apply list_find_Some in E as (Hi & <- & _).
  rewrite (proj2 (Z.ltb_ge _ _)) by lia. by rewrite Nat2Z.id.
Qed.

(** Every code has its name, as the same comment asks for. *)
Lemma disCodeMap_complete : fst <$> _disCodeMap = DisconnectCode_values.
Proof. done. Qed.

Lemma enumerators_complete :
  (∀ c : DisconnectCode, c ∈ DisconnectCode_values) ∧ (∀ n : NetType, n ∈ NetType_values) ∧
  (∀ s : ConnectStatus, s ∈ ConnectStatus_values) ∧ (∀ e : ErrorCode, e ∈ ErrorCode_values).
Proof. split_and!; intros []; unfold DisconnectCode_values, NetType_values, ConnectStatus_values, ErrorCode_values; set_solver. Qed.

(** ** The virtual machine *)

(** What a listener is told. *)
Inductive jarg : Set := AInt (z : Z) | AString (s : bytes) | AOther | ANull.

(** An object: a string by the characters that GetStringUTFChars gives for it. *)
Inductive content : Set := CString (s : bytes) | CBytes (s : bytes) | CObjects (n : Z) | COther.

(** What one thread sees; [heard] are the calls of methods. *)
Record view : Type := mkView {
  attached : bool;
  locals : gset Z;
  globals : gset Z;
  pinned : gset Z;                 (* the characters lent by GetStringUTFChars *)
  pending : bool;                  (* an exception *)
  object : Z → content;
  heard : list (Z * bytes * list jarg);
}.
#[export] Instance view_rebuild : Rebuild view := λ v,
  mkView (attached v) (locals v) (globals v) (pinned v) (pending v) (object v) (heard v).

Definition add_local (r : Z) (o : content) (v : view) : view :=
  v <| locals := {[r]} ∪ locals v |> <| object := <[r := o]> (object v) |>.
Definition del_local (r : Z) (v : view) : view := v <| locals := locals v ∖ {[r]} |>.

Definition see (v : view) (a : jvalue) : jarg :=
  match a with
  | JInt z => AInt z
  | JObject (Some r) => match object v r with CString s => AString s | _ => AOther end
  | JObject None => ANull
  end.

(** After a Java method, which can throw, and call the library again. *)
Definition method_ran (obj : Z) (name : bytes) (args : list jvalue) (v v' : view) : Prop :=
  attached v' = attached v ∧ globals v ⊆ globals v' ∧ pinned v ⊆ pinned v' ∧
  heard v' = heard v ++ [(obj, name, see v <$> args)].

(** The documented behaviour of jni.h, for a virtual machine that does not run out of
    memory and for listeners that have the methods asked for. *)
Class JvmLaws (J : Type) `{!JNI J} := {
  look : J → view;
  method_name : Z → bytes;
  string_class : Z → Prop;
  string_ctor : Z → Prop;
  from_utf8 : bytes → bytes;       (* new String(bytes, "utf-8") *)

  GetEnv_attached j : attached (look j) = true →
    ∃ env j', GetEnv j = (JNI_OK, Some env, j') ∧ look j' = look j;
  GetEnv_detached j : attached (look j) = false →
    ∃ j', GetEnv j = (JNI_EDETACHED, None, j') ∧ look j' = look j;
  Attach_spec j :
    ∃ env j', AttachCurrentThread j = (JNI_OK, Some env, j') ∧
      look j' = (look j) <| attached := true |>;
  Detach_spec j : let v := look j in let v' := look (DetachCurrentThread j) in
    attached v' = false ∧ locals v' = ∅ ∧ pending v' = false ∧
    globals v' = globals v ∧ pinned v' = pinned v ∧ heard v' = heard v;

  Exception_none env j : pending (look j) = false →
    ∃ j', ExceptionOccurred env j = (None, j') ∧ look j' = look j;
  Exception_some env j : pending (look j) = true →
    ∃ e s j', ExceptionOccurred env j = (Some e, j') ∧ ¬ (e ∈ locals (look j)) ∧
      look j' = add_local e s (look j);

  (* references *)
  NewLocalRef_null env j : ∃ j', NewLocalRef env None j = (None, j') ∧ look j' = look j;
  NewLocalRef_spec env r j :
    ∃ r' j', NewLocalRef env (Some r) j = (Some r', j') ∧ ¬ (r' ∈ locals (look j)) ∧
      look j' = add_local r' (object (look j) r) (look j);
  DeleteLocalRef_spec env r j :
    look (DeleteLocalRef env (Some r) j) = del_local r (look j);
  NewGlobalRef_null env j : ∃ j', NewGlobalRef env None j = (None, j') ∧ look j' = look j;
  NewGlobalRef_spec env r j :
    ∃ g j', NewGlobalRef env (Some r) j = (Some g, j') ∧ ¬ (g ∈ globals (look j)) ∧
      look j' = (look j) <| globals := {[g]} ∪ globals (look j) |>;
  DeleteGlobalRef_spec env g j :
    look (DeleteGlobalRef env (Some g) j)
    = (look j) <| globals := globals (look j) ∖ {[g]} |>;

  (* classes and methods *)
  FindClass_spec env j :
    ∃ c s j', FindClass env (str "java/lang/String") j = (Some c, j') ∧ string_class c ∧
      ¬ (c ∈ locals (look j)) ∧ look j' = add_local c s (look j);
  GetObjectClass_spec env r j :
    ∃ c s j', GetObjectClass env r j = (Some c, j') ∧ ¬ (c ∈ locals (look j)) ∧
      look j' = add_local c s (look j);
  GetMethodID_spec env c name sig j :
    ∃ m j', GetMethodID env c name sig j = (Some m, j') ∧ look j' = look j ∧
      method_name m = name ∧ (string_class c → name = str "<init>" → string_ctor m);
  CallVoidMethod_spec env obj m args j : let j' := CallVoidMethod env obj m args j in
    method_ran obj (method_name m) args (look j) (look j') ∧ locals (look j') = locals (look j);
  CallObjectMethod_spec env obj m args j :
    ∃ o j', CallObjectMethod env obj m args j = (o, j') ∧
      method_ran obj (method_name m) args (look j) (look j') ∧
      (pending (look j') = true → o = None) ∧
      match o with
      | None => locals (look j') = locals (look j)
      | Some r => ¬ (r ∈ locals (look j)) ∧ locals (look j') = {[r]} ∪ locals (look j)
      end;

  (* strings and arrays *)
  GetStringUTFChars_spec env r j :
    ∃ p s j', GetStringUTFChars env r j = (Some (p, s), j') ∧
      (∀ s', object (look j) r = CString s' → s = s') ∧
      ¬ (p ∈ pinned (look j)) ∧ look j' = (look j) <| pinned := {[p]} ∪ pinned (look j) |>;
  ReleaseStringUTFChars_spec env r p j :
    look (ReleaseStringUTFChars env r p j)
    = (look j) <| pinned := pinned (look j) ∖ {[p]} |>;
  NewStringUTF_spec env s j :
    ∃ r j', NewStringUTF env s j = (Some r, j') ∧ ¬ (r ∈ locals (look j)) ∧
      look j' = add_local r (CString s) (look j);
  NewByteArray_spec env n j : 0 ≤ n →
    ∃ r (s : bytes) j', NewByteArray env n j = (Some r, j') ∧ ¬ (r ∈ locals (look j)) ∧ size s = n ∧
      look j' = add_local r (CBytes s) (look j);
  SetByteArrayRegion_spec env r s s' j :
    object (look j) r = CBytes s → size s = size s' →
    look (SetByteArrayRegion env r 0 (size s) s' j)
    = (look j) <| object := <[r := CBytes s']> (object (look j)) |>;
  NewString_spec env c m array bs enc j :
    string_class c → string_ctor m →
    object (look j) array = CBytes bs → object (look j) enc = CString (str "utf-8") →
    ∃ r j', NewObject env c m [JObject (Some array); JObject (Some enc)] j = (Some r, j') ∧
      ¬ (r ∈ locals (look j)) ∧ look j' = add_local r (CString (from_utf8 bs)) (look j);
  GetArrayLength_spec env r j :
    ∃ n j', GetArrayLength env r j = (n, j') ∧ 0 ≤ n ∧ look j' = look j ∧
      (∀ s, object (look j) r = CBytes s → n = size s);
  GetByteArrayRegion_spec env r s j :
    object (look j) r = CBytes s →
    ∃ j', GetByteArrayRegion env r 0 (size s) j = (s, j') ∧ look j' = look j;
  GetObjectArrayElement_spec env r i j :
    ∃ o j', GetObjectArrayElement env r i j = (o, j') ∧
      match o with
      | None => look j' = look j
      | Some r => ∃ s, ¬ (r ∈ locals (look j)) ∧ look j' = add_local r s (look j)
      end;
}.

(** ** Rules for the calls *)
Section rules.
Context {J : Type} `{!JNI J, !JvmLaws J}.
Context {U : Prop}.
Implicit Types (v : view) (j : J).

Lemma wp_deref {A} (a : A) Φ j : Φ a j → wpx U (deref (Some a)) Φ j.
Proof. done. Qed.
Lemma wp_perform f Φ j : Φ () (f j) → wpx U (perform f) Φ j.
Proof. done. Qed.

(** A call whose result and effect the laws give. *)
Lemma wp_lift_eq {A} (f : J → A * J) a j' (Φ : A → J → Prop) j :
  f j = (a, j') → Φ a j' → wpx U (lift f) Φ j.
Proof. intros E HΦ. apply wp_lift. by rewrite E. Qed.

Lemma wp_no_exception env Φ j :
  pending (look j) = false → (∀ j', look j' = look j → Φ None j') →
  wpx U (lift (ExceptionOccurred env)) Φ j.
Proof.
  intros Hp HΦ. destruct (Exception_none env j Hp) as (j' & E & Hj).
  eapply wp_lift_eq; [exact E|]. by apply HΦ.
Qed.

Lemma wp_getJniEnv Φ j :
  (∀ env j', look j' = (look j) <| attached := true |> →
     Φ (Some env, negb (attached (look j))) j') → wpx U getJniEnv Φ j.
Proof.
  intros HΦ. unfold getJniEnv. apply wp_bind. destruct (attached (look j)) eqn:Ha.
  - destruct (GetEnv_attached j Ha) as (env & j1 & E & Hj). eapply wp_lift_eq; [exact E|]. simpl.
    apply wp_mret. apply HΦ. rewrite Hj. destruct (look j). simpl in *. by subst.
  - destruct (GetEnv_detached j Ha) as (j1 & E & Hj). eapply wp_lift_eq; [exact E|]. simpl.
    destruct (Attach_spec j1) as (env & j2 & E2 & Hj2). apply wp_bind.
    eapply wp_lift_eq; [exact E2|]. apply wp_mret. apply HΦ. by rewrite Hj2, Hj.
Qed.

Lemma wp_NewLocalRef env r Φ j :
  (∀ r' j', ¬ (r' ∈ locals (look j)) → look j' = add_local r' (object (look j) r) (look j) →
     Φ (Some r') j') → wpx U (lift (NewLocalRef env (Some r))) Φ j.
Proof.
  intros HΦ. destruct (NewLocalRef_spec env r j) as (r' & j' & E & Hr & Hj).
  eapply wp_lift_eq; [exact E|]. by apply HΦ.
Qed.

Lemma wp_NewGlobalRef env r Φ j :
  (∀ g j', ¬ (g ∈ globals (look j)) →
     look j' = (look j) <| globals := {[g]} ∪ globals (look j) |> → Φ (Some g) j') →
  wpx U (lift (NewGlobalRef env (Some r))) Φ j.
Proof.
  intros HΦ. destruct (NewGlobalRef_spec env r j) as (g & j' & E & Hg & Hj).
  eapply wp_lift_eq; [exact E|]. by apply HΦ.
Qed.

Lemma wp_GetStringUTFChars env r Φ j :
  (∀ p s j', (∀ s', object (look j) r = CString s' → s = s') → ¬ (p ∈ pinned (look j)) →
     look j' = (look j) <| pinned := {[p]} ∪ pinned (look j) |> → Φ (Some (p, s)) j') →
  wpx U (lift (GetStringUTFChars env r)) Φ j.
Proof.
  intros HΦ. destruct (GetStringUTFChars_spec env r j) as (p & s & j' & E & Hs & Hp & Hj).
  eapply wp_lift_eq; [exact E|]. by apply HΦ.
Qed.

(** The class of the listener and its method. *)
Lemma wp_listener_method env g name sig Φ j :
  (∀ c s m j', ¬ (c ∈ locals (look j)) → look j' = add_local c s (look j) →
     method_name m = name → Φ (g, Some m) j') →
  wpx U (listener_method env (Some g) name sig) Φ j.
Proof.
  intros HΦ. unfold listener_method. apply wp_bind, wp_deref, wp_bind.
  destruct (GetObjectClass_spec env g j) as (c & s & j1 & E & Hc & Hj).
  eapply wp_lift_eq; [exact E|]. apply wp_bind, wp_deref, wp_bind.
  destruct (GetMethodID_spec env c name sig j1) as (m & j2 & E2 & Hj2 & Hm & _).
  eapply wp_lift_eq; [exact E2|]. apply wp_mret. eapply HΦ; [exact Hc| |exact Hm].
  by rewrite Hj2.
Qed.

End rules.

(** ** ScopedJstring *)
Section scoped.
Context {J : Type} `{!JNI J, !JvmLaws J}.
Implicit Types (v : view) (j : J).

Lemma wp_of_jstring {U : Prop} env r Φ j :
  pending (look j) = false →
  (∀ r' p s j', ¬ (r' ∈ locals (look j)) → ¬ (p ∈ pinned (look j)) →
     (∀ s', object (look j) r = CString s' → s = s') →
     look j' = (add_local r' (object (look j) r) (look j)) <| pinned := {[p]} ∪ pinned (look j) |> →
     Φ (ScopedJstring.mk (Some env) (Some r') (Some (ScopedJstring.Utf p s)) true) j') →
  wpx U (ScopedJstring.of_jstring (Some env) (Some r)) Φ j.
Proof.
  intros Hp HΦ. unfold ScopedJstring.of_jstring. apply wp_bind, wp_deref, wp_bind, wp_NewLocalRef.
  intros r' j1 Hr' H1. apply wp_bind, wp_no_exception; [by rewrite H1|]. intros j2 H2.
  apply wp_bind, wp_GetStringUTFChars. intros p s j3 Hs Hpin H3. apply wp_mret.
  rewrite H2, H1 in H3. rewrite H2, H1 in Hpin.
  apply HΦ; [done|done| |exact H3]. intros s' E. apply Hs. rewrite H2, H1. simpl.
  by rewrite fn_lookup_insert.
Qed.

(** The destructor of a string that was lent by the virtual machine. *)
Lemma wp_destroy_lent {U : Prop} env r p s Φ j :
  pending (look j) = false →
  (∀ j', look j' = (del_local r (look j)) <| pinned := pinned (look j) ∖ {[p]} |> → Φ () j') →
  wpx U (ScopedJstring.destroy
           (ScopedJstring.mk (Some env) (Some r) (Some (ScopedJstring.Utf p s)) true)) Φ j.
Proof.
  intros Hp HΦ. unfold ScopedJstring.destroy. simpl. apply wp_bind, wp_no_exception; [done|].
  intros j1 H1. apply wp_bind, wp_perform, wp_perform, HΦ.
  by rewrite DeleteLocalRef_spec, ReleaseStringUTFChars_spec, H1.
Qed.

(** Of one that was made for Java; after an exception it is left alone. *)
Lemma wp_destroy_made {U : Prop} env r s Φ j :
  pending (look j) = false → (∀ j', look j' = del_local r (look j) → Φ () j') →
  wpx U (ScopedJstring.destroy
           (ScopedJstring.mk (Some env) (Some r) (Some (ScopedJstring.Cpp s)) false)) Φ j.
Proof.
  intros Hp HΦ. unfold ScopedJstring.destroy. simpl. apply wp_bind, wp_no_exception; [done|].
  intros j1 H1. apply wp_bind, wp_mret, wp_perform, HΦ. by rewrite DeleteLocalRef_spec, H1.
Qed.

Lemma wp_destroy_pending {U : Prop} env o c b Φ j :
  pending (look j) = true →
  (∀ j' e s, look j' = add_local e s (look j) → Φ () j') → Φ () j →
  wpx U (ScopedJstring.destroy (ScopedJstring.mk (Some env) o c b)) Φ j.
Proof.
  intros Hp HΦ HΦ0. unfold ScopedJstring.destroy. simpl.
  destruct o as [r|]; [|by apply wp_mret]. destruct c as [c|]; [|by apply wp_mret].
  apply wp_bind. destruct (Exception_some env j Hp) as (e & s & j1 & E & _ & H1).
  eapply wp_lift_eq; [exact E|]. apply wp_mret. by eapply HΦ.
Qed.

Lemma wp_GetChar {U : Prop} env o c b Φ j :
  pending (look j) = false → (∀ j', look j' = look j → Φ (option_map ScopedJstring.contents c) j') →
  wpx U (ScopedJstring.GetChar (ScopedJstring.mk (Some env) o c b)) Φ j.
Proof.
  intros Hp HΦ. unfold ScopedJstring.GetChar. apply wp_bind, wp_deref, wp_bind, wp_no_exception; [done|].
  intros j1 H1. by apply wp_mret, HΦ.
Qed.

Lemma wp_GetJstr {U : Prop} env o c b Φ j :
  pending (look j) = false → (∀ j', look j' = look j → Φ o j') →
  wpx U (ScopedJstring.GetJstr (ScopedJstring.mk (Some env) o c b)) Φ j.
Proof.
  intros Hp HΦ. unfold ScopedJstring.GetJstr. apply wp_bind, wp_deref, wp_bind, wp_no_exception; [done|].
  intros j1 H1. by apply wp_mret, HΦ.
Qed.

(** A string made for Java: one local reference more, and nothing else that the
    thread had is touched. *)
Definition made (r : Z) (s : bytes) (v v' : view) : Prop :=
  ¬ (r ∈ locals v) ∧ locals v' = {[r]} ∪ locals v ∧
  object v' r = CString (from_utf8 (J:=J) s) ∧ (∀ r', r' ∈ locals v → object v' r' = object v r') ∧
  attached v' = attached v ∧ globals v' = globals v ∧ pinned v' = pinned v ∧
  pending v' = pending v ∧ heard v' = heard v.

Lemma size_c_string s : size (c_string s) ≤ size s.
Proof.
  induction s as [|b s IH]; simpl; [done|]. rewrite size_cons.
  case_decide; [rewrite size_nil|rewrite size_cons]; pose proof (size_nonneg s); lia.
Qed.

Lemma wp_of_chars {U : Prop} env s Φ j :
  pending (look j) = false → size s < 2 ^ 31 →
  (∀ r j', made r (c_string s) (look j) (look j') →
     Φ (ScopedJstring.mk (Some env) (Some r) (Some (ScopedJstring.Cpp s)) false) j') →
  wpx U (ScopedJstring.of_chars (Some env) (Some s)) Φ j.
Proof.
  intros Hp Hsize HΦ. unfold ScopedJstring.of_chars. apply wp_bind, wp_no_exception; [done|].
  intros j0 H0. apply wp_bind. destruct (FindClass_spec env j0) as (c & o & j1 & E1 & Hc & Hc' & H1).
  eapply wp_lift_eq; [exact E1|]. apply wp_bind, wp_deref, wp_bind.
  destruct (GetMethodID_spec env c (str "<init>") (str "([BLjava/lang/String;)V") j1)
    as (m & j2 & E2 & H2 & _ & Hm). eapply wp_lift_eq; [exact E2|]. specialize (Hm Hc eq_refl).
  pose proof (size_c_string s) as Hle. pose proof (size_nonneg (c_string s)) as Hge.
  cbv zeta. rewrite i32_small by lia. apply wp_bind.
  destruct (NewByteArray_spec env (size (c_string s)) j2 Hge) as (a & bs & j3 & E3 & Ha & Hbs & H3).
  eapply wp_lift_eq; [exact E3|]. apply wp_bind, wp_deref, wp_bind, wp_perform.
  set (j4 := SetByteArrayRegion _ _ _ _ _ _).
  assert (look j4 = (look j3) <| object := <[a := CBytes (c_string s)]> (object (look j3)) |>) as H4.
  { unfold j4. rewrite <-Hbs. apply (SetByteArrayRegion_spec env a bs); [|done]. rewrite H3. simpl.
    by rewrite fn_lookup_insert. }
  clearbody j4. apply wp_bind.
  destruct (NewStringUTF_spec env (str "utf-8") j4) as (n & j5 & E5 & Hn & H5).
  eapply wp_lift_eq; [exact E5|]. apply wp_bind, wp_deref, wp_bind.
  assert (n ≠ a) as Hna.
  { intros ->. apply Hn. rewrite H4, H3. simpl. set_solver. }
  destruct (NewString_spec env c m a (c_string s) n j5) as (r & j6 & E6 & Hr & H6); [done|done|..].
  { rewrite H5. simpl. rewrite fn_lookup_insert_ne by done. rewrite H4. simpl.
    by rewrite fn_lookup_insert. }
  { rewrite H5. simpl. by rewrite fn_lookup_insert. }
  eapply wp_lift_eq; [exact E6|]. do 3 apply wp_bind, wp_perform. apply wp_mret. apply HΦ.
  rewrite !DeleteLocalRef_spec, H6. unfold made. rewrite H5, H4, H3, H2, H1, H0 in *.
  clear - Hr Hn Ha Hc'. simpl in *. split_and!; try done; [set_solver|set_solver| |].
  - by rewrite fn_lookup_insert.
  - intros r' Hr'. rewrite !fn_lookup_insert_ne; [done|set_solver..].
Qed.

End scoped.

(** ** The closures *)
Section closures.
Context {J : Type} `{!JNI J, !JvmLaws J}.
Implicit Types (v : view) (j : J).

(** The end of a closure that began in [v]: the thread is attached as it was, and has
    nothing left when it was not; what was told is kept. *)
Definition restored v v1 v' : Prop :=
  attached v' = attached v ∧ globals v' = globals v1 ∧ pinned v' = pinned v1 ∧
  heard v' = heard v1 ∧
  (attached v = false → locals v' = ∅ ∧ pending v' = false) ∧
  (attached v = true → locals v' = locals v1 ∧ pending v' = pending v1).

Lemma wp_detach_if {U : Prop} v Φ j :
  attached (look j) = true → (∀ j', restored v (look j) (look j') → Φ () j') →
  wpx U (detach_if (negb (attached v))) Φ j.
Proof.
  intros Ha HΦ. unfold detach_if. destruct (attached v) eqn:Hv; simpl.
  - apply wp_mret, HΦ. unfold restored. rewrite Hv. by split_and!.
  - apply wp_perform, HΦ. destruct (Detach_spec j) as (? & ? & ? & ? & ? & ?). unfold restored.
    rewrite Hv. by split_and!.
Qed.

(** The listener [obj] is told [args] once, and nothing else is. *)
Definition told (obj : Z) (name : bytes) (args : list jarg) v v' : Prop :=
  heard v' = heard v ++ [(obj, name, args)] ∧ pinned v ⊆ pinned v' ∧
  attached v' = attached v ∧ (attached v = false → locals v' = ∅ ∧ pending v' = false).

(** What is left of a method that ran, with strings that are then destroyed. *)
Lemma wp_destroy_either {U : Prop} env r s Φ j :
  (∀ j', attached (look j') = attached (look j) → globals (look j') = globals (look j) →
     pinned (look j') = pinned (look j) → heard (look j') = heard (look j) → Φ () j') →
  wpx U (ScopedJstring.destroy
           (ScopedJstring.mk (Some env) (Some r) (Some (ScopedJstring.Cpp s)) false)) Φ j.
Proof.
  intros HΦ. destruct (pending (look j)) eqn:Hp.
  - apply wp_destroy_pending; [done| |by apply HΦ]. intros j' e o E. by apply HΦ; rewrite E.
  - apply wp_destroy_made; [done|]. intros j' E. by apply HΦ; rewrite E.
Qed.

Lemma twp_onSendResp g code response j :
  pending (look j) = false → size response < 2 ^ 31 →
  twp (onSendResp (Some g) code response) (λ _ j',
    told g (str "onSendResp") [AInt (to_number ErrorCode_values code);
                               AString (from_utf8 (J:=J) (c_string response))] (look j) (look j') ∧
    ¬ (g ∈ globals (look j')) ∧ globals (look j) ∖ {[g]} ⊆ globals (look j')) j.
Proof.
  intros Hp Hsize. unfold onSendResp. apply wp_bind, wp_getJniEnv. intros env j1 H1.
  apply wp_bind, wp_deref, wp_bind, wp_listener_method. intros c o m j2 Hc H2 Hm.
  apply wp_bind, wp_of_chars; [by rewrite H2, H1|done|].
  intros r j3 (Hr & _ & Er & _ & Ha3 & Hg3 & Hpin3 & Hp3 & Hh3).
  apply wp_bind, wp_deref, wp_bind, wp_GetJstr; [by rewrite Hp3, H2, H1|]. intros j4 H4.
  apply wp_bind, wp_perform.
  destruct (CallVoidMethod_spec env g m [JInt (to_number ErrorCode_values code); JObject (Some r)] j4)
    as [(Ha5 & Hg5 & Hpin5 & Hh5) _].
  set (j5 := CallVoidMethod _ _ _ _ _) in *. clearbody j5. apply wp_bind, wp_perform, wp_bind.
  apply wp_destroy_either. intros j6 Ha6 Hg6 Hpin6 Hh6.
  apply (wp_detach_if (look j)).
  { by rewrite Ha6, DeleteGlobalRef_spec; simpl; rewrite Ha5, H4, Ha3, H2, H1. }
  intros j' (Ha & Hg & Hpin & Hh & Hdet & _). simpl in *.
  rewrite DeleteGlobalRef_spec in *. simpl in *. rewrite H4 in *. rewrite H2, H1 in *. simpl in *.
  unfold told. rewrite Hh, Hh6, Hh5, Hh3, Hg, Hg6, Hpin, Hpin6, Er, Hm.
  split_and!; try done; set_solver.
Qed.

(** C20: the answer to a request is handed to its listener once, with the code and the
    text up to its first NUL; the global reference of the listener is deleted, and no
    other; and the thread is attached afterwards exactly when it was before, with no
    reference left on a thread that was not, also when the listener throws. *)
Theorem onSendResp_tells g code response j :
  pending (look j) = false → size response < 2 ^ 31 →
  ∃ j', onSendResp (Some g) code response j = Ret ((), j') ∧
    told g (str "onSendResp") [AInt (to_number ErrorCode_values code);
                               AString (from_utf8 (J:=J) (c_string response))] (look j) (look j') ∧
    ¬ (g ∈ globals (look j')) ∧ globals (look j) ∖ {[g]} ⊆ globals (look j').
Proof.
  intros Hp Hs. destruct (twp_elim _ _ _ (twp_onSendResp g code response j Hp Hs)) as ([] & j' & E & H).
  by exists j'.
Qed.

(** The listeners that are told a number. *)
Lemma twp_tell_number name g n j :
  twp (tell_number name (Some g) n) (λ _ j',
    told g name [AInt n] (look j) (look j') ∧ globals (look j) ⊆ globals (look j')) j.
Proof.
  unfold tell_number. apply wp_bind, wp_getJniEnv. intros env j1 H1.
  apply wp_bind, wp_deref, wp_bind, wp_listener_method. intros c o m j2 Hc H2 Hm.
  apply wp_bind, wp_deref, wp_bind, wp_perform.
  destruct (CallVoidMethod_spec env g m [JInt n] j2) as [(Ha5 & Hg5 & Hpin5 & Hh5) _].
  set (j5 := CallVoidMethod _ _ _ _ _) in *. clearbody j5.
  apply (wp_detach_if (look j)); [by rewrite Ha5, H2, H1|].
  intros j' (Ha & Hg & Hpin & Hh & Hdet & _). rewrite H2, H1 in *. simpl in *.
  unfold told. rewrite Hh, Hg, Hpin, Hh5, Hm. by split_and!.
Qed.

Lemma twp_onSendReq g payloadType payload j :
  pending (look j) = false → size payloadType < 2 ^ 31 → size payload < 2 ^ 31 →
  twp (onSendReq (Some g) payloadType payload) (λ _ j',
    told g (str "onSendReq") [AString (from_utf8 (J:=J) (c_string payloadType));
                              AString (from_utf8 (J:=J) (c_string payload))] (look j) (look j') ∧
    globals (look j) ⊆ globals (look j')) j.
Proof.
  intros Hp Hs1 Hs2. unfold onSendReq. apply wp_bind, wp_getJniEnv. intros env j1 H1.
  apply wp_bind, wp_deref, wp_bind, wp_listener_method. intros c o m j2 Hc H2 Hm.
  apply wp_bind, wp_of_chars; [by rewrite H2, H1|done|].
  intros r j3 (Hr & Hl3 & Er & _ & Ha3 & Hg3 & Hpin3 & Hp3 & Hh3).
  apply wp_bind, wp_of_chars; [by rewrite Hp3, H2, H1|done|].
  intros r' j4 (Hr' & Hl4 & Er' & Ek4 & Ha4 & Hg4 & Hpin4 & Hp4 & Hh4).
  apply wp_bind, wp_deref, wp_bind, wp_GetJstr; [by rewrite Hp4, Hp3, H2, H1|]. intros j5 H5.
  apply wp_bind, wp_GetJstr; [by rewrite H5, Hp4, Hp3, H2, H1|]. intros j6 H6.
  apply wp_bind, wp_perform.
  destruct (CallVoidMethod_spec env g m [JObject (Some r); JObject (Some r')] j6)
    as [(Ha7 & Hg7 & Hpin7 & Hh7) _].
  set (j7 := CallVoidMethod _ _ _ _ _) in *. clearbody j7.
  apply wp_bind, wp_destroy_either. intros j8 Ha8 Hg8 Hpin8 Hh8.
  apply wp_bind, wp_destroy_either. intros j9 Ha9 Hg9 Hpin9 Hh9.
  rewrite H6, H5 in *. rewrite H2, H1 in *. simpl in *.
  apply (wp_detach_if (look j)); [congruence|].
  intros j' (Ha & Hg & Hpin & Hh & Hdet & _). simpl in *.
  rewrite Ek4, Er in Hh7 by (rewrite Hl3; set_solver). unfold told.
  rewrite Hh, Hh9, Hh8, Hh7, Hh4, Hh3, Er', Hm. rewrite Hg, Hg9, Hg8, Hpin, Hpin9, Hpin8.
  rewrite Hg4, Hg3 in Hg7. rewrite Hpin4, Hpin3 in Hpin7. by split_and!.
Qed.

(** The login data: a listener that throws or returns null gives the empty string. *)
Lemma twp_getConnectInfo g j :
  pending (look j) = false →
  twp (getConnectInfo (Some g)) (λ s j',
    told g (str "getConnectInfo") [] (look j) (look j') ∧ globals (look j) ⊆ globals (look j') ∧
    (attached (look j) = true → pending (look j') = true → s = [])) j.
Proof.
  intros Hp. unfold getConnectInfo. apply wp_bind, wp_getJniEnv. intros env j1 H1.
  apply wp_bind, wp_deref, wp_bind, wp_listener_method. intros c o m j2 Hc H2 Hm.
  apply wp_bind, wp_deref, wp_bind.
  destruct (CallObjectMethod_spec env g m [] j2) as (ret & j3 & E3 & (Ha3 & Hg3 & Hpin3 & Hh3) & Hex & _).
  eapply wp_lift_eq; [exact E3|]. rewrite H2, H1, Hm in *. simpl in *.
  assert (∀ j4 (s : bytes), attached (look j4) = true → globals (look j4) = globals (look j3) →
    pinned (look j3) ⊆ pinned (look j4) → heard (look j4) = heard (look j3) →
    (pending (look j4) = true → s = []) →
    twp (detach_if (negb (attached (look j)));; mret s) (λ s j', told g (str "getConnectInfo") []
      (look j) (look j') ∧ globals (look j) ⊆ globals (look j') ∧
      (attached (look j) = true → pending (look j') = true → s = [])) j4) as Hend.
  { intros j4 s Ha4 Hg4 Hpin4 Hh4 Hs. apply wp_bind, (wp_detach_if (look j)); [done|].
    intros j' (Ha & Hg & Hpin & Hh & Hdet & Hkept). apply wp_mret. unfold told.
    rewrite Hg, Hg4, Hh, Hh4, Hpin. split_and!; try done; [by etransitivity|].
    intros Hatt. destruct (Hkept Hatt) as [_ ->]. done. }
  apply wp_bind. destruct ret as [r|].
  - assert (pending (look j3) = false) as Hp3 by (destruct (pending (look j3)); [by specialize (Hex eq_refl)|done]).
    apply wp_of_jstring; [done|]. intros r' p s j4 Hr' Hpin Hs H4.
    apply wp_bind. unfold ScopedJstring.SafeGetChar. apply wp_bind, wp_GetChar; [by rewrite H4|].
    intros j5 H5. apply wp_mret, wp_bind, wp_destroy_lent; [by rewrite H5, H4|]. intros j6 H6. simpl.
    apply Hend; rewrite H6, H5, H4; simpl; [by rewrite Ha3|done|set_solver|done|by rewrite Hp3].
  - unfold ScopedJstring.of_jstring. apply wp_bind, wp_deref, wp_bind.
    destruct (NewLocalRef_null env j3) as (j4 & E4 & H4). eapply wp_lift_eq; [exact E4|].
    apply wp_mret, wp_bind. unfold ScopedJstring.SafeGetChar, ScopedJstring.GetChar.
    apply wp_bind, wp_bind, wp_deref, wp_bind. simpl.
    destruct (pending (look j4)) eqn:Hp4.
    + destruct (Exception_some env j4 Hp4) as (e & s & j5 & E5 & _ & H5).
      eapply wp_lift_eq; [exact E5|]. apply wp_mret, wp_mret, wp_bind, wp_mret.
      apply Hend; rewrite H5, H4; simpl; done.
    + apply wp_no_exception; [done|]. intros j5 H5. apply wp_mret, wp_mret, wp_bind, wp_mret.
      apply Hend; rewrite H5, H4; simpl; done.
Qed.

(** Every address keeps its characters lent. *)
Lemma twp_collect_ips env array n : ∀ i ips j,
  twp (collect_ips env array n i ips) (λ ips' j', ∃ l, length ips' = (length ips + length l)%nat ∧
    NoDup l ∧ (∀ p, p ∈ l → ¬ (p ∈ pinned (look j))) ∧
    pinned (look j') = list_to_set l ∪ pinned (look j)) j.
Proof.
  induction n as [|n IH]; intros i ips j; simpl.
  { apply wp_mret. exists []. split_and!; [simpl; lia|constructor|by intros ? ?%elem_of_nil|set_solver]. }
  apply wp_bind. destruct (GetObjectArrayElement_spec env array i j) as (o & j1 & E & Ho).
  eapply wp_lift_eq; [exact E|]. destruct o as [r|]; [|rewrite <-Ho; apply IH].
  destruct Ho as (s & _ & H1). apply wp_bind, wp_GetStringUTFChars. intros p s' j2 _ Hp H2.
  apply wp_bind, wp_deref. cbv beta iota. eapply wp_mono; [apply IH|].
  intros ips' j' (l & Hlen & Hnd & Hl & Hpin). rewrite H2, H1 in *. simpl in *.
  exists (p :: l). rewrite length_app in Hlen. simpl in *. split_and!.
  - lia.
  - constructor; [|done]. intros Hin. apply (Hl p Hin). set_solver.
  - intros p' [->|Hin]%elem_of_cons; [done|]. specialize (Hl p' Hin). set_solver.
  - rewrite Hpin. set_solver.
Qed.

(** The closure for HTTP DNS leaves the thread detached, also a thread that was
    attached before, with no local reference; and for every address it returns the
    characters of a string stay lent. *)
Theorem getHttpDns_leaks g host j ips j' :
  pending (look j) = false → size host < 2 ^ 31 → getHttpDns g host j = Ret (ips, j') →
  attached (look j') = false ∧ locals (look j') = ∅ ∧
  ∃ l, length l = length ips ∧ NoDup l ∧ (∀ p, p ∈ l → ¬ (p ∈ pinned (look j))) ∧
       list_to_set l ∪ pinned (look j) ⊆ pinned (look j').
Proof.
  intros Hp Hs E. eapply (wp_elim _ (λ ips j', _)) in E; [exact E|]. clear E. unfold getHttpDns.
  apply wp_bind, wp_getJniEnv. intros env j1 H1. apply wp_bind, wp_deref, wp_bind, wp_of_chars;
    [by rewrite H1|done|]. intros r j2 (Hr & _ & _ & _ & _ & _ & Hpin2 & Hp2 & _).
  destruct g as [g|]; [|done]. apply wp_bind, wp_listener_method. intros c o m j3 Hc H3 Hm.
  apply wp_bind, wp_deref, wp_bind, wp_GetJstr; [by rewrite H3; simpl; rewrite Hp2, H1|].
  intros j4 H4. apply wp_bind.
  destruct (CallObjectMethod_spec env g m [JObject (Some r)] j4)
    as (ret & j5 & E5 & (_ & _ & Hpin5 & _) & _). eapply wp_lift_eq; [exact E5|].
  apply wp_bind. destruct (Attach_spec j5) as (env' & j6 & E6 & H6). eapply wp_lift_eq; [exact E6|].
  cbv beta iota. apply wp_bind. destruct ret as [a|]; [|done]. apply wp_deref, wp_bind.
  destruct (GetArrayLength_spec (default env (Some env')) a j6) as (n & j7 & E7 & _ & H7 & _).
  eapply wp_lift_eq; [exact E7|]. apply wp_bind. apply wpx_weaken.
  eapply wp_mono; [apply twp_collect_ips|]. intros ips' j8 (l & Hlen & Hnd & Hl & Hpin8).
  apply wp_bind, wp_perform, wp_mret. destruct (Detach_spec j8) as (Ha & Hlo & _ & _ & Hpin & _).
  split_and!; [done|done|]. exists l. rewrite H7, H6 in *. simpl in *. rewrite H4, H3 in Hpin5.
  simpl in Hpin5. rewrite Hpin2, H1 in Hpin5. simpl in Hpin5.
  split_and!; [by rewrite Hlen|done|set_solver|]. rewrite Hpin, Hpin8. set_solver.
Qed.

End closures.

(** ** The native methods *)
Section natives.
Context {J S K Q : Type} `{!JNI J, !JvmLaws J}.
Context `{!ISocket S K, !SocketControl S K, !Services S K}.
Context `{!PipeKernel K, !Clock K, !SockOpts K}.
Context `{!TimerQueue Q alarm_id, !Zlib}.
Abbreviation app := (Jni.t J S K Q).
Implicit Types (s : app).

Lemma wp_java {U : Prop} {A} (m : ST J A) (Φ : A → app → Prop) s :
  wpx U m (λ a j, Φ a (s <| jvm := j |>)) (jvm s) → wpx U (java m) Φ s.
Proof. intros HΦ. unfold java. apply wp_zoom. exact HΦ. Qed.
Lemma wp_core {U : Prop} {A} (m : ST (TcpClient.t S K Q jobject) A) (Φ : A → app → Prop) s :
  wpx U m (λ a c, Φ a (s <| client := c |>)) (client s) → wpx U (core m) Φ s.
Proof. intros HΦ. unfold core. apply wp_zoom. exact HΦ. Qed.

(** Only the table of global references has changed. *)
Definition global_added (g : Z) (v v' : view) : Prop :=
  ¬ (g ∈ globals v) ∧ globals v' = {[g]} ∪ globals v ∧
  attached v' = attached v ∧ locals v' = locals v ∧ pinned v' = pinned v ∧
  pending v' = pending v ∧ heard v' = heard v.

(** The call of NetCore::Send with the strings of Java. *)
Definition core_send (type payload : bytes) (data : option bytes) (g : Z)
    : ST (TcpClient.t S K Q jobject) bool :=
  match data with
  | None => NetCore.Send (F:=jobject) type payload (Some (Some g))
  | Some d => NetCore.SendData (F:=jobject) type payload d (size d) (Some (Some g))
  end.

Lemma wp_std_string {U : Prop} env o p str b Φ s :
  pending (look (jvm s)) = false →
  (∀ j', look j' = look (jvm s) → Φ str (s <| jvm := j' |>)) →
  wpx U (java (std_string (ScopedJstring.mk (Some env) o (Some (ScopedJstring.Utf p str)) b))) Φ s.
Proof.
  intros Hp HΦ. apply wp_java. unfold std_string. apply wp_bind, wp_GetChar; [done|].
  intros j' E. by apply wp_deref, HΦ.
Qed.

(** The global reference that [send] makes for its listener. *)
Definition callback_of (env : Z) (rtype rpayload listener : jobject) : ST J jobject :=
  ScopedJstring.of_jstring (Some env) rtype;;
  ScopedJstring.of_jstring (Some env) rpayload;;
  lift (NewGlobalRef env listener).

(** The part of [send] between the constructors and the destructors. *)
Lemma twp_send_strings env o1 o2 p1 p2 type payload data array g Φ s :
  pending (look (jvm s)) = false →
  match data, array with
  | None, None => True
  | Some d, Some a => object (look (jvm s)) a = CBytes d
  | _, _ => False
  end →
  (∀ j', look j' = look (jvm s) →
     twp (core_send type payload data g)
         (λ b c, Φ b (s <| jvm := j' |> <| client := c |>)) (client s)) →
  twp (send_strings env (ScopedJstring.mk (Some env) o1 (Some (ScopedJstring.Utf p1 type)) true)
        (ScopedJstring.mk (Some env) o2 (Some (ScopedJstring.Utf p2 payload)) true)
        array (Some g)) Φ s.
Proof.
  intros Hp Hd HΦ. unfold send_strings. destruct data as [d|], array as [a|]; try done.
  - apply wp_bind, wp_java. destruct (GetArrayLength_spec env a (jvm s)) as (n & j1 & E1 & Hn & H1 & Hl).
    eapply wp_lift_eq; [exact E1|]. rewrite (Hl d Hd) in *. rewrite (proj2 (Z.ltb_ge _ _)) by lia.
    apply wp_bind, wp_java. simpl. rewrite <-H1 in Hd.
    destruct (GetByteArrayRegion_spec env a d j1 Hd) as (j2 & E2 & H2).
    eapply wp_lift_eq; [exact E2|].
    apply wp_bind, wp_std_string; [simpl; by rewrite H2, H1|]. intros j3 H3. simpl in H3.
    apply wp_bind, wp_std_string; [simpl; by rewrite H3, H2, H1|]. intros j4 H4. simpl in H4.
    apply wp_core. apply HΦ. by rewrite H4, H3, H2, H1.
  - apply wp_bind, wp_std_string; [done|]. intros j3 H3.
    apply wp_bind, wp_std_string; [simpl; by rewrite H3|]. intros j4 H4. simpl in H4.
    apply wp_core. apply HΦ. by rewrite H4, H3.
Qed.

Lemma send_returns env rtype rpayload array listener type payload data s :
  pending (look (jvm s)) = false →
  object (look (jvm s)) rtype = CString type → object (look (jvm s)) rpayload = CString payload →
  match data, array with
  | None, None => True
  | Some d, Some a => object (look (jvm s)) a = CBytes d ∧ a ∈ locals (look (jvm s))
  | _, _ => False
  end →
  rpayload ∈ locals (look (jvm s)) →
  ∃ g j1, callback_of env (Some rtype) (Some rpayload) (Some listener) (jvm s) = Ret (Some g, j1) ∧
  ∀ b c', core_send type payload data g (client s) = Ret (b, c') →
    ∃ j', send env (Some rtype) (Some rpayload) array (Some listener) s
          = Ret (b, s <| jvm := j' |> <| client := c' |>) ∧
      global_added g (look (jvm s)) (look j').
Proof.
  intros Hp Ht Hpl Hd Hlocal.
  (* the references that the constructors make *)
  destruct (twp_elim (ScopedJstring.of_jstring (Some env) (Some rtype)) (λ js j1, ∃ r p,
    js = ScopedJstring.mk (Some env) (Some r) (Some (ScopedJstring.Utf p type)) true ∧
    ¬ (r ∈ locals (look (jvm s))) ∧ ¬ (p ∈ pinned (look (jvm s))) ∧
    look j1 = (add_local r (object (look (jvm s)) rtype) (look (jvm s)))
                <| pinned := {[p]} ∪ pinned (look (jvm s)) |>) (jvm s))
    as (js1 & j1 & E1 & r1 & p1 & -> & Hr1 & Hp1 & H1).
  { apply wp_of_jstring; [done|]. intros r p str j' Hr Hpin Hs E. rewrite (Hs _ Ht). by eexists _, _. }
  assert (object (look j1) rpayload = CString payload) as Hpl1.
  { rewrite H1. simpl. rewrite fn_lookup_insert_ne; [done|set_solver]. }
  destruct (twp_elim (ScopedJstring.of_jstring (Some env) (Some rpayload)) (λ js j2, ∃ r p,
    js = ScopedJstring.mk (Some env) (Some r) (Some (ScopedJstring.Utf p payload)) true ∧
    ¬ (r ∈ locals (look j1)) ∧ ¬ (p ∈ pinned (look j1)) ∧
    look j2 = (add_local r (object (look j1) rpayload) (look j1))
                <| pinned := {[p]} ∪ pinned (look j1) |>) j1)
    as (js2 & j2 & E2 & r2 & p2 & -> & Hr2 & Hp2 & H2).
  { apply wp_of_jstring; [by rewrite H1|]. intros r p str j' Hr Hpin Hs E. rewrite (Hs _ Hpl1).
    by eexists _, _. }
  destruct (NewGlobalRef_spec env listener j2) as (g & j3 & E3 & Hg & H3). exists g, j3.
  split. { unfold callback_of, mbind, ST_mbind, lift. rewrite E1. simpl. rewrite E2. simpl. by rewrite E3. }
  intros b c' Ec.
  assert (twp (send env (Some rtype) (Some rpayload) array (Some listener)) (λ b' s', b' = b ∧
    ∃ j', s' = s <| jvm := j' |> <| client := c' |> ∧ global_added g (look (jvm s)) (look j')) s) as Hw.
  2:{ apply twp_elim in Hw as (b' & s' & E & -> & j' & -> & Hga). by exists j'. }
  unfold send. apply wp_bind, wp_java. unfold wpx at 1. rewrite E1.
  apply wp_bind, wp_java. unfold wpx at 1. simpl. rewrite E2.
  apply wp_bind, wp_java. eapply wp_lift_eq; [exact E3|]. simpl.
  apply wp_bind, (twp_send_strings _ _ _ _ _ _ _ data).
  { simpl. by rewrite H3, H2, H1. }
  { destruct data as [d|], array as [a|]; try done. destruct Hd as [Hd Ha]. simpl.
    rewrite H3, H2, H1. simpl. rewrite H1 in Hr2. simpl in Hr2.
    rewrite !fn_lookup_insert_ne; [done|set_solver..]. }
  intros j4 H4. simpl. unfold wpx at 1. rewrite Ec. simpl in H4.
  apply wp_bind, wp_java, wp_destroy_lent; [by simpl; rewrite H4, H3, H2, H1|]. intros j5 H5.
  apply wp_bind, wp_java, wp_destroy_lent; [by simpl; rewrite H5; simpl; rewrite H4, H3, H2, H1|].
  intros j6 H6. apply wp_mret. split; [done|]. exists j6. split; [done|].
  simpl in H5, H6. unfold global_added. rewrite H6, H5. simpl. rewrite H4, H3. simpl.
  rewrite H2, H1 in *. simpl in *. clear - Hg Hr1 Hr2 Hp1 Hp2.
  split_and!; try done; set_solver.
Qed.

(** C21: [send] of Java is Send of the client, with the characters of the two strings,
    the bytes of the array, and a callback that holds a new global reference to the
    listener: whenever that returns, the native method returns its result; and apart
    from this reference, no reference and no string of the virtual machine is kept. *)
Theorem Java_send_spec env rtype rpayload array listener type payload data s :
  pending (look (jvm s)) = false →
  object (look (jvm s)) rtype = CString type → object (look (jvm s)) rpayload = CString payload →
  match data, array with
  | None, None => True
  | Some d, Some a => object (look (jvm s)) a = CBytes d ∧ a ∈ locals (look (jvm s))
  | _, _ => False
  end →
  rpayload ∈ locals (look (jvm s)) →
  ∃ g j1, callback_of env (Some rtype) (Some rpayload) (Some listener) (jvm s) = Ret (Some g, j1) ∧
  ∀ b c', core_send type payload data g (client s) = Ret (b, c') →
    ∃ j', send env (Some rtype) (Some rpayload) array (Some listener) s
          = Ret (b, s <| jvm := j' |> <| client := c' |>) ∧
      global_added g (look (jvm s)) (look j').
Proof. apply send_returns. Qed.

(** A null string is taken for a [const char *] and undefined behaviour, except in
    the answer to getConnectInfo. *)
Lemma Java_send_null env rtype array listener s b s' :
  pending (look (jvm s)) = false →
  send env (Some rtype) None array listener s ≠ Ret (b, s').
Proof.
  intros Hp E. eapply (wp_elim _ (λ _ _, False)) in E; [exact E|]. clear E b s'. unfold send.
  apply wp_bind, wp_java. apply wp_of_jstring; [done|]. intros r p str j1 _ _ _ H1. apply wp_bind, wp_java.
  unfold ScopedJstring.of_jstring at 1. apply wp_bind, wp_deref, wp_bind. simpl.
  destruct (NewLocalRef_null env j1) as (j2 & E2 & H2). eapply wp_lift_eq; [exact E2|]. apply wp_mret.
  assert (∀ s1, wp (java (std_string (ScopedJstring.mk (Some env) None None true)))
    (λ _ _, False) s1) as Hnull.
  { intros s1. apply wp_java. unfold std_string, ScopedJstring.GetChar. simpl.
    apply wp_bind, wp_bind, wp_deref, wp_bind, wp_lift. by case_match. }
  apply wp_bind, wp_java. unfold lift at 1, wpx at 1. destruct (NewGlobalRef _ _ _) as [g j3].
  apply wp_bind. eapply wp_mono with (Φ := λ _ _, False); [|done]. unfold send_strings.
  assert (∀ A (m : ST J A) (k : A → ST app bool) s1, (∀ a s2, wp (k a) (λ _ _, False) s2) →
    wp (java m ≫= k) (λ _ _, False) s1) as Hskip.
  { intros A m k s1 Hk. apply wp_bind, wp_java. unfold wpx at 1. destruct (m _) as [[a j]| | |]; [|done..].
    apply Hk. }
  destruct array as [a|].
  - apply Hskip. intros n s1. case_match; [done|]. apply Hskip. intros d s2. apply Hskip. intros ty s3.
    apply wp_bind. eapply wp_mono; [apply Hnull|done].
  - apply Hskip. intros ty s1. apply wp_bind. eapply wp_mono; [apply Hnull|done].
Qed.

(** Setting a listener again leaves the reference to the former one. *)
Lemma setOnSendReq_leaks env l1 l2 s :
  ∃ g1 g2 s', g1 ≠ g2 ∧
    (setOnSendReq env (Some l1);; setOnSendReq env (Some l2)) s = Ret ((), s') ∧
    sendReqListener s' = Some (Some g2) ∧
    globals (look (jvm s')) = {[g2; g1]} ∪ globals (look (jvm s)).
Proof.
  destruct (NewGlobalRef_spec env l1 (jvm s)) as (g1 & j1 & E1 & Hg1 & H1).
  destruct (NewGlobalRef_spec env l2 j1) as (g2 & j2 & E2 & Hg2 & H2).
  rewrite H1 in Hg2. simpl in Hg2. eexists g1, g2, _. split_and!; [set_solver| |..].
  - unfold setOnSendReq, java, core, zoom, lift, mbind, ST_mbind, NetCore.SetOnSendReq,
      TcpClient.SetOnSendReq, modify. simpl. rewrite E1. simpl. by rewrite E2.
  - done.
  - simpl. rewrite H2, H1. simpl. set_solver.
Qed.

End natives.
