(* ===== verification/JniSystem.v ===== *)
(** * JniSystem: the listeners of requests, through the client

    The client with its threads (System.v) together with the virtual machine: [send]
    hands a global reference to the client, and the answer to the request deletes
    it.  [ran] are the answers that have been given. *)
From S2P Require Import Prelude Monad TcpError Sockets TcpIO Gzip FixHeader Message.
From S2P Require Import SocketBreaker TimeUtils UnixSocket MessageQueue Alarm TcpDefine.
From S2P Require Import DnsQuery TcpClient Logic System NetCore Jni JniProps.
Import Jni.

Section system.
Context {J S K Q : Type} `{!JNI J, !JvmLaws J}.
Context `{!ISocket S K, !SocketControl S K, !Services S K}.
Context `{!PipeKernel K, !Clock K, !SockOpts K}.
Context `{!TimerQueue Q alarm_id, !Zlib}.

Record jsys : Type := mkJ {
  java_vm : J;
  native : System.sys S K Q jobject;
  ran : list jobject;
}.

(** The state of the native methods; the other listeners do not matter here. *)
Definition app_of (j : J) (c : TcpClient.t S K Q jobject) : Jni.t J S K Q :=
  Jni.mk j c None None None None None.

(** What Java passes to [send]: two strings, and an array of bytes or null. *)
Definition well_typed (v : view) (rtype rpayload : Z) (array : jobject)
    (type payload : bytes) (data : option bytes) : Prop :=
  pending v = false ∧ object v rtype = CString type ∧ object v rpayload = CString payload ∧
  rpayload ∈ locals v ∧
  match data, array with
  | None, None => True
  | Some d, Some a => object v a = CBytes d ∧ a ∈ locals v
  | _, _ => False
  end.

Definition send_message (c : TcpClient.t S K Q jobject) (type payload : bytes)
    (data : option bytes) (g : jobject) : list MessageBase :=
  api_message (ApiSend type payload (option_map (λ d, (d, size d)) data) (Some g)) c.

Inductive jstep : jsys → jsys → Prop :=
| jstep_send st env rtype rpayload array listener type payload data g j1 b a' :
    well_typed (look (java_vm st)) rtype rpayload array type payload data →
    callback_of env (Some rtype) (Some rpayload) (Some listener) (java_vm st) = Ret (g, j1) →
    send env (Some rtype) (Some rpayload) array (Some listener)
      (app_of (java_vm st) (cl (native st))) = Ret (b, a') →
    jstep st (mkJ (jvm a')
      (mkSys (client a') (current (native st)) (taken (native st)) (sent (native st) ++ [g])
         (submitted (native st) ++ send_message (cl (native st)) type payload data g))
      (ran st))
| jstep_native st s' :            (* everything else that the client does *)
    step (native st) s' → omap id (sent s') = omap id (sent (native st)) →
    jstep st (mkJ (java_vm st) s' (ran st))
| jstep_answer st g code payload j' :
    TcpClient.EvCallback g code payload ∈ TcpClient.trace (cl (native st)) →
    ran st ++ [g] ⊆+ called (TcpClient.trace (cl (native st))) →
    pending (look (java_vm st)) = false → size payload < 2 ^ 31 →
    onSendResp g code payload (java_vm st) = Ret ((), j') →
    jstep st (mkJ j' (native st) (ran st ++ [g]))
| jstep_java st j' :              (* other code deletes no reference that is owed *)
    (∀ g, ran st ++ [Some g] ⊆+ sent (native st) →
          g ∈ globals (look (java_vm st)) → g ∈ globals (look j')) →
    jstep st (mkJ j' (native st) (ran st)).

Inductive jreachable : jsys → Prop :=
| jreach_init st : System.initial (native st) → ran st = [] → jreachable st
| jreach_step st st' : jreachable st → jstep st st' → jreachable st'.

(** [owed]: the references that have not been answered are valid, and distinct. *)
Definition owed (st : jsys) : Prop := ∃ l,
  sent (native st) ≡ₚ ran st ++ l ∧ NoDup (omap id l) ∧
  Forall (λ g, g ∈ globals (look (java_vm st))) (omap id l).

Lemma omap_id_in (l : list jobject) g : Some g ∈ l → g ∈ omap id l.
Proof. intros Hg. apply list_elem_of_omap. by exists (Some g). Qed.

(** One of them is answered next. *)
Lemma owed_next st g :
  owed st → ran st ++ [g] ⊆+ sent (native st) →
  ∃ l, sent (native st) ≡ₚ ran st ++ g :: l ∧ NoDup (omap id (g :: l)) ∧
    Forall (λ g, g ∈ globals (look (java_vm st))) (omap id (g :: l)).
Proof.
  intros (l & Hl & Hnd & Hgl) [k Hk]%submseteq_Permutation.
  assert (l ≡ₚ g :: k) as Hlk.
  { apply (inj (ran st ++.)). rewrite <-Hl, Hk. by rewrite <-app_assoc. }
  exists k. split; [by rewrite <-Hlk|]. by rewrite <-Hlk.
Qed.

Lemma owed_alive st g :
  owed st → ran st ++ [Some g] ⊆+ sent (native st) → g ∈ globals (look (java_vm st)).
Proof. intros Ho (l & _ & _ & Hg)%(owed_next _ _ Ho). by apply Forall_cons in Hg as [? _]. Qed.

(** Send of the client is a step of System. *)
Lemma core_send_step (s : System.sys S K Q jobject) type payload data g b c' :
  core_send type payload data g (cl s) = Ret (b, c') →
  step s (mkSys c' (current s) (taken s) (sent s ++ [Some g])
            (submitted s ++ send_message (cl s) type payload data (Some g))).
Proof.
  intros E. apply (step_api s (ApiSend type payload (option_map (λ d, (d, size d)) data) (Some (Some g))));
    [done|]. simpl. unfold discard, mbind, ST_mbind.
  destruct data as [d|]; simpl in *; unfold NetCore.SendData, NetCore.Send in E; by rewrite E.
Qed.

Lemma owed_init st : System.initial (native st) → ran st = [] → owed st.
Proof.
  intros (_ & _ & _ & _ & _ & _ & _ & Hs & _) Hr. exists []. rewrite Hs, Hr. split; [done|].
  split; constructor.
Qed.

Lemma core_send_returns type payload data g (c : TcpClient.t S K Q jobject) :
  ∃ b c', core_send type payload data g c = Ret (b, c').
Proof.
  assert (twp (core_send type payload data g) (λ _ _, True) c) as Hw.
  2:{ apply twp_elim in Hw as (b & c' & E & _). by exists b, c'. }
  destruct data as [d|]; simpl;
    unfold NetCore.SendData, NetCore.Send, TcpClient.Send, TcpClient.push; [|by wp_run].
  repeat (cbv beta zeta; lazymatch goal with |- wpx _ (checking _) _ _ => fail | _ => wp_step end);
    try done.
  apply twp_checking with (SendReq.with_data (SendReq.new 0 (TcpClient._currentMsgId c) type payload) d).
  { rewrite SetData_spec, take_ge by (unfold size; lia). split; [unfold size; lia|done]. }
  by wp_run.
Qed.

Lemma step_sent (s s' : System.sys S K Q jobject) : step s s' → ∃ l, sent s' = sent s ++ l.
Proof. destruct 1; simpl; [by eexists|exists []; by rewrite app_nil_r..]. Qed.

(** Without a listener the answer is undefined. *)
Lemma onSendResp_null code payload (j : J) : wp (onSendResp None code payload) (λ _ _, False) j.
Proof. unfold onSendResp. apply wp_bind, wp_getJniEnv. intros env j1 _. by apply wp_bind, wp_deref. Qed.

Lemma owed_send st g s' j' :
  owed st → global_added g (look (java_vm st)) (look j') →
  sent s' = sent (native st) ++ [Some g] → owed (mkJ j' s' (ran st)).
Proof.
  intros (l & Hl & Hnd & Hgl) (Hnew & Hglob & _) Hs. exists (l ++ [Some g]). simpl.
  split; [by rewrite Hs, Hl, app_assoc|]. rewrite omap_app. simpl. split.
  - apply NoDup_app. split_and!; [done| |apply NoDup_singleton].
    intros x Hx ->%list_elem_of_singleton. eapply Forall_forall in Hgl; [|done]. by apply Hnew.
  - apply Forall_app. rewrite Hglob. split; [|constructor; [set_solver|constructor]].
    eapply Forall_impl; [exact Hgl|]. set_solver.
Qed.

Lemma owed_answer st g code payload j' :
  owed st → ran st ++ [g] ⊆+ sent (native st) →
  pending (look (java_vm st)) = false → size payload < 2 ^ 31 →
  onSendResp g code payload (java_vm st) = Ret ((), j') → owed (mkJ j' (native st) (ran st ++ [g])).
Proof.
  intros Ho Hsub Hp Hsize E. destruct (owed_next _ _ Ho Hsub) as (l & Hl & Hnd & Hgl).
  destruct g as [g|].
  2:{ by destruct (wp_elim _ (λ _ _, False) _ _ _ E (onSendResp_null _ _ _)). }
  destruct (twp_elim _ _ _ (twp_onSendResp g code payload _ Hp Hsize)) as ([] & j'' & E' & _ & _ & Hk).
  rewrite E in E'. injection E' as <-. exists l. simpl in *. split; [by rewrite Hl, <-app_assoc|].
  apply NoDup_cons in Hnd as [Hnot Hnd]. apply Forall_cons in Hgl as [Hgl Hall]. split; [done|].
  apply Forall_forall. intros g' Hg'. apply Hk. eapply Forall_forall in Hall; [|done].
  apply elem_of_difference. split; [done|]. by intros ->%elem_of_singleton.
Qed.

Lemma jstep_inv st st' :
  System.reachable (native st) → owed st → jstep st st' → System.reachable (native st') ∧ owed st'.
Proof.
  intros Hr Ho Hj.
  destruct Hj as [st env rtype rpayload array listener type payload data g j1 b a' Hty Hg E
                 |st s' Hs Hom|st g code payload j' Hev Hran Hp Hsize E|st j' Hj].
  - destruct Hty as (Hp & Ht & Hpl & Hloc & Hd).
    destruct (send_returns env rtype rpayload array listener type payload data
                (app_of (java_vm st) (cl (native st)))) as (g' & j2 & Hg' & Hspec); [done..|].
    simpl in Hg', Hspec. rewrite Hg in Hg'. injection Hg' as -> ->.
    destruct (core_send_returns type payload data g' (cl (native st))) as (b' & c' & Ec).
    destruct (Hspec _ _ Ec) as (j' & E' & Hnew). rewrite E in E'. injection E' as -> ->. simpl.
    split; [by eapply reach_step, core_send_step|]. by apply (owed_send _ g').
  - split; [by eapply reach_step|]. destruct Ho as (l & Hl & Hnd & Hgl).
    destruct (step_sent _ _ Hs) as [x Hx]. rewrite Hx, omap_app in Hom.
    assert (omap id x = []) as Ex.
    { apply (f_equal length) in Hom. rewrite length_app in Hom. destruct (omap id x); simpl in *; [done|lia]. }
    exists (l ++ x). simpl. rewrite omap_app, Ex, app_nil_r, Hx, Hl. by rewrite app_assoc.
  - split; [done|]. eapply owed_answer; [done| |done..]. etransitivity; [exact Hran|].
    etransitivity; [|apply (inv_callbacks _ _ _ (reachable_client_Inv _ Hr))].
    by apply submseteq_inserts_r.
  - split; [done|]. destruct Ho as (l & Hl & Hnd & Hgl). exists l. split_and!; [done..|]. simpl.
    apply Forall_forall. intros g Hin. apply Hj; [|by eapply Forall_forall in Hgl].
    rewrite Hl. apply submseteq_app; [done|]. apply list_elem_of_omap in Hin as (o & Hin & Ho).
    apply singleton_submseteq_l. simpl in Ho. by subst o.
Qed.

Lemma jreachable_inv st : jreachable st → System.reachable (native st) ∧ owed st.
Proof.
  induction 1 as [st Hi Hr|st st' _ [Hr Ho] Hj]; [|by eapply jstep_inv].
  split; [by apply reach_init|by apply owed_init].
Qed.

(** C19: the listener of a request is never used after its reference has been deleted:
    in every interleaving of Java with the client, each answer that is still to be
    given, and each callback that waits in the client, holds a global reference that
    is valid; and every listener is answered at most as often as it was passed. *)
Theorem listeners_alive st g :
  jreachable st →
  ran st ++ [Some g] ⊆+ called (TcpClient.trace (cl (native st))) ++
                        waiting (TcpClient._callbackMap (cl (native st))) →
  g ∈ globals (look (java_vm st)) ∧ ran st ++ [Some g] ⊆+ sent (native st).
Proof.
  intros [Hr Ho]%jreachable_inv Hsub.
  assert (ran st ++ [Some g] ⊆+ sent (native st)) as Hs.
  { etransitivity; [exact Hsub|]. apply (inv_callbacks _ _ _ (reachable_client_Inv _ Hr)). }
  split; [by apply owed_alive|done].
Qed.

End system.
