(* ===== verification/JniDemo.v ===== *)
(** * JniDemo: a concrete virtual machine, and the witnesses for the binding

    One thread, whose listeners do nothing; getHttpDns answers with one address. *)
From stdpp Require Import functions.
From S2P Require Import Prelude Monad TcpError Sockets TcpIO Gzip FixHeader Message.
From S2P Require Import SocketBreaker TimeUtils UnixSocket MessageQueue Alarm TcpDefine.
From S2P Require Import DnsQuery TcpClient Logic System NetCore Demo Jni JniProps JniSystem.
Import Jni.

Module Jvm.

Record t : Type := mk {
  att : bool;
  loc : gset Z;
  glob : gset Z;
  pins : gset Z;
  pend : bool;
  objs : Z → content;
  log : list (Z * bytes * list jarg);
}.
#[export] Instance t_rebuild : Rebuild t := λ j,
  mk (att j) (loc j) (glob j) (pins j) (pend j) (objs j) (log j).

Definition view_of (j : t) : view :=
  mkView (att j) (loc j) (glob j) (pins j) (pend j) (objs j) (log j).

Definition new_local (o : content) (j : t) : jobject * t :=
  let r := fresh (loc j) in
  (Some r, j <| loc := {[r]} ∪ loc j |> <| objs := <[r := o]> (objs j) |>).

(** A method, by the code of its name. *)
Definition method_of (name : bytes) : Z := Zpos (encode (byte_val <$> name)).
Definition name_of (m : Z) : bytes :=
  match m with Zpos p => byte_of <$> default [] (decode p) | _ => [] end.

Lemma name_of_method name : name_of (method_of name) = name.
Proof.
  unfold name_of, method_of. rewrite decode_encode. simpl. rewrite <-list_fmap_compose.
  rewrite <-(list_fmap_id name) at 2. apply list_fmap_ext. intros i b _. apply byte_of_val.
Qed.

Definition tell (obj m : Z) (args : list jvalue) (j : t) : t :=
  j <| log := log j ++ [(obj, name_of m, see (view_of j) <$> args)] |>.

#[export] Instance jni : JNI t := {|
  GetEnv j := if att j then (JNI_OK, Some 1, j) else (JNI_EDETACHED, None, j);
  AttachCurrentThread j := (JNI_OK, Some 1, j <| att := true |>);
  DetachCurrentThread j := j <| att := false |> <| loc := ∅ |> <| pend := false |>;
  ExceptionOccurred env j := if pend j then new_local COther j else (None, j);
  NewLocalRef env o j := match o with Some r => new_local (objs j r) j | None => (None, j) end;
  DeleteLocalRef env o j := match o with Some r => j <| loc := loc j ∖ {[r]} |> | None => j end;
  NewGlobalRef env o j :=
    match o with
    | Some r => let g := fresh (glob j) in (Some g, j <| glob := {[g]} ∪ glob j |>)
    | None => (None, j)
    end;
  DeleteGlobalRef env o j := match o with Some g => j <| glob := glob j ∖ {[g]} |> | None => j end;
  FindClass env name j := new_local COther j;
  GetObjectClass env r j := new_local COther j;
  GetMethodID env c name sig j := (Some (method_of name), j);
  CallVoidMethod env obj m args j := tell obj m args j;
  CallObjectMethod env obj m args j :=
    if pend j then (None, tell obj m args j) else new_local (CObjects 1) (tell obj m args j);
  NewObject env c m args j :=
    match args with
    | JObject (Some a) :: _ =>
        new_local (match objs j a with CBytes s => CString s | _ => COther end) j
    | _ => (None, j)
    end;
  GetStringUTFChars env r j :=
    let p := fresh (pins j) in
    (Some (p, match objs j r with CString s => s | _ => [] end), j <| pins := {[p]} ∪ pins j |>);
  ReleaseStringUTFChars env r p j := j <| pins := pins j ∖ {[p]} |>;
  NewStringUTF env s j := new_local (CString s) j;
  NewByteArray env n j := new_local (CBytes (replicate (Z.to_nat n) Byte.x00)) j;
  SetByteArrayRegion env r start n s j := j <| objs := <[r := CBytes s]> (objs j) |>;
  GetByteArrayRegion env r start n j :=
    (match objs j r with
     | CBytes s => take (Z.to_nat n) (drop (Z.to_nat start) s)
     | _ => []
     end, j);
  GetArrayLength env r j :=
    (match objs j r with CBytes s => size s | CObjects n => Z.max 0 n | _ => 0 end, j);
  GetObjectArrayElement env r i j := new_local (CString (str "10.0.0.1")) j;
|}.

#[export] Program Instance laws : JvmLaws t := {|
  look := view_of;
  method_name := name_of;
  string_class c := True;
  string_ctor m := True;
  from_utf8 s := s;
|}.
Next Obligation. intros j Ha. simpl in *. rewrite Ha. by eexists _, _. Qed.
Next Obligation. intros j Ha. simpl in *. rewrite Ha. by eexists. Qed.
Next Obligation. intros j. by eexists _, _. Qed.
Next Obligation. done. Qed.
Next Obligation. intros env j Hp. simpl in *. rewrite Hp. by eexists. Qed.
Next Obligation.
  intros env j Hp. simpl in *. rewrite Hp. eexists _, _, _. split_and!; [done|apply is_fresh|done].
Qed.
Next Obligation. intros env j. by eexists. Qed.
Next Obligation. intros env r j. eexists _, _. split_and!; [done|apply is_fresh|done]. Qed.
Next Obligation. done. Qed.
Next Obligation. intros env j. by eexists. Qed.
Next Obligation. intros env r j. eexists _, _. split_and!; [done|apply is_fresh|done]. Qed.
Next Obligation. done. Qed.
Next Obligation. intros env j. eexists _, _, _. split_and!; [done|done|apply is_fresh|done]. Qed.
Next Obligation. intros env r j. eexists _, _, _. split_and!; [done|apply is_fresh|done]. Qed.
Next Obligation. intros env c name sig j. eexists _, _. split_and!; [done|done|apply name_of_method|done]. Qed.
Next Obligation. intros env obj m args j. by split_and!. Qed.
Next Obligation.
  intros env obj m args j. simpl. destruct (pend j) eqn:Hp.
  - eexists _, _. split; [done|]. by split_and!.
  - eexists _, _. split; [done|]. split; [by split_and!|]. simpl. split; [by rewrite Hp|].
    split; [apply is_fresh|done].
Qed.
Next Obligation.
  intros env r j. eexists _, _, _. split; [done|]. split; [|split; [apply is_fresh|done]].
  simpl. by intros s' ->.
Qed.
Next Obligation. done. Qed.
Next Obligation. intros env s j. eexists _, _. split_and!; [done|apply is_fresh|done]. Qed.
Next Obligation.
  intros env n j Hn. eexists _, _, _. split_and!; [done|apply is_fresh| |done].
  unfold size. rewrite length_replicate. lia.
Qed.
Next Obligation. done. Qed.
Next Obligation.
  intros env c m array bs enc j _ _ Ha _. simpl in *. rewrite Ha. eexists _, _.
  split_and!; [done|apply is_fresh|done].
Qed.
Next Obligation.
  intros env r j. eexists _, _. split_and!; [done| |done|].
  - simpl. destruct (objs j r); try lia. apply size_nonneg.
  - simpl. by intros s ->.
Qed.
Next Obligation.
  intros env r s j Hr. simpl in *. rewrite Hr. eexists. split; [|done].
  unfold size. by rewrite drop_0, Nat2Z.id, firstn_all.
Qed.
Next Obligation.
  intros env r i j. eexists _, _. split; [done|]. simpl. eexists. split; [apply is_fresh|done].
Qed.

End Jvm.
#[local] Existing Instances Jvm.jni Jvm.laws.

(** A thread of Java with two strings, 1 and 2; 5 is a global reference. *)
Definition java_thread : Jvm.t :=
  Jvm.mk true {[1; 2]} {[5]} ∅ false
    (λ r, if decide (r = 1) then CString (str "login") else CString (str "hello")) [].
(** A thread of the library. *)
Definition native_thread : Jvm.t := Jvm.mk false ∅ {[5]} ∅ false (λ _, COther) [].

Lemma onSendResp_tells_witness :
  ∃ j', onSendResp (Some 5) kErrorCodeTimeout (str "late") native_thread = Ret ((), j') ∧
    Jvm.log j' = [(5, str "onSendResp", [AInt 2; AString (str "late")])] ∧ Jvm.att j' = false.
Proof.
  destruct (onSendResp_tells 5 kErrorCodeTimeout (str "late") native_thread)
    as (j' & E & (Hh & _ & Ha & _) & _); [done|done|].
  exists j'. split; [exact E|]. split; [exact Hh|exact Ha].
Defined.

Lemma getHttpDns_leaks_witness :
  ∃ ips j', getHttpDns (Some 5) (str "host") java_thread = Ret (ips, j') ∧ length ips = 1%nat ∧
    Jvm.att java_thread = true ∧ Jvm.att j' = false ∧ Jvm.pins j' ≠ ∅.
Proof.
  destruct (getHttpDns (Some 5) (str "host") java_thread) as [[ips j']| | |] eqn:E;
    [|by vm_compute in E..].
  exists ips, j'. split; [done|].
  assert (length ips = 1%nat) as Hlen by (by vm_compute in E; injection E as <- _).
  destruct (getHttpDns_leaks (Some 5) (str "host") java_thread ips j') as (Ha & _ & l & Hl & _ & _ & Hp);
    [done|done|exact E|].
  split_and!; [done|done|exact Ha|]. destruct l as [|p l]; [by rewrite Hlen in Hl|].
  simpl in Hp. set_solver.
Defined.

Abbreviation android := (Jni.t Jvm.t TcpSocket.t World.t (MessageQueue.t alarm_id)).

(** The client of the library as it is constructed, not connected yet. *)
Definition fresh_client : TcpClient.t TcpSocket.t World.t (MessageQueue.t alarm_id) jobject :=
  TcpClient.new MessageQueue.new demo_world.
Definition android_app : android := app_of java_thread fresh_client.

Lemma refused g :
  ∃ c', core_send (str "login") (str "hello") None g fresh_client = Ret (false, c') ∧
    called (TcpClient.trace c') = [Some g].
Proof. eexists. split; by vm_compute. Qed.

Lemma Java_send_spec_witness :
  ∃ a', send 1 (Some 1) (Some 2) None (Some 7) android_app = Ret (false, a') ∧
    ¬ (Jvm.glob (jvm a') ⊆ {[5]}) ∧ Jvm.loc (jvm a') = {[1; 2]} ∧ Jvm.pins (jvm a') = ∅.
Proof.
  destruct (Java_send_spec 1 1 2 None 7 (str "login") (str "hello") None android_app)
    as (g & j1 & _ & Hsend); [done..|simpl; set_solver|].
  destruct (refused g) as (c' & Ec & _). destruct (Hsend _ _ Ec) as (j' & E & Hnew & Hg & _ & Hl & Hp & _).
  eexists. split; [exact E|]. simpl in *. split_and!; [|exact Hl|exact Hp]. rewrite Hg. set_solver.
Defined.

Lemma listeners_alive_witness :
  ∃ st g, jreachable (J:=Jvm.t) (S:=TcpSocket.t) (K:=World.t) (Q:=MessageQueue.t alarm_id) st ∧
    called (TcpClient.trace (cl (native st))) = [Some g] ∧ g ∈ globals (look (java_vm st)).
Proof.
  set (st0 := mkJ java_thread (mkSys fresh_client None [] [] []) []).
  destruct (send_returns 1 1 2 None 7 (str "login") (str "hello") None android_app)
    as (g & j1 & Hg & Hsend); [done..|simpl; set_solver|].
  destruct (refused g) as (c' & Ec & Hc). destruct (Hsend _ _ Ec) as (j' & E & _).
  assert (well_typed (look java_thread) 1 2 None (str "login") (str "hello") None) as given.
  { split_and!; [done..|simpl; set_solver|done]. }
  set (st1 := mkJ j' (mkSys c' None [] [Some g] (send_message fresh_client (str "login") (str "hello") None (Some g))) []).
  assert (jreachable st1) as Hr.
  { apply (jreach_step st0).
    - apply jreach_init; [apply System.initial_new|done].
    - exact (jstep_send st0 1 1 2 None 7 (str "login") (str "hello") None (Some g) j1 false _
               given Hg E). }
  exists st1, g. split; [done|]. split; [exact Hc|].
  apply (listeners_alive st1 g Hr). simpl. rewrite Hc. by apply submseteq_inserts_r.
Defined.
