(* ===== verification/Locks.v ===== *)
(** * Locks: the mutexes of the client, and its threads

    Which locks the operations of the client take, in which order and on which
    thread; that no interleaving of them is a deadlock.  An operation is the list of
    its [action]s on each of its branches; the arguments choose the branch.  That a
    thread has not ended is a lock that it holds, so that join() waits for it. *)
From stdpp Require Import relations.
From S2P Require Import Prelude TcpClient.

(** ** Threads and locks *)
Module Locks.

Inductive breaker_id : Set := ReadWriteBreaker | ConnectBreaker | RetBreaker.

Inductive lock : Set :=
| LThread                        (* _thread: held by __Run from its start to its end *)
| LMutex | LTimeout | LMap       (* TcpClient::_mutex, _timeoutMutex, _mapMutex *)
| LBreaker (b : breaker_id)      (* SocketBreaker::_mutex *)
| LPool                          (* ObjectPool::_mutex *)
| LAlarm (a : alarm_id)          (* Alarm::_mutex *)
| LQueue.                        (* MessageQueue::_mutex *)

#[export] Instance breaker_id_eq_dec : EqDecision breaker_id.
Proof. solve_decision. Defined.
#[export] Instance lock_eq_dec : EqDecision lock.
Proof. solve_decision. Defined.

(** [Callback]: code of the application runs. *)
Inductive action : Set := Acq (l : lock) | Rel (l : lock) | Callback.

#[export] Instance action_eq_dec : EqDecision action.
Proof. solve_decision. Defined.

(** A lock_guard, or a unique_lock up to its unlock. *)
Definition scoped (l : lock) (body : list action) : list action := Acq l :: body ++ [Rel l].

(** *** SocketBreaker, Alarm, MessageQueue, ObjectPool *)
Definition Break (b : breaker_id) : list action := scoped (LBreaker b) [].
Definition Clear (b : breaker_id) : list action := scoped (LBreaker b) [].

Definition PostMessage : list action := scoped LQueue [].
Definition CancelMessage : list action := scoped LQueue [].

(** [posts]: it has a callback and has not been started. *)
Definition Alarm_Start (a : alarm_id) (posts : bool) : list action :=
  scoped (LAlarm a) (if posts then PostMessage else []).
(** [pending]: [_messageId] is not 0. *)
Definition Alarm_Cancel (a : alarm_id) (pending : bool) : list action :=
  scoped (LAlarm a) (if pending then CancelMessage else []).

Definition Pool_Get : list action := scoped LPool [].

(** The call of Poll in SocketSelect::Select, which takes the signal. *)
Definition Select (b : breaker_id) : list action := Clear b.

(** *** TcpClient *)
Definition MakeSureConnected (new_thread : bool) : list action :=
  scoped LMutex (if new_thread then Clear ReadWriteBreaker ++ Clear ConnectBreaker else []).

Inductive disconnect : Set := NotRunning | Reconnects (new_thread : bool) | Running.
Definition DisconnectAsync (d : disconnect) : list action :=
  match d with
  | NotRunning => scoped LMutex []
  | Reconnects new_thread => scoped LMutex [] ++ MakeSureConnected new_thread
  | Running => scoped LMutex (Break ReadWriteBreaker ++ Break ConnectBreaker)
  end.

Definition __GetCallback : list action := scoped LMap [].

(** [_thread->join()].  On the thread itself std::thread throws, and nothing catches it;
    here that thread waits for ever, for a lock that it holds: either way it does not go
    on. *)
Definition join : list action := [Acq LThread; Rel LThread].

Definition cancels (alarms : list (alarm_id * bool)) : list action :=
  concat ((λ '(a, pending), Alarm_Cancel a pending) <$> alarms).

(** [None]: [_thread] is NULL.  The alarms that are cancelled, and the callbacks. *)
Definition __WaitDisconnect (w : option (list (alarm_id * bool) * nat)) : list action :=
  match w with
  | None => []
  | Some (alarms, ids) =>
      join ++
      scoped LTimeout (cancels alarms) ++
      concat (replicate ids __GetCallback)
  end.

Definition Send (connected : bool) : list action :=
  scoped LMutex (if connected then scoped LMap [] ++ Break ReadWriteBreaker else []).
Definition SendNoReply (connected : bool) : list action :=
  scoped LMutex (if connected then Break ReadWriteBreaker else []).
Definition SendDisconnect (connected : bool) : list action :=
  scoped LMutex (if connected then Break ReadWriteBreaker else []).

(** Disconnect, and the destructors of the client's alarms, which cancel them. *)
Definition destructor (d : disconnect) (w : option (list (alarm_id * bool) * nat))
    (alarms : list (alarm_id * bool)) : list action :=
  DisconnectAsync d ++ __WaitDisconnect w ++ cancels alarms.

(** What the application calls; Disconnect is DisconnectAsync and __WaitDisconnect. *)
Inductive call : Set :=
| CallMakeSureConnected (new_thread : bool)
| CallDisconnectAsync (d : disconnect)
| CallDisconnect (d : disconnect) (w : option (list (alarm_id * bool) * nat))
| CallDestructor (d : disconnect) (w : option (list (alarm_id * bool) * nat)) (alarms : list (alarm_id * bool))
| CallSend (connected : bool)
| CallSendNoReply (connected : bool)
| CallSendDisconnect (connected : bool).

Definition call_locks (c : call) : list action :=
  match c with
  | CallMakeSureConnected b => MakeSureConnected b
  | CallDisconnectAsync d => DisconnectAsync d
  | CallDisconnect d w => DisconnectAsync d ++ __WaitDisconnect w
  | CallDestructor d w alarms => destructor d w alarms
  | CallSend b => Send b
  | CallSendNoReply b => SendNoReply b
  | CallSendDisconnect b => SendDisconnect b
  end.

Definition calls (l : list call) : list action := concat (call_locks <$> l).

(** A listener that is called on the spot; [None]: there is none, or nothing to tell. *)
Definition listener (f : option (list call)) : list action :=
  match f with None => [] | Some l => Callback :: calls l end.

(** *** The thread of __Run *)
Definition __SetConnectStatus (f : option (list call)) : list action := listener f.

(** [httpDns]: _getHttpDns; [lookup]: it has not found anything. *)
Definition GetHostByName (httpDns : option (list call)) (lookup : bool) : list action :=
  listener httpDns ++ (if lookup then Clear RetBreaker ++ Select ConnectBreaker else []).

Definition ConnectImpatient (turns : nat) : list action := concat (replicate turns (Select ConnectBreaker)).

(** How far it gets, with what is called there. *)
Inductive connecting : Set :=
| Unprepared                                         (* no net, host or backup address *)
| Unresolved (httpDns : option (list call))          (* interrupted *)
| Opened (httpDns : option (list call)) (lookup : bool) (turns : nat)
         (getConnectInfo : option (list call)).

Definition __RunConnect (c : connecting) : list action :=
  match c with
  | Unprepared => []
  | Unresolved httpDns => GetHostByName httpDns true
  | Opened httpDns lookup turns info =>
      GetHostByName httpDns lookup ++ ConnectImpatient turns ++ listener info
  end.

Inductive received : Set :=
| ReceivedPingResp (pending : bool)
| ReceivedSendReq                                    (* answered on another thread *)
| ReceivedSendResp (alarm : option (alarm_id * bool))
| ReceivedDisconnect (kickout : option disconnect) (f : option (list call))
| ReceivedOther.

Definition __handleSendResp (alarm : option (alarm_id * bool)) : list action :=
  scoped LTimeout (match alarm with Some (a, pending) => Alarm_Cancel a pending | None => [] end) ++
  __GetCallback.

Definition __handleDisconnect (kickout : option disconnect) (f : option (list call)) : list action :=
  match kickout with Some d => DisconnectAsync d | None => [] end ++ listener f.

Definition receive (r : received) : list action :=
  match r with
  | ReceivedPingResp pending => Alarm_Cancel PingTimeoutAlarm pending
  | ReceivedSendResp alarm => __handleSendResp alarm
  | ReceivedDisconnect kickout f => __handleDisconnect kickout f
  | ReceivedSendReq | ReceivedOther => []
  end.

(** The timer of a request that has been written. *)
Definition start_timeout (a : alarm_id) (posts : bool) : list action :=
  Pool_Get ++ Alarm_Start a posts ++ scoped LTimeout [].

(** A message is taken, written, and popped: [front] and [pop] of the queue are locked
    each for itself.  [timer]: it is a SendReq. *)
Definition write (timer : option (alarm_id * bool)) (pinging posts : bool) : list action :=
  scoped LMutex [] ++
  match timer with Some (a, posts) => start_timeout a posts | None => [] end ++
  scoped LMutex [] ++ Alarm_Cancel PingAlarm pinging ++ Alarm_Start PingAlarm posts.

(** The three parts of a turn; each can end the loop. *)
Inductive writing : Set :=
| NoWrite | WriteFails | Writes (timer : option (alarm_id * bool)) (pinging posts : bool).
Inductive reading : Set := NoRead | ReadFails | Reads (r : received).
Inductive pinging : Set := NoPing | PingFails | Pings (pending posts : bool).

Definition ping (g : pinging) : list action :=
  match g with
  | Pings pending posts => Alarm_Cancel PingTimeoutAlarm pending ++ Alarm_Start PingTimeoutAlarm posts
  | NoPing | PingFails => []
  end.
Definition read (r : reading) (g : pinging) : list action :=
  match r with
  | NoRead => ping g
  | ReadFails => []
  | Reads r => receive r ++ ping g
  end.

(** [start]: the alarm for the ping is not waiting.  [rest]: [None] when the loop is left
    after select. *)
Record turn : Set := mkTurn {
  start : option bool;
  rest : option (writing * reading * pinging);
}.
Definition turn_locks (t : turn) : list action :=
  match start t with Some posts => Alarm_Start PingAlarm posts | None => [] end ++
  scoped LMutex [] ++ Select ReadWriteBreaker ++
  match rest t with
  | None => []
  | Some (w, r, g) =>
      scoped LMutex [] ++
      match w with
      | NoWrite => read r g
      | WriteFails => scoped LMutex []
      | Writes timer pinging posts => write timer pinging posts ++ read r g
      end
  end.

(** The ScopeGuard cancels two alarms. *)
Definition __RunReadWrite (turns : list turn) (pinging waiting : bool) : list action :=
  concat (turn_locks <$> turns) ++ Alarm_Cancel PingAlarm pinging ++ Alarm_Cancel PingTimeoutAlarm waiting.

Record run : Set := mkRun {
  on_connecting : option (list call);
  connects : connecting;
  on_result : option (list call);
  loop : option (list turn * bool * bool);           (* None: not connected *)
  on_disconnected : option (list call);
  reconnects : bool;
}.
Definition run_body (r : run) : list action :=
  __SetConnectStatus (on_connecting r) ++ __RunConnect (connects r) ++
  __SetConnectStatus (on_result r) ++
  match loop r with Some (turns, b1, b2) => __RunReadWrite turns b1 b2 | None => [] end ++
  __SetConnectStatus (on_disconnected r) ++ Alarm_Start ReconnectAlarm (reconnects r).
Definition __Run (r : run) : list action := scoped LThread (run_body r).

(** *** The thread of the MessageQueue *)

(** The closures of the alarms; [None]: no callback was found, which ends the closure. *)
Inductive closure_run : Set :=
| RunReconnect (w : option (list (alarm_id * bool) * nat)) (again : option bool)
| RunPing                                            (* and the timeout of the ping *)
| RunSendTimeout (found : option (option disconnect)).

Definition closure_locks (c : closure_run) : list action :=
  match c with
  | RunReconnect w again =>
      __WaitDisconnect w ++ match again with Some b => MakeSureConnected b | None => [] end
  | RunPing => Break ReadWriteBreaker
  | RunSendTimeout found =>
      scoped LTimeout [] ++ __GetCallback ++
      match found with Some (Some d) => DisconnectAsync d | _ => [] end
  end.

(** The callback that SetCallback makes; [None]: the alarm has been cancelled. *)
Definition alarm_callback (a : alarm_id) (c : option closure_run) : list action :=
  scoped (LAlarm a) [] ++ match c with Some c => closure_locks c | None => [] end.

(** One round of __RunLoop; [None]: the message is in [_canceledMessageIds]. *)
Definition round (due : list (option (alarm_id * option closure_run))) : list action :=
  scoped LQueue [] ++
  concat ((λ m, scoped LQueue [] ++ match m with Some (a, c) => alarm_callback a c | None => [] end) <$> due) ++
  scoped LQueue [].

(** *** The program

    Threads of the application, callbacks that run on threads of their own, the thread
    of __Run, the queue, and the queries for addresses. *)
Inductive program : list action → Prop :=
| program_calls l : program (calls l)
| program_callback l : program (Callback :: calls l)
| program_run r : program (__Run r)
| program_round due : program (round due)
| program_query : program (Break RetBreaker).

(** A condition on the application: no listener that the thread of __Run calls on the
    spot joins that thread, by Disconnect or by the destructor. *)
Definition no_self_join (p : list action) : Prop :=
  ∀ r, p = __Run r → Acq LThread ∉ run_body r.
Definition careful (p : list action) : Prop := program p ∧ no_self_join p.

(** ** How the threads run *)
Record thread : Set := mkThread { held : list lock; todo : list action }.
Definition owned (ts : list thread) : list lock := concat (held <$> ts).

(** A mutex that is owned, by whichever thread, makes lock() wait. *)
Inductive tstep (o : list lock) : thread → thread → Prop :=
| tstep_acq h l p : l ∉ o → tstep o (mkThread h (Acq l :: p)) (mkThread (l :: h) p)
| tstep_rel h l p : l ∈ h → tstep o (mkThread h (Rel l :: p)) (mkThread (filter (.≠ l) h) p)
| tstep_callback h p : tstep o (mkThread h (Callback :: p)) (mkThread h p).

Inductive pstep (ts : list thread) : list thread → Prop :=
| pstep_run i t t' : ts !! i = Some t → tstep (owned ts) t t' → pstep ts (<[i := t']> ts).

(** Any number of threads with programs of [P] start at any time. *)
Inductive reachable (P : list action → Prop) : list thread → Prop :=
| reach_none : reachable P []
| reach_start ts p : reachable P ts → P p → reachable P (ts ++ [mkThread [] p])
| reach_pstep ts ts' : reachable P ts → pstep ts ts' → reachable P ts'.

Definition ended (t : thread) : Prop := todo t = [].
Definition stuck (ts : list thread) : Prop := ∀ ts', ¬ pstep ts ts'.

End Locks.
