(* ===== verification/LocksProps.v ===== *)
(** * LocksProps: the client does not deadlock

    Locks have ranks, and every operation takes them in rising order, which [scan]
    decides, if no listener on the thread of __Run joins that thread ([careful]).  Of the threads that wait, one whose lock has the highest rank waits for
    a thread that does not wait. *)
From stdpp Require Import relations.
From S2P Require Import Prelude TcpClient Locks.
Import Locks.

(** ** The order *)

Definition rank (l : lock) : nat :=
  match l with
  | LThread => 0
  | LMutex => 1
  | LTimeout => 2
  | LMap => 3
  | LBreaker _ => 4
  | LPool => 5
  | LAlarm _ => 6
  | LQueue => 7
  end.

Lemma rank_bound l : (rank l < 8)%nat.
Proof. destruct l; simpl; lia. Qed.

Definition below (n : nat) (h : list lock) : Prop := Forall (λ l, (rank l < n)%nat) h.
#[export] Instance below_dec n h : Decision (below n h).
Proof. unfold below. apply _. Defined.

(** The locks held after [p], if it takes them in order, gives back the last one taken,
    and calls the application with no mutex held. *)
Fixpoint scan (h : list lock) (p : list action) : option (list lock) :=
  match p with
  | [] => Some h
  | Acq l :: p => if decide (below (rank l) h) then scan (l :: h) p else None
  | Rel l :: p =>
      match h with
      | l' :: h => if decide (l' = l) then scan h p else None
      | [] => None
      end
  | Callback :: p => if decide (below 1 h) then scan h p else None
  end.

Definition balanced (h : list lock) (p : list action) : Prop := scan h p = Some h.

Create HintDb locks.

Lemma scan_app h p q : scan h (p ++ q) = scan h p ≫= λ h', scan h' q.
Proof.
  revert h. induction p as [|[l|l|] p IH]; intros h; simpl; [done|..].
  - case_decide; [apply IH|done].
  - destruct h as [|l' h]; [done|]. case_decide; [apply IH|done].
  - case_decide; [apply IH|done].
Qed.

Lemma balanced_nil h : balanced h [].
Proof. done. Qed.
Lemma balanced_app h p q : balanced h p → balanced h q → balanced h (p ++ q).
Proof. unfold balanced. intros Hp Hq. by rewrite scan_app, Hp. Qed.
Lemma balanced_scoped h l p : below (rank l) h → balanced (l :: h) p → balanced h (scoped l p).
Proof.
  unfold balanced. intros Hl Hp. unfold scoped. simpl. rewrite decide_True by done.
  rewrite scan_app, Hp. simpl. by rewrite decide_True.
Qed.
Lemma balanced_callback h p : below 1 h → balanced h p → balanced h (Callback :: p).
Proof. unfold balanced. intros Hh Hp. simpl. by rewrite decide_True. Qed.
Lemma balanced_concat h ps : Forall (balanced h) ps → balanced h (concat ps).
Proof. induction 1; [done|by apply balanced_app]. Qed.
Lemma balanced_replicate h n p : balanced h p → balanced h (concat (replicate n p)).
Proof. intros Hp. apply balanced_concat. by apply Forall_replicate. Qed.

Lemma below_mono m n h : below m h → (m ≤ n)%nat → below n h.
Proof. intros Hh Hmn. eapply Forall_impl; [exact Hh|]. simpl. lia. Qed.
Lemma below_cons n l h : (rank l < n)%nat → below n h → below n (l :: h).
Proof. by constructor. Qed.

(** An operation that needs that no lock of [n] or more is held. *)
Definition safe (n : nat) (p : list action) : Prop := ∀ h, below n h → balanced h p.

Lemma safe_nil n : safe n [].
Proof. done. Qed.
Lemma safe_app n p q : safe n p → safe n q → safe n (p ++ q).
Proof. intros Hp Hq h Hh. by apply balanced_app; [apply Hp|apply Hq]. Qed.
Lemma safe_scoped n l p : (n ≤ rank l)%nat → safe (S (rank l)) p → safe n (scoped l p).
Proof.
  intros Hn Hp h Hh. apply balanced_scoped; [by eapply below_mono|]. apply Hp.
  apply below_cons; [lia|]. eapply below_mono; [exact Hh|lia].
Qed.
Lemma safe_callback p : safe 1 p → safe 1 (Callback :: p).
Proof. intros Hp h Hh. by apply balanced_callback, Hp. Qed.
Lemma safe_mono m n p : safe n p → (m ≤ n)%nat → safe m p.
Proof. intros Hp Hmn h Hh. by apply Hp, (below_mono m). Qed.
Lemma safe_concat n ps : Forall (safe n) ps → safe n (concat ps).
Proof. intros Hps h Hh. apply balanced_concat. eapply Forall_impl; [exact Hps|]. intros p Hp. by apply Hp. Qed.
#[export] Hint Resolve safe_nil safe_app safe_callback : locks.
#[export] Hint Extern 1 (safe _ (scoped _ _)) => apply safe_scoped; cbn [rank]; [lia|] : locks.
#[export] Hint Extern 1 (safe _ (concat _)) => apply safe_concat : locks.
#[export] Hint Extern 1 (Forall _ (replicate _ _)) => apply Forall_replicate : locks.
#[export] Hint Extern 1 (Forall _ (_ <$> _)) => apply Forall_fmap, Forall_true; intros ?; cbv beta : locks.
#[export] Hint Extern 2 (safe _ (match ?x with _ => _ end)) => destruct x : locks.

Ltac safely := eauto 20 with locks.

Lemma safe_Break b n : (n ≤ 4)%nat → safe n (Break b).
Proof. intros. apply safe_scoped; [simpl; lia|apply safe_nil]. Qed.
Lemma safe_Clear b n : (n ≤ 4)%nat → safe n (Clear b).
Proof. apply safe_Break. Qed.
Lemma safe_Alarm_Start a b n : (n ≤ 6)%nat → safe n (Alarm_Start a b).
Proof. intros. unfold Alarm_Start. apply safe_scoped; [simpl; lia|]. destruct b; unfold PostMessage; safely. Qed.
Lemma safe_Alarm_Cancel a b n : (n ≤ 6)%nat → safe n (Alarm_Cancel a b).
Proof. intros. unfold Alarm_Cancel. apply safe_scoped; [simpl; lia|]. destruct b; unfold CancelMessage; safely. Qed.
#[export] Hint Extern 1 (safe _ (Break _)) => apply safe_Break; lia : locks.
#[export] Hint Extern 1 (safe _ (Clear _)) => apply safe_Clear; lia : locks.
#[export] Hint Extern 1 (safe _ (Select _)) => apply safe_Clear; lia : locks.
#[export] Hint Extern 1 (safe _ (Alarm_Start _ _)) => apply safe_Alarm_Start; lia : locks.
#[export] Hint Extern 1 (safe _ (Alarm_Cancel _ _)) => apply safe_Alarm_Cancel; lia : locks.

Lemma safe_MakeSureConnected b : safe 1 (MakeSureConnected b).
Proof. unfold MakeSureConnected. safely. Qed.
#[export] Hint Resolve safe_MakeSureConnected : locks.
Lemma safe_DisconnectAsync d : safe 1 (DisconnectAsync d).
Proof. unfold DisconnectAsync. safely. Qed.
#[export] Hint Resolve safe_DisconnectAsync : locks.
Lemma safe_GetCallback : safe 1 __GetCallback.
Proof. unfold __GetCallback. safely. Qed.
#[export] Hint Resolve safe_GetCallback : locks.
Lemma safe_closure_timeout f : safe 1 (closure_locks (RunSendTimeout f)).
Proof. cbn [closure_locks]. safely. Qed.

(** *** What can join the thread: only without it *)

Lemma safe_join : safe 0 join.
Proof. apply (safe_scoped 0 LThread []); [simpl; lia|apply safe_nil]. Qed.
#[export] Hint Resolve safe_join : locks.

Lemma safe_0 p : safe 1 p → safe 0 p.
Proof. intros Hp. apply (safe_mono 0 1); [done|lia]. Qed.

Lemma safe_cancels (alarms : list (alarm_id * bool)) n :
  (n ≤ 6)%nat → safe n (cancels alarms).
Proof. intros Hn. apply safe_concat, Forall_fmap, Forall_true. intros [a b]. by apply safe_Alarm_Cancel. Qed.

Lemma safe_WaitDisconnect w : safe 0 (__WaitDisconnect w).
Proof.
  destruct w as [[alarms ids]|]; [|apply safe_nil]. unfold __WaitDisconnect.
  apply safe_app; [apply safe_join|apply safe_app].
  - apply safe_scoped; [simpl; lia|]. apply safe_cancels. simpl. lia.
  - apply safe_0, safe_concat, Forall_replicate, safe_GetCallback.
Qed.
#[export] Hint Resolve safe_WaitDisconnect : locks.

(** On the thread itself: unless it joins. *)
Definition quiet (p : list action) : Prop := Acq LThread ∉ p → safe 1 p.

Lemma quiet_safe p : safe 1 p → quiet p.
Proof. by intros Hp _. Qed.
Lemma quiet_app p q : quiet p → quiet q → quiet (p ++ q).
Proof. intros Hp Hq [Hnp Hnq]%not_elem_of_app. apply safe_app; auto. Qed.
Lemma quiet_concat ps : Forall quiet ps → quiet (concat ps).
Proof. induction 1; [by apply quiet_safe|]. by apply quiet_app. Qed.
Lemma quiet_callback p : quiet p → quiet (Callback :: p).
Proof. intros Hp Hn. apply safe_callback, Hp. set_solver. Qed.
#[export] Hint Resolve quiet_app quiet_callback : locks.
#[export] Hint Extern 1 (quiet (concat _)) => apply quiet_concat : locks.
#[export] Hint Extern 2 (quiet (match ?x with _ => _ end)) => destruct x : locks.
#[export] Hint Extern 5 (quiet _) => apply quiet_safe : locks.

Lemma quiet_WaitDisconnect w : quiet (__WaitDisconnect w).
Proof.
  destruct w as [[alarms ids]|]; [|apply quiet_safe, safe_nil]. intros Hn. exfalso. apply Hn. by left.
Qed.
#[export] Hint Resolve quiet_WaitDisconnect : locks.

Lemma safe_call c : safe 0 (call_locks c).
Proof.
  destruct c; cbn [call_locks]; try (apply safe_0; unfold Send, SendNoReply, SendDisconnect; by safely).
  - apply safe_app; [apply safe_0|]; safely.
  - apply safe_app; [apply safe_0; safely|]. apply safe_app; [safely|]. apply safe_cancels. lia.
Qed.
Lemma quiet_call c : quiet (call_locks c).
Proof.
  destruct c; cbn [call_locks]; try (apply quiet_safe; unfold Send, SendNoReply, SendDisconnect; by safely).
  - by apply quiet_app; safely.
  - apply quiet_app; [safely|]. apply quiet_app; [safely|]. apply quiet_safe, safe_cancels. lia.
Qed.
#[export] Hint Resolve safe_call quiet_call : locks.

Lemma safe_calls l : safe 0 (calls l).
Proof. unfold calls. safely. Qed.
Lemma quiet_calls l : quiet (calls l).
Proof. unfold calls. safely. Qed.
Lemma quiet_listener f : quiet (listener f).
Proof. destruct f; cbn [listener]; [apply quiet_callback, quiet_calls|safely]. Qed.
#[export] Hint Resolve safe_calls quiet_calls quiet_listener : locks.

(** *** The thread of __Run *)

Lemma quiet_GetHostByName f lookup : quiet (GetHostByName f lookup).
Proof. unfold GetHostByName. safely. Qed.
#[export] Hint Resolve quiet_GetHostByName : locks.
Lemma quiet_RunConnect c : quiet (__RunConnect c).
Proof. destruct c; cbn [__RunConnect]; unfold ConnectImpatient; safely. Qed.

Lemma quiet_receive r : quiet (receive r).
Proof.
  destruct r; cbn [receive]; unfold __handleSendResp, __handleDisconnect; safely.
Qed.
Lemma safe_ping g : safe 1 (ping g).
Proof. destruct g; cbn [ping]; safely. Qed.
#[export] Hint Resolve quiet_receive safe_ping : locks.
Lemma quiet_read r g : quiet (read r g).
Proof. destruct r; cbn [read]; safely. Qed.
Lemma safe_write timer b1 b2 : safe 1 (write timer b1 b2).
Proof. unfold write, start_timeout, Pool_Get. destruct timer as [[a b]|]; safely. Qed.
#[export] Hint Resolve quiet_read safe_write : locks.
Lemma quiet_turn t : quiet (turn_locks t).
Proof. unfold turn_locks. destruct (start t), (rest t) as [[[[] r] g]|]; safely. Qed.
#[export] Hint Resolve quiet_RunConnect quiet_turn : locks.
Lemma quiet_RunReadWrite turns b1 b2 : quiet (__RunReadWrite turns b1 b2).
Proof. unfold __RunReadWrite. safely. Qed.
#[export] Hint Resolve quiet_RunReadWrite : locks.
Lemma quiet_run_body r : quiet (run_body r).
Proof. unfold run_body, __SetConnectStatus. destruct (loop r) as [[[turns b1] b2]|]; safely. Qed.

(** *** The queue *)

Lemma safe_closure c : safe 0 (closure_locks c).
Proof.
  destruct c; cbn [closure_locks]; [|apply safe_0; safely|apply safe_0, safe_closure_timeout].
  apply safe_app; [safely|]. destruct again; [apply safe_0; safely|apply safe_nil].
Qed.
#[export] Hint Resolve safe_closure : locks.
Lemma safe_round due : safe 0 (round due).
Proof. unfold round, alarm_callback. safely. Qed.

(** Every program of the client takes its locks in order, and ends with none, if the
    application keeps the condition. *)
Lemma program_ordered p : careful p → scan [] p = Some [].
Proof.
  intros [Hp Hj]. assert (safe 0 p) as Hs; [|by apply Hs; constructor].
  destruct Hp as [l|l|r|due|].
  - apply safe_calls.
  - intros h Hh. apply balanced_callback; [by eapply below_mono; [|]; eauto with lia|by apply safe_calls].
  - apply safe_scoped; [simpl; lia|]. by apply quiet_run_body, Hj.
  - apply safe_round.
  - apply safe_Break. lia.
Qed.

(** ** The pool of threads *)

Definition ordered (t : thread) : Prop := scan (held t) (todo t) = Some [].
Definition pool_inv (ts : list thread) : Prop := Forall ordered ts ∧ NoDup (owned ts).

Lemma owned_app ts1 ts2 : owned (ts1 ++ ts2) = owned ts1 ++ owned ts2.
Proof. unfold owned. by rewrite fmap_app, concat_app. Qed.
Lemma owned_elem ts l : l ∈ owned ts → ∃ i t, ts !! i = Some t ∧ l ∈ held t.
Proof.
  induction ts as [|t ts IH]; [set_solver|]. intros [Hl|Hl]%elem_of_app; [by exists 0%nat, t|].
  destruct (IH Hl) as (i & t' & Hi & Hl'). by exists (S i), t'.
Qed.

Lemma filter_absent (l : lock) (h : list lock) : l ∉ h → filter (.≠ l) h = h.
Proof.
  induction h as [|l' h IH]; [done|]. intros [Hne Hni]%not_elem_of_cons.
  rewrite filter_cons_True by done. f_equal. by apply IH.
Qed.

(** A step keeps the order, and takes only what is free. *)
Lemma tstep_inv o t t' :
  tstep o t t' → ordered t → NoDup (held t) →
  ordered t' ∧ (held t' `sublist_of` held t ∨ ∃ l, held t' = l :: held t ∧ l ∉ o).
Proof.
  unfold ordered. intros [h l p Hl|h l p Hl|h p] Ho Hnd; simpl in *.
  - case_decide; [|done]. split; [done|]. right. by exists l.
  - destruct h as [|l' h]; [done|]. case_decide as Heq; [subst l'|done].
    apply NoDup_cons in Hnd as [Hni Hnd].
    rewrite filter_cons_False, filter_absent by naive_solver. split; [done|]. left. by apply sublist_cons.
  - case_decide; [|done]. split; [done|by left].
Qed.

Lemma pstep_inv ts ts' : pool_inv ts → pstep ts ts' → pool_inv ts'.
Proof.
  intros [Ho Hnd] [i t t' Hi Hs]. apply list_elem_of_split_length in Hi as (l1 & l2 & -> & ->).
  rewrite insert_middle. apply Forall_app in Ho as [Ho1 [Ho Ho2]%Forall_cons].
  assert (owned (l1 ++ t :: l2) ≡ₚ held t ++ owned l1 ++ owned l2) as Ep.
  { rewrite owned_app. change (owned (t :: l2)) with (held t ++ owned l2). solve_Permutation. }
  assert (owned (l1 ++ t' :: l2) ≡ₚ held t' ++ owned l1 ++ owned l2) as Ep'.
  { rewrite owned_app. change (owned (t' :: l2)) with (held t' ++ owned l2). solve_Permutation. }
  rewrite Ep in Hnd. pose proof (proj1 (NoDup_app _ _) Hnd) as [Hndt _].
  destruct (tstep_inv _ _ _ Hs Ho Hndt) as [Ho' Hh]. split.
  { apply Forall_app. split; [done|]. by constructor. }
  rewrite Ep'. destruct Hh as [Hh|(l & -> & Hl)].
  - eapply sublist_NoDup; [exact Hnd|]. by apply sublist_app.
  - simpl. apply NoDup_cons. split; [|done]. by rewrite <-Ep.
Qed.

Lemma reachable_inv ts : reachable careful ts → pool_inv ts.
Proof.
  induction 1 as [|ts p _ [Ho Hnd] Hp|ts ts' _ Hinv Hs].
  - split; constructor.
  - split.
    + apply Forall_app. split; [done|]. constructor; [by apply program_ordered|constructor].
    + rewrite owned_app. by rewrite app_nil_r.
  - by eapply pstep_inv.
Qed.

(** ** No deadlock *)

(** A lock that is taken ranks above those held. *)
Lemma ordered_acq t l p l' : ordered t → todo t = Acq l :: p → l' ∈ held t → (rank l' < rank l)%nat.
Proof.
  unfold ordered. intros Ho E Hl'. rewrite E in Ho. simpl in Ho. case_decide as Hb; [|done].
  exact (proj1 (Forall_forall _ _) Hb l' Hl').
Qed.

(** What is not waiting for a lock can go on. *)
Lemma ready ts i t a p :
  pool_inv ts → ts !! i = Some t → todo t = a :: p → (∀ l, a = Acq l → l ∉ owned ts) →
  ∃ ts', pstep ts ts'.
Proof.
  intros [Ho _] Hi Ht Ha. pose proof (Forall_lookup_1 _ _ _ _ Ho Hi) as Hot.
  destruct t as [h q]. simpl in Ht. subst q. unfold ordered in Hot. simpl in Hot.
  destruct a as [l|l|]; eexists; (eapply pstep_run; [exact Hi|]).
  - apply tstep_acq. by apply Ha.
  - apply tstep_rel. destruct h as [|l' h]; [done|]. case_decide; [subst l'; by left|done].
  - apply tstep_callback.
Qed.

(** A thread that waits leads to one that does not. *)
Lemma waiting_for n : ∀ ts i t l p,
  pool_inv ts → ts !! i = Some t → todo t = Acq l :: p → (8 ≤ rank l + n)%nat → ∃ ts', pstep ts ts'.
Proof.
  induction n as [|n IH]; intros ts i t l p Hinv Hi Ht Hn.
  { pose proof (rank_bound l). lia. }
  destruct (decide (l ∈ owned ts)) as [Hl|Hl].
  2:{ eapply ready; [done..|]. by intros ? [= <-]. }
  apply owned_elem in Hl as (j & t' & Hj & Hl).
  pose proof (Forall_lookup_1 _ _ _ _ (proj1 Hinv) Hj) as Hot.
  destruct (todo t') as [|a q] eqn:Eq.
  { unfold ordered in Hot. rewrite Eq in Hot. simpl in Hot. injection Hot as E. rewrite E in Hl. set_solver. }
  destruct a as [l'| |]; [|by eapply ready..].
  pose proof (ordered_acq _ _ _ _ Hot Eq Hl). eapply (IH ts j t' l'); [done..|lia].
Qed.

Lemma progress ts : pool_inv ts → (∃ t, t ∈ ts ∧ ¬ ended t) → ∃ ts', pstep ts ts'.
Proof.
  intros Hinv (t & [i Hi]%list_elem_of_lookup & Ht). unfold ended in Ht.
  destruct (todo t) as [|[l| |] p] eqn:E; [done| |by eapply ready..].
  eapply (waiting_for 8); [done..|lia].
Qed.

(** What is left to do. *)
Definition length_left (ts : list thread) : nat := sum_list_with (λ t, length (todo t)) ts.

Lemma pstep_less ts ts' : pstep ts ts' → (length_left ts' < length_left ts)%nat.
Proof.
  intros [i t t' Hi Hs]. apply list_elem_of_split_length in Hi as (l1 & l2 & -> & ->).
  rewrite insert_middle. unfold length_left. rewrite !sum_list_with_app.
  destruct Hs; simpl; lia.
Qed.

Lemma all_ended_owned ts : pool_inv ts → Forall ended ts → owned ts = [].
Proof.
  intros [Ho _] He. destruct (owned ts) as [|l o] eqn:E; [done|].
  destruct (owned_elem ts l) as (i & t & Hi & Hl); [rewrite E; by left|].
  pose proof (Forall_lookup_1 _ _ _ _ Ho Hi) as Hot. unfold ordered in Hot.
  rewrite (Forall_lookup_1 _ _ _ _ He Hi) in Hot. simpl in Hot. injection Hot as E'. rewrite E' in Hl. set_solver.
Qed.

Lemma runs_end ts : sn pstep ts.
Proof.
  remember (length_left ts) as n eqn:En. revert ts En. induction (lt_wf n) as [n _ IH]. intros ts ->.
  constructor. intros ts' Hs. eapply IH; [exact (pstep_less _ _ Hs)|done].
Qed.

Lemma ended_or_goes_on ts : pool_inv ts → Forall ended ts ∨ ∃ ts', pstep ts ts'.
Proof.
  intros Hinv. destruct (decide (Forall (λ t, todo t = []) ts)) as [He|Hn]; [by left|right].
  apply progress; [done|]. by apply not_Forall_Exists, Exists_exists in Hn; [|apply _].
Qed.

(** The rest of any schedule, to its end. *)
Lemma can_end ts : pool_inv ts → ∃ ts', rtc pstep ts ts' ∧ Forall ended ts'.
Proof.
  intros Hinv. induction (runs_end ts) as [ts _ IH].
  destruct (ended_or_goes_on ts Hinv) as [He|[ts1 Hs]]; [by exists ts|].
  destruct (IH ts1 Hs (pstep_inv _ _ Hinv Hs)) as (ts' & Hr & He).
  exists ts'. split; [by eapply rtc_l|done].
Qed.

(** C7: the client does not deadlock, if no listener that the thread of __Run calls on
    the spot joins that thread.  Whatever other threads of the application, of the
    client, of the timers and of the resolver have been started, in whatever
    interleaving: where it can go no further, all threads have ended and every lock is
    free, and from everywhere all threads can come to their end.  So no threads wait in
    a cycle for each other's mutexes, or for the end of the client's thread. *)
Theorem no_deadlock ts :
  reachable careful ts →
  (stuck ts → Forall ended ts ∧ owned ts = []) ∧
  ∃ ts', rtc pstep ts ts' ∧ Forall ended ts'.
Proof.
  intros Hinv%reachable_inv. split; [|by apply can_end]. intros Hstuck.
  destruct (ended_or_goes_on ts Hinv) as [He|[ts1 Hs]]; [|by destruct (Hstuck ts1)].
  split; [done|by apply all_ended_owned].
Qed.

(** C8: the rule of the comment in Send: _mutex is asked for only when no other mutex is
    held, and the same holds when a callback of the application is called, which can
    therefore call the client again; under the condition of [no_deadlock]. *)
Theorem mutex_comes_first ts t p :
  reachable careful ts → t ∈ ts → todo t = Acq LMutex :: p ∨ todo t = Callback :: p →
  Forall (λ l, l = LThread) (held t).
Proof.
  intros [Ho _]%reachable_inv Ht Hp. pose proof (proj1 (Forall_forall _ _) Ho t Ht) as Hot. unfold ordered in Hot.
  assert (below 1 (held t)) as Hb.
  { destruct Hp as [E|E]; rewrite E in Hot; simpl in Hot; by case_decide. }
  eapply Forall_impl; [exact Hb|]. intros [] Hl; simpl in Hl; done || lia.
Qed.

(** One thread alone. *)
Lemma reach_alone P t t' : reachable P [t] → tstep (owned [t]) t t' → reachable P [t'].
Proof.
  intros Hr Hs. eapply reach_pstep; [exact Hr|].
  change [t'] with (<[0%nat:=t']> [t]). by apply (pstep_run [t] 0%nat t).
Qed.

Ltac step_alone Hr :=
  eapply reach_alone in Hr;
  [|first [apply tstep_callback | apply tstep_acq; vm_compute; set_solver | apply tstep_rel; set_solver]];
  simpl in Hr.

(** C40: a listener that calls Disconnect on the thread of the client waits for its own
    end: the thread stops in join() with nothing that could go on.  (std::thread turns
    this into an exception, which nothing catches.) *)
Theorem Disconnect_in_listener r w l :
  on_connecting r = Some (CallDisconnect Running (Some w) :: l) →
  ∃ t, reachable (λ p, p = __Run r) [t] ∧ ¬ ended t ∧ stuck [t].
Proof.
  intros E. destruct w as [alarms ids].
  assert (∃ q, __Run r = Acq LThread :: Callback :: Acq LMutex :: Break ReadWriteBreaker ++
    Break ConnectBreaker ++ Rel LMutex :: Acq LThread :: q) as [q Eq].
  { unfold __Run, run_body, __SetConnectStatus. rewrite E. by eexists. }
  exists (mkThread [LThread] (Acq LThread :: q)). split_and!; [|done|].
  - pose proof (reach_start (λ p, p = __Run r) [] _ (reach_none _) (eq_sym Eq)) as Hr.
    simpl in Hr. do 8 step_alone Hr. exact Hr.
  - intros ts' [i t t' Hi Hs]. destruct i; [|done]. injection Hi as <-.
    inversion Hs as [h l' p Hl| |]; subst. apply Hl. by left.
Qed.

(** ** Schedules *)

(** One step of thread [i], if it can go on. *)
Definition step_of (i : nat) (ts : list thread) : option (list thread) :=
  t ← ts !! i;
  match todo t with
  | [] => None
  | Acq l :: p => if decide (l ∈ owned ts) then None else Some (<[i := mkThread (l :: held t) p]> ts)
  | Rel l :: p => if decide (l ∈ held t) then Some (<[i := mkThread (filter (.≠ l) (held t)) p]> ts) else None
  | Callback :: p => Some (<[i := mkThread (held t) p]> ts)
  end.

Lemma step_of_pstep i ts ts' : step_of i ts = Some ts' → pstep ts ts'.
Proof.
  unfold step_of. intros ([h q] & Hi & E)%bind_Some. simpl in E. destruct q as [|[l|l|] p]; [done|..].
  - case_decide; [done|]. simplify_eq. by eapply pstep_run, tstep_acq.
  - case_decide; [|done]. simplify_eq. by eapply pstep_run, tstep_rel.
  - simplify_eq. by eapply pstep_run, tstep_callback.
Qed.

Fixpoint schedule (js : list nat) (ts : list thread) : option (list thread) :=
  match js with [] => Some ts | i :: js => step_of i ts ≫= schedule js end.

Lemma schedule_reachable P js ts ts' : reachable P ts → schedule js ts = Some ts' → reachable P ts'.
Proof.
  revert ts. induction js as [|i js IH]; intros ts Hr; simpl; [by intros [= <-]|].
  intros (ts1 & Hs & H)%bind_Some. eapply IH; [|exact H]. by eapply reach_pstep, step_of_pstep.
Qed.

Lemma started_reachable P ps : Forall P ps → reachable P (mkThread [] <$> ps).
Proof.
  induction ps as [|p ps IH] using rev_ind; intros Hps; [constructor|].
  apply Forall_app in Hps as [Hps [Hp _]%Forall_cons]. rewrite fmap_app. constructor; auto.
Qed.

(** *** An application that disconnects while the client connects *)
Module LocksDemo.

Definition application : list action :=
  calls [CallSend false; CallDisconnect Running (Some ([(PingAlarm, true)], 1%nat))].
Definition client : run :=
  mkRun (Some [CallSend false]) (Opened None true 2 (Some [])) None
    (Some ([mkTurn (Some true) (Some (Writes (Some (PingAlarm, true)) true true, NoRead, NoPing))], true, false))
    None true.
Definition timers : list action :=
  round [Some (ReconnectAlarm, Some (RunReconnect (Some ([], 0%nat)) (Some true)))].
Definition programs : list (list action) := [application; __Run client; timers].

Lemma run_body_of r r' : __Run r = __Run r' → run_body r = run_body r'.
Proof. unfold __Run, scoped. intros [= E]. by apply app_inj_tail in E as [E _]. Qed.

Lemma started : reachable careful (mkThread [] <$> programs).
Proof.
  apply started_reachable. unfold programs. apply Forall_cons_2.
  { split; [by apply program_calls|]. by intros r [=]. }
  apply Forall_cons_2.
  { split; [by apply program_run|]. intros r <-%run_body_of.
    apply (bool_decide_unpack _). vm_compute. exact I. }
  apply Forall_cons_2; [|constructor]. split; [by apply program_round|]. by intros r [=].
Qed.

(** The thread of the client is in its listener; the application waits in join(). *)
Definition steps : list nat := [1; 0; 0; 0; 0; 0; 0; 0; 0]%nat.
Definition joining : list thread := default [] (schedule steps (mkThread [] <$> programs)).

Lemma joining_reachable : reachable careful joining.
Proof. apply (schedule_reachable careful steps _ joining started). vm_compute. reflexivity. Qed.

Example application_waits : step_of 0 joining = None ∧ (todo <$> joining !! 0%nat) ≫= head = Some (Acq LThread).
Proof. split; vm_compute; reflexivity. Qed.
Example client_calls : held <$> joining !! 1%nat = Some [LThread] ∧ (todo <$> joining !! 1%nat) ≫= head = Some Callback.
Proof. split; vm_compute; reflexivity. Qed.

Lemma no_deadlock_witness :
  ¬ Forall ended joining ∧ ¬ stuck joining ∧ ∃ ts', rtc pstep joining ts' ∧ Forall ended ts'.
Proof.
  assert (¬ Forall ended joining) as He.
  { intros [Ht _]%Forall_cons. vm_compute in Ht. discriminate. }
  split_and!; [exact He| |exact (proj2 (no_deadlock joining joining_reachable))].
  intros Hs. apply He. exact (proj1 (proj1 (no_deadlock joining joining_reachable) Hs)).
Defined.

Lemma mutex_comes_first_witness : ∃ t, t ∈ joining ∧ held t = [LThread] ∧ Forall (λ l, l = LThread) (held t).
Proof.
  destruct joining as [|t0 [|t1 ts]] eqn:E; [vm_compute in E; discriminate..|].
  exists t1. assert (held t1 = [LThread] ∧ ∃ p, todo t1 = Callback :: p) as [Hh [p Hp]].
  { vm_compute in E. injection E as _ <- _. split; [done|]. by eexists. }
  split_and!; [right; by left|done|].
  apply (mutex_comes_first joining t1 p joining_reachable); [rewrite E; right; by left|by right].
Defined.

Lemma Disconnect_in_listener_witness :
  ∃ t, reachable (λ p, p = __Run (mkRun (Some [CallDisconnect Running (Some ([], 0%nat))]) Unprepared None None None true)) [t] ∧
    ¬ ended t ∧ stuck [t].
Proof. by apply (Disconnect_in_listener _ ([], 0%nat) []). Defined.

End LocksDemo.
