(* ===== verification/Joining.v ===== *)
(** * Joining: the life of the client's thread

    Lines 171 to 175 of __WaitDisconnect (tcp_client.cpp) test, join, delete and clear
    [_thread] without the mutex, while MakeSureConnected makes a new thread and __Run
    ends.  This file takes them line by line, with any number of callers: the
    application in Disconnect, and the closure of the alarm that reconnects. *)
From S2P Require Import Prelude.

Module Joining.

(** A std::thread: whether its function still runs, and whether it has been joined. *)
Inductive thread_object : Set := Runs | Ended | Joined.

Record t : Set := mk {
  _thread : option positive;                     (* NULL or an address *)
  heap : gmap positive thread_object;            (* those that are not deleted *)
}.

(** The line that a caller of __WaitDisconnect is about to execute. *)
Inductive waiter : Set := AtCheck | AtJoin | AtDelete | AtClear | Returned.

#[export] Instance waiter_eq_dec : EqDecision waiter.
Proof. solve_decision. Defined.
#[export] Instance thread_object_eq_dec : EqDecision thread_object.
Proof. solve_decision. Defined.

(** [None]: it blocks.  join() of a thread that has been joined throws, and so does the
    destructor of one that has not (it calls std::terminate): nothing catches this. *)
Definition wait_step (w : waiter) (s : t) : checked (option (waiter * t)) :=
  match w with
  | AtCheck => Ret (Some (match _thread s with None => Returned | Some _ => AtJoin end, s))
  | AtJoin =>
      match _thread s with
      | None => Undefined
      | Some p =>
          match heap s !! p with
          | Some Runs => Ret None
          | Some Ended => Ret (Some (AtDelete, mk (Some p) (<[p := Joined]> (heap s))))
          | Some Joined | None => Undefined
          end
      end
  | AtDelete =>
      match _thread s with
      | None => Ret (Some (AtClear, s))
      | Some p =>
          match heap s !! p with
          | Some Joined => Ret (Some (AtClear, mk (Some p) (delete p (heap s))))
          | _ => Undefined
          end
      end
  | AtClear => Ret (Some (Returned, mk None (heap s)))
  | Returned => Ret None
  end.

(** [connected]: the status is kConnected; [p]: the address that new returns. *)
Definition MakeSureConnected (connected : bool) (p : positive) (s : t) : t :=
  if connected then s
  else match _thread s with
       | None => mk (Some p) (<[p := Runs]> (heap s))
       | Some _ => s
       end.

(** __Run returns. *)
Definition run_ends (p : positive) (s : t) : t := mk (_thread s) (<[p := Ended]> (heap s)).

(** The callers, and the client. *)
Record system : Set := mkSystem { waiters : list waiter; client : t }.
Definition init : system := mkSystem [] (mk None ∅).

(** [admits] says when one more caller can come. *)
Inductive step (admits : list waiter → Prop) : system → system → Prop :=
| step_call ws s : admits ws → step admits (mkSystem ws s) (mkSystem (ws ++ [AtCheck]) s)
| step_wait ws s i w w' s' :
    ws !! i = Some w → wait_step w s = Ret (Some (w', s')) →
    step admits (mkSystem ws s) (mkSystem (<[i := w']> ws) s')
| step_connect ws s connected p :
    heap s !! p = None → step admits (mkSystem ws s) (mkSystem ws (MakeSureConnected connected p s))
| step_ends ws s p :
    heap s !! p = Some Runs → step admits (mkSystem ws s) (mkSystem ws (run_ends p s)).

Definition reachable (admits : list waiter → Prop) (x : system) : Prop := rtc (step admits) init x.

(** A caller at a line whose behaviour is undefined. *)
Definition faulty (x : system) : Prop :=
  ∃ i w, waiters x !! i = Some w ∧ wait_step w (client x) = Undefined.
(** Nothing is admitted while a caller is inside. *)
Definition one_by_one (ws : list waiter) : Prop := Forall (.= Returned) ws.
Definition any (_ : list waiter) : Prop := True.

(** The threads on which __Run is running. *)
Definition running (s : t) : gset positive := dom (filter (λ '(_, o), o = Runs) (heap s)).

(** Two callers have both seen the thread when it ends. *)
Definition both_joined : system := mkSystem [AtDelete; AtJoin] (mk (Some 1%positive) {[1%positive := Joined]}).

(** ** The invariant *)

Ltac cases :=
  repeat match goal with
         | H : _ ∨ _ |- _ => destruct H
         | H : ∃ _, _ |- _ => destruct H
         | H : _ ∧ _ |- _ => destruct H
         end.

(** What a caller at a line can rely on, when it is the only one. *)
Definition shape (w : waiter) (s : t) : Prop :=
  match w with
  | AtCheck | Returned =>
      s = mk None ∅ ∨ ∃ p o, s = mk (Some p) {[p := o]} ∧ o ≠ Joined
  | AtJoin => ∃ p o, s = mk (Some p) {[p := o]} ∧ o ≠ Joined
  | AtDelete => ∃ p, s = mk (Some p) {[p := Joined]}
  | AtClear => ∃ p, s = mk (Some p) ∅
  end.

(** All have returned but the last. *)
Definition inv (x : system) : Prop :=
  shape Returned (client x) ∧ waiters x = [] ∨
  ∃ n w, shape w (client x) ∧ waiters x = replicate n Returned ++ [w].

Lemma wait_step_shape w s : shape w s →
  wait_step w s = Ret None ∨ ∃ w' s', wait_step w s = Ret (Some (w', s')) ∧ shape w' s'.
Proof.
  destruct w; simpl.
  - intros [->|(p & o & -> & Ho)]; right; eexists _, _; (split; [done|]); simpl; [by left|by exists p, o].
  - intros (p & o & -> & Ho). simpl. rewrite lookup_singleton_eq. destruct o; [by left| |done].
    right. eexists _, _. split; [done|]. exists p. by rewrite insert_singleton_eq.
  - intros [p ->]. simpl. rewrite lookup_singleton_eq. right. eexists _, _. split; [done|].
    exists p. by rewrite delete_singleton_eq.
  - intros [p ->]. right. eexists _, _. split; [done|]. by left.
  - by left.
Qed.

Lemma connect_shape connected p w s :
  heap s !! p = None → shape w s → shape w (MakeSureConnected connected p s).
Proof.
  intros Hp Hs. unfold MakeSureConnected. destruct connected; [done|].
  destruct (_thread s) eqn:Et; [done|].
  destruct w; simpl in *;
    cases;
    subst; simplify_eq/=; right; exists p, Runs; by rewrite insert_empty.
Qed.

Lemma ends_shape p w s : heap s !! p = Some Runs → shape w s → shape w (run_ends p s).
Proof.
  intros Hp Hs. assert (∀ q o, s = mk (Some q) {[q := o]} → run_ends p s = mk (Some q) {[q := Ended]}) as He.
  { intros q o ->. simpl in Hp. apply lookup_singleton_Some in Hp as [-> ->].
    unfold run_ends. simpl. by rewrite insert_singleton_eq. }
  destruct w; simpl in Hs |- *;
    cases;
    subst s; simplify_map_eq; (first [right; eexists _, Ended|eexists _, Ended|idtac]); try (split; [by apply (He _ _ eq_refl)|done]).
Qed.

Lemma last_waiter n (w w' : waiter) i :
  (replicate n Returned ++ [w]) !! i = Some w' → w' = Returned ∨ i = n ∧ w' = w.
Proof.
  intros [Hi|[Hi Hl]]%lookup_app_Some; [left; by apply lookup_replicate in Hi as [-> _]|].
  rewrite length_replicate in *. apply list_lookup_singleton_Some in Hl as [Hn ->]. right. split; [lia|done].
Qed.

Lemma all_returned ws : one_by_one ws → ws = replicate (length ws) Returned.
Proof. intros Ha. symmetry. apply replicate_as_elem_of. split; [done|]. by apply Forall_forall. Qed.

Lemma step_keeps_inv x y : inv x → step one_by_one x y → inv y.
Proof.
  intros Hinv Hs. destruct Hs as [ws s Ha|ws s i w w' s' Hi Hw|ws s connected p Hp|ws s p Hp].
  - right. exists (length ws), AtCheck. simpl. split; [|f_equal; by apply all_returned].
    destruct Hinv as [[Hs _]|(n & w & Hs & E)]; simpl in *; [done|]. subst ws.
    apply Forall_app in Ha as [_ [-> _]%Forall_cons]. exact Hs.
  - destruct Hinv as [[_ E]|(n & w1 & Hs & E)]; simpl in *; subst ws; [done|].
    apply last_waiter in Hi as [->|[-> ->]]; [done|]. right. exists n, w'. simpl.
    split; [|by rewrite insert_app_r_alt, length_replicate, Nat.sub_diag by (rewrite length_replicate; done)].
    destruct (wait_step_shape _ _ Hs) as [E|(w2 & s2 & E & Hs2)]; rewrite Hw in E; [done|by simplify_eq].
  - destruct Hinv as [[Hs E]|(n & w & Hs & E)]; [left|right; exists n, w]; split; try done; by apply connect_shape.
  - destruct Hinv as [[Hs E]|(n & w & Hs & E)]; [left|right; exists n, w]; split; try done; by apply ends_shape.
Qed.

Lemma one_by_one_inv x : reachable one_by_one x → inv x.
Proof.
  intros Hr. pattern x. eapply rtc_ind_r; [| |exact Hr]; [left; split; [by left|done]|].
  intros y z _ Hs Hy. by eapply step_keeps_inv.
Qed.

(** ** What it is for *)

Lemma shape_running w s : shape w s → running s = ∅ ∨ ∃ p, _thread s = Some p ∧ running s = {[p]}.
Proof.
  intros Hs. assert (∀ p o, running (mk (Some p) {[p := o]}) = if decide (o = Runs) then {[p]} else ∅) as Hr.
  { intros p o. unfold running. simpl. case_decide.
    - rewrite map_filter_singleton_True by done. by rewrite dom_singleton_L.
    - rewrite map_filter_singleton_False by done. by rewrite dom_empty_L. }
  destruct w; simpl in Hs;
    cases;
    subst s; rewrite ?Hr; try case_decide; by eauto.
Qed.

(** C9: as long as callers of __WaitDisconnect come one by one, whatever MakeSureConnected
    and the end of the thread do between their lines, none of them joins or deletes a
    thread that is gone or not joined, and never do two threads run __Run. *)
Theorem one_run x : reachable one_by_one x →
  ¬ faulty x ∧ ∀ p q, p ∈ running (client x) → q ∈ running (client x) → p = q ∧ _thread (client x) = Some p.
Proof.
  intros Hr%one_by_one_inv. assert (∃ w, shape w (client x)) as [w Hs].
  { destruct Hr as [[Hs _]|(n & w & Hs & _)]; by eexists. }
  split.
  - intros (i & w1 & Hi & Hw). destruct Hr as [[_ E]|(n & w2 & Hs2 & E)]; rewrite E in Hi; [done|].
    apply last_waiter in Hi as [->|[_ ->]]; [done|].
    destruct (wait_step_shape _ _ Hs2) as [E'|(? & ? & E' & _)]; by rewrite Hw in E'.
  - intros p q. destruct (shape_running _ _ Hs) as [->|(r & -> & ->)]; set_solver.
Qed.

(** Two callers at once, the application and the alarm that reconnects: what the second
    does is undefined. *)
Theorem two_waiters : reachable any both_joined ∧ faulty both_joined.
Proof.
  split; [|by exists 1%nat, AtJoin].
  unfold reachable, init. set (p := 1%positive).
  eapply rtc_l; [apply (step_connect _ _ _ false p); done|].
  eapply rtc_l; [by apply step_call|]. eapply rtc_l; [by apply step_call|]. simpl.
  eapply rtc_l; [by apply (step_wait _ _ _ 0 AtCheck)|].
  eapply rtc_l; [by apply (step_wait _ _ _ 1 AtCheck)|].
  eapply rtc_l; [by apply (step_ends _ _ _ p)|].
  eapply rtc_l; [by apply (step_wait _ _ _ 0 AtJoin)|].
  apply rtc_refl.
Qed.

(** A caller waits for the thread to end. *)
Lemma waits : reachable one_by_one (mkSystem [AtJoin] (mk (Some 1%positive) {[1%positive := Runs]})).
Proof.
  unfold reachable, init. eapply rtc_l; [by apply (step_connect _ _ _ false 1%positive)|].
  eapply rtc_l; [apply step_call; constructor|]. simpl.
  eapply rtc_l; [by apply (step_wait _ _ _ 0 AtCheck)|]. apply rtc_refl.
Qed.

Lemma one_run_witness : ¬ faulty (mkSystem [AtJoin] (mk (Some 1%positive) {[1%positive := Runs]})).
Proof. exact (proj1 (one_run _ waits)). Defined.

End Joining.
